(* ===== verification/_CoqProject ===== *)
-Q . S2P
Prelude.v
GoNum.v
GoStrings.v
GoDuration.v
Backoff.v
NetworkPolicy.v
Egress.v
Domain.v
History.v
Lifecycle.v
Store.v
StoreInv.v
Sample.v
StoreJobs.v
StoreSpec.v
StoreClaim.v
StoreRead.v
Checker.v
Config.v
ConfigSpec.v
Links.v
Metrics.v
Alert.v
Sql.v
Migrations.v
PgSchema.v
Postgres.v
PgOutbox.v
PgInv.v
PgSample.v
PgLife.v
PgRefine.v
PgAtomic.v
PgSpec.v
PgOutboxSpec.v
Queue.v
Shared.v
Rabbit.v
RabbitPublish.v
RabbitSample.v
RabbitSpec.v
RabbitDelivery.v
RabbitLoops.v
RabbitStart.v
Runtime.v
Loops.v
Server.v
Workers.v
App.v
AppSpec.v
Supervision.v
Pipeline.v
PipelineSpec.v
Lost.v
Api.v
