(* ===== verification/Prelude.v ===== *)
(** * Site Checker: a verification library for the monitoring pipeline

    Site Checker (Go, [src/internal/sitechecker]) checks web sites on a
    schedule.  A scheduler claims due jobs from a store and publishes them to a
    queue; workers take deliveries, start the job under a lease, make an HTTP
    request through an egress policy, record the result, and settle the
    delivery; results open and resolve incidents, whose alerts go to a webhook;
    an HTTP API manages the monitors; metrics count everything.  One process runs
    the components of its role and ends when asked to or when one of them fails.

    ** How the code is modelled

    A method that holds its object's mutex throughout is one function from a
    state to the next state and its results.  Records carry the fields of the
    Go structs, results of fallible functions are [res], an operation that may
    panic returns an [option] whose [None] is the panic.  Integers are [Z]s of
    64 bits with the wrap-around written out ([GoNum.wrap64]); instants are
    nanoseconds; maps are [gmap]s iterated in the order of a [MapRange], which
    no theorem fixes; strings are byte strings.  What an operation draws from
    its surroundings is an argument: readings of the clock, random bytes of new
    identifiers.  Code that is called but is not part of the repository is a
    parameter: the URL parser and Unicode tables ([Egress.URLParser],
    [GoStrings.Unicode]), the JSON decoder ([Api.JSONDecoder]), the HTTP clients ([Checker.HTTPClient],
    [Alert.WebhookClient]), [http.ParseTime], the text of a float64.
    Code that calls the repository, the broker and the clock in turn is a
    program over these calls ([Runtime.prog]); its properties hold for every
    answer ([Runtime.wp]), and it runs on the concrete store and queue
    ([Pipeline]).  Where goroutines share state the program also has critical
    sections, before which others may move the state ([Shared]); where they wait
    for each other the goroutines are a step relation ([Queue], [Workers],
    [Supervision]).  SQL statements are functions on tables ([Sql.stmt]), methods
    of the PostgreSQL repository are sessions of statements ([Sql.proc]) with a
    server that decides when each runs, whether it fails or loses its reply,
    which rows others hold locked, and what other clients do in between.

    ** Files

    Foundations:
    - [Prelude]: results, functional record update, map iteration, sorting.
    - [GoNum], [GoStrings], [GoDuration]: machine integers, instants, float64;
      string functions and [time.ParseDuration] of the standard library.
    - [Shared]: goroutines that take a mutex now and then and make calls in
      between: programs, their runs and logs, interleavings that are joined.
      [Lifecycle]: rows of a table that move along a step relation.

    Domain and in-memory back end:
    - [Domain] (monitor.go): the data types and input validation.
    - [History], [Store] (monitor.go): bounded histories; [MonitorStore] and
      all its methods, one definition each under the method's name.
    - [StoreInv]: the store's invariant [store_wf], the operations as
      [StoreOp], reachable stores; [Sample]: a small concrete run; [StoreJobs]:
      the life cycle of a job; [StoreSpec], [StoreClaim], [StoreRead]: the
      properties of the store.
    - [Queue] (queue.go): [InMemoryQueue], sequentially and as the
      interleaving of its critical sections.

    Checks and alerts:
    - [Backoff] (alert.go, queue.go, runtime.go): the four delay functions.
    - [NetworkPolicy], [Egress] (security.go): which addresses are public; URL
      validation, DNS filtering, dialling and redirects.
    - [Checker] (checker.go, status_policy.go): status policies and one check.
    - [Alert] (alert.go): one webhook delivery and what is recorded about it.
    - [Metrics] (metrics.go): counters, gauges, the text exposition.

    PostgreSQL:
    - [Sql]: statements, transactions, the server, and what sessions guarantee.
    - [Migrations] (db.go): applying the scripts, the start-up check.
    - [PgSchema] (migrations/*.sql, the scan functions): rows, constraints and
      the invariant [tables_wf]; [Postgres] (postgres_repository.go): monitors,
      jobs, results and incidents, one definition per method ([pg_Create], ...);
      [PgOutbox] (postgres_repository.go, postgres_retention.go): the alert
      outbox and retention.
    - [PgInv]: what one statement may do ([table_step]), the methods as [PgOp],
      the invariant; [PgSample]: a small concrete session; [PgLife]: the lives of
      jobs and alerts; [PgRefine]: agreement with the in-memory store; [PgAtomic]:
      what an error says about the tables; [PgSpec], [PgOutboxSpec]: the
      properties of the methods.

    RabbitMQ (queue.go):
    - [Rabbit]: the queue's state, connection, topology repair and recovery;
      [RabbitPublish]: publication, the consumer, settlement; [RabbitStart]: the
      constructor.  [RabbitSample]: a small broker; [RabbitSpec]: what other
      goroutines may do, and connections; [RabbitDelivery]: messages;
      [RabbitLoops]: recoveries, and the rounds of every loop.

    The process:
    - [Config] (config.go), [ConfigSpec]: [LoadConfig], and the declarative table
      it agrees with; [Links] (links.go, repository.go): the seeds.
    - [Runtime] (runtime.go, service.go): the scheduler pass, the delivery
      handler, the requeue after infrastructure failures, the retry loop.
    - [Loops] (runtime.go, retention.go, alert.go): the scheduler, retention and
      dispatcher loops, and the concurrent batch of alerts.
    - [Workers] (runtime.go): the pool of workers as a step relation.
    - [Server] (observability.go, runtime.go): readiness, timeouts, the
      goroutines of the HTTP server.
    - [App], [AppSpec] (app.go, runtime.go): start-up and shutdown in order;
      [Supervision] (app.go): the running application as a step relation over the
      components of [Loops], [Workers] and [Server].
    - [Pipeline], [PipelineSpec] (repository.go): the programs of [Runtime] on
      the in-memory repository and queue; [Lost]: the application after the queue
      lost an attempt.
    - [Api] (api.go, service.go): authentication, pagination and the handlers.

    ** What is proved

    - The store: a run panics only when a claim's limit is beyond what [make]
      accepts, and none breaks the invariant; histories are bounded;
      jobs follow their life cycle; a worker is fenced by its lease, a scheduler
      by its publication claim; an attempt is granted once and a result recorded
      once; incidents follow results; claiming implements its specification,
      selects nothing twice and leaves nothing due behind; listings and
      statistics are those of the stored data, whatever the map order.
    - The PostgreSQL repository: whatever the server does, constraints and lease
      discipline hold and jobs and alerts follow their life cycles; a method that
      reports an error changed nothing, unless the reply to its last write was
      lost, and then it did all of it; its job protocol refines the in-memory
      store; a result is recorded under a lease held until the job is completed,
      with exactly its effects; claims of jobs and alerts are sound and leases
      fence them; retention deletes only what expired; each migration runs once,
      in order; and, as a negative result, an error text that can never be
      recorded.
    - RabbitMQ: a publication succeeds only when confirmed and not returned, late
      returns included; deliveries are settled once; a lost queue is restored only
      after the handler recovered its jobs, and a loss is marked as recovered only
      then; connections are closed or installed; every loop of every operation
      ends unless the broker, the clock or other goroutines keep it going; every
      write has a deadline; messages read back.
    - The pipeline: a pass queues or releases every job it claims; a worker in
      time completes its job; a delivery is settled at most once and only for a
      recorded reason; state transitions are retried until they succeed; jobs
      whose messages vanished with the broker's queues are published again; and, as
      a negative result, a concrete interleaving in which the in-memory queue
      loses a republished attempt, which nothing but an update or a deletion of the
      monitor repairs.
    - Egress: no connection to a non-public address, whatever DNS answers;
      bounded, validated redirects; recorded errors do not quote URLs.
    - The process: the configuration is accepted exactly when it meets its table,
      and then leases outlast the work they cover; start-up and shutdown keep
      their order and leave nothing open on every path; while the application
      runs no component is missing, and a component's failure ends it within a
      bounded number of steps; the loops survive every failure and do not spin;
      the pool of workers loses no delivery and no error, and ends when told;
      readiness tells which dependencies failed.
    - Around it: the API answers every request with a status that openapi.yaml
      lists for its operation, but for pages that are refused, and only to the
      holder of the key; metrics stay consistent and bounded and
      label values cannot escape their quotes; an alert has one outcome recorded
      per delivery, with a bounded delay.

    ** How the parts meet

    [LoadConfig]'s limits are the hypotheses of [Loops] (delays of alerts) and
    [Server] (time for a response).  The handler of [Runtime] is what a worker of
    [Workers] runs; how a component may end in [Supervision] is how the programs
    of [Loops], [Workers] and [Server] end; [App] starts exactly those
    components, each once what it works on is open.  [Pipeline] runs [Runtime] on
    [Store] and [Queue]; [PgRefine] relates [Postgres] to [Store]; [Rabbit]'s
    topology recovery is the method [Postgres] and [Store] share.

    ** Bounds and fuel

    Loops over lists and slices are structural; [Backoff] runs its loops for the
    number of iterations their guards allow.  Loops the code leaves unbounded have
    fuel: in [Runtime.retry_loop] its exhaustion is [None], the safety theorems
    hold for every fuel, and [retry_until_persisted] shows that [n] failures need
    [n + 1] rounds; in the programs of [Shared] ([Rabbit], [Loops]) it is [Spent],
    which no run returns from, and the theorems on loops say where a run that
    spends it stands ([exhausts]; for every operation of the queue,
    [RabbitLoops.rabbit_do_sound]).  The interleaving of a batch has four steps per
    alert, which is enough ([dispatchAlertBatch_ends]).  Machine integers wrap at
    64 bits; theorems that need room say so.

    ** Not modelled

    The OpenAPI document, which is embedded and served as it is ([Api.responses]
    lists its status codes); the capacity checks of the slices that the PostgreSQL
    repository makes for a limit, which is between 1 and 1000 in every accepted
    configuration (the in-memory store's is modelled, [Store.make_slice]); the assembly of
    [net/http] servers, clients and transports, routing, and the registration of
    pprof; signal handling; JSON encoding; logging; the legacy loop [RunWorker],
    which only a benchmark calls. *)

From stdpp Require Import base list gmap strings sorting.
From Stdlib Require Import ZArith Lia.

#[global] Open Scope Z_scope.
#[global] Set Default Goal Selector "!".

(** ** Results of fallible Go functions

    A Go function returning [(T, error)] is a function into [res E T]: the
    value together with a nil error, or the error. *)

Inductive res (E A : Type) : Type :=
| Ok (a : A)
| Err (e : E).
Arguments Ok {E A} a.
Arguments Err {E A} e.

Declare Scope go_scope.
Delimit Scope go_scope with go.

(** [let! x := e in k] is the Go idiom [x, err := e; if err != nil { return err }]. *)
Notation "'let!' x := e 'in' k" :=
  (match e with Ok x => k | Err err => Err err end)
  (at level 10, x pattern, e at level 100, k at level 200, only parsing) : go_scope.
Open Scope go_scope.

Definition is_Ok {E A} (r : res E A) : bool :=
  match r with Ok _ => true | Err _ => false end.

Lemma Ok_inj {E A} (x y : A) : (Ok x : res E A) = Ok y → x = y.
Proof. by injection 1. Qed.

(** ** Functional record update

    [r <| f := v |>] is [r] with field [f] set to [v].  A record opts in by
    declaring an [Eta] instance that rebuilds it from its projections; the
    setter of a field is then found by pattern matching. *)

Class Eta (R : Type) := eta : R → R.
Class Setter {R T : Type} (proj : R → T) := set_field : T → R → R.
Arguments set_field {R T} proj {_} v r : simpl nomatch.

Ltac solve_setter :=
  lazymatch goal with
  | |- @Setter ?R ?T ?proj =>
      let v := fresh "v" in let r := fresh "r" in
      intros v r;
      let e := constr:(_ : Eta R) in
      let b := eval cbv delta [eta] in (@eta R e r) in
      let b := eval hnf in b in
      match b with
      | context C [proj r] => let b' := context C [v] in exact b'
      end
  end.
#[export] Hint Extern 1 (Setter _) => solve_setter : typeclass_instances.

Notation "r <| f := v |>" := (set_field f v r)
  (at level 1, left associativity, f at level 9, v at level 200,
   format "r  '<|' f  :=  v '|>'") : go_scope.

(** ** Iterating over a Go map

    [for k, v := range m] visits every entry once, in an order the language
    leaves unspecified.  The models take the order as an instance of
    [MapRange]; every theorem holds for each such order. *)

Class MapRange := {
  map_range : ∀ {V : Type}, gmap string V → list (string * V);
  map_range_perm : ∀ {V : Type} (m : gmap string V), map_range m ≡ₚ map_to_list m;
}.

(** The order of the finite-map library, used to evaluate concrete states. *)
Definition list_order : MapRange :=
  {| map_range V m := map_to_list m; map_range_perm V m := reflexivity _ |}.

Section map_range.
Context `{!MapRange} {V : Type}.
Implicit Types (m : gmap string V).

Lemma elem_of_map_range m k v : (k, v) ∈ map_range m ↔ m !! k = Some v.
Proof. by rewrite map_range_perm, elem_of_map_to_list. Qed.

Lemma NoDup_map_range_keys m : NoDup (map_range m).*1.
Proof. rewrite map_range_perm. apply NoDup_fst_map_to_list. Qed.

Lemma length_map_range m : length (map_range m) = size m.
Proof. by rewrite map_range_perm, length_map_to_list. Qed.

Lemma elem_of_map_range_values m v : v ∈ (map_range m).*2 ↔ ∃ k, m !! k = Some v.
Proof.
  rewrite list_elem_of_fmap. split.
  - intros ([k v'] & -> & Hk). exists k. by apply elem_of_map_range.
  - intros [k Hk]. exists (k, v). by rewrite elem_of_map_range.
Qed.
(** A table whose entries carry their own key. *)
Lemma map_range_ids (f : V → string) m :
  (∀ k v, m !! k = Some v → f v = k) → f <$> (map_range m).*2 = (map_range m).*1.
Proof.
  intros Hf. rewrite <- list_fmap_compose. apply list_fmap_ext. intros i [k v] Hi.
  apply Hf, elem_of_map_range. by eapply list_elem_of_lookup_2.
Qed.
End map_range.

(** ** Boolean filters *)

Lemma elem_of_filter_bool {A} (f : A → bool) (l : list A) x : x ∈ List.filter f l ↔ x ∈ l ∧ f x = true.
Proof. rewrite !list_elem_of_In. apply List.filter_In. Qed.

Lemma NoDup_fmap_filter {A B} (g : A → B) (f : A → bool) (l : list A) :
  NoDup (g <$> l) → NoDup (g <$> List.filter f l).
Proof.
  induction l as [|x l IH]; cbn; [done|]. intros [Hx Hl]%NoDup_cons.
  destruct (f x); cbn; [|by apply IH]. apply NoDup_cons. split; [|by apply IH].
  intros (y & Hg & [Hy _]%elem_of_filter_bool)%list_elem_of_fmap. apply Hx, list_elem_of_fmap. eauto.
Qed.

(** ** Sorting with a comparison function

    [slices.SortFunc] sorts by a comparison returning a negative, zero or
    positive number; [merge_sort] is a sorted permutation, and the only one
    when the comparison separates distinct elements. *)

Definition cmp_le {A} (cmp : A → A → Z) (a b : A) : Prop := cmp a b <= 0.
#[export] Instance cmp_le_dec {A} (cmp : A → A → Z) : RelDecision (cmp_le cmp).
Proof. intros a b. unfold cmp_le. apply _. Defined.

Definition SortFunc {A} (cmp : A → A → Z) (l : list A) : list A :=
  merge_sort (cmp_le cmp) l.

(** What the callers' comparison functions satisfy. *)
Class GoodCmp {A} (cmp : A → A → Z) := {
  good_cmp_total : Total (cmp_le cmp);
  good_cmp_trans : Transitive (cmp_le cmp);
}.
#[export] Existing Instances good_cmp_total good_cmp_trans.

Lemma SortFunc_Permutation {A} (cmp : A → A → Z) (l : list A) : SortFunc cmp l ≡ₚ l.
Proof. apply merge_sort_Permutation. Qed.

Lemma SortFunc_sorted {A} (cmp : A → A → Z) `{!GoodCmp cmp} (l : list A) :
  StronglySorted (cmp_le cmp) (SortFunc cmp l).
Proof. apply (StronglySorted_merge_sort _). Qed.

Lemma elem_of_SortFunc {A} (cmp : A → A → Z) (l : list A) x : x ∈ SortFunc cmp l ↔ x ∈ l.
Proof. by rewrite SortFunc_Permutation. Qed.

Lemma length_SortFunc {A} (cmp : A → A → Z) (l : list A) : length (SortFunc cmp l) = length l.
Proof. by rewrite SortFunc_Permutation. Qed.

(** Any sorted rearrangement is the one computed here: the unspecified
    iteration order and the choice of sorting algorithm are unobservable. *)
Lemma SortFunc_unique {A} (cmp : A → A → Z) `{!GoodCmp cmp} (l l' : list A) :
  l' ≡ₚ l → StronglySorted (cmp_le cmp) l' →
  (∀ x y, x ∈ l → y ∈ l → cmp_le cmp x y → cmp_le cmp y x → x = y) →
  l' = SortFunc cmp l.
Proof.
  intros Hp Hs Hanti.
  apply (StronglySorted_unique_strong (cmp_le cmp)); [|done|by apply SortFunc_sorted|].
  - intros x y Hx Hy. apply Hanti; [by rewrite <- Hp|by apply elem_of_SortFunc in Hy].
  - by rewrite SortFunc_Permutation.
Qed.

(** Sorting what two iteration orders yield gives the same list. *)
Lemma SortFunc_perm {A} (cmp : A → A → Z) `{!GoodCmp cmp} (l1 l2 : list A) :
  l1 ≡ₚ l2 → (∀ x y, x ∈ l2 → y ∈ l2 → cmp_le cmp x y → cmp_le cmp y x → x = y) →
  SortFunc cmp l1 = SortFunc cmp l2.
Proof.
  intros Hp Ha. apply (SortFunc_unique cmp l2); [|by apply SortFunc_sorted|done].
  etrans; [apply SortFunc_Permutation|done].
Qed.

(** ** Sizes of finite sets *)

Lemma size_list_to_set_le `{Countable A} (l : list A) : (size (list_to_set l : gset A) <= length l)%nat.
Proof.
  induction l as [|x l IH]; cbn [list_to_set length]; [by rewrite size_empty|].
  rewrite size_union_alt, size_singleton.
  assert (size ((list_to_set l : gset A) ∖ {[x]}) <= size (list_to_set l : gset A))%nat
    by (apply subseteq_size; set_solver). lia.
Qed.
