(* ===== verification/GoNum.v ===== *)
(** * Go integers, durations and instants

    [int], [int64] and [time.Duration] are integers of 64 bits whose
    arithmetic wraps; [time.Time] is an instant.  The model keeps a machine
    integer as a [Z] and writes the wrap-around out with [wrap64]. *)

From stdpp Require Import base list.
From Stdlib Require Import ZArith Lia.
From Corelib Require Import SpecFloat.
From S2P Require Import Prelude.

Definition two63 : Z := 9223372036854775808.
Definition two64 : Z := 18446744073709551616.
Definition max_int64 : Z := 9223372036854775807.

(** Two's complement reduction of a mathematical integer to 64 bits. *)
Definition wrap64 (z : Z) : Z := (z + two63) mod two64 - two63.
Definition in_int64 (z : Z) : Prop := - two63 <= z <= max_int64.
#[export] Instance in_int64_dec z : Decision (in_int64 z).
Proof. unfold in_int64. apply _. Defined.

Lemma wrap64_id z : in_int64 z → wrap64 z = z.
Proof.
  unfold in_int64, wrap64, two63, two64, max_int64. intros H.
  rewrite Z.mod_small by lia. lia.
Qed.

Lemma wrap64_range z : in_int64 (wrap64 z).
Proof.
  unfold in_int64, wrap64, two63, two64, max_int64.
  pose proof (Z.mod_pos_bound (z + 9223372036854775808) 18446744073709551616). lia.
Qed.

(** ** Durations, in nanoseconds *)
Definition Nanosecond : Z := 1.
Definition Microsecond : Z := 1000.
Definition Millisecond : Z := 1000000.
Definition Second : Z := 1000000000.
Definition Minute : Z := 60000000000.
Definition Hour : Z := 3600000000000.

(** ** Instants

    An instant is the number of nanoseconds since Go's zero time
    (1 January of year 1, UTC), so that [IsZero] tests for 0.  [UTC] changes
    only the location an instant is printed in and is the identity here. *)
Definition Time : Type := Z.
Definition time_zero : Time := 0.
Definition IsZero (t : Time) : bool := t =? 0.
Definition After (t u : Time) : bool := u <? t.
Definition Before (t u : Time) : bool := t <? u.
Definition TimeEqual (t u : Time) : bool := t =? u.
Definition UTC (t : Time) : Time := t.
Definition AddDur (t : Time) (d : Z) : Time := t + d.
(** [t.Compare(u)]. *)
Definition TimeCompare (t u : Time) : Z :=
  if t <? u then -1 else if u <? t then 1 else 0.

(** Seconds between year 1 and 1970. *)
Definition unixToInternal : Z := 62135596800.
Definition UnixNano (t : Time) : Z := wrap64 (t - unixToInternal * Second).

(** [time.Duration(n) * time.Second] for an [int] n. *)
Definition seconds (n : Z) : Z := wrap64 (n * Second).

Lemma seconds_small n : -9223372036 <= n <= 9223372036 → seconds n = n * Second.
Proof. intros H. apply wrap64_id. unfold in_int64, two63, max_int64, Second. lia. Qed.

(** Reflecting the boolean tests of the code. *)
Ltac go_bool :=
  repeat match goal with
  | H : context [IsZero _] |- _ => unfold IsZero in H
  | |- context [IsZero _] => unfold IsZero
  | H : context [After _ _] |- _ => unfold After in H
  | |- context [After _ _] => unfold After
  | H : context [Before _ _] |- _ => unfold Before in H
  | |- context [Before _ _] => unfold Before
  | H : context [TimeEqual _ _] |- _ => unfold TimeEqual in H
  | |- context [TimeEqual _ _] => unfold TimeEqual
  end.

(** ** float64

    The 53-bit binary floating-point arithmetic of [SpecFloat], rounding to
    nearest, ties to even. *)
Definition float64_of (z : Z) : spec_float := binary_normalize 53 1024 z 0 false.
Definition float64_div : spec_float → spec_float → spec_float := SFdiv 53 1024.
Definition float64_mul : spec_float → spec_float → spec_float := SFmul 53 1024.
Definition float64_add : spec_float → spec_float → spec_float := SFadd 53 1024.

(** [Duration.Seconds]. *)
Definition Seconds (d : Z) : spec_float :=
  float64_add (float64_of (Z.quot d Second)) (float64_div (float64_of (Z.rem d Second)) (float64_of 1000000000)).

(** ** uint64 counters *)
Definition wrapu64 (z : Z) : Z := z mod two64.
