(* ===== verification/GoStrings.v ===== *)
(** * The parts of Go's [strings], [strconv], [unicode/utf8] and [hash/fnv]
      that the program uses

    A Go string is a sequence of bytes: [String.string] with one [ascii] per
    byte. *)

From stdpp Require Import base list strings.
From Stdlib Require Import ZArith Lia String Ascii DecimalString DecimalZ DecimalFacts.
From S2P Require Import Prelude GoNum.
#[local] Open Scope string_scope.
#[local] Open Scope Z_scope.

Definition byte_val (c : ascii) : Z := Z.of_N (N_of_ascii c).

(** ** Comparison: Go's [<] on strings is bytewise lexicographic *)

Definition compareString (a b : string) : Z :=
  match String.compare a b with Lt => -1 | Eq => 0 | Gt => 1 end.

Lemma ascii_compare_trans c1 c2 c3 r :
  Ascii.compare c1 c2 = r → Ascii.compare c2 c3 = r → Ascii.compare c1 c3 = r.
Proof.
  unfold Ascii.compare. destruct r.
  - rewrite !N.compare_eq_iff. lia.
  - rewrite !N.compare_lt_iff. lia.
  - rewrite !N.compare_gt_iff. lia.
Qed.

Lemma ascii_compare_eq c1 c2 : Ascii.compare c1 c2 = Eq ↔ c1 = c2.
Proof.
  unfold Ascii.compare. rewrite N.compare_eq_iff. split; [|by intros ->].
  intros H. by rewrite <- (ascii_N_embedding c1), <- (ascii_N_embedding c2), H.
Qed.

Lemma string_compare_trans_lt a b c :
  String.compare a b = Lt → String.compare b c = Lt → String.compare a c = Lt.
Proof.
  revert b c. induction a as [|x a IH]; intros [|y b] [|z c]; cbn; try done.
  destruct (Ascii.compare x y) eqn:E1, (Ascii.compare y z) eqn:E2; try done; intros H1 H2.
  - rewrite (ascii_compare_trans _ _ _ _ E1 E2). by eapply IH.
  - apply ascii_compare_eq in E1 as ->. by rewrite E2.
  - apply ascii_compare_eq in E2 as ->. by rewrite E1.
  - by rewrite (ascii_compare_trans _ _ _ _ E1 E2).
Qed.

Lemma string_compare_refl a : String.compare a a = Eq.
Proof.
  induction a as [|x a IH]; cbn; [done|].
  by rewrite (proj2 (ascii_compare_eq x x) eq_refl).
Qed.

Lemma compareString_eq a b : compareString a b = 0 ↔ a = b.
Proof.
  unfold compareString. destruct (String.compare a b) eqn:E; split; intros H; try done.
  - by apply String.compare_eq_iff in E.
  - subst. by rewrite string_compare_refl in E.
  - subst. by rewrite string_compare_refl in E.
Qed.

Lemma compareString_antisym a b : compareString b a = - compareString a b.
Proof.
  unfold compareString. rewrite (String.compare_antisym a b).
  by destruct (String.compare b a).
Qed.

Lemma compareString_trans a b c :
  compareString a b <= 0 → compareString b c <= 0 → compareString a c <= 0.
Proof.
  unfold compareString.
  destruct (String.compare a b) eqn:E1, (String.compare b c) eqn:E2; try lia; intros _ _.
  - apply String.compare_eq_iff in E1 as ->. by rewrite E2.
  - apply String.compare_eq_iff in E1 as ->. by rewrite E2.
  - apply String.compare_eq_iff in E2 as ->. by rewrite E1.
  - by rewrite (string_compare_trans_lt _ _ _ E1 E2).
Qed.

#[export] Instance compareString_good : GoodCmp compareString.
Proof.
  split.
  - intros a b. unfold cmp_le. rewrite (compareString_antisym a b). lia.
  - intros a b c. apply compareString_trans.
Qed.

(** ** Lists of bytes and searching *)

(** Equal under [sort.Strings] is the same string. *)
Lemma compareString_le_antisym a b : cmp_le compareString a b → cmp_le compareString b a → a = b.
Proof. unfold cmp_le. rewrite (compareString_antisym a b). intros ? ?. apply compareString_eq. lia. Qed.

Fixpoint has_byte (c : ascii) (s : string) : bool :=
  match s with
  | EmptyString => false
  | String x s' => Ascii.eqb x c || has_byte c s'
  end.

(** [strings.HasPrefix] and [strings.HasSuffix]. *)
Definition HasPrefix (s p : string) : bool := String.prefix p s.
Definition str_rev (s : string) : string := String.string_of_list_ascii (rev (String.list_ascii_of_string s)).
Definition HasSuffix (s p : string) : bool := String.prefix (str_rev p) (str_rev s).

Fixpoint str_drop (n : nat) (s : string) : string :=
  match n, s with
  | O, _ => s
  | S n', String _ s' => str_drop n' s'
  | S _, EmptyString => EmptyString
  end.

Definition TrimSuffix (s p : string) : string :=
  if HasSuffix s p then String.substring 0 (String.length s - String.length p) s else s.

Lemma substring_prefix n a b : n = String.length a → String.substring 0 n (a +:+ b) = a.
Proof.
  intros ->. induction a as [|x a IH]; [by destruct b|].
  change (String x (String.substring 0 (String.length a) (a +:+ b)) = String x a). by rewrite IH.
Qed.

Lemma prefix_app p s : String.prefix p s = true → ∃ r, s = p +:+ r.
Proof.
  revert s. induction p as [|x p IH]; intros s; cbn.
  - intros _. by exists s.
  - destruct s as [|y s]; [done|]. cbn. destruct (Ascii.ascii_dec x y) as [->|]; [|done].
    intros (r & ->)%IH. by exists r.
Qed.

Lemma string_of_list_app l k :
  String.string_of_list_ascii (l ++ k)%list = String.string_of_list_ascii l +:+ String.string_of_list_ascii k.
Proof. induction l as [|x l IH]; cbn; [done|by rewrite IH]. Qed.
Lemma list_of_string_app a b :
  String.list_ascii_of_string (a +:+ b) = (String.list_ascii_of_string a ++ String.list_ascii_of_string b)%list.
Proof. induction a as [|x a IH]; simpl; [done|]. f_equal. exact IH. Qed.
Lemma str_rev_app a b : str_rev (a +:+ b) = str_rev b +:+ str_rev a.
Proof. unfold str_rev. by rewrite list_of_string_app, rev_app_distr, string_of_list_app. Qed.
Lemma str_rev_involutive s : str_rev (str_rev s) = s.
Proof.
  unfold str_rev. by rewrite String.list_ascii_of_string_of_list_ascii, rev_involutive,
    String.string_of_list_ascii_of_string.
Qed.
Lemma str_app_length a b : String.length (a +:+ b) = (String.length a + String.length b)%nat.
Proof. induction a as [|x a IH]; simpl; [done|]. f_equal. exact IH. Qed.

(** What [TrimSuffix] leaves, with the suffix, is the string. *)
Lemma TrimSuffix_app s p : HasSuffix s p = true → s = TrimSuffix s p +:+ p.
Proof.
  intros H. unfold TrimSuffix. rewrite H. apply prefix_app in H as (r & Hr).
  assert (s = str_rev r +:+ p) as Hs.
  { by rewrite <- (str_rev_involutive s), Hr, str_rev_app, str_rev_involutive. }
  rewrite Hs at 2 3. rewrite substring_prefix; [done|]. rewrite str_app_length. lia.
Qed.

(** [strings.Split(s, c)] for a one-byte separator: never the empty list. *)
Fixpoint Split (c : ascii) (s : string) : list string :=
  match s with
  | EmptyString => [EmptyString]
  | String x s' =>
      if Ascii.eqb x c then EmptyString :: Split c s'
      else match Split c s' with
           | p :: ps => String x p :: ps
           | [] => [String x EmptyString]
           end
  end.

Lemma Split_nonempty c s : Split c s ≠ [].
Proof. destruct s as [|x s]; cbn; [done|]. destruct (Ascii.eqb x c); [done|]. by destruct (Split c s). Qed.

Lemma Split_absent c s : has_byte c s = false → Split c s = [s].
Proof.
  induction s as [|x s IH]; cbn; [done|].
  intros [Hx Hs]%orb_false_iff. rewrite Hx. by rewrite IH.
Qed.

(** ** [strings.TrimSpace]

    White space is the six ASCII characters and the encodings of the
    non-ASCII runes for which [unicode.IsSpace] holds. *)

Definition bytes_str (l : list nat) : string :=
  String.string_of_list_ascii (map ascii_of_nat l).

Definition space_encodings : list string :=
  map bytes_str
    ([[9]; [10]; [11]; [12]; [13]; [32];
      [0xC2; 0x85]; [0xC2; 0xA0]; [0xE1; 0x9A; 0x80];
      [0xE2; 0x80; 0x80]; [0xE2; 0x80; 0x81]; [0xE2; 0x80; 0x82]; [0xE2; 0x80; 0x83];
      [0xE2; 0x80; 0x84]; [0xE2; 0x80; 0x85]; [0xE2; 0x80; 0x86]; [0xE2; 0x80; 0x87];
      [0xE2; 0x80; 0x88]; [0xE2; 0x80; 0x89]; [0xE2; 0x80; 0x8A]; [0xE2; 0x80; 0xA8];
      [0xE2; 0x80; 0xA9]; [0xE2; 0x80; 0xAF]; [0xE2; 0x81; 0x9F]; [0xE3; 0x80; 0x80]]%nat).

(** Drop leading occurrences of the given non-empty encodings; every round
    removes at least one byte, so the length is enough fuel. *)
Fixpoint trim_left (fuel : nat) (enc : list string) (s : string) : string :=
  match fuel with
  | O => s
  | S fuel' =>
      match find (λ p, String.prefix p s) enc with
      | Some p => trim_left fuel' enc (str_drop (String.length p) s)
      | None => s
      end
  end.

Definition TrimSpace (s : string) : string :=
  let l := trim_left (String.length s) space_encodings s in
  str_rev (trim_left (String.length l) (map str_rev space_encodings) (str_rev l)).

(** A string with no space byte at either end is not changed. *)
Definition is_digit (c : ascii) : bool := (48 <=? byte_val c) && (byte_val c <=? 57).

(** ** [strings.ToLower]

    ASCII strings are lowered byte by byte.  For other strings Go maps
    [unicode.ToLower] over the runes; that table is a parameter. *)

Class Unicode := { unicode_ToLower : string → string }.

Definition ascii_lower (c : ascii) : ascii :=
  if (65 <=? byte_val c) && (byte_val c <=? 90) then ascii_of_N (N_of_ascii c + 32) else c.

Fixpoint isASCII (s : string) : bool :=
  match s with
  | EmptyString => true
  | String c s' => (byte_val c <? 128) && isASCII s'
  end.

Fixpoint lower_bytes (s : string) : string :=
  match s with
  | EmptyString => EmptyString
  | String c s' => String (ascii_lower c) (lower_bytes s')
  end.

Definition ToLower `{!Unicode} (s : string) : string :=
  if isASCII s then lower_bytes s else unicode_ToLower s.

(** ** [strconv.Itoa] and [strconv.Atoi] *)

Definition Itoa (z : Z) : string := NilZero.string_of_int (Z.to_int z).

(** Base 10, an optional sign, at least one digit, within the range of int. *)
Definition Atoi (s : string) : option Z :=
  let digits t := match NilZero.uint_of_string t with
                  | Some u => Some (Z.of_uint u) | None => None end in
  let v := match s with
           | String "+" t => digits t
           | String "-" t => match digits t with Some n => Some (- n) | None => None end
           | _ => digits s
           end in
  match v with
  | Some n => if decide (in_int64 n) then Some n else None
  | None => None
  end.

Lemma uint_string_head u t c : NilZero.string_of_uint u = String c t → is_digit c = true.
Proof. destruct u; cbn; intros [= <- _]; reflexivity. Qed.

Lemma Atoi_Itoa z : in_int64 z → Atoi (Itoa z) = Some z.
Proof.
  intros Hz. unfold Itoa, Atoi.
  assert (match Z.to_int z with
          | Decimal.Pos u => Z.of_uint u = z ∧ u ≠ Decimal.Nil
          | Decimal.Neg u => - Z.of_uint u = z ∧ u ≠ Decimal.Nil
          end) as H.
  { pose proof (DecimalZ.of_to z) as Ho. destruct z as [|p|p]; cbn in *; split; try done.
    - intros E. by rewrite E in Ho.
    - intros E. by rewrite E in Ho. }
  destruct (Z.to_int z) as [u|u]; destruct H as [Hu Hn]; cbn.
  - destruct (NilZero.string_of_uint u) as [|c t] eqn:E; [by destruct u|].
    pose proof (uint_string_head _ _ _ E) as Hc.
    pose proof (NilZero.usu u Hn) as Hp. rewrite E in Hp.
    assert (c ≠ "+"%char ∧ c ≠ "-"%char) as [H1 H2] by (by split; intros ->).
    destruct c as [[] [] [] [] [] [] [] []]; try done; rewrite Hp, Hu; by rewrite decide_True.
  - rewrite (NilZero.usu u Hn), Hu. by rewrite decide_True.
Qed.

Fixpoint all_bytes (f : ascii → bool) (s : string) : bool :=
  match s with
  | EmptyString => true
  | String c s' => f c && all_bytes f s'
  end.

(** A printed integer holds digits and perhaps a leading minus sign. *)
Definition num_byte (c : ascii) : bool := is_digit c || Ascii.eqb c "-".

Lemma Itoa_bytes z : all_bytes num_byte (Itoa z) = true.
Proof.
  assert (∀ u, all_bytes num_byte (NilEmpty.string_of_uint u) = true) as H.
  { induction u; cbn; done. }
  assert (∀ u, all_bytes num_byte (NilZero.string_of_uint u) = true) as H'.
  { intros [|u|u|u|u|u|u|u|u|u|u]; [done|apply (H u)..]. }
  unfold Itoa. destruct (Z.to_int z) as [u|u]; cbn; apply H'.
Qed.

Lemma Itoa_inj z1 z2 : Itoa z1 = Itoa z2 → z1 = z2.
Proof.
  unfold Itoa. intros H.
  assert (∀ z, NilZero.int_of_string (NilZero.string_of_int (Z.to_int z)) = Some (Z.to_int z)) as Hr.
  { intros z. apply NilZero.isi; by destruct z as [|p|p]; cbn; try done;
      intros [= E]; pose proof (DecimalZ.of_to (Z.pos p)) as Ho; cbn in Ho; rewrite E in Ho. }
  apply (f_equal NilZero.int_of_string) in H. rewrite !Hr in H.
  injection H as H. apply (f_equal Z.of_int) in H. by rewrite !DecimalZ.of_to in H.
Qed.

(** ** [hash/fnv]: the 64-bit FNV-1a hash *)

Definition fnv_offset64 : Z := 14695981039346656037.
Definition fnv_prime64 : Z := 1099511628211.

Fixpoint fnv64a_from (h : Z) (s : string) : Z :=
  match s with
  | EmptyString => h
  | String c s' => fnv64a_from ((Z.lxor h (byte_val c) * fnv_prime64) mod two64) s'
  end.
Definition fnv64a (s : string) : Z := fnv64a_from fnv_offset64 s.

Lemma byte_val_range c : 0 <= byte_val c < 256.
Proof. unfold byte_val. pose proof (N_ascii_bounded c). lia. Qed.

(** ** [utf8.RuneCountInString]

    One per valid encoding (shortest form, no surrogates, at most U+10FFFF)
    and one per byte that starts none. *)

Definition cont (lo hi : Z) (c : ascii) : bool := (lo <=? byte_val c) && (byte_val c <=? hi).

(** The number of bytes of the rune at the head of a non-empty string. *)
Definition rune_len (s : string) : nat :=
  match s with
  | EmptyString => 0%nat
  | String a t =>
      let b := byte_val a in
      let two := match t with String c1 _ => cont 0x80 0xBF c1 | _ => false end in
      let three lo hi := match t with
        | String c1 (String c2 _) => cont lo hi c1 && cont 0x80 0xBF c2 | _ => false end in
      let four lo hi := match t with
        | String c1 (String c2 (String c3 _)) =>
            cont lo hi c1 && cont 0x80 0xBF c2 && cont 0x80 0xBF c3
        | _ => false end in
      if b <? 0x80 then 1%nat
      else if (0xC2 <=? b) && (b <=? 0xDF) then (if two then 2%nat else 1%nat)
      else if b =? 0xE0 then (if three 0xA0 0xBF then 3%nat else 1%nat)
      else if b =? 0xED then (if three 0x80 0x9F then 3%nat else 1%nat)
      else if (0xE1 <=? b) && (b <=? 0xEF) then (if three 0x80 0xBF then 3%nat else 1%nat)
      else if b =? 0xF0 then (if four 0x90 0xBF then 4%nat else 1%nat)
      else if (0xF1 <=? b) && (b <=? 0xF3) then (if four 0x80 0xBF then 4%nat else 1%nat)
      else if b =? 0xF4 then (if four 0x80 0x8F then 4%nat else 1%nat)
      else 1%nat
  end.

(** [skip] counts the bytes of the current rune still to pass. *)
Fixpoint rune_count_from (skip : nat) (s : string) : Z :=
  match s with
  | EmptyString => 0
  | String _ t =>
      match skip with
      | S k => rune_count_from k t
      | O => 1 + rune_count_from (rune_len s - 1) t
      end
  end.
Definition RuneCountInString (s : string) : Z := rune_count_from 0 s.
