(* ===== verification/GoDuration.v ===== *)
(** * [time.ParseDuration]

    A signed sequence of decimal numbers with a unit each, in nanoseconds.  The
    parser works on [uint64], a fraction of a unit is computed in [float64]. *)

From stdpp Require Import base list strings.
From Stdlib Require Import ZArith Lia String Ascii.
From Corelib Require Import SpecFloat.
From S2P Require Import Prelude GoNum GoStrings.
#[local] Open Scope string_scope.
#[local] Open Scope list_scope.
#[local] Open Scope Z_scope.

(** [1 << 63 / 10] and [(1 << 63 - 1) / 10]. *)
Definition int_cut : Z := 922337203685477580.
Definition digit (c : ascii) : Z := byte_val c - 48.

(** [leadingInt]: the digits at the front; [None] on overflow. *)
Fixpoint leadingInt (s : string) (x : Z) : option (Z * string) :=
  match s with
  | String c s' =>
      if is_digit c then
        if int_cut <? x then None
        else let x := x * 10 + digit c in if two63 <? x then None else leadingInt s' x
      else Some (x, s)
  | EmptyString => Some (x, s)
  end.

(** [leadingFraction]: digits that do not fit are dropped. *)
Fixpoint leadingFraction (s : string) (x : Z) (scale : spec_float) (overflow : bool) : Z * spec_float * string :=
  match s with
  | String c s' =>
      if is_digit c then
        if overflow || (int_cut <? x) then leadingFraction s' x scale true
        else
          let y := x * 10 + digit c in
          if two63 <? y then leadingFraction s' x scale true
          else leadingFraction s' y (float64_mul scale (float64_of 10)) false
      else (x, scale, s)
  | EmptyString => (x, scale, s)
  end.

(** A period and its digits: the fraction, and whether it has digits. *)
Definition leading_point (s : string) : Z * spec_float * string * bool :=
  match s with
  | String "." t => let '(f, scale, t') := leadingFraction t 0 (float64_of 1) false in
                    (f, scale, t', negb (String.length t =? String.length t')%nat)
  | _ => (0, float64_of 1, s, false)
  end.

(** The bytes up to the next digit or period. *)
Fixpoint leading_unit (s : string) : string * string :=
  match s with
  | String c s' =>
      if is_digit c || Ascii.eqb c "." then (EmptyString, s)
      else let '(u, rest) := leading_unit s' in (String c u, rest)
  | EmptyString => (EmptyString, s)
  end.

Definition micro_sign : string := bytes_str [194; 181; 115]%nat.   (* U+00B5 *)
Definition greek_mu : string := bytes_str [206; 188; 115]%nat.     (* U+03BC *)

Definition unitMap (u : string) : option Z :=
  if String.eqb u "ns" then Some Nanosecond
  else if String.eqb u "us" || String.eqb u micro_sign || String.eqb u greek_mu then Some Microsecond
  else if String.eqb u "ms" then Some Millisecond
  else if String.eqb u "s" then Some Second
  else if String.eqb u "m" then Some Minute
  else if String.eqb u "h" then Some Hour
  else None.

(** [uint64(x)] of a non-negative finite float. *)
Definition float64_trunc (x : spec_float) : Z :=
  match x with S754_finite false m e => Z.shiftl (Z.pos m) e | _ => 0 end.

(** One number and its unit: the nanoseconds and the rest of the text. *)
Definition parse_item (s : string) : option (Z * string) :=
  match s with
  | EmptyString => None
  | String c _ =>
      if negb (is_digit c || Ascii.eqb c ".") then None
      else match leadingInt s 0 with
      | None => None
      | Some (v, s1) =>
          let pre := negb (String.length s =? String.length s1)%nat in
          let '(f, scale, s2, post) := leading_point s1 in
          if negb pre && negb post then None
          else
            let '(u, s3) := leading_unit s2 in
            if String.eqb u "" then None
            else match unitMap u with
            | None => None
            | Some unit =>
                if two63 / unit <? v then None
                else
                  let v := v * unit in
                  let v := if 0 <? f then v + float64_trunc (float64_mul (float64_of f) (float64_div (float64_of unit) scale)) else v in
                  if (0 <? f) && (two63 <? v) then None else Some (v, s3)
            end
      end
  end.

(** Each item is at least two bytes long. *)
Fixpoint parse_items (fuel : nat) (s : string) (d : Z) : option Z :=
  match fuel with
  | O => None
  | S fuel =>
      if String.eqb s "" then Some d
      else match parse_item s with
      | None => None
      | Some (v, s) => let d := wrapu64 (d + v) in if two63 <? d then None else parse_items fuel s d
      end
  end.

Definition ParseDuration (orig : string) : option Z :=
  let '(neg, s) := match orig with
                   | String "-" t => (true, t)
                   | String "+" t => (false, t)
                   | _ => (false, orig)
                   end in
  if String.eqb s "0" then Some 0
  else if String.eqb s "" then None
  else match parse_items (S (String.length s)) s 0 with
  | None => None
  | Some d => if neg then Some (wrap64 (- wrap64 d)) else if max_int64 <? d then None else Some d
  end.

Lemma ParseDuration_examples :
  ParseDuration "1h15m30.918273645s" = Some 4530918273645
  ∧ ParseDuration "-2m3.5s" = Some (- 123500000000)
  ∧ ParseDuration "1.5h" = Some 5400000000000
  ∧ ParseDuration "100" = None ∧ ParseDuration "1y" = None
  ∧ ParseDuration "-9223372036854775808ns" = Some (- two63)
  ∧ ParseDuration "9223372036854775808ns" = None.
Proof. vm_compute. tauto. Qed.

(** ** The parser consumes the text *)

Lemma leadingInt_length s x v s' : leadingInt s x = Some (v, s') → (String.length s' <= String.length s)%nat.
Proof.
  revert x. induction s as [|c s IH]; intros x; cbn; [by intros [= <- <-]|].
  destruct (is_digit c); [|by intros [= <- <-]]. destruct (_ <? _); [done|]. destruct (_ <? _); [done|]. intros H%IH. lia.
Qed.

Lemma leadingFraction_length s x sc o : (String.length (leadingFraction s x sc o).2 <= String.length s)%nat.
Proof.
  revert x sc o. induction s as [|c s IH]; intros x sc o; cbn; [lia|]. destruct (is_digit c); [|cbn; lia].
  destruct (_ || _); [apply Nat.le_le_succ_r, IH|]. destruct (_ <? _); apply Nat.le_le_succ_r, IH.
Qed.

Lemma leading_point_length s : (String.length (leading_point s).1.2 <= String.length s)%nat.
Proof.
  destruct s as [|c s]; [cbn; lia|]. destruct c as [[] [] [] [] [] [] [] []]; try (cbn [leading_point fst snd]; lia).
  cbn [leading_point]. pose proof (leadingFraction_length s 0 (float64_of 1) false) as Hl.
  destruct (leadingFraction s _ _ _) as [[f sc] t]. cbn [fst snd] in *. cbn. lia.
Qed.

Lemma leading_unit_length s :
  (String.length (leading_unit s).1 + String.length (leading_unit s).2 = String.length s)%nat.
Proof.
  induction s as [|c s IH]; cbn; [done|]. destruct (_ || _); [done|]. destruct (leading_unit s). cbn in *. lia.
Qed.

(** The nanoseconds of a parsed duration fit its type. *)
Lemma ParseDuration_range s d : ParseDuration s = Some d → in_int64 d.
Proof.
  assert (∀ n t a v, 0 <= a → parse_items n t a = Some v → 0 <= v) as Hpos.
  { intros n. induction n as [|n IH]; intros t a v Ha; cbn [parse_items]; [done|].
    destruct (String.eqb t ""); [by intros [= <-]|]. destruct (parse_item t) as [[w t']|]; [|done].
    destruct (two63 <? wrapu64 (a + w)); [done|]. apply IH. unfold wrapu64, two64. apply Z.mod_pos_bound. lia. }
  unfold ParseDuration. destruct (match s with String "-" t => _ | String "+" t => _ | _ => _ end) as [neg t].
  destruct (String.eqb t "0"); [intros [= <-]; by unfold in_int64, two63, max_int64|].
  destruct (String.eqb t ""); [done|]. destruct (parse_items _ t 0) as [v|] eqn:Hp; [|done].
  destruct neg; [intros [= <-]; apply wrap64_range|]. destruct (Z.ltb_spec max_int64 v) as [|Hle]; [done|]. intros [= <-].
  apply Hpos in Hp; [|lia]. unfold in_int64, two63. lia.
Qed.

Lemma parse_item_length s v s' : parse_item s = Some (v, s') → (String.length s' < String.length s)%nat.
Proof.
  destruct s as [|c s]; [done|]. unfold parse_item. destruct (negb (_ || _)); [done|].
  destruct (leadingInt (String c s) 0) as [[w s1]|] eqn:Hi; [|done]. apply leadingInt_length in Hi.
  pose proof (leading_point_length s1) as Hf. destruct (leading_point s1) as [[[f sc] s2] post]. cbn [fst snd] in Hf.
  destruct (negb _ && negb _); [done|]. pose proof (leading_unit_length s2) as Hu.
  destruct (leading_unit s2) as [u s3]. cbn [fst snd] in Hu. destruct (String.eqb_spec u "") as [->|Hn]; [done|].
  destruct (unitMap u); [|done]. destruct (_ <? _); [done|]. destruct (_ && _); [done|]. intros [= _ ->].
  assert (String.length u ≠ 0)%nat by (by destruct u). lia.
Qed.

(** The fuel is enough: more of it changes nothing. *)
Lemma parse_items_fuel n m s d :
  (String.length s < n)%nat → (String.length s < m)%nat → parse_items n s d = parse_items m s d.
Proof.
  revert m s d. induction n as [|n IH]; intros m s d Hn Hm; [lia|]. destruct m as [|m]; [lia|]. cbn [parse_items].
  destruct (String.eqb s ""); [done|]. destruct (parse_item s) as [[v s']|] eqn:Hp; [|done].
  apply parse_item_length in Hp. destruct (_ <? _); [done|]. apply IH; lia.
Qed.

(** ** Integers as [float64] *)

Lemma shift_pos_Z p d : Z.pos (Pos.iter xO p d) = Z.shiftl (Z.pos p) (Z.pos d).
Proof.
  rewrite Z.shiftl_mul_pow2 by done. induction d as [|d IH] using Pos.peano_ind; [cbn; lia|].
  rewrite Pos.iter_succ, Pos2Z.inj_xO, IH, Pos2Z.inj_succ, Z.pow_succ_r by done. lia.
Qed.

Lemma digits_shift p d : digits2_pos (Pos.iter xO p d) = (d + digits2_pos p)%positive.
Proof.
  induction d as [|d IH] using Pos.peano_ind; [cbn; lia|]. rewrite Pos.iter_succ. cbn. rewrite IH. lia.
Qed.

Lemma digits_bound p k : Z.pos p < 2 ^ Z.pos k → (digits2_pos p <= k)%positive.
Proof.
  revert k. induction p as [p IH|p IH|]; intros k Hk; cbn; [| |lia].
  all: destruct (decide (k = 1%positive)) as [->|Hne]; [cbn in Hk; lia|].
  all: assert (k = Pos.succ (Pos.pred k)) as E by lia; rewrite E in Hk; rewrite Pos2Z.inj_succ, Z.pow_succ_r in Hk by lia.
  all: assert (digits2_pos p <= Pos.pred k)%positive by (apply IH; lia); lia.
Qed.

Lemma round_exact m e : digits2_pos m = 53%positive → -1074 <= e <= 971 →
  binary_round_aux 53 1024 false (Z.pos m) e loc_Exact = S754_finite false m e.
Proof.
  intros Hd He. unfold binary_round_aux, shr_fexp, Zdigits2. rewrite Hd. unfold fexp, emin.
  replace (Z.max (53 + e - 53) (3 - 1024 - 53) - e) with 0 by lia.
  cbn [shr shr_record_of_loc shr_m loc_of_shr_record round_nearest_even Zdigits2]. rewrite Hd.
  replace (Z.max (53 + e - 53) (3 - 1024 - 53) - e) with 0 by lia. cbn [shr shr_m].
  destruct (Z.leb_spec e (1024 - 53)); [done|lia].
Qed.

(** Integers of up to 53 bits are exact. *)
Lemma float64_of_int p : Z.pos p < 2 ^ 53 → float64_trunc (float64_of (Z.pos p)) = Z.pos p.
Proof.
  intros Hp. apply digits_bound in Hp. unfold float64_of, binary_normalize, binary_round, fexp, emin.
  rewrite Z.add_0_r. rewrite Z.max_l by lia. unfold shl_align. rewrite Z.sub_0_r.
  destruct (Z.pos (digits2_pos p) - 53) as [|d|d] eqn:Hd; [|lia|].
  - rewrite round_exact by lia. unfold float64_trunc. by rewrite Z.shiftl_0_r.
  - rewrite round_exact; [|rewrite digits_shift; lia|lia]. unfold float64_trunc. rewrite shift_pos_Z.
    change (Z.neg d) with (- Z.pos d). rewrite Z.shiftl_opp_r, Z.shiftr_shiftl_l by done. rewrite Z.sub_diag. apply Z.shiftl_0_r.
Qed.

(** Whole seconds survive the way through [float64]. *)
Lemma Seconds_whole n : 0 <= n < 2 ^ 53 → float64_trunc (Seconds (n * Second)) = n.
Proof.
  intros Hn. unfold Seconds. rewrite Z.quot_mul, Z.rem_mul by done. change (float64_of 0) with (S754_zero false).
  change (float64_div (S754_zero false) (float64_of 1000000000)) with (S754_zero false).
  destruct n as [|p|p]; [done| |lia].
  assert (∃ m e, float64_of (Z.pos p) = S754_finite false m e) as (m & e & Hf).
  { pose proof (float64_of_int p ltac:(lia)) as Ht. unfold float64_of in *. unfold float64_trunc in Ht.
    destruct (binary_normalize _ _ _ _ _) as [| | |[] m e]; try lia. by exists m, e. }
  rewrite Hf. unfold float64_add, SFadd. rewrite <- Hf. apply float64_of_int. lia.
Qed.
