(* ===== verification/Backoff.v ===== *)
(** * Retry delays

    The four exponential backoffs of the program: reconnecting to RabbitMQ
    ([queue.go]), retrying a webhook ([alert.go]), retrying a check job and
    requeueing after an infrastructure failure ([runtime.go]).  Each loop is
    translated with its early return and its 64-bit arithmetic, and is proved
    equal to [min maximum (initial * 2 ^ (attempt - 1))]. *)

From stdpp Require Import base list strings.
From Stdlib Require Import ZArith Lia.
From S2P Require Import Prelude GoNum GoStrings.
#[local] Open Scope string_scope.
#[local] Open Scope Z_scope.

(** ** Doubling up to a cap *)

(** The loop of [rabbitMQReconnectBaseDelay], [alertRetryDelay] and
    [checkJobRetryDelay]:
    [for i := 1; i < attempt && delay < maximum; i++
       { if delay > maximum/2 { return maximum }; delay *= 2 }]
    with [n] the iterations the first conjunct still allows.  [inr] is the
    early return, [inl] the value of [delay] after the loop. *)
Fixpoint doubling_loop (n : nat) (delay maximum : Z) : Z + Z :=
  match n with
  | O => inl delay
  | S n' =>
      if delay <? maximum then
        if Z.quot maximum 2 <? delay then inr maximum
        else doubling_loop n' (wrap64 (delay * 2)) maximum
      else inl delay
  end.

(** [attempt] clamped to 1, then the bound on the number of iterations. *)
Definition iterations (attempt : Z) : nat :=
  let attempt := if attempt <? 1 then 1 else attempt in
  Z.to_nat (attempt - 1).

Definition rabbitMQReconnectBaseDelay (attempt initial maximum : Z) : Z :=
  match doubling_loop (iterations attempt) initial maximum with
  | inr d => d
  | inl delay => if maximum <? delay then maximum else delay
  end.

Definition alertRetryDelay (attempt initial maximum : Z) : Z :=
  match doubling_loop (iterations attempt) initial maximum with
  | inr d => d
  | inl delay => if maximum <? delay then maximum else delay
  end.

Definition checkJobRetryInitialDelay : Z := 250 * Millisecond.
Definition checkJobRetryMaxDelay : Z := 30 * Second.

Definition checkJobRetryDelay (attempt : Z) : Z :=
  match doubling_loop (iterations attempt) checkJobRetryInitialDelay checkJobRetryMaxDelay with
  | inr d => d
  | inl delay => Z.min delay checkJobRetryMaxDelay
  end.

(** [rand_Int64N n] is what [rand.Int64N(n)] draws: at least 0, below [n]. *)
Definition rabbitMQReconnectDelay (rand_Int64N : Z → Z) (attempt initial maximum : Z) : Z :=
  let base := rabbitMQReconnectBaseDelay attempt initial maximum in
  if base <=? Nanosecond then base
  else
    let half := Z.quot base 2 in
    half + rand_Int64N (base - half + 1).

(** The reference: exponential growth cut off at the maximum. *)
Definition capped_exponential (attempt initial maximum : Z) : Z :=
  Z.min maximum (initial * 2 ^ (Z.max attempt 1 - 1)).

(** ** The requeue backoff shared by the workers *)

Definition infrastructureRequeueInitialDelay : Z := 250 * Millisecond.
Definition infrastructureRequeueMaxBaseDelay : Z := 4 * Second.

(** The backoff's state is its count of consecutive failures. *)
Record infrastructureRequeueBackoff := { failures : Z }.

Fixpoint requeue_loop (n : nat) (delay : Z) : Z :=
  match n with
  | O => delay
  | S n' =>
      if delay <? infrastructureRequeueMaxBaseDelay
      then requeue_loop n' (Z.min (wrap64 (delay * 2)) infrastructureRequeueMaxBaseDelay)
      else delay
  end.

(** The text hashed for the jitter: [Fprintf("%s:%d:%d", jobID, workerID, attempt)]. *)
Definition jitter_key (jobID : string) (workerID attempt : Z) : string :=
  jobID +:+ ":" +:+ Itoa workerID +:+ ":" +:+ Itoa attempt.

Definition NextDelay (b : infrastructureRequeueBackoff) (jobID : string) (workerID : Z)
  : Z * infrastructureRequeueBackoff :=
  let b' := {| failures := wrap64 (failures b + 1) |} in
  let attempt := failures b' in
  let delay := requeue_loop (Z.to_nat (attempt - 1)) infrastructureRequeueInitialDelay in
  let jitterLimit := Z.quot delay 4 in
  if jitterLimit <=? 0 then (delay, b')
  else
    let jitter := fnv64a (jitter_key jobID workerID attempt) mod (jitterLimit + 1) in
    (delay + jitter, b').

Definition Reset (b : infrastructureRequeueBackoff) : infrastructureRequeueBackoff :=
  {| failures := 0 |}.

(** ** Correctness *)

Lemma quot2_spec m : 0 <= m → 2 * Z.quot m 2 <= m < 2 * Z.quot m 2 + 2.
Proof. intros H. rewrite Z.quot_div_nonneg by lia. pose proof (Z.div_mod m 2). pose proof (Z.mod_pos_bound m 2). lia. Qed.

(** One statement for the three doubling loops: the loop's outcome, cut at
    the maximum, is the capped exponential, and no doubling overflows. *)
Lemma doubling_loop_spec n d m :
  0 < d → 0 < m <= max_int64 →
  match doubling_loop n d m with inr x => x | inl x => Z.min m x end
  = Z.min m (d * 2 ^ Z.of_nat n).
Proof.
  revert d. induction n as [|n IH]; intros d Hd Hm; cbn [doubling_loop].
  { by rewrite Z.mul_1_r. }
  assert (1 <= 2 ^ Z.of_nat n) as Hp by (pose proof (Z.pow_pos_nonneg 2 (Z.of_nat n)); lia).
  rewrite Nat2Z.inj_succ, Z.pow_succ_r by lia.
  pose proof (quot2_spec m) as Hq.
  destruct (Z.ltb_spec d m); [|rewrite !Z.min_l; nia].
  destruct (Z.ltb_spec (Z.quot m 2) d); [rewrite Z.min_l; nia|].
  rewrite wrap64_id by (unfold in_int64, two63 in *; lia).
  rewrite IH by lia. f_equal. lia.
Qed.

Lemma iterations_spec a : Z.of_nat (iterations a) = Z.max a 1 - 1.
Proof. unfold iterations. destruct (Z.ltb_spec a 1); lia. Qed.

Lemma cap_min (m x : Z) : (if m <? x then m else x) = Z.min m x.
Proof. destruct (Z.ltb_spec m x); lia. Qed.

Lemma capped_exponential_bounds a i m :
  0 < i <= m → i <= capped_exponential a i m <= m.
Proof.
  intros H. unfold capped_exponential.
  pose proof (Z.pow_pos_nonneg 2 (Z.max a 1 - 1)). nia.
Qed.

Lemma capped_exponential_mono a b i m :
  0 < i → a <= b → capped_exponential a i m <= capped_exponential b i m.
Proof.
  intros Hi Hab. unfold capped_exponential. apply Z.min_le_compat_l.
  apply Z.mul_le_mono_nonneg_l; [lia|]. apply Z.pow_le_mono_r; lia.
Qed.

Lemma rabbit_base_capped a i m :
  0 < i → 0 < m <= max_int64 →
  rabbitMQReconnectBaseDelay a i m = capped_exponential a i m.
Proof.
  intros Hi Hm. unfold rabbitMQReconnectBaseDelay, capped_exponential.
  rewrite <- iterations_spec, <- doubling_loop_spec by done.
  destruct (doubling_loop _ _ _); [apply cap_min|done].
Qed.

Lemma requeue_loop_spec n d :
  0 < d <= infrastructureRequeueMaxBaseDelay →
  requeue_loop n d = Z.min infrastructureRequeueMaxBaseDelay (d * 2 ^ Z.of_nat n).
Proof.
  unfold infrastructureRequeueMaxBaseDelay.
  revert d. induction n as [|n IH]; intros d Hd; cbn [requeue_loop].
  { rewrite Z.mul_1_r. lia. }
  assert (1 <= 2 ^ Z.of_nat n) as Hp by (pose proof (Z.pow_pos_nonneg 2 (Z.of_nat n)); lia).
  rewrite Nat2Z.inj_succ, Z.pow_succ_r by lia.
  unfold infrastructureRequeueMaxBaseDelay, Second in *.
  destruct (Z.ltb_spec d (4 * 1000000000)); [|rewrite Z.min_l; nia].
  rewrite wrap64_id by (unfold in_int64, two63, max_int64; lia).
  destruct (Z.le_ge_cases (d * 2) (4 * 1000000000)).
  - rewrite (Z.min_l (d * 2)) by lia. rewrite IH by lia. f_equal. lia.
  - rewrite (Z.min_r (d * 2)) by lia. rewrite IH by lia. rewrite !Z.min_l; nia.
Qed.

(** The webhook retry delay is exactly the configured initial backoff
    doubled once per earlier attempt and cut off at the configured maximum,
    whatever the attempt number; the doubling never overflows 64 bits. *)
Lemma alertRetryDelay_capped_exponential (attempt initial maximum : Z) :
  0 < initial → 0 < maximum <= max_int64 →
  alertRetryDelay attempt initial maximum = capped_exponential attempt initial maximum.
Proof.
  intros Hi Hm. unfold alertRetryDelay, capped_exponential.
  rewrite <- iterations_spec, <- doubling_loop_spec by done.
  destruct (doubling_loop _ _ _); [apply cap_min|done].
Qed.

Lemma alertRetryDelay_witness :
  alertRetryDelay 5 Second (5 * Minute) = capped_exponential 5 Second (5 * Minute)
  ∧ alertRetryDelay 5 Second (5 * Minute) = 16 * Second.
Proof.
  split; [|reflexivity].
  apply (alertRetryDelay_capped_exponential 5 Second (5 * Minute)); reflexivity || (split; [reflexivity|discriminate]).
Defined.

Lemma checkJobRetryDelay_capped a :
  checkJobRetryDelay a = capped_exponential a checkJobRetryInitialDelay checkJobRetryMaxDelay.
Proof.
  unfold checkJobRetryDelay, capped_exponential.
  rewrite <- iterations_spec, <- doubling_loop_spec by (split; reflexivity || discriminate) || reflexivity.
  destruct (doubling_loop _ _ _); [apply Z.min_comm|done].
Qed.

(** Reconnecting to RabbitMQ waits between half of the capped
    exponential delay and all of it, for every draw the random source may
    make, so the wait is positive and never above the configured maximum. *)
Lemma rabbitMQReconnectDelay_bounds (rnd : Z → Z) (attempt initial maximum : Z) :
  (∀ n, 0 < n → 0 <= rnd n < n) →
  0 < initial <= maximum → maximum <= max_int64 →
  let base := capped_exponential attempt initial maximum in
  let delay := rabbitMQReconnectDelay rnd attempt initial maximum in
  base / 2 <= delay <= base ∧ 0 < delay <= maximum.
Proof.
  intros Hr Hi Hm base delay.
  pose proof (capped_exponential_bounds attempt initial maximum Hi) as Hb. fold base in Hb.
  subst delay. unfold rabbitMQReconnectDelay. rewrite rabbit_base_capped by lia. fold base.
  pose proof (quot2_spec base ltac:(lia)) as Hq.
  rewrite <- (Z.quot_div_nonneg base 2) by lia.
  unfold Nanosecond. destruct (Z.leb_spec base 1) as [H1|H1]; [lia|].
  pose proof (Hr (base - Z.quot base 2 + 1) ltac:(lia)). lia.
Qed.

Lemma rabbitMQReconnectDelay_witness :
  let delay := rabbitMQReconnectDelay (λ n, n / 2) 3 Second (30 * Second) in
  capped_exponential 3 Second (30 * Second) / 2 <= delay
    <= capped_exponential 3 Second (30 * Second)
  ∧ 0 < delay <= 30 * Second.
Proof.
  apply (rabbitMQReconnectDelay_bounds (λ n, n / 2) 3 Second (30 * Second)).
  - intros n Hn. split; [apply Z.div_pos; lia|apply Z.div_lt; lia].
  - split; [reflexivity|discriminate].
  - discriminate.
Defined.

(** After [k] consecutive infrastructure failures a worker waits at least
    250ms doubled [k - 1] times and capped at 4s, and at most a quarter more
    (the jitter derived from the job, the worker and the attempt); the counter
    advances by one. *)
Lemma NextDelay_bounds (b : infrastructureRequeueBackoff) (jobID : string) (workerID : Z) :
  0 <= failures b < max_int64 →
  let base := capped_exponential (failures b + 1) infrastructureRequeueInitialDelay
                infrastructureRequeueMaxBaseDelay in
  let '(delay, b') := NextDelay b jobID workerID in
  base <= delay <= base + base / 4 ∧ delay <= 5 * Second
  ∧ failures b' = failures b + 1.
Proof.
  intros Hf base. unfold NextDelay. cbn [failures].
  rewrite wrap64_id by (unfold in_int64, two63 in *; lia).
  rewrite requeue_loop_spec by (split; reflexivity || discriminate).
  assert (base = Z.min infrastructureRequeueMaxBaseDelay
            (infrastructureRequeueInitialDelay * 2 ^ Z.of_nat (Z.to_nat (failures b + 1 - 1)))) as <-.
  { unfold base, capped_exponential. do 3 f_equal. lia. }
  assert (infrastructureRequeueInitialDelay <= base <= infrastructureRequeueMaxBaseDelay) as Hb.
  { apply capped_exponential_bounds. split; reflexivity || discriminate. }
  unfold infrastructureRequeueInitialDelay, infrastructureRequeueMaxBaseDelay, Second, Millisecond in *.
  rewrite Z.quot_div_nonneg by lia.
  pose proof (Z.div_mod base 4) as Hd. pose proof (Z.mod_pos_bound base 4) as Hm.
  destruct (Z.leb_spec (base / 4) 0); [lia|].
  pose proof (Z.mod_pos_bound (fnv64a (jitter_key jobID workerID (failures b + 1)))
                (base / 4 + 1) ltac:(lia)) as Hj.
  clearbody base.
  generalize dependent (fnv64a (jitter_key jobID workerID (failures b + 1)) mod (base / 4 + 1)).
  intros j Hj. repeat split; lia.
Qed.

Lemma NextDelay_witness :
  let '(delay, b') := NextDelay {| failures := 2 |} "job_a_1" 1 in
  1000 * Millisecond <= delay <= 1250 * Millisecond ∧ failures b' = 3.
Proof.
  pose proof (NextDelay_bounds {| failures := 2 |} "job_a_1" 1 ltac:(split; [discriminate|reflexivity])) as H.
  destruct (NextDelay _ _ _) as [delay b']. cbv -[Z.le] in H |- *.
  destruct H as (H & _ & H'). split; [|exact H']. exact H.
Defined.
