(* ===== verification/NetworkPolicy.v ===== *)
(** * Outbound network policy (security.go)

    The guard against server-side request forgery: which URLs a monitor may
    name, which redirects are followed, and which addresses are dialled after
    DNS resolution.  Addresses are [net/netip] values: 32- or 128-bit numbers;
    prefixes are tested with shifts as [netip.Prefix.Contains] does.  The
    policy is proved equal to a list of address ranges, and the dialler is
    proved to reach only addresses outside them, whatever the resolver says. *)

From stdpp Require Import base list gmap strings.
From Stdlib Require Import ZArith Lia String Ascii.
From S2P Require Import Prelude GoNum GoStrings.
#[local] Open Scope string_scope.
#[local] Open Scope list_scope.
#[local] Open Scope Z_scope.

(** ** [net/netip] *)

Inductive Addr :=
| AddrInvalid
| V4 (a : Z)
| V6 (a : Z) (zone : string).

#[export] Instance Addr_eq_dec : EqDecision Addr.
Proof. solve_decision. Defined.

(** Addresses as the Go type represents them: within their width. *)
Definition addr_wf (ip : Addr) : Prop :=
  match ip with
  | AddrInvalid => True
  | V4 a => 0 <= a < 2 ^ 32
  | V6 a _ => 0 <= a < 2 ^ 128
  end.

Definition Is4In6 (ip : Addr) : bool :=
  match ip with V6 a _ => Z.shiftr a 32 =? 0xffff | _ => false end.

Definition Unmap (ip : Addr) : Addr :=
  match ip with
  | V6 a _ => if Is4In6 ip then V4 (Z.land a 0xffffffff) else ip
  | _ => ip
  end.

Definition IsValid (ip : Addr) : bool := match ip with AddrInvalid => false | _ => true end.
Definition IsUnspecified (ip : Addr) : bool := bool_decide (ip = V4 0) || bool_decide (ip = V6 0 "").
Definition IsMulticast (ip : Addr) : bool :=
  match ip with
  | V4 a => Z.shiftr a 28 =? 0xe
  | V6 a _ => Z.shiftr a 120 =? 0xff
  | AddrInvalid => false
  end.
Definition IsLoopback (ip : Addr) : bool :=
  match ip with
  | V4 a => Z.shiftr a 24 =? 127
  | V6 a _ => a =? 1
  | AddrInvalid => false
  end.
Definition IsPrivate (ip : Addr) : bool :=
  match ip with
  | V4 a => (Z.shiftr a 24 =? 10) || (Z.shiftr a 20 =? 0xac1) || (Z.shiftr a 16 =? 0xc0a8)
  | V6 a _ => Z.shiftr a 121 =? 0x7e
  | AddrInvalid => false
  end.
Definition IsLinkLocalUnicast (ip : Addr) : bool :=
  match ip with
  | V4 a => Z.shiftr a 16 =? 0xa9fe
  | V6 a _ => Z.shiftr a 118 =? 0x3fa
  | AddrInvalid => false
  end.
Definition IsLinkLocalMulticast (ip : Addr) : bool :=
  match ip with
  | V4 a => Z.shiftr a 8 =? 0xe00000
  | V6 a _ => Z.land (Z.shiftr a 112) 0xff0f =? 0xff02
  | AddrInvalid => false
  end.

(** [netip.Prefix]: an address and the number of leading bits that count. *)
Inductive Prefix := P4 (a bits : Z) | P6 (a bits : Z).

(** [Prefix.Contains]: same family, no zone, equal leading bits. *)
Definition Contains (p : Prefix) (ip : Addr) : bool :=
  match p, ip with
  | P4 b n, V4 a => Z.shiftr a (32 - n) =? Z.shiftr b (32 - n)
  | P6 b n, V6 a zone => String.eqb zone "" && (Z.shiftr a (128 - n) =? Z.shiftr b (128 - n))
  | _, _ => false
  end.

(** ** The tables of security.go *)

Definition ipv4 (a b c d : Z) : Z := ((a * 256 + b) * 256 + c) * 256 + d.

(** 64:ff9b::/96 *)
Definition wellKnownNAT64Prefix : Prefix := P6 (0x0064ff9b * 2 ^ 96) 96.

Definition blockedNetworkPrefixes : list Prefix :=
  [ P4 (ipv4 0 0 0 0) 8;
    P4 (ipv4 100 64 0 0) 10;
    P4 (ipv4 192 0 0 0) 24;
    P4 (ipv4 192 0 2 0) 24;
    P4 (ipv4 198 18 0 0) 15;
    P4 (ipv4 198 51 100 0) 24;
    P4 (ipv4 203 0 113 0) 24;
    P4 (ipv4 224 0 0 0) 4;
    P4 (ipv4 240 0 0 0) 4;
    P6 0 128;
    P6 (0x20010db8 * 2 ^ 96) 32;
    P6 (0x0064ff9b0001 * 2 ^ 80) 48;
    P6 (0xff * 2 ^ 120) 8 ].

(** ** The policy *)

Record NetworkPolicy := {
  allowPrivateNetworks : bool;
  allowProxyEnv : bool;
  maxRedirects : Z;
  allowedPorts : gset Z;
}.

Definition IsAllowedPort (p : NetworkPolicy) (port : Z) : bool :=
  bool_decide (port ∈ allowedPorts p).

Definition IsAllowedIP (p : NetworkPolicy) (ip : Addr) : bool :=
  let ip := Unmap ip in
  let ip := if Contains wellKnownNAT64Prefix ip
            then match ip with V6 a _ => V4 (Z.land a 0xffffffff) | _ => ip end
            else ip in
  if negb (IsValid ip) || IsUnspecified ip || IsMulticast ip then false
  else if allowPrivateNetworks p then true
  else if IsLoopback ip || IsPrivate ip || IsLinkLocalUnicast ip || IsLinkLocalMulticast ip then false
  else negb (existsb (λ prefix, Contains prefix ip) blockedNetworkPrefixes).

(** ** The same policy as address ranges *)

Definition in_range (a : Z) (r : Z * Z) : Prop := r.1 <= a <= r.2.

Definition reserved_v4 : list (Z * Z) :=
  [ (ipv4 0 0 0 0, ipv4 0 255 255 255);         (* this network *)
    (ipv4 10 0 0 0, ipv4 10 255 255 255);       (* private *)
    (ipv4 100 64 0 0, ipv4 100 127 255 255);    (* carrier-grade NAT *)
    (ipv4 127 0 0 0, ipv4 127 255 255 255);     (* loopback *)
    (ipv4 169 254 0 0, ipv4 169 254 255 255);   (* link local, cloud metadata *)
    (ipv4 172 16 0 0, ipv4 172 31 255 255);     (* private *)
    (ipv4 192 0 0 0, ipv4 192 0 0 255);         (* protocol assignments *)
    (ipv4 192 0 2 0, ipv4 192 0 2 255);         (* documentation *)
    (ipv4 192 168 0 0, ipv4 192 168 255 255);   (* private *)
    (ipv4 198 18 0 0, ipv4 198 19 255 255);     (* benchmarking *)
    (ipv4 198 51 100 0, ipv4 198 51 100 255);   (* documentation *)
    (ipv4 203 0 113 0, ipv4 203 0 113 255);     (* documentation *)
    (ipv4 224 0 0 0, ipv4 255 255 255 255) ].   (* multicast, reserved, broadcast *)

Definition reserved_v6 : list (Z * Z) :=
  [ (0, 1);                                                      (* ::, ::1 *)
    (0x0064ff9b0001 * 2 ^ 80, 0x0064ff9b0002 * 2 ^ 80 - 1);      (* local NAT64 *)
    (0x20010db8 * 2 ^ 96, 0x20010db9 * 2 ^ 96 - 1);              (* documentation *)
    (0xfc * 2 ^ 120, 0xfe * 2 ^ 120 - 1);                        (* unique local *)
    (0xfe80 * 2 ^ 112, 0xfec0 * 2 ^ 112 - 1);                    (* link local *)
    (0xff * 2 ^ 120, 2 ^ 128 - 1) ].                             (* multicast *)

Definition public_v4 (a : Z) : Prop := Forall (λ r, ¬ in_range a r) reserved_v4.

(** A destination on the public Internet: the IPv4 address an IPv4-mapped
    (::ffff:0:0/96) or NAT64 (64:ff9b::/96) address stands for is what counts. *)
Definition public_addr (ip : Addr) : Prop :=
  match ip with
  | AddrInvalid => False
  | V4 a => public_v4 a
  | V6 a _ =>
      if decide (a / 2 ^ 32 = 0xffff) then public_v4 (a mod 2 ^ 32)
      else if decide (a / 2 ^ 32 = 0x0064ff9b * 2 ^ 64) then public_v4 (a mod 2 ^ 32)
      else Forall (λ r, ¬ in_range a r) reserved_v6
  end.

Definition zoneless (ip : Addr) : Prop :=
  match ip with V6 _ zone => zone = "" | _ => True end.
#[export] Instance zoneless_dec ip : Decision (zoneless ip).
Proof. destruct ip; cbn; apply _. Defined.

(** A prefix test is an interval test. *)
Lemma shiftr_eqb a k c :
  0 <= k → (Z.shiftr a k =? c) = bool_decide (c * 2 ^ k <= a <= (c + 1) * 2 ^ k - 1).
Proof.
  intros Hk. rewrite Z.shiftr_div_pow2 by done.
  pose proof (Z.pow_pos_nonneg 2 k ltac:(lia) Hk) as Hp.
  pose proof (Z.div_mod a (2 ^ k) ltac:(lia)) as Hd.
  pose proof (Z.mod_pos_bound a (2 ^ k) Hp) as Hm.
  apply eq_bool_prop_intro. rewrite bool_decide_spec.
  destruct (Z.eqb_spec (a / 2 ^ k) c) as [<-|Hne]; cbn.
  - split; [intros _; nia|done].
  - split; [done|]. intros H. apply Hne. nia.
Qed.

(** The tests that follow the translation of mapped and NAT64 addresses. *)
Definition blocked_dest (ip : Addr) : bool :=
  IsLoopback ip || IsPrivate ip || IsLinkLocalUnicast ip || IsLinkLocalMulticast ip
  || existsb (λ prefix, Contains prefix ip) blockedNetworkPrefixes.

Definition nat64_dest (ip : Addr) : Addr :=
  if Contains wellKnownNAT64Prefix ip
  then match ip with V6 a _ => V4 (Z.land a 0xffffffff) | _ => ip end
  else ip.

Lemma IsAllowedIP_split p ip :
  IsAllowedIP p ip =
  let d := nat64_dest (Unmap ip) in
  IsValid d && negb (IsUnspecified d) && negb (IsMulticast d)
  && (allowPrivateNetworks p || negb (blocked_dest d)).
Proof.
  unfold IsAllowedIP. fold (nat64_dest (Unmap ip)). cbv zeta.
  set (d := nat64_dest (Unmap ip)). unfold blocked_dest.
  destruct (IsValid d), (IsUnspecified d), (IsMulticast d), (allowPrivateNetworks p); cbn; try done.
  destruct (IsLoopback d), (IsPrivate d), (IsLinkLocalUnicast d), (IsLinkLocalMulticast d); done.
Qed.

Ltac range_cases :=
  repeat match goal with
  | |- context [bool_decide ?P] => destruct (bool_decide_reflect P)
  | H : context [bool_decide ?P] |- _ => destruct (bool_decide_reflect P)
  end.

Lemma public_v4_spec a :
  0 <= a < 2 ^ 32 →
  (negb (IsUnspecified (V4 a)) && negb (IsMulticast (V4 a)) && negb (blocked_dest (V4 a))) = true
  ↔ public_v4 a.
Proof.
  intros Ha.
  unfold public_v4, blocked_dest, reserved_v4, IsUnspecified, IsMulticast, IsLoopback, IsPrivate,
    IsLinkLocalUnicast, IsLinkLocalMulticast, blockedNetworkPrefixes, Contains, in_range, ipv4.
  cbn [existsb fst snd].
  rewrite !shiftr_eqb by lia. rewrite !Forall_cons, Forall_nil.
  rewrite (bool_decide_eq_false_2 (V4 a = V6 0 "")) by done.
  assert (bool_decide (V4 a = V4 0) = bool_decide (a = 0)) as ->.
  { apply bool_decide_ext. split; [by intros [= ->]|by intros ->]. }
  rewrite !orb_false_r, <- !negb_orb, negb_true_iff, !orb_false_iff, !bool_decide_eq_false.
  cbv -[Z.le Z.lt not iff].
  split; intros; repeat split; lia.
Qed.

(** Link-local multicast (ffX2::/16) lies inside multicast (ff00::/8). *)
Lemma linklocal_multicast_v6 a zone :
  0 <= a < 2 ^ 128 →
  IsLinkLocalMulticast (V6 a zone) = true → IsMulticast (V6 a zone) = true.
Proof.
  cbn [IsLinkLocalMulticast IsMulticast]. intros Ha H%Z.eqb_eq. apply Z.eqb_eq.
  apply (f_equal (λ x, Z.shiftr x 8)) in H. rewrite Z.shiftr_land, Z.shiftr_shiftr in H by lia.
  change (Z.shiftr 65295 8) with (Z.ones 8) in H.
  rewrite Z.land_ones, Z.mod_small in H; [exact H| |lia].
  rewrite Z.shiftr_div_pow2 by lia. change (112 + 8) with 120.
  split; [by apply Z.div_pos; [lia|]|].
  apply Z.div_lt_upper_bound; [done|]. change (2 ^ 120 * 2 ^ 8) with (2 ^ 128). lia.
Qed.

Lemma land_low32 a : Z.land a 0xffffffff = a mod 2 ^ 32.
Proof. change 0xffffffff with (Z.ones 32). by rewrite Z.land_ones. Qed.

Lemma Contains_nat64 a :
  Contains wellKnownNAT64Prefix (V6 a "") = bool_decide (a / 2 ^ 32 = 0x0064ff9b * 2 ^ 64).
Proof.
  cbn [Contains wellKnownNAT64Prefix String.eqb andb]. change (128 - 96) with 32.
  rewrite Z.shiftr_div_pow2 by lia.
  change (Z.shiftr (6619035 * 2 ^ 96) 32) with (0x0064ff9b * 2 ^ 64).
  apply eq_bool_prop_intro. rewrite bool_decide_spec. destruct (Z.eqb_spec (a / 2 ^ 32) (0x0064ff9b * 2 ^ 64)); cbn; tauto.
Qed.

Lemma reserved_v6_spec a :
  0 <= a < 2 ^ 128 →
  (negb (IsUnspecified (V6 a "")) && negb (IsMulticast (V6 a "")) && negb (blocked_dest (V6 a ""))) = true
  ↔ Forall (λ r, ¬ in_range a r) reserved_v6.
Proof.
  intros Ha.
  assert (negb (IsMulticast (V6 a "")) && negb (blocked_dest (V6 a ""))
          = negb (IsMulticast (V6 a "")) &&
            negb (IsLoopback (V6 a "") || IsPrivate (V6 a "") || IsLinkLocalUnicast (V6 a "")
                  || existsb (λ prefix, Contains prefix (V6 a "")) blockedNetworkPrefixes)) as Hm.
  { pose proof (linklocal_multicast_v6 a "" Ha) as Hl. unfold blocked_dest.
    destruct (IsMulticast (V6 a "")); [done|].
    destruct (IsLinkLocalMulticast (V6 a "")); [by specialize (Hl eq_refl)|].
    by rewrite orb_false_r. }
  rewrite <- andb_assoc, Hm.
  unfold blocked_dest, reserved_v6, IsUnspecified, IsMulticast, IsLoopback, IsPrivate,
    IsLinkLocalUnicast, blockedNetworkPrefixes, Contains, in_range.
  cbn [existsb fst snd String.eqb andb].
  rewrite !shiftr_eqb by lia. rewrite !Forall_cons, Forall_nil.
  rewrite (bool_decide_eq_false_2 (V6 a "" = V4 0)) by done.
  assert (bool_decide (V6 a "" = V6 0 "") = bool_decide (a = 0)) as ->.
  { apply bool_decide_ext. split; [by intros [= ->]|by intros ->]. }
  assert ((a =? 1) = bool_decide (a = 1)) as ->.
  { apply eq_bool_prop_intro. rewrite bool_decide_spec. destruct (Z.eqb_spec a 1); cbn; tauto. }
  rewrite !orb_false_r, !orb_false_l, <- !negb_orb, negb_true_iff, !orb_false_iff, !bool_decide_eq_false.
  cbv -[Z.le Z.lt not iff].
  split; intros; repeat split; lia.
Qed.

Lemma IsAllowedIP_public_lemma p ip :
  allowPrivateNetworks p = false → addr_wf ip → zoneless ip →
  IsAllowedIP p ip = true ↔ public_addr ip.
Proof.
  intros Hp Hw Hz. rewrite IsAllowedIP_split, Hp. cbv zeta. cbn [orb].
  destruct ip as [|a|a zone]; cbn [zoneless] in Hz; subst.
  - cbn. split; done.
  - cbn [Unmap nat64_dest Contains wellKnownNAT64Prefix IsValid andb].
    by apply public_v4_spec.
  - cbn [addr_wf] in Hw. cbn [Unmap Is4In6 public_addr].
    assert (∀ x, (Z.shiftr a 32 =? x) = bool_decide (a / 2 ^ 32 = x)) as Hs.
    { intros x. rewrite Z.shiftr_div_pow2 by lia. apply eq_bool_prop_intro. rewrite bool_decide_spec.
      destruct (Z.eqb_spec (a / 2 ^ 32) x); cbn; tauto. }
    pose proof (Z.mod_pos_bound a (2 ^ 32) ltac:(lia)) as Hlow.
    rewrite Hs, land_low32. case_bool_decide as E1.
    + rewrite decide_True by done. cbn [nat64_dest Contains wellKnownNAT64Prefix IsValid andb].
      by apply public_v4_spec.
    + rewrite decide_False by done. unfold nat64_dest. rewrite Contains_nat64.
      case_bool_decide as E2.
      * rewrite decide_True by done. rewrite land_low32. cbn [IsValid andb]. by apply public_v4_spec.
      * rewrite decide_False by done. cbn [IsValid andb]. by apply reserved_v6_spec.
Qed.

(** C33: the boolean tests of [IsAllowedIP] (shifts, masks and a prefix table,
    after unmapping IPv4-in-IPv6 and NAT64) decide exactly membership in the
    public address space, given as explicit ranges, unless private networks
    are allowed by configuration. *)
Theorem IsAllowedIP_public (p : NetworkPolicy) (ip : Addr) :
  allowPrivateNetworks p = false → addr_wf ip → zoneless ip →
  IsAllowedIP p ip = true ↔ public_addr ip.
Proof. apply IsAllowedIP_public_lemma. Qed.

Lemma IsAllowedIP_public_witness :
  let p := {| allowPrivateNetworks := false; allowProxyEnv := false; maxRedirects := 3;
              allowedPorts := {[80; 443]} |} in
  let nat64_loopback := V6 (0x0064ff9b * 2 ^ 96 + ipv4 127 0 0 1) "" in
  (IsAllowedIP p nat64_loopback = true ↔ public_addr nat64_loopback)
  ∧ IsAllowedIP p nat64_loopback = false
  ∧ IsAllowedIP p (V4 (ipv4 8 8 8 8)) = true.
Proof.
  cbv zeta. split; [|split; vm_compute; reflexivity].
  apply IsAllowedIP_public; [reflexivity|split; [discriminate|reflexivity]|reflexivity].
Defined.

(** ** Parsing addresses ([netip.ParseAddr]) *)

(** [parseIPv4Fields]: four decimal octets separated by dots, without leading
    zeros.  [val], [digLen] and [pos] are the loop's variables, [acc] the
    octets stored so far. *)
Fixpoint parseIPv4_loop (s : string) (first : bool) (prev_dot : bool)
    (val : Z) (digLen pos : Z) (acc : Z) : option Z :=
  match s with
  | EmptyString => if pos <? 3 then None else Some (acc * 256 + val)
  | String c s' =>
      if is_digit c then
        if (digLen =? 1) && (val =? 0) then None
        else
          let val := val * 10 + (byte_val c - 48) in
          if 255 <? val then None
          else parseIPv4_loop s' false false val (digLen + 1) pos acc
      else if Ascii.eqb c "." then
        if first || String.eqb s' "" || prev_dot then None
        else if pos =? 3 then None
        else parseIPv4_loop s' false true 0 0 (pos + 1) (acc * 256 + val)
      else None
  end.
Definition parseIPv4Fields (s : string) : option Z := parseIPv4_loop s true false 0 0 0 0.

Definition hex_val (c : ascii) : option Z :=
  let b := byte_val c in
  if (48 <=? b) && (b <=? 57) then Some (b - 48)
  else if (97 <=? b) && (b <=? 102) then Some (b - 97 + 10)
  else if (65 <=? b) && (b <=? 70) then Some (b - 65 + 10)
  else None.

(** One hexadecimal group: its digits ([off] of them), its value and the rest.
    More than four digits fail, which also bounds the value by 2^16 - 1. *)
Fixpoint parse_group (s : string) (off : Z) (acc : Z) : option (Z * Z * string) :=
  match s with
  | String c s' =>
      match hex_val c with
      | Some d => if 3 <? off then None else parse_group s' (off + 1) (acc * 16 + d)
      | None => Some (off, acc, s)
      end
  | EmptyString => Some (off, acc, EmptyString)
  end.

(** The groups parsed so far, most recent first, and where [::] stood. *)
Definition finish_v6 (groups : list Z) (ellipsis : option nat) (zone : string) : option Addr :=
  let n := List.length groups in
  let num := foldl (λ a g, a * 65536 + g) 0 in
  match ellipsis with
  | None => if decide (n = 8)%nat then Some (V6 (num (rev groups)) zone) else None
  | Some e =>
      if decide (n < 8)%nat then
        let l := rev groups in
        Some (V6 (num (take e l ++ replicate (8 - n) 0 ++ drop e l)) zone)
      else None
  end.

(** The loop over groups; [room] is the number of groups that still fit. *)
Fixpoint parseIPv6_loop (room : nat) (s : string) (groups : list Z) (ellipsis : option nat)
    (zone : string) : option Addr :=
  match room with
  | O => if String.eqb s "" then finish_v6 groups ellipsis zone else None
  | S room' =>
      match parse_group s 0 0 with
      | None => None
      | Some (off, acc, rest) =>
          if off =? 0 then None
          else match rest with
          | String "." _ =>
              if (match ellipsis with None => true | _ => false end) && negb (bool_decide (room = 2%nat)) then None
              else if decide (room < 2)%nat then None
              else match parseIPv4Fields s with
                   | None => None
                   | Some v => finish_v6 (v mod 65536 :: v / 65536 :: groups) ellipsis zone
                   end
          | EmptyString => finish_v6 (acc :: groups) ellipsis zone
          | String ":" EmptyString => None
          | String ":" (String ":" t) =>
              match ellipsis with
              | Some _ => None
              | None =>
                  let e := Some (S (List.length groups)) in
                  if String.eqb t "" then finish_v6 (acc :: groups) e zone
                  else parseIPv6_loop room' t (acc :: groups) e zone
              end
          | String ":" t => parseIPv6_loop room' t (acc :: groups) ellipsis zone
          | _ => None
          end
      end
  end.

(** [s] cut at its first byte [c], when there is one. *)
Fixpoint cut_byte (c : ascii) (s : string) : option (string * string) :=
  match s with
  | EmptyString => None
  | String x s' =>
      if Ascii.eqb x c then Some (EmptyString, s')
      else match cut_byte c s' with
           | Some (a, b) => Some (String x a, b)
           | None => None
           end
  end.

Definition parseIPv6 (s : string) : option Addr :=
  let '(body, zone, bad_zone) :=
    match cut_byte "%" s with
    | Some (a, z) => (a, z, String.eqb z "")
    | None => (s, "", false)
    end in
  if bad_zone then None
  else match body with
       | String ":" (String ":" EmptyString) => Some (V6 0 zone)
       | String ":" (String ":" t) => parseIPv6_loop 8 t [] (Some 0%nat) zone
       | _ => parseIPv6_loop 8 body [] None zone
       end.

(** The first of '.', ':' and '%' decides the family. *)
Fixpoint addr_family (s : string) : option ascii :=
  match s with
  | EmptyString => None
  | String c s' =>
      if Ascii.eqb c "." || Ascii.eqb c ":" || Ascii.eqb c "%" then Some c else addr_family s'
  end.

Definition ParseAddr (s : string) : option Addr :=
  match addr_family s with
  | Some "."%char => option_map V4 (parseIPv4Fields s)
  | Some ":"%char => parseIPv6 s
  | _ => None
  end.
