(* ===== verification/Egress.v ===== *)
(** * URL validation, redirects, resolution and dialling (security.go)

    The operations of [NetworkPolicy] that stand between a monitor's URL and
    a connection.  DNS ([netIPResolver]), the dialler ([networkDialer]) and
    [http.ProxyFromEnvironment] are what the policy guards against, so they
    are arbitrary functions; [url.Parse] is arbitrary too, since every
    decision is taken on the parsed URL. *)

From stdpp Require Import base list gmap strings.
From Stdlib Require Import ZArith Lia String Ascii.
From S2P Require Import Prelude GoNum GoStrings NetworkPolicy.
#[local] Open Scope string_scope.
#[local] Open Scope list_scope.
#[local] Open Scope Z_scope.

(** ** [net/url] *)

(** The fields of [url.URL] the policy reads. *)
Record URL := {
  Scheme : string;
  User : option string;
  Host : string;
}.

(** The parser of [net/url]: [None] when it reports an error. *)
Class URLParser := {
  url_Parse : string → option URL;
  url_ParseRequestURI : string → option URL;
}.

(** [s] cut at its last byte [c]. *)
Fixpoint cut_last (c : ascii) (s : string) : option (string * string) :=
  match s with
  | EmptyString => None
  | String x s' =>
      match cut_last c s' with
      | Some (a, b) => Some (String x a, b)
      | None => if Ascii.eqb x c then Some (EmptyString, s') else None
      end
  end.

(** [url.splitHostPort]: the port is what follows the last colon, when that is
    empty or all digits; brackets around an IPv6 host are dropped. *)
Definition drop_brackets (h : string) : string :=
  if HasPrefix h "[" && HasSuffix h "]" then String.substring 1 (String.length h - 2) h else h.

Definition url_splitHostPort (hostPort : string) : string * string :=
  match cut_last ":" hostPort with
  | Some (h, port) =>
      if all_bytes is_digit port then (drop_brackets h, port) else (drop_brackets hostPort, "")
  | None => (drop_brackets hostPort, "")
  end.
Definition Hostname (u : URL) : string := (url_splitHostPort (Host u)).1.
Definition Port (u : URL) : string := (url_splitHostPort (Host u)).2.

(** ** Errors *)

Inductive NetErr :=
| ErrURLSyntax | ErrURLEmpty | ErrScheme (s : string) | ErrUserinfo | ErrHostRequired
| ErrLocalhost | ErrZone | ErrPortInvalid | ErrPort (port : Z) | ErrIP (ip : Addr)
| ErrTooManyRedirects (n : Z) | ErrBlockedRedirect (e : NetErr)
| ErrProxyTrust | ErrProxyEnv | ErrBlockedProxy (e : NetErr)
| ErrNetwork (network : string) | ErrAddress | ErrResolve | ErrBlockedHost (host : string)
| ErrDial (code : Z) | ErrNoAddresses (host : string) | ErrContext.

(** ** The policy's operations *)

Section policy.
Context `{!Unicode}.

Definition portForURL (u : URL) : res NetErr Z :=
  if negb (String.eqb (Port u) "") then
    match Atoi (Port u) with
    | Some port => if (port <? 1) || (65535 <? port) then Err ErrPortInvalid else Ok port
    | None => Err ErrPortInvalid
    end
  else
    let scheme := ToLower (Scheme u) in
    if String.eqb scheme "http" then Ok 80
    else if String.eqb scheme "https" then Ok 443
    else Err (ErrScheme (Scheme u)).

(** [ValidateParsedURL]: [None] is the nil error. *)
Definition ValidateParsedURL (p : NetworkPolicy) (parsed : option URL) : option NetErr :=
  match parsed with
  | None => Some ErrURLEmpty
  | Some u =>
      let scheme := ToLower (Scheme u) in
      if negb (String.eqb scheme "http") && negb (String.eqb scheme "https")
      then Some (ErrScheme (Scheme u))
      else match User u with
      | Some _ => Some ErrUserinfo
      | None =>
          let host := Hostname u in
          if String.eqb host "" then Some ErrHostRequired
          else
            let normalizedHost := TrimSuffix (ToLower host) "." in
            if String.eqb normalizedHost "localhost" || HasSuffix normalizedHost ".localhost"
            then Some ErrLocalhost
            else if has_byte "%" host then Some ErrZone
            else match portForURL u with
            | Err e => Some e
            | Ok port =>
                if negb (IsAllowedPort p port) then Some (ErrPort port)
                else match ParseAddr host with
                     | Some ip => if negb (IsAllowedIP p ip) then Some (ErrIP ip) else None
                     | None => None
                     end
            end
      end
  end.

Definition ValidateURL `{!URLParser} (p : NetworkPolicy) (raw : string) : option NetErr :=
  match url_Parse raw with
  | None => Some ErrURLSyntax
  | Some parsed => ValidateParsedURL p (Some parsed)
  end.

(** [CheckRedirect]: [via] is the number of requests already made; on success
    the request goes on without its [Referer] header. *)
Definition CheckRedirect (p : NetworkPolicy) (target : option URL) (headers : gmap string string)
    (via : Z) : res NetErr (gmap string string) :=
  if maxRedirects p <? via then Err (ErrTooManyRedirects (maxRedirects p))
  else match ValidateParsedURL p target with
       | Some e => Err (ErrBlockedRedirect e)
       | None => Ok (delete "Referer" headers)
       end.

(** [Proxy]: [env] is the answer of [http.ProxyFromEnvironment]. *)
Definition Proxy (p : NetworkPolicy) (env : res NetErr (option URL)) : res NetErr (option URL) :=
  if negb (allowProxyEnv p) then Ok None
  else if negb (allowPrivateNetworks p) then Err ErrProxyTrust
  else match env with
       | Err e => Err e
       | Ok None => Ok None
       | Ok (Some u) =>
           match ValidateParsedURL p (Some u) with
           | Some e => Err (ErrBlockedProxy e)
           | None => Ok (Some u)
           end
       end.

(** The loop of [ResolveAllowedIPs] over the resolver's answer: unmapped,
    duplicates dropped, blocked addresses dropped. *)
Fixpoint filter_ips (p : NetworkPolicy) (seen : list Addr) (ips : list Addr) : list Addr :=
  match ips with
  | [] => []
  | ip :: rest =>
      let ip := Unmap ip in
      if decide (ip ∈ seen) then filter_ips p seen rest
      else if IsAllowedIP p ip then ip :: filter_ips p (ip :: seen) rest
      else filter_ips p (ip :: seen) rest
  end.

Definition ResolveAllowedIPs (p : NetworkPolicy) (resolver : string → res NetErr (list Addr))
    (host : string) : res NetErr (list Addr) :=
  match ParseAddr host with
  | Some ip =>
      let ip := Unmap ip in
      if negb (IsAllowedIP p ip) then Err (ErrIP ip) else Ok [ip]
  | None =>
      let! ips := resolver host in
      let allowed := filter_ips p [] ips in
      if decide (List.length allowed = 0%nat) then Err (ErrBlockedHost host) else Ok allowed
  end.

(** [net.SplitHostPort]. *)
Definition SplitHostPort (hostport : string) : option (string * string) :=
  match cut_last ":" hostport with
  | None => None
  | Some (before, port) =>
      match hostport with
      | String "[" inner =>
          match cut_byte "]" inner with
          | None => None
          | Some (host, after) =>
              (* the first ']' must come just before the last ':' *)
              match after with
              | String ":" rest =>
                  if has_byte ":" rest then None
                  else if has_byte "[" inner || has_byte "]" after then None
                  else Some (host, port)
              | _ => None
              end
          end
      | _ =>
          if has_byte ":" before then None
          else if has_byte "[" hostport || has_byte "]" hostport then None
          else Some (before, port)
      end
  end.

(** One call of the dialler: the address, the port as written in the request
    and the time budget given to it when the request has a deadline. *)
Record DialAttempt := { da_ip : Addr; da_port : string; da_budget : option Z }.

Section dial.
Context (Conn : Type).
(** The dialler, the request's deadline, the clock at each iteration and the
    context's error when the deadline is found to have passed. *)
Context (dialer : DialAttempt → res NetErr Conn) (deadline : option Time)
        (clock : nat → Time) (ctx_Err : option NetErr).

Definition dial_budget (remaining : Z) (addresses : Z) : Z :=
  let budget := Z.quot remaining addresses in
  if budget <=? 0 then Nanosecond else budget.

(** The loop of [DialContext]: the attempts made, then the connection and the
    error returned.  [index] counts iterations, [total] is [len(ips)]. *)
Fixpoint dial_loop (host port : string) (total index : nat) (ips : list Addr) (lastErr : option NetErr)
  : list DialAttempt * (option Conn * option NetErr) :=
  match ips with
  | [] => ([], (None, match lastErr with Some e => Some e | None => Some (ErrNoAddresses host) end))
  | ip :: rest =>
      let attempt budget :=
        let a := {| da_ip := ip; da_port := port; da_budget := budget |} in
        match dialer a with
        | Ok conn => ([a], (Some conn, None))
        | Err e =>
            let '(tr, r) := dial_loop host port total (S index) rest (Some e) in (a :: tr, r)
        end in
      match deadline with
      | Some d =>
          let remaining := d - clock index in
          if remaining <=? 0 then ([], (None, ctx_Err))
          else attempt (Some (dial_budget remaining (Z.of_nat total - Z.of_nat index)))
      | None => attempt None
      end
  end.

Definition DialContext (p : NetworkPolicy) (resolver : string → res NetErr (list Addr))
    (network address : string) : list DialAttempt * (option Conn * option NetErr) :=
  if negb (String.eqb network "tcp" || String.eqb network "tcp4" || String.eqb network "tcp6")
  then ([], (None, Some (ErrNetwork network)))
  else match SplitHostPort address with
  | None => ([], (None, Some ErrAddress))
  | Some (host, port) =>
      match Atoi port with
      | None => ([], (None, Some ErrPortInvalid))
      | Some portNumber =>
          if negb (IsAllowedPort p portNumber) then ([], (None, Some (ErrPort portNumber)))
          else if has_byte "%" host then ([], (None, Some ErrZone))
          else match ResolveAllowedIPs p resolver host with
               | Err e => ([], (None, Some e))
               | Ok ips => dial_loop host port (List.length ips) 0 ips None
               end
      end
  end.
End dial.
End policy.

(** ** What the parser of addresses returns *)

Lemma is_digit_val c : is_digit c = true → 0 <= byte_val c - 48 <= 9.
Proof. unfold is_digit. intros H. apply andb_true_iff in H as [H1%Z.leb_le H2%Z.leb_le]. lia. Qed.

Lemma parseIPv4_loop_range s first dot val dig pos acc r :
  0 <= val <= 255 → 0 <= pos <= 3 → 0 <= acc < 256 ^ pos →
  parseIPv4_loop s first dot val dig pos acc = Some r → 0 <= r < 2 ^ 32.
Proof.
  revert first dot val dig pos acc. induction s as [|c s IH]; intros first dot val dig pos acc Hv Hp Ha; cbn [parseIPv4_loop].
  - destruct (Z.ltb_spec pos 3); [done|]. intros [= <-].
    assert (pos = 3) as -> by lia. change (256 ^ 3) with 16777216 in Ha. change (2 ^ 32) with 4294967296. lia.
  - destruct (is_digit c) eqn:Hd.
    + apply is_digit_val in Hd. destruct (_ && _); [done|].
      destruct (Z.ltb_spec 255 (val * 10 + (byte_val c - 48))); [done|]. apply IH; lia.
    + destruct (Ascii.eqb c "."); [|done]. destruct (_ || _); [done|].
      destruct (Z.eqb_spec pos 3); [done|]. apply IH; [lia..|].
      rewrite Z.pow_add_r by lia. change (256 ^ 1) with 256. nia.
Qed.

Lemma parseIPv4_range s r : parseIPv4Fields s = Some r → 0 <= r < 2 ^ 32.
Proof. apply parseIPv4_loop_range; lia. Qed.

Lemma hex_val_range c d : hex_val c = Some d → 0 <= d < 16.
Proof.
  unfold hex_val. intros H.
  repeat match type of H with context [if ?b then _ else _] => destruct b eqn:? end;
    repeat match goal with E : (_ && _) = true |- _ => apply andb_true_iff in E as [?%Z.leb_le ?%Z.leb_le] end;
    simplify_eq; lia.
Qed.

Lemma parse_group_range s off acc off' acc' rest :
  0 <= off <= 4 → 0 <= acc < 16 ^ off →
  parse_group s off acc = Some (off', acc', rest) → 0 <= acc' < 65536.
Proof.
  revert off acc. induction s as [|c s IH]; intros off acc Ho Ha; cbn [parse_group].
  - intros [= <- <- <-]. pose proof (Z.pow_le_mono_r 16 off 4). lia.
  - destruct (hex_val c) as [d|] eqn:Hd.
    + apply hex_val_range in Hd. destruct (Z.ltb_spec 3 off); [done|]. apply IH; [lia|].
      rewrite Z.pow_add_r by lia. change (16 ^ 1) with 16. nia.
    + intros [= <- <- <-]. pose proof (Z.pow_le_mono_r 16 off 4). lia.
Qed.

Lemma groups_num_range l a :
  0 <= a → Forall (λ g, 0 <= g < 65536) l →
  0 <= foldl (λ a g, a * 65536 + g) a l < (a + 1) * 65536 ^ Z.of_nat (List.length l).
Proof.
  revert a. induction l as [|g l IH]; intros a Ha Hl; cbn [foldl List.length].
  - change (65536 ^ Z.of_nat 0) with 1. lia.
  - inversion_clear Hl. rewrite Nat2Z.inj_succ, Z.pow_succ_r by lia.
    pose proof (Z.pow_pos_nonneg 65536 (Z.of_nat (List.length l))).
    specialize (IH (a * 65536 + g) ltac:(lia) ltac:(done)). nia.
Qed.

Definition addr_ok (zone : string) (ip : Addr) : Prop :=
  addr_wf ip ∧ match ip with V6 _ z => z = zone | _ => True end.

Lemma finish_v6_ok groups e zone ip :
  Forall (λ g, 0 <= g < 65536) groups → finish_v6 groups e zone = Some ip → addr_ok zone ip.
Proof.
  intros Hg. unfold finish_v6.
  assert (∀ l, Forall (λ g, 0 <= g < 65536) l → List.length l = 8%nat →
    0 <= foldl (λ a g, a * 65536 + g) 0 l < 2 ^ 128) as Hn.
  { intros l Hl Hlen. pose proof (groups_num_range l 0 ltac:(lia) Hl) as H. by rewrite Hlen in H. }
  destruct e as [e|].
  - case_decide; [|done]. intros [= <-]. split; [|done]. apply Hn.
    + apply Forall_app. split; [by apply Forall_take, Forall_rev|].
      apply Forall_app. split; [|by apply Forall_drop, Forall_rev].
      apply Forall_replicate. lia.
    + rewrite !length_app, length_take, length_drop, length_replicate, length_rev. lia.
  - case_decide; [|done]. intros [= <-]. split; [|done]. apply Hn; [by apply Forall_rev|].
    by rewrite length_rev.
Qed.

Lemma parseIPv6_loop_ok room s groups e zone ip :
  Forall (λ g, 0 <= g < 65536) groups →
  parseIPv6_loop room s groups e zone = Some ip → addr_ok zone ip.
Proof.
  revert s groups e. induction room as [|room IH]; intros s groups e Hg; cbn [parseIPv6_loop].
  { destruct (String.eqb s ""); [|done]. by apply finish_v6_ok. }
  destruct (parse_group s 0 0) as [[[off acc] rest]|] eqn:Hp; [|done].
  apply parse_group_range in Hp; [|lia..].
  destruct (off =? 0); [done|].
  assert (Forall (λ g, 0 <= g < 65536) (acc :: groups)) as Hg' by (by constructor).
  destruct rest as [|c t]; [by apply finish_v6_ok|].
  destruct (decide (c = "."%char)) as [->|].
  { destruct (_ && _); [done|]. case_decide; [done|].
    destruct (parseIPv4Fields s) as [v|] eqn:Hv; [|done].
    apply parseIPv4_range in Hv. apply finish_v6_ok.
    pose proof (Z.mod_pos_bound v 65536). constructor; [lia|]. constructor; [|done].
    split; [apply Z.div_pos; lia|apply Z.div_lt_upper_bound; lia]. }
  destruct (decide (c = ":"%char)) as [->|].
  - destruct t as [|c' t']; [done|].
    destruct (decide (c' = ":"%char)) as [->|].
    + destruct e; [done|]. destruct (String.eqb t' ""); [by apply finish_v6_ok|by apply IH].
    + intros H. apply (IH (String c' t') (acc :: groups) e Hg').
      by destruct c' as [[] [] [] [] [] [] [] []].
  - by destruct c as [[] [] [] [] [] [] [] []].
Qed.

Lemma cut_byte_absent c s : has_byte c s = false → cut_byte c s = None.
Proof.
  induction s as [|x s IH]; cbn; [done|]. intros [Hx Hs]%orb_false_iff.
  by rewrite Hx, (IH Hs).
Qed.

(** A host without '%' never parses to an address with a zone, and every
    parsed address fits its width. *)
Lemma ParseAddr_ok s ip : has_byte "%" s = false → ParseAddr s = Some ip → addr_ok "" ip.
Proof.
  intros Hs. unfold ParseAddr. destruct (addr_family s) as [c|]; [|done].
  destruct (decide (c = "."%char)) as [->|].
  { destruct (parseIPv4Fields s) as [v|] eqn:Hv; [|done]. intros [= <-].
    apply parseIPv4_range in Hv. by split. }
  destruct (decide (c = ":"%char)) as [->|]; [|by destruct c as [[] [] [] [] [] [] [] []]].
  unfold parseIPv6. rewrite cut_byte_absent by done.
  destruct s as [|c1 t]; [by apply parseIPv6_loop_ok|].
  destruct (decide (c1 = ":"%char)) as [->|].
  - destruct t as [|c2 t]; [by apply parseIPv6_loop_ok|].
    destruct (decide (c2 = ":"%char)) as [->|].
    + destruct t; [|by apply parseIPv6_loop_ok]. intros [= <-]. split; [cbn; lia|done].
    + intros H. apply (parseIPv6_loop_ok 8 (String ":" (String c2 t)) [] None ""); [done|].
      by destruct c2 as [[] [] [] [] [] [] [] []].
  - intros H. apply (parseIPv6_loop_ok 8 (String c1 t) [] None ""); [done|].
    by destruct c1 as [[] [] [] [] [] [] [] []].
Qed.

Lemma Unmap_ok ip : addr_ok "" ip → addr_ok "" (Unmap ip).
Proof.
  destruct ip as [|a|a z]; [done..|]. intros [Hw ->]. cbn [Unmap].
  destruct (Is4In6 _); [|done]. split; [|done]. cbn [addr_wf]. rewrite land_low32.
  pose proof (Z.mod_pos_bound a (2 ^ 32)). lia.
Qed.

Lemma addr_ok_zoneless ip : addr_ok "" ip → addr_wf ip ∧ zoneless ip.
Proof. intros [H1 H2]. split; [done|]. by destruct ip. Qed.

(** ** Resolution and dialling *)

Lemma filter_ips_allowed p seen ips ip :
  ip ∈ filter_ips p seen ips → IsAllowedIP p ip = true ∧ ∃ raw, raw ∈ ips ∧ ip = Unmap raw.
Proof.
  revert seen. induction ips as [|x ips IH]; intros seen; cbn [filter_ips].
  - by intros ?%elem_of_nil.
  - case_decide.
    + intros (? & raw & ? & ?)%IH. split; [done|]. exists raw. by split; [apply list_elem_of_further|].
    + destruct (IsAllowedIP p (Unmap x)) eqn:E.
      * intros [->|(? & raw & ? & ?)%IH]%elem_of_cons.
        -- split; [done|]. exists x. by split; [apply list_elem_of_here|].
        -- split; [done|]. exists raw. by split; [apply list_elem_of_further|].
      * intros (? & raw & ? & ?)%IH. split; [done|]. exists raw. by split; [apply list_elem_of_further|].
Qed.

Lemma filter_ips_NoDup p seen ips :
  NoDup (filter_ips p seen ips) ∧ (∀ ip, ip ∈ filter_ips p seen ips → ip ∉ seen).
Proof.
  revert seen. induction ips as [|x ips IH]; intros seen; cbn [filter_ips].
  { split; [constructor|]. by intros ? ?%elem_of_nil. }
  case_decide; [apply IH|].
  destruct (IH (Unmap x :: seen)) as [Hn Hs]. destruct (IsAllowedIP p (Unmap x)).
  - split.
    + constructor; [|done]. intros Hin%Hs. apply Hin. by left.
    + intros ip [->|Hin]%elem_of_cons; [done|]. apply Hs in Hin. rewrite not_elem_of_cons in Hin. tauto.
  - split; [done|]. intros ip Hin%Hs. rewrite not_elem_of_cons in Hin. tauto.
Qed.

(** What the policy relies on of a resolver: netip addresses without a zone. *)
Definition resolver_ok (resolver : string → res NetErr (list Addr)) : Prop :=
  ∀ host ips, resolver host = Ok ips → Forall (addr_ok "") ips.

Lemma ResolveAllowedIPs_ok p resolver host ips ip :
  resolver_ok resolver → has_byte "%" host = false →
  ResolveAllowedIPs p resolver host = Ok ips → ip ∈ ips →
  IsAllowedIP p ip = true ∧ addr_ok "" ip.
Proof.
  intros Hr Hh. unfold ResolveAllowedIPs. destruct (ParseAddr host) as [a|] eqn:Hp.
  - apply ParseAddr_ok in Hp; [|done]. destruct (IsAllowedIP p (Unmap a)) eqn:E; [|done].
    intros [= <-] ->%list_elem_of_singleton. by split; [|apply Unmap_ok].
  - destruct (resolver host) as [raw|] eqn:Hres; [|done]. case_decide; [done|].
    intros [= <-] (? & x & Hx & ->)%filter_ips_allowed. split; [done|].
    apply Unmap_ok. apply Hr in Hres. by eapply Forall_forall in Hres.
Qed.

Section dial_facts.
Context (Conn : Type) (dialer : DialAttempt → res NetErr Conn) (deadline : option Time)
        (clock : nat → Time) (ctx_Err : option NetErr).

Lemma dial_loop_attempts host port total index ips lastErr a :
  a ∈ (dial_loop Conn dialer deadline clock ctx_Err host port total index ips lastErr).1 →
  da_ip a ∈ ips ∧ da_port a = port ∧ (∀ b, da_budget a = Some b → 0 < b).
Proof.
  assert (∀ r k, 0 < dial_budget r k) as Hb.
  { intros r k. unfold dial_budget, Nanosecond. destruct (Z.leb_spec (Z.quot r k) 0); lia. }
  revert index lastErr. induction ips as [|ip ips IH]; intros index lastErr; cbn [dial_loop].
  { by intros ?%elem_of_nil. }
  destruct deadline as [d|].
  - destruct (_ <=? 0); [by intros ?%elem_of_nil|]. destruct (dialer _) as [c|e].
    + intros ->%list_elem_of_singleton. cbn. split_and!; [by left|done|]. intros b [= <-]. apply Hb.
    + destruct (dial_loop _ _ _ _ _ _ _ _ (S index) ips (Some e)) as [tr r] eqn:E.
      intros [->|Hin]%elem_of_cons.
      * cbn. split_and!; [by left|done|]. intros b [= <-]. apply Hb.
      * specialize (IH (S index) (Some e)). rewrite E in IH. destruct (IH Hin) as (? & ? & ?).
        split_and!; [by right|done|done].
  - destruct (dialer _) as [c|e].
    + intros ->%list_elem_of_singleton. cbn. split_and!; [by left|done|done].
    + destruct (dial_loop _ _ _ _ _ _ _ _ (S index) ips (Some e)) as [tr r] eqn:E.
      intros [->|Hin]%elem_of_cons.
      * cbn. split_and!; [by left|done|done].
      * specialize (IH (S index) (Some e)). rewrite E in IH. destruct (IH Hin) as (? & ? & ?).
        split_and!; [by right|done|done].
Qed.
End dial_facts.

(** The redirect chain of one check: [http.Client] asks [CheckRedirect] before
    each further request, passing the number of requests made so far, and
    stops at the first refusal. *)
Fixpoint follow_redirects `{!Unicode} (p : NetworkPolicy) (via : Z) (headers : gmap string string)
    (targets : list URL) : list (URL * gmap string string) :=
  match targets with
  | [] => []
  | u :: rest =>
      match CheckRedirect p (Some u) headers via with
      | Err _ => []
      | Ok headers' => (u, headers') :: follow_redirects p (via + 1) headers' rest
      end
  end.

(** C32: no server-side request forgery through DNS.  Whatever addresses the
    resolver returns (private, loopback, IPv4-mapped, NAT64, link-local), and
    whatever the dialler and the clock do, every connection attempt made for
    a check goes to a public address, over TCP, on an allowed port. *)
Theorem DialContext_public (Conn : Type) (dialer : DialAttempt → res NetErr Conn)
    (deadline : option Time) (clock : nat → Time) (ctx_Err : option NetErr)
    (p : NetworkPolicy) (resolver : string → res NetErr (list Addr))
    (network address : string) (a : DialAttempt) :
  allowPrivateNetworks p = false → resolver_ok resolver →
  a ∈ (DialContext Conn dialer deadline clock ctx_Err p resolver network address).1 →
  public_addr (da_ip a)
  ∧ (∃ port, Atoi (da_port a) = Some port ∧ port ∈ allowedPorts p)
  ∧ HasPrefix network "tcp" = true
  ∧ (∀ budget, da_budget a = Some budget → 0 < budget).
Proof.
  intros Hp Hr. unfold DialContext.
  destruct (String.eqb network "tcp" || _ || _) eqn:Hnet; cbn [negb]; [|by intros ?%elem_of_nil].
  destruct (SplitHostPort address) as [[host port]|]; [|by intros ?%elem_of_nil].
  destruct (Atoi port) as [n|] eqn:Hn; [|by intros ?%elem_of_nil].
  destruct (IsAllowedPort p n) eqn:Hport; [|by intros ?%elem_of_nil].
  destruct (has_byte "%" host) eqn:Hz; [by intros ?%elem_of_nil|].
  destruct (ResolveAllowedIPs p resolver host) as [ips|e] eqn:Hips; [|by intros ?%elem_of_nil].
  intros (Hin & Hpa & Hb)%dial_loop_attempts.
  destruct (ResolveAllowedIPs_ok _ _ _ _ _ Hr Hz Hips Hin) as [Hallow Hok].
  apply addr_ok_zoneless in Hok as [Hw Hzl]. split_and!.
  - by apply (IsAllowedIP_public_lemma p).
  - exists n. rewrite Hpa. split; [done|]. by apply bool_decide_eq_true in Hport.
  - rewrite !orb_true_iff, !String.eqb_eq in Hnet. by destruct Hnet as [[-> | ->] | ->].
  - done.
Qed.

(** A resolver under an attacker's control: loopback, the cloud metadata
    address, NAT64 of 10.0.0.1 and one public address. *)
Definition rebinding_resolver (host : string) : res NetErr (list Addr) :=
  Ok [V4 (ipv4 127 0 0 1); V6 (0xffff * 2 ^ 32 + ipv4 169 254 169 254) "";
      V6 (0x0064ff9b * 2 ^ 96 + ipv4 10 0 0 1) ""; V4 (ipv4 93 184 216 34)].

Definition default_policy : NetworkPolicy :=
  {| allowPrivateNetworks := false; allowProxyEnv := false; maxRedirects := 3;
     allowedPorts := {[80; 443]} |}.

Lemma DialContext_public_witness :
  let tr := (DialContext unit (λ _, Ok tt) (Some (100 * Second)) (λ _, 90 * Second) None
    default_policy rebinding_resolver "tcp" "rebind.example:443").1 in
  tr = [{| da_ip := V4 (ipv4 93 184 216 34); da_port := "443"; da_budget := Some (10 * Second) |}]
  ∧ public_addr (V4 (ipv4 93 184 216 34)).
Proof.
  cbv zeta. split; [vm_compute; reflexivity|].
  eapply (DialContext_public unit (λ _, Ok tt) (Some (100 * Second)) (λ _, 90 * Second) None
    default_policy rebinding_resolver "tcp" "rebind.example:443"
    {| da_ip := V4 (ipv4 93 184 216 34); da_port := "443"; da_budget := Some (10 * Second) |}).
  - reflexivity.
  - intros host ips [= <-]. rewrite !Forall_cons, Forall_nil. split_and!; done.
  - vm_compute. apply list_elem_of_here.
Defined.

Lemma ValidateParsedURL_ok `{!Unicode} p u :
  ValidateParsedURL p (Some u) = None →
  (ToLower (Scheme u) = "http" ∨ ToLower (Scheme u) = "https")
  ∧ User u = None ∧ Hostname u ≠ ""
  ∧ TrimSuffix (ToLower (Hostname u)) "." ≠ "localhost"
  ∧ has_byte "%" (Hostname u) = false
  ∧ (∃ port, portForURL u = Ok port ∧ port ∈ allowedPorts p)
  ∧ (∀ ip, ParseAddr (Hostname u) = Some ip → IsAllowedIP p ip = true).
Proof.
  unfold ValidateParsedURL.
  destruct (String.eqb_spec (ToLower (Scheme u)) "http") as [Hs|];
    destruct (String.eqb_spec (ToLower (Scheme u)) "https") as [Hs'|]; cbn [negb andb]; try done;
    destruct (User u); try done;
    destruct (String.eqb_spec (Hostname u) ""); try done;
    destruct (String.eqb_spec (TrimSuffix (ToLower (Hostname u)) ".") "localhost"); try done; cbn [orb];
    destruct (HasSuffix _ _); try done;
    destruct (has_byte "%" (Hostname u)); try done;
    destruct (portForURL u) as [port|] eqn:Hport; try done;
    destruct (IsAllowedPort p port) eqn:Ha; try done; cbn [negb];
    apply bool_decide_eq_true in Ha;
    destruct (ParseAddr (Hostname u)) as [ip|]; intros Hres;
    (split_and!; eauto; intros ip' [= <-]; by destruct (IsAllowedIP p ip)).
Qed.

Lemma follow_redirects_spec `{!Unicode} p via headers targets :
  0 <= via →
  Z.of_nat (List.length (follow_redirects p via headers targets)) <= Z.max 0 (maxRedirects p - via + 1)
  ∧ Forall (λ r, ValidateParsedURL p (Some r.1) = None ∧ r.2 !! "Referer" = None)
      (follow_redirects p via headers targets).
Proof.
  revert via headers. induction targets as [|u rest IH]; intros via headers Hv; cbn [follow_redirects].
  { cbn [List.length]. split; [lia|constructor]. }
  unfold CheckRedirect. destruct (Z.ltb_spec (maxRedirects p) via); [cbn; split; [lia|constructor]|].
  destruct (ValidateParsedURL p (Some u)) eqn:Hu; [cbn; split; [lia|constructor]|].
  destruct (IH (via + 1) (delete "Referer" headers)) as [Hl Hf]; [lia|].
  cbn [List.length]. split; [lia|]. constructor; [|done]. cbn. by rewrite lookup_delete_eq.
Qed.

(** A check follows at most [MAX_REDIRECTS] redirects, each to a URL that
    passes the same policy as the monitor's own URL (scheme, no userinfo, no
    localhost name, allowed port, no blocked IP literal), and never sends the
    previous URL in a [Referer] header. *)
Lemma redirects_bounded_and_validated `{!Unicode} (p : NetworkPolicy)
    (headers : gmap string string) (targets : list URL) :
  allowPrivateNetworks p = false → 0 <= maxRedirects p →
  let followed := follow_redirects p 1 headers targets in
  Z.of_nat (List.length followed) <= maxRedirects p
  ∧ ∀ u h, (u, h) ∈ followed →
      (ToLower (Scheme u) = "http" ∨ ToLower (Scheme u) = "https")
      ∧ User u = None ∧ TrimSuffix (ToLower (Hostname u)) "." ≠ "localhost"
      ∧ (∃ port, portForURL u = Ok port ∧ port ∈ allowedPorts p)
      ∧ (∀ ip, ParseAddr (Hostname u) = Some ip → public_addr ip)
      ∧ h !! "Referer" = None.
Proof.
  intros Hp Hm followed.
  destruct (follow_redirects_spec p 1 headers targets) as [Hl Hf]; [lia|]. fold followed in Hl, Hf.
  split; [lia|]. intros u h Hin. rewrite Forall_forall in Hf.
  destruct (Hf _ Hin) as [Hv Hh]. cbn [fst snd] in *.
  apply ValidateParsedURL_ok in Hv as (Hs & Hu & _ & Hloc & Hz & Hport & Hip).
  split_and!; try done. intros ip Hpar.
  pose proof (ParseAddr_ok _ _ Hz Hpar) as [Hw Hzl]%addr_ok_zoneless.
  apply (IsAllowedIP_public_lemma p); [done..|]. by apply Hip.
Qed.

Lemma redirects_witness :
  let lower := {| unicode_ToLower := λ s, s |} in
  let u1 := {| Scheme := "HTTPS"; User := None; Host := "a.example" |} in
  let u2 := {| Scheme := "http"; User := None; Host := "[::ffff:169.254.169.254]" |} in
  let hs : gmap string string := {["Referer" := "https://secret/"]} in
  List.length (follow_redirects (H:=lower) default_policy 1 hs [u1; u2; u1]) = 1%nat
  ∧ Z.of_nat (List.length (follow_redirects (H:=lower) default_policy 1 hs [u1; u2; u1])) <= 3.
Proof.
  split; [vm_compute; reflexivity|].
  refine (proj1 (redirects_bounded_and_validated (H:={| unicode_ToLower := λ s, s |}) default_policy _ _ _ _));
    [reflexivity|discriminate].
Defined.
