(* ===== verification/Domain.v ===== *)
(** * Domain types and validation (monitor.go)

    Monitors, check jobs, check results and incidents as the repositories keep
    them; the identifiers they are given; and the validation of a monitor. *)

From stdpp Require Import base list gmap strings.
From Stdlib Require Import ZArith Lia Ascii.
From S2P Require Import Prelude GoNum GoStrings NetworkPolicy Egress.
#[local] Open Scope string_scope.
#[local] Open Scope Z_scope.

(** ** Errors

    The sentinel errors of the program, tested with [errors.Is];
    [ErrInfra] is any other error (database, broker, network). *)
Inductive InvalidReason :=
| URLRequired | URLTooLong | URLInvalid | URLNotAllowed (e : NetErr)
| IntervalRange | TimeoutRange | StatusRange.

Inductive GoError :=
| ErrMonitorNotFound | ErrMonitorExists | ErrInvalidMonitor (why : InvalidReason)
| ErrJobIDRequired | ErrDuplicateJob | ErrStaleJob | ErrJobAlreadyProcessing
| ErrQueueFull | ErrQueueConsumerClosed | ErrCanceled | ErrDeadlineExceeded
| ErrStaleAlertLease
| ErrInfra (code : Z).

(** ** Constants *)
Inductive MonitorStatus := monitorStatusActive | monitorStatusDisabled.
Inductive IncidentStatus := incidentStatusOpen | incidentStatusResolved.
Inductive CheckJobStatus :=
| checkJobStatusScheduled | checkJobStatusQueued | checkJobStatusProcessing
| checkJobStatusCompleted | checkJobStatusFailed | checkJobStatusDead.
Inductive CheckJobKind := checkJobKindScheduled | checkJobKindManual.

#[export] Instance MonitorStatus_eq_dec : EqDecision MonitorStatus.
Proof. solve_decision. Defined.
#[export] Instance IncidentStatus_eq_dec : EqDecision IncidentStatus.
Proof. solve_decision. Defined.
#[export] Instance CheckJobStatus_eq_dec : EqDecision CheckJobStatus.
Proof. solve_decision. Defined.
#[export] Instance CheckJobKind_eq_dec : EqDecision CheckJobKind.
Proof. solve_decision. Defined.

Definition incident_status_string (s : IncidentStatus) : string :=
  match s with incidentStatusOpen => "open" | incidentStatusResolved => "resolved" end.

Definition minMonitorTimeoutSeconds : Z := 1.
Definition maxMonitorTimeoutSeconds : Z := 60.
Definition maxMonitorURLLength : Z := 8192.
Definition maxChecksPerMonitor : Z := 500.
Definition maxProcessedJobIDs : Z := 10000.
Definition maxRetainedCheckJobs : Z := 10000.
Definition maxRetainedResolvedIncidents : Z := 10000.
Definition defaultMaxJobAttempts : Z := 3.

(** ** Records *)

Record Monitor := mkMonitor {
  mon_ID : string; mon_URL : string;
  mon_IntervalSeconds : Z; mon_TimeoutSeconds : Z; mon_ExpectedStatus : Z;
  mon_Status : MonitorStatus; mon_Enabled : bool;
  mon_NextCheckAt : Time; mon_CreatedAt : Time; mon_UpdatedAt : Time;
  mon_LastStatusCode : Z; mon_LastLatencyMS : Z; mon_LastCheckedAt : Time; mon_LastError : string;
}.
#[export] Instance eta_Monitor : Eta Monitor := λ r,
  mkMonitor (mon_ID r) (mon_URL r) (mon_IntervalSeconds r) (mon_TimeoutSeconds r)
    (mon_ExpectedStatus r) (mon_Status r) (mon_Enabled r) (mon_NextCheckAt r) (mon_CreatedAt r)
    (mon_UpdatedAt r) (mon_LastStatusCode r) (mon_LastLatencyMS r) (mon_LastCheckedAt r) (mon_LastError r).

Record CheckRecord := mkCheckRecord {
  rec_ID : string; rec_JobID : string; rec_MonitorID : string; rec_StatusCode : Z;
  rec_LatencyMS : Z; rec_Error : string; rec_Success : bool; rec_CheckedAt : Time;
}.
#[export] Instance eta_CheckRecord : Eta CheckRecord := λ r,
  mkCheckRecord (rec_ID r) (rec_JobID r) (rec_MonitorID r) (rec_StatusCode r) (rec_LatencyMS r)
    (rec_Error r) (rec_Success r) (rec_CheckedAt r).

Record CheckJobRecord := mkCheckJobRecord {
  job_ID : string; job_MonitorID : string; job_Kind : CheckJobKind; job_ScheduledFor : Time;
  job_Status : CheckJobStatus; job_Attempt : Z; job_AvailableAt : Time; job_PublishedAt : Time;
  job_ProcessingStartedAt : Time; job_LeaseExpiresAt : Time; job_LeaseToken : string;
  job_PublicationToken : string; job_CompletedAt : Time; job_LastError : string;
  job_CreatedAt : Time; job_UpdatedAt : Time;
}.
#[export] Instance eta_CheckJobRecord : Eta CheckJobRecord := λ r,
  mkCheckJobRecord (job_ID r) (job_MonitorID r) (job_Kind r) (job_ScheduledFor r) (job_Status r)
    (job_Attempt r) (job_AvailableAt r) (job_PublishedAt r) (job_ProcessingStartedAt r)
    (job_LeaseExpiresAt r) (job_LeaseToken r) (job_PublicationToken r) (job_CompletedAt r)
    (job_LastError r) (job_CreatedAt r) (job_UpdatedAt r).

Record ProcessingLease := {
  lease_JobID : string; lease_MonitorID : string; lease_Attempt : Z; lease_LeaseToken : string;
}.

Record PublicationClaim := {
  claim_JobID : string; claim_MonitorID : string; claim_Attempt : Z; claim_Token : string;
}.

Definition job_PublicationClaim (job : CheckJobRecord) : PublicationClaim :=
  {| claim_JobID := job_ID job; claim_MonitorID := job_MonitorID job;
     claim_Attempt := job_Attempt job; claim_Token := job_PublicationToken job |}.

Record Incident := mkIncident {
  inc_ID : string; inc_MonitorID : string; inc_Status : IncidentStatus; inc_FailureCount : Z;
  inc_FirstFailureAt : Time; inc_LastFailureAt : Time; inc_ResolvedAt : Time;
  inc_LastError : string; inc_LastAlertedAt : Time; inc_AlertCount : Z;
  inc_CreatedAt : Time; inc_UpdatedAt : Time;
}.
#[export] Instance eta_Incident : Eta Incident := λ r,
  mkIncident (inc_ID r) (inc_MonitorID r) (inc_Status r) (inc_FailureCount r) (inc_FirstFailureAt r)
    (inc_LastFailureAt r) (inc_ResolvedAt r) (inc_LastError r) (inc_LastAlertedAt r)
    (inc_AlertCount r) (inc_CreatedAt r) (inc_UpdatedAt r).

Record MonitorInput := {
  in_URL : string; in_IntervalSeconds : Z; in_TimeoutSeconds : Z; in_ExpectedStatus : Z;
  in_Enabled : option bool;
}.

Record MonitorPatch := {
  patch_URL : option string; patch_IntervalSeconds : option Z; patch_TimeoutSeconds : option Z;
  patch_ExpectedStatus : option Z; patch_Enabled : option bool;
}.

(** ** Validation *)

Definition validateMonitorInput `{!Unicode, !URLParser} (input : MonitorInput) (policy : NetworkPolicy)
  : option GoError :=
  if String.eqb (in_URL input) "" then Some (ErrInvalidMonitor URLRequired)
  else if maxMonitorURLLength <? RuneCountInString (in_URL input) then Some (ErrInvalidMonitor URLTooLong)
  else match url_ParseRequestURI (in_URL input) with
  | None => Some (ErrInvalidMonitor URLInvalid)
  | Some _ =>
      match ValidateURL policy (in_URL input) with
      | Some e => Some (ErrInvalidMonitor (URLNotAllowed e))
      | None =>
          if (in_IntervalSeconds input <? 30) || (86400 <? in_IntervalSeconds input)
          then Some (ErrInvalidMonitor IntervalRange)
          else if (in_TimeoutSeconds input <? minMonitorTimeoutSeconds)
                  || (maxMonitorTimeoutSeconds <? in_TimeoutSeconds input)
          then Some (ErrInvalidMonitor TimeoutRange)
          else if (in_ExpectedStatus input <? 100) || (599 <? in_ExpectedStatus input)
          then Some (ErrInvalidMonitor StatusRange)
          else None
      end
  end.

(** What a stored monitor's settings satisfy (also the CHECK constraints of
    the database schema). *)
Definition settings_ok (url : string) (interval timeout expected : Z) : Prop :=
  url ≠ "" ∧ RuneCountInString url <= 8192
  ∧ 30 <= interval <= 86400 ∧ 1 <= timeout <= 60 ∧ 100 <= expected <= 599.

Lemma validateMonitorInput_ok `{!Unicode, !URLParser} input policy :
  validateMonitorInput input policy = None →
  settings_ok (in_URL input) (in_IntervalSeconds input) (in_TimeoutSeconds input) (in_ExpectedStatus input)
  ∧ ValidateURL policy (in_URL input) = None.
Proof.
  unfold validateMonitorInput, settings_ok, minMonitorTimeoutSeconds, maxMonitorTimeoutSeconds, maxMonitorURLLength.
  destruct (String.eqb_spec (in_URL input) ""); [done|].
  destruct (Z.ltb_spec 8192 (RuneCountInString (in_URL input))); [done|].
  destruct (url_ParseRequestURI (in_URL input)); [|done].
  destruct (ValidateURL policy (in_URL input)); [done|].
  repeat match goal with |- context [?a <? ?b] => destruct (Z.ltb_spec a b) end; done.
Qed.

(** ** Identifiers *)

(** What [rand.Read] yields for one identifier: 16 bytes, or a failure, after
    which the clock is used. *)
Inductive Entropy := RandBytes (bytes : list Z) | RandFailed (now : Time).

Definition hex_digit (d : Z) : ascii :=
  ascii_of_N (Z.to_N (if d <? 10 then 48 + d else 87 + d)).
Fixpoint EncodeToString (bytes : list Z) : string :=
  match bytes with
  | [] => ""
  | b :: rest => String (hex_digit (b / 16)) (String (hex_digit (b mod 16)) (EncodeToString rest))
  end.

Definition newID (prefix : string) (e : Entropy) : string :=
  match e with
  | RandBytes bytes => prefix +:+ "_" +:+ EncodeToString bytes
  | RandFailed now => prefix +:+ "_" +:+ Itoa (UnixNano now)
  end.
Definition newMonitorID (e : Entropy) : string := newID "mon" e.

Definition NewCheckJobID (monitorID : string) (nextCheckAt : Time) (clk : Time) : string :=
  let nextCheckAt := if IsZero nextCheckAt then UTC clk else nextCheckAt in
  "job_" +:+ monitorID +:+ "_" +:+ Itoa (UnixNano (UTC nextCheckAt)).

(** Underscores in an identifier: a generated one has none after its prefix, a
    scheduled job's has one before its timestamp. *)
Lemma has_byte_app c a b : has_byte c (a +:+ b) = has_byte c a || has_byte c b.
Proof. induction a as [|x a IH]; simpl; [done|]. by rewrite IH, orb_assoc. Qed.

Lemma all_bytes_absent f c s : all_bytes f s = true → f c = false → has_byte c s = false.
Proof.
  intros Hs Hc. induction s as [|x s IH]; cbn in *; [done|].
  apply andb_true_iff in Hs as [Hx Hs]. rewrite (IH Hs), orb_false_r.
  apply Ascii.eqb_neq. intros ->. congruence.
Qed.

Lemma Itoa_no_underscore z : has_byte "_" (Itoa z) = false.
Proof. eapply all_bytes_absent; [apply Itoa_bytes|reflexivity]. Qed.

Lemma hex_digit_not_underscore d : 0 <= d < 16 → Ascii.eqb (hex_digit d) "_" = false.
Proof.
  intros H. assert (d = 0 ∨ d = 1 ∨ d = 2 ∨ d = 3 ∨ d = 4 ∨ d = 5 ∨ d = 6 ∨ d = 7 ∨ d = 8 ∨ d = 9
    ∨ d = 10 ∨ d = 11 ∨ d = 12 ∨ d = 13 ∨ d = 14 ∨ d = 15) as Hd by lia.
  repeat destruct Hd as [->|Hd]; try reflexivity. by subst.
Qed.

Definition entropy_ok (e : Entropy) : Prop :=
  match e with RandBytes bytes => Forall (λ b, 0 <= b < 256) bytes | RandFailed _ => True end.

Lemma hex_no_underscore bytes :
  Forall (λ b, 0 <= b < 256) bytes → has_byte "_" (EncodeToString bytes) = false.
Proof.
  induction 1 as [|b bytes Hb _ IH]; cbn [EncodeToString has_byte]; [done|].
  rewrite !hex_digit_not_underscore, IH; [done|apply Z.mod_pos_bound; lia|].
  split; [apply Z.div_pos; lia|apply Z.div_lt_upper_bound; lia].
Qed.

Lemma app_cancel_l (a b c : string) : a +:+ b = a +:+ c → b = c.
Proof. induction a; simpl; [done|]. intros [= H]. auto. Qed.

Lemma last_underscore_inj a1 b1 a2 b2 :
  has_byte "_" b1 = false → has_byte "_" b2 = false →
  a1 +:+ String "_" b1 = a2 +:+ String "_" b2 → a1 = a2 ∧ b1 = b2.
Proof.
  intros H1 H2. revert a2. induction a1 as [|x a1 IH]; intros [|y a2]; simpl.
  - by intros [= ->].
  - intros [= <- ->]. rewrite has_byte_app in H1. simpl in H1. by rewrite ?orb_true_r in H1.
  - intros [= -> <-]. rewrite has_byte_app in H2. simpl in H2. by rewrite ?orb_true_r in H2.
  - intros [= -> H]. by destruct (IH _ H) as [-> ->].
Qed.

(** The identifiers of scheduled jobs tell monitors apart, and never coincide
    with the identifier of a manual job. *)
Lemma NewCheckJobID_monitor m1 t1 c1 m2 t2 c2 :
  NewCheckJobID m1 t1 c1 = NewCheckJobID m2 t2 c2 → m1 = m2.
Proof.
  unfold NewCheckJobID. intros H%app_cancel_l.
  apply last_underscore_inj in H as [-> _]; [done|apply Itoa_no_underscore..].
Qed.

Lemma NewCheckJobID_not_manual m t c e :
  entropy_ok e → NewCheckJobID m t c ≠ newID "job" e.
Proof.
  intros He. unfold NewCheckJobID, newID.
  assert (∀ x suffix, has_byte "_" suffix = false →
    "job_" +:+ m +:+ "_" +:+ x ≠ "job_" +:+ suffix) as Hne.
  { intros x suffix Hs H%app_cancel_l. apply (f_equal (has_byte "_")) in H.
    rewrite !has_byte_app, Hs in H. simpl in H. by rewrite orb_true_r in H. }
  destruct e as [bytes|now]; apply Hne; [by apply hex_no_underscore|apply Itoa_no_underscore].
Qed.

Lemma newID_nonempty p e : newID p e ≠ "".
Proof. destruct e; simpl; by destruct p. Qed.
