(* ===== verification/History.v ===== *)
(** * Bounded histories and owned tables (monitor.go)

    The store keeps terminal jobs and resolved incidents only as long as their
    identifiers are among the last ten thousand.  The loops of
    [rememberTerminalJobLocked] and [rememberResolvedIncidentLocked] are one
    definition here, [remember], over a table [m], a slice [order] and the
    index [head] of its oldest live entry.  [table_wf] is the invariant such a
    table keeps together with the index from owners to their live entry. *)

From stdpp Require Import base list gmap strings.
From Stdlib Require Import ZArith Lia.
From S2P Require Import Prelude.

(** [if head > max && head*2 >= len(order)]: drop the consumed prefix. *)
Definition compact (limit : Z) (order : list string) (head : nat) : list string * nat :=
  if (limit <? Z.of_nat head) && (Z.of_nat (length order) <=? Z.of_nat head * 2)
  then (drop head order, 0%nat) else (order, head).

(** The eviction loop, over the entries from the head on; an entry that is
    [gone] (terminal, resolved) is deleted from the table. *)
Fixpoint evict {V} (limit : Z) (gone : V → bool) (pending : list string) (m : gmap string V) (head : nat)
  : gmap string V * nat :=
  match pending with
  | oldest :: rest =>
      if limit <? Z.of_nat (length pending) then
        let m' := match m !! oldest with
                  | Some v => if gone v then delete oldest m else m
                  | None => m end in
        evict limit gone rest m' (S head)
      else (m, head)
  | [] => (m, head)
  end.

Definition remember {V} (limit : Z) (gone : V → bool) (m : gmap string V) (order : list string) (head : nat)
    (id : string) : gmap string V * list string * nat :=
  let order := order ++ [id] in
  let '(m, head) := evict limit gone (drop head order) m head in
  let '(order, head) := compact limit order head in
  (m, order, head).

(** The processed identifiers: the loop's guard is the size of the set, and
    indexing past the end of the slice panics ([None]). *)
Fixpoint evict_processed (limit : Z) (pending : list string) (seen : gset string) (head : nat)
  : option (gset string * nat) :=
  if limit <? Z.of_nat (size seen) then
    match pending with
    | oldest :: rest => evict_processed limit rest (seen ∖ {[oldest]}) (S head)
    | [] => None
    end
  else Some (seen, head).

(** ** The slice and its head *)

Definition window_ok (limit : Z) (order : list string) (head : nat) : Prop :=
  (head <= length order)%nat ∧ Z.of_nat (length order - head) <= limit ∧ Z.of_nat head <= limit.

Lemma compact_spec limit order head order' head' :
  0 <= limit → (head <= length order)%nat → Z.of_nat (length order - head) <= limit →
  compact limit order head = (order', head') →
  window_ok limit order' head' ∧ drop head' order' = drop head order.
Proof.
  unfold compact, window_ok. intros Hl Hh Hw.
  destruct (Z.ltb_spec limit (Z.of_nat head)) as [H1|H1]; cbn [andb];
    [destruct (Z.leb_spec (Z.of_nat (length order)) (Z.of_nat head * 2)) as [H2|H2]|]; intros [= <- <-].
  - rewrite length_drop, drop_0. split; [lia|done].
  - split; [lia|done].
  - split; [lia|done].
Qed.

Lemma window_ok_length limit order head :
  window_ok limit order head → Z.of_nat (length order) <= 2 * limit.
Proof. unfold window_ok. lia. Qed.

(** Eviction removes the [k] oldest identifiers beyond the limit. *)
Lemma evict_spec {V} limit (gone : V → bool) pending m head m' head' :
  evict limit gone pending m head = (m', head') →
  let k := (head' - head)%nat in
  (head <= head')%nat ∧ k = Z.to_nat (Z.of_nat (length pending) - Z.max 0 limit) ∧
  (∀ id v, m' !! id = Some v → m !! id = Some v) ∧
  (∀ id v, m !! id = Some v → m' !! id = None → gone v = true) ∧
  (∀ id v, m' !! id = Some v → gone v = true → id ∈ pending → id ∈ drop k pending).
Proof.
  revert m head. induction pending as [|oldest rest IH]; intros m head; cbn [evict].
  { intros [= <- <-]. rewrite Nat.sub_diag. cbn. repeat split; try done; [lia|congruence]. }
  destruct (Z.ltb_spec limit (Z.of_nat (length (oldest :: rest)))) as [Hlt|Hlt].
  2:{ intros [= <- <-]. rewrite Nat.sub_diag. cbn [length] in *. repeat split; try done; [lia|congruence]. }
  set (m1 := match m !! oldest with Some v => if gone v then delete oldest m else m | None => m end).
  assert (∀ id v, m1 !! id = Some v → m !! id = Some v) as Hsub.
  { intros id v. unfold m1. destruct (m !! oldest) as [w|]; [|done]. destruct (gone w); [|done].
    intros [_ ?]%lookup_delete_Some. done. }
  assert (∀ v, m1 !! oldest = Some v → gone v = false) as Hold.
  { intros v. unfold m1. destruct (m !! oldest) as [w|] eqn:Hw; [|congruence].
    destruct (gone w) eqn:Hg; [by rewrite lookup_delete_eq|congruence]. }
  assert (∀ id v, m !! id = Some v → m1 !! id = None → gone v = true) as Hgone.
  { intros id v Hv. unfold m1. destruct (m !! oldest) as [w|] eqn:Hw; [|congruence].
    destruct (gone w) eqn:Hg; [|congruence]. intros [->|?]%lookup_delete_None; congruence. }
  intros He. apply IH in He as (H1 & H2 & H3 & H4 & H5). cbn [length] in *.
  replace (head' - head)%nat with (S (head' - S head)) by lia. cbn [drop].
  split; [lia|]. split; [lia|]. split; [eauto|]. split.
  - intros id v Hv Hn. destruct (m1 !! id) as [v'|] eqn:Hv'; [|eauto].
    apply Hsub in Hv' as ?. simplify_eq. eauto.
  - intros id v Hv Hg [->|Hin]%elem_of_cons; [|eauto]. apply H3, Hold in Hv. congruence.
Qed.

(** Remembering an identifier only ever drops entries that are gone. *)
Lemma remember_spec {V} limit (gone : V → bool) m order head id m' order' head' :
  remember limit gone m order head id = (m', order', head') →
  (∀ i v, m' !! i = Some v → m !! i = Some v)
  ∧ (∀ i v, m !! i = Some v → gone v = false → m' !! i = Some v).
Proof.
  unfold remember. destruct (evict _ _ _ _ _) as [m1 h1] eqn:Hev.
  destruct (compact _ _ _) as [o1 h2]. intros [= <- _ _].
  apply evict_spec in Hev as (_ & _ & E3 & E4 & _). split; [done|].
  intros i v Hv Hn. destruct (m1 !! i) as [w|] eqn:Hw; [apply E3 in Hw; congruence|].
  specialize (E4 _ _ Hv Hw). congruence.
Qed.

(** ** Owned tables

    Every entry has an owner in [M]; the entries that are not [gone] are
    exactly those the index [live] points to, so an owner has at most one;
    those that are gone have their identifier in the history. *)
Record table_wf {V} (owner : V → string) (gone : V → bool) (limit : Z) (entry : string → V → Prop)
    (M : gset string) (m : gmap string V) (live : gmap string string) (order : list string) (head : nat)
  : Prop := {
  tw_entry id v : m !! id = Some v → entry id v ∧ owner v ∈ M;
  tw_live id v : m !! id = Some v → gone v = false → live !! owner v = Some id;
  tw_gone id v : m !! id = Some v → gone v = true → id ∈ drop head order;
  tw_index o id : live !! o = Some id → ∃ v, m !! id = Some v ∧ owner v = o ∧ gone v = false;
  tw_window : window_ok limit order head;
}.

Section table.
Context {V : Type} (owner : V → string) (gone : V → bool) (limit : Z) (entry : string → V → Prop).
Implicit Types (M : gset string) (m : gmap string V) (live : gmap string string).
#[local] Abbreviation wf := (table_wf owner gone limit entry).

Lemma table_empty : 0 <= limit → wf ∅ ∅ ∅ [] 0.
Proof. split; try (intros *; by rewrite lookup_empty). unfold window_ok. cbn. lia. Qed.

Lemma table_grow M M' m live order head : M ⊆ M' → wf M m live order head → wf M' m live order head.
Proof. intros HM [He Hl Hg Hi Hw]. split; [|done..]. intros id v Hv. destruct (He _ _ Hv). set_solver. Qed.

(** Changing a live entry in place. *)
Lemma table_put M m live order head id v v' :
  wf M m live order head → m !! id = Some v → gone v = false →
  entry id v' → owner v' = owner v → gone v' = false →
  wf M (<[id := v']> m) live order head.
Proof.
  intros [He Hl Hg Hi Hw] Hv Hn He' Ho Hn'. split; [| | | |done].
  - intros i w [[<- <-]|[_ Hx]]%lookup_insert_Some; [rewrite Ho; split; [done|by eapply He]|by eapply He].
  - intros i w [[<- <-]|[_ Hx]]%lookup_insert_Some; [rewrite Ho|]; eauto.
  - intros i w [[<- <-]|[_ Hx]]%lookup_insert_Some; [congruence|eauto].
  - intros o i Hx. destruct (Hi _ _ Hx) as (w & Hw' & Hwo & Hwn).
    destruct (decide (i = id)) as [->|Hne].
    + exists v'. rewrite lookup_insert_eq. simplify_eq. done.
    + exists w. by rewrite lookup_insert_ne.
Qed.

(** A new live entry for an owner without one.  A gone entry may be replaced. *)
Lemma table_add M m live order head id v :
  wf M m live order head → live !! owner v = None → owner v ∈ M → entry id v → gone v = false →
  (∀ w, m !! id = Some w → gone w = true) →
  wf M (<[id := v]> m) (<[owner v := id]> live) order head.
Proof.
  intros [He Hl Hg Hi Hw] Hv HM He' Hn Hfree. split; [| | | |done].
  - intros i w [[<- <-]|[_ Hx]]%lookup_insert_Some; [done|by eapply He].
  - intros i w [[<- <-]|[Hne Hx]]%lookup_insert_Some; [by rewrite lookup_insert_eq|].
    intros Hg'. rewrite lookup_insert_ne; [by eapply Hl|].
    intros Heq. specialize (Hl _ _ Hx Hg'). congruence.
  - intros i w [[<- <-]|[_ Hx]]%lookup_insert_Some; [congruence|eauto].
  - intros o i [[<- <-]|[Hne Hx]]%lookup_insert_Some; [exists v; by rewrite lookup_insert_eq|].
    destruct (Hi _ _ Hx) as (w & Hw' & Hwo & Hwn). exists w.
    rewrite lookup_insert_ne; [done|]. intros ->. apply Hfree in Hw'. congruence.
Qed.

(** A live entry becomes gone and enters the history. *)
Lemma table_finish M m live order head id v v' m' order' head' :
  0 <= limit →
  wf M m live order head → m !! id = Some v → gone v = false →
  entry id v' → owner v' = owner v → gone v' = true →
  remember limit gone (<[id := v']> m) order head id = (m', order', head') →
  wf M m' (delete (owner v) live) order' head'.
Proof.
  intros Hlim [He Hl Hg Hi (Hw1 & Hw2 & Hw3)] Hv Hn He' Ho Hn'. unfold remember.
  destruct (evict _ _ _ _ _) as [m1 h1] eqn:Hev.
  destruct (compact _ _ _) as [o1 h2] eqn:Hco. intros [= <- <- <-].
  apply evict_spec in Hev as (E1 & E2 & E3 & E4 & E5).
  rewrite length_drop, length_app in E2. cbn [length] in E2.
  apply compact_spec in Hco as [Hwin Hdrop]; [|lia|rewrite length_app; cbn; lia|rewrite length_app; cbn; lia].
  split; [| | | |done].
  - intros i w Hx%E3. apply lookup_insert_Some in Hx as [[<- <-]|[_ Hx]]; [rewrite Ho; split; [done|by eapply He]|by eapply He].
  - intros i w Hx%E3 Hg'. apply lookup_insert_Some in Hx as [[<- <-]|[Hne Hx]]; [congruence|].
    specialize (Hl _ _ Hx Hg') as Hx'. rewrite lookup_delete_ne; [done|].
    intros Heq. specialize (Hl _ _ Hv Hn). congruence.
  - intros i w Hx Hg'. rewrite Hdrop.
    replace h1 with (head + (h1 - head))%nat by lia. rewrite <- drop_drop. eapply E5; [done|done|].
    rewrite drop_app_le by lia. apply elem_of_app.
    apply E3, lookup_insert_Some in Hx as [[<- <-]|[_ Hx]]; [right; set_solver|left; eauto].
  - intros o i [Hne Hx]%lookup_delete_Some. destruct (Hi _ _ Hx) as (w & Hw' & Hwo & Hwn). exists w.
    assert (i ≠ id) by (intros ->; simplify_eq).
    assert (<[id:=v']> m !! i = Some w) as Hw'' by by rewrite lookup_insert_ne.
    destruct (m1 !! i) as [w'|] eqn:Hm1.
    + apply E3 in Hm1. simplify_eq. done.
    + specialize (E4 _ _ Hw'' Hm1). congruence.
Qed.

(** Every entry of an owner goes with the owner. *)
Lemma table_remove_owner M m live order head o :
  wf M m live order head →
  wf (M ∖ {[o]}) (filter (λ kv, owner kv.2 ≠ o) m) (delete o live) order head.
Proof.
  intros [He Hl Hg Hi Hw]. split; [| | | |done].
  - intros i w [Hx Hf]%map_lookup_filter_Some. destruct (He _ _ Hx). cbn in Hf. set_solver.
  - intros i w [Hx Hf]%map_lookup_filter_Some Hn. cbn in Hf. rewrite lookup_delete_ne by done. eauto.
  - intros i w [Hx Hf]%map_lookup_filter_Some. eauto.
  - intros o' i [Hne Hx]%lookup_delete_Some. destruct (Hi _ _ Hx) as (w & Hw' & <- & Hwn).
    exists w. split; [|done]. apply map_lookup_filter_Some. split; [done|]. cbn. congruence.
Qed.

(** Changing any number of live entries in place. *)
Lemma table_map M m live order head (f : V → V) :
  wf M m live order head →
  (∀ id v, m !! id = Some v → entry id v → entry id (f v) ∧ owner (f v) = owner v ∧ gone (f v) = gone v) →
  wf M (f <$> m) live order head.
Proof.
  intros [He Hl Hg Hi Hw] Hf. split; [| | | |done].
  - intros i w. rewrite lookup_fmap, fmap_Some. intros (v & Hv & ->).
    destruct (He _ _ Hv) as [Hv' ?]. destruct (Hf _ _ Hv Hv') as (? & -> & ?). done.
  - intros i w. rewrite lookup_fmap, fmap_Some. intros (v & Hv & ->).
    destruct (He _ _ Hv) as [Hv' ?]. destruct (Hf _ _ Hv Hv') as (? & -> & ->). eauto.
  - intros i w. rewrite lookup_fmap, fmap_Some. intros (v & Hv & ->).
    destruct (He _ _ Hv) as [Hv' ?]. destruct (Hf _ _ Hv Hv') as (? & ? & ->). eauto.
  - intros o i Hx. destruct (Hi _ _ Hx) as (v & Hv & <- & Hn).
    destruct (He _ _ Hv) as [Hv' ?]. destruct (Hf _ _ Hv Hv') as (? & Ho & Hg').
    exists (f v). rewrite lookup_fmap, Hv. rewrite Ho, Hg'. done.
Qed.

(** The table holds at most [limit] entries beyond one live entry per owner. *)
Lemma table_bounded M m live order head :
  wf M m live order head → Z.of_nat (size m) <= limit + Z.of_nat (size M).
Proof.
  intros [He Hl Hg Hi (Hw1 & Hw2 & Hw3)].
  set (old := list_to_set (drop head order) : gset string).
  set (cur := list_to_set (map_to_list live).*2 : gset string).
  assert (dom m ⊆ old ∪ cur) as Hsub.
  { intros i [v Hv]%elem_of_dom. apply elem_of_union. destruct (gone v) eqn:Hgv.
    - left. apply elem_of_list_to_set. eauto.
    - right. apply elem_of_list_to_set, list_elem_of_fmap. exists (owner v, i).
      split; [done|]. apply elem_of_map_to_list. eauto. }
  assert (size (dom live : gset string) <= size M)%nat as Hlive.
  { apply subseteq_size. intros o [i Hx]%elem_of_dom. destruct (Hi _ _ Hx) as (v & Hv & <- & _).
    by eapply He. }
  apply subseteq_size in Hsub. rewrite !size_dom in Hlive. rewrite size_dom in Hsub.
  pose proof (size_union_alt old cur) as Hu.
  assert (size old <= length (drop head order))%nat as Hold by apply size_list_to_set_le.
  assert (size (cur ∖ old) <= size cur)%nat as Hd by (apply subseteq_size; set_solver).
  assert (size cur <= length (map_to_list live).*2)%nat as Hcur by apply size_list_to_set_le.
  rewrite length_fmap, length_map_to_list in Hcur. rewrite length_drop in Hold. lia.
Qed.
End table.

(** ** The processed identifiers *)

Definition processed_wf (limit : Z) (seen : gset string) (order : list string) (head : nat) : Prop :=
  NoDup (drop head order) ∧ seen = list_to_set (drop head order) ∧ window_ok limit order head.

(** The loop never indexes past the end of the slice. *)
Lemma processed_remember limit seen order head id :
  1 <= limit → processed_wf limit seen order head → id ∉ seen →
  ∃ seen' head' order' head'',
    evict_processed limit (drop head (order ++ [id])) ({[id]} ∪ seen) head = Some (seen', head') ∧
    compact limit (order ++ [id]) head' = (order', head'') ∧
    processed_wf limit seen' order' head'' ∧ id ∈ seen' ∧ seen' ⊆ {[id]} ∪ seen.
Proof.
  intros Hlim (Hnd & Hseen & Hw1 & Hw2 & Hw3) Hid.
  assert (NoDup (drop head order ++ [id])) as Hnd'.
  { apply NoDup_app. split; [done|]. split; [|apply NoDup_singleton].
    intros x Hx Hxi. apply list_elem_of_singleton in Hxi as ->. set_solver. }
  assert ({[id]} ∪ seen = list_to_set (drop head order ++ [id])) as Hset.
  { rewrite list_to_set_app_L. cbn. set_solver. }
  assert (size ({[id]} ∪ seen) = length (drop head order ++ [id])) as Hsz.
  { rewrite Hset. by apply size_list_to_set. }
  rewrite length_app, length_drop in Hsz. cbn [length] in Hsz.
  assert (∀ h, (h <= length order + 1)%nat → Z.of_nat (length order + 1 - h) <= limit →
    NoDup (drop h (order ++ [id])) → ∃ o' h', compact limit (order ++ [id]) h = (o', h') ∧
    processed_wf limit (list_to_set (drop h (order ++ [id]))) o' h') as Hfin.
  { intros h Hh Hl Hndh. destruct (compact _ _ _) as [o' h'] eqn:Hc.
    apply compact_spec in Hc as [Hwin Hdrop]; [|lia|rewrite length_app; cbn; lia..].
    exists o', h'. split; [done|]. unfold processed_wf. by rewrite Hdrop. }
  destruct (Z.ltb_spec limit (Z.of_nat (size ({[id]} ∪ seen)))) as [Hlt|Hge].
  - (* one entry over the limit: the oldest goes *)
    assert (∃ x rest, drop head order = x :: rest) as (x & rest & Hd).
    { destruct (drop head order) as [|x rest] eqn:Hd; [|by eauto].
      apply (f_equal length) in Hd. rewrite length_drop in Hd. cbn in Hd. lia. }
    rewrite drop_app_le by lia. rewrite Hd in *. cbn [app evict_processed].
    rewrite (proj2 (Z.ltb_lt _ _) Hlt).
    assert (({[id]} ∪ seen) ∖ {[x]} = list_to_set (rest ++ [id])) as Hset'.
    { rewrite Hset. cbn in Hnd' |- *. apply NoDup_cons in Hnd' as [Hx _].
      rewrite <- (elem_of_list_to_set (C:=gset string)) in Hx. set_solver. }
    cbn in Hnd'. apply NoDup_cons in Hnd' as [Hx Hnd'].
    assert (drop (S head) (order ++ [id]) = rest ++ [id]) as Hd'.
    { replace (S head) with (head + 1)%nat by lia. rewrite <- drop_drop, drop_app_le by lia.
      by rewrite Hd. }
    destruct (Hfin (S head)) as (o' & h' & Hc & Hp); [lia|lia|by rewrite Hd'|].
    rewrite Hd' in Hp. exists (list_to_set (rest ++ [id])), (S head), o', h'.
    split; [|split; [done|split; [done|]]].
    + rewrite Hset'. assert (size (list_to_set (rest ++ [id]) : gset string) = length (rest ++ [id])) as Hs
        by by apply size_list_to_set.
      assert ((limit <? Z.of_nat (size (list_to_set (rest ++ [id]) : gset string))) = false) as Hf.
      { rewrite Hs. apply Z.ltb_ge. rewrite length_app. cbn.
        apply (f_equal length) in Hd. rewrite length_drop in Hd. cbn in Hd. lia. }
      destruct (rest ++ [id]) as [|? ?]; cbn [evict_processed]; by rewrite Hf.
    + split; [set_solver|]. rewrite <- Hset'. set_solver.
  - destruct (Hfin head) as (o' & h' & Hc & Hp); [lia|lia|by rewrite drop_app_le by lia|].
    exists ({[id]} ∪ seen), head, o', h'. split; [|split; [done|split; [|set_solver]]].
    + assert ((limit <? Z.of_nat (size ({[id]} ∪ seen))) = false) as Hf by by apply Z.ltb_ge.
      destruct (drop head (order ++ [id])); cbn [evict_processed]; by rewrite Hf.
    + rewrite drop_app_le in Hp by lia. by rewrite Hset.
Qed.
