(* ===== verification/Lifecycle.v ===== *)
(** * Tables whose rows live a life cycle

    Check jobs and alerts are kept in tables by identifier.  A row makes the
    steps of its life cycle; it may leave the table once it is gone, and its
    identifier may then be taken by a fresh row.  [evolves] says so of two
    states of a table, and is a preorder: what every operation does to a table,
    a sequence of operations does. *)

From stdpp Require Import base list gmap strings relations.
From S2P Require Import Prelude.

Section lifecycle.
Context {R : Type} (step : relation R) (fresh gone : R → Prop).
Implicit Types (m : gmap string R).

Definition restart (r r' : R) : Prop := gone r ∧ fresh r'.
Definition move (r r' : R) : Prop := step r r' ∨ restart r r'.

(** Every row of [m'] is a row of [m] some moves later, or a fresh row some
    moves later. *)
Definition evolve m m' : Prop :=
  ∀ id r', m' !! id = Some r' →
    (∃ r, m !! id = Some r ∧ rtc move r r') ∨ (m !! id = None ∧ ∃ r0, fresh r0 ∧ rtc move r0 r').

(** A row that disappears was gone by then. *)
Definition kept m m' : Prop :=
  ∀ id r, m !! id = Some r → m' !! id = None → ∃ rt, rtc move r rt ∧ gone rt.

Definition evolves m m' : Prop := evolve m m' ∧ kept m m'.

Lemma rows_evolve_refl m : evolves m m.
Proof. split; [intros id r Hr; left; by exists r|intros id r ? ?; congruence]. Qed.

Lemma rows_evolve_trans m1 m2 m3 : evolves m1 m2 → evolves m2 m3 → evolves m1 m3.
Proof.
  intros [E12 K12] [E23 K23]. split.
  - intros id r3 H3. destruct (E23 _ _ H3) as [(r2 & H2 & Hr)|(H2 & r0 & Hnew & Hr)].
    + destruct (E12 _ _ H2) as [(r1 & H1 & Hr')|(H1 & r0 & Hnew & Hr')].
      * left. exists r1. split; [done|by etrans].
      * right. split; [done|]. exists r0. split; [done|by etrans].
    + destruct (m1 !! id) as [r1|] eqn:H1; [left|right; eauto].
      destruct (K12 _ _ H1 H2) as (rt & Hr1 & Ht). exists r1. split; [done|].
      etrans; [exact Hr1|]. eapply rtc_l; [by right|done].
  - intros id r1 H1 H3. destruct (m2 !! id) as [r2|] eqn:H2; [|eauto].
    destruct (K23 _ _ H2 H3) as (rt & Hr & Ht). destruct (E12 _ _ H2) as [(r1' & H1' & Hr')|(? & _)]; [|congruence].
    simplify_eq. exists rt. split; [by etrans|done].
Qed.
#[export] Instance evolves_preorder : PreOrder evolves.
Proof. split; [exact rows_evolve_refl|exact rows_evolve_trans]. Qed.

Lemma rows_evolve_put m id r r' : m !! id = Some r → step r r' → evolves m (<[id := r']> m).
Proof.
  intros Hr Hs. split.
  - intros i w [[<- <-]|[_ Hw]]%lookup_insert_Some; left.
    + exists r. split; [done|]. apply rtc_once. by left.
    + by exists w.
  - intros i w Hw [Hn _]%lookup_insert_None. congruence.
Qed.

Lemma rows_evolve_new m id r' : (∀ r, m !! id = Some r → gone r) → fresh r' → evolves m (<[id := r']> m).
Proof.
  intros Hfree Hnew. split.
  - intros i w [[<- <-]|[_ Hw]]%lookup_insert_Some; [|left; by exists w].
    destruct (m !! id) as [r|] eqn:Hr; [left|right; eauto using rtc_refl].
    exists r. split; [done|]. apply rtc_once. right. split; [by apply Hfree|done].
  - intros i w Hw [Hn _]%lookup_insert_None. congruence.
Qed.

(** A table with the same identifiers, whose rows stayed or made a step. *)
Lemma evolves_pointwise m m' :
  (∀ id r', m' !! id = Some r' → ∃ r, m !! id = Some r ∧ (r' = r ∨ step r r')) → dom m ⊆ dom m' → evolves m m'.
Proof.
  intros Hm Hd. split.
  - intros id r' Hr'. destruct (Hm _ _ Hr') as (r & Hr & Hs). left. exists r. split; [done|].
    destruct Hs as [->|Hs]; [done|]. apply rtc_once. by left.
  - intros id r Hr Hn. apply not_elem_of_dom in Hn. destruct Hn. apply Hd, elem_of_dom. eauto.
Qed.

(** Rows that are gone leave the table. *)
Lemma evolves_shrink m m' :
  (∀ id r, m' !! id = Some r → m !! id = Some r) →
  (∀ id r, m !! id = Some r → m' !! id = None → gone r) → evolves m m'.
Proof.
  intros Hsub Hgone. split.
  - intros id r Hr%Hsub. left. by exists r.
  - intros id r Hr Hn. exists r. split; [done|]. by eapply Hgone.
Qed.
End lifecycle.
