(* ===== verification/Store.v ===== *)
(** * The in-memory monitor store (monitor.go)

    [MonitorStore] and its operations.  A method holds the store's mutex
    throughout, so each one is a function from a store to the next store and
    its results.  Besides its Go arguments an operation takes what it draws
    from its surroundings: [clk], the reading of [time.Now()], and [rnd], the
    random bytes of each new identifier.  Loops over maps use the iteration
    order of [MapRange]; slices are lists. *)

From stdpp Require Import base list gmap strings.
From Stdlib Require Import ZArith Lia Ascii.
From Corelib Require Import SpecFloat.
From S2P Require Import Prelude GoNum GoStrings NetworkPolicy Egress Domain History.
#[local] Open Scope string_scope.
#[local] Open Scope list_scope.
#[local] Open Scope Z_scope.

Record MonitorStore := mkMonitorStore {
  policy : NetworkPolicy;
  byID : gmap string Monitor;
  byURL : gmap string string;
  checks : gmap string (list CheckRecord);
  checkJobs : gmap string CheckJobRecord;
  activeJobByMonitor : gmap string string;
  terminalJobOrder : list string;
  terminalJobHead : nat;
  incidents : gmap string Incident;
  openIncidentByMonitor : gmap string string;
  resolvedIncidentOrder : list string;
  resolvedIncidentHead : nat;
  processedJobs : gset string;
  processedJobOrder : list string;
  processedJobHead : nat;
}.
#[export] Instance eta_MonitorStore : Eta MonitorStore := λ s,
  mkMonitorStore (policy s) (byID s) (byURL s) (checks s) (checkJobs s) (activeJobByMonitor s)
    (terminalJobOrder s) (terminalJobHead s) (incidents s) (openIncidentByMonitor s)
    (resolvedIncidentOrder s) (resolvedIncidentHead s) (processedJobs s) (processedJobOrder s)
    (processedJobHead s).

Definition NewMonitorStore (p : NetworkPolicy) : MonitorStore :=
  mkMonitorStore p ∅ ∅ ∅ ∅ ∅ [] 0 ∅ ∅ [] 0 ∅ [] 0.

(** ** Bounded histories

    Three slices with a head index remember, oldest first, the terminal jobs,
    the resolved incidents and the processed job identifiers. *)

Definition terminal_status (st : CheckJobStatus) : bool :=
  match st with checkJobStatusCompleted | checkJobStatusDead => true | _ => false end.
Definition job_terminal (job : CheckJobRecord) : bool := terminal_status (job_Status job).
Definition inc_resolved (incident : Incident) : bool := bool_decide (inc_Status incident = incidentStatusResolved).

Definition rememberTerminalJobLocked (s : MonitorStore) (jobID : string) : MonitorStore :=
  let '(jobs, order, head) :=
    remember maxRetainedCheckJobs job_terminal (checkJobs s) (terminalJobOrder s) (terminalJobHead s) jobID in
  s <| checkJobs := jobs |> <| terminalJobOrder := order |> <| terminalJobHead := head |>.

Definition rememberResolvedIncidentLocked (s : MonitorStore) (incidentID : string) : MonitorStore :=
  let '(incs, order, head) :=
    remember maxRetainedResolvedIncidents inc_resolved (incidents s) (resolvedIncidentOrder s)
      (resolvedIncidentHead s) incidentID in
  s <| incidents := incs |> <| resolvedIncidentOrder := order |> <| resolvedIncidentHead := head |>.

(** [None]: the loop would index past the end of the slice. *)
Definition rememberProcessedJobLocked (s : MonitorStore) (jobID : string) : option MonitorStore :=
  if decide (jobID ∈ processedJobs s) then Some s
  else
    let order := processedJobOrder s ++ [jobID] in
    match evict_processed maxProcessedJobIDs (drop (processedJobHead s) order) ({[jobID]} ∪ processedJobs s)
            (processedJobHead s) with
    | None => None
    | Some (seen, head) =>
        let '(order, head) := compact maxProcessedJobIDs order head in
        Some (s <| processedJobs := seen |> <| processedJobOrder := order |> <| processedJobHead := head |>)
    end.

(** ** Incidents *)

Definition resolveOpenIncidentLocked (s : MonitorStore) (monitorID : string) (now : Time) : MonitorStore :=
  match openIncidentByMonitor s !! monitorID with
  | None => s
  | Some incidentID =>
      match incidents s !! incidentID with
      | None => s <| openIncidentByMonitor := delete monitorID (openIncidentByMonitor s) |>
      | Some incident =>
          let incident := incident <| inc_Status := incidentStatusResolved |>
                                   <| inc_ResolvedAt := UTC now |> <| inc_UpdatedAt := UTC now |> in
          let s := s <| incidents := <[incidentID := incident]> (incidents s) |> in
          let s := s <| openIncidentByMonitor := delete monitorID (openIncidentByMonitor s) |> in
          rememberResolvedIncidentLocked s incidentID
      end
  end.

(** The zero value read from a map without the key. *)
Definition zero_Incident : Incident :=
  mkIncident "" "" incidentStatusOpen 0 time_zero time_zero time_zero "" time_zero 0 time_zero time_zero.

Definition incident_error (record : CheckRecord) : string :=
  if String.eqb (rec_Error record) ""
  then "unexpected status code " +:+ Itoa (rec_StatusCode record) else rec_Error record.

Definition updateIncident (s : MonitorStore) (record : CheckRecord) (now : Time) (rnd : Entropy) : MonitorStore :=
  if rec_Success record then
    match openIncidentByMonitor s !! rec_MonitorID record with
    | None => s
    | Some incidentID =>
        let incident := default zero_Incident (incidents s !! incidentID) in
        let incident := incident <| inc_Status := incidentStatusResolved |>
                                 <| inc_ResolvedAt := rec_CheckedAt record |> <| inc_UpdatedAt := now |> in
        let s := s <| incidents := <[incidentID := incident]> (incidents s) |> in
        let s := s <| openIncidentByMonitor := delete (rec_MonitorID record) (openIncidentByMonitor s) |> in
        rememberResolvedIncidentLocked s incidentID
    end
  else
    let lastError := incident_error record in
    match openIncidentByMonitor s !! rec_MonitorID record with
    | Some incidentID =>
        let incident := default zero_Incident (incidents s !! incidentID) in
        let incident := incident <| inc_FailureCount := wrap64 (inc_FailureCount incident + 1) |>
                                 <| inc_LastFailureAt := rec_CheckedAt record |>
                                 <| inc_LastError := lastError |> <| inc_UpdatedAt := now |> in
        s <| incidents := <[incidentID := incident]> (incidents s) |>
    | None =>
        let incident :=
          mkIncident (newID "inc" rnd) (rec_MonitorID record) incidentStatusOpen 1
            (rec_CheckedAt record) (rec_CheckedAt record) time_zero lastError time_zero 0 now now in
        let s := s <| incidents := <[inc_ID incident := incident]> (incidents s) |> in
        s <| openIncidentByMonitor := <[rec_MonitorID record := inc_ID incident]> (openIncidentByMonitor s) |>
    end.

(** ** Finishing jobs *)

Definition finishActiveJobLocked (s : MonitorStore) (monitorID : string) (status : CheckJobStatus)
    (lastError : string) (now : Time) : MonitorStore :=
  match activeJobByMonitor s !! monitorID with
  | None => s
  | Some jobID =>
      match checkJobs s !! jobID with
      | None => s <| activeJobByMonitor := delete monitorID (activeJobByMonitor s) |>
      | Some job =>
          let now := UTC now in
          let job := job <| job_Status := status |> <| job_LastError := lastError |>
                         <| job_ProcessingStartedAt := time_zero |> <| job_LeaseExpiresAt := time_zero |>
                         <| job_LeaseToken := "" |> <| job_UpdatedAt := now |> in
          if terminal_status status then
            let job := job <| job_CompletedAt := now |> in
            let s := s <| activeJobByMonitor := delete monitorID (activeJobByMonitor s) |> in
            let s := s <| checkJobs := <[jobID := job]> (checkJobs s) |> in
            rememberTerminalJobLocked s jobID
          else
            let job := job <| job_AvailableAt := now |> in
            s <| checkJobs := <[jobID := job]> (checkJobs s) |>
      end
  end.

Definition finishExhaustedJobLocked (s : MonitorStore) (jobID : string) (job : CheckJobRecord)
    (recoveryError : string) (now : Time) : MonitorStore :=
  let job := job <| job_Status := checkJobStatusDead |> <| job_CompletedAt := now |>
                 <| job_ProcessingStartedAt := time_zero |> <| job_LeaseExpiresAt := time_zero |>
                 <| job_LeaseToken := "" |>
                 <| job_LastError := recoveryError +:+ "; maximum attempts reached" |>
                 <| job_UpdatedAt := now |> in
  let s := s <| checkJobs := <[jobID := job]> (checkJobs s) |> in
  let s := if decide (default "" (activeJobByMonitor s !! job_MonitorID job) = jobID)
           then s <| activeJobByMonitor := delete (job_MonitorID job) (activeJobByMonitor s) |> else s in
  let s := rememberTerminalJobLocked s jobID in
  match job_Kind job with
  | checkJobKindManual => s
  | checkJobKindScheduled =>
      match byID s !! job_MonitorID job with
      | None => s
      | Some monitor =>
          let monitor := monitor <| mon_NextCheckAt := AddDur now (seconds (mon_IntervalSeconds monitor)) |>
                                 <| mon_UpdatedAt := now |> in
          s <| byID := <[job_MonitorID job := monitor]> (byID s) |>
      end
  end.

(** ** Monitors *)

Section operations.
Context `{!Unicode, !URLParser, !MapRange}.

Definition Count (s : MonitorStore) : Z := Z.of_nat (size (byID s)).

Definition Create (s : MonitorStore) (input : MonitorInput) (clk : Time) (rnd : Entropy)
  : MonitorStore * res GoError Monitor :=
  match validateMonitorInput input (policy s) with
  | Some err => (s, Err err)
  | None =>
      let now := UTC clk in
      let enabled := default true (in_Enabled input) in
      let status := if enabled then monitorStatusActive else monitorStatusDisabled in
      let monitor :=
        mkMonitor (newMonitorID rnd) (in_URL input) (in_IntervalSeconds input) (in_TimeoutSeconds input)
          (in_ExpectedStatus input) status enabled now now now 0 0 time_zero "" in
      match byURL s !! mon_URL monitor with
      | Some _ => (s, Err ErrMonitorExists)
      | None =>
          let s := s <| byID := <[mon_ID monitor := monitor]> (byID s) |> in
          let s := s <| byURL := <[mon_URL monitor := mon_ID monitor]> (byURL s) |> in
          (s, Ok monitor)
      end
  end.

Definition Get (s : MonitorStore) (id : string) : res GoError Monitor :=
  match byID s !! id with Some monitor => Ok monitor | None => Err ErrMonitorNotFound end.

Definition nextCheckAfterIntervalChange (lastCheckedAt now : Time) (intervalSeconds : Z) : Time :=
  let now := UTC now in
  if IsZero lastCheckedAt then now
  else
    let nextCheckAt := AddDur (UTC lastCheckedAt) (seconds intervalSeconds) in
    if negb (After nextCheckAt now) then now else nextCheckAt.

(** The patched monitor, before validation. *)
Definition apply_patch (monitor : Monitor) (patch : MonitorPatch) : Monitor :=
  monitor <| mon_URL := default (mon_URL monitor) (patch_URL patch) |>
          <| mon_IntervalSeconds := default (mon_IntervalSeconds monitor) (patch_IntervalSeconds patch) |>
          <| mon_TimeoutSeconds := default (mon_TimeoutSeconds monitor) (patch_TimeoutSeconds patch) |>
          <| mon_ExpectedStatus := default (mon_ExpectedStatus monitor) (patch_ExpectedStatus patch) |>
          <| mon_Enabled := default (mon_Enabled monitor) (patch_Enabled patch) |>.

Definition input_of_monitor (m : Monitor) : MonitorInput :=
  {| in_URL := mon_URL m; in_IntervalSeconds := mon_IntervalSeconds m;
     in_TimeoutSeconds := mon_TimeoutSeconds m; in_ExpectedStatus := mon_ExpectedStatus m;
     in_Enabled := Some (mon_Enabled m) |}.

Definition checkSemanticsChanged (updated monitor : Monitor) : bool :=
  negb (String.eqb (mon_URL updated) (mon_URL monitor))
  || negb (mon_TimeoutSeconds updated =? mon_TimeoutSeconds monitor)
  || negb (mon_ExpectedStatus updated =? mon_ExpectedStatus monitor).

(** The schedule of an enabled monitor after an update. *)
Definition rescheduled (updated monitor : Monitor) (now : Time) : Time :=
  let enabledChanged := negb (Bool.eqb (mon_Enabled updated) (mon_Enabled monitor)) in
  if checkSemanticsChanged updated monitor || (enabledChanged && negb (mon_Enabled monitor)) then now
  else if negb (mon_IntervalSeconds updated =? mon_IntervalSeconds monitor) then
    nextCheckAfterIntervalChange (mon_LastCheckedAt monitor) now (mon_IntervalSeconds updated)
  else if IsZero (mon_NextCheckAt updated) || Before (mon_NextCheckAt updated) now then now
  else mon_NextCheckAt updated.

Definition Update (s : MonitorStore) (id : string) (patch : MonitorPatch) (clk : Time)
  : MonitorStore * res GoError Monitor :=
  match byID s !! id with
  | None => (s, Err ErrMonitorNotFound)
  | Some monitor =>
      let updated := apply_patch monitor patch in
      match validateMonitorInput (input_of_monitor updated) (policy s) with
      | Some err => (s, Err err)
      | None =>
          let semanticsChanged := checkSemanticsChanged updated monitor in
          if match byURL s !! mon_URL updated with
             | Some existingID => negb (String.eqb existingID id) | None => false end
          then (s, Err ErrMonitorExists)
          else
            let s := if String.eqb (mon_URL updated) (mon_URL monitor) then s
                     else s <| byURL := <[mon_URL updated := id]> (delete (mon_URL monitor) (byURL s)) |> in
            let now := UTC clk in
            let updated := updated <| mon_UpdatedAt := now |> in
            let '(s, updated) :=
              if mon_Enabled updated then
                (s, updated <| mon_Status := monitorStatusActive |>
                            <| mon_NextCheckAt := rescheduled updated monitor now |>)
              else
                (finishActiveJobLocked s id checkJobStatusDead "monitor disabled" now,
                 updated <| mon_Status := monitorStatusDisabled |>) in
            let '(s, updated) :=
              if semanticsChanged then
                let updated := updated <| mon_LastStatusCode := 0 |> <| mon_LastLatencyMS := 0 |>
                                       <| mon_LastCheckedAt := time_zero |> <| mon_LastError := "" |> in
                let s := resolveOpenIncidentLocked s id now in
                let s := if mon_Enabled updated
                         then finishActiveJobLocked s id checkJobStatusDead "monitor configuration changed" now
                         else s in
                (s, updated)
              else (s, updated) in
            (s <| byID := <[id := updated]> (byID s) |>, Ok updated)
      end
  end.

(** The two loops delete, in any order, the entries of the monitor. *)
Definition Delete (s : MonitorStore) (id : string) : MonitorStore * option GoError :=
  match byID s !! id with
  | None => (s, Some ErrMonitorNotFound)
  | Some monitor =>
      let s := s <| byID := delete id (byID s) |> <| byURL := delete (mon_URL monitor) (byURL s) |>
                 <| checks := delete id (checks s) |> in
      let s := match activeJobByMonitor s !! id with
               | Some jobID => s <| checkJobs := delete jobID (checkJobs s) |>
                                 <| activeJobByMonitor := delete id (activeJobByMonitor s) |>
               | None => s
               end in
      let s := s <| checkJobs := filter (λ kv, job_MonitorID kv.2 ≠ id) (checkJobs s) |>
                 <| openIncidentByMonitor := delete id (openIncidentByMonitor s) |>
                 <| incidents := filter (λ kv, inc_MonitorID kv.2 ≠ id) (incidents s) |> in
      (s, None)
  end.

(** ** Claiming due jobs *)

Definition processingExpired (job : CheckJobRecord) (now : Time) : bool :=
  bool_decide (job_Status job = checkJobStatusProcessing)
  && negb (IsZero (job_LeaseExpiresAt job)) && negb (After (job_LeaseExpiresAt job) now).
Definition failedExhausted (job : CheckJobRecord) (now : Time) (maxAttempts : Z) : bool :=
  bool_decide (job_Status job = checkJobStatusFailed)
  && negb (After (job_AvailableAt job) now) && (maxAttempts <=? job_Attempt job).

(** One iteration of the recovery loop. *)
Definition recover_job (maxAttempts : Z) (now : Time) (s : MonitorStore) (entry : string * CheckJobRecord)
  : MonitorStore :=
  let '(jobID, job) := entry in
  if negb (processingExpired job now) && negb (failedExhausted job now maxAttempts) then s
  else if maxAttempts <=? job_Attempt job then
    let recoveryError := if processingExpired job now then "processing lease expired"
                         else "maximum processing attempts reached" in
    finishExhaustedJobLocked s jobID job recoveryError now
  else
    let job := job <| job_Status := checkJobStatusFailed |> <| job_AvailableAt := now |>
                   <| job_ProcessingStartedAt := time_zero |> <| job_LeaseExpiresAt := time_zero |>
                   <| job_LeaseToken := "" |> <| job_LastError := "processing lease expired" |>
                   <| job_UpdatedAt := now |> in
    s <| checkJobs := <[jobID := job]> (checkJobs s) |>.

Definition claimable (maxAttempts : Z) (now : Time) (job : CheckJobRecord) : bool :=
  (bool_decide (job_Status job = checkJobStatusScheduled) || bool_decide (job_Status job = checkJobStatusFailed))
  && negb (maxAttempts <=? job_Attempt job)
  && negb (After (job_AvailableAt job) now)
  && negb (negb (IsZero (job_LeaseExpiresAt job)) && After (job_LeaseExpiresAt job) now).

Definition compare_jobs (left right : CheckJobRecord) : Z :=
  let order := TimeCompare (job_AvailableAt left) (job_AvailableAt right) in
  if negb (order =? 0) then order
  else
    let order := TimeCompare (job_ScheduledFor left) (job_ScheduledFor right) in
    if negb (order =? 0) then order else compareString (job_ID left) (job_ID right).

Definition compare_due (left right : Monitor) : Z :=
  let order := TimeCompare (mon_NextCheckAt left) (mon_NextCheckAt right) in
  if negb (order =? 0) then order else compareString (mon_ID left) (mon_ID right).

(** [rnd i] is drawn when [i] jobs have been claimed. *)
Definition publish_token (rnd : nat → Entropy) (claimed : list CheckJobRecord) : string :=
  newID "publish" (rnd (length claimed)).

Definition leased_job (job : CheckJobRecord) (now : Time) (leaseTimeout : Z) (token : string) : CheckJobRecord :=
  job <| job_Status := checkJobStatusScheduled |> <| job_LeaseExpiresAt := AddDur now leaseTimeout |>
      <| job_PublicationToken := token |> <| job_UpdatedAt := now |>.

Fixpoint claim_jobs (limit : Z) (now : Time) (leaseTimeout : Z) (rnd : nat → Entropy)
    (candidates : list CheckJobRecord) (s : MonitorStore) (claimed : list CheckJobRecord)
  : MonitorStore * list CheckJobRecord :=
  match candidates with
  | [] => (s, claimed)
  | job :: rest =>
      if limit <=? Z.of_nat (length claimed) then (s, claimed)
      else
        let job := leased_job job now leaseTimeout (publish_token rnd claimed) in
        claim_jobs limit now leaseTimeout rnd rest
          (s <| checkJobs := <[job_ID job := job]> (checkJobs s) |>) (claimed ++ [job])
  end.

(** The job created for a due monitor. *)
Definition scheduled_job (monitor : Monitor) (now : Time) (leaseTimeout : Z) (clk : Time) (token : string)
  : CheckJobRecord :=
  mkCheckJobRecord (NewCheckJobID (mon_ID monitor) (mon_NextCheckAt monitor) clk) (mon_ID monitor)
    checkJobKindScheduled (UTC (mon_NextCheckAt monitor)) checkJobStatusScheduled 0 now time_zero time_zero
    (AddDur now leaseTimeout) "" token time_zero "" now now.

Fixpoint claim_monitors (limit : Z) (now : Time) (leaseTimeout : Z) (clk : Time) (rnd : nat → Entropy)
    (monitors : list Monitor) (s : MonitorStore) (claimed : list CheckJobRecord)
  : MonitorStore * list CheckJobRecord :=
  match monitors with
  | [] => (s, claimed)
  | monitor :: rest =>
      if limit <=? Z.of_nat (length claimed) then (s, claimed)
      else if negb (mon_Enabled monitor) || After (mon_NextCheckAt monitor) now
      then claim_monitors limit now leaseTimeout clk rnd rest s claimed
      else if decide (is_Some (activeJobByMonitor s !! mon_ID monitor))
      then claim_monitors limit now leaseTimeout clk rnd rest s claimed
      else
        let job := scheduled_job monitor now leaseTimeout clk (publish_token rnd claimed) in
        let s := s <| checkJobs := <[job_ID job := job]> (checkJobs s) |> in
        let s := s <| activeJobByMonitor := <[mon_ID monitor := job_ID job]> (activeJobByMonitor s) |> in
        claim_monitors limit now leaseTimeout clk rnd rest s (claimed ++ [job])
  end.

Definition recover_jobs (s : MonitorStore) (maxAttempts : Z) (now : Time) : MonitorStore :=
  foldl (recover_job maxAttempts now) s (map_range (checkJobs s)).

(** [make([]T, 0, capacity)] for elements of [size] bytes, on a platform of 64
    bits with addresses of 48: it panics ([None]) when the capacity is out of
    range.  A slice that is in range is taken to fit in the memory there is. *)
Definition maxAlloc : Z := 2 ^ 48.
Definition in_range (size capacity : Z) : bool := (0 <=? capacity) && (size * capacity <=? maxAlloc).
Definition make_slice {A} (size capacity : Z) : option (list A) := if in_range size capacity then Some [] else None.

(** Seven strings of two words, eight times of three, and an int. *)
Definition sizeof_CheckJobRecord : Z := 7 * 16 + 8 * 24 + 8.

(** [None]: the call panics; what it had changed is lost with the process. *)
Definition ClaimDueJobsWithMaxAttempts (s : MonitorStore) (limit : Z) (now : Time) (leaseTimeout maxAttempts : Z)
    (clk : Time) (rnd : nat → Entropy) : option (MonitorStore * list CheckJobRecord) :=
  let now := UTC now in
  if limit <=? 0 then Some (s, [])
  else
    let leaseTimeout := if leaseTimeout <=? 0 then Minute else leaseTimeout in
    let maxAttempts := if maxAttempts <=? 0 then defaultMaxJobAttempts else maxAttempts in
    let s := recover_jobs s maxAttempts now in
    let candidates := List.filter (claimable maxAttempts now) (map_range (checkJobs s)).*2 in
    let candidates := SortFunc compare_jobs candidates in
    match make_slice sizeof_CheckJobRecord limit with
    | None => None
    | Some claimed =>
        let '(s, claimed) := claim_jobs limit now leaseTimeout rnd candidates s claimed in
        if limit <=? Z.of_nat (length claimed) then Some (s, claimed)
        else
          let monitors := SortFunc compare_due (map_range (byID s)).*2 in
          Some (claim_monitors limit now leaseTimeout clk rnd monitors s claimed)
    end.

(** ** Manual jobs and publication *)

Definition CreateManualJob (s : MonitorStore) (id : string) (now : Time) (rnd : Entropy)
  : MonitorStore * res GoError (CheckJobRecord * bool) :=
  match byID s !! id with
  | None => (s, Err ErrMonitorNotFound)
  | Some _ =>
      let create s :=
        let now := UTC now in
        let job := mkCheckJobRecord (newID "job" rnd) id checkJobKindManual now checkJobStatusScheduled 0 now
                     time_zero time_zero time_zero "" "" time_zero "" now now in
        let s := s <| checkJobs := <[job_ID job := job]> (checkJobs s) |> in
        let s := s <| activeJobByMonitor := <[id := job_ID job]> (activeJobByMonitor s) |> in
        (s, Ok (job, true)) in
      match activeJobByMonitor s !! id with
      | Some jobID =>
          match checkJobs s !! jobID with
          | Some job => (s, Ok (job, false))
          | None => create (s <| activeJobByMonitor := delete id (activeJobByMonitor s) |>)
          end
      | None => create s
      end
  end.

Definition publicationJobLocked (s : MonitorStore) (claim : PublicationClaim) : res GoError CheckJobRecord :=
  match byID s !! claim_MonitorID claim with
  | None => Err ErrMonitorNotFound
  | Some _ =>
      match checkJobs s !! claim_JobID claim with
      | None => Err ErrStaleJob
      | Some job =>
          if negb (String.eqb (job_MonitorID job) (claim_MonitorID claim))
             || String.eqb (claim_Token claim) ""
             || negb (String.eqb (job_PublicationToken job) (claim_Token claim))
          then Err ErrStaleJob else Ok job
      end
  end.

(** The claim still holds its publication lease at [now]. *)
Definition publication_lapsed (job : CheckJobRecord) (claim : PublicationClaim) (now : Time) : bool :=
  negb (job_Attempt job =? claim_Attempt claim) || IsZero (job_LeaseExpiresAt job)
  || negb (After (job_LeaseExpiresAt job) now).

Definition MarkJobPublished (s : MonitorStore) (claim : PublicationClaim) (now : Time)
  : MonitorStore * option GoError :=
  match publicationJobLocked s claim with
  | Err err => (s, Some err)
  | Ok job =>
      if negb (bool_decide (job_Status job = checkJobStatusScheduled)) then (s, None)
      else
        let now := UTC now in
        if publication_lapsed job claim now then (s, Some ErrStaleJob)
        else
          let job := job <| job_Status := checkJobStatusQueued |> <| job_PublishedAt := now |>
                         <| job_LeaseExpiresAt := time_zero |> <| job_UpdatedAt := now |> in
          (s <| checkJobs := <[claim_JobID claim := job]> (checkJobs s) |>, None)
  end.

Definition ReleaseJobPublish (s : MonitorStore) (claim : PublicationClaim) (lastError : string) (now : Time)
  : MonitorStore * option GoError :=
  match publicationJobLocked s claim with
  | Err err => (s, Some err)
  | Ok job =>
      if negb (bool_decide (job_Status job = checkJobStatusScheduled)) then (s, None)
      else if publication_lapsed job claim now then (s, Some ErrStaleJob)
      else
        let job := job <| job_LeaseExpiresAt := time_zero |> <| job_PublicationToken := "" |>
                       <| job_LastError := lastError |> <| job_UpdatedAt := UTC now |> in
        (s <| checkJobs := <[claim_JobID claim := job]> (checkJobs s) |>, None)
  end.

(** Every scheduled or queued job is updated, in any order. *)
Definition lost_with_topology (job : CheckJobRecord) : bool :=
  bool_decide (job_Status job = checkJobStatusScheduled) || bool_decide (job_Status job = checkJobStatusQueued).

Definition topology_recovered (now : Time) (job : CheckJobRecord) : CheckJobRecord :=
  job <| job_Status := checkJobStatusFailed |> <| job_AvailableAt := now |> <| job_PublishedAt := time_zero |>
      <| job_ProcessingStartedAt := time_zero |> <| job_LeaseExpiresAt := time_zero |> <| job_LeaseToken := "" |>
      <| job_PublicationToken := "" |> <| job_LastError := "rabbitmq queue topology was lost" |>
      <| job_UpdatedAt := now |>.

Definition RecoverQueuedJobsAfterTopologyLoss (s : MonitorStore) (now : Time) : MonitorStore * Z :=
  let now := UTC now in
  (s <| checkJobs := (λ job, if lost_with_topology job then topology_recovered now job else job) <$> checkJobs s |>,
   Z.of_nat (size (filter (λ kv, lost_with_topology kv.2 = true) (checkJobs s)))).

(** ** Processing *)

Definition activeJobLocked (s : MonitorStore) (monitorID jobID : string) : res GoError CheckJobRecord :=
  match byID s !! monitorID with
  | None => Err ErrMonitorNotFound
  | Some _ =>
      match activeJobByMonitor s !! monitorID with
      | None => Err ErrStaleJob
      | Some activeJobID =>
          if negb (String.eqb activeJobID jobID) then Err ErrStaleJob
          else match checkJobs s !! jobID with
               | None => Err ErrStaleJob
               | Some job =>
                   if negb (String.eqb (job_MonitorID job) monitorID) then Err ErrStaleJob else Ok job
               end
      end
  end.

Definition jobOwnsLease (job : CheckJobRecord) (lease : ProcessingLease) (now : Time) : bool :=
  bool_decide (job_Status job = checkJobStatusProcessing)
  && After (job_LeaseExpiresAt job) now
  && String.eqb (job_ID job) (lease_JobID lease)
  && String.eqb (job_MonitorID job) (lease_MonitorID lease)
  && (job_Attempt job =? lease_Attempt lease)
  && negb (String.eqb (job_LeaseToken job) "")
  && String.eqb (job_LeaseToken job) (lease_LeaseToken lease).

(** The [switch] on the status of the active job. *)
Definition processing_refused (job : CheckJobRecord) (attempt : Z) : option GoError :=
  match job_Status job with
  | checkJobStatusScheduled | checkJobStatusQueued =>
      if attempt <=? job_Attempt job then Some ErrStaleJob else None
  | checkJobStatusProcessing => Some ErrJobAlreadyProcessing
  | _ => Some ErrStaleJob
  end.

Definition MarkJobProcessing (s : MonitorStore) (id jobID : string) (attempt : Z) (now : Time) (leaseTimeout : Z)
    (rnd : Entropy) : MonitorStore * res GoError ProcessingLease :=
  match activeJobLocked s id jobID with
  | Err err => (s, Err err)
  | Ok job =>
      let now := UTC now in
      match processing_refused job attempt with
      | Some err => (s, Err err)
      | None =>
          let leaseTimeout := if leaseTimeout <=? 0 then Minute else leaseTimeout in
          let job := job <| job_Status := checkJobStatusProcessing |>
                         <| job_Attempt := Z.max (job_Attempt job) (Z.max attempt 1) |>
                         <| job_ProcessingStartedAt := now |>
                         <| job_LeaseExpiresAt := AddDur now leaseTimeout |>
                         <| job_LeaseToken := newID "lease" rnd |> <| job_UpdatedAt := now |> in
          (s <| checkJobs := <[jobID := job]> (checkJobs s) |>,
           Ok {| lease_JobID := jobID; lease_MonitorID := id; lease_Attempt := job_Attempt job;
                 lease_LeaseToken := job_LeaseToken job |})
      end
  end.

Definition MarkJobFailed (s : MonitorStore) (lease : ProcessingLease) (lastError : string) (now retryAt : Time)
    (clk : Time) : MonitorStore * option GoError :=
  match activeJobLocked s (lease_MonitorID lease) (lease_JobID lease) with
  | Err err => (s, Some err)
  | Ok job =>
      if negb (jobOwnsLease job lease now) || negb (After (job_LeaseExpiresAt job) clk)
      then (s, Some ErrStaleJob)
      else
        let retryAt := UTC retryAt in
        let now := UTC now in
        let job := job <| job_Status := checkJobStatusFailed |> <| job_AvailableAt := retryAt |>
                       <| job_ProcessingStartedAt := time_zero |> <| job_LeaseExpiresAt := time_zero |>
                       <| job_LeaseToken := "" |> <| job_LastError := lastError |> <| job_UpdatedAt := now |> in
        (s <| checkJobs := <[lease_JobID lease := job]> (checkJobs s) |>, None)
  end.

Definition MarkJobDead (s : MonitorStore) (lease : ProcessingLease) (lastError : string) (now nextCheckAt : Time)
    (clk : Time) : MonitorStore * option GoError :=
  match byID s !! lease_MonitorID lease with
  | None => (s, Some ErrMonitorNotFound)
  | Some monitor =>
      match activeJobLocked s (lease_MonitorID lease) (lease_JobID lease) with
      | Err err => (s, Some err)
      | Ok job =>
          if negb (jobOwnsLease job lease now) || negb (After (job_LeaseExpiresAt job) clk)
          then (s, Some ErrStaleJob)
          else
            let now := UTC now in
            let job := job <| job_Status := checkJobStatusDead |> <| job_CompletedAt := now |>
                           <| job_ProcessingStartedAt := time_zero |> <| job_LeaseExpiresAt := time_zero |>
                           <| job_LeaseToken := "" |> <| job_LastError := lastError |>
                           <| job_UpdatedAt := now |> in
            let s := s <| checkJobs := <[lease_JobID lease := job]> (checkJobs s) |> in
            let s := s <| activeJobByMonitor := delete (lease_MonitorID lease) (activeJobByMonitor s) |> in
            let s := rememberTerminalJobLocked s (lease_JobID lease) in
            match job_Kind job with
            | checkJobKindScheduled =>
                let monitor := monitor <| mon_NextCheckAt := UTC nextCheckAt |> <| mon_UpdatedAt := now |> in
                (s <| byID := <[lease_MonitorID lease := monitor]> (byID s) |>, None)
            | checkJobKindManual => (s, None)
            end
      end
  end.

Definition CheckJob (s : MonitorStore) (jobID : string) : res GoError CheckJobRecord :=
  match checkJobs s !! jobID with Some job => Ok job | None => Err ErrStaleJob end.

(** The last [maxChecksPerMonitor] results. *)
Definition retained_checks (records : list CheckRecord) : list CheckRecord :=
  if maxChecksPerMonitor <? Z.of_nat (length records)
  then drop (length records - Z.to_nat maxChecksPerMonitor) records else records.

Definition completed_job (job : CheckJobRecord) (now : Time) : CheckJobRecord :=
  job <| job_Status := checkJobStatusCompleted |> <| job_CompletedAt := now |>
      <| job_ProcessingStartedAt := time_zero |> <| job_LeaseExpiresAt := time_zero |>
      <| job_LeaseToken := "" |> <| job_LastError := "" |> <| job_UpdatedAt := now |>.

Definition checked_monitor (monitor : Monitor) (record : CheckRecord) (kind : CheckJobKind) (now : Time) : Monitor :=
  let monitor := monitor <| mon_LastStatusCode := rec_StatusCode record |>
                         <| mon_LastLatencyMS := rec_LatencyMS record |>
                         <| mon_LastCheckedAt := now |> <| mon_LastError := rec_Error record |> in
  let monitor := match kind with
                 | checkJobKindScheduled =>
                     monitor <| mon_NextCheckAt := AddDur now (seconds (mon_IntervalSeconds monitor)) |>
                 | checkJobKindManual => monitor
                 end in
  monitor <| mon_UpdatedAt := now |>.

(** The outcome is [None] when the call panics; otherwise the next store with
    the monitor, the error, or both (a duplicate returns both). *)
Definition AddCheck (s : MonitorStore) (record : CheckRecord) (lease : ProcessingLease) (clk : Time) (rnd : Entropy)
  : option (MonitorStore * option Monitor * option GoError) :=
  match byID s !! rec_MonitorID record with
  | None => Some (s, None, Some ErrMonitorNotFound)
  | Some monitor =>
      if String.eqb (rec_JobID record) "" then Some (s, None, Some ErrJobIDRequired)
      else match checkJobs s !! rec_JobID record with
      | None => Some (s, None, Some ErrStaleJob)
      | Some job =>
          if negb (String.eqb (job_MonitorID job) (rec_MonitorID record)) then Some (s, None, Some ErrStaleJob)
          else if bool_decide (job_Status job = checkJobStatusCompleted)
          then Some (s, Some monitor, Some ErrDuplicateJob)
          else
            let now := UTC clk in
            if negb (jobOwnsLease job lease now) then Some (s, None, Some ErrStaleJob)
            else if decide (rec_JobID record ∈ processedJobs s)
            then Some (s, Some monitor, Some ErrDuplicateJob)
            else match rememberProcessedJobLocked s (rec_JobID record) with
            | None => None
            | Some s =>
                let s := s <| checkJobs := <[rec_JobID record := completed_job job now]> (checkJobs s) |> in
                let s := s <| activeJobByMonitor := delete (rec_MonitorID record) (activeJobByMonitor s) |> in
                let s := rememberTerminalJobLocked s (rec_JobID record) in
                let monitor := checked_monitor monitor record (job_Kind job) now in
                let s := s <| byID := <[rec_MonitorID record := monitor]> (byID s) |> in
                let records := retained_checks (default [] (checks s !! rec_MonitorID record) ++ [record]) in
                let s := s <| checks := <[rec_MonitorID record := records]> (checks s) |> in
                Some (updateIncident s record now rnd, Some monitor, None)
            end
      end
  end.

(** ** Reading pages *)

(** [l[offset:min(offset+limit, len(l))]]: [None] when a bound is out of
    range, which panics. *)
Definition page {A} (l : list A) (offset limit : Z) : option (list A) :=
  let total := Z.of_nat (length l) in
  if total <? offset then Some []
  else
    let stop := Z.min (wrap64 (offset + limit)) total in
    if (0 <=? offset) && (offset <=? stop)
    then Some (take (Z.to_nat (stop - offset)) (drop (Z.to_nat offset) l)) else None.

Definition compare_created_asc (a b : Monitor) : Z :=
  if TimeEqual (mon_CreatedAt a) (mon_CreatedAt b) then compareString (mon_ID a) (mon_ID b)
  else if Before (mon_CreatedAt a) (mon_CreatedAt b) then -1 else 1.

Definition compare_checked_desc (a b : CheckRecord) : Z :=
  if TimeEqual (rec_CheckedAt a) (rec_CheckedAt b) then compareString (rec_ID a) (rec_ID b)
  else if After (rec_CheckedAt a) (rec_CheckedAt b) then -1 else 1.

Definition compare_incidents_desc (a b : Incident) : Z :=
  if TimeEqual (inc_CreatedAt a) (inc_CreatedAt b) then compareString (inc_ID a) (inc_ID b)
  else if After (inc_CreatedAt a) (inc_CreatedAt b) then -1 else 1.

Definition List_ (s : MonitorStore) (offset limit : Z) : option (list Monitor * Z) :=
  let monitors := SortFunc compare_created_asc (map_range (byID s)).*2 in
  (λ p, (p, Z.of_nat (length monitors))) <$> page monitors offset limit.

Definition ListChecks (s : MonitorStore) (id : string) (offset limit : Z)
  : option (res GoError (list CheckRecord * Z)) :=
  match byID s !! id with
  | None => Some (Err ErrMonitorNotFound)
  | Some _ =>
      let records := SortFunc compare_checked_desc (default [] (checks s !! id)) in
      (λ p, Ok (p, Z.of_nat (length records))) <$> page records offset limit
  end.

Definition incident_selected (status : string) (incident : Incident) : bool :=
  String.eqb status "" || String.eqb (incident_status_string (inc_Status incident)) status.

Definition ListIncidents (s : MonitorStore) (status : string) (offset limit : Z) : option (list Incident * Z) :=
  let selected := List.filter (incident_selected status) (map_range (incidents s)).*2 in
  let selected := SortFunc compare_incidents_desc selected in
  (λ p, (p, Z.of_nat (length selected))) <$> page selected offset limit.

(** ** Statistics *)

Record MonitorStats := mkMonitorStats {
  st_MonitorID : string; st_UptimePercent : spec_float; st_AverageLatencyMS : spec_float;
  st_ChecksTotal : Z; st_SuccessfulChecks : Z; st_FailedChecks : Z;
  st_LastCheckedAt : Time; st_LastStatusCode : Z; st_ConsecutiveFailure : Z;
}.

(** The loop over the records, newest first. *)
Fixpoint stats_loop (records : list CheckRecord) (acc : Z * Z * Z) : Z * Z * Z :=
  match records with
  | [] => acc
  | record :: rest =>
      let '(ok, failed, latency) := acc in
      let '(ok, failed) := if rec_Success record then (ok + 1, failed) else (ok, failed + 1) in
      stats_loop rest (ok, failed, wrap64 (latency + rec_LatencyMS record))
  end.

Definition uptime_percent (ok total : Z) : spec_float :=
  float64_mul (float64_div (float64_of ok) (float64_of total)) (float64_of 100).

Definition Stats (s : MonitorStore) (id : string) : res GoError MonitorStats :=
  match byID s !! id with
  | None => Err ErrMonitorNotFound
  | Some monitor =>
      let records := default [] (checks s !! id) in
      let total := Z.of_nat (length records) in
      if total =? 0 then
        Ok (mkMonitorStats id (S754_zero false) (S754_zero false) 0 0 0
              (mon_LastCheckedAt monitor) (mon_LastStatusCode monitor) 0)
      else
        let '(ok, failed, latency) := stats_loop (rev records) (0, 0, 0) in
        let consecutive := match openIncidentByMonitor s !! id with
                           | Some incidentID => inc_FailureCount (default zero_Incident (incidents s !! incidentID))
                           | None => 0
                           end in
        Ok (mkMonitorStats id (uptime_percent ok total)
              (float64_div (float64_of latency) (float64_of total))
              total ok failed (mon_LastCheckedAt monitor) (mon_LastStatusCode monitor) consecutive)
  end.

(** ** Seeding

    The intervals come from the configuration, in whole seconds. *)
Fixpoint seed_loop (s : MonitorStore) (links : list (string * Time * Entropy)) (interval timeout : Z)
  : res GoError MonitorStore :=
  match links with
  | [] => Ok s
  | (link, clk, rnd) :: rest =>
      match Create s {| in_URL := link; in_IntervalSeconds := interval; in_TimeoutSeconds := timeout;
                        in_ExpectedStatus := 200; in_Enabled := None |} clk rnd with
      | (_, Err err) => Err err
      | (s, Ok _) => seed_loop s rest interval timeout
      end
  end.

Definition SeedMonitorStore (links : list (string * Time * Entropy)) (checkInterval httpTimeout : Z)
    (p : NetworkPolicy) : res GoError MonitorStore :=
  seed_loop (NewMonitorStore p) links (Z.quot checkInterval Second) (Z.quot httpTimeout Second).
End operations.
