(* ===== verification/StoreInv.v ===== *)
(** * The invariant of the monitor store

    [store_wf] relates the store's eight maps and three histories; every
    operation of [MonitorStore] keeps it (given that freshly drawn identifiers
    are fresh), and none panics. *)

From stdpp Require Import base list gmap strings.
From Stdlib Require Import ZArith Lia Ascii.
From S2P Require Import Prelude GoNum GoStrings NetworkPolicy Egress Domain History Store.
#[local] Open Scope string_scope.
#[local] Open Scope list_scope.
#[local] Open Scope Z_scope.

Section invariant.
Context `{!Unicode, !URLParser, !MapRange}.

Definition monitor_ok (p : NetworkPolicy) (m : Monitor) : Prop :=
  settings_ok (mon_URL m) (mon_IntervalSeconds m) (mon_TimeoutSeconds m) (mon_ExpectedStatus m)
  ∧ ValidateURL p (mon_URL m) = None
  ∧ (mon_Status m = monitorStatusActive ↔ mon_Enabled m = true).

(** Identifiers of scheduled jobs name their monitor. *)
Definition job_id_shape (j : CheckJobRecord) : Prop :=
  match job_Kind j with
  | checkJobKindScheduled => ∃ t c, job_ID j = NewCheckJobID (job_MonitorID j) t c
  | checkJobKindManual => ∃ e, entropy_ok e ∧ job_ID j = newID "job" e
  end.

(** A processing job, and no other, carries a lease token. *)
Definition lease_ok (j : CheckJobRecord) : Prop :=
  0 <= job_Attempt j ∧
  if decide (job_Status j = checkJobStatusProcessing)
  then job_LeaseToken j ≠ "" ∧ 1 <= job_Attempt j else job_LeaseToken j = "".

Definition job_ok (id : string) (j : CheckJobRecord) : Prop := job_ID j = id ∧ job_id_shape j ∧ lease_ok j.
Definition incident_ok (id : string) (i : Incident) : Prop := inc_ID i = id.

Record store_wf (s : MonitorStore) : Prop := {
  sw_monitor id m : byID s !! id = Some m →
    mon_ID m = id ∧ byURL s !! mon_URL m = Some id ∧ monitor_ok (policy s) m;
  sw_url url id : byURL s !! url = Some id → ∃ m, byID s !! id = Some m ∧ mon_URL m = url;
  sw_jobs : table_wf job_MonitorID job_terminal maxRetainedCheckJobs job_ok (dom (byID s))
    (checkJobs s) (activeJobByMonitor s) (terminalJobOrder s) (terminalJobHead s);
  sw_incidents : table_wf inc_MonitorID inc_resolved maxRetainedResolvedIncidents incident_ok (dom (byID s))
    (incidents s) (openIncidentByMonitor s) (resolvedIncidentOrder s) (resolvedIncidentHead s);
  sw_checks id l : checks s !! id = Some l →
    is_Some (byID s !! id) ∧ Z.of_nat (length l) <= maxChecksPerMonitor ∧ Forall (λ r, rec_MonitorID r = id) l;
  sw_processed : processed_wf maxProcessedJobIDs (processedJobs s) (processedJobOrder s) (processedJobHead s);
}.

Lemma NewMonitorStore_wf p : store_wf (NewMonitorStore p).
Proof.
  split; try (intros *; cbn; by rewrite lookup_empty).
  - apply table_empty. done.
  - apply table_empty. done.
  - split; [constructor|]. split; [done|]. by unfold window_ok, maxProcessedJobIDs; cbn; lia.
Qed.

(** ** What each kind of change needs *)

Lemma put_monitor_wf s id m m' :
  store_wf s → byID s !! id = Some m → mon_ID m' = id → mon_URL m' = mon_URL m → monitor_ok (policy s) m' →
  store_wf (s <| byID := <[id := m']> (byID s) |>).
Proof.
  intros [Hm Hu Hj Hi Hc Hp] Hid Hid' Hurl Hok.
  assert (dom (<[id := m']> (byID s)) = dom (byID s)) as Hdom by (apply dom_insert_lookup_L; eauto).
  split; cbn; rewrite ?Hdom; [| |done|done| |done].
  - intros i w [[<- <-]|[_ Hx]]%lookup_insert_Some; [|by apply Hm].
    split; [done|]. split; [|done]. rewrite Hurl. by apply Hm.
  - intros u i Hx. destruct (Hu _ _ Hx) as (w & Hw & <-).
    destruct (decide (i = id)) as [->|Hne]; [|exists w; by rewrite lookup_insert_ne].
    exists m'. rewrite lookup_insert_eq. simplify_eq. done.
  - intros i l Hl. destruct (Hc _ _ Hl) as [? ?]. split; [|done]. by apply lookup_insert_is_Some'; right.
Qed.

Lemma put_job_wf s id j j' :
  store_wf s → checkJobs s !! id = Some j → job_terminal j = false →
  job_ok id j' → job_MonitorID j' = job_MonitorID j → job_terminal j' = false →
  store_wf (s <| checkJobs := <[id := j']> (checkJobs s) |>).
Proof.
  intros [Hm Hu Hj Hi Hc Hp] ?????. split; cbn; try done. by eapply table_put.
Qed.

Lemma add_job_wf s id j :
  store_wf s → activeJobByMonitor s !! job_MonitorID j = None → is_Some (byID s !! job_MonitorID j) →
  job_ok id j → job_terminal j = false →
  (∀ j', checkJobs s !! id = Some j' → job_terminal j' = true) →
  store_wf (s <| checkJobs := <[id := j]> (checkJobs s) |>
              <| activeJobByMonitor := <[job_MonitorID j := id]> (activeJobByMonitor s) |>).
Proof.
  intros [Hm Hu Hj Hi Hc Hp] ? ? ???. split; cbn; try done. apply table_add; try done. by apply elem_of_dom.
Qed.

Lemma finish_job_wf s id j j' :
  store_wf s → checkJobs s !! id = Some j → job_terminal j = false →
  job_ok id j' → job_MonitorID j' = job_MonitorID j → job_terminal j' = true →
  store_wf (rememberTerminalJobLocked
    (s <| checkJobs := <[id := j']> (checkJobs s) |>
       <| activeJobByMonitor := delete (job_MonitorID j) (activeJobByMonitor s) |>) id).
Proof.
  intros [Hm Hu Hj Hi Hc Hp] Hid Hn Hok Hmon Ht. unfold rememberTerminalJobLocked. cbn.
  destruct (remember _ _ _ _ _ _) as [[jobs' order'] head'] eqn:Hr.
  eapply table_finish in Hr; [|done|exact Hj|exact Hid|done..].
  split; cbn; done.
Qed.

Lemma put_incident_wf s id i i' :
  store_wf s → incidents s !! id = Some i → inc_resolved i = false →
  incident_ok id i' → inc_MonitorID i' = inc_MonitorID i → inc_resolved i' = false →
  store_wf (s <| incidents := <[id := i']> (incidents s) |>).
Proof. intros [Hm Hu Hj Hi Hc Hp] ?????. split; cbn; try done. by eapply table_put. Qed.

Lemma add_incident_wf s id i :
  store_wf s → openIncidentByMonitor s !! inc_MonitorID i = None → is_Some (byID s !! inc_MonitorID i) →
  incident_ok id i → inc_resolved i = false → incidents s !! id = None →
  store_wf (s <| incidents := <[id := i]> (incidents s) |>
              <| openIncidentByMonitor := <[inc_MonitorID i := id]> (openIncidentByMonitor s) |>).
Proof.
  intros [Hm Hu Hj Hi Hc Hp] ? ????. split; cbn; try done.
  apply table_add; try done; [by apply elem_of_dom|congruence].
Qed.

Lemma resolve_incident_wf s id i i' :
  store_wf s → incidents s !! id = Some i → inc_resolved i = false →
  incident_ok id i' → inc_MonitorID i' = inc_MonitorID i → inc_resolved i' = true →
  store_wf (rememberResolvedIncidentLocked
    (s <| incidents := <[id := i']> (incidents s) |>
       <| openIncidentByMonitor := delete (inc_MonitorID i) (openIncidentByMonitor s) |>) id).
Proof.
  intros [Hm Hu Hj Hi Hc Hp] Hid Hn Hok Hmon Ht. unfold rememberResolvedIncidentLocked. cbn.
  destruct (remember _ _ _ _ _ _) as [[incs' order'] head'] eqn:Hr.
  eapply table_finish in Hr; [|done|exact Hi|exact Hid|done..].
  split; cbn; done.
Qed.

(** ** Looking through the indexes *)

Lemma active_job s m id :
  store_wf s → activeJobByMonitor s !! m = Some id →
  ∃ j, checkJobs s !! id = Some j ∧ job_MonitorID j = m ∧ job_terminal j = false ∧ job_ok id j.
Proof.
  intros Hs Hx. destruct (tw_index _ _ _ _ _ _ _ _ _ (sw_jobs s Hs) _ _ Hx) as (j & Hj & Hm & Hn).
  exists j. split; [done|]. split; [done|]. split; [done|]. by eapply (tw_entry _ _ _ _ _ _ _ _ _ (sw_jobs s Hs)).
Qed.

Lemma job_lookup s id j :
  store_wf s → checkJobs s !! id = Some j →
  job_ok id j ∧ is_Some (byID s !! job_MonitorID j)
  ∧ (job_terminal j = false → activeJobByMonitor s !! job_MonitorID j = Some id).
Proof.
  intros Hs Hj. destruct (tw_entry _ _ _ _ _ _ _ _ _ (sw_jobs s Hs) _ _ Hj) as [Hok HM].
  split; [done|]. split; [by apply elem_of_dom|]. by apply (tw_live _ _ _ _ _ _ _ _ _ (sw_jobs s Hs)).
Qed.

Lemma open_incident s m id :
  store_wf s → openIncidentByMonitor s !! m = Some id →
  ∃ i, incidents s !! id = Some i ∧ inc_MonitorID i = m ∧ inc_resolved i = false ∧ incident_ok id i.
Proof.
  intros Hs Hx. destruct (tw_index _ _ _ _ _ _ _ _ _ (sw_incidents s Hs) _ _ Hx) as (i & Hi & Hm & Hn).
  exists i. split; [done|]. split; [done|]. split; [done|].
  by eapply (tw_entry _ _ _ _ _ _ _ _ _ (sw_incidents s Hs)).
Qed.

Lemma activeJobLocked_Ok s m id j :
  activeJobLocked s m id = Ok j →
  is_Some (byID s !! m) ∧ activeJobByMonitor s !! m = Some id ∧ checkJobs s !! id = Some j ∧ job_MonitorID j = m.
Proof.
  unfold activeJobLocked. destruct (byID s !! m); [|done].
  destruct (activeJobByMonitor s !! m) as [a|]; [|done].
  destruct (String.eqb_spec a id) as [->|]; cbn; [|done].
  destruct (checkJobs s !! id) as [j'|]; [|done].
  destruct (String.eqb_spec (job_MonitorID j') m); cbn; [|done]. intros [= ->]. eauto.
Qed.

(** ** Lookups after the memory of terminal jobs is trimmed *)

Lemma rememberTerminal_fields s id :
  let s' := rememberTerminalJobLocked s id in
  policy s' = policy s ∧ byID s' = byID s ∧ byURL s' = byURL s ∧ checks s' = checks s
  ∧ activeJobByMonitor s' = activeJobByMonitor s ∧ incidents s' = incidents s
  ∧ openIncidentByMonitor s' = openIncidentByMonitor s ∧ processedJobs s' = processedJobs s.
Proof. unfold rememberTerminalJobLocked. destruct (remember _ _ _ _ _ _) as [[? ?] ?]. done. Qed.

Lemma rememberTerminal_sub s id i j :
  checkJobs (rememberTerminalJobLocked s id) !! i = Some j → checkJobs s !! i = Some j.
Proof.
  unfold rememberTerminalJobLocked. destruct (remember _ _ _ _ _ _) as [[? ?] ?] eqn:Hr.
  by apply remember_spec in Hr as [? _]; eauto.
Qed.

Lemma rememberTerminal_live s id i j :
  checkJobs s !! i = Some j → job_terminal j = false →
  checkJobs (rememberTerminalJobLocked s id) !! i = Some j.
Proof.
  unfold rememberTerminalJobLocked. destruct (remember _ _ _ _ _ _) as [[? ?] ?] eqn:Hr.
  by apply remember_spec in Hr as [_ ?]; eauto.
Qed.

Lemma rememberResolved_fields s id :
  let s' := rememberResolvedIncidentLocked s id in
  policy s' = policy s ∧ byID s' = byID s ∧ byURL s' = byURL s ∧ checks s' = checks s
  ∧ checkJobs s' = checkJobs s ∧ activeJobByMonitor s' = activeJobByMonitor s
  ∧ openIncidentByMonitor s' = openIncidentByMonitor s ∧ processedJobs s' = processedJobs s.
Proof. unfold rememberResolvedIncidentLocked. destruct (remember _ _ _ _ _ _) as [[? ?] ?]. done. Qed.

(** ** Jobs keep their shape when only their progress changes *)

Lemma job_ok_update id j j' :
  job_ok id j → job_ID j' = job_ID j → job_MonitorID j' = job_MonitorID j → job_Kind j' = job_Kind j →
  lease_ok j' → job_ok id j'.
Proof.
  intros (Hid & Hshape & _) Hid' Hm Hk Hl. split; [congruence|]. split; [|done].
  unfold job_id_shape in *. by rewrite Hk, Hm, Hid'.
Qed.

(** Outside processing the lease token is gone. *)
Lemma lease_ok_idle j :
  0 <= job_Attempt j → job_Status j ≠ checkJobStatusProcessing → job_LeaseToken j = "" → lease_ok j.
Proof. intros ? ? ?. split; [done|]. by rewrite decide_False. Qed.

Lemma job_ok_attempt id j : job_ok id j → 0 <= job_Attempt j.
Proof. by intros (_ & _ & ? & _). Qed.

(** Discharges [job_ok] for a job written back with a status other than
    processing and no lease token. *)
Ltac idle_job Hok :=
  eapply job_ok_update; [exact Hok|reflexivity..|];
  apply lease_ok_idle; cbn; [by eapply job_ok_attempt|done|done].

Lemma idle_token id j :
  job_ok id j → job_Status j ≠ checkJobStatusProcessing → job_LeaseToken j = "".
Proof. intros (_ & _ & _ & Hl) Hs. by rewrite decide_False in Hl. Qed.

(** ** Monitors *)

Lemma Create_wf s input clk rnd :
  store_wf s → byID s !! newMonitorID rnd = None → store_wf (Create s input clk rnd).1.
Proof.
  intros Hs Hfresh. unfold Create. destruct (validateMonitorInput _ _) eqn:Hv; [done|].
  apply validateMonitorInput_ok in Hv as [Hset Hurl].
  set (m := mkMonitor _ _ _ _ _ _ _ _ _ _ _ _ _ _).
  destruct (byURL s !! mon_URL m) eqn:Hu; [done|]. destruct Hs as [Hm Hurls Hj Hi Hc Hp].
  assert (dom (byID s) ⊆ dom (<[mon_ID m := m]> (byID s))) as Hdom by set_solver.
  split; cbn [fst].
  - cbn -[m]. intros i w [[<- <-]|[Hne Hx]]%lookup_insert_Some.
    + split; [done|]. split; [by rewrite lookup_insert_eq|]. split; [done|]. split; [done|].
      cbn. by destruct (in_Enabled input) as [[]|].
    + destruct (Hm _ _ Hx) as (? & Hw & ?). split; [done|]. split; [|done].
      rewrite lookup_insert_ne; [done|congruence].
  - cbn -[m]. intros u i [[<- <-]|[Hne Hx]]%lookup_insert_Some.
    + exists m. by rewrite lookup_insert_eq.
    + destruct (Hurls _ _ Hx) as (w & Hw & ?). exists w. rewrite lookup_insert_ne; [done|]. cbn. congruence.
  - cbn -[m]. by eapply table_grow.
  - cbn -[m]. by eapply table_grow.
  - cbn -[m]. intros i l Hl. destruct (Hc _ _ Hl) as [? ?]. split; [|done]. by apply lookup_insert_is_Some'; right.
  - done.
Qed.

Lemma Create_policy s input clk rnd : policy (Create s input clk rnd).1 = policy s.
Proof. unfold Create. destruct (validateMonitorInput _ _); [done|]. by destruct (byURL s !! _). Qed.

Lemma finishActiveJobLocked_fields s m st e now :
  let s' := finishActiveJobLocked s m st e now in
  policy s' = policy s ∧ byID s' = byID s ∧ byURL s' = byURL s ∧ checks s' = checks s.
Proof.
  unfold finishActiveJobLocked. destruct (activeJobByMonitor s !! m) as [id|]; [|done].
  destruct (checkJobs s !! id); [|done]. destruct (terminal_status st); [|done].
  cbn zeta. match goal with |- context [rememberTerminalJobLocked ?x ?y] =>
    destruct (rememberTerminal_fields x y) as (-> & -> & -> & -> & _) end. done.
Qed.

Lemma finishActiveJobLocked_wf s m st e now :
  store_wf s → st ≠ checkJobStatusProcessing → store_wf (finishActiveJobLocked s m st e now).
Proof.
  intros Hs Hst. unfold finishActiveJobLocked.
  destruct (activeJobByMonitor s !! m) as [id|] eqn:Ha; [|done].
  destruct (active_job _ _ _ Hs Ha) as (j & Hj & Hm & Hn & Hok). rewrite Hj.
  destruct (terminal_status st) eqn:Ht.
  - rewrite <- Hm. eapply (finish_job_wf s id j _ Hs Hj Hn); [|done|done]. idle_job Hok.
  - eapply put_job_wf; [done|exact Hj|done| |done|done]. idle_job Hok.
Qed.

Lemma resolveOpenIncidentLocked_fields s m now :
  let s' := resolveOpenIncidentLocked s m now in
  policy s' = policy s ∧ byID s' = byID s ∧ byURL s' = byURL s ∧ checks s' = checks s.
Proof.
  unfold resolveOpenIncidentLocked. destruct (openIncidentByMonitor s !! m) as [id|]; [|done].
  destruct (incidents s !! id); [|done].
  cbn zeta. match goal with |- context [rememberResolvedIncidentLocked ?x ?y] =>
    destruct (rememberResolved_fields x y) as (-> & -> & -> & -> & _) end. done.
Qed.

Lemma resolveOpenIncidentLocked_wf s m now : store_wf s → store_wf (resolveOpenIncidentLocked s m now).
Proof.
  intros Hs. unfold resolveOpenIncidentLocked.
  destruct (openIncidentByMonitor s !! m) as [id|] eqn:Ho; [|done].
  destruct (open_incident _ _ _ Hs Ho) as (i & Hi & Hm & Hn & Hok). rewrite Hi, <- Hm.
  by apply (resolve_incident_wf s id i _ Hs Hi Hn).
Qed.

(** The job and incident operations do not look at the index by URL. *)
Lemma finishActiveJobLocked_byURL s u m st e now :
  finishActiveJobLocked (s <| byURL := u |>) m st e now = (finishActiveJobLocked s m st e now) <| byURL := u |>.
Proof.
  unfold finishActiveJobLocked. cbn. destruct (activeJobByMonitor s !! m); [|done].
  destruct (checkJobs s !! _); [|done]. destruct (terminal_status st); [|done].
  unfold rememberTerminalJobLocked. cbn. by destruct (remember _ _ _ _ _ _) as [[? ?] ?].
Qed.

Lemma resolveOpenIncidentLocked_byURL s u m now :
  resolveOpenIncidentLocked (s <| byURL := u |>) m now = (resolveOpenIncidentLocked s m now) <| byURL := u |>.
Proof.
  unfold resolveOpenIncidentLocked. cbn. destruct (openIncidentByMonitor s !! m); [|done].
  destruct (incidents s !! _); [|done].
  unfold rememberResolvedIncidentLocked. cbn. by destruct (remember _ _ _ _ _ _) as [[? ?] ?].
Qed.

Lemma rename_monitor_wf s id m m' :
  store_wf s → byID s !! id = Some m → mon_ID m' = id → monitor_ok (policy s) m' →
  (∀ other, byURL s !! mon_URL m' = Some other → other = id) →
  store_wf (s <| byURL := if String.eqb (mon_URL m') (mon_URL m) then byURL s
                          else <[mon_URL m' := id]> (delete (mon_URL m) (byURL s)) |>
              <| byID := <[id := m']> (byID s) |>).
Proof.
  intros Hs Hid Hid' Hok Hfree.
  destruct (String.eqb_spec (mon_URL m') (mon_URL m)) as [He|He]; [by eapply (put_monitor_wf s)|].
  destruct Hs as [Hm Hu Hj Hi Hc Hp]. destruct (Hm _ _ Hid) as (_ & Hurl & _).
  assert (dom (<[id := m']> (byID s)) = dom (byID s)) as Hdom by (apply dom_insert_lookup_L; eauto).
  split; cbn; rewrite ?Hdom; [| |done|done| |done].
  - intros i w [[<- <-]|[Hne Hx]]%lookup_insert_Some; [by rewrite lookup_insert_eq|].
    destruct (Hm _ _ Hx) as (Hwid & Hw & Hwok). split; [done|]. split; [|done].
    rewrite lookup_insert_ne, lookup_delete_ne; [done|congruence|].
    intros Heq. rewrite <- Heq in Hw. apply Hfree in Hw. congruence.
  - intros u i [[<- <-]|[Hne [Hne' Hx]%lookup_delete_Some]]%lookup_insert_Some.
    + exists m'. by rewrite lookup_insert_eq.
    + destruct (Hu _ _ Hx) as (w & Hw & <-). exists w. rewrite lookup_insert_ne; [done|]. congruence.
  - intros i l Hl. destruct (Hc _ _ Hl) as [? ?]. split; [|done]. by apply lookup_insert_is_Some'; right.
Qed.

Lemma validated_monitor_ok p m m' :
  validateMonitorInput (input_of_monitor m) p = None →
  mon_URL m' = mon_URL m → mon_IntervalSeconds m' = mon_IntervalSeconds m →
  mon_TimeoutSeconds m' = mon_TimeoutSeconds m → mon_ExpectedStatus m' = mon_ExpectedStatus m →
  (mon_Status m' = monitorStatusActive ↔ mon_Enabled m' = true) → monitor_ok p m'.
Proof.
  intros [Hset Hurl]%validateMonitorInput_ok E1 E2 E3 E4 E5. cbn in Hset, Hurl.
  unfold monitor_ok. rewrite E1, E2, E3, E4. done.
Qed.

Lemma Update_wf s id patch clk : store_wf s → store_wf (Update s id patch clk).1.
Proof.
  intros Hs. unfold Update. destruct (byID s !! id) as [m|] eqn:Hid; [|done].
  destruct (validateMonitorInput _ _) eqn:Hv; [done|].
  set (upd := apply_patch m patch) in *.
  assert (mon_ID upd = id) as Hupd by exact (proj1 (sw_monitor _ Hs _ _ Hid)).
  destruct (match byURL s !! mon_URL upd with Some _ => _ | None => _ end) eqn:Hother; [done|].
  assert (∀ other, byURL s !! mon_URL upd = Some other → other = id) as Hfree.
  { intros other Ho. rewrite Ho in Hother. by destruct (String.eqb_spec other id). }
  clear Hother.
  set (u := if String.eqb (mon_URL upd) (mon_URL m) then byURL s
            else <[mon_URL upd := id]> (delete (mon_URL m) (byURL s))).
  replace (if String.eqb (mon_URL upd) (mon_URL m) then s
           else s <| byURL := <[mon_URL upd := id]> (delete (mon_URL m) (byURL s)) |>)
    with (s <| byURL := u |>) by (unfold u; destruct (String.eqb _ _); [by destruct s|done]).
  (* whatever happens to the job and the incident, the monitor is then renamed *)
  assert (∀ s1 w, store_wf s1 → policy s1 = policy s → byID s1 = byID s → byURL s1 = byURL s →
    mon_ID w = id → mon_URL w = mon_URL upd → monitor_ok (policy s) w →
    store_wf (s1 <| byURL := u |> <| byID := <[id := w]> (byID s1) |>)) as Hfin.
  { intros s1 w Hs1 Hp Hb Hbu Hw Hurl Hwok. unfold u. rewrite <- Hurl, <- Hbu.
    apply rename_monitor_wf; [done|by rewrite Hb|done|by rewrite Hp|by rewrite Hbu, Hurl]. }
  cbn zeta.
  change (mon_Enabled (upd <| mon_UpdatedAt := UTC clk |>)) with (mon_Enabled upd).
  destruct (mon_Enabled upd) eqn:Hen; destruct (checkSemanticsChanged upd m) eqn:Hsem; cbn iota beta.
  - cbn [mon_Enabled set_field]. cbn -[resolveOpenIncidentLocked finishActiveJobLocked upd].
    rewrite Hen, resolveOpenIncidentLocked_byURL, finishActiveJobLocked_byURL.
    pose proof (resolveOpenIncidentLocked_fields s id (UTC clk)) as (P1 & P2 & P3 & _).
    pose proof (finishActiveJobLocked_fields (resolveOpenIncidentLocked s id (UTC clk)) id checkJobStatusDead
      "monitor configuration changed" (UTC clk)) as (Q1 & Q2 & Q3 & _).
    eapply (Hfin (finishActiveJobLocked (resolveOpenIncidentLocked s id (UTC clk)) id checkJobStatusDead
      "monitor configuration changed" (UTC clk))); [|congruence..|done|done|by eapply validated_monitor_ok].
    apply finishActiveJobLocked_wf; [by apply resolveOpenIncidentLocked_wf|done].
  - apply (Hfin s); try done. by eapply validated_monitor_ok.
  - cbn -[resolveOpenIncidentLocked finishActiveJobLocked upd].
    rewrite Hen, finishActiveJobLocked_byURL, resolveOpenIncidentLocked_byURL.
    pose proof (finishActiveJobLocked_fields s id checkJobStatusDead "monitor disabled" (UTC clk))
      as (Q1 & Q2 & Q3 & _).
    pose proof (resolveOpenIncidentLocked_fields
      (finishActiveJobLocked s id checkJobStatusDead "monitor disabled" (UTC clk)) id (UTC clk)) as (P1 & P2 & P3 & _).
    eapply (Hfin (resolveOpenIncidentLocked
      (finishActiveJobLocked s id checkJobStatusDead "monitor disabled" (UTC clk)) id (UTC clk)));
      [|congruence..|done|done|].
    + apply resolveOpenIncidentLocked_wf. by apply finishActiveJobLocked_wf.
    + eapply validated_monitor_ok; [done..|]. cbn -[upd]. by rewrite Hen.
  - cbn -[finishActiveJobLocked upd]. rewrite finishActiveJobLocked_byURL.
    pose proof (finishActiveJobLocked_fields s id checkJobStatusDead "monitor disabled" (UTC clk))
      as (Q1 & Q2 & Q3 & _).
    eapply (Hfin (finishActiveJobLocked s id checkJobStatusDead "monitor disabled" (UTC clk)));
      [by apply finishActiveJobLocked_wf|done..|].
    eapply validated_monitor_ok; [done..|]. cbn -[upd]. by rewrite Hen.
Qed.

Lemma Delete_wf s id : store_wf s → store_wf (Delete s id).1.
Proof.
  intros Hs. unfold Delete. destruct (byID s !! id) as [m|] eqn:Hid; [|done].
  assert (dom (delete id (byID s)) = dom (byID s) ∖ {[id]}) as Hdom by by rewrite dom_delete_L.
  (* the active job is one of the monitor's, so the first deletion is subsumed *)
  assert (∀ jobID, activeJobByMonitor s !! id = Some jobID →
    filter (λ kv, job_MonitorID kv.2 ≠ id) (delete jobID (checkJobs s))
    = filter (λ kv, job_MonitorID kv.2 ≠ id) (checkJobs s)) as Hjobs.
  { intros jobID Ha. destruct (active_job _ _ _ Hs Ha) as (j & Hj & Hm & _). rewrite map_filter_delete.
    apply delete_id, map_lookup_filter_None. right. intros j' Hj'. cbn. simplify_eq. tauto. }
  destruct Hs as [Hm Hu Hj Hi Hc Hp].
  apply (table_remove_owner _ _ _ _ _ _ _ _ _ id) in Hj, Hi. rewrite <- Hdom in Hj, Hi.
  assert (∀ jobs act, jobs = filter (λ kv, job_MonitorID kv.2 ≠ id) (checkJobs s) →
    act = delete id (activeJobByMonitor s) →
    store_wf (s <| byID := delete id (byID s) |> <| byURL := delete (mon_URL m) (byURL s) |>
                <| checks := delete id (checks s) |> <| activeJobByMonitor := act |> <| checkJobs := jobs |>
                <| openIncidentByMonitor := delete id (openIncidentByMonitor s) |>
                <| incidents := filter (λ kv, inc_MonitorID kv.2 ≠ id) (incidents s) |>)) as Hfin.
  { intros jobs act -> ->. split; cbn; try done.
    - intros i w [Hne Hx]%lookup_delete_Some. destruct (Hm _ _ Hx) as (? & Hw & ?).
      split; [done|]. split; [|done]. rewrite lookup_delete_ne; [done|].
      intros Heq. rewrite <- Heq in Hw. destruct (Hm _ _ Hid) as (_ & Hw' & _). congruence.
    - intros u i [Hne Hx]%lookup_delete_Some. destruct (Hu _ _ Hx) as (w & Hw & <-).
      exists w. rewrite lookup_delete_ne; [done|congruence].
    - intros i l [Hne Hl]%lookup_delete_Some. destruct (Hc _ _ Hl) as [? ?].
      split; [|done]. by rewrite lookup_delete_ne. }
  cbn -[filter]. destruct (activeJobByMonitor s !! id) as [jobID|] eqn:Ha; cbn -[filter].
  - apply (Hfin _ _); [|done]. by apply (Hjobs jobID).
  - apply (Hfin _ _ eq_refl). symmetry. by apply delete_id.
Qed.

(** ** Recovery *)

Lemma finishExhaustedJobLocked_fields s id j e now :
  let s' := finishExhaustedJobLocked s id j e now in
  policy s' = policy s ∧ byURL s' = byURL s ∧ checks s' = checks s ∧ dom (byID s') = dom (byID s).
Proof.
  unfold finishExhaustedJobLocked.
  set (s1 := if decide _ then _ else _).
  destruct (rememberTerminal_fields s1 id) as (P1 & P2 & P3 & P4 & _).
  assert (policy s1 = policy s ∧ byURL s1 = byURL s ∧ checks s1 = checks s ∧ byID s1 = byID s) as (Q1 & Q2 & Q3 & Q4)
    by (unfold s1; by case_decide).
  assert (byID (rememberTerminalJobLocked s1 id) = byID s) as R by congruence.
  cbn zeta. destruct (job_Kind _); [|split_and!; congruence].
  destruct (byID (rememberTerminalJobLocked s1 id) !! _) as [m|] eqn:Hb; [|split_and!; congruence].
  split; [cbn; congruence|]. split; [cbn; congruence|]. split; [cbn; congruence|].
  cbn -[dom rememberTerminalJobLocked s1]. rewrite dom_insert_lookup_L by eauto. congruence.
Qed.

(** The active job the code looks up is the one it is finishing. *)
Lemma finishExhausted_index s id j :
  store_wf s → checkJobs s !! id = Some j → job_terminal j = false →
  default "" (activeJobByMonitor s !! job_MonitorID j) = id.
Proof. intros Hs Hj Hn. destruct (job_lookup _ _ _ Hs Hj) as (_ & _ & Ha). by rewrite Ha. Qed.

Lemma finishExhaustedJobLocked_wf s id j e now :
  store_wf s → checkJobs s !! id = Some j → job_terminal j = false →
  store_wf (finishExhaustedJobLocked s id j e now).
Proof.
  intros Hs Hj Hn. destruct (job_lookup _ _ _ Hs Hj) as (Hok & [m Hm] & Ha).
  unfold finishExhaustedJobLocked.
  rewrite decide_True by (cbn; by apply finishExhausted_index).
  match goal with |- context [rememberTerminalJobLocked ?x ?y] => set (s1 := x) end.
  assert (store_wf (rememberTerminalJobLocked s1 id)) as Hs1.
  { eapply (finish_job_wf s id j _ Hs Hj Hn); [|done|done]. idle_job Hok. }
  destruct (rememberTerminal_fields s1 id) as (P1 & P2 & _).
  cbn zeta. destruct (job_Kind _); [|done].
  assert (byID (rememberTerminalJobLocked s1 id) !! job_MonitorID j = Some m) as R by by rewrite P2.
  change (job_MonitorID (_ <| job_UpdatedAt := now |>)) with (job_MonitorID j). rewrite R.
  destruct (sw_monitor _ Hs _ _ Hm) as (? & ? & ?).
  eapply put_monitor_wf; [done|exact R|done|done|]. by rewrite P1.
Qed.

Lemma finishExhaustedJobLocked_live s id j e now i w :
  i ≠ id → checkJobs s !! i = Some w → job_terminal w = false →
  checkJobs (finishExhaustedJobLocked s id j e now) !! i = Some w.
Proof.
  intros Hne Hw Hn. unfold finishExhaustedJobLocked. set (s1 := if decide _ then _ else _).
  assert (checkJobs (rememberTerminalJobLocked s1 id) !! i = Some w) as Hx.
  { apply rememberTerminal_live; [|done]. unfold s1. case_decide; cbn; by rewrite lookup_insert_ne. }
  cbn zeta. destruct (job_Kind _); [|done]. by destruct (byID (rememberTerminalJobLocked s1 id) !! _).
Qed.

Definition needs_recovery (maxAttempts : Z) (now : Time) (j : CheckJobRecord) : bool :=
  processingExpired j now || failedExhausted j now maxAttempts.

Lemma needs_recovery_live maxAttempts now j : needs_recovery maxAttempts now j = true → job_terminal j = false.
Proof.
  unfold needs_recovery, processingExpired, failedExhausted, job_terminal.
  destruct (job_Status j); cbn; try done; by rewrite ?andb_false_l.
Qed.

Lemma recover_job_step maxAttempts now s id j :
  store_wf s → checkJobs s !! id = Some j →
  store_wf (recover_job maxAttempts now s (id, j))
  ∧ dom (byID (recover_job maxAttempts now s (id, j))) = dom (byID s)
  ∧ ∀ i w, i ≠ id → checkJobs s !! i = Some w → job_terminal w = false →
      checkJobs (recover_job maxAttempts now s (id, j)) !! i = Some w.
Proof.
  intros Hs Hj. unfold recover_job. rewrite <- negb_orb. fold (needs_recovery maxAttempts now j).
  destruct (needs_recovery maxAttempts now j) eqn:Hr; cbn [negb]; [|done].
  apply needs_recovery_live in Hr. destruct (job_lookup _ _ _ Hs Hj) as (Hok & _ & _).
  destruct (maxAttempts <=? job_Attempt j).
  - split; [by apply finishExhaustedJobLocked_wf|]. split; [apply finishExhaustedJobLocked_fields|].
    intros i w. apply finishExhaustedJobLocked_live.
  - split; [|split; [done|intros i w ? ? ?; cbn; by rewrite lookup_insert_ne]].
    eapply put_job_wf; [done|exact Hj|done| |done|done]. idle_job Hok.
Qed.

(** An entry not yet visited is unchanged when it is reached, unless it was
    terminal, and then the loop skips it. *)
Lemma recover_fold maxAttempts now entries s :
  NoDup entries.*1 → store_wf s →
  (∀ id j, (id, j) ∈ entries → job_terminal j = false → checkJobs s !! id = Some j) →
  store_wf (foldl (recover_job maxAttempts now) s entries)
  ∧ dom (byID (foldl (recover_job maxAttempts now) s entries)) = dom (byID s).
Proof.
  revert s. induction entries as [|[id j] rest IH]; intros s Hnd Hs Hcur; [done|].
  cbn in Hnd. apply NoDup_cons in Hnd as [Hid Hnd]. cbn [foldl].
  destruct (job_terminal j) eqn:Hn.
  - assert (recover_job maxAttempts now s (id, j) = s) as ->.
    { unfold recover_job. rewrite <- negb_orb. fold (needs_recovery maxAttempts now j).
      destruct (needs_recovery maxAttempts now j) eqn:Hr; [|done].
      apply needs_recovery_live in Hr. congruence. }
    apply IH; [done..|]. intros i w Hw. apply Hcur. set_solver.
  - assert (checkJobs s !! id = Some j) as Hj by (apply Hcur; [set_solver|done]).
    destruct (recover_job_step maxAttempts now s id j Hs Hj) as (Hs' & Hdom & Hlive).
    rewrite <- Hdom. apply IH; [done..|]. intros i w Hw Hnw. apply Hlive; [|apply Hcur; [set_solver|done]|done].
    intros ->. apply Hid, list_elem_of_fmap. by exists (id, w).
Qed.

Lemma recover_jobs_wf s maxAttempts now :
  store_wf s → store_wf (recover_jobs s maxAttempts now) ∧ dom (byID (recover_jobs s maxAttempts now)) = dom (byID s).
Proof.
  intros Hs. apply recover_fold; [apply NoDup_map_range_keys|done|].
  intros id j Hx _. by apply elem_of_map_range in Hx.
Qed.

(** ** Claiming *)

Lemma claim_jobs_wf limit now lt rnd cands s claimed :
  store_wf s → NoDup (job_ID <$> cands) →
  (∀ j, j ∈ cands → checkJobs s !! job_ID j = Some j ∧ job_terminal j = false
                    ∧ job_Status j ≠ checkJobStatusProcessing) →
  store_wf (claim_jobs limit now lt rnd cands s claimed).1
  ∧ byID (claim_jobs limit now lt rnd cands s claimed).1 = byID s
  ∧ activeJobByMonitor (claim_jobs limit now lt rnd cands s claimed).1 = activeJobByMonitor s.
Proof.
  revert s claimed. induction cands as [|j rest IH]; intros s claimed Hs Hnd Hcur; cbn [claim_jobs]; [done|].
  destruct (limit <=? _); [done|]. cbn in Hnd. apply NoDup_cons in Hnd as [Hid Hnd].
  destruct (Hcur j) as (Hj & Hn & Hp); [set_solver|]. destruct (job_lookup _ _ _ Hs Hj) as (Hok & _ & _).
  cbn zeta. change (job_ID (leased_job j now lt (publish_token rnd claimed))) with (job_ID j).
  match goal with |- context [claim_jobs limit now lt rnd rest ?x ?y] =>
    destruct (IH x y) as (R1 & R2 & R3) end; [| |intros w Hw|].
  - eapply put_job_wf; [done|exact Hj|done| |done|done].
    eapply job_ok_update; [exact Hok|reflexivity..|]. apply lease_ok_idle; cbn; [by eapply job_ok_attempt|done|].
    by eapply idle_token.
  - done.
  - destruct (Hcur w) as (Hw' & ? & ?); [set_solver|]. split; [|done]. cbn.
    rewrite lookup_insert_ne; [done|]. intros Heq. apply Hid. rewrite Heq. apply list_elem_of_fmap. eauto.
  - split; [exact R1|]. split; [exact R2|exact R3].
Qed.

(** A due monitor's new job never takes the identifier of a live job. *)
Lemma scheduled_job_free s m t clk j :
  store_wf s → activeJobByMonitor s !! m = None →
  checkJobs s !! NewCheckJobID m t clk = Some j → job_terminal j = true.
Proof.
  intros Hs Ha Hj. destruct (job_terminal j) eqn:Hn; [done|exfalso].
  destruct (job_lookup _ _ _ Hs Hj) as ((Hid & Hshape & _) & _ & Hact). specialize (Hact Hn).
  unfold job_id_shape in Hshape. destruct (job_Kind j).
  - destruct Hshape as (t' & c' & Hid'). rewrite Hid in Hid'. apply NewCheckJobID_monitor in Hid'. congruence.
  - destruct Hshape as (e & He & Hid'). rewrite Hid in Hid'. by apply NewCheckJobID_not_manual in Hid'.
Qed.

Lemma scheduled_job_ok m now lt clk token :
  job_ok (NewCheckJobID (mon_ID m) (mon_NextCheckAt m) clk) (scheduled_job m now lt clk token).
Proof.
  split; [done|]. split; [by eexists _, _|]. apply lease_ok_idle; done.
Qed.

Lemma claim_monitors_wf limit now lt clk rnd monitors s claimed :
  store_wf s → (∀ m, m ∈ monitors → byID s !! mon_ID m = Some m) →
  store_wf (claim_monitors limit now lt clk rnd monitors s claimed).1
  ∧ byID (claim_monitors limit now lt clk rnd monitors s claimed).1 = byID s.
Proof.
  revert s claimed. induction monitors as [|m rest IH]; intros s claimed Hs Hcur; cbn [claim_monitors]; [done|].
  destruct (limit <=? _); [done|]. destruct (_ || _); [apply IH; [done|set_solver]|].
  destruct (decide _) as [|Ha]; [apply IH; [done|set_solver]|]. apply eq_None_not_Some in Ha.
  cbn zeta. match goal with |- context [claim_monitors limit now lt clk rnd rest ?x ?y] =>
    destruct (IH x y) as (R1 & R2) end.
  - eapply (add_job_wf s _ (scheduled_job m now lt clk (publish_token rnd claimed))); [done|done| | |done|].
    + cbn. rewrite Hcur by set_solver. eauto.
    + apply scheduled_job_ok.
    + intros j'. by apply scheduled_job_free.
  - intros w Hw. cbn. apply Hcur. set_solver.
  - split; [exact R1|exact R2].
Qed.

(** The candidates the claim sorts are the current entries. *)
Lemma jobs_current s j :
  store_wf s → j ∈ (map_range (checkJobs s)).*2 → checkJobs s !! job_ID j = Some j.
Proof.
  intros Hs (id & Hj)%elem_of_map_range_values. by destruct (job_lookup _ _ _ Hs Hj) as ((-> & _) & _).
Qed.

Lemma jobs_ids_NoDup s : store_wf s → NoDup (job_ID <$> (map_range (checkJobs s)).*2).
Proof.
  intros Hs. rewrite map_range_ids; [apply NoDup_map_range_keys|].
  intros id j Hj. by destruct (job_lookup _ _ _ Hs Hj) as ((-> & _) & _).
Qed.

Lemma monitors_current s m :
  store_wf s → m ∈ (map_range (byID s)).*2 → byID s !! mon_ID m = Some m.
Proof. intros Hs (id & Hm)%elem_of_map_range_values. by destruct (sw_monitor _ Hs _ _ Hm) as (-> & _). Qed.

Lemma monitors_ids_NoDup s : store_wf s → NoDup (mon_ID <$> (map_range (byID s)).*2).
Proof.
  intros Hs. rewrite map_range_ids; [apply NoDup_map_range_keys|].
  intros id m Hm. by destruct (sw_monitor _ Hs _ _ Hm) as (-> & _).
Qed.

Lemma claimable_live max now j :
  claimable max now j = true → job_terminal j = false ∧ job_Status j ≠ checkJobStatusProcessing.
Proof. unfold claimable, job_terminal. by destruct (job_Status j). Qed.

(** A claim's limit is one its slice can be made for; one that is not positive
    makes none. *)
Definition claims_fit (limit : Z) : bool := (limit <=? 0) || in_range sizeof_CheckJobRecord limit.

Lemma ClaimDueJobs_panics s limit now lt max clk rnd :
  ClaimDueJobsWithMaxAttempts s limit now lt max clk rnd = None ↔ claims_fit limit = false.
Proof.
  unfold ClaimDueJobsWithMaxAttempts, claims_fit, make_slice. destruct (limit <=? 0); [done|]. cbn [orb]. cbn zeta.
  destruct (in_range _ _); [|done]. destruct (claim_jobs _ _ _ _ _ _ _). by destruct (limit <=? _).
Qed.

Lemma ClaimDueJobs_wf s limit now lt max clk rnd s' claimed :
  store_wf s → ClaimDueJobsWithMaxAttempts s limit now lt max clk rnd = Some (s', claimed) → store_wf s'.
Proof.
  intros Hs. unfold ClaimDueJobsWithMaxAttempts, make_slice. destruct (limit <=? 0); [by intros [= <- <-]|]. cbn zeta.
  set (max' := if max <=? 0 then _ else _). set (lt' := if lt <=? 0 then _ else _).
  destruct (recover_jobs_wf s max' (UTC now) Hs) as [Hs1 _]. set (s1 := recover_jobs s max' (UTC now)) in *.
  set (cands := SortFunc compare_jobs _).
  destruct (claim_jobs_wf limit (UTC now) lt' rnd cands s1 []) as (Hs2 & Hb2 & _); [done| | |].
  - unfold cands. rewrite SortFunc_Permutation. by apply NoDup_fmap_filter, jobs_ids_NoDup.
  - intros j Hj. unfold cands in Hj. rewrite elem_of_SortFunc, elem_of_filter_bool in Hj.
    destruct Hj as [Hj Hc]. split; [by apply jobs_current|by eapply claimable_live].
  - destruct (in_range _ _); [|done]. destruct (claim_jobs _ _ _ _ _ _ _) as [s2 claimed2]. cbn [fst] in *.
    destruct (limit <=? _); [by intros [= <- <-]|]. intros Hc.
    change s' with (s', claimed).1. injection Hc as <-.
    apply claim_monitors_wf; [done|]. intros m Hm. rewrite elem_of_SortFunc in Hm. by apply monitors_current.
Qed.

(** ** Manual jobs, publication and processing *)

Lemma CreateManualJob_wf s id now rnd :
  store_wf s → entropy_ok rnd → checkJobs s !! newID "job" rnd = None →
  store_wf (CreateManualJob s id now rnd).1.
Proof.
  intros Hs He Hfresh. unfold CreateManualJob. destruct (byID s !! id) as [m|] eqn:Hm; [|done].
  destruct (activeJobByMonitor s !! id) as [jobID|] eqn:Ha.
  - destruct (active_job _ _ _ Hs Ha) as (j & -> & _). done.
  - cbn [fst]. match goal with |- context [mkCheckJobRecord ?a ?b ?c ?d ?e ?f ?g ?h ?i ?k ?l ?m ?n ?o ?p ?q] =>
      set (j := mkCheckJobRecord a b c d e f g h i k l m n o p q) end.
    apply (add_job_wf s _ j); [done|done|by eauto| |done|intros j' Hj'; cbn in Hj'; congruence].
    split; [done|]. split; [by exists rnd|]. by apply lease_ok_idle.
Qed.

Lemma publicationJobLocked_Ok s claim j :
  publicationJobLocked s claim = Ok j →
  checkJobs s !! claim_JobID claim = Some j ∧ job_MonitorID j = claim_MonitorID claim
  ∧ claim_Token claim ≠ "" ∧ job_PublicationToken j = claim_Token claim.
Proof.
  unfold publicationJobLocked. destruct (byID s !! _); [|done].
  destruct (checkJobs s !! _) as [j'|]; [|done].
  destruct (String.eqb_spec (job_MonitorID j') (claim_MonitorID claim)); cbn; [|done].
  destruct (String.eqb_spec (claim_Token claim) ""); cbn; [done|].
  destruct (String.eqb_spec (job_PublicationToken j') (claim_Token claim)); cbn; [|done].
  by intros [= ->].
Qed.

Lemma MarkJobPublished_wf s claim now : store_wf s → store_wf (MarkJobPublished s claim now).1.
Proof.
  intros Hs. unfold MarkJobPublished. destruct (publicationJobLocked s claim) as [j|] eqn:Hp; [|done].
  apply publicationJobLocked_Ok in Hp as (Hj & _). destruct (job_lookup _ _ _ Hs Hj) as (Hok & _ & _).
  case_bool_decide as Hst; cbn [negb]; [|done]. cbn zeta. destruct (publication_lapsed _ _ _); [done|]. cbn [fst].
  assert (job_terminal j = false) by by unfold job_terminal; rewrite Hst.
  assert (job_LeaseToken j = "") by by (eapply idle_token; [exact Hok|congruence]).
  eapply put_job_wf; [done|exact Hj|done| |done|done]. idle_job Hok.
Qed.

Lemma ReleaseJobPublish_wf s claim e now : store_wf s → store_wf (ReleaseJobPublish s claim e now).1.
Proof.
  intros Hs. unfold ReleaseJobPublish. destruct (publicationJobLocked s claim) as [j|] eqn:Hp; [|done].
  apply publicationJobLocked_Ok in Hp as (Hj & _). destruct (job_lookup _ _ _ Hs Hj) as (Hok & _ & _).
  case_bool_decide as Hst; cbn [negb]; [|done]. destruct (publication_lapsed _ _ _); [done|]. cbn [fst].
  assert (job_terminal j = false) as Hn by by unfold job_terminal; rewrite Hst.
  assert (job_LeaseToken j = "") by by (eapply idle_token; [exact Hok|congruence]).
  eapply put_job_wf; [done|exact Hj|done| |done|].
  - eapply job_ok_update; [exact Hok|reflexivity..|].
    apply lease_ok_idle; cbn; [by eapply job_ok_attempt|congruence|done].
  - unfold job_terminal. cbn. by rewrite Hst.
Qed.

Lemma RecoverQueuedJobs_wf s now : store_wf s → store_wf (RecoverQueuedJobsAfterTopologyLoss s now).1.
Proof.
  intros Hs. pose proof Hs as [Hm Hu Hj Hi Hc Hp]. split; cbn; try done.
  apply table_map; [done|]. intros id j Hid Hok.
  destruct (lost_with_topology j) eqn:Hl; [|done]. split; [|split; [done|]].
  - idle_job Hok.
  - revert Hl. unfold lost_with_topology, job_terminal. by destruct (job_Status j).
Qed.

Lemma MarkJobProcessing_wf s id jobID attempt now lt rnd :
  store_wf s → store_wf (MarkJobProcessing s id jobID attempt now lt rnd).1.
Proof.
  intros Hs. unfold MarkJobProcessing. destruct (activeJobLocked s id jobID) as [j|] eqn:Ha; [|done].
  apply activeJobLocked_Ok in Ha as (_ & _ & Hj & Hm). destruct (job_lookup _ _ _ Hs Hj) as (Hok & _ & _).
  cbn zeta. destruct (processing_refused j attempt) eqn:Hadm; [done|]. cbn [fst].
  assert (job_terminal j = false) as Hn
    by by (revert Hadm; unfold processing_refused, job_terminal; destruct (job_Status j)).
  eapply put_job_wf; [done|exact Hj|done| |done|done].
  eapply job_ok_update; [exact Hok|reflexivity..|]. apply job_ok_attempt in Hok.
  split; [cbn; lia|]. rewrite decide_True by done. split; [apply newID_nonempty|cbn; lia].
Qed.

Lemma jobOwnsLease_spec j lease now :
  jobOwnsLease j lease now = true ↔
  job_Status j = checkJobStatusProcessing ∧ now < job_LeaseExpiresAt j ∧ job_ID j = lease_JobID lease
  ∧ job_MonitorID j = lease_MonitorID lease ∧ job_Attempt j = lease_Attempt lease
  ∧ job_LeaseToken j ≠ "" ∧ job_LeaseToken j = lease_LeaseToken lease.
Proof.
  unfold jobOwnsLease, After. rewrite !andb_true_iff, negb_true_iff, bool_decide_eq_true, Z.ltb_lt, Z.eqb_eq.
  rewrite !String.eqb_eq, String.eqb_neq. tauto.
Qed.

Lemma MarkJobFailed_wf s lease e now retryAt clk :
  store_wf s → store_wf (MarkJobFailed s lease e now retryAt clk).1.
Proof.
  intros Hs. unfold MarkJobFailed. destruct (activeJobLocked _ _ _) as [j|] eqn:Ha; [|done].
  apply activeJobLocked_Ok in Ha as (_ & _ & Hj & Hm). destruct (job_lookup _ _ _ Hs Hj) as (Hok & _ & _).
  destruct (jobOwnsLease j lease now) eqn:Ho; cbn [negb orb]; [|done].
  destruct (After _ clk); cbn [negb]; [|done]. apply jobOwnsLease_spec in Ho as (Hst & _).
  eapply put_job_wf; [done|exact Hj| | |done|done]; [by unfold job_terminal; rewrite Hst|].
  idle_job Hok.
Qed.

Lemma MarkJobDead_wf s lease e now next clk :
  store_wf s → store_wf (MarkJobDead s lease e now next clk).1.
Proof.
  intros Hs. unfold MarkJobDead. destruct (byID s !! lease_MonitorID lease) as [m|] eqn:Hb; [|done].
  destruct (activeJobLocked _ _ _) as [j|] eqn:Ha; [|done].
  apply activeJobLocked_Ok in Ha as (_ & _ & Hj & Hm). destruct (job_lookup _ _ _ Hs Hj) as (Hok & _ & _).
  destruct (jobOwnsLease j lease now) eqn:Ho; cbn [negb orb]; [|done].
  destruct (After _ clk); cbn [negb]; [|done]. apply jobOwnsLease_spec in Ho as (Hst & _).
  cbn zeta. rewrite <- Hm.
  match goal with |- context [rememberTerminalJobLocked ?x ?y] => set (s1 := x) end.
  assert (store_wf (rememberTerminalJobLocked s1 (lease_JobID lease))) as Hs1.
  { eapply (finish_job_wf s _ j _ Hs Hj); [by unfold job_terminal; rewrite Hst| |done|done]. idle_job Hok. }
  destruct (rememberTerminal_fields s1 (lease_JobID lease)) as (P1 & P2 & _).
  change (job_Kind (_ <| job_UpdatedAt := UTC now |>)) with (job_Kind j).
  destruct (job_Kind j); cbn [fst]; [|done]. rewrite <- Hm in Hb.
  destruct (sw_monitor _ Hs _ _ Hb) as (? & ? & ?).
  eapply put_monitor_wf; [done|by rewrite P2|done|done|]. by rewrite P1.
Qed.

Lemma updateIncident_wf s record now rnd :
  store_wf s → is_Some (byID s !! rec_MonitorID record) → incidents s !! newID "inc" rnd = None →
  store_wf (updateIncident s record now rnd).
Proof.
  intros Hs Hm Hfresh. unfold updateIncident.
  destruct (rec_Success record); destruct (openIncidentByMonitor s !! rec_MonitorID record) as [id|] eqn:Ho;
    [|done|..].
  - destruct (open_incident _ _ _ Hs Ho) as (i & Hi & Him & Hn & Hok). rewrite Hi. cbn [default]. rewrite <- Him.
    by apply (resolve_incident_wf s id i).
  - destruct (open_incident _ _ _ Hs Ho) as (i & Hi & Him & Hn & Hok). rewrite Hi. cbn [default].
    by apply (put_incident_wf s id i).
  - cbn zeta. match goal with |- context [mkIncident ?a ?b ?c ?d ?e ?f ?g ?h ?i ?j ?k ?l] =>
      set (i0 := mkIncident a b c d e f g h i j k l) end.
    by apply (add_incident_wf s _ i0).
Qed.

Lemma retained_checks_spec records :
  Z.of_nat (length (retained_checks records)) <= maxChecksPerMonitor
  ∧ ∃ k, retained_checks records = drop k records.
Proof.
  unfold retained_checks, maxChecksPerMonitor. destruct (Z.ltb_spec 500 (Z.of_nat (length records))).
  - rewrite length_drop. split; [lia|by eexists].
  - split; [done|by exists 0%nat].
Qed.

(** ** Recording a result *)

Lemma rememberProcessed_spec s id :
  store_wf s → id ∉ processedJobs s → ∃ seen order head,
  let s' := s <| processedJobs := seen |> <| processedJobOrder := order |> <| processedJobHead := head |> in
  rememberProcessedJobLocked s id = Some s' ∧ store_wf s' ∧ id ∈ seen ∧ seen ⊆ {[id]} ∪ processedJobs s.
Proof.
  intros Hs Hid. unfold rememberProcessedJobLocked. rewrite decide_False by done.
  destruct (processed_remember maxProcessedJobIDs (processedJobs s) (processedJobOrder s) (processedJobHead s) id)
    as (seen & h & order & h' & Hev & Hco & Hwf & Hin & Hsub); [done|apply Hs|done|].
  cbn zeta. rewrite Hev, Hco. exists seen, order, h'. split; [done|]. split; [|done].
  destruct Hs. by split.
Qed.

(** The state and the answer of a result that is accepted. *)
Definition accept_check (s : MonitorStore) (record : CheckRecord) (monitor : Monitor) (job : CheckJobRecord)
    (now : Time) (rnd : Entropy) : MonitorStore :=
  let s := s <| checkJobs := <[rec_JobID record := completed_job job now]> (checkJobs s) |> in
  let s := s <| activeJobByMonitor := delete (rec_MonitorID record) (activeJobByMonitor s) |> in
  let s := rememberTerminalJobLocked s (rec_JobID record) in
  let s := s <| byID := <[rec_MonitorID record := checked_monitor monitor record (job_Kind job) now]> (byID s) |> in
  let s := s <| checks := <[rec_MonitorID record :=
      retained_checks (default [] (checks s !! rec_MonitorID record) ++ [record])]> (checks s) |> in
  updateIncident s record now rnd.

Lemma checked_monitor_fields m r k now :
  let m' := checked_monitor m r k now in
  mon_ID m' = mon_ID m ∧ mon_URL m' = mon_URL m ∧ mon_IntervalSeconds m' = mon_IntervalSeconds m
  ∧ mon_TimeoutSeconds m' = mon_TimeoutSeconds m ∧ mon_ExpectedStatus m' = mon_ExpectedStatus m
  ∧ mon_Status m' = mon_Status m ∧ mon_Enabled m' = mon_Enabled m.
Proof. by destruct k. Qed.

Lemma checked_monitor_ok p m r k now : monitor_ok p m → monitor_ok p (checked_monitor m r k now).
Proof.
  destruct (checked_monitor_fields m r k now) as (_ & E1 & E2 & E3 & E4 & E5 & E6).
  unfold monitor_ok. by rewrite E1, E2, E3, E4, E5, E6.
Qed.

Lemma put_checks_wf s id l :
  store_wf s → is_Some (byID s !! id) → Z.of_nat (length l) <= maxChecksPerMonitor →
  Forall (λ r, rec_MonitorID r = id) l → store_wf (s <| checks := <[id := l]> (checks s) |>).
Proof.
  intros [Hm Hu Hj Hi Hc Hp] ???. split; cbn; try done.
  intros i k [[<- <-]|[_ Hx]]%lookup_insert_Some; [done|by apply Hc].
Qed.

Lemma accept_check_wf s record m j clk rnd :
  store_wf s → byID s !! rec_MonitorID record = Some m → checkJobs s !! rec_JobID record = Some j →
  job_MonitorID j = rec_MonitorID record → job_Status j = checkJobStatusProcessing →
  incidents s !! newID "inc" rnd = None → store_wf (accept_check s record m j clk rnd).
Proof.
  intros Hs Hb Hj Hmon Hst Hfresh. destruct (job_lookup _ _ _ Hs Hj) as (Hok & _ & _).
  unfold accept_check. cbn zeta.
  match goal with |- context [rememberTerminalJobLocked ?x ?y] => set (s1 := x) end.
  assert (store_wf (rememberTerminalJobLocked s1 (rec_JobID record))) as Hs1.
  { unfold s1. rewrite <- Hmon.
    eapply (finish_job_wf s _ j _ Hs Hj); [by unfold job_terminal; rewrite Hst| |done|done]. idle_job Hok. }
  destruct (rememberTerminal_fields s1 (rec_JobID record)) as (P1 & P2 & P3 & P4 & P5 & P6 & P7 & P8).
  set (s2 := rememberTerminalJobLocked s1 (rec_JobID record)) in *.
  assert (byID s2 !! rec_MonitorID record = Some m) as Hb2 by by rewrite P2.
  destruct (sw_monitor _ Hs _ _ Hb) as (Hid & _ & Hmok).
  destruct (checked_monitor_fields m record (job_Kind j) clk) as (E1 & E2 & _).
  set (m' := checked_monitor m record (job_Kind j) clk) in *.
  assert (store_wf (s2 <| byID := <[rec_MonitorID record := m']> (byID s2) |>)) as Hs3.
  { eapply put_monitor_wf; [done|exact Hb2|congruence|done|]. rewrite P1. by apply checked_monitor_ok. }
  set (s3 := s2 <| byID := <[rec_MonitorID record := m']> (byID s2) |>) in *.
  assert (is_Some (byID s3 !! rec_MonitorID record)) as Hb3 by (cbn; rewrite lookup_insert_eq; eauto).
  set (l := default [] (checks s3 !! rec_MonitorID record) ++ [record]).
  destruct (retained_checks_spec l) as [Hlen [k Hk]].
  apply updateIncident_wf; [|done|by change (incidents s2 !! newID "inc" rnd = None); rewrite P6].
  apply put_checks_wf; [done..|]. rewrite Hk. apply Forall_drop. unfold l. apply Forall_app.
  split; [|by apply Forall_singleton]. destruct (checks s3 !! _) as [l0|] eqn:Hl; [|constructor].
  by apply (sw_checks _ Hs3) in Hl as (_ & _ & ?).
Qed.

(** Every branch of [AddCheck]. *)
Lemma AddCheck_cases s record lease clk rnd :
  store_wf s →
  (∃ m err, AddCheck s record lease clk rnd = Some (s, m, Some err))
  ∨ (∃ m0 j seen order head,
    let s1 := s <| processedJobs := seen |> <| processedJobOrder := order |> <| processedJobHead := head |> in
    byID s !! rec_MonitorID record = Some m0 ∧ checkJobs s !! rec_JobID record = Some j
    ∧ job_MonitorID j = rec_MonitorID record ∧ jobOwnsLease j lease clk = true
    ∧ rec_JobID record ∉ processedJobs s ∧ rec_JobID record ∈ seen ∧ store_wf s1
    ∧ AddCheck s record lease clk rnd
      = Some (accept_check s1 record m0 j clk rnd, Some (checked_monitor m0 record (job_Kind j) clk), None)).
Proof.
  intros Hs. unfold AddCheck.
  destruct (byID s !! rec_MonitorID record) as [m0|] eqn:Hb; [|by left; eexists _, _].
  destruct (String.eqb_spec (rec_JobID record) ""); [by left; eexists _, _|].
  destruct (checkJobs s !! rec_JobID record) as [j|] eqn:Hj; [|by left; eexists _, _].
  destruct (String.eqb_spec (job_MonitorID j) (rec_MonitorID record)); cbn [negb]; [|by left; eexists _, _].
  destruct (bool_decide _); [by left; eexists _, _|]. cbn zeta.
  destruct (jobOwnsLease j lease (UTC clk)) eqn:Ho; cbn [negb]; [|by left; eexists _, _].
  destruct (decide _) as [|Hproc]; [by left; eexists _, _|].
  destruct (rememberProcessed_spec s _ Hs Hproc) as (seen & order & head & -> & Hwf & Hin & _).
  right. exists m0, j, seen, order, head. done.
Qed.

Lemma AddCheck_wf s record lease clk rnd :
  store_wf s → incidents s !! newID "inc" rnd = None →
  ∃ s' m err, AddCheck s record lease clk rnd = Some (s', m, err) ∧ store_wf s'.
Proof.
  intros Hs Hfresh. destruct (AddCheck_cases s record lease clk rnd Hs) as [(m & err & ->)|Hacc]; [by eauto 10|].
  destruct Hacc as (m0 & j & seen & order & head & Hb & Hj & Hm & Ho & _ & _ & Hwf & ->).
  eexists _, _, _. split; [done|]. apply jobOwnsLease_spec in Ho as (Hst & _). by apply accept_check_wf.
Qed.

(** ** The store as a state machine *)

Inductive StoreOp :=
| OpCreate (input : MonitorInput) (clk : Time) (rnd : Entropy)
| OpUpdate (id : string) (patch : MonitorPatch) (clk : Time)
| OpDelete (id : string)
| OpClaimDueJobs (limit : Z) (now : Time) (leaseTimeout maxAttempts : Z) (clk : Time) (rnd : nat → Entropy)
| OpCreateManualJob (id : string) (now : Time) (rnd : Entropy)
| OpMarkJobPublished (claim : PublicationClaim) (now : Time)
| OpReleaseJobPublish (claim : PublicationClaim) (lastError : string) (now : Time)
| OpRecoverQueuedJobs (now : Time)
| OpMarkJobProcessing (id jobID : string) (attempt : Z) (now : Time) (leaseTimeout : Z) (rnd : Entropy)
| OpMarkJobFailed (lease : ProcessingLease) (lastError : string) (now retryAt : Time) (clk : Time)
| OpMarkJobDead (lease : ProcessingLease) (lastError : string) (now nextCheckAt : Time) (clk : Time)
| OpAddCheck (record : CheckRecord) (lease : ProcessingLease) (clk : Time) (rnd : Entropy).

(** The next store; [None] when the call panics. *)
Definition apply_op (s : MonitorStore) (op : StoreOp) : option MonitorStore :=
  match op with
  | OpCreate input clk rnd => Some (Create s input clk rnd).1
  | OpUpdate id patch clk => Some (Update s id patch clk).1
  | OpDelete id => Some (Delete s id).1
  | OpClaimDueJobs limit now lt maxAttempts clk rnd =>
      fst <$> ClaimDueJobsWithMaxAttempts s limit now lt maxAttempts clk rnd
  | OpCreateManualJob id now rnd => Some (CreateManualJob s id now rnd).1
  | OpMarkJobPublished claim now => Some (MarkJobPublished s claim now).1
  | OpReleaseJobPublish claim e now => Some (ReleaseJobPublish s claim e now).1
  | OpRecoverQueuedJobs now => Some (RecoverQueuedJobsAfterTopologyLoss s now).1
  | OpMarkJobProcessing id jobID attempt now lt rnd => Some (MarkJobProcessing s id jobID attempt now lt rnd).1
  | OpMarkJobFailed lease e now retryAt clk => Some (MarkJobFailed s lease e now retryAt clk).1
  | OpMarkJobDead lease e now next clk => Some (MarkJobDead s lease e now next clk).1
  | OpAddCheck record lease clk rnd => (λ r, r.1.1) <$> AddCheck s record lease clk rnd
  end.

(** The 128-bit identifiers an operation draws are new. *)
Definition draws_fresh (s : MonitorStore) (op : StoreOp) : Prop :=
  match op with
  | OpCreate _ _ rnd => byID s !! newMonitorID rnd = None
  | OpCreateManualJob _ _ rnd => entropy_ok rnd ∧ checkJobs s !! newID "job" rnd = None
  | OpAddCheck _ _ _ rnd => incidents s !! newID "inc" rnd = None
  | _ => True
  end.

(** A claim whose limit no slice can be made for. *)
Definition oversized (op : StoreOp) : Prop :=
  match op with OpClaimDueJobs limit _ _ _ _ _ => claims_fit limit = false | _ => False end.

#[export] Instance oversized_dec op : Decision (oversized op).
Proof. destruct op; cbn; apply _. Defined.

(** The one way an operation panics. *)
Lemma apply_op_total s op :
  store_wf s → draws_fresh s op →
  (oversized op ∧ apply_op s op = None) ∨ (¬ oversized op ∧ ∃ s', apply_op s op = Some s' ∧ store_wf s').
Proof.
  intros Hs Hf. destruct op; cbn [apply_op draws_fresh oversized] in *.
  4: { destruct (ClaimDueJobsWithMaxAttempts s limit now leaseTimeout maxAttempts clk rnd) as [[s' claimed]|] eqn:Hc.
       - right. split; [intros Ho; apply (ClaimDueJobs_panics s limit now leaseTimeout maxAttempts clk rnd) in Ho; congruence|].
         exists s'. split; [done|]. by eapply ClaimDueJobs_wf.
       - left. by apply ClaimDueJobs_panics in Hc. }
  11: { right. split; [tauto|]. destruct (AddCheck_wf s record lease clk rnd Hs Hf) as (s' & m & err & -> & Hwf). by exists s'. }
  all: right; split; [tauto|]; eexists; split; [reflexivity|].
  - by apply Create_wf.
  - by apply Update_wf.
  - by apply Delete_wf.
  - destruct Hf. by apply CreateManualJob_wf.
  - by apply MarkJobPublished_wf.
  - by apply ReleaseJobPublish_wf.
  - by apply RecoverQueuedJobs_wf.
  - by apply MarkJobProcessing_wf.
  - by apply MarkJobFailed_wf.
  - by apply MarkJobDead_wf.
Qed.

Lemma apply_op_wf s op s' : store_wf s → draws_fresh s op → apply_op s op = Some s' → store_wf s'.
Proof.
  intros Hs Hf Hop. destruct (apply_op_total s op Hs Hf) as [[_ Hn]|(_ & s1 & Heq & ?)]; congruence.
Qed.

(** The stores a program can reach from [NewMonitorStore p]. *)
Inductive reachable (p : NetworkPolicy) : MonitorStore → Prop :=
| reachable_new : reachable p (NewMonitorStore p)
| reachable_step s op s' : reachable p s → draws_fresh s op → apply_op s op = Some s' → reachable p s'.

Lemma reachable_wf p s : reachable p s → store_wf s.
Proof.
  induction 1 as [|s op s' _ IH Hf Hop]; [apply NewMonitorStore_wf|].
  by eapply apply_op_wf.
Qed.

Fixpoint run (s : MonitorStore) (ops : list StoreOp) : option MonitorStore :=
  match ops with
  | [] => Some s
  | op :: rest => match apply_op s op with Some s => run s rest | None => None end
  end.

Fixpoint run_fresh (s : MonitorStore) (ops : list StoreOp) : Prop :=
  match ops with
  | [] => True
  | op :: rest => draws_fresh s op ∧ match apply_op s op with Some s => run_fresh s rest | None => True end
  end.

(** A run ends in a store in order, or panics at the first oversized claim. *)
Lemma run_wf s ops :
  store_wf s → run_fresh s ops →
  (Exists oversized ops ∧ run s ops = None)
  ∨ (Forall (λ op, ¬ oversized op) ops ∧ ∃ s', run s ops = Some s' ∧ store_wf s').
Proof.
  revert s. induction ops as [|op ops IH]; intros s Hs Hf; cbn in *; [right; split; [constructor|by eauto]|].
  destruct Hf as [Hf Hrest]. destruct (apply_op_total s op Hs Hf) as [[Ho Hn]|(Ho & s' & Hop & Hs')].
  - left. split; [by apply Exists_cons_hd|by rewrite Hn].
  - rewrite Hop in *. destruct (IH s' Hs' Hrest) as [[He Hn]|[Hall Hr]].
    + left. split; [by apply Exists_cons_tl|done].
    + right. split; [by constructor|done].
Qed.
End invariant.
