(* ===== verification/Sample.v ===== *)
(** * A small concrete run of the store

    One monitor is created, its first check is claimed, published and started
    by a worker.  The theorems about the store are applied to these states. *)

From stdpp Require Import base list gmap strings.
From Stdlib Require Import ZArith Lia Ascii.
From S2P Require Import Prelude GoNum GoStrings NetworkPolicy Egress Domain History Store StoreInv.
#[local] Open Scope string_scope.
#[local] Open Scope list_scope.
#[local] Open Scope Z_scope.

(** ASCII lower-casing, a parser that accepts one site, and the map order of
    the finite-map library. *)
Definition sample_unicode : Unicode := {| unicode_ToLower s := s |}.
Definition sample_url (raw : string) : option URL :=
  if HasPrefix raw "https://a.example/" then Some {| Scheme := "https"; User := None; Host := "a.example" |} else None.
Definition sample_parser : URLParser := {| url_Parse := sample_url; url_ParseRequestURI := sample_url |}.
#[export] Existing Instances sample_unicode sample_parser list_order.

Definition sample_rnd (k : Z) : Entropy := RandBytes (repeat k 16).
(** 1 January 2025. *)
Definition sample_now : Time := 63871286400 * Second.
Definition sample_input : MonitorInput :=
  {| in_URL := "https://a.example/health"; in_IntervalSeconds := 60; in_TimeoutSeconds := 10;
     in_ExpectedStatus := 200; in_Enabled := None |}.
Definition sample_monitor : string := newMonitorID (sample_rnd 1).
Definition sample_job : string := NewCheckJobID sample_monitor sample_now sample_now.
Definition sample_claim : PublicationClaim :=
  {| claim_JobID := sample_job; claim_MonitorID := sample_monitor; claim_Attempt := 0;
     claim_Token := newID "publish" (sample_rnd 2) |}.
Definition sample_lease : ProcessingLease :=
  {| lease_JobID := sample_job; lease_MonitorID := sample_monitor; lease_Attempt := 1;
     lease_LeaseToken := newID "lease" (sample_rnd 3) |}.
Definition sample_record (ok : bool) : CheckRecord :=
  {| rec_ID := "chk_1"; rec_JobID := sample_job; rec_MonitorID := sample_monitor;
     rec_StatusCode := if ok then 200 else 503; rec_LatencyMS := 12; rec_Error := "";
     rec_Success := ok; rec_CheckedAt := sample_now + 3 * Second |}.

Definition sample_ops : list StoreOp :=
  [ OpCreate sample_input sample_now (sample_rnd 1);
    OpClaimDueJobs 5 (sample_now + Second) Minute 3 sample_now (λ _, sample_rnd 2);
    OpMarkJobPublished sample_claim (sample_now + Second);
    OpMarkJobProcessing sample_monitor sample_job 1 (sample_now + 2 * Second) Minute (sample_rnd 3);
    OpAddCheck (sample_record false) sample_lease (sample_now + 3 * Second) (sample_rnd 4) ].

(** The state after the first [n] operations. *)
Definition sample (n : nat) : MonitorStore :=
  default (NewMonitorStore default_policy) (run (NewMonitorStore default_policy) (take n sample_ops)).

Lemma sample_fresh : run_fresh (NewMonitorStore default_policy) sample_ops.
Proof. vm_compute. tauto. Qed.

Lemma run_fresh_take s ops n : run_fresh s ops → run_fresh s (take n ops).
Proof.
  revert s n. induction ops as [|op ops IH]; intros s [|n]; cbn; try done.
  intros [Hf Hr]. split; [done|]. destruct (apply_op s op); [by apply IH|done].
Qed.

Lemma run_reachable p s ops s' : reachable p s → run_fresh s ops → run s ops = Some s' → reachable p s'.
Proof.
  revert s. induction ops as [|op ops IH]; intros s Hs; cbn; [by intros _ [= ->]|].
  intros [Hf Hr]. destruct (apply_op s op) as [s1|] eqn:Hop; [|done].
  apply IH; [by eapply reachable_step|done].
Qed.

Lemma sample_reachable n : reachable default_policy (sample n).
Proof.
  unfold sample. destruct (run _ (take n sample_ops)) as [s|] eqn:Hr; cbn [default]; [|constructor].
  eapply run_reachable; [constructor|apply run_fresh_take, sample_fresh|done].
Qed.

Lemma sample_wf n : store_wf (sample n).
Proof. eapply reachable_wf, sample_reachable. Qed.
