(* ===== verification/StoreJobs.v ===== *)
(** * The life of a check job in the store

    [job_step] is the specification: the transitions a job may make.  Every
    operation of the store implements it ([jobs_evolve]); the rest of the file
    states what holds of the individual operations: fencing by leases, claims,
    publication, recovery. *)

From stdpp Require Import base list gmap strings relations.
From Stdlib Require Import ZArith Lia Ascii.
From S2P Require Import Prelude GoNum GoStrings NetworkPolicy Egress Domain History Lifecycle Store StoreInv.
#[local] Open Scope string_scope.
#[local] Open Scope list_scope.
#[local] Open Scope Z_scope.

Definition live (j : CheckJobRecord) : Prop := job_terminal j = false.

(** The identity of a job never changes. *)
Definition same_job (j j' : CheckJobRecord) : Prop :=
  job_ID j' = job_ID j ∧ job_MonitorID j' = job_MonitorID j ∧ job_Kind j' = job_Kind j
  ∧ job_ScheduledFor j' = job_ScheduledFor j ∧ job_CreatedAt j' = job_CreatedAt j.

Inductive job_step (j j' : CheckJobRecord) : Prop :=
| step_claim :         (* the scheduler takes the job for publication *)
    same_job j j' → job_Status j = checkJobStatusScheduled ∨ job_Status j = checkJobStatusFailed →
    job_Status j' = checkJobStatusScheduled → job_Attempt j' = job_Attempt j → job_step j j'
| step_publish :       (* the broker confirmed the message *)
    same_job j j' → job_Status j = checkJobStatusScheduled →
    job_Status j' = checkJobStatusQueued → job_Attempt j' = job_Attempt j → job_step j j'
| step_start :         (* a worker starts a new attempt *)
    same_job j j' → job_Status j = checkJobStatusScheduled ∨ job_Status j = checkJobStatusQueued →
    job_Status j' = checkJobStatusProcessing → job_Attempt j < job_Attempt j' → job_step j j'
| step_fail :          (* the attempt failed, its lease expired, or the message was lost *)
    same_job j j' → live j →
    job_Status j ≠ checkJobStatusFailed →
    job_Status j' = checkJobStatusFailed → job_Attempt j' = job_Attempt j → job_step j j'
| step_complete :      (* the result was recorded *)
    same_job j j' → job_Status j = checkJobStatusProcessing →
    job_Status j' = checkJobStatusCompleted → job_Attempt j' = job_Attempt j → job_step j j'
| step_die :           (* attempts exhausted, or the monitor was disabled or changed *)
    same_job j j' → live j →
    job_Status j' = checkJobStatusDead → job_Attempt j' = job_Attempt j → job_step j j'.

Definition new_job (j : CheckJobRecord) : Prop := job_Status j = checkJobStatusScheduled ∧ job_Attempt j = 0.

Definition is_terminal (j : CheckJobRecord) : Prop := job_terminal j = true.

(** A terminal job's identifier may be taken by a new job of the same monitor. *)
Definition job_move : relation CheckJobRecord := move job_step new_job is_terminal.

(** How the table of jobs changes ([Lifecycle]). *)
Definition jobs_evolve : relation (gmap string CheckJobRecord) := evolve job_step new_job is_terminal.
Definition jobs_kept : relation (gmap string CheckJobRecord) := kept job_step new_job is_terminal.
Definition evolves : relation (gmap string CheckJobRecord) := Lifecycle.evolves job_step new_job is_terminal.

Lemma job_step_live j j' : job_step j j' → live j.
Proof. unfold live, job_terminal. by destruct 1 as [? [-> | ->]|? ->|? [-> | ->]|? ?|? ->|? ?]. Qed.

Lemma job_step_mono j j' : job_step j j' → same_job j j' ∧ job_Attempt j <= job_Attempt j'.
Proof. destruct 1; split; (done || lia). Qed.

(** Terminal jobs stay as they are until their identifier is reused. *)
Lemma terminal_absorbing j j' : job_terminal j = true → rtc job_step j j' → j' = j.
Proof.
  intros Ht Hr. revert Ht. destruct Hr as [|x y z Hs _]; [done|]. intros Ht.
  apply job_step_live in Hs. unfold live in Hs. congruence.
Qed.

#[export] Instance evolves_preorder : PreOrder evolves.
Proof. unfold evolves. apply _. Qed.
Lemma evolves_refl m : evolves m m.
Proof. reflexivity. Qed.
Lemma evolves_trans m1 m2 m3 : evolves m1 m2 → evolves m2 m3 → evolves m1 m3.
Proof. apply transitivity. Qed.
Lemma evolves_put m id j j' : m !! id = Some j → job_step j j' → evolves m (<[id := j']> m).
Proof. apply rows_evolve_put. Qed.
Lemma evolves_new m id j' : (∀ j, m !! id = Some j → job_terminal j = true) → new_job j' → evolves m (<[id := j']> m).
Proof. apply rows_evolve_new. Qed.

Lemma evolves_map m (f : CheckJobRecord → CheckJobRecord) :
  (∀ id j, m !! id = Some j → f j = j ∨ job_step j (f j)) → evolves m (f <$> m).
Proof.
  intros Hf. apply evolves_pointwise; [|by rewrite dom_fmap].
  intros id w. rewrite lookup_fmap, fmap_Some. intros (j & Hj & ->). eauto.
Qed.

Lemma evolves_remember limit m order head id m' order' head' :
  remember limit job_terminal m order head id = (m', order', head') → evolves m m'.
Proof.
  intros [Hsub Hlive]%remember_spec. split.
  - intros i w Hw%Hsub. left. by exists w.
  - intros i w Hw Hn. exists w. split; [done|]. destruct (job_terminal w) eqn:Ht; [done|].
    rewrite (Hlive _ _ Hw Ht) in Hn. done.
Qed.

Lemma evolves_rememberTerminal s id : evolves (checkJobs s) (checkJobs (rememberTerminalJobLocked s id)).
Proof.
  unfold rememberTerminalJobLocked. destruct (remember _ _ _ _ _ _) as [[? ?] ?] eqn:Hr.
  by apply evolves_remember in Hr.
Qed.

(** ** Every operation moves jobs along *)

Section evolve.
Context `{!Unicode, !URLParser, !MapRange}.

Lemma active_live s m id j :
  store_wf s → activeJobByMonitor s !! m = Some id → checkJobs s !! id = Some j → live j.
Proof. intros Hs Ha Hj. destruct (active_job _ _ _ Hs Ha) as (? & ? & _ & ? & _). by simplify_eq. Qed.

Lemma finishActive_evolves s m e now :
  store_wf s → evolves (checkJobs s) (checkJobs (finishActiveJobLocked s m checkJobStatusDead e now)).
Proof.
  intros Hs. unfold finishActiveJobLocked. destruct (activeJobByMonitor s !! m) as [id|] eqn:Ha; [|done].
  destruct (checkJobs s !! id) as [j|] eqn:Hj; [|done]. cbn [terminal_status]. cbn zeta.
  etrans; [|apply evolves_rememberTerminal]. cbn. eapply evolves_put; [exact Hj|].
  apply step_die; [done|by eapply active_live|done..].
Qed.

Lemma resolveOpenIncidentLocked_jobs s m now : checkJobs (resolveOpenIncidentLocked s m now) = checkJobs s.
Proof.
  unfold resolveOpenIncidentLocked. destruct (openIncidentByMonitor s !! m); [|done].
  destruct (incidents s !! _); [|done]. cbn zeta.
  match goal with |- context [rememberResolvedIncidentLocked ?x ?y] =>
    by destruct (rememberResolved_fields x y) as (_ & _ & _ & _ & -> & _) end.
Qed.

Lemma Update_evolves s id patch clk :
  store_wf s → evolves (checkJobs s) (checkJobs (Update s id patch clk).1).
Proof.
  intros Hs. unfold Update. destruct (byID s !! id) as [m|]; [|done].
  destruct (validateMonitorInput _ _); [done|]. set (upd := apply_patch m patch).
  destruct (match byURL s !! _ with Some _ => _ | None => _ end); [done|].
  set (u := if String.eqb (mon_URL upd) (mon_URL m) then byURL s
            else <[mon_URL upd := id]> (delete (mon_URL m) (byURL s))).
  replace (if String.eqb (mon_URL upd) (mon_URL m) then s
           else s <| byURL := <[mon_URL upd := id]> (delete (mon_URL m) (byURL s)) |>)
    with (s <| byURL := u |>) by (unfold u; destruct (String.eqb _ _); [by destruct s|done]).
  cbn zeta. change (mon_Enabled (upd <| mon_UpdatedAt := UTC clk |>)) with (mon_Enabled upd).
  destruct (mon_Enabled upd) eqn:Hen; destruct (checkSemanticsChanged upd m);
    cbn -[resolveOpenIncidentLocked finishActiveJobLocked upd]; rewrite ?Hen; try done.
  - rewrite resolveOpenIncidentLocked_byURL, finishActiveJobLocked_byURL. cbn [checkJobs set_field].
    rewrite <- (resolveOpenIncidentLocked_jobs s id (UTC clk)) at 1.
    by apply finishActive_evolves, resolveOpenIncidentLocked_wf.
  - rewrite finishActiveJobLocked_byURL, resolveOpenIncidentLocked_byURL. cbn [checkJobs set_field].
    change (evolves (checkJobs s) (checkJobs (resolveOpenIncidentLocked
      (finishActiveJobLocked s id checkJobStatusDead "monitor disabled" (UTC clk)) id (UTC clk)))).
    rewrite resolveOpenIncidentLocked_jobs. by apply finishActive_evolves.
  - rewrite finishActiveJobLocked_byURL. by apply (finishActive_evolves s).
Qed.

Lemma Delete_evolves s id : jobs_evolve (checkJobs s) (checkJobs (Delete s id).1).
Proof.
  unfold Delete. destruct (byID s !! id) as [m|]; [|apply evolves_refl].
  intros i j. destruct (activeJobByMonitor s !! id) as [jobID|] eqn:Ha; cbn -[filter]; rewrite ?Ha; cbn -[filter].
  - intros [[_ Hj]%lookup_delete_Some _]%map_lookup_filter_Some. left. by exists j.
  - intros [Hj _]%map_lookup_filter_Some. left. by exists j.
Qed.

Lemma finishExhausted_evolves s id j e now :
  checkJobs s !! id = Some j → live j → evolves (checkJobs s) (checkJobs (finishExhaustedJobLocked s id j e now)).
Proof.
  intros Hj Hn. unfold finishExhaustedJobLocked. set (s1 := if decide _ then _ else _).
  assert (evolves (checkJobs s) (checkJobs (rememberTerminalJobLocked s1 id))) as He.
  { etrans; [|apply evolves_rememberTerminal]. unfold s1. case_decide; cbn;
      (eapply evolves_put; [exact Hj|by apply step_die]). }
  cbn zeta. destruct (job_Kind _); [|done]. by destruct (byID (rememberTerminalJobLocked s1 id) !! _).
Qed.

Lemma recover_job_evolves maxAttempts now s id j :
  checkJobs s !! id = Some j → evolves (checkJobs s) (checkJobs (recover_job maxAttempts now s (id, j))).
Proof.
  intros Hj. unfold recover_job. rewrite <- negb_orb. fold (needs_recovery maxAttempts now j).
  destruct (needs_recovery maxAttempts now j) eqn:Hr; cbn [negb]; [|done].
  apply needs_recovery_live in Hr as Hn. destruct (maxAttempts <=? job_Attempt j) eqn:Hmax.
  - by apply finishExhausted_evolves.
  - cbn. eapply evolves_put; [exact Hj|]. apply step_fail; try done.
    unfold needs_recovery, processingExpired, failedExhausted in Hr. rewrite Hmax, !andb_false_r, orb_false_r in Hr.
    by destruct (job_Status j).
Qed.

Lemma recover_fold_evolves maxAttempts now entries s :
  NoDup entries.*1 → store_wf s →
  (∀ id j, (id, j) ∈ entries → job_terminal j = false → checkJobs s !! id = Some j) →
  evolves (checkJobs s) (checkJobs (foldl (recover_job maxAttempts now) s entries)).
Proof.
  revert s. induction entries as [|[id j] rest IH]; intros s Hnd Hs Hcur; [done|].
  cbn in Hnd. apply NoDup_cons in Hnd as [Hid Hnd]. cbn [foldl].
  destruct (job_terminal j) eqn:Hn.
  - assert (recover_job maxAttempts now s (id, j) = s) as ->.
    { unfold recover_job. rewrite <- negb_orb. fold (needs_recovery maxAttempts now j).
      destruct (needs_recovery maxAttempts now j) eqn:Hr; [|done].
      apply needs_recovery_live in Hr. congruence. }
    apply IH; [done..|]. intros i w Hw. apply Hcur. set_solver.
  - assert (checkJobs s !! id = Some j) as Hj by (apply Hcur; [set_solver|done]).
    destruct (recover_job_step maxAttempts now s id j Hs Hj) as (Hs' & _ & Hlive).
    etrans; [by apply recover_job_evolves|]. apply IH; [done..|].
    intros i w Hw Hnw. apply Hlive; [|apply Hcur; [set_solver|done]|done].
    intros ->. apply Hid, list_elem_of_fmap. by exists (id, w).
Qed.

Lemma claim_jobs_evolves limit now lt rnd cands s claimed :
  NoDup (job_ID <$> cands) →
  (∀ j, j ∈ cands → checkJobs s !! job_ID j = Some j
     ∧ (job_Status j = checkJobStatusScheduled ∨ job_Status j = checkJobStatusFailed)) →
  evolves (checkJobs s) (checkJobs (claim_jobs limit now lt rnd cands s claimed).1).
Proof.
  revert s claimed. induction cands as [|j rest IH]; intros s claimed Hnd Hcur; cbn [claim_jobs]; [done|].
  destruct (limit <=? _); [done|]. cbn in Hnd. apply NoDup_cons in Hnd as [Hid Hnd].
  destruct (Hcur j) as (Hj & Hst); [set_solver|]. cbn zeta.
  change (job_ID (leased_job j now lt (publish_token rnd claimed))) with (job_ID j).
  etrans; [|apply IH; [done|]].
  - cbn. eapply evolves_put; [exact Hj|]. by apply step_claim.
  - intros w Hw. destruct (Hcur w) as (Hw' & ?); [set_solver|]. split; [|done]. cbn.
    rewrite lookup_insert_ne; [done|]. intros Heq. apply Hid. rewrite Heq. apply list_elem_of_fmap. eauto.
Qed.

Lemma claim_monitors_evolves limit now lt clk rnd monitors s claimed :
  store_wf s → (∀ m, m ∈ monitors → byID s !! mon_ID m = Some m) →
  evolves (checkJobs s) (checkJobs (claim_monitors limit now lt clk rnd monitors s claimed).1).
Proof.
  revert s claimed. induction monitors as [|m rest IH]; intros s claimed Hs Hcur; cbn [claim_monitors]; [done|].
  destruct (limit <=? _); [done|]. destruct (_ || _); [apply IH; [done|set_solver]|].
  destruct (decide _) as [|Ha]; [apply IH; [done|set_solver]|]. apply eq_None_not_Some in Ha.
  cbn zeta. etrans; [|apply IH].
  - cbn. apply evolves_new; [|done]. intros j. by apply scheduled_job_free.
  - eapply (add_job_wf s _ (scheduled_job m now lt clk (publish_token rnd claimed))); [done|done| | |done|].
    + cbn. rewrite Hcur by set_solver. eauto.
    + apply scheduled_job_ok.
    + intros j'. by apply scheduled_job_free.
  - intros w Hw. cbn. apply Hcur. set_solver.
Qed.

Lemma claimable_status maxAttempts now j :
  claimable maxAttempts now j = true →
  job_Status j = checkJobStatusScheduled ∨ job_Status j = checkJobStatusFailed.
Proof. unfold claimable. destruct (job_Status j); cbn; auto; done. Qed.

Lemma ClaimDueJobs_evolves s limit now lt maxAttempts clk rnd s' claimed :
  store_wf s → ClaimDueJobsWithMaxAttempts s limit now lt maxAttempts clk rnd = Some (s', claimed) →
  evolves (checkJobs s) (checkJobs s').
Proof.
  intros Hs. unfold ClaimDueJobsWithMaxAttempts, make_slice. destruct (limit <=? 0); [by intros [= <- <-]|]. cbn zeta.
  set (max' := if maxAttempts <=? 0 then _ else _). set (lt' := if lt <=? 0 then _ else _).
  destruct (recover_jobs_wf s max' (UTC now) Hs) as [Hs1 _].
  assert (evolves (checkJobs s) (checkJobs (recover_jobs s max' (UTC now)))) as E1.
  { apply recover_fold_evolves; [apply NoDup_map_range_keys|done|].
    intros id j Hx _. by apply elem_of_map_range in Hx. }
  set (s1 := recover_jobs s max' (UTC now)) in *. set (cands := SortFunc compare_jobs _).
  assert (NoDup (job_ID <$> cands)) as Hnd.
  { unfold cands. rewrite SortFunc_Permutation. by apply NoDup_fmap_filter, jobs_ids_NoDup. }
  assert (∀ j, j ∈ cands → checkJobs s1 !! job_ID j = Some j ∧ claimable max' (UTC now) j = true) as Hc.
  { intros j Hj. unfold cands in Hj. rewrite elem_of_SortFunc, elem_of_filter_bool in Hj.
    destruct Hj as [Hj ?]. split; [by apply jobs_current|done]. }
  destruct (claim_jobs_wf limit (UTC now) lt' rnd cands s1 []) as (Hs2 & Hb2 & _); [done|done| |].
  { intros j Hj. destruct (Hc j Hj) as [? ?%claimable_live]. done. }
  assert (evolves (checkJobs s1) (checkJobs (claim_jobs limit (UTC now) lt' rnd cands s1 []).1)) as E2.
  { apply claim_jobs_evolves; [done|]. intros j Hj. destruct (Hc j Hj) as [? ?%claimable_status]. done. }
  destruct (in_range _ _); [|done]. destruct (claim_jobs _ _ _ _ _ _ _) as [s2 claimed2]. cbn [fst] in *.
  destruct (limit <=? _); [intros [= <- <-]; by etrans|]. intros Heq. change s' with (s', claimed).1. injection Heq as <-.
  etrans; [exact E1|]. etrans; [exact E2|].
  apply claim_monitors_evolves; [done|]. intros m Hm. rewrite elem_of_SortFunc in Hm. by apply monitors_current.
Qed.

Lemma CreateManualJob_evolves s id now rnd :
  store_wf s → checkJobs s !! newID "job" rnd = None →
  evolves (checkJobs s) (checkJobs (CreateManualJob s id now rnd).1).
Proof.
  intros Hs Hfresh. unfold CreateManualJob. destruct (byID s !! id); [|done].
  destruct (activeJobByMonitor s !! id) as [jobID|] eqn:Ha.
  - destruct (active_job _ _ _ Hs Ha) as (j & -> & _). done.
  - cbn. apply evolves_new; [intros j Hj; congruence|done].
Qed.

Lemma MarkJobPublished_evolves s claim now : evolves (checkJobs s) (checkJobs (MarkJobPublished s claim now).1).
Proof.
  unfold MarkJobPublished. destruct (publicationJobLocked s claim) as [j|] eqn:Hp; [|done].
  apply publicationJobLocked_Ok in Hp as (Hj & _). case_bool_decide as Hst; cbn [negb]; [|done].
  cbn zeta. destruct (publication_lapsed _ _ _); [done|]. cbn. eapply evolves_put; [exact Hj|]. by apply step_publish.
Qed.

Lemma ReleaseJobPublish_evolves s claim e now :
  evolves (checkJobs s) (checkJobs (ReleaseJobPublish s claim e now).1).
Proof.
  unfold ReleaseJobPublish. destruct (publicationJobLocked s claim) as [j|] eqn:Hp; [|done].
  apply publicationJobLocked_Ok in Hp as (Hj & _). case_bool_decide as Hst; cbn [negb]; [|done].
  destruct (publication_lapsed _ _ _); [done|]. cbn. eapply evolves_put; [exact Hj|].
  apply step_claim; [done|by left|done..].
Qed.

Lemma RecoverQueuedJobs_evolves s now :
  evolves (checkJobs s) (checkJobs (RecoverQueuedJobsAfterTopologyLoss s now).1).
Proof.
  cbn. apply evolves_map. intros id j _. destruct (lost_with_topology j) eqn:Hl; [right|by left].
  apply step_fail; try done; revert Hl; unfold lost_with_topology, live, job_terminal; by destruct (job_Status j).
Qed.

(** What a worker is granted. *)
Lemma processing_refused_None j attempt :
  processing_refused j attempt = None ↔
  (job_Status j = checkJobStatusScheduled ∨ job_Status j = checkJobStatusQueued) ∧ job_Attempt j < attempt.
Proof.
  unfold processing_refused. destruct (job_Status j); destruct (Z.leb_spec attempt (job_Attempt j));
    (split; [try done; intros _; auto|intros [[?|?] ?]; done || lia]).
Qed.

Lemma MarkJobProcessing_evolves s id jobID attempt now lt rnd :
  evolves (checkJobs s) (checkJobs (MarkJobProcessing s id jobID attempt now lt rnd).1).
Proof.
  unfold MarkJobProcessing. destruct (activeJobLocked s id jobID) as [j|] eqn:Ha; [|done].
  apply activeJobLocked_Ok in Ha as (_ & _ & Hj & _). cbn zeta.
  destruct (processing_refused j attempt) eqn:Hr; [done|]. apply processing_refused_None in Hr as [Hst Hlt].
  cbn. eapply evolves_put; [exact Hj|]. apply step_start; [done|done|done|cbn; lia].
Qed.

Lemma MarkJobFailed_evolves s lease e now retryAt clk :
  evolves (checkJobs s) (checkJobs (MarkJobFailed s lease e now retryAt clk).1).
Proof.
  unfold MarkJobFailed. destruct (activeJobLocked _ _ _) as [j|] eqn:Ha; [|done].
  apply activeJobLocked_Ok in Ha as (_ & _ & Hj & _).
  destruct (jobOwnsLease j lease now) eqn:Ho; cbn [negb orb]; [|done].
  destruct (After _ clk); cbn [negb]; [|done]. apply jobOwnsLease_spec in Ho as (Hst & _).
  cbn. eapply evolves_put; [exact Hj|]. apply step_fail; try done; unfold live, job_terminal; by rewrite Hst.
Qed.

Lemma MarkJobDead_evolves s lease e now next clk :
  evolves (checkJobs s) (checkJobs (MarkJobDead s lease e now next clk).1).
Proof.
  unfold MarkJobDead. destruct (byID s !! _); [|done].
  destruct (activeJobLocked _ _ _) as [j|] eqn:Ha; [|done].
  apply activeJobLocked_Ok in Ha as (_ & _ & Hj & _).
  destruct (jobOwnsLease j lease now) eqn:Ho; cbn [negb orb]; [|done].
  destruct (After _ clk); cbn [negb]; [|done]. apply jobOwnsLease_spec in Ho as (Hst & _). cbn zeta.
  match goal with |- context [rememberTerminalJobLocked ?x ?y] => set (s1 := x) end.
  assert (evolves (checkJobs s) (checkJobs (rememberTerminalJobLocked s1 (lease_JobID lease)))) as He.
  { etrans; [|apply evolves_rememberTerminal]. cbn. eapply evolves_put; [exact Hj|].
    apply step_die; try done. unfold live, job_terminal; by rewrite Hst. }
  change (job_Kind (_ <| job_UpdatedAt := UTC now |>)) with (job_Kind j). by destruct (job_Kind j).
Qed.

Lemma updateIncident_jobs s record now rnd : checkJobs (updateIncident s record now rnd) = checkJobs s.
Proof.
  unfold updateIncident. destruct (rec_Success record); destruct (openIncidentByMonitor s !! _); try done.
  cbn zeta. match goal with |- context [rememberResolvedIncidentLocked ?x ?y] =>
    by destruct (rememberResolved_fields x y) as (_ & _ & _ & _ & -> & _) end.
Qed.

Lemma accept_check_jobs s record m j now rnd :
  checkJobs (accept_check s record m j now rnd)
  = checkJobs (rememberTerminalJobLocked
      (s <| checkJobs := <[rec_JobID record := completed_job j now]> (checkJobs s) |>
         <| activeJobByMonitor := delete (rec_MonitorID record) (activeJobByMonitor s) |>) (rec_JobID record)).
Proof. unfold accept_check. cbn zeta. by rewrite updateIncident_jobs. Qed.

Lemma AddCheck_evolves s record lease clk rnd s' m err :
  store_wf s → AddCheck s record lease clk rnd = Some (s', m, err) → evolves (checkJobs s) (checkJobs s').
Proof.
  intros Hs. destruct (AddCheck_cases s record lease clk rnd Hs) as [(m1 & e1 & ->)|Hacc]; [by intros [= -> _ _]|].
  destruct Hacc as (m0 & j & seen & order & head & Hb & Hj & Hm & Ho & _ & _ & Hwf & ->). intros [= <- _ _].
  rewrite accept_check_jobs. etrans; [|apply evolves_rememberTerminal]. cbn. eapply evolves_put; [exact Hj|].
  apply jobOwnsLease_spec in Ho as (Hst & _). by apply step_complete.
Qed.

Lemma apply_op_evolves s op s' :
  store_wf s → draws_fresh s op → apply_op s op = Some s' → jobs_evolve (checkJobs s) (checkJobs s').
Proof.
  intros Hs Hf Hop. destruct op; cbn [apply_op draws_fresh] in *; try (injection Hop as <-).
  - unfold Create. destruct (validateMonitorInput _ _); [apply evolves_refl|].
    cbn zeta. destruct (byURL s !! _); apply evolves_refl.
  - by apply Update_evolves.
  - apply Delete_evolves.
  - apply fmap_Some in Hop as ([s1 claimed] & Hc & ->). by eapply ClaimDueJobs_evolves.
  - destruct Hf. by apply CreateManualJob_evolves.
  - apply MarkJobPublished_evolves.
  - apply ReleaseJobPublish_evolves.
  - apply RecoverQueuedJobs_evolves.
  - apply MarkJobProcessing_evolves.
  - apply MarkJobFailed_evolves.
  - apply MarkJobDead_evolves.
  - destruct (AddCheck s record lease clk rnd) as [[[s1 m] err]|] eqn:Ha; [|done].
    cbn in Hop. injection Hop as <-. by eapply AddCheck_evolves.
Qed.
End evolve.
