(* ===== verification/StoreSpec.v ===== *)
(** * What the store promises its callers

    The invariant and its bounds, the life of a job, and the protocol between
    the scheduler, the broker and the workers: leases fence off workers that
    lost their attempt, an attempt is granted once, a result is recorded once. *)

From stdpp Require Import base list gmap strings relations.
From Stdlib Require Import ZArith Lia Ascii.
From S2P Require Import Prelude GoNum GoStrings NetworkPolicy Egress Domain History Store StoreInv Sample StoreJobs.
#[local] Open Scope string_scope.
#[local] Open Scope list_scope.
#[local] Open Scope Z_scope.

(** ** The store as a whole *)

(** C1: a sequence of store operations, whatever their arguments, clocks and
    random draws (as long as a drawn identifier is not already in use), panics
    exactly when one of them claims jobs under a limit that no slice can be made
    for, and otherwise keeps the invariant that ties the store's maps together. *)
Theorem store_invariant `{!Unicode, !URLParser, !MapRange} (p : NetworkPolicy) (ops : list StoreOp) :
  run_fresh (NewMonitorStore p) ops →
  (run (NewMonitorStore p) ops = None ↔ Exists oversized ops)
  ∧ ∀ s, run (NewMonitorStore p) ops = Some s → store_wf s.
Proof.
  intros [[He Hn]|[Hall (s & Hr & Hs)]]%run_wf; [| |apply NewMonitorStore_wf]; (split; [|congruence]); [done|].
  split; [congruence|]. intros He. apply Forall_Exists_neg in Hall. done.
Qed.

(** The sample run stays in order; the largest limit there is panics. *)
Lemma store_invariant_witness :
  run_fresh (NewMonitorStore default_policy) sample_ops
  ∧ (∃ s, run (NewMonitorStore default_policy) sample_ops = Some s ∧ store_wf s)
  ∧ run (NewMonitorStore default_policy) [OpClaimDueJobs max_int64 sample_now Minute 3 sample_now (λ _, sample_rnd 2)] = None.
Proof.
  split; [apply sample_fresh|]. destruct (store_invariant default_policy sample_ops sample_fresh) as [Hp Hs]. split.
  - destruct (run (NewMonitorStore default_policy) sample_ops) as [s|].
    + exists s. split; [reflexivity|]. by apply Hs.
    + apply proj1 in Hp. specialize (Hp eq_refl). apply (bool_decide_pack _) in Hp. vm_compute in Hp. destruct Hp.
  - apply (store_invariant default_policy); [vm_compute; tauto|]. apply Exists_cons_hd. vm_compute. reflexivity.
Defined.

(** Memory stays bounded: at most 10000 jobs and 10000 incidents beyond one
    per monitor, 10000 processed identifiers, 500 results per monitor, and
    history slices of at most 20000 entries. *)
Lemma retention_bounded `{!Unicode, !URLParser, !MapRange} (p : NetworkPolicy) (s : MonitorStore) :
  reachable p s →
  Z.of_nat (size (checkJobs s)) <= 10000 + Z.of_nat (size (byID s))
  ∧ Z.of_nat (size (incidents s)) <= 10000 + Z.of_nat (size (byID s))
  ∧ Z.of_nat (size (processedJobs s)) <= 10000
  ∧ (∀ id l, checks s !! id = Some l → Z.of_nat (length l) <= 500)
  ∧ Z.of_nat (length (terminalJobOrder s)) <= 20000
  ∧ Z.of_nat (length (resolvedIncidentOrder s)) <= 20000
  ∧ Z.of_nat (length (processedJobOrder s)) <= 20000.
Proof.
  intros [Hm Hu Hj Hi Hc (Hnd & Hseen & Hw)]%reachable_wf.
  pose proof (table_bounded _ _ _ _ _ _ _ _ _ Hj) as Bj. pose proof (table_bounded _ _ _ _ _ _ _ _ _ Hi) as Bi.
  pose proof (window_ok_length _ _ _ (tw_window _ _ _ _ _ _ _ _ _ Hj)) as Lj.
  pose proof (window_ok_length _ _ _ (tw_window _ _ _ _ _ _ _ _ _ Hi)) as Li.
  pose proof (window_ok_length _ _ _ Hw) as Lp. rewrite size_dom in Bj, Bi.
  unfold maxRetainedCheckJobs, maxRetainedResolvedIncidents, maxProcessedJobIDs in *.
  split_and!; try lia.
  - rewrite Hseen. pose proof (size_list_to_set_le (drop (processedJobHead s) (processedJobOrder s))) as Hs.
    rewrite length_drop in Hs. destruct Hw. lia.
  - intros id l Hl. by apply Hc in Hl as (_ & ? & _).
Qed.

Lemma retention_bounded_witness :
  reachable default_policy (sample 5) ∧ Z.of_nat (size (checkJobs (sample 5))) <= 10000 + 1.
Proof.
  split; [apply sample_reachable|]. exact (proj1 (retention_bounded default_policy (sample 5) (sample_reachable 5))).
Defined.

(** Two monitors never share a URL, and each monitor is found under its
    own identifier and its own URL. *)
Lemma monitor_urls_unique `{!Unicode, !URLParser, !MapRange} (p : NetworkPolicy) (s : MonitorStore) id1 id2 m1 m2 :
  reachable p s → byID s !! id1 = Some m1 → byID s !! id2 = Some m2 → mon_URL m1 = mon_URL m2 →
  id1 = id2 ∧ m1 = m2 ∧ mon_ID m1 = id1 ∧ byURL s !! mon_URL m1 = Some id1.
Proof.
  intros Hs%reachable_wf E1 E2 Hurl. destruct (sw_monitor _ Hs _ _ E1) as (? & U1 & _).
  destruct (sw_monitor _ Hs _ _ E2) as (? & U2 & _). rewrite Hurl in U1.
  assert (id1 = id2) as -> by congruence. rewrite <- Hurl in U2. by simplify_eq.
Qed.

Lemma monitor_urls_unique_witness :
  ∃ m, byID (sample 1) !! sample_monitor = Some m ∧ byURL (sample 1) !! mon_URL m = Some sample_monitor.
Proof.
  eexists. split; [vm_compute; reflexivity|].
  eapply (monitor_urls_unique default_policy (sample 1) sample_monitor sample_monitor); [apply sample_reachable|..];
    vm_compute; reflexivity.
Defined.

(** C2: every operation moves each job only along the life cycle
    scheduled, queued, processing, completed, with failures returning to
    scheduled or ending dead: identity fields never change, the attempt number
    never decreases and grows exactly when a worker starts, and a terminal job
    stays as it is until it is forgotten or its identifier is reused. *)
Theorem job_lifecycle `{!Unicode, !URLParser, !MapRange} (p : NetworkPolicy) (s s' : MonitorStore) (op : StoreOp) :
  reachable p s → draws_fresh s op → apply_op s op = Some s' → jobs_evolve (checkJobs s) (checkJobs s').
Proof. intros Hs%reachable_wf. by apply apply_op_evolves. Qed.

Lemma job_lifecycle_witness :
  apply_op (sample 3) (OpRecoverQueuedJobs sample_now) = Some (RecoverQueuedJobsAfterTopologyLoss (sample 3) sample_now).1
  ∧ jobs_evolve (checkJobs (sample 3)) (checkJobs (RecoverQueuedJobsAfterTopologyLoss (sample 3) sample_now).1).
Proof.
  split; [reflexivity|].
  apply (job_lifecycle default_policy (sample 3) _ (OpRecoverQueuedJobs sample_now)); [apply sample_reachable|exact I|reflexivity].
Defined.

(** ** Leases *)

(** At any moment at most one worker owns a monitor: two leases that own
    jobs of the same monitor are the same lease. *)
Lemma lease_exclusive `{!Unicode, !URLParser, !MapRange} (p : NetworkPolicy) (s : MonitorStore) id1 id2 j1 j2 l1 l2 now1 now2 :
  reachable p s → checkJobs s !! id1 = Some j1 → checkJobs s !! id2 = Some j2 →
  jobOwnsLease j1 l1 now1 = true → jobOwnsLease j2 l2 now2 = true →
  lease_MonitorID l1 = lease_MonitorID l2 → l1 = l2.
Proof.
  intros Hs%reachable_wf E1 E2 (S1 & _ & I1 & M1 & A1 & _ & T1)%jobOwnsLease_spec
    (S2 & _ & I2 & M2 & A2 & _ & T2)%jobOwnsLease_spec Hm.
  destruct (job_lookup _ _ _ Hs E1) as (_ & _ & L1). destruct (job_lookup _ _ _ Hs E2) as (_ & _ & L2).
  assert (job_terminal j1 = false) as F1 by by unfold job_terminal; rewrite S1.
  assert (job_terminal j2 = false) as F2 by by unfold job_terminal; rewrite S2.
  specialize (L1 F1). specialize (L2 F2). rewrite M1 in L1. rewrite M2, <- Hm in L2.
  assert (id1 = id2) as -> by congruence. destruct l1, l2. cbn in *. simplify_eq. congruence.
Qed.

Lemma lease_exclusive_witness :
  ∃ j, checkJobs (sample 4) !! sample_job = Some j
  ∧ jobOwnsLease j sample_lease (sample_now + 2 * Second) = true ∧ sample_lease = sample_lease.
Proof.
  eexists. split; [vm_compute; reflexivity|]. split; [vm_compute; reflexivity|].
  eapply (lease_exclusive default_policy (sample 4) sample_job sample_job _ _ _ _
    (sample_now + 2 * Second) (sample_now + 2 * Second)); [apply sample_reachable|..]; vm_compute; reflexivity.
Defined.

Lemma no_lease_active s lease now :
  (∀ j, checkJobs s !! lease_JobID lease = Some j → jobOwnsLease j lease now = false) →
  match activeJobLocked s (lease_MonitorID lease) (lease_JobID lease) with
  | Ok j => ∀ now', jobOwnsLease j lease now' = false ∨ After (job_LeaseExpiresAt j) now = false
  | Err e => e = ErrMonitorNotFound ∨ e = ErrStaleJob
  end.
Proof.
  intros Hno. destruct (activeJobLocked _ _ _) as [j|e] eqn:Ha.
  - apply activeJobLocked_Ok in Ha as (_ & _ & Hj & _). intros now'. specialize (Hno _ Hj).
    destruct (After (job_LeaseExpiresAt j) now) eqn:He; [left|by right].
    destruct (jobOwnsLease j lease now') eqn:Ho; [|done].
    apply jobOwnsLease_spec in Ho as (?&?&?&?&?&?&?).
    assert (jobOwnsLease j lease now = true); [|congruence].
    apply jobOwnsLease_spec. split_and!; try done. unfold After in He. by apply Z.ltb_lt.
  - unfold activeJobLocked in Ha. destruct (byID s !! _); [|injection Ha as <-; auto].
    repeat case_match; simplify_eq; auto.
Qed.

(** The lease no longer owns a job of the store. *)
Definition lease_lost (s : MonitorStore) (lease : ProcessingLease) (now : Time) : Prop :=
  ∀ j, checkJobs s !! lease_JobID lease = Some j → jobOwnsLease j lease now = false.

(** A worker whose lease is no longer the job's current, unexpired lease
    changes nothing, whatever time it believes it is: reporting failure, reporting death and recording a result
    all return an error and leave the store as it was. *)
Lemma stale_worker_fenced `{!Unicode, !URLParser, !MapRange} (p : NetworkPolicy) (s : MonitorStore) (lease : ProcessingLease) (clk : Time)
    (reason : string) (now next : Time) (record : CheckRecord) (rnd : Entropy) :
  reachable p s → lease_lost s lease clk →
  (∃ e, MarkJobFailed s lease reason now next clk = (s, Some e))
  ∧ (∃ e, MarkJobDead s lease reason now next clk = (s, Some e))
  ∧ (∃ m e, AddCheck s record lease clk rnd = Some (s, m, Some e)).
Proof.
  intros Hs%reachable_wf Hno. pose proof (no_lease_active _ _ _ Hno) as Hact. split_and!.
  - unfold MarkJobFailed. destruct (activeJobLocked _ _ _) as [j|e]; [|by eauto].
    destruct (Hact now) as [-> | ->]; rewrite ?orb_true_r; by eauto.
  - unfold MarkJobDead. destruct (byID s !! _); [|by eauto].
    destruct (activeJobLocked _ _ _) as [j|e]; [|by eauto].
    destruct (Hact now) as [-> | ->]; rewrite ?orb_true_r; by eauto.
  - destruct (AddCheck_cases s record lease clk rnd Hs) as [(m & e & ->)|Hacc]; [by eauto|exfalso].
    destruct Hacc as (m0 & j & seen & order & head & _ & Hj & _ & Ho & _).
    destruct (job_lookup _ _ _ Hs Hj) as ((Hid & _) & _). apply jobOwnsLease_spec in Ho as Ho'.
    destruct Ho' as (_ & _ & Hid' & _). rewrite (Hno j) in Ho; [done|]. by rewrite <- Hid', Hid.
Qed.

(** The sample worker is late: its one-minute lease has expired. *)
Lemma stale_worker_fenced_witness :
  lease_lost (sample 4) sample_lease (sample_now + 2 * Minute)
  ∧ ∃ e, MarkJobFailed (sample 4) sample_lease "timeout" sample_now 0 (sample_now + 2 * Minute)
         = (sample 4, Some e).
Proof.
  assert (lease_lost (sample 4) sample_lease (sample_now + 2 * Minute)) as Hl.
  { intros j. vm_compute. by intros [= <-]. }
  split; [exact Hl|].
  exact (proj1 (stale_worker_fenced default_policy (sample 4) sample_lease (sample_now + 2 * Minute) "timeout" sample_now 0
    (sample_record true) (sample_rnd 5) (sample_reachable 4) Hl)).
Defined.

(** ** Attempts *)

Lemma job_steps_attempt j j' : rtc job_step j j' → job_Attempt j <= job_Attempt j'.
Proof. induction 1 as [|j1 j2 j3 Hs _ IH]; [lia|]. apply job_step_mono in Hs. lia. Qed.

Lemma MarkJobProcessing_Ok `{!Unicode, !URLParser, !MapRange} s id jobID attempt now lt rnd s' lease :
  store_wf s → MarkJobProcessing s id jobID attempt now lt rnd = (s', Ok lease) →
  ∃ j j', activeJobByMonitor s !! id = Some jobID ∧ checkJobs s !! jobID = Some j
  ∧ (job_Status j = checkJobStatusScheduled ∨ job_Status j = checkJobStatusQueued) ∧ job_Attempt j < attempt
  ∧ s' = s <| checkJobs := <[jobID := j']> (checkJobs s) |>
  ∧ job_Status j' = checkJobStatusProcessing ∧ job_Attempt j' = attempt
  ∧ job_LeaseExpiresAt j' = now + (if lt <=? 0 then Minute else lt)
  ∧ lease = {| lease_JobID := jobID; lease_MonitorID := id; lease_Attempt := attempt;
               lease_LeaseToken := newID "lease" rnd |}
  ∧ (now < job_LeaseExpiresAt j' → jobOwnsLease j' lease now = true).
Proof.
  intros Hs. unfold MarkJobProcessing. destruct (activeJobLocked s id jobID) as [j|] eqn:Ha; [|done].
  apply activeJobLocked_Ok in Ha as (_ & Hact & Hj & Hm). cbn zeta.
  destruct (processing_refused j attempt) eqn:Hr; [done|]. apply processing_refused_None in Hr as [Hst Hlt].
  destruct (job_lookup _ _ _ Hs Hj) as ((Hid & Hshape & Hat & _) & _).
  assert (Z.max (job_Attempt j) (Z.max attempt 1) = attempt) as Hmax by lia.
  intros [= <- <-]. eexists j, _. do 5 (split; [done|]). split; [done|]. split; [done|].
  split; [done|]. split; [cbn; by rewrite Hmax|]. intros Hnow. apply jobOwnsLease_spec.
  split_and!; try done. apply newID_nonempty.
Qed.

(** An attempt number of a job is granted to at most one worker: once a
    worker has started attempt [n], however the job moves on, a second message
    with attempt [n] or less is refused and changes nothing. *)
Lemma attempt_granted_once `{!Unicode, !URLParser, !MapRange} (p : NetworkPolicy) (s s' s2 : MonitorStore)
    id jobID attempt now lt rnd lease j j2 attempt2 now2 lt2 rnd2 :
  reachable p s →
  MarkJobProcessing s id jobID attempt now lt rnd = (s', Ok lease) →
  checkJobs s' !! jobID = Some j → checkJobs s2 !! jobID = Some j2 → rtc job_step j j2 → attempt2 <= attempt →
  ∃ e, MarkJobProcessing s2 id jobID attempt2 now2 lt2 rnd2 = (s2, Err e).
Proof.
  intros Hs%reachable_wf Hok Hj Hj2 Hr Hle.
  apply MarkJobProcessing_Ok in Hok as (j0 & j' & _ & _ & _ & _ & -> & _ & Hat & _); [|done].
  cbn in Hj. rewrite lookup_insert_eq in Hj. injection Hj as ->.
  apply job_steps_attempt in Hr. unfold MarkJobProcessing.
  destruct (activeJobLocked s2 id jobID) as [k|e] eqn:Ha; [|by eauto]. cbn zeta.
  apply activeJobLocked_Ok in Ha as (_ & _ & Hk & _). simplify_eq.
  destruct (processing_refused j2 attempt2) as [e|] eqn:Href; [by eauto|].
  apply processing_refused_None in Href as [_ Hlt]. lia.
Qed.

Lemma attempt_granted_once_witness :
  ∃ e, MarkJobProcessing (sample 4) sample_monitor sample_job 1 (sample_now + 5 * Second) Minute (sample_rnd 9)
       = (sample 4, Err e).
Proof.
  eapply (attempt_granted_once default_policy (sample 3) (sample 4) (sample 4) sample_monitor sample_job 1
    (sample_now + 2 * Second) Minute (sample_rnd 3) sample_lease); [apply sample_reachable|vm_compute; reflexivity..| |lia].
  apply rtc_refl.
Defined.

(** ** Results *)

Lemma updateIncident_fields s record now rnd :
  let s' := updateIncident s record now rnd in
  byID s' = byID s ∧ checks s' = checks s ∧ checkJobs s' = checkJobs s ∧ activeJobByMonitor s' = activeJobByMonitor s
  ∧ processedJobs s' = processedJobs s.
Proof.
  unfold updateIncident. destruct (rec_Success record); destruct (openIncidentByMonitor s !! _); try done.
  cbn zeta. match goal with |- context [rememberResolvedIncidentLocked ?x ?y] =>
    by destruct (rememberResolved_fields x y) as (_ & -> & _ & -> & -> & -> & _ & ->) end.
Qed.

Lemma accept_check_fields s record m j now rnd :
  let s' := accept_check s record m j now rnd in
  byID s' = <[rec_MonitorID record := checked_monitor m record (job_Kind j) now]> (byID s)
  ∧ checks s' = <[rec_MonitorID record :=
      retained_checks (default [] (checks s !! rec_MonitorID record) ++ [record])]> (checks s)
  ∧ activeJobByMonitor s' = delete (rec_MonitorID record) (activeJobByMonitor s)
  ∧ processedJobs s' = processedJobs s
  ∧ (∀ k, checkJobs s' !! rec_JobID record = Some k → k = completed_job j now).
Proof.
  unfold accept_check. cbn zeta.
  match goal with |- context [rememberTerminalJobLocked ?x ?y] => set (s1 := x) end.
  destruct (rememberTerminal_fields s1 (rec_JobID record)) as (P1 & P2 & P3 & P4 & P5 & P6 & P7 & P8).
  match goal with |- context [updateIncident ?x ?y ?z ?w] =>
    destruct (updateIncident_fields x y z w) as (-> & -> & -> & -> & ->) end.
  cbn -[rememberTerminalJobLocked s1]. rewrite P2, P4, P5, P8. split_and!; try done.
  intros k Hk%rememberTerminal_sub. cbn in Hk. rewrite lookup_insert_eq in Hk. congruence.
Qed.

(** A result is accepted only from the worker that owns the job's lease,
    for a job not yet processed; it then completes the job, frees the monitor
    for its next job, becomes the newest of the monitor's results, and updates
    the monitor: a scheduled check moves the next check one interval ahead, a
    manual one leaves it. *)
Lemma AddCheck_effect `{!Unicode, !URLParser, !MapRange} (p : NetworkPolicy) (s s' : MonitorStore) record lease clk rnd m' :
  reachable p s → AddCheck s record lease clk rnd = Some (s', Some m', None) →
  ∃ m j, byID s !! rec_MonitorID record = Some m ∧ checkJobs s !! rec_JobID record = Some j
  ∧ jobOwnsLease j lease clk = true ∧ rec_JobID record ∉ processedJobs s
  ∧ byID s' = <[rec_MonitorID record := m']> (byID s)
  ∧ mon_LastStatusCode m' = rec_StatusCode record ∧ mon_LastError m' = rec_Error record
  ∧ mon_LastLatencyMS m' = rec_LatencyMS record ∧ mon_LastCheckedAt m' = clk
  ∧ mon_NextCheckAt m' = (if decide (job_Kind j = checkJobKindScheduled)
                          then clk + mon_IntervalSeconds m * Second else mon_NextCheckAt m)
  ∧ input_of_monitor m' = input_of_monitor m
  ∧ (∃ l, checks s' !! rec_MonitorID record = Some l ∧ last l = Some record)
  ∧ activeJobByMonitor s' !! rec_MonitorID record = None
  ∧ rec_JobID record ∈ processedJobs s'
  ∧ (∀ k, checkJobs s' !! rec_JobID record = Some k →
       job_Status k = checkJobStatusCompleted ∧ job_CompletedAt k = clk ∧ job_LeaseToken k = "").
Proof.
  intros Hs%reachable_wf Hadd.
  destruct (AddCheck_cases s record lease clk rnd Hs) as [(m1 & e1 & Heq)|Hacc]; [congruence|].
  destruct Hacc as (m & j & seen & order & head & Hb & Hj & Hm & Ho & Hproc & Hin & Hwf & Heq).
  cbn zeta in Heq. rewrite Hadd in Heq. injection Heq as -> ->. exists m, j.
  destruct (accept_check_fields (s <| processedJobs := seen |> <| processedJobOrder := order |>
    <| processedJobHead := head |>) record m j clk rnd) as (F1 & F2 & F3 & F4 & F5).
  rewrite F1, F2, F3, F4. cbn.
  destruct (sw_monitor _ Hs _ _ Hb) as (_ & _ & (_ & _ & Hint & _) & _).
  split_and!; try done.
  - by destruct (job_Kind j).
  - by destruct (job_Kind j).
  - by destruct (job_Kind j).
  - by destruct (job_Kind j).
  - destruct (job_Kind j); cbn; [|done]. unfold AddDur. by rewrite seconds_small by lia.
  - destruct (checked_monitor_fields m record (job_Kind j) clk) as (_ & E1 & E2 & E3 & E4 & _ & E5).
    unfold input_of_monitor. by rewrite E1, E2, E3, E4, E5.
  - eexists. rewrite lookup_insert_eq. split; [done|].
    destruct (retained_checks_spec (default [] (checks s !! rec_MonitorID record) ++ [record])) as [_ _].
    unfold retained_checks, maxChecksPerMonitor.
    destruct (_ <? _) eqn:Hlt; [|by rewrite last_snoc]. apply Z.ltb_lt in Hlt.
    rewrite length_app in *. cbn [length] in *. rewrite drop_app_le by lia. by rewrite last_snoc.
  - by rewrite lookup_delete_eq.
  - intros k Hk. by rewrite (F5 k Hk).
Qed.

Lemma AddCheck_effect_witness :
  ∃ m', AddCheck (sample 4) (sample_record false) sample_lease (sample_now + 3 * Second) (sample_rnd 4)
        = Some (sample 5, Some m', None)
  ∧ sample_job ∈ processedJobs (sample 5).
Proof.
  eexists. split; [vm_compute; reflexivity|].
  destruct (AddCheck_effect default_policy (sample 4) (sample 5) (sample_record false) sample_lease
    (sample_now + 3 * Second) (sample_rnd 4) _ (sample_reachable 4) ltac:(vm_compute; reflexivity))
    as (m & j & Hrest). repeat (destruct Hrest as [? Hrest]). done.
Defined.

(** A result is recorded once: after a result of a job was accepted, every
    further result for that job, from whatever worker and lease, is answered
    with an error and changes nothing; the error says duplicate as long as the
    job is remembered. *)
Lemma AddCheck_once `{!Unicode, !URLParser, !MapRange} (p : NetworkPolicy) (s s' : MonitorStore)
    record lease clk rnd m' record2 lease2 clk2 rnd2 :
  reachable p s → incidents s !! newID "inc" rnd = None →
  AddCheck s record lease clk rnd = Some (s', m', None) →
  rec_JobID record2 = rec_JobID record → rec_MonitorID record2 = rec_MonitorID record →
  ∃ m2 e, AddCheck s' record2 lease2 clk2 rnd2 = Some (s', m2, Some e)
  ∧ (is_Some (checkJobs s' !! rec_JobID record) → e = ErrDuplicateJob).
Proof.
  intros Hr Hfresh Hadd Hjob Hmon. pose proof (reachable_wf _ _ Hr) as Hs.
  destruct (AddCheck_cases s record lease clk rnd Hs) as [(m1 & e1 & Heq)|Hacc]; [congruence|].
  destruct Hacc as (m & j & seen & order & head & Hb & Hj & Hm & Ho & Hproc & Hin & Hwf & Heq).
  cbn zeta in Heq. rewrite Hadd in Heq. injection Heq as -> ->.
  match goal with |- context [accept_check ?x ?a ?b ?c ?d ?e] =>
    destruct (accept_check_fields x a b c d e) as (F1 & F2 & F3 & F4 & F5); set (s2 := accept_check x a b c d e) in * end.
  unfold AddCheck. rewrite Hjob, Hmon, F1, lookup_insert_eq.
  destruct (String.eqb (rec_JobID record) "") eqn:He.
  { apply String.eqb_eq in He. exfalso. unfold AddCheck in Hadd. rewrite Hb, He in Hadd. done. }
  destruct (checkJobs s2 !! rec_JobID record) as [k|] eqn:Hk.
  - rewrite (F5 k eq_refl). cbn. destruct (String.eqb_spec (job_MonitorID j) (rec_MonitorID record)); [|done]. by eauto.
  - eexists _, _. split; [done|]. intros [? ?]. done.
Qed.

Lemma AddCheck_once_witness :
  ∃ m2 e, AddCheck (sample 5) (sample_record true) sample_lease (sample_now + 4 * Second) (sample_rnd 6)
          = Some (sample 5, m2, Some e) ∧ e = ErrDuplicateJob.
Proof.
  destruct (AddCheck_once default_policy (sample 4) (sample 5) (sample_record false) sample_lease
    (sample_now + 3 * Second) (sample_rnd 4) _ (sample_record true) sample_lease (sample_now + 4 * Second) (sample_rnd 6)
    (sample_reachable 4) ltac:(vm_compute; reflexivity) ltac:(vm_compute; reflexivity) eq_refl eq_refl)
    as (m2 & e & Heq & Hdup).
  exists m2, e. split; [exact Heq|]. apply Hdup. vm_compute. by eexists.
Defined.

Lemma accept_check_incidents `{!Unicode, !URLParser, !MapRange} s record m j now rnd :
  ∃ s2, accept_check s record m j now rnd = updateIncident s2 record now rnd
  ∧ incidents s2 = incidents s ∧ openIncidentByMonitor s2 = openIncidentByMonitor s.
Proof.
  unfold accept_check. cbn zeta.
  match goal with |- context [rememberTerminalJobLocked ?x ?y] => set (s1 := x) end.
  destruct (rememberTerminal_fields s1 (rec_JobID record)) as (_ & _ & _ & _ & _ & P6 & P7 & _).
  eexists. split; [reflexivity|]. cbn -[rememberTerminalJobLocked s1]. by rewrite P6, P7.
Qed.

(** Incidents follow the results: after a failed check the monitor has an
    open incident whose failure count is one more than before (one for a new
    incident) and whose last error is the check's, or the unexpected status;
    after a successful one it has none, and the incident that was open is
    resolved at the time of the check unless it has been evicted. *)
Lemma incident_follows_result `{!Unicode, !URLParser, !MapRange} (p : NetworkPolicy) (s s' : MonitorStore) record lease clk rnd m' :
  reachable p s → AddCheck s record lease clk rnd = Some (s', m', None) →
  let open s := openIncidentByMonitor s !! rec_MonitorID record ≫= λ id, incidents s !! id in
  if rec_Success record
  then open s' = None
       ∧ ∀ id i, openIncidentByMonitor s !! rec_MonitorID record = Some id → incidents s' !! id = Some i →
           inc_Status i = incidentStatusResolved ∧ inc_ResolvedAt i = rec_CheckedAt record
  else ∃ i, open s' = Some i ∧ inc_MonitorID i = rec_MonitorID record ∧ inc_Status i = incidentStatusOpen
       ∧ inc_FailureCount i = match open s with Some i0 => wrap64 (inc_FailureCount i0 + 1) | None => 1 end
       ∧ inc_LastFailureAt i = rec_CheckedAt record
       ∧ inc_FirstFailureAt i = match open s with Some i0 => inc_FirstFailureAt i0 | None => rec_CheckedAt record end
       ∧ inc_LastError i = (if String.eqb (rec_Error record) ""
                            then "unexpected status code " +:+ Itoa (rec_StatusCode record) else rec_Error record).
Proof.
  intros Hs%reachable_wf Hadd. cbn zeta.
  destruct (AddCheck_cases s record lease clk rnd Hs) as [(m1 & e1 & Heq)|Hacc]; [congruence|].
  destruct Hacc as (m & j & seen & order & head & _ & _ & _ & _ & _ & _ & _ & Heq).
  cbn zeta in Heq. rewrite Hadd in Heq. injection Heq as -> _.
  match goal with |- context [accept_check ?x ?a ?b ?c ?d ?e] =>
    destruct (accept_check_incidents x a b c d e) as (s2 & -> & Hi & Ho) end.
  cbn [incidents openIncidentByMonitor set_field] in Hi, Ho. cbn in Hi, Ho. unfold updateIncident.
  destruct (rec_Success record); rewrite Ho, ?Hi;
    destruct (openIncidentByMonitor s !! rec_MonitorID record) as [id|] eqn:Hopen.
  - destruct (open_incident _ _ _ Hs Hopen) as (i0 & Hi0 & Hm0 & Hn0 & _). cbn zeta.
    match goal with |- context [rememberResolvedIncidentLocked ?x ?y] => set (s3 := x) end.
    destruct (rememberResolved_fields s3 id) as (_ & _ & _ & _ & _ & _ & P & _). rewrite P. cbn -[rememberResolvedIncidentLocked].
    rewrite Ho, lookup_delete_eq. split; [done|]. intros id' i [= <-].
    unfold rememberResolvedIncidentLocked. destruct (remember _ _ _ _ _ _) as [[incs ?] ?] eqn:Hrem.
    apply remember_spec in Hrem as [Hsub _]. cbn. intros Hx%Hsub. cbn in Hx. rewrite lookup_insert_eq in Hx.
    by injection Hx as <-.
  - rewrite Ho, Hopen. done.
  - destruct (open_incident _ _ _ Hs Hopen) as (i0 & Hi0 & Hm0 & Hn0 & _). rewrite Hi0. cbn. rewrite Ho, Hopen. cbn.
    rewrite ?Hi, ?Hi0. cbn. rewrite lookup_insert_eq. eexists. split; [done|]. cbn. split_and!; try done.
    unfold inc_resolved in Hn0. apply bool_decide_eq_false in Hn0. by destruct (inc_Status i0).
  - cbn. rewrite lookup_insert_eq. cbn. rewrite lookup_insert_eq. eexists. split; [done|]. done.
Qed.

Lemma incident_follows_result_witness :
  ∃ m', AddCheck (sample 4) (sample_record false) sample_lease (sample_now + 3 * Second) (sample_rnd 4)
        = Some (sample 5, m', None)
  ∧ ∃ i, (openIncidentByMonitor (sample 5) !! sample_monitor ≫= λ id, incidents (sample 5) !! id) = Some i
      ∧ inc_FailureCount i = 1.
Proof.
  eexists. split; [vm_compute; reflexivity|].
  destruct (incident_follows_result default_policy (sample 4) (sample 5) (sample_record false) sample_lease
    (sample_now + 3 * Second) (sample_rnd 4) _ (sample_reachable 4) ltac:(vm_compute; reflexivity))
    as (i & Hopen & _ & _ & Hcount & _).
  exists i. split; [exact Hopen|]. rewrite Hcount. vm_compute. reflexivity.
Defined.

(** ** Publication *)

(** The scheduler's claim on a job is fenced by its publication token and
    the claim's lease: confirming or releasing with any other token, with an
    empty one, or for a claim whose lease or attempt has lapsed while the job
    is still scheduled is refused and changes nothing; a confirmation in time
    queues the job, and confirming again (the broker's acknowledgement arrived
    twice, or the worker was faster) is harmless. *)
Lemma publication_fenced `{!Unicode, !URLParser, !MapRange} (s : MonitorStore) (claim : PublicationClaim) (j : CheckJobRecord) (now : Time) (reason : string) :
  is_Some (byID s !! claim_MonitorID claim) → checkJobs s !! claim_JobID claim = Some j →
  job_MonitorID j = claim_MonitorID claim →
  (claim_Token claim = "" ∨ job_PublicationToken j ≠ claim_Token claim →
     MarkJobPublished s claim now = (s, Some ErrStaleJob) ∧ ReleaseJobPublish s claim reason now = (s, Some ErrStaleJob))
  ∧ (job_Status j = checkJobStatusScheduled →
     job_Attempt j ≠ claim_Attempt claim ∨ job_LeaseExpiresAt j = 0 ∨ job_LeaseExpiresAt j <= now →
     MarkJobPublished s claim now = (s, Some ErrStaleJob) ∧ ReleaseJobPublish s claim reason now = (s, Some ErrStaleJob))
  ∧ (claim_Token claim ≠ "" → job_PublicationToken j = claim_Token claim →
     (job_Status j ≠ checkJobStatusScheduled → MarkJobPublished s claim now = (s, None))
     ∧ (job_Status j = checkJobStatusScheduled → job_Attempt j = claim_Attempt claim →
        job_LeaseExpiresAt j ≠ 0 → now < job_LeaseExpiresAt j →
        ∃ s' j', MarkJobPublished s claim now = (s', None) ∧ checkJobs s' = <[claim_JobID claim := j']> (checkJobs s)
        ∧ job_Status j' = checkJobStatusQueued ∧ job_PublishedAt j' = now ∧ job_LeaseExpiresAt j' = 0
        ∧ ∀ now2, MarkJobPublished s' claim now2 = (s', None))).
Proof.
  intros [m Hm] Hj Hmon.
  assert (∀ s', byID s' = byID s → ∀ k, checkJobs s' !! claim_JobID claim = Some k → job_MonitorID k = claim_MonitorID claim →
    publicationJobLocked s' claim
    = if String.eqb (claim_Token claim) "" || negb (String.eqb (job_PublicationToken k) (claim_Token claim))
      then Err ErrStaleJob else Ok k) as Hpub.
  { intros s' Hb k Hk Hkm. unfold publicationJobLocked. rewrite Hb, Hm, Hk, Hkm, String.eqb_refl. done. }
  unfold MarkJobPublished, ReleaseJobPublish. rewrite (Hpub s eq_refl j Hj Hmon). split_and!.
  - intros Hbad. destruct (String.eqb_spec (claim_Token claim) ""); [done|].
    destruct (String.eqb_spec (job_PublicationToken j) (claim_Token claim)); [|done]. tauto.
  - intros Hst Hlap. assert (publication_lapsed j claim now = true) as Hl.
    { unfold publication_lapsed, IsZero, After. destruct (Z.eqb_spec (job_Attempt j) (claim_Attempt claim)); [|done].
      destruct (Z.eqb_spec (job_LeaseExpiresAt j) 0); [done|].
      destruct (Z.ltb_spec now (job_LeaseExpiresAt j)); [lia|done]. }
    destruct (_ || _); [done|]. rewrite Hst. unfold UTC. rewrite Hl. done.
  - intros Ht Htok. apply String.eqb_neq in Ht. rewrite Ht, Htok, String.eqb_refl. cbn [orb negb]. split.
    + intros Hst. by rewrite bool_decide_false.
    + intros Hst Hatt Hz Hlt. rewrite bool_decide_true by done. cbn [negb].
      assert (publication_lapsed j claim now = false) as Hl.
      { unfold publication_lapsed, IsZero, After. rewrite Hatt, Z.eqb_refl.
        apply Z.eqb_neq in Hz. apply Z.ltb_lt in Hlt. by rewrite Hz, Hlt. }
      unfold UTC. rewrite Hl. eexists _, _. split; [reflexivity|]. split; [reflexivity|].
      split; [done|]. split; [done|]. split; [done|]. intros now2.
      match goal with |- match publicationJobLocked ?x claim with _ => _ end = _ =>
        erewrite (Hpub x eq_refl); [|cbn; apply lookup_insert_eq|done] end.
      cbn [job_PublicationToken set_field]. cbn -[String.eqb]. rewrite Ht, Htok, String.eqb_refl. done.
Qed.

Lemma publication_fenced_witness :
  MarkJobPublished (sample 2) {| claim_JobID := sample_job; claim_MonitorID := sample_monitor; claim_Attempt := 0;
                                 claim_Token := "publish_old" |} (sample_now + Second)
  = (sample 2, Some ErrStaleJob).
Proof.
  eapply (proj1 (proj1 (publication_fenced (sample 2)
    {| claim_JobID := sample_job; claim_MonitorID := sample_monitor; claim_Attempt := 0; claim_Token := "publish_old" |}
    _ (sample_now + Second) "" ltac:(vm_compute; by eexists) ltac:(vm_compute; reflexivity) ltac:(vm_compute; reflexivity))
    ltac:(right; vm_compute; discriminate))).
Defined.

(** ** Recovery after the broker lost its queues *)

(** After a loss of the RabbitMQ topology no job is left scheduled or
    queued: each one becomes a failed job available at once, without lease or
    publication token and with its attempt number unchanged; jobs being
    processed and finished jobs are untouched; and the call returns how many
    jobs it recovered. *)
Lemma topology_loss_recovery `{!Unicode, !URLParser, !MapRange} (s : MonitorStore) (now : Time) :
  let '(s', recovered) := RecoverQueuedJobsAfterTopologyLoss s now in
  recovered = Z.of_nat (size (filter (λ kv : string * CheckJobRecord, lost_with_topology kv.2 = true) (checkJobs s)))
  ∧ dom (checkJobs s') = dom (checkJobs s)
  ∧ ∀ id j', checkJobs s' !! id = Some j' → ∃ j, checkJobs s !! id = Some j
    ∧ job_Attempt j' = job_Attempt j ∧ same_job j j'
    ∧ job_Status j' ≠ checkJobStatusScheduled ∧ job_Status j' ≠ checkJobStatusQueued
    ∧ (if decide (job_Status j = checkJobStatusScheduled ∨ job_Status j = checkJobStatusQueued)
       then job_Status j' = checkJobStatusFailed ∧ job_AvailableAt j' = now ∧ job_LeaseExpiresAt j' = 0
            ∧ job_PublicationToken j' = "" ∧ ∀ maxAttempts, job_Attempt j < maxAttempts → claimable maxAttempts now j' = true
       else j' = j).
Proof.
  cbn. split; [done|]. split; [apply dom_fmap_L|]. intros id j'. rewrite lookup_fmap, fmap_Some.
  intros (j & Hj & ->). exists j. split; [done|].
  assert (lost_with_topology j = bool_decide (job_Status j = checkJobStatusScheduled ∨ job_Status j = checkJobStatusQueued)) as Hl.
  { unfold lost_with_topology. symmetry. apply bool_decide_or. }
  rewrite Hl. destruct (decide (job_Status j = checkJobStatusScheduled ∨ job_Status j = checkJobStatusQueued)) as [Hst|Hst];
    [rewrite bool_decide_true by exact Hst|rewrite bool_decide_false by exact Hst].
  - split_and!; try done. intros maxAttempts Hlt. unfold claimable, topology_recovered, After, IsZero. cbn.
    destruct (Z.leb_spec maxAttempts (job_Attempt j)); [lia|]. rewrite Z.ltb_irrefl. done.
  - split_and!; try done; intros ?; apply Hst; auto.
Qed.

(** ** Editing and deleting monitors *)

Lemma checkSemanticsChanged_spec m' m :
  checkSemanticsChanged m' m = true ↔
  mon_URL m' ≠ mon_URL m ∨ mon_TimeoutSeconds m' ≠ mon_TimeoutSeconds m ∨ mon_ExpectedStatus m' ≠ mon_ExpectedStatus m.
Proof.
  unfold checkSemanticsChanged.
  rewrite !orb_true_iff, !negb_true_iff, String.eqb_neq, !Z.eqb_neq. tauto.
Qed.

(** The monitor an accepted update stores and returns. *)
Definition updated_monitor (m : Monitor) (patch : MonitorPatch) (now : Time) : Monitor :=
  let upd := (apply_patch m patch) <| mon_UpdatedAt := now |> in
  let upd := if mon_Enabled upd
             then upd <| mon_Status := monitorStatusActive |> <| mon_NextCheckAt := rescheduled upd m now |>
             else upd <| mon_Status := monitorStatusDisabled |> in
  if checkSemanticsChanged (apply_patch m patch) m
  then upd <| mon_LastStatusCode := 0 |> <| mon_LastLatencyMS := 0 |>
           <| mon_LastCheckedAt := time_zero |> <| mon_LastError := "" |>
  else upd.

Lemma finishActive_clears s id st e now :
  terminal_status st = true → activeJobByMonitor (finishActiveJobLocked s id st e now) !! id = None.
Proof.
  intros Ht. unfold finishActiveJobLocked. destruct (activeJobByMonitor s !! id) as [a|] eqn:Ha; [|done].
  destruct (checkJobs s !! a); [|by cbn; rewrite lookup_delete_eq]. rewrite Ht. cbn zeta.
  match goal with |- context [rememberTerminalJobLocked ?x ?y] =>
    destruct (rememberTerminal_fields x y) as (_ & _ & _ & _ & -> & _) end. cbn. by rewrite lookup_delete_eq.
Qed.

Lemma finishActive_open s id st e now :
  openIncidentByMonitor (finishActiveJobLocked s id st e now) = openIncidentByMonitor s.
Proof.
  unfold finishActiveJobLocked. destruct (activeJobByMonitor s !! id) as [a|]; [|done].
  destruct (checkJobs s !! a); [|done]. destruct (terminal_status st); [|done]. cbn zeta.
  match goal with |- context [rememberTerminalJobLocked ?x ?y] =>
    by destruct (rememberTerminal_fields x y) as (_ & _ & _ & _ & _ & _ & -> & _) end.
Qed.

Lemma resolveOpen_clears s id now : openIncidentByMonitor (resolveOpenIncidentLocked s id now) !! id = None.
Proof.
  unfold resolveOpenIncidentLocked. destruct (openIncidentByMonitor s !! id) as [a|] eqn:Ha; [|done].
  destruct (incidents s !! a); [|by cbn; rewrite lookup_delete_eq]. cbn zeta.
  match goal with |- context [rememberResolvedIncidentLocked ?x ?y] =>
    destruct (rememberResolved_fields x y) as (_ & _ & _ & _ & _ & _ & -> & _) end. cbn. by rewrite lookup_delete_eq.
Qed.

Lemma resolveOpen_active s id now :
  activeJobByMonitor (resolveOpenIncidentLocked s id now) = activeJobByMonitor s.
Proof.
  unfold resolveOpenIncidentLocked. destruct (openIncidentByMonitor s !! id) as [a|]; [|done].
  destruct (incidents s !! a); [|done]. cbn zeta.
  match goal with |- context [rememberResolvedIncidentLocked ?x ?y] =>
    by destruct (rememberResolved_fields x y) as (_ & _ & _ & _ & _ & -> & _) end.
Qed.

Lemma Update_Ok `{!Unicode, !URLParser, !MapRange} s s' id patch clk m m' :
  byID s !! id = Some m → Update s id patch clk = (s', Ok m') →
  validateMonitorInput (input_of_monitor (apply_patch m patch)) (policy s) = None
  ∧ m' = updated_monitor m patch clk ∧ byID s' !! id = Some m'
  ∧ (mon_Enabled (apply_patch m patch) = false ∨ checkSemanticsChanged (apply_patch m patch) m = true →
     activeJobByMonitor s' !! id = None)
  ∧ (checkSemanticsChanged (apply_patch m patch) m = true → openIncidentByMonitor s' !! id = None).
Proof.
  intros Hb. unfold Update. rewrite Hb. set (upd := apply_patch m patch).
  destruct (validateMonitorInput _ _) eqn:Hv; [done|].
  destruct (match byURL s !! _ with Some _ => _ | None => _ end); [done|].
  set (u := if String.eqb (mon_URL upd) (mon_URL m) then byURL s
            else <[mon_URL upd := id]> (delete (mon_URL m) (byURL s))).
  replace (if String.eqb (mon_URL upd) (mon_URL m) then s
           else s <| byURL := <[mon_URL upd := id]> (delete (mon_URL m) (byURL s)) |>)
    with (s <| byURL := u |>) by (unfold u; destruct (String.eqb _ _); [by destruct s|done]).
  cbn zeta. unfold updated_monitor. fold upd. cbn zeta.
  change (mon_Enabled (upd <| mon_UpdatedAt := UTC clk |>)) with (mon_Enabled upd).
  change (mon_Enabled (upd <| mon_UpdatedAt := clk |>)) with (mon_Enabled upd).
  destruct (mon_Enabled upd) eqn:Hen; destruct (checkSemanticsChanged upd m) eqn:Hsem;
    cbn -[resolveOpenIncidentLocked finishActiveJobLocked upd]; rewrite ?Hen; intros [= <- <-];
    (split; [done|]; split; [done|]; split; [cbn; apply lookup_insert_eq|]); cbn -[resolveOpenIncidentLocked finishActiveJobLocked].
  - rewrite finishActive_open, finishActive_clears, resolveOpen_clears by done. done.
  - split; [intros [?|?]; done|done].
  - rewrite resolveOpen_active, finishActive_clears, resolveOpen_clears by done. done.
  - rewrite finishActive_clears by done. done.
Qed.

(** A successful update applies exactly the given fields and reschedules:
    changing the URL, timeout or expected status, or enabling a disabled
    monitor, makes it due now; changing only the interval moves the next check
    to one new interval after the last check, but never into the past; a past
    schedule becomes now; otherwise the schedule is kept.  Disabling stops the
    monitor and its active job. *)
Lemma Update_reschedules `{!Unicode, !URLParser, !MapRange} (p : NetworkPolicy) (s s' : MonitorStore) id patch clk m m' :
  reachable p s → byID s !! id = Some m → Update s id patch clk = (s', Ok m') →
  input_of_monitor m' = input_of_monitor (apply_patch m patch)
  ∧ byID s' !! id = Some m' ∧ (mon_Status m' = monitorStatusActive ↔ mon_Enabled m' = true)
  ∧ (mon_Enabled m' = false → mon_NextCheckAt m' = mon_NextCheckAt m ∧ activeJobByMonitor s' !! id = None)
  ∧ (mon_Enabled m' = true →
     let semantics := mon_URL m' ≠ mon_URL m ∨ mon_TimeoutSeconds m' ≠ mon_TimeoutSeconds m
                      ∨ mon_ExpectedStatus m' ≠ mon_ExpectedStatus m in
     (semantics → mon_NextCheckAt m' = clk ∧ mon_LastCheckedAt m' = 0
                  ∧ activeJobByMonitor s' !! id = None ∧ openIncidentByMonitor s' !! id = None)
     ∧ (mon_Enabled m = false → mon_NextCheckAt m' = clk)
     ∧ (¬ semantics → mon_Enabled m = true →
        mon_NextCheckAt m' =
          if decide (mon_IntervalSeconds m' ≠ mon_IntervalSeconds m)
          then (if decide (mon_LastCheckedAt m = 0) then clk
                else Z.max clk (mon_LastCheckedAt m + mon_IntervalSeconds m' * Second))
          else (if decide (mon_NextCheckAt m = 0) then clk else Z.max clk (mon_NextCheckAt m)))).
Proof.
  intros Hs Hb Hup. destruct (Update_Ok _ _ _ _ _ _ _ Hb Hup) as (Hv & -> & Hb' & Hact & Hopen). clear Hup.
  apply validateMonitorInput_ok in Hv as [(_ & _ & Hint & _) _]. cbn in Hint.
  split; [unfold updated_monitor; cbn zeta;
    by destruct (mon_Enabled _), (checkSemanticsChanged _ _)|]. split; [done|].
  split; [unfold updated_monitor; cbn zeta;
    destruct (mon_Enabled (_ <| mon_UpdatedAt := _ |>)) eqn:Hen; cbn in Hen;
    destruct (checkSemanticsChanged _ _); cbn; rewrite Hen; split; done|].
  pose proof (checkSemanticsChanged_spec (apply_patch m patch) m) as Hsem.
  unfold updated_monitor in *. cbn zeta in *.
  change (mon_Enabled ((apply_patch m patch) <| mon_UpdatedAt := clk |>)) with (mon_Enabled (apply_patch m patch)) in *.
  destruct (mon_Enabled (apply_patch m patch)) eqn:Hen.
  2:{ split; [|intros Habs; exfalso; revert Habs; cbn in Hen;
        destruct (checkSemanticsChanged _ _); cbn; by rewrite Hen].
      intros _. split; [by destruct (checkSemanticsChanged _ _)|]. apply Hact. by left. }
  split; [intros Habs; exfalso; revert Habs; cbn in Hen;
    destruct (checkSemanticsChanged _ _); cbn; by rewrite Hen|]. intros _.
  destruct (checkSemanticsChanged (apply_patch m patch) m) eqn:Hc; cbn in Hsem |- *; unfold rescheduled;
    change (checkSemanticsChanged ((apply_patch m patch) <| mon_UpdatedAt := clk |>) m)
      with (checkSemanticsChanged (apply_patch m patch) m); rewrite Hc; cbn [orb].
  - split; [intros _; split; [done|split; [done|split; [apply Hact; by right|by apply Hopen]]]|].
    split; [done|]. intros Hns. exfalso. apply Hns. by apply Hsem.
  - split; [intros Hx; exfalso; by apply Hsem in Hx|]. split.
    + intros Hdis. cbn in Hen. cbn. rewrite Hen, Hdis. done.
    + intros _ Hme. cbn in Hen. cbn. rewrite Hen, Hme. cbn.
      destruct (Z.eqb_spec (default (mon_IntervalSeconds m) (patch_IntervalSeconds patch)) (mon_IntervalSeconds m)) as [He|He].
      * rewrite decide_False by auto. cbn [negb]. unfold IsZero, Before.
        destruct (Z.eqb_spec (mon_NextCheckAt m) 0); [by rewrite decide_True|].
        rewrite decide_False by done. cbn [orb]. destruct (Z.ltb_spec (mon_NextCheckAt m) clk); lia.
      * rewrite decide_True by auto. cbn [negb]. unfold nextCheckAfterIntervalChange, IsZero, UTC, After, AddDur.
        destruct (Z.eqb_spec (mon_LastCheckedAt m) 0); [by rewrite decide_True|].
        rewrite decide_False by done. rewrite seconds_small by lia.
        destruct (Z.ltb_spec clk (mon_LastCheckedAt m
          + default (mon_IntervalSeconds m) (patch_IntervalSeconds patch) * Second)); cbn [negb]; lia.
Qed.

(** The sample monitor's interval becomes five minutes one second after its check. *)
Lemma Update_reschedules_witness :
  let patch := {| patch_URL := None; patch_IntervalSeconds := Some 300; patch_TimeoutSeconds := None;
                  patch_ExpectedStatus := None; patch_Enabled := None |} in
  ∃ s' m', Update (sample 5) sample_monitor patch (sample_now + 4 * Second) = (s', Ok m')
  ∧ byID s' !! sample_monitor = Some m'.
Proof.
  intros patch. destruct (byID (sample 5) !! sample_monitor) as [m|] eqn:Hb; [|vm_compute in Hb; discriminate].
  destruct (Update (sample 5) sample_monitor patch (sample_now + 4 * Second)) as [s' [m'|e]] eqn:Hu;
    [|vm_compute in Hu; discriminate].
  exists s', m'. split; [reflexivity|].
  exact (proj1 (proj2 (Update_reschedules default_policy (sample 5) s' sample_monitor patch
    (sample_now + 4 * Second) m m' (sample_reachable 5) Hb Hu))).
Defined.
