(* ===== verification/StoreClaim.v ===== *)
(** * Claiming due jobs

    [ClaimDueJobsWithMaxAttempts] against its specification: after recovering
    lapsed jobs, the answer is the first [limit] of the claimable jobs in order
    of availability followed by the due monitors in order of their schedule,
    and exactly these are leased in the store. *)

From stdpp Require Import base list gmap strings sorting.
From Stdlib Require Import ZArith Lia Ascii.
From S2P Require Import Prelude GoNum GoStrings NetworkPolicy Egress Domain History Store StoreInv Sample StoreJobs.
#[local] Open Scope string_scope.
#[local] Open Scope list_scope.
#[local] Open Scope Z_scope.

Definition insert_jobs (m : gmap string CheckJobRecord) (js : list CheckJobRecord) : gmap string CheckJobRecord :=
  foldl (λ m j, <[job_ID j := j]> m) m js.
Definition activate_jobs (m : gmap string string) (js : list CheckJobRecord) : gmap string string :=
  foldl (λ m j, <[job_MonitorID j := job_ID j]> m) m js.

(** The [n]-th job of a claim gets the [n]-th token. *)
Definition lease_all (now : Time) (lt : Z) (rnd : nat → Entropy) (n : nat) (js : list CheckJobRecord)
  : list CheckJobRecord :=
  imap (λ i j, leased_job j now lt (newID "publish" (rnd (n + i)%nat))) js.
Definition schedule_all (now : Time) (lt : Z) (clk : Time) (rnd : nat → Entropy) (n : nat) (ms : list Monitor)
  : list CheckJobRecord :=
  imap (λ i m, scheduled_job m now lt clk (newID "publish" (rnd (n + i)%nat))) ms.

Definition due (active : gmap string string) (now : Time) (m : Monitor) : bool :=
  mon_Enabled m && negb (After (mon_NextCheckAt m) now) && bool_decide (active !! mon_ID m = None).

Section claim.
Context `{!Unicode, !URLParser, !MapRange}.

Lemma claim_jobs_eq limit now lt rnd cands s claimed :
  let new := lease_all now lt rnd (length claimed) (take (Z.to_nat (limit - Z.of_nat (length claimed))) cands) in
  claim_jobs limit now lt rnd cands s claimed
  = (s <| checkJobs := insert_jobs (checkJobs s) new |>, claimed ++ new).
Proof.
  revert s claimed. induction cands as [|j rest IH]; intros s claimed; cbn [claim_jobs].
  { rewrite take_nil. cbn. rewrite app_nil_r. by destruct s. }
  destruct (Z.leb_spec limit (Z.of_nat (length claimed))) as [Hle|Hlt].
  { replace (Z.to_nat (limit - Z.of_nat (length claimed))) with 0%nat by lia. cbn. rewrite app_nil_r. by destruct s. }
  cbn zeta. rewrite IH. rewrite length_app. cbn [length].
  destruct (Z.to_nat (limit - Z.of_nat (length claimed))) as [|k] eqn:Hk; [lia|].
  replace (Z.to_nat (limit - Z.of_nat (length claimed + 1))) with k by lia.
  cbn [take lease_all imap]. unfold lease_all. cbn [imap]. rewrite Nat.add_0_r.
  assert (imap (λ i j0, leased_job j0 now lt (newID "publish" (rnd (length claimed + 1 + i)%nat))) (take k rest)
          = imap ((λ i j0, leased_job j0 now lt (newID "publish" (rnd (length claimed + i)%nat))) ∘ S) (take k rest)) as ->.
  { apply imap_ext. intros i x _. cbn. by replace (length claimed + 1 + i)%nat with (length claimed + S i)%nat by lia. }
  rewrite <- app_assoc. reflexivity.
Qed.

Lemma filter_due_insert active now (ms : list Monitor) id job :
  id ∉ mon_ID <$> ms →
  List.filter (due (<[id := job]> active) now) ms = List.filter (due active now) ms.
Proof.
  intros Hid. apply List.filter_ext_in. intros m Hm%list_elem_of_In. unfold due.
  rewrite lookup_insert_ne; [done|]. intros ->. apply Hid, list_elem_of_fmap. eauto.
Qed.

Lemma claim_monitors_eq limit now lt clk rnd ms s claimed :
  NoDup (mon_ID <$> ms) →
  let new := schedule_all now lt clk rnd (length claimed)
    (take (Z.to_nat (limit - Z.of_nat (length claimed))) (List.filter (due (activeJobByMonitor s) now) ms)) in
  claim_monitors limit now lt clk rnd ms s claimed
  = (s <| checkJobs := insert_jobs (checkJobs s) new |>
       <| activeJobByMonitor := activate_jobs (activeJobByMonitor s) new |>, claimed ++ new).
Proof.
  revert s claimed. induction ms as [|m rest IH]; intros s claimed Hnd; cbn [claim_monitors].
  { cbn. rewrite take_nil. cbn. rewrite app_nil_r. by destruct s. }
  cbn in Hnd. apply NoDup_cons in Hnd as [Hm Hnd].
  destruct (Z.leb_spec limit (Z.of_nat (length claimed))) as [Hle|Hlt].
  { replace (Z.to_nat (limit - Z.of_nat (length claimed))) with 0%nat by lia. cbn. rewrite app_nil_r. by destruct s. }
  cbn [List.filter]. assert (due (activeJobByMonitor s) now m =
    mon_Enabled m && negb (After (mon_NextCheckAt m) now) && bool_decide (activeJobByMonitor s !! mon_ID m = None)) as -> by done.
  destruct (mon_Enabled m) eqn:Hen; cbn [negb orb andb]; [|by apply IH].
  destruct (After (mon_NextCheckAt m) now) eqn:Haf; cbn [negb andb]; [by apply IH|].
  destruct (decide (is_Some (activeJobByMonitor s !! mon_ID m))) as [Hact|Hact].
  { rewrite bool_decide_false; [by apply IH|]. intros Hn. rewrite Hn in Hact. by destruct Hact. }
  apply eq_None_not_Some in Hact. rewrite bool_decide_true by done. cbn zeta.
  rewrite IH by done. cbn [activeJobByMonitor set_field]. cbn -[due insert_jobs activate_jobs schedule_all scheduled_job].
  rewrite filter_due_insert by done. rewrite length_app. cbn [length].
  destruct (Z.to_nat (limit - Z.of_nat (length claimed))) as [|k] eqn:Hk; [lia|].
  replace (Z.to_nat (limit - Z.of_nat (length claimed + 1))) with k by lia. cbn [take].
  set (l := take k _). unfold schedule_all. cbn [imap]. rewrite Nat.add_0_r.
  assert (imap (λ i m0, scheduled_job m0 now lt clk (newID "publish" (rnd (length claimed + 1 + i)%nat))) l
          = imap ((λ i m0, scheduled_job m0 now lt clk (newID "publish" (rnd (length claimed + i)%nat))) ∘ S) l) as ->.
  { apply imap_ext. intros i x _. cbn. by replace (length claimed + 1 + i)%nat with (length claimed + S i)%nat by lia. }
  rewrite <- app_assoc. reflexivity.
Qed.

(** The selection a claim makes in the recovered store. *)
Definition claim_selection (s : MonitorStore) (limit : Z) (now : Time) (lt maxAttempts : Z) (clk : Time)
    (rnd : nat → Entropy) : list CheckJobRecord * list CheckJobRecord :=
  let retries := take (Z.to_nat limit)
    (SortFunc compare_jobs (List.filter (claimable maxAttempts now) (map_range (checkJobs s)).*2)) in
  let fresh := take (Z.to_nat limit - length retries)
    (List.filter (due (activeJobByMonitor s) now) (SortFunc compare_due (map_range (byID s)).*2)) in
  (lease_all now lt rnd 0 retries, schedule_all now lt clk rnd (length retries) fresh).

Lemma length_lease_all now lt rnd n js : length (lease_all now lt rnd n js) = length js.
Proof. apply length_imap. Qed.

Lemma ClaimDueJobs_eq s limit now lt maxAttempts clk rnd :
  store_wf s → 0 < limit →
  let lt' := if lt <=? 0 then Minute else lt in
  let max' := if maxAttempts <=? 0 then defaultMaxJobAttempts else maxAttempts in
  let s1 := recover_jobs s max' now in
  let '(retries, fresh) := claim_selection s1 limit now lt' max' clk rnd in
  ClaimDueJobsWithMaxAttempts s limit now lt maxAttempts clk rnd
  = if claims_fit limit
    then Some (s1 <| checkJobs := insert_jobs (checkJobs s1) (retries ++ fresh) |>
                  <| activeJobByMonitor := activate_jobs (activeJobByMonitor s1) fresh |>, retries ++ fresh)
    else None.
Proof.
  intros Hs Hlim lt' max' s1. unfold claim_selection, ClaimDueJobsWithMaxAttempts, claims_fit, make_slice.
  rewrite (proj2 (Z.leb_gt limit 0)) by lia.
  unfold UTC. cbn [orb]. cbn zeta. destruct (in_range _ _); [|done].
  fold lt' max'. fold s1. rewrite claim_jobs_eq. cbn [length app].
  rewrite Z.sub_0_r. set (cands := SortFunc compare_jobs _).
  rewrite length_lease_all. set (retries := lease_all _ _ _ _ _).
  destruct (recover_jobs_wf s max' now Hs) as [Hs1 _]. fold s1 in Hs1.
  destruct (Z.leb_spec limit (Z.of_nat (length (take (Z.to_nat limit) cands)))) as [Hle|Hlt].
  - replace (Z.to_nat limit - length (take (Z.to_nat limit) cands))%nat with 0%nat by lia.
    cbn [take schedule_all imap]. rewrite !app_nil_r. by destruct s1.
  - rewrite claim_monitors_eq.
    2:{ rewrite SortFunc_Permutation. exact (monitors_ids_NoDup s1 Hs1). }
    cbn [checkJobs activeJobByMonitor byID set_field]. unfold retries. rewrite length_lease_all.
    replace (Z.to_nat (limit - Z.of_nat (length (take (Z.to_nat limit) cands))))
      with (Z.to_nat limit - length (take (Z.to_nat limit) cands))%nat by lia.
    cbn -[due insert_jobs activate_jobs schedule_all scheduled_job lease_all take cands s1].
    f_equal. unfold insert_jobs. rewrite foldl_app. reflexivity.
Qed.
(** ** What the recovery does *)

(** What it makes of a live job that has attempts left. *)
Definition recovered (maxAttempts : Z) (now : Time) (j : CheckJobRecord) : CheckJobRecord :=
  if needs_recovery maxAttempts now j
  then j <| job_Status := checkJobStatusFailed |> <| job_AvailableAt := now |>
         <| job_ProcessingStartedAt := time_zero |> <| job_LeaseExpiresAt := time_zero |>
         <| job_LeaseToken := "" |> <| job_LastError := "processing lease expired" |> <| job_UpdatedAt := now |>
  else j.

Lemma recover_job_skip maxAttempts now s id j : job_terminal j = true → recover_job maxAttempts now s (id, j) = s.
Proof.
  intros Ht. unfold recover_job. rewrite <- negb_orb. fold (needs_recovery maxAttempts now j).
  destruct (needs_recovery maxAttempts now j) eqn:Hr; [|done]. apply needs_recovery_live in Hr. congruence.
Qed.

Lemma recover_job_lookup maxAttempts now s id j :
  checkJobs s !! id = Some j → job_Attempt j < maxAttempts →
  checkJobs (recover_job maxAttempts now s (id, j)) !! id = Some (recovered maxAttempts now j).
Proof.
  intros Hj Hlt. unfold recover_job, recovered. rewrite <- negb_orb. fold (needs_recovery maxAttempts now j).
  destruct (needs_recovery maxAttempts now j); cbn [negb]; [|done].
  rewrite (proj2 (Z.leb_gt maxAttempts _)) by lia. cbn. by rewrite lookup_insert_eq.
Qed.

(** Invariants of the recovery loop: [P] holds of the store at the start and
    is kept by the visit of each live entry, which is current. *)
Lemma recover_fold_ind maxAttempts now (P : MonitorStore → Prop) entries s :
  NoDup entries.*1 → store_wf s →
  (∀ i w, (i, w) ∈ entries → job_terminal w = false → checkJobs s !! i = Some w) →
  (∀ s' i w, (i, w) ∈ entries → store_wf s' → checkJobs s' !! i = Some w → live w → P s' →
     P (recover_job maxAttempts now s' (i, w))) →
  P s → P (foldl (recover_job maxAttempts now) s entries).
Proof.
  revert s. induction entries as [|[i w] rest IH]; intros s Hnd Hs Hcur Hstep HP; [done|].
  cbn in Hnd. apply NoDup_cons in Hnd as [Hi Hnd]. cbn [foldl]. destruct (job_terminal w) eqn:Hw.
  - rewrite recover_job_skip by done. apply IH; try done; [intros ? ? ?; apply Hcur; set_solver|].
    intros s' i' w' Hin. apply Hstep. set_solver.
  - assert (checkJobs s !! i = Some w) as Hj by (apply Hcur; [set_solver|done]).
    destruct (recover_job_step maxAttempts now s i w Hs Hj) as (Hs' & _ & Hlive).
    apply IH; try done.
    + intros i' w' Hin Hn. apply Hlive; [|apply Hcur; [set_solver|done]|done].
      intros ->. apply Hi, list_elem_of_fmap. by exists (i, w').
    + intros s' i' w' Hin. apply Hstep. set_solver.
    + apply Hstep; [set_solver|done..].
Qed.

Lemma recover_fold_lookup maxAttempts now entries s id j :
  NoDup entries.*1 → store_wf s →
  (∀ i w, (i, w) ∈ entries → job_terminal w = false → checkJobs s !! i = Some w) →
  (id, j) ∈ entries → live j → job_Attempt j < maxAttempts →
  checkJobs (foldl (recover_job maxAttempts now) s entries) !! id = Some (recovered maxAttempts now j).
Proof.
  revert s. induction entries as [|[i w] rest IH]; intros s Hnd Hs Hcur Hin Hn Hlt; [set_solver|].
  cbn in Hnd. apply NoDup_cons in Hnd as [Hi Hnd]. cbn [foldl].
  apply elem_of_cons in Hin as [[= <- <-]|Hin].
  - assert (checkJobs s !! id = Some j) as Hj by (apply Hcur; [set_solver|done]).
    destruct (recover_job_step maxAttempts now s id j Hs Hj) as (Hs' & _ & Hlive).
    apply (recover_fold_ind maxAttempts now (λ s', checkJobs s' !! id = Some (recovered maxAttempts now j))); try done.
    + intros i' w' Hin' Hn'. apply Hlive; [|apply Hcur; [set_solver|done]|done].
      intros ->. apply Hi, list_elem_of_fmap. by exists (id, w').
    + intros s' i' w' Hin' Hs'' Hj' Hn' HP.
      destruct (recover_job_step maxAttempts now s' i' w' Hs'' Hj') as (_ & _ & Hlive').
      apply Hlive'; [|done|unfold recovered; by destruct (needs_recovery _ _ _)].
      intros ->. apply Hi, list_elem_of_fmap. by exists (i', w').
    + by apply recover_job_lookup.
  - destruct (job_terminal w) eqn:Hw.
    + rewrite recover_job_skip by done. apply IH; try done. intros ? ? ?; apply Hcur; set_solver.
    + assert (checkJobs s !! i = Some w) as Hj by (apply Hcur; [set_solver|done]).
      destruct (recover_job_step maxAttempts now s i w Hs Hj) as (Hs' & _ & Hlive).
      apply IH; try done. intros i' w' Hin' Hn'. apply Hlive; [|apply Hcur; [set_solver|done]|done].
      intros ->. apply Hi, list_elem_of_fmap. by exists (i, w').
Qed.

Lemma entries_current s i w :
  (i, w) ∈ map_range (checkJobs s) → job_terminal w = false → checkJobs s !! i = Some w.
Proof. intros Hx _. by apply elem_of_map_range in Hx. Qed.

Lemma recover_jobs_lookup s maxAttempts now id j :
  store_wf s → checkJobs s !! id = Some j → live j → job_Attempt j < maxAttempts →
  checkJobs (recover_jobs s maxAttempts now) !! id = Some (recovered maxAttempts now j).
Proof.
  intros Hs Hj Hn Hlt. apply recover_fold_lookup; try done; [apply NoDup_map_range_keys|by apply entries_current|].
  by apply elem_of_map_range.
Qed.

(** A monitor without an active job is not touched. *)
Lemma finishExhausted_idle s id j e now m :
  job_MonitorID j ≠ m →
  byID (finishExhaustedJobLocked s id j e now) !! m = byID s !! m
  ∧ activeJobByMonitor (finishExhaustedJobLocked s id j e now) !! m = activeJobByMonitor s !! m.
Proof.
  intros Hne. unfold finishExhaustedJobLocked. set (s1 := if decide _ then _ else _).
  destruct (rememberTerminal_fields s1 id) as (_ & P2 & _ & _ & P5 & _).
  assert (byID (rememberTerminalJobLocked s1 id) !! m = byID s !! m
    ∧ activeJobByMonitor (rememberTerminalJobLocked s1 id) !! m = activeJobByMonitor s !! m) as HR.
  { rewrite P2, P5. unfold s1. case_decide; cbn; [by rewrite lookup_delete_ne|done]. }
  cbn zeta. destruct (job_Kind _); [|done].
  match goal with |- context [match ?x with Some _ => _ | None => _ end] => destruct x end; [|done].
  cbn -[rememberTerminalJobLocked s1]. by rewrite lookup_insert_ne.
Qed.

Lemma recover_jobs_idle s maxAttempts now m :
  store_wf s → activeJobByMonitor s !! m = None →
  byID (recover_jobs s maxAttempts now) !! m = byID s !! m
  ∧ activeJobByMonitor (recover_jobs s maxAttempts now) !! m = None.
Proof.
  intros Hs Ha.
  apply (recover_fold_ind maxAttempts now (λ s', byID s' !! m = byID s !! m ∧ activeJobByMonitor s' !! m = None));
    try done; [apply NoDup_map_range_keys|apply entries_current|].
  intros s' i w _ Hs' Hw Hn [Hb Ha']. unfold recover_job. rewrite <- negb_orb. destruct (_ || _); cbn [negb]; [|done].
  destruct (maxAttempts <=? job_Attempt w); [|done].
  assert (job_MonitorID w ≠ m) as Hne.
  { intros Heq. destruct (job_lookup _ _ _ Hs' Hw) as (_ & _ & Hx). specialize (Hx Hn). congruence. }
  destruct (finishExhausted_idle s' i w (if processingExpired w now then "processing lease expired"
    else "maximum processing attempts reached") now m Hne) as [-> ->]. done.
Qed.

(** ** What is claimed is stored *)

Lemma insert_jobs_lookup m js j : NoDup (job_ID <$> js) → j ∈ js → insert_jobs m js !! job_ID j = Some j.
Proof.
  revert m. induction js as [|k js IH]; intros m Hnd Hin; [set_solver|].
  cbn in Hnd. apply NoDup_cons in Hnd as [Hk Hnd]. cbn.
  apply elem_of_cons in Hin as [->|Hin]; [|by apply IH].
  clear IH. assert (∀ m' : gmap string CheckJobRecord, m' !! job_ID k = Some k → foldl (λ m j, <[job_ID j:=j]> m) m' js !! job_ID k = Some k) as Hk'.
  { clear m. induction js as [|k' js IH]; intros m' Hm'; [done|]. cbn in *.
    apply NoDup_cons in Hnd as [_ Hnd]. apply IH; [set_solver|done|]. rewrite lookup_insert_ne; [done|set_solver]. }
  apply Hk'. by rewrite lookup_insert_eq.
Qed.

Lemma elem_of_lease_all now lt rnd n js j' :
  j' ∈ lease_all now lt rnd n js ↔ ∃ i j, js !! i = Some j ∧ j' = leased_job j now lt (newID "publish" (rnd (n + i)%nat)).
Proof. unfold lease_all. rewrite elem_of_lookup_imap. naive_solver. Qed.

Lemma elem_of_schedule_all now lt clk rnd n ms j' :
  j' ∈ schedule_all now lt clk rnd n ms ↔
  ∃ i m, ms !! i = Some m ∧ j' = scheduled_job m now lt clk (newID "publish" (rnd (n + i)%nat)).
Proof. unfold schedule_all. rewrite elem_of_lookup_imap. naive_solver. Qed.

Lemma lease_all_ids now lt rnd n js : job_ID <$> lease_all now lt rnd n js = job_ID <$> js.
Proof. unfold lease_all. rewrite fmap_imap. by rewrite <- imap_const. Qed.

Lemma schedule_all_ids now lt clk rnd n ms :
  job_ID <$> schedule_all now lt clk rnd n ms = (λ m, NewCheckJobID (mon_ID m) (mon_NextCheckAt m) clk) <$> ms.
Proof. unfold schedule_all. rewrite fmap_imap. by rewrite <- imap_const. Qed.
End claim.

Lemma retries_current `{!Unicode, !URLParser, !MapRange} s maxAttempts now n j :
  store_wf s →
  j ∈ take n (SortFunc compare_jobs (List.filter (claimable maxAttempts now) (map_range (checkJobs s)).*2)) →
  checkJobs s !! job_ID j = Some j ∧ claimable maxAttempts now j = true.
Proof.
  intros Hs Hj. apply (subseteq_take n), elem_of_SortFunc, elem_of_filter_bool in Hj as [Hj ?].
  split; [by apply jobs_current|done].
Qed.

Lemma fresh_current `{!Unicode, !URLParser, !MapRange} s now n m :
  store_wf s →
  m ∈ take n (List.filter (due (activeJobByMonitor s) now) (SortFunc compare_due (map_range (byID s)).*2)) →
  byID s !! mon_ID m = Some m ∧ mon_Enabled m = true ∧ mon_NextCheckAt m <= now
  ∧ activeJobByMonitor s !! mon_ID m = None.
Proof.
  intros Hs Hm. apply (subseteq_take n), elem_of_filter_bool in Hm as [Hm Hd].
  rewrite elem_of_SortFunc in Hm. split; [by apply monitors_current|].
  unfold due, After in Hd. apply andb_true_iff in Hd as [[Hen Ht]%andb_true_iff Ha].
  apply negb_true_iff, Z.ltb_ge in Ht. by apply bool_decide_eq_true in Ha.
Qed.

Lemma NoDup_take_sub {A} (n : nat) (l : list A) : NoDup l → NoDup (take n l).
Proof. intros Hl. rewrite <- (take_drop n l) in Hl. by apply NoDup_app in Hl as [? _]. Qed.

(** The claimed identifiers are pairwise distinct. *)
Lemma selection_ids `{!Unicode, !URLParser, !MapRange} s limit now lt maxAttempts clk rnd retries fresh :
  store_wf s → claim_selection s limit now lt maxAttempts clk rnd = (retries, fresh) →
  NoDup (job_ID <$> retries ++ fresh).
Proof.
  intros Hs [= <- <-]. rewrite fmap_app, lease_all_ids, schedule_all_ids. apply NoDup_app. split_and!.
  - rewrite fmap_take. apply NoDup_take_sub. rewrite SortFunc_Permutation. by apply NoDup_fmap_filter, jobs_ids_NoDup.
  - intros id (j & -> & Hj)%list_elem_of_fmap (m & Heq & Hm)%list_elem_of_fmap.
    apply retries_current in Hj as [Hj Hc]; [|done]. apply fresh_current in Hm as (_ & _ & _ & Ha); [|done].
    rewrite Heq in Hj. apply (scheduled_job_free _ _ _ _ _ Hs Ha) in Hj. apply claimable_live in Hc as [? _]. congruence.
  - apply (NoDup_fmap_2_strong _ _).
    + intros m1 m2 Hm1 Hm2 Heq%NewCheckJobID_monitor.
      apply fresh_current in Hm1 as [E1 _]; [|done]. apply fresh_current in Hm2 as [E2 _]; [|done]. congruence.
    + apply NoDup_take_sub. apply (NoDup_fmap_1 mon_ID), NoDup_fmap_filter.
      rewrite SortFunc_Permutation. by apply monitors_ids_NoDup.
Qed.

(** C3: what a claim returns: the first [limit] of the claimable jobs
    (scheduled or failed, available, unleased, attempts left) ordered by
    availability, then schedule, then identifier, followed by one new job for
    each enabled due monitor without an active job, ordered by schedule and
    identifier; the returned jobs are exactly the ones the store leased.  Only
    a limit no slice of jobs can be made for panics, and it always does. *)
Theorem ClaimDueJobs_selection `{!Unicode, !URLParser, !MapRange} (p : NetworkPolicy) (s : MonitorStore) limit now lt maxAttempts clk rnd :
  reachable p s → 0 < limit →
  let lt' := if lt <=? 0 then Minute else lt in
  let max' := if maxAttempts <=? 0 then defaultMaxJobAttempts else maxAttempts in
  let s1 := recover_jobs s max' now in
  let retries := lease_all now lt' rnd 0 (take (Z.to_nat limit)
    (SortFunc compare_jobs (List.filter (claimable max' now) (map_range (checkJobs s1)).*2))) in
  let fresh := schedule_all now lt' clk rnd (length retries) (take (Z.to_nat limit - length retries)
    (List.filter (due (activeJobByMonitor s1) now) (SortFunc compare_due (map_range (byID s1)).*2))) in
  ClaimDueJobsWithMaxAttempts s limit now lt maxAttempts clk rnd
  = if claims_fit limit
    then Some (s1 <| checkJobs := insert_jobs (checkJobs s1) (retries ++ fresh) |>
                  <| activeJobByMonitor := activate_jobs (activeJobByMonitor s1) fresh |>, retries ++ fresh)
    else None.
Proof.
  intros Hs%reachable_wf Hlim. pose proof (ClaimDueJobs_eq s limit now lt maxAttempts clk rnd Hs Hlim) as Heq.
  unfold claim_selection in Heq. cbn zeta in *. by rewrite !length_lease_all.
Qed.

Lemma ClaimDueJobs_selection_witness :
  0 < 5 ∧ snd <$> ClaimDueJobsWithMaxAttempts (sample 1) 5 (sample_now + Second) Minute 3 sample_now (λ _, sample_rnd 2)
  = Some (schedule_all (sample_now + Second) Minute sample_now (λ _, sample_rnd 2) 0
      (map_range (byID (sample 1))).*2).
Proof.
  split; [lia|].
  rewrite (ClaimDueJobs_selection default_policy (sample 1) 5 (sample_now + Second) Minute 3 sample_now (λ _, sample_rnd 2)
    (sample_reachable 1) ltac:(lia)). vm_compute. reflexivity.
Defined.

(** Every claimed job is stored and leased. *)
Lemma ClaimDueJobs_claims `{!Unicode, !URLParser, !MapRange} (s s' : MonitorStore) limit now lt maxAttempts clk rnd claimed :
  store_wf s → 0 < limit → 0 < lt → 0 < maxAttempts →
  ClaimDueJobsWithMaxAttempts s limit now lt maxAttempts clk rnd = Some (s', claimed) →
  Z.of_nat (length claimed) <= limit ∧ NoDup (job_MonitorID <$> claimed)
  ∧ ∀ i j, claimed !! i = Some j →
      checkJobs s' !! job_ID j = Some j ∧ job_Status j = checkJobStatusScheduled
      ∧ activeJobByMonitor s' !! job_MonitorID j = Some (job_ID j)
      ∧ job_PublicationToken j = newID "publish" (rnd i) ∧ job_LeaseExpiresAt j = now + lt
      ∧ job_AvailableAt j <= now ∧ 0 <= job_Attempt j < maxAttempts ∧ job_LeaseToken j = "".
Proof.
  intros Hs Hlim Hlt Hmax Hclaim.
  pose proof (ClaimDueJobs_wf s limit now lt maxAttempts clk rnd _ _ Hs Hclaim) as Hs'.
  pose proof (ClaimDueJobs_eq s limit now lt maxAttempts clk rnd Hs Hlim) as Heq. rewrite Hclaim in Heq.
  rewrite (proj2 (Z.leb_gt lt 0)), (proj2 (Z.leb_gt maxAttempts 0)) in Heq by lia. cbn zeta in Heq.
  destruct (recover_jobs_wf s maxAttempts now Hs) as [Hs1 _]. set (s1 := recover_jobs s maxAttempts now) in *.
  destruct (claim_selection s1 limit now lt maxAttempts clk rnd) as [retries fresh] eqn:Hsel.
  pose proof (selection_ids _ _ _ _ _ _ _ _ _ Hs1 Hsel) as Hnd. destruct (claims_fit limit); [|done]. injection Heq as Hst ->.
  assert (∀ i j, (retries ++ fresh) !! i = Some j →
    checkJobs s' !! job_ID j = Some j ∧ job_Status j = checkJobStatusScheduled
    ∧ job_PublicationToken j = newID "publish" (rnd i) ∧ job_LeaseExpiresAt j = now + lt
    ∧ job_AvailableAt j <= now ∧ job_Attempt j < maxAttempts) as Hall.
  { intros i j Hi. split.
    { rewrite Hst. cbn. apply insert_jobs_lookup; [done|by eapply list_elem_of_lookup_2]. }
    injection Hsel as <- <-. apply lookup_app_Some in Hi as [Hi|[Hge Hi]]; unfold lease_all, schedule_all in Hi;
      rewrite list_lookup_imap in Hi; apply fmap_Some in Hi as (x & Hx & ->).
    - apply list_elem_of_lookup_2, retries_current in Hx as [_ Hc]; [|done]. split_and!; try done.
      + unfold claimable, After in Hc. rewrite !andb_true_iff, negb_true_iff, Z.leb_gt in Hc. cbn.
        destruct Hc as [[[_ ?] Ht] _]. apply negb_true_iff, Z.ltb_ge in Ht. lia.
      + unfold claimable in Hc. rewrite !andb_true_iff, negb_true_iff, Z.leb_gt in Hc. cbn. tauto.
    - rewrite length_lease_all in *. cbn. split_and!; try (done || lia).
      f_equal. f_equal. rewrite length_imap. lia. }
  split; [|split].
  - injection Hsel as <- <-. rewrite length_app, length_lease_all. unfold schedule_all. rewrite length_imap, !length_take. lia.
  - apply (NoDup_fmap_2_strong _ _); [|by apply (NoDup_fmap_1 job_ID)].
    intros j1 j2 [i1 Hi1]%list_elem_of_lookup_1 [i2 Hi2]%list_elem_of_lookup_1 Hm.
    destruct (Hall _ _ Hi1) as (E1 & S1 & _). destruct (Hall _ _ Hi2) as (E2 & S2 & _).
    destruct (job_lookup _ _ _ Hs' E1) as (_ & _ & A1). destruct (job_lookup _ _ _ Hs' E2) as (_ & _ & A2).
    unfold job_terminal in A1, A2. rewrite S1 in A1. rewrite S2 in A2. specialize (A1 eq_refl). specialize (A2 eq_refl).
    rewrite Hm in A1. congruence.
  - intros i j Hi. destruct (Hall _ _ Hi) as (E & S & T & L & Av & At).
    destruct (job_lookup _ _ _ Hs' E) as (Hok & _ & A). unfold job_terminal in A. rewrite S in A.
    split_and!; try done; [by apply A|by eapply job_ok_attempt|]. eapply idle_token; [exact Hok|congruence].
Qed.

(** A claim never hands out more than [limit] jobs nor two jobs of one
    monitor; each job it returns is stored as scheduled, is its monitor's
    active job, carries its publication token and a lease until [now] plus the
    lease timeout, was available, and has attempts left. *)
Lemma ClaimDueJobs_sound `{!Unicode, !URLParser, !MapRange} (p : NetworkPolicy) (s s' : MonitorStore) limit now lt maxAttempts clk rnd claimed :
  reachable p s → 0 < limit → 0 < lt → 0 < maxAttempts →
  ClaimDueJobsWithMaxAttempts s limit now lt maxAttempts clk rnd = Some (s', claimed) →
  Z.of_nat (length claimed) <= limit ∧ NoDup (job_MonitorID <$> claimed)
  ∧ ∀ i j, claimed !! i = Some j →
      checkJobs s' !! job_ID j = Some j ∧ job_Status j = checkJobStatusScheduled
      ∧ activeJobByMonitor s' !! job_MonitorID j = Some (job_ID j)
      ∧ job_PublicationToken j = newID "publish" (rnd i) ∧ job_LeaseExpiresAt j = now + lt
      ∧ job_AvailableAt j <= now ∧ 0 <= job_Attempt j < maxAttempts ∧ job_LeaseToken j = "".
Proof. intros Hs%reachable_wf. by apply ClaimDueJobs_claims. Qed.

(** A claim within bounds returns. *)
Lemma ClaimDueJobs_returns `{!Unicode, !URLParser, !MapRange} s limit now lt maxAttempts clk rnd :
  claims_fit limit = true → ∃ s' claimed, ClaimDueJobsWithMaxAttempts s limit now lt maxAttempts clk rnd = Some (s', claimed).
Proof.
  intros Hfit. destruct (ClaimDueJobsWithMaxAttempts s limit now lt maxAttempts clk rnd) as [[s' claimed]|] eqn:Hc; [by eauto|].
  apply ClaimDueJobs_panics in Hc. congruence.
Qed.

Lemma ClaimDueJobs_sound_witness :
  ∃ s claimed, ClaimDueJobsWithMaxAttempts (sample 1) 5 (sample_now + Second) Minute 3 sample_now (λ _, sample_rnd 2) = Some (s, claimed)
  ∧ NoDup (job_MonitorID <$> claimed).
Proof.
  destruct (ClaimDueJobs_returns (sample 1) 5 (sample_now + Second) Minute 3 sample_now (λ _, sample_rnd 2) eq_refl)
    as (s & claimed & Hc).
  exists s, claimed. split; [exact Hc|].
  exact (proj1 (proj2 (ClaimDueJobs_sound default_policy (sample 1) s 5 (sample_now + Second) Minute 3 sample_now
    (λ _, sample_rnd 2) claimed (sample_reachable 1) ltac:(lia) ltac:(done) ltac:(lia) Hc))).
Defined.

Lemma take_short {A} (n : nat) (l : list A) : (length (take n l) < n)%nat → take n l = l.
Proof. rewrite length_take. intros ?. apply take_ge. lia. Qed.

(** Nothing due is left behind: when a claim returns fewer jobs than its
    limit it has returned every claimable job, every job whose worker let its
    lease expire with attempts left (so a crashed worker's job is retried), and
    a new job for every enabled due monitor that had no active job. *)
Lemma ClaimDueJobs_complete `{!Unicode, !URLParser, !MapRange} (p : NetworkPolicy) (s s' : MonitorStore) limit now lt maxAttempts clk rnd claimed :
  reachable p s → 0 < limit → 0 < maxAttempts →
  ClaimDueJobsWithMaxAttempts s limit now lt maxAttempts clk rnd = Some (s', claimed) →
  Z.of_nat (length claimed) < limit →
  (∀ id j, checkJobs s !! id = Some j → job_Attempt j < maxAttempts →
     claimable maxAttempts now j = true ∨ processingExpired j now = true →
     ∃ j', j' ∈ claimed ∧ job_ID j' = id ∧ job_MonitorID j' = job_MonitorID j ∧ job_Attempt j' = job_Attempt j)
  ∧ (∀ id m, byID s !! id = Some m → mon_Enabled m = true → mon_NextCheckAt m <= now →
     activeJobByMonitor s !! id = None →
     ∃ j', j' ∈ claimed ∧ job_MonitorID j' = id ∧ job_ScheduledFor j' = mon_NextCheckAt m ∧ job_Attempt j' = 0).
Proof.
  intros Hs%reachable_wf Hlim Hmax Hclaim Hshort.
  pose proof (ClaimDueJobs_eq s limit now lt maxAttempts clk rnd Hs Hlim) as Heq. rewrite Hclaim in Heq.
  rewrite (proj2 (Z.leb_gt maxAttempts 0)) in Heq by lia. cbn zeta in Heq. unfold claim_selection in Heq.
  set (lt' := if lt <=? 0 then Minute else lt) in *.
  destruct (recover_jobs_wf s maxAttempts now Hs) as [Hs1 _]. set (s1 := recover_jobs s maxAttempts now) in *.
  destruct (claims_fit limit); [|done]. injection Heq as _ ->. rewrite length_app, length_lease_all in Hshort. unfold schedule_all in Hshort.
  rewrite length_imap in Hshort.
  set (cands := SortFunc compare_jobs _) in *. set (dues := List.filter (due _ now) _) in *.
  assert (take (Z.to_nat limit) cands = cands) as Hc by (apply take_short; lia). rewrite Hc in *.
  assert (take (Z.to_nat limit - length cands) dues = dues) as Hd by (apply take_short; lia). rewrite Hd in *.
  split.
  - intros id j Hj Hat Hcase.
    assert (live j) as Hn.
    { destruct Hcase as [Hx%claimable_live|Hx]; [tauto|]. apply (needs_recovery_live maxAttempts now).
      unfold needs_recovery. by rewrite Hx. }
    pose proof (recover_jobs_lookup s maxAttempts now id j Hs Hj Hn Hat) as Hj1. fold s1 in Hj1.
    set (j1 := recovered maxAttempts now j) in *.
    assert (claimable maxAttempts now j1 = true ∧ job_Attempt j1 = job_Attempt j ∧ job_MonitorID j1 = job_MonitorID j) as (Hj1c & Hj1a & Hj1m).
    { unfold j1, recovered. destruct (needs_recovery maxAttempts now j) eqn:Hr.
      - split; [|done]. unfold claimable, After, IsZero. cbn.
        rewrite (proj2 (Z.leb_gt maxAttempts _)), Z.ltb_irrefl by lia. done.
      - split; [|done]. destruct Hcase as [?|Hx]; [done|]. unfold needs_recovery in Hr. by rewrite Hx in Hr. }
    assert (j1 ∈ cands) as Hin.
    { unfold cands. apply elem_of_SortFunc, elem_of_filter_bool. split; [|done].
      apply elem_of_map_range_values. by exists id. }
    destruct (job_lookup _ _ _ Hs1 Hj1) as ((Hid & _) & _).
    apply list_elem_of_lookup_1 in Hin as [i Hi]. eexists. split; [|split; [|split]].
    + apply elem_of_app. left. apply elem_of_lease_all. exists i, j1. split; [done|reflexivity].
    + exact Hid.
    + exact Hj1m.
    + exact Hj1a.
  - intros id m Hm Hen Ht Ha.
    destruct (recover_jobs_idle s maxAttempts now id Hs Ha) as [Hb1 Ha1]. fold s1 in Hb1, Ha1.
    destruct (sw_monitor _ Hs _ _ Hm) as (Hid & _).
    assert (m ∈ dues) as Hin.
    { unfold dues. apply elem_of_filter_bool. split.
      - apply elem_of_SortFunc, elem_of_map_range_values. exists id. by rewrite Hb1.
      - unfold due, After. rewrite Hen, Hid, Ha1, bool_decide_true by done. cbn [andb].
        rewrite andb_true_r. apply negb_true_iff, Z.ltb_ge. lia. }
    apply list_elem_of_lookup_1 in Hin as [i Hi]. eexists. split; [|split; [|split]].
    + apply elem_of_app. right. apply elem_of_schedule_all. exists i, m. split; [done|reflexivity].
    + exact Hid.
    + done.
    + done.
Qed.

(** Two minutes later the sample worker's lease has expired: its job is claimed again. *)
Lemma ClaimDueJobs_complete_witness :
  ∃ s claimed, ClaimDueJobsWithMaxAttempts (sample 4) 5 (sample_now + 2 * Minute) Minute 3 sample_now (λ _, sample_rnd 7) = Some (s, claimed)
  ∧ Z.of_nat (length claimed) < 5
  ∧ ∃ j', j' ∈ claimed ∧ job_ID j' = sample_job ∧ job_Attempt j' = 1.
Proof.
  destruct (ClaimDueJobs_returns (sample 4) 5 (sample_now + 2 * Minute) Minute 3 sample_now (λ _, sample_rnd 7) eq_refl)
    as (s & claimed & Hc).
  exists s, claimed. split; [exact Hc|]. assert (Z.of_nat (length claimed) < 5) as Hshort.
  { assert ((λ r, length r.2) <$> ClaimDueJobsWithMaxAttempts (sample 4) 5 (sample_now + 2 * Minute) Minute 3 sample_now
      (λ _, sample_rnd 7) = Some 1%nat) as Hl by (vm_compute; reflexivity).
    rewrite Hc in Hl. injection Hl as Hl. cbn in Hl. lia. }
  split; [exact Hshort|].
  destruct (checkJobs (sample 4) !! sample_job) as [j|] eqn:Hj; [|vm_compute in Hj; discriminate].
  assert (job_Attempt j = 1 ∧ processingExpired j (sample_now + 2 * Minute) = true) as [Ha He]
    by (vm_compute in Hj; injection Hj as <-; split; vm_compute; reflexivity).
  destruct (proj1 (ClaimDueJobs_complete default_policy (sample 4) s 5 (sample_now + 2 * Minute) Minute 3 sample_now
    (λ _, sample_rnd 7) claimed (sample_reachable 4) ltac:(lia) ltac:(lia) Hc Hshort) sample_job j Hj)
    as (j' & Hin & Hid & _ & Hat); [lia|by right|].
  exists j'. split; [exact Hin|]. split; [exact Hid|]. congruence.
Defined.

(** ** Manual jobs and deletion *)

(** A queued job is the worker's: neither recovery nor a claim touches it. *)
Lemma recover_jobs_queued `{!Unicode, !URLParser, !MapRange} s maxAttempts now id j :
  store_wf s → checkJobs s !! id = Some j → job_Status j = checkJobStatusQueued →
  checkJobs (recover_jobs s maxAttempts now) !! id = Some j.
Proof.
  intros Hs Hj Hst. assert (job_terminal j = false) as Hn by (unfold job_terminal; by rewrite Hst).
  apply (recover_fold_ind maxAttempts now (λ s', checkJobs s' !! id = Some j));
    try done; [apply NoDup_map_range_keys|apply entries_current|].
  intros s' i w _ Hs' Hw Hlive Hj'. destruct (decide (i = id)) as [->|Hne].
  - assert (w = j) as -> by congruence. unfold recover_job, processingExpired, failedExhausted. by rewrite Hst.
  - destruct (recover_job_step maxAttempts now s' i w Hs' Hw) as (_ & _ & Hkeep). by apply Hkeep.
Qed.

Lemma insert_jobs_other m js id : id ∉ job_ID <$> js → insert_jobs m js !! id = m !! id.
Proof.
  revert m. induction js as [|k js IH]; intros m Hid; [done|]. cbn in *.
  apply not_elem_of_cons in Hid as [Hne Hid]. rewrite IH by done. apply lookup_insert_ne. congruence.
Qed.

Lemma claim_skips_queued `{!Unicode, !URLParser, !MapRange} s limit now lt maxAttempts clk rnd s' claimed id j :
  store_wf s → checkJobs s !! id = Some j → job_Status j = checkJobStatusQueued →
  ClaimDueJobsWithMaxAttempts s limit now lt maxAttempts clk rnd = Some (s', claimed) →
  checkJobs s' !! id = Some j ∧ job_MonitorID j ∉ job_MonitorID <$> claimed.
Proof.
  intros Hs Hj Hst Hclaim. assert (job_terminal j = false) as Hn by (unfold job_terminal; by rewrite Hst).
  destruct (Z.leb_spec limit 0) as [Hlim|Hlim].
  { unfold ClaimDueJobsWithMaxAttempts in Hclaim. rewrite (proj2 (Z.leb_le limit 0)) in Hclaim by lia.
    injection Hclaim as <- <-. split; [done|]. cbn. apply not_elem_of_nil. }
  pose proof (ClaimDueJobs_eq s limit now lt maxAttempts clk rnd Hs Hlim) as Heq. rewrite Hclaim in Heq. cbn zeta in Heq.
  set (max' := if maxAttempts <=? 0 then defaultMaxJobAttempts else maxAttempts) in *.
  set (lt' := if lt <=? 0 then Minute else lt) in *.
  destruct (recover_jobs_wf s max' now Hs) as [Hs1 _]. pose proof (recover_jobs_queued s max' now id j Hs Hj Hst) as Hj1.
  set (s1 := recover_jobs s max' now) in *. destruct (job_lookup _ _ _ Hs1 Hj1) as (_ & _ & Ha). specialize (Ha Hn).
  destruct (claim_selection s1 limit now lt' max' clk rnd) as [retries fresh] eqn:Hsel.
  destruct (claims_fit limit); [|done]. injection Heq as -> ->.
  assert (∀ k, k ∈ retries ++ fresh → job_ID k ≠ id ∧ job_MonitorID k ≠ job_MonitorID j) as Hother.
  { injection Hsel as <- <-. intros k [Hk|Hk]%elem_of_app.
    - apply elem_of_lease_all in Hk as (i & k0 & Hk0%list_elem_of_lookup_2 & ->). cbn.
      apply retries_current in Hk0 as [Hk0 Hc]; [|done]. destruct (claimable_live _ _ _ Hc) as [Hl _].
      destruct (job_lookup _ _ _ Hs1 Hk0) as (_ & _ & Ha0). specialize (Ha0 Hl).
      assert (job_ID k0 ≠ id) as Hne.
      { intros Heq. rewrite Heq in Hk0. assert (k0 = j) as -> by congruence. revert Hc. unfold claimable. by rewrite Hst. }
      split; [done|]. intros Heq. rewrite Heq in Ha0. congruence.
    - apply elem_of_schedule_all in Hk as (i & m & Hm%list_elem_of_lookup_2 & ->). cbn.
      apply fresh_current in Hm as (_ & _ & _ & Hnone); [|done]. split; [|congruence].
      intros Heq. rewrite <- Heq in Hj1. apply (scheduled_job_free _ _ _ _ _ Hs1 Hnone) in Hj1. congruence. }
  split.
  - cbn. rewrite insert_jobs_other; [done|]. intros (k & Heq & Hk)%list_elem_of_fmap.
    destruct (Hother k Hk) as [Hne _]. by apply Hne.
  - intros (k & Heq & Hk)%list_elem_of_fmap. destruct (Hother k Hk) as [_ Hne]. by apply Hne.
Qed.

(** A queued job waits for its worker: no later pass of the scheduler,
    whatever its clock and limits, changes the job, and none claims a job for
    the job's monitor; only a worker, an update, a deletion or the recovery of a
    lost broker topology moves it on. *)
Lemma queued_job_waits `{!Unicode, !URLParser, !MapRange} (p : NetworkPolicy) (s s' : MonitorStore) limit now lt maxAttempts clk rnd claimed id j :
  reachable p s → checkJobs s !! id = Some j → job_Status j = checkJobStatusQueued →
  ClaimDueJobsWithMaxAttempts s limit now lt maxAttempts clk rnd = Some (s', claimed) →
  checkJobs s' !! id = Some j ∧ job_MonitorID j ∉ job_MonitorID <$> claimed.
Proof. intros Hs%reachable_wf. by apply claim_skips_queued. Qed.

Lemma queued_job_waits_witness :
  ∃ j, checkJobs (sample 3) !! sample_job = Some j ∧ job_Status j = checkJobStatusQueued
  ∧ ∃ s claimed, ClaimDueJobsWithMaxAttempts (sample 3) 5 (sample_now + Hour) Minute 3 sample_now (λ _, sample_rnd 5) = Some (s, claimed)
    ∧ checkJobs s !! sample_job = Some j.
Proof.
  destruct (checkJobs (sample 3) !! sample_job) as [j|] eqn:Hj; [|vm_compute in Hj; discriminate].
  assert (job_Status j = checkJobStatusQueued) as Hst by (clear - Hj; vm_compute in Hj; injection Hj as <-; reflexivity).
  exists j. split; [reflexivity|]. split; [exact Hst|].
  destruct (ClaimDueJobs_returns (sample 3) 5 (sample_now + Hour) Minute 3 sample_now (λ _, sample_rnd 5) eq_refl)
    as (s' & claimed & Hc). exists s', claimed. split; [exact Hc|].
  exact (proj1 (queued_job_waits default_policy (sample 3) s' 5 (sample_now + Hour) Minute 3 sample_now (λ _, sample_rnd 5)
    claimed sample_job j (sample_reachable 3) Hj Hst Hc)).
Defined.

(** Asking for a manual check returns the monitor's active job when it
    has one (a duplicate request creates nothing), and otherwise creates one
    scheduled manual job that is available at once and not yet leased. *)
Lemma CreateManualJob_deduplicates `{!Unicode, !URLParser, !MapRange} (p : NetworkPolicy) (s : MonitorStore) id now rnd :
  reachable p s → is_Some (byID s !! id) →
  match activeJobByMonitor s !! id with
  | Some jobID => ∃ j, checkJobs s !! jobID = Some j ∧ job_terminal j = false ∧ job_MonitorID j = id
      ∧ CreateManualJob s id now rnd = (s, Ok (j, false))
  | None => ∃ s' j, CreateManualJob s id now rnd = (s', Ok (j, true))
      ∧ checkJobs s' = <[job_ID j := j]> (checkJobs s)
      ∧ activeJobByMonitor s' = <[id := job_ID j]> (activeJobByMonitor s) ∧ byID s' = byID s
      ∧ job_Kind j = checkJobKindManual ∧ job_MonitorID j = id ∧ job_Attempt j = 0
      ∧ (∀ maxAttempts, 0 < maxAttempts → claimable maxAttempts now j = true)
  end.
Proof.
  intros Hs%reachable_wf [m Hm]. unfold CreateManualJob. rewrite Hm.
  destruct (activeJobByMonitor s !! id) as [jobID|] eqn:Ha.
  - destruct (active_job _ _ _ Hs Ha) as (j & -> & ? & ? & _). by exists j.
  - eexists _, _. split; [reflexivity|]. do 6 (split; [reflexivity|]). intros maxAttempts Hpos.
    unfold claimable, After, IsZero, UTC. cbn. rewrite (proj2 (Z.leb_gt maxAttempts 0)), Z.ltb_irrefl by lia. done.
Qed.

Lemma CreateManualJob_deduplicates_witness :
  ∃ j, CreateManualJob (sample 4) sample_monitor sample_now (sample_rnd 8) = (sample 4, Ok (j, false)).
Proof.
  pose proof (CreateManualJob_deduplicates default_policy (sample 4) sample_monitor sample_now (sample_rnd 8)
    (sample_reachable 4) ltac:(vm_compute; by eexists)) as Hm.
  destruct (activeJobByMonitor (sample 4) !! sample_monitor) as [jobID|] eqn:Ha; [|vm_compute in Ha; discriminate].
  destruct Hm as (j & _ & _ & _ & Heq). by exists j.
Defined.

(** Deleting a monitor leaves no trace of it: no job, result, incident or
    index entry of any map belongs to it afterwards, its URL is free again, and
    the data of every other monitor is untouched. *)
Lemma Delete_removes_all `{!Unicode, !URLParser, !MapRange} (p : NetworkPolicy) (s s' : MonitorStore) id m :
  reachable p s → byID s !! id = Some m → Delete s id = (s', None) →
  byID s' = delete id (byID s) ∧ byURL s' !! mon_URL m = None ∧ checks s' = delete id (checks s)
  ∧ activeJobByMonitor s' !! id = None ∧ openIncidentByMonitor s' !! id = None
  ∧ (∀ jobID j, checkJobs s' !! jobID = Some j ↔ checkJobs s !! jobID = Some j ∧ job_MonitorID j ≠ id)
  ∧ (∀ incID i, incidents s' !! incID = Some i ↔ incidents s !! incID = Some i ∧ inc_MonitorID i ≠ id).
Proof.
  intros Hs%reachable_wf Hm. unfold Delete. rewrite Hm.
  destruct (activeJobByMonitor s !! id) as [a|] eqn:Ha; cbn -[filter]; rewrite ?Ha; intros [= <-]; cbn -[filter].
  - split; [done|]. split; [apply lookup_delete_eq|]. split; [done|]. split; [apply lookup_delete_eq|].
    split; [apply lookup_delete_eq|]. split; [|intros i v; apply map_lookup_filter_Some].
    intros jobID j. rewrite map_lookup_filter_Some, lookup_delete_Some. cbn. split; [tauto|].
    intros [Hj Hne]. split; [|done]. split; [|done]. intros <-.
    destruct (active_job _ _ _ Hs Ha) as (j' & Hj' & ? & _). simplify_eq.
  - split; [done|]. split; [apply lookup_delete_eq|]. split; [done|]. split; [done|].
    split; [apply lookup_delete_eq|]. split; [intros jobID j|intros i v]; apply map_lookup_filter_Some.
Qed.

Lemma Delete_removes_all_witness :
  let s' := (Delete (sample 5) sample_monitor).1 in
  Delete (sample 5) sample_monitor = (s', None) ∧ checks s' = delete sample_monitor (checks (sample 5)).
Proof.
  intros s'. assert (Delete (sample 5) sample_monitor = (s', None)) as Hd by (vm_compute; reflexivity).
  split; [exact Hd|].
  destruct (byID (sample 5) !! sample_monitor) as [m|] eqn:Hm; [|vm_compute in Hm; discriminate].
  exact (proj1 (proj2 (proj2 (Delete_removes_all default_policy (sample 5) s' sample_monitor m (sample_reachable 5) Hm Hd)))).
Defined.
