(* ===== verification/StoreRead.v ===== *)
(** * Reading the store: pages and statistics

    The listing operations sort what a map iteration yields, so their answers
    must not depend on the iteration order; and consecutive pages must tile
    the whole list. *)

From stdpp Require Import base list gmap strings sorting.
From Stdlib Require Import ZArith Lia Ascii.
From Corelib Require Import SpecFloat.
From S2P Require Import Prelude GoNum GoStrings NetworkPolicy Egress Domain History Store StoreInv Sample.
#[local] Open Scope string_scope.
#[local] Open Scope list_scope.
#[local] Open Scope Z_scope.

(** ** Orders by a time and then an identifier *)

Section key_cmp.
Context {A : Type} (t : A → Z) (id : A → string).

Definition key_cmp (a b : A) : Z :=
  if t a =? t b then compareString (id a) (id b) else if t a <? t b then -1 else 1.

Lemma key_cmp_le a b : cmp_le key_cmp a b ↔ t a < t b ∨ (t a = t b ∧ compareString (id a) (id b) <= 0).
Proof.
  unfold cmp_le, key_cmp. destruct (Z.eqb_spec (t a) (t b)); [lia|].
  destruct (Z.ltb_spec (t a) (t b)); lia.
Qed.

#[export] Instance key_cmp_good : GoodCmp key_cmp.
Proof.
  split.
  - intros a b. rewrite !key_cmp_le, (compareString_antisym (id a) (id b)). lia.
  - intros a b c. rewrite !key_cmp_le. intros [?|[? Hab]] [?|[? Hbc]]; try lia.
    right. split; [lia|]. by eapply compareString_trans.
Qed.

Lemma key_cmp_antisym a b : cmp_le key_cmp a b → cmp_le key_cmp b a → id a = id b.
Proof.
  rewrite !key_cmp_le, (compareString_antisym (id a) (id b)). intros H1 H2.
  apply compareString_eq. lia.
Qed.
End key_cmp.

Lemma compare_created_asc_key : compare_created_asc = key_cmp mon_CreatedAt mon_ID.
Proof. done. Qed.

Lemma compare_checked_desc_key a b : compare_checked_desc a b = key_cmp (λ r, - rec_CheckedAt r) rec_ID a b.
Proof.
  unfold compare_checked_desc, key_cmp, TimeEqual, After.
  destruct (Z.eqb_spec (rec_CheckedAt a) (rec_CheckedAt b)), (Z.eqb_spec (- rec_CheckedAt a) (- rec_CheckedAt b));
    try lia; try done.
  destruct (Z.ltb_spec (rec_CheckedAt b) (rec_CheckedAt a)), (Z.ltb_spec (- rec_CheckedAt a) (- rec_CheckedAt b)); lia.
Qed.

Lemma compare_incidents_desc_key a b : compare_incidents_desc a b = key_cmp (λ i, - inc_CreatedAt i) inc_ID a b.
Proof.
  unfold compare_incidents_desc, key_cmp, TimeEqual, After.
  destruct (Z.eqb_spec (inc_CreatedAt a) (inc_CreatedAt b)), (Z.eqb_spec (- inc_CreatedAt a) (- inc_CreatedAt b));
    try lia; try done.
  destruct (Z.ltb_spec (inc_CreatedAt b) (inc_CreatedAt a)), (Z.ltb_spec (- inc_CreatedAt a) (- inc_CreatedAt b)); lia.
Qed.

(** A comparison that agrees with a good one is good. *)
Lemma good_cmp_ext {A} (c1 c2 : A → A → Z) : (∀ a b, c1 a b = c2 a b) → GoodCmp c2 → GoodCmp c1.
Proof.
  intros He [Ht Htr]. split.
  - intros a b. unfold cmp_le. rewrite !He. apply Ht.
  - intros a b c. unfold cmp_le. rewrite !He. apply Htr.
Qed.

#[export] Instance compare_created_asc_good : GoodCmp compare_created_asc.
Proof. eapply good_cmp_ext; [|apply key_cmp_good]. reflexivity. Qed.
#[export] Instance compare_checked_desc_good : GoodCmp compare_checked_desc.
Proof. eapply good_cmp_ext; [apply compare_checked_desc_key|apply key_cmp_good]. Qed.
#[export] Instance compare_incidents_desc_good : GoodCmp compare_incidents_desc.
Proof. eapply good_cmp_ext; [apply compare_incidents_desc_key|apply key_cmp_good]. Qed.

(** ** Pages *)

(** The requests the API lets through. *)
Definition page_ok (offset limit : Z) : Prop := 0 <= offset ∧ 0 <= limit ∧ offset + limit <= max_int64.

Lemma page_eq {A} (l : list A) offset limit :
  page_ok offset limit → page l offset limit = Some (take (Z.to_nat limit) (drop (Z.to_nat offset) l)).
Proof.
  intros (Ho & Hl & Hs). unfold page.
  destruct (Z.ltb_spec (Z.of_nat (length l)) offset).
  { rewrite drop_ge by lia. by rewrite take_nil. }
  rewrite wrap64_id by (unfold in_int64, two63, max_int64 in *; lia).
  rewrite (proj2 (Z.leb_le 0 offset)), (proj2 (Z.leb_le offset _)) by lia. cbn [andb]. f_equal.
  destruct (Z.le_gt_cases (offset + limit) (Z.of_nat (length l))).
  - rewrite Z.min_l by lia. by replace (offset + limit - offset) with limit by lia.
  - rewrite Z.min_r by lia. rewrite !take_ge; [done|rewrite length_drop; lia..].
Qed.

Lemma page_tiles {A} (l : list A) (n m k : nat) :
  take m (drop n l) ++ take k (drop (n + m) l) = take (m + k) (drop n l).
Proof. rewrite <- drop_drop. generalize (drop n l) as l'. intros l'. by rewrite <- take_take_drop. Qed.

Lemma map_range_values_perm {V} (R1 R2 : MapRange) (m : gmap string V) :
  (map_range (MapRange:=R1) m).*2 ≡ₚ (map_range (MapRange:=R2) m).*2.
Proof. by rewrite !map_range_perm. Qed.

Lemma filter_perm {A} (f : A → bool) (l1 l2 : list A) : l1 ≡ₚ l2 → List.filter f l1 ≡ₚ List.filter f l2.
Proof.
  induction 1 as [|x l1 l2 _ IH|x y l|l1 l2 l3 _ IH1 _ IH2]; cbn.
  - done.
  - destruct (f x); [by constructor|done].
  - destruct (f x), (f y); try done. by constructor.
  - by etrans.
Qed.

(** The whole listing that the pages are cut from. *)
Definition all_monitors `{!MapRange} (s : MonitorStore) : list Monitor :=
  SortFunc compare_created_asc (map_range (byID s)).*2.
Definition all_incidents `{!MapRange} (s : MonitorStore) (status : string) : list Incident :=
  SortFunc compare_incidents_desc (List.filter (incident_selected status) (map_range (incidents s)).*2).

(** Listing monitors is deterministic and pages tile: whatever order the
    map iteration takes, the listing is the same sorted enumeration of every
    stored monitor, each once; a page is its segment; two consecutive pages
    join to one; and no admissible page panics. *)
Lemma List_pages `{!Unicode, !URLParser, R1 : !MapRange} (R2 : MapRange) (p : NetworkPolicy) (s : MonitorStore) offset limit limit2 :
  reachable p s → page_ok offset limit → page_ok (offset + limit) limit2 → page_ok offset (limit + limit2) →
  let all := all_monitors s in
  NoDup all ∧ StronglySorted (cmp_le compare_created_asc) all ∧ (∀ m, m ∈ all ↔ ∃ id, byID s !! id = Some m)
  ∧ @List_ R2 s offset limit
    = Some (take (Z.to_nat limit) (drop (Z.to_nat offset) all), Z.of_nat (size (byID s)))
  ∧ ∃ first second, List_ s offset limit = Some (first, Count s)
      ∧ List_ s (offset + limit) limit2 = Some (second, Count s)
      ∧ List_ s offset (limit + limit2) = Some (first ++ second, Count s).
Proof.
  intros Hs%reachable_wf P1 P2 P3 all.
  assert (∀ x y, x ∈ (map_range (byID s)).*2 → y ∈ (map_range (byID s)).*2 →
    cmp_le compare_created_asc x y → cmp_le compare_created_asc y x → x = y) as Ha.
  { intros x y Hx%monitors_current Hy%monitors_current Hxy Hyx; [|done..].
    rewrite compare_created_asc_key in Hxy, Hyx. pose proof (key_cmp_antisym _ _ _ _ Hxy Hyx). congruence. }
  assert (@all_monitors R2 s = all) as Hdet.
  { unfold all, all_monitors. apply SortFunc_perm; [apply _|apply map_range_values_perm|done]. }
  assert (∀ R : MapRange, length (@all_monitors R s) = size (byID s)) as Hlen.
  { intros R. unfold all_monitors. by rewrite length_SortFunc, length_fmap, length_map_range. }
  assert (∀ o l, page_ok o l → List_ s o l = Some (take (Z.to_nat l) (drop (Z.to_nat o) all), Count s)) as Hpage.
  { intros o l Hok. unfold List_. fold (all_monitors s). cbn zeta. rewrite page_eq by done. cbn. by rewrite Hlen. }
  split_and!.
  - unfold all, all_monitors. rewrite SortFunc_Permutation. apply (NoDup_fmap_1 mon_ID), monitors_ids_NoDup, Hs.
  - apply SortFunc_sorted, _.
  - intros m. unfold all, all_monitors. by rewrite elem_of_SortFunc, elem_of_map_range_values.
  - unfold List_. fold (@all_monitors R2 s). cbn zeta. rewrite page_eq by done. cbn. by rewrite Hlen, Hdet.
  - eexists _, _. split; [by apply Hpage|]. split; [by apply Hpage|]. rewrite Hpage by done.
    destruct P1 as (? & ? & ?), P2 as (? & ? & ?). rewrite !Z2Nat.inj_add by lia. by rewrite page_tiles.
Qed.

Lemma List_pages_witness :
  page_ok 0 1 ∧ ∃ first second, List_ (sample 5) 0 1 = Some (first, Count (sample 5))
    ∧ List_ (sample 5) (0 + 1) 1 = Some (second, Count (sample 5))
    ∧ List_ (sample 5) 0 (1 + 1) = Some (first ++ second, Count (sample 5)).
Proof.
  split; [vm_compute; split_and!; discriminate|].
  refine (proj2 (proj2 (proj2 (proj2 (List_pages list_order default_policy (sample 5) 0 1 1 (sample_reachable 5) _ _ _)))));
    vm_compute; split_and!; discriminate.
Defined.

(** Listing incidents gives, whatever the iteration order, the page of the
    incidents with the requested status (all of them for an empty status),
    newest first; and the total it reports is their number. *)
Lemma ListIncidents_pages `{!Unicode, !URLParser, R1 : !MapRange} (R2 : MapRange) (p : NetworkPolicy) (s : MonitorStore) status offset limit :
  reachable p s → page_ok offset limit →
  let all := all_incidents s status in
  NoDup all ∧ StronglySorted (cmp_le compare_incidents_desc) all
  ∧ (∀ i, i ∈ all ↔ (∃ id, incidents s !! id = Some i) ∧ (status = "" ∨ incident_status_string (inc_Status i) = status))
  ∧ @ListIncidents R2 s status offset limit
    = Some (take (Z.to_nat limit) (drop (Z.to_nat offset) all), Z.of_nat (length all)).
Proof.
  intros Hs%reachable_wf Hok all.
  assert (∀ i, i ∈ (map_range (incidents s)).*2 → incidents s !! inc_ID i = Some i) as Hcur.
  { intros i [id Hi]%elem_of_map_range_values. by destruct (tw_entry _ _ _ _ _ _ _ _ _ (sw_incidents s Hs) _ _ Hi) as [-> _]. }
  assert (@all_incidents R2 s status = all) as Hdet.
  { unfold all, all_incidents. apply SortFunc_perm; [apply _|apply filter_perm, map_range_values_perm|].
    intros x y [Hx%Hcur _]%elem_of_filter_bool [Hy%Hcur _]%elem_of_filter_bool Hxy Hyx.
    unfold cmp_le in Hxy, Hyx. rewrite compare_incidents_desc_key in Hxy, Hyx.
    pose proof (key_cmp_antisym _ _ _ _ Hxy Hyx). congruence. }
  split_and!.
  - unfold all, all_incidents. rewrite SortFunc_Permutation. apply (NoDup_fmap_1 inc_ID), NoDup_fmap_filter.
    rewrite map_range_ids; [apply NoDup_map_range_keys|].
    intros id i Hi. by apply (tw_entry _ _ _ _ _ _ _ _ _ (sw_incidents s Hs)) in Hi as [? _].
  - apply SortFunc_sorted, _.
  - intros i. unfold all, all_incidents, incident_selected.
    rewrite elem_of_SortFunc, elem_of_filter_bool, elem_of_map_range_values, orb_true_iff, !String.eqb_eq. done.
  - unfold ListIncidents. fold (@all_incidents R2 s status). cbn zeta. rewrite page_eq by done. cbn. by rewrite Hdet.
Qed.

Lemma ListIncidents_pages_witness :
  page_ok 0 20 ∧ ListIncidents (sample 5) "open" 0 20 = Some (take 20 (drop 0 (all_incidents (sample 5) "open")), 1).
Proof.
  split; [vm_compute; split_and!; discriminate|].
  exact (proj2 (proj2 (proj2 (ListIncidents_pages list_order default_policy (sample 5) "open" 0 20 (sample_reachable 5)
    ltac:(vm_compute; split_and!; discriminate))))).
Defined.

(** ** Statistics *)

Lemma stats_loop_spec records ok failed latency :
  stats_loop records (ok, failed, latency)
  = (ok + Z.of_nat (length (List.filter rec_Success records)),
     failed + Z.of_nat (length (List.filter (λ r, negb (rec_Success r)) records)),
     foldl (λ acc r, wrap64 (acc + rec_LatencyMS r)) latency records).
Proof.
  revert ok failed latency. induction records as [|r rest IH]; intros ok failed latency; cbn [stats_loop].
  - cbn. f_equal. f_equal; lia.
  - destruct (rec_Success r) eqn:Hr; rewrite IH; cbn [List.filter]; rewrite Hr; cbn [negb length foldl];
      do 2 f_equal; lia.
Qed.

Lemma length_filter_rev {A} (f : A → bool) (l : list A) : length (List.filter f (rev l)) = length (List.filter f l).
Proof. by rewrite List.filter_rev, List.length_rev. Qed.

Lemma filter_negb_length {A} (f : A → bool) (l : list A) :
  (length (List.filter f l) + length (List.filter (λ x, negb (f x)) l))%nat = length l.
Proof. induction l as [|x l IH]; cbn; [done|]. destruct (f x); cbn; lia. Qed.

(** Sums of latencies that fit do not wrap. *)
Lemma latency_sum l acc :
  Forall (λ r, 0 <= rec_LatencyMS r <= 3600000) l → 0 <= acc → acc + 3600000 * Z.of_nat (length l) <= max_int64 →
  foldl (λ acc r, wrap64 (acc + rec_LatencyMS r)) acc l = foldl (λ acc r, acc + rec_LatencyMS r) acc l.
Proof.
  intros Hl. revert acc. induction Hl as [|r l Hr _ IH]; intros acc Hacc Hsum; cbn; [done|]. cbn [length] in Hsum.
  rewrite wrap64_id by (unfold in_int64, two63, max_int64 in *; lia). apply IH; lia.
Qed.

Definition sum_latency (l : list CheckRecord) : Z := foldl (λ acc r, acc + rec_LatencyMS r) 0 l.

Lemma sum_latency_rev l acc :
  foldl (λ acc r, acc + rec_LatencyMS r) acc (rev l) = acc + sum_latency l.
Proof.
  unfold sum_latency. revert acc. induction l as [|r l IH]; intros acc; cbn [rev]; [cbn; lia|].
  rewrite foldl_app, IH. cbn. assert (∀ a k, foldl (λ acc r, acc + rec_LatencyMS r) (a + k) l
    = foldl (λ acc r, acc + rec_LatencyMS r) a l + k) as Hshift.
  { clear. induction l as [|x l IH]; intros a k; cbn; [done|]. rewrite <- IH. f_equal. lia. }
  rewrite (Hshift 0 (rec_LatencyMS r)). lia.
Qed.

(** A monitor's statistics are those of its retained results: the totals
    add up, the average is taken over the exact latency sum (it cannot
    overflow with latencies of up to an hour), and the number of consecutive
    failures is the open incident's failure count, or 0 without one. *)
Lemma Stats_consistent `{!Unicode, !URLParser, !MapRange} (p : NetworkPolicy) (s : MonitorStore) id st l :
  reachable p s → Stats s id = Ok st → l = default [] (checks s !! id) →
  Forall (λ r, 0 <= rec_LatencyMS r <= 3600000) l →
  0 <= st_ChecksTotal st <= 500 ∧ st_ChecksTotal st = Z.of_nat (length l)
  ∧ st_SuccessfulChecks st + st_FailedChecks st = st_ChecksTotal st
  ∧ st_SuccessfulChecks st = Z.of_nat (length (List.filter rec_Success l))
  ∧ (l ≠ [] → st_AverageLatencyMS st = float64_div (float64_of (sum_latency l)) (float64_of (st_ChecksTotal st))
     ∧ st_UptimePercent st = uptime_percent (st_SuccessfulChecks st) (st_ChecksTotal st)
     ∧ st_ConsecutiveFailure st =
       match openIncidentByMonitor s !! id ≫= λ i, incidents s !! i with Some inc => inc_FailureCount inc | None => 0 end).
Proof.
  intros Hs%reachable_wf Hst -> Hl. unfold Stats in Hst. destruct (byID s !! id) as [m|]; [|done].
  set (l := default [] (checks s !! id)) in *.
  assert (Z.of_nat (length l) <= 500) as H500.
  { unfold l. destruct (checks s !! id) as [l0|] eqn:Hc; [|done]. by apply (sw_checks _ Hs) in Hc as (_ & ? & _). }
  destruct (Z.eqb_spec (Z.of_nat (length l)) 0) as [Hz|Hz].
  { injection Hst as <-. cbn. destruct l; [|done]. cbn. split_and!; try lia; done. }
  rewrite stats_loop_spec, latency_sum, sum_latency_rev, !length_filter_rev in Hst;
    [|by apply Forall_rev|lia|rewrite List.length_rev; unfold max_int64; lia].
  injection Hst as <-. cbn -[float64_of float64_div].
  pose proof (filter_negb_length rec_Success l). split_and!; try lia.
  intros _. split; [done|]. split; [done|].
  destruct (openIncidentByMonitor s !! id) as [i|] eqn:Ho; [|done].
  destruct (open_incident _ _ _ Hs Ho) as (inc & Hi & _). cbn. by rewrite Hi.
Qed.

Lemma Stats_consistent_witness :
  ∃ st, Stats (sample 5) sample_monitor = Ok st ∧ 0 <= st_ChecksTotal st <= 500.
Proof.
  eexists. split; [vm_compute; reflexivity|].
  refine (proj1 (Stats_consistent default_policy (sample 5) sample_monitor _ _ (sample_reachable 5) _ eq_refl _)).
  - vm_compute. reflexivity.
  - apply (bool_decide_unpack _). vm_compute. exact I.
Defined.
