(* ===== verification/Checker.v ===== *)
(** * Status policies and the HTTP check (status_policy.go, checker.go)

    The parser and matcher of expected-status policies, and one check of a
    site: the request, the bounded read of the body and the verdict.  The HTTP
    client is a parameter; what its answer and its errors look like is data. *)

From stdpp Require Import base list gmap strings.
From Stdlib Require Import ZArith Lia Ascii.
From S2P Require Import Prelude GoNum GoStrings NetworkPolicy Egress Domain.
#[local] Open Scope string_scope.
#[local] Open Scope list_scope.
#[local] Open Scope Z_scope.

(** ** Status policies *)

Record StatusRange := { Min : Z; Max : Z }.
Record StatusPolicy := { ranges : list StatusRange; raw : string }.

Inductive PolicyErr :=
| PolicyEmpty | EmptyItem | NotNumeric (s : string) | OutsideRange (code : Z)
| InvalidRange (s : string) | DescendingRange (s : string).

Definition parseHTTPStatus (s : string) : res PolicyErr Z :=
  match Atoi (TrimSpace s) with
  | None => Err (NotNumeric s)
  | Some code => if (code <? 100) || (599 <? code) then Err (OutsideRange code) else Ok code
  end.

Definition parseStatusRange (s : string) : res PolicyErr StatusRange :=
  if negb (has_byte "-" s) then
    let! code := parseHTTPStatus s in Ok {| Min := code; Max := code |}
  else
    match Split "-" s with
    | [a; b] =>
        let! minCode := parseHTTPStatus a in
        let! maxCode := parseHTTPStatus b in
        if maxCode <? minCode then Err (DescendingRange s) else Ok {| Min := minCode; Max := maxCode |}
    | _ => Err (InvalidRange s)
    end.

Fixpoint parse_parts (parts : list string) : res PolicyErr (list StatusRange) :=
  match parts with
  | [] => Ok []
  | part :: rest =>
      let part := TrimSpace part in
      if String.eqb part "" then Err EmptyItem
      else
        let! range := parseStatusRange part in
        let! ranges := parse_parts rest in
        Ok (range :: ranges)
  end.

Definition ParseStatusPolicy (s : string) : res PolicyErr StatusPolicy :=
  let s := TrimSpace s in
  if String.eqb s "" then Err PolicyEmpty
  else
    let! ranges := parse_parts (Split "," s) in
    Ok {| ranges := ranges; raw := s |}.

Definition in_status_range (statusCode : Z) (r : StatusRange) : bool :=
  (Min r <=? statusCode) && (statusCode <=? Max r).
Definition Allows (p : StatusPolicy) (statusCode : Z) : bool := existsb (in_status_range statusCode) (ranges p).
Definition PreferredStatus (p : StatusPolicy) : Z :=
  match ranges p with [] => 200 | r :: _ => Min r end.

Definition range_ok (r : StatusRange) : Prop := 100 <= Min r ∧ Min r <= Max r ∧ Max r <= 599.

Lemma parseHTTPStatus_ok s c : parseHTTPStatus s = Ok c → 100 <= c <= 599.
Proof.
  unfold parseHTTPStatus. destruct (Atoi _) as [n|]; [|done].
  destruct (Z.ltb_spec n 100), (Z.ltb_spec 599 n); cbn; try done. intros [= <-]. lia.
Qed.

Lemma parseStatusRange_ok s r : parseStatusRange s = Ok r → range_ok r.
Proof.
  unfold parseStatusRange, range_ok. destruct (negb _).
  - destruct (parseHTTPStatus s) eqn:H; [|done]. apply parseHTTPStatus_ok in H. intros [= <-]. cbn. lia.
  - destruct (Split "-" s) as [|a [|b [|? ?]]]; try done.
    destruct (parseHTTPStatus a) eqn:Ha; [|done]. destruct (parseHTTPStatus b) eqn:Hb; [|done].
    apply parseHTTPStatus_ok in Ha, Hb. destruct (Z.ltb_spec a1 a0); [done|]. intros [= <-]. cbn. lia.
Qed.

Lemma parse_parts_ok parts rs :
  parse_parts parts = Ok rs → length rs = length parts ∧ Forall range_ok rs.
Proof.
  revert rs. induction parts as [|part rest IH]; intros rs; cbn; [by intros [= <-]|].
  destruct (String.eqb _ _); [done|]. destruct (parseStatusRange _) eqn:Hr; [|done].
  destruct (parse_parts rest) eqn:Hp; [|done]. intros [= <-]. destruct (IH _ eq_refl) as [Hl Hf].
  cbn. split; [by rewrite Hl|]. constructor; [by eapply parseStatusRange_ok|done].
Qed.

(** A parsed policy has at least one range, all within 100 to 599; it
    allows exactly the codes some range covers, among them its preferred one,
    and never a code that is not an HTTP status. *)
Lemma ParseStatusPolicy_sound (s : string) (p : StatusPolicy) :
  ParseStatusPolicy s = Ok p →
  ranges p ≠ [] ∧ Forall range_ok (ranges p) ∧ raw p = TrimSpace s
  ∧ (∀ c, Allows p c = true ↔ ∃ r, r ∈ ranges p ∧ Min r <= c <= Max r)
  ∧ Allows p (PreferredStatus p) = true ∧ (∀ c, Allows p c = true → 100 <= c <= 599).
Proof.
  unfold ParseStatusPolicy. destruct (String.eqb _ _); [done|].
  destruct (parse_parts _) as [rs|] eqn:Hp; [|done]. intros [= <-]. cbn [ranges raw].
  apply parse_parts_ok in Hp as [Hlen Hf].
  assert (rs ≠ []) as Hne.
  { intros ->. pose proof (Split_nonempty "," (TrimSpace s)). by destruct (Split "," (TrimSpace s)). }
  assert (∀ c, Allows {| ranges := rs; raw := TrimSpace s |} c = true ↔ ∃ r, r ∈ rs ∧ Min r <= c <= Max r) as Ha.
  { intros c. unfold Allows. cbn. rewrite List.existsb_exists. unfold in_status_range.
    setoid_rewrite andb_true_iff. setoid_rewrite Z.leb_le. setoid_rewrite list_elem_of_In. done. }
  split_and!; try done.
  - apply Ha. destruct rs as [|r rs]; [done|]. exists r. split; [set_solver|].
    apply Forall_cons in Hf as [(? & ? & ?) _]. cbn. lia.
  - intros c (r & Hr & Hc)%Ha. rewrite Forall_forall in Hf. destruct (Hf _ Hr) as (? & ? & ?). lia.
Qed.

Lemma ParseStatusPolicy_sound_witness :
  ParseStatusPolicy " 200-204, 301 " = Ok {| ranges := [{| Min := 200; Max := 204 |}; {| Min := 301; Max := 301 |}];
                                           raw := "200-204, 301" |}
  ∧ Allows {| ranges := [{| Min := 200; Max := 204 |}; {| Min := 301; Max := 301 |}]; raw := "200-204, 301" |} 200 = true.
Proof.
  split; [vm_compute; reflexivity|].
  exact (proj1 (proj2 (proj2 (proj2 (proj2 (ParseStatusPolicy_sound " 200-204, 301 " _ ltac:(vm_compute; reflexivity))))))).
Defined.

(** The printed code of a valid status parses back to the policy of that code. *)
Definition single_policy (c : Z) : StatusPolicy := {| ranges := [{| Min := c; Max := c |}]; raw := Itoa c |}.

Definition roundtrip_ok (c : Z) : bool :=
  match ParseStatusPolicy (Itoa c) with
  | Ok {| ranges := [r]; raw := s |} => (Min r =? c) && (Max r =? c) && String.eqb s (Itoa c)
  | _ => false
  end.

Lemma roundtrip_all : forallb roundtrip_ok (seqZ 100 500) = true.
Proof. vm_compute. reflexivity. Qed.

Lemma ParseStatusPolicy_Itoa c : 100 <= c <= 599 → ParseStatusPolicy (Itoa c) = Ok (single_policy c).
Proof.
  intros Hc. pose proof roundtrip_all as Hall. rewrite List.forallb_forall in Hall.
  assert (roundtrip_ok c = true) as Hr.
  { apply Hall, list_elem_of_In, elem_of_seqZ. lia. }
  unfold roundtrip_ok in Hr. destruct (ParseStatusPolicy (Itoa c)) as [[[|[mn mx] [|? ?]] s]|]; try done.
  apply andb_true_iff in Hr as [[Hmn Hmx]%andb_true_iff Hs]. cbn in *.
  apply Z.eqb_eq in Hmn, Hmx. apply String.eqb_eq in Hs. by subst.
Qed.

(** ** Errors of the HTTP client

    An error has a text and may wrap another; [EUrl] is a [*url.Error], whose
    text quotes the requested URL and whose [Err] field may be nil. *)
Inductive HTTPErr :=
| EUrl (text : string) (inner : option HTTPErr)
| EOther (text : string) (wrapped : option HTTPErr).

Definition ErrorText (e : HTTPErr) : string := match e with EUrl t _ | EOther t _ => t end.

(** The loop of [checkerErrorText]: [text] is the text of the loop's [err],
    [e] the error [errors.As] has reached on its chain. *)
Fixpoint strip_url (text : string) (e : HTTPErr) : string :=
  match e with
  | EUrl _ None => text
  | EUrl _ (Some inner) => strip_url (ErrorText inner) inner
  | EOther _ None => text
  | EOther _ (Some e') => strip_url text e'
  end.

Definition checkerErrorText (err : option HTTPErr) : string :=
  match err with
  | Some e => strip_url (ErrorText e) e
  | None => "request failed"
  end.

(** [no_url e]: no [*url.Error] with a cause on the chain of [e]. *)
Fixpoint no_url (e : HTTPErr) : bool :=
  match e with
  | EUrl _ (Some _) => false
  | EUrl _ None => true
  | EOther _ None => true
  | EOther _ (Some e') => no_url e'
  end.

Inductive caused_by : HTTPErr → HTTPErr → Prop :=
| caused_refl e : caused_by e e
| caused_url t e d : caused_by e d → caused_by (EUrl t (Some e)) d
| caused_other t e d : caused_by e d → caused_by (EOther t (Some e)) d.

(** ** One check *)

(** The body of a response: how many bytes it delivers, and whether the
    stream then fails, possibly in the very read that delivers the last
    byte. *)
Record Body := { body_len : Z; body_err : option string; err_with_data : bool }.
Record Response := { resp_StatusCode : Z; resp_Body : Body }.

(** [io.Copy(io.Discard, io.LimitReader(body, limit))]. *)
Definition limited_copy (body : Body) (limit : Z) : Z * option string :=
  if limit <=? 0 then (0, None)
  else if limit <? body_len body then (limit, None)
  else if limit =? body_len body then (limit, if err_with_data body then body_err body else None)
  else (body_len body, body_err body).

(** The HTTP client: building a request may fail; sending it yields a
    response or an error. *)
Class HTTPClient := {
  NewRequest : string → option HTTPErr;
  Do : string → list (string * string) → res HTTPErr Response;
}.

Record CheckerConfig := { UserAgent : string; MaxBodyBytes : Z; ExpectedStatus : StatusPolicy }.

Record CheckResult := mkCheckResult {
  cr_MonitorID : string; cr_URL : string; cr_Sequence : Z; cr_Healthy : bool; cr_StatusCode : Z;
  cr_Duration : Z; cr_BytesRead : Z; cr_Error : string; cr_CheckedAt : Time;
}.
#[export] Instance eta_CheckResult : Eta CheckResult := λ r,
  mkCheckResult (cr_MonitorID r) (cr_URL r) (cr_Sequence r) (cr_Healthy r) (cr_StatusCode r)
    (cr_Duration r) (cr_BytesRead r) (cr_Error r) (cr_CheckedAt r).

Section check.
Context `{!HTTPClient}.

(** [elapsed] is [time.Since(startedAt)] and [finishedAt] the clock when the
    deferred function runs. *)
Definition Check (cfg : CheckerConfig) (url : string) (sequence startedAt elapsed finishedAt : Z) : CheckResult :=
  let result := mkCheckResult "" url sequence false 0 0 0 "" startedAt in
  let result :=
    match NewRequest url with
    | Some err => result <| cr_Error := checkerErrorText (Some err) |>
    | None =>
        match Do url [("User-Agent", UserAgent cfg); ("Accept", "*/*")] with
        | Err err => result <| cr_Error := checkerErrorText (Some err) |>
        | Ok resp =>
            let '(bytesRead, readErr) := limited_copy (resp_Body resp) (MaxBodyBytes cfg) in
            let result := result <| cr_StatusCode := resp_StatusCode resp |> <| cr_BytesRead := bytesRead |> in
            match readErr with
            | Some e => result <| cr_Error := e |>
            | None =>
                if negb (Allows (ExpectedStatus cfg) (resp_StatusCode resp))
                then result <| cr_Error := "unexpected status " +:+ Itoa (resp_StatusCode resp) |>
                else result <| cr_Healthy := true |>
            end
        end
    end in
  let duration := if elapsed <=? 0 then Nanosecond else elapsed in
  result <| cr_Duration := duration |> <| cr_CheckedAt := UTC finishedAt |>.

(** [%q] of a string of printable ASCII characters other than quotes and
    backslashes, which is all [Itoa] can hand to the parser. *)
Definition quoted (s : string) : string := String (Ascii.ascii_of_nat 34) s +:+ String (Ascii.ascii_of_nat 34) "".
Definition policy_error_text (e : PolicyErr) : string :=
  match e with
  | PolicyEmpty => "policy is empty"
  | EmptyItem => "empty status item"
  | NotNumeric raw => "status " +:+ quoted raw +:+ " must be numeric"
  | OutsideRange c => "status " +:+ Itoa c +:+ " is outside 100-599"
  | InvalidRange raw => "invalid status range " +:+ quoted raw
  | DescendingRange raw => "invalid descending status range " +:+ quoted raw
  end.

Definition CheckMonitor (cfg : CheckerConfig) (monitor : Monitor) (startedAt elapsed finishedAt : Z) : CheckResult :=
  match ParseStatusPolicy (Itoa (mon_ExpectedStatus monitor)) with
  | Err err => mkCheckResult "" (mon_URL monitor) 0 false 0 0 0 (policy_error_text err) (UTC finishedAt)
  | Ok policy =>
      let cfg := {| UserAgent := UserAgent cfg; MaxBodyBytes := MaxBodyBytes cfg; ExpectedStatus := policy |} in
      let result := Check cfg (mon_URL monitor) 0 startedAt elapsed finishedAt in
      result <| cr_MonitorID := mon_ID monitor |> <| cr_Sequence := 0 |>
  end.

Definition CheckRecordFromResult (result : CheckResult) (rnd : Entropy) : CheckRecord :=
  {| rec_ID := newID "check" rnd; rec_JobID := ""; rec_MonitorID := cr_MonitorID result;
     rec_StatusCode := cr_StatusCode result; rec_LatencyMS := Z.quot (cr_Duration result) Millisecond;
     rec_Error := cr_Error result; rec_Success := cr_Healthy result; rec_CheckedAt := UTC (cr_CheckedAt result) |}.

Lemma limited_copy_bounded body limit :
  0 <= limit → 0 <= body_len body → 0 <= (limited_copy body limit).1 <= limit.
Proof.
  intros. unfold limited_copy. repeat case_match; cbn;
    rewrite ?Z.leb_le, ?Z.leb_gt, ?Z.ltb_lt, ?Z.ltb_ge, ?Z.eqb_eq, ?Z.eqb_neq in *; lia.
Qed.

(** A check of a stored monitor is healthy exactly when the client got a
    response with the monitor's expected status and the part of the body within
    the limit was read without error; it names the monitor, reads at most
    [MaxBodyBytes] bytes, and takes at least a nanosecond; an unhealthy result
    never counts as success in the record made from it. *)
Lemma CheckMonitor_healthy_iff (cfg : CheckerConfig) (m : Monitor) startedAt elapsed finishedAt rnd :
  100 <= mon_ExpectedStatus m <= 599 → 0 <= MaxBodyBytes cfg →
  (∀ resp hs, Do (mon_URL m) hs = Ok resp → 0 <= body_len (resp_Body resp)) →
  let r := CheckMonitor cfg m startedAt elapsed finishedAt in
  (cr_Healthy r = true ↔
     NewRequest (mon_URL m) = None ∧ ∃ resp, Do (mon_URL m) [("User-Agent", UserAgent cfg); ("Accept", "*/*")] = Ok resp
     ∧ (limited_copy (resp_Body resp) (MaxBodyBytes cfg)).2 = None ∧ resp_StatusCode resp = mon_ExpectedStatus m)
  ∧ cr_MonitorID r = mon_ID m ∧ 0 <= cr_BytesRead r <= MaxBodyBytes cfg ∧ 1 <= cr_Duration r
  ∧ (cr_Healthy r = true → cr_StatusCode r = mon_ExpectedStatus m ∧ cr_Error r = "")
  ∧ rec_Success (CheckRecordFromResult r rnd) = cr_Healthy r
  ∧ rec_MonitorID (CheckRecordFromResult r rnd) = mon_ID m.
Proof.
  intros Hst Hmax Hbody r. unfold r, CheckMonitor. rewrite ParseStatusPolicy_Itoa by done. unfold Check.
  cbn [UserAgent MaxBodyBytes ExpectedStatus].
  assert (1 <= (if elapsed <=? 0 then Nanosecond else elapsed)) as Hdur
    by (unfold Nanosecond; destruct (Z.leb_spec elapsed 0); lia).
  destruct (NewRequest (mon_URL m)) as [e|] eqn:Hreq.
  { cbn. split; [split; [done|by intros [? _]]|]. split_and!; done || lia. }
  destruct (Do _ _) as [resp|e] eqn:Hdo.
  2:{ cbn. split; [split; [done|by intros (_ & ? & ? & _)]|]. split_and!; done || lia. }
  pose proof (limited_copy_bounded (resp_Body resp) (MaxBodyBytes cfg) Hmax (Hbody _ _ Hdo)) as Hb.
  destruct (limited_copy _ _) as [n [e|]] eqn:Hcopy; cbn in Hb.
  { cbn. split; [split; [done|]|split_and!; done || lia].
    intros (_ & resp' & [= <-] & Hc & _). by rewrite Hcopy in Hc. }
  unfold Allows, in_status_range. cbn [ranges single_policy existsb Min Max]. rewrite orb_false_r.
  destruct (Z.leb_spec (mon_ExpectedStatus m) (resp_StatusCode resp)) as [H1|H1];
    destruct (Z.leb_spec (resp_StatusCode resp) (mon_ExpectedStatus m)) as [H2|H2]; cbn;
    (split; [split; [try done|try done]|split_and!; try done; try lia]).
  - intros _. split; [done|]. exists resp. rewrite Hcopy. split_and!; try done. lia.
  - intros _. split; [lia|done].
  - intros (_ & resp' & [= <-] & _ & Heq). lia.
  - intros (_ & resp' & [= <-] & _ & Heq). lia.
  - intros (_ & resp' & [= <-] & _ & Heq). lia.
Qed.

(** An error recorded for a check never quotes a URL: the stored text is
    the text of a cause beneath every [*url.Error] of the failure that has a
    cause (their texts quote the full monitor URL, which may hold secrets). *)
Lemma checkerErrorText_hides_url (e : HTTPErr) :
  ∃ d, caused_by e d ∧ no_url d = true ∧ checkerErrorText (Some e) = ErrorText d.
Proof.
  cbn. assert (∀ e0 t, (∃ d, caused_by e0 d ∧ no_url d = true ∧ strip_url t e0 = ErrorText d)
    ∨ (no_url e0 = true ∧ strip_url t e0 = t)) as Hgen.
  2:{ destruct (Hgen e (ErrorText e)) as [Hd|[Hn Hs]]; [done|]. exists e. split; [constructor|done]. }
  clear e. fix IH 1. intros [t' [inner|]|t' [w|]] t; cbn.
  - left. destruct (IH inner (ErrorText inner)) as [(d & Hc & Hn & Hs)|[Hn Hs]].
    + exists d. split; [by constructor|done].
    + exists inner. split; [constructor; constructor|done].
  - by right.
  - destruct (IH w t) as [(d & Hc & Hn & Hs)|[Hn Hs]]; [left|by right].
    exists d. split; [by constructor|done].
  - by right.
Qed.
End check.

Definition sample_client : HTTPClient :=
  {| NewRequest url := None;
     Do url hs := Ok {| resp_StatusCode := 200;
                        resp_Body := {| body_len := 5000; body_err := None; err_with_data := false |} |} |}.

Lemma CheckMonitor_healthy_iff_witness :
  let cfg := {| UserAgent := "site-checker"; MaxBodyBytes := 1024; ExpectedStatus := single_policy 204 |} in
  let m := mkMonitor "mon_1" "https://a.example/" 60 10 200 monitorStatusActive true 0 0 0 0 0 0 "" in
  cr_BytesRead (CheckMonitor (H:=sample_client) cfg m 0 5 5) = 1024
  ∧ cr_MonitorID (CheckMonitor (H:=sample_client) cfg m 0 5 5) = "mon_1".
Proof.
  intros cfg m. split; [vm_compute; reflexivity|].
  refine (proj1 (proj2 (CheckMonitor_healthy_iff (H:=sample_client) cfg m 0 5 5 (RandFailed 0) _ _ _))).
  - vm_compute; split; discriminate.
  - vm_compute; discriminate.
  - intros resp hs [= <-]. vm_compute. discriminate.
Defined.
