(* ===== verification/Config.v ===== *)
(** * Configuration (config.go)

    [LoadConfig] reads the environment and collects every error before it
    fails.  A step of it is a value and the errors it appends.  [net/url] is a
    parameter, the environment too. *)

From stdpp Require Import base list gmap strings.
From Stdlib Require Import ZArith Lia Ascii.
From S2P Require Import Prelude GoNum GoStrings GoDuration NetworkPolicy Egress Domain Checker.
#[local] Open Scope string_scope.
#[local] Open Scope list_scope.
#[local] Open Scope Z_scope.

Definition defaultAppRole : string := "all".
Definition defaultStorageType : string := "memory".
Definition defaultQueueType : string := "memory".
Definition defaultWorkerCount : Z := 10.
Definition defaultSchedulerBatchSize : Z := 100.
Definition defaultCheckInterval : Z := 5 * Minute.
Definition defaultHTTPTimeout : Z := 5 * Second.
Definition defaultCheckLeaseTimeout : Z := 2 * Minute.
Definition defaultDatabaseOperationTimeout : Z := 15 * Second.
Definition defaultDatabaseMigrationTimeout : Z := 2 * Minute.
Definition defaultHealthAddr : string := ":8080".
Definition defaultMaxRedirects : Z := 3.
Definition defaultMaxBodyBytes : Z := 64 * 1024.
Definition defaultMaxHeaderBytes : Z := 64 * 1024.
Definition defaultExpectedStatus : string := "200-399".
Definition defaultAllowedPorts : string := "80,443".
Definition defaultAlertFailureThreshold : Z := 3.
Definition defaultAlertCooldown : Z := 10 * Minute.
Definition defaultAlertDispatchInterval : Z := Second.
Definition defaultAlertDispatchBatch : Z := 50.
Definition defaultAlertLeaseTimeout : Z := Minute.
Definition defaultAlertDeliveryTimeout : Z := 5 * Second.
Definition alertLeaseSafetyMargin : Z := 5 * Second.
Definition defaultAlertMaxAttempts : Z := 8.
Definition defaultAlertRetryInitial : Z := Second.
Definition defaultAlertRetryMax : Z := 5 * Minute.
Definition defaultUserAgent : string := "site-checker".
Definition defaultQueueBufferSize : Z := 1000.
Definition defaultQueuePrefetch : Z := 10.
Definition defaultQueueName : string := "site_checker.checks".
Definition defaultDeadLetterQueueName : string := "site_checker.checks.dead".
Definition defaultRabbitMQConnectTimeout : Z := 5 * Second.
Definition defaultRabbitMQPublishTimeout : Z := 10 * Second.
Definition defaultRabbitMQReconnectInitial : Z := Second.
Definition defaultRabbitMQReconnectMax : Z := 30 * Second.
Definition defaultRetentionInterval : Z := Minute.
Definition defaultRetentionBatchSize : Z := 10000.
Definition defaultCheckResultsRetention : Z := 90 * 24 * Hour.
Definition defaultCheckJobsRetention : Z := 30 * 24 * Hour.
Definition defaultAlertOutboxRetention : Z := 30 * 24 * Hour.
Definition defaultResolvedIncidentRetention : Z := 365 * 24 * Hour.
Definition processingLeaseSafetyMargin : Z := 30 * Second.
Definition minAPIKeyLength : Z := 24.

Record Config := mkConfig {
  cfg_AppEnv : string; cfg_AppRole : string; cfg_StorageType : string; cfg_DatabaseURL : string;
  cfg_DatabaseOperationTimeout : Z; cfg_DatabaseMigrationTimeout : Z; cfg_RunMigrations : bool; cfg_APIKey : string;
  cfg_AuthDisabled : bool; cfg_QueueType : string; cfg_RabbitMQURL : string; cfg_RabbitMQConnectTimeout : Z;
  cfg_RabbitMQPublishTimeout : Z; cfg_RabbitMQReconnectInitial : Z; cfg_RabbitMQReconnectMax : Z;
  cfg_QueueName : string; cfg_DeadLetterQueueName : string; cfg_QueueBufferSize : Z; cfg_QueuePrefetch : Z;
  cfg_MaxJobAttempts : Z; cfg_WorkerCount : Z; cfg_SchedulerBatchSize : Z; cfg_CheckInterval : Z; cfg_HTTPTimeout : Z;
  cfg_CheckLeaseTimeout : Z; cfg_HealthAddr : string; cfg_MaxRedirects : Z; cfg_MaxBodyBytes : Z;
  cfg_MaxHeaderBytes : Z; cfg_AllowPrivateNetworks : bool; cfg_AllowProxyEnv : bool; cfg_AllowedPorts : gset Z;
  cfg_URLsFile : string; cfg_SeedURLsFile : string; cfg_SeedDefaultLinks : bool; cfg_ExpectedStatus : StatusPolicy;
  cfg_AlertWebhookURL : string; cfg_AlertFailureThreshold : Z; cfg_AlertCooldown : Z; cfg_AlertDispatchInterval : Z;
  cfg_AlertDispatchBatchSize : Z; cfg_AlertLeaseTimeout : Z; cfg_AlertDeliveryTimeout : Z; cfg_AlertMaxAttempts : Z;
  cfg_AlertRetryInitialBackoff : Z; cfg_AlertRetryMaxBackoff : Z; cfg_RetentionEnabled : bool;
  cfg_RetentionInterval : Z; cfg_RetentionBatchSize : Z; cfg_CheckResultsRetention : Z; cfg_CheckJobsRetention : Z;
  cfg_AlertOutboxRetention : Z; cfg_ResolvedIncidentRetention : Z; cfg_UserAgent : string; cfg_EnablePprof : bool;
}.

Inductive ConfigErr :=
| MustBeInteger (key : string) | MustBeBetween (key : string) (minValue maxValue : Z)
| MustBeDuration (key : string) | MustBeBoolean (key : string) | MustBeOneOf (key : string) (allowed : list string)
| EmptyPort (key : string) | InvalidPort (key part : string) | NoPort (key : string)
| CheckLeaseTooShort (minimum : Z) | AlertLeaseTooShort (minimum : Z)
| BadExpectedStatus (e : PolicyErr) | BadWebhookURL (e : NetErr)
| Rule (text : string).

(** [os.LookupEnv], and [url.Parse] followed by [Query().Get]. *)
Class Environment := { LookupEnv : string → option string }.
Class URLQuery := { url_Query_Get : string → string → option string }.

(** A value, and what was appended to [errs]. *)
Definition conf (A : Type) : Type := A * list ConfigErr.
Definition cret {A} (a : A) : conf A := (a, []).
Definition cbind {A B} (m : conf A) (f : A → conf B) : conf B := let r := f m.1 in (r.1, m.2 ++ r.2).
Definition report (cond : bool) (e : ConfigErr) : list ConfigErr := if cond then [e] else [].
#[local] Notation "'let+' x := m 'in' k" := (cbind m (λ x, k)) (at level 200, x name, m at level 100, k at level 200).

Definition roleEnabled (role target : string) : bool := String.eqb role "all" || String.eqb role target.

Definition minimumCheckLeaseTimeout (databaseOperationTimeout rabbitMQPublishTimeout : Z) : Z :=
  let processingBudget := wrap64 (maxMonitorTimeoutSeconds * Second + databaseOperationTimeout) in
  let publicationBudget := wrap64 (rabbitMQPublishTimeout + databaseOperationTimeout) in
  wrap64 (Z.max processingBudget publicationBudget + processingLeaseSafetyMargin).

Definition minimumAlertLeaseTimeout (deliveryTimeout databaseOperationTimeout : Z) : Z :=
  wrap64 (deliveryTimeout + 2 * databaseOperationTimeout + alertLeaseSafetyMargin).

(** ** Variables *)

Section load.
Context `{EN : !Environment, UN : !Unicode, UP : !URLParser, UQ : !URLQuery}.

Definition envString (key defaultValue : string) : string :=
  match LookupEnv key with Some value => TrimSpace value | None => defaultValue end.

(** The text of a variable that is set and not blank. *)
Definition env_text (key : string) : option string :=
  match LookupEnv key with
  | Some raw => if String.eqb (TrimSpace raw) "" then None else Some (TrimSpace raw)
  | None => None
  end.

Definition envInt (key : string) (defaultValue minValue maxValue : Z) : conf Z :=
  match env_text key with
  | None => cret defaultValue
  | Some raw =>
      match Atoi raw with
      | None => (defaultValue, [MustBeInteger key])
      | Some value => if (value <? minValue) || (maxValue <? value) then (defaultValue, [MustBeBetween key minValue maxValue])
                      else cret value
      end
  end.

Definition envDuration (key : string) (defaultValue minValue maxValue : Z) : conf Z :=
  match env_text key with
  | None => cret defaultValue
  | Some raw =>
      match ParseDuration raw with
      | None => (defaultValue, [MustBeDuration key])
      | Some value => if (value <? minValue) || (maxValue <? value) then (defaultValue, [MustBeBetween key minValue maxValue])
                      else cret value
      end
  end.

Definition one_of (s : string) (l : list string) : bool := existsb (String.eqb s) l.

Definition envBool (key : string) (defaultValue : bool) : conf bool :=
  match env_text key with
  | None => cret defaultValue
  | Some raw =>
      if one_of (ToLower raw) ["1"; "true"; "yes"; "y"; "on"] then cret true
      else if one_of (ToLower raw) ["0"; "false"; "no"; "n"; "off"] then cret false
      else (defaultValue, [MustBeBoolean key])
  end.

Definition validateEnum (key value : string) (allowed : list string) : conf string :=
  let value := ToLower (TrimSpace value) in
  if one_of value allowed then cret value
  else (hd "" allowed, [MustBeOneOf key allowed]).

Definition envEnum (key defaultValue : string) (allowed : list string) : conf string :=
  validateEnum key (envString key defaultValue) allowed.

Fixpoint port_parts (key : string) (parts : list string) (ports : gset Z) : conf (gset Z) :=
  match parts with
  | [] => cret ports
  | part :: parts =>
      let part := TrimSpace part in
      if String.eqb part "" then cbind (ports, [EmptyPort key]) (port_parts key parts)
      else match Atoi part with
      | Some port => if (port <? 1) || (65535 <? port) then cbind (ports, [InvalidPort key part]) (port_parts key parts)
                     else port_parts key parts ({[port]} ∪ ports)
      | None => cbind (ports, [InvalidPort key part]) (port_parts key parts)
      end
  end.
Definition envPorts (key defaultValue : string) : conf (gset Z) :=
  let+ ports := port_parts key (Split "," (envString key defaultValue)) ∅ in
  (ports, report (size ports =? 0)%nat (NoPort key)).

Definition validateHTTPURLShape (raw : string) : option NetErr :=
  match url_Parse raw with
  | None => Some ErrURLSyntax
  | Some parsed =>
      if negb (String.eqb (Scheme parsed) "http") && negb (String.eqb (Scheme parsed) "https") then Some (ErrScheme (Scheme parsed))
      else if String.eqb (Hostname parsed) "" then Some ErrHostRequired
      else if bool_decide (is_Some (User parsed)) then Some ErrUserinfo
      else None
  end.

Definition rabbitMQHeartbeatDisabled (rawURL : string) : bool :=
  match url_Query_Get rawURL "heartbeat" with
  | None => false
  | Some rawHeartbeat =>
      if String.eqb rawHeartbeat "" then false
      else match Atoi rawHeartbeat with Some heartbeat => heartbeat <=? 0 | None => false end
  end.

(** ** The fields *)

Definition load : conf Config :=
  let+ AppEnv := envEnum "APP_ENV" "production" ["production"; "local"; "development"; "demo"] in
  let+ AppRole := envEnum "APP_ROLE" defaultAppRole ["all"; "api"; "scheduler"; "worker"; "alert-dispatcher"] in
  let DatabaseURL := envString "DATABASE_URL" "" in
  let+ DatabaseOperationTimeout := envDuration "DATABASE_OPERATION_TIMEOUT" defaultDatabaseOperationTimeout Second (5 * Minute) in
  let+ DatabaseMigrationTimeout := envDuration "DATABASE_MIGRATION_TIMEOUT" defaultDatabaseMigrationTimeout Second (30 * Minute) in
  let StorageType := envString "STORAGE_TYPE" "" in
  let StorageType := if String.eqb StorageType "" then (if negb (String.eqb DatabaseURL "") then "postgres" else defaultStorageType) else StorageType in
  let+ StorageType := validateEnum "STORAGE_TYPE" StorageType ["memory"; "postgres"] in
  let+ RunMigrations := envBool "RUN_MIGRATIONS" true in
  let APIKey := envString "API_KEY" "" in
  let+ AuthDisabled := envBool "AUTH_DISABLED" false in
  let RabbitMQURL := envString "RABBITMQ_URL" "" in
  let+ RabbitMQConnectTimeout := envDuration "RABBITMQ_CONNECT_TIMEOUT" defaultRabbitMQConnectTimeout Second Minute in
  let+ RabbitMQPublishTimeout := envDuration "RABBITMQ_PUBLISH_TIMEOUT" defaultRabbitMQPublishTimeout (100 * Millisecond) (5 * Minute) in
  let+ RabbitMQReconnectInitial := envDuration "RABBITMQ_RECONNECT_INITIAL_BACKOFF" defaultRabbitMQReconnectInitial (100 * Millisecond) Hour in
  let+ RabbitMQReconnectMax := envDuration "RABBITMQ_RECONNECT_MAX_BACKOFF" defaultRabbitMQReconnectMax (100 * Millisecond) (24 * Hour) in
  let QueueType := envString "QUEUE_TYPE" "" in
  let QueueType := if String.eqb QueueType "" then (if negb (String.eqb RabbitMQURL "") then "rabbitmq" else defaultQueueType) else QueueType in
  let+ QueueType := validateEnum "QUEUE_TYPE" QueueType ["memory"; "rabbitmq"] in
  let QueueName := envString "QUEUE_NAME" defaultQueueName in
  let DeadLetterQueueName := envString "DEAD_LETTER_QUEUE_NAME" defaultDeadLetterQueueName in
  let+ QueueBufferSize := envInt "QUEUE_BUFFER_SIZE" defaultQueueBufferSize 1 100000 in
  let+ QueuePrefetch := envInt "QUEUE_PREFETCH" defaultQueuePrefetch 1 1000 in
  let+ MaxJobAttempts := envInt "MAX_JOB_ATTEMPTS" defaultMaxJobAttempts 1 20 in
  let+ WorkerCount := envInt "WORKER_COUNT" defaultWorkerCount 1 100 in
  let+ SchedulerBatchSize := envInt "SCHEDULER_BATCH_SIZE" defaultSchedulerBatchSize 1 1000 in
  let+ CheckInterval := envDuration "CHECK_INTERVAL" defaultCheckInterval (30 * Second) (24 * Hour) in
  let+ HTTPTimeout := envDuration "HTTP_TIMEOUT" defaultHTTPTimeout Second Minute in
  let+ CheckLeaseTimeout := envDuration "CHECK_LEASE_TIMEOUT" defaultCheckLeaseTimeout Second (24 * Hour) in
  let minimum := minimumCheckLeaseTimeout DatabaseOperationTimeout RabbitMQPublishTimeout in
  let+ _ := (tt, report (CheckLeaseTimeout <? minimum) (CheckLeaseTooShort minimum)) in
  let HealthAddr := envString "HEALTH_ADDR" defaultHealthAddr in
  let+ MaxRedirects := envInt "MAX_REDIRECTS" defaultMaxRedirects 0 10 in
  let+ MaxBodyBytes := envInt "MAX_BODY_BYTES" defaultMaxBodyBytes 1024 (10 * 1024 * 1024) in
  let+ MaxHeaderBytes := envInt "MAX_HEADER_BYTES" defaultMaxHeaderBytes 1024 (1024 * 1024) in
  let+ AllowPrivateNetworks := envBool "ALLOW_PRIVATE_NETWORKS" false in
  let+ AllowProxyEnv := envBool "ALLOW_PROXY_ENV" false in
  let+ _ := (tt, report (AllowProxyEnv && negb AllowPrivateNetworks)
    (Rule "ALLOW_PROXY_ENV=true requires ALLOW_PRIVATE_NETWORKS=true because proxy-side DNS resolution is outside the local SSRF boundary")) in
  let+ AllowedPorts := envPorts "ALLOWED_PORTS" defaultAllowedPorts in
  let URLsFile := envString "URLS_FILE" "" in
  let SeedURLsFile := envString "SEED_URLS_FILE" URLsFile in
  let+ SeedDefaultLinks := envBool "SEED_DEFAULT_LINKS" false in
  let SeedDefaultLinks := SeedDefaultLinks || String.eqb AppEnv "demo" in
  let AlertWebhookURL := envString "ALERT_WEBHOOK_URL" "" in
  let+ AlertFailureThreshold := envInt "ALERT_FAILURE_THRESHOLD" defaultAlertFailureThreshold 1 100 in
  let+ AlertCooldown := envDuration "ALERT_COOLDOWN" defaultAlertCooldown 0 (24 * Hour) in
  let+ AlertDispatchInterval := envDuration "ALERT_DISPATCH_INTERVAL" defaultAlertDispatchInterval (100 * Millisecond) Minute in
  let+ AlertDispatchBatchSize := envInt "ALERT_DISPATCH_BATCH_SIZE" defaultAlertDispatchBatch 1 1000 in
  let+ AlertLeaseTimeout := envDuration "ALERT_LEASE_TIMEOUT" defaultAlertLeaseTimeout Second Hour in
  let+ AlertDeliveryTimeout := envDuration "ALERT_DELIVERY_TIMEOUT" defaultAlertDeliveryTimeout Second Minute in
  let+ AlertMaxAttempts := envInt "ALERT_MAX_ATTEMPTS" defaultAlertMaxAttempts 1 100 in
  let+ AlertRetryInitialBackoff := envDuration "ALERT_RETRY_INITIAL_BACKOFF" defaultAlertRetryInitial (100 * Millisecond) Hour in
  let+ AlertRetryMaxBackoff := envDuration "ALERT_RETRY_MAX_BACKOFF" defaultAlertRetryMax (100 * Millisecond) (24 * Hour) in
  let+ RetentionEnabled := envBool "RETENTION_ENABLED" false in
  let+ RetentionInterval := envDuration "RETENTION_INTERVAL" defaultRetentionInterval Minute (24 * Hour) in
  let+ RetentionBatchSize := envInt "RETENTION_BATCH_SIZE" defaultRetentionBatchSize 1 100000 in
  let+ CheckResultsRetention := envDuration "CHECK_RESULTS_RETENTION" defaultCheckResultsRetention Hour (10 * 365 * 24 * Hour) in
  let+ CheckJobsRetention := envDuration "CHECK_JOBS_RETENTION" defaultCheckJobsRetention Hour (10 * 365 * 24 * Hour) in
  let+ AlertOutboxRetention := envDuration "ALERT_OUTBOX_RETENTION" defaultAlertOutboxRetention Hour (10 * 365 * 24 * Hour) in
  let+ ResolvedIncidentRetention := envDuration "RESOLVED_INCIDENT_RETENTION" defaultResolvedIncidentRetention Hour (10 * 365 * 24 * Hour) in
  let UserAgent := envString "USER_AGENT" defaultUserAgent in
  let+ EnablePprof := envBool "ENABLE_PPROF" false in
  let parsed := ParseStatusPolicy (envString "EXPECTED_STATUS" defaultExpectedStatus) in
  let+ ExpectedStatus := match parsed with
                         | Ok statusPolicy => cret statusPolicy
                         | Err err => ({| ranges := []; raw := "" |}, [BadExpectedStatus err])
                         end in
  cret (mkConfig AppEnv AppRole StorageType DatabaseURL DatabaseOperationTimeout DatabaseMigrationTimeout
    RunMigrations APIKey AuthDisabled QueueType RabbitMQURL RabbitMQConnectTimeout RabbitMQPublishTimeout
    RabbitMQReconnectInitial RabbitMQReconnectMax QueueName DeadLetterQueueName QueueBufferSize QueuePrefetch
    MaxJobAttempts WorkerCount SchedulerBatchSize CheckInterval HTTPTimeout CheckLeaseTimeout HealthAddr MaxRedirects
    MaxBodyBytes MaxHeaderBytes AllowPrivateNetworks AllowProxyEnv AllowedPorts URLsFile SeedURLsFile
    SeedDefaultLinks ExpectedStatus AlertWebhookURL AlertFailureThreshold AlertCooldown AlertDispatchInterval
    AlertDispatchBatchSize AlertLeaseTimeout AlertDeliveryTimeout AlertMaxAttempts AlertRetryInitialBackoff
    AlertRetryMaxBackoff RetentionEnabled RetentionInterval RetentionBatchSize CheckResultsRetention
    CheckJobsRetention AlertOutboxRetention ResolvedIncidentRetention UserAgent EnablePprof).

(** ** The rules between fields *)

#[local] Abbreviation eqs := String.eqb.

Definition alert_rules (cfg : Config) : list ConfigErr :=
  (if negb (eqs (cfg_AlertWebhookURL cfg) "") then
     match validateHTTPURLShape (cfg_AlertWebhookURL cfg) with Some err => [BadWebhookURL err] | None => [] end
     ++ report (negb (eqs (cfg_StorageType cfg) "postgres"))
          (Rule "STORAGE_TYPE=postgres is required when ALERT_WEBHOOK_URL is configured")
   else [])
  ++ report (eqs (cfg_AppRole cfg) "alert-dispatcher" && eqs (cfg_AlertWebhookURL cfg) "")
       (Rule "ALERT_WEBHOOK_URL is required for APP_ROLE=alert-dispatcher")
  ++ report (cfg_AlertRetryMaxBackoff cfg <? cfg_AlertRetryInitialBackoff cfg)
       (Rule "ALERT_RETRY_MAX_BACKOFF must be greater than or equal to ALERT_RETRY_INITIAL_BACKOFF")
  ++ let minimum := minimumAlertLeaseTimeout (cfg_AlertDeliveryTimeout cfg) (cfg_DatabaseOperationTimeout cfg) in
     report (cfg_AlertLeaseTimeout cfg <? minimum) (AlertLeaseTooShort minimum).

Definition api_enabled (cfg : Config) : bool := eqs (cfg_AppRole cfg) "all" || eqs (cfg_AppRole cfg) "api".

Definition api_rules (cfg : Config) : list ConfigErr :=
  report (eqs (cfg_UserAgent cfg) "") (Rule "USER_AGENT must not be empty")
  ++ report (api_enabled cfg && eqs (cfg_HealthAddr cfg) "") (Rule "HEALTH_ADDR must not be empty for API-enabled roles")
  ++ (if cfg_AuthDisabled cfg then
        report (negb (one_of (cfg_AppEnv cfg) ["local"; "development"; "demo"]))
          (Rule "AUTH_DISABLED=true is allowed only when APP_ENV is local, development, or demo")
        ++ report (negb (eqs (cfg_APIKey cfg) "")) (Rule "AUTH_DISABLED=true must not be combined with API_KEY")
      else [])
  ++ (if api_enabled cfg && negb (cfg_AuthDisabled cfg) then
        if eqs (cfg_APIKey cfg) "" then
          [Rule "API_KEY is required for API-enabled roles; use AUTH_DISABLED=true only in local, development, or demo environments"]
        else report (Z.of_nat (String.length (cfg_APIKey cfg)) <? minAPIKeyLength)
               (Rule ("API_KEY must contain at least " +:+ Itoa minAPIKeyLength +:+ " characters"))
      else []).

Definition backend_rules (cfg : Config) : list ConfigErr :=
  report (eqs (cfg_StorageType cfg) "postgres" && eqs (cfg_DatabaseURL cfg) "")
    (Rule "DATABASE_URL is required when STORAGE_TYPE=postgres")
  ++ report (eqs (cfg_QueueType cfg) "rabbitmq" && eqs (cfg_RabbitMQURL cfg) "")
       (Rule "RABBITMQ_URL is required when QUEUE_TYPE=rabbitmq")
  ++ (if cfg_RetentionEnabled cfg then
        report (negb (eqs (cfg_StorageType cfg) "postgres")) (Rule "STORAGE_TYPE=postgres is required when RETENTION_ENABLED=true")
        ++ report (negb (eqs (cfg_AppRole cfg) "all") && negb (eqs (cfg_AppRole cfg) "scheduler"))
             (Rule "RETENTION_ENABLED=true requires APP_ROLE=all or APP_ROLE=scheduler")
      else []).

Definition production_rules (cfg : Config) : list ConfigErr :=
  let production := eqs (cfg_AppEnv cfg) "production" in
  report (production && negb (eqs (cfg_StorageType cfg) "postgres")) (Rule "STORAGE_TYPE=postgres is required in production")
  ++ report (production && roleEnabled (cfg_AppRole cfg) "scheduler" && negb (eqs (cfg_QueueType cfg) "rabbitmq"))
       (Rule "QUEUE_TYPE=rabbitmq is required for scheduler-enabled production roles")
  ++ report (production && eqs (cfg_QueueType cfg) "rabbitmq"
             && (roleEnabled (cfg_AppRole cfg) "scheduler" || roleEnabled (cfg_AppRole cfg) "worker")
             && rabbitMQHeartbeatDisabled (cfg_RabbitMQURL cfg))
       (Rule "RABBITMQ_URL heartbeat must be greater than zero in production")
  ++ report (production && eqs (cfg_AppRole cfg) "all" && negb (cfg_RetentionEnabled cfg))
       (Rule "RETENTION_ENABLED=true is required for APP_ROLE=all in production")
  ++ report (production && cfg_EnablePprof cfg) (Rule "ENABLE_PPROF=true is not allowed in production").

Definition role_rules (cfg : Config) : list ConfigErr :=
  report (one_of (cfg_AppRole cfg) ["api"; "scheduler"; "worker"] && negb (eqs (cfg_StorageType cfg) "postgres"))
    (Rule ("STORAGE_TYPE=postgres is required for APP_ROLE=" +:+ cfg_AppRole cfg))
  ++ report (one_of (cfg_AppRole cfg) ["scheduler"; "worker"] && negb (eqs (cfg_QueueType cfg) "rabbitmq"))
       (Rule ("QUEUE_TYPE=rabbitmq is required for APP_ROLE=" +:+ cfg_AppRole cfg))
  ++ report (cfg_RabbitMQReconnectMax cfg <? cfg_RabbitMQReconnectInitial cfg)
       (Rule "RABBITMQ_RECONNECT_MAX_BACKOFF must be greater than or equal to RABBITMQ_RECONNECT_INITIAL_BACKOFF")
  ++ report (eqs (cfg_QueueName cfg) "") (Rule "QUEUE_NAME must not be empty")
  ++ report (eqs (cfg_DeadLetterQueueName cfg) "") (Rule "DEAD_LETTER_QUEUE_NAME must not be empty").

Definition rules (cfg : Config) : list ConfigErr :=
  alert_rules cfg ++ api_rules cfg ++ backend_rules cfg ++ production_rules cfg ++ role_rules cfg.

(** Every error is reported, not only the first. *)
Definition LoadConfig : res (list ConfigErr) Config :=
  let '(cfg, errs) := load in
  match errs ++ rules cfg with [] => Ok cfg | errs => Err errs end.
End load.

(** The policy of the checker's and the webhook's connections. *)
Definition NewNetworkPolicy (cfg : Config) : NetworkPolicy :=
  {| allowPrivateNetworks := cfg_AllowPrivateNetworks cfg; allowProxyEnv := cfg_AllowProxyEnv cfg;
     maxRedirects := cfg_MaxRedirects cfg;
     allowedPorts := if (size (cfg_AllowedPorts cfg) =? 0)%nat then {[80; 443]} else cfg_AllowedPorts cfg |}.
