(* ===== verification/ConfigSpec.v ===== *)
(** * What an accepted configuration promises

    A table says which variable sets which field, how its text is read and
    within which limits; the rules between fields are written out as
    propositions.  [LoadConfig] accepts exactly the environments that satisfy
    both.  What the other components rely on follows. *)

From stdpp Require Import base list gmap strings.
From Stdlib Require Import ZArith Lia Ascii.
From S2P Require Import Prelude GoNum GoStrings GoDuration Backoff NetworkPolicy Egress Domain Store StoreInv Sample Checker Config.
#[local] Open Scope string_scope.
#[local] Open Scope list_scope.
#[local] Open Scope Z_scope.

(** ** The table *)

Inductive Var :=
| VString (field : Config → string) (default : Config → string)
| VInt (field : Config → Z) (default minimum maximum : Z)
| VDuration (field : Config → Z) (default minimum maximum : Z)
| VBool (field : Config → bool) (default : bool)
| VEnum (field : Config → string) (default : Config → string) (allowed : list string)
| VBackend (field : Config → string) (url : Config → string) (local remote : string)
| VPorts (field : Config → gset Z) (default : string)
| VStatus (field : Config → StatusPolicy) (default : string)
| VSeed.

Definition variables : list (string * Var) :=
  [ ("APP_ENV", VEnum cfg_AppEnv (λ _, "production") ["production"; "local"; "development"; "demo"]);
    ("APP_ROLE", VEnum cfg_AppRole (λ _, defaultAppRole) ["all"; "api"; "scheduler"; "worker"; "alert-dispatcher"]);
    ("DATABASE_URL", VString cfg_DatabaseURL (λ _, ""));
    ("DATABASE_OPERATION_TIMEOUT", VDuration cfg_DatabaseOperationTimeout defaultDatabaseOperationTimeout Second (5 * Minute));
    ("DATABASE_MIGRATION_TIMEOUT", VDuration cfg_DatabaseMigrationTimeout defaultDatabaseMigrationTimeout Second (30 * Minute));
    ("STORAGE_TYPE", VBackend cfg_StorageType cfg_DatabaseURL "memory" "postgres");
    ("RUN_MIGRATIONS", VBool cfg_RunMigrations true);
    ("API_KEY", VString cfg_APIKey (λ _, ""));
    ("AUTH_DISABLED", VBool cfg_AuthDisabled false);
    ("RABBITMQ_URL", VString cfg_RabbitMQURL (λ _, ""));
    ("RABBITMQ_CONNECT_TIMEOUT", VDuration cfg_RabbitMQConnectTimeout defaultRabbitMQConnectTimeout Second Minute);
    ("RABBITMQ_PUBLISH_TIMEOUT", VDuration cfg_RabbitMQPublishTimeout defaultRabbitMQPublishTimeout (100 * Millisecond) (5 * Minute));
    ("RABBITMQ_RECONNECT_INITIAL_BACKOFF", VDuration cfg_RabbitMQReconnectInitial defaultRabbitMQReconnectInitial (100 * Millisecond) Hour);
    ("RABBITMQ_RECONNECT_MAX_BACKOFF", VDuration cfg_RabbitMQReconnectMax defaultRabbitMQReconnectMax (100 * Millisecond) (24 * Hour));
    ("QUEUE_TYPE", VBackend cfg_QueueType cfg_RabbitMQURL "memory" "rabbitmq");
    ("QUEUE_NAME", VString cfg_QueueName (λ _, defaultQueueName));
    ("DEAD_LETTER_QUEUE_NAME", VString cfg_DeadLetterQueueName (λ _, defaultDeadLetterQueueName));
    ("QUEUE_BUFFER_SIZE", VInt cfg_QueueBufferSize defaultQueueBufferSize 1 100000);
    ("QUEUE_PREFETCH", VInt cfg_QueuePrefetch defaultQueuePrefetch 1 1000);
    ("MAX_JOB_ATTEMPTS", VInt cfg_MaxJobAttempts defaultMaxJobAttempts 1 20);
    ("WORKER_COUNT", VInt cfg_WorkerCount defaultWorkerCount 1 100);
    ("SCHEDULER_BATCH_SIZE", VInt cfg_SchedulerBatchSize defaultSchedulerBatchSize 1 1000);
    ("CHECK_INTERVAL", VDuration cfg_CheckInterval defaultCheckInterval (30 * Second) (24 * Hour));
    ("HTTP_TIMEOUT", VDuration cfg_HTTPTimeout defaultHTTPTimeout Second Minute);
    ("CHECK_LEASE_TIMEOUT", VDuration cfg_CheckLeaseTimeout defaultCheckLeaseTimeout Second (24 * Hour));
    ("HEALTH_ADDR", VString cfg_HealthAddr (λ _, defaultHealthAddr));
    ("MAX_REDIRECTS", VInt cfg_MaxRedirects defaultMaxRedirects 0 10);
    ("MAX_BODY_BYTES", VInt cfg_MaxBodyBytes defaultMaxBodyBytes 1024 (10 * 1024 * 1024));
    ("MAX_HEADER_BYTES", VInt cfg_MaxHeaderBytes defaultMaxHeaderBytes 1024 (1024 * 1024));
    ("ALLOW_PRIVATE_NETWORKS", VBool cfg_AllowPrivateNetworks false);
    ("ALLOW_PROXY_ENV", VBool cfg_AllowProxyEnv false);
    ("ALLOWED_PORTS", VPorts cfg_AllowedPorts defaultAllowedPorts);
    ("URLS_FILE", VString cfg_URLsFile (λ _, ""));
    ("SEED_URLS_FILE", VString cfg_SeedURLsFile cfg_URLsFile);
    ("SEED_DEFAULT_LINKS", VSeed);
    ("ALERT_WEBHOOK_URL", VString cfg_AlertWebhookURL (λ _, ""));
    ("ALERT_FAILURE_THRESHOLD", VInt cfg_AlertFailureThreshold defaultAlertFailureThreshold 1 100);
    ("ALERT_COOLDOWN", VDuration cfg_AlertCooldown defaultAlertCooldown 0 (24 * Hour));
    ("ALERT_DISPATCH_INTERVAL", VDuration cfg_AlertDispatchInterval defaultAlertDispatchInterval (100 * Millisecond) Minute);
    ("ALERT_DISPATCH_BATCH_SIZE", VInt cfg_AlertDispatchBatchSize defaultAlertDispatchBatch 1 1000);
    ("ALERT_LEASE_TIMEOUT", VDuration cfg_AlertLeaseTimeout defaultAlertLeaseTimeout Second Hour);
    ("ALERT_DELIVERY_TIMEOUT", VDuration cfg_AlertDeliveryTimeout defaultAlertDeliveryTimeout Second Minute);
    ("ALERT_MAX_ATTEMPTS", VInt cfg_AlertMaxAttempts defaultAlertMaxAttempts 1 100);
    ("ALERT_RETRY_INITIAL_BACKOFF", VDuration cfg_AlertRetryInitialBackoff defaultAlertRetryInitial (100 * Millisecond) Hour);
    ("ALERT_RETRY_MAX_BACKOFF", VDuration cfg_AlertRetryMaxBackoff defaultAlertRetryMax (100 * Millisecond) (24 * Hour));
    ("RETENTION_ENABLED", VBool cfg_RetentionEnabled false);
    ("RETENTION_INTERVAL", VDuration cfg_RetentionInterval defaultRetentionInterval Minute (24 * Hour));
    ("RETENTION_BATCH_SIZE", VInt cfg_RetentionBatchSize defaultRetentionBatchSize 1 100000);
    ("CHECK_RESULTS_RETENTION", VDuration cfg_CheckResultsRetention defaultCheckResultsRetention Hour (10 * 365 * 24 * Hour));
    ("CHECK_JOBS_RETENTION", VDuration cfg_CheckJobsRetention defaultCheckJobsRetention Hour (10 * 365 * 24 * Hour));
    ("ALERT_OUTBOX_RETENTION", VDuration cfg_AlertOutboxRetention defaultAlertOutboxRetention Hour (10 * 365 * 24 * Hour));
    ("RESOLVED_INCIDENT_RETENTION", VDuration cfg_ResolvedIncidentRetention defaultResolvedIncidentRetention Hour (10 * 365 * 24 * Hour));
    ("USER_AGENT", VString cfg_UserAgent (λ _, defaultUserAgent));
    ("ENABLE_PPROF", VBool cfg_EnablePprof false);
    ("EXPECTED_STATUS", VStatus cfg_ExpectedStatus defaultExpectedStatus) ].

Section spec.
Context `{EN : !Environment, UN : !Unicode, UP : !URLParser, UQ : !URLQuery}.

(** A number: its default when unset or blank, else what its text reads as,
    within the limits. *)
Definition number_holds (parse : string → option Z) (key : string) (value default minimum maximum : Z) : Prop :=
  match env_text key with
  | None => value = default
  | Some text => parse text = Some value ∧ minimum <= value <= maximum
  end.
Definition bool_holds (key : string) (value default : bool) : Prop :=
  match env_text key with
  | None => value = default
  | Some text =>
      if value then ToLower text ∈ ["1"; "true"; "yes"; "y"; "on"]
      else ToLower text ∈ ["0"; "false"; "no"; "n"; "off"]
  end.
Definition enum_holds (value text : string) (allowed : list string) : Prop :=
  value = ToLower (TrimSpace text) ∧ value ∈ allowed.
Definition ports_hold (ports : gset Z) (text : string) : Prop :=
  ports ≠ ∅
  ∧ (∀ part, part ∈ Split "," text → ∃ port, Atoi (TrimSpace part) = Some port ∧ 1 <= port <= 65535)
  ∧ (∀ port, port ∈ ports ↔ ∃ part, part ∈ Split "," text ∧ Atoi (TrimSpace part) = Some port).

Definition var_holds (cfg : Config) (kv : string * Var) : Prop :=
  let key := kv.1 in
  match kv.2 with
  | VString field default => field cfg = envString key (default cfg)
  | VInt field default lo hi => number_holds Atoi key (field cfg) default lo hi
  | VDuration field default lo hi => number_holds ParseDuration key (field cfg) default lo hi
  | VBool field default => bool_holds key (field cfg) default
  | VEnum field default allowed => enum_holds (field cfg) (envString key (default cfg)) allowed
  | VBackend field url here remote =>
      let text := envString key "" in
      enum_holds (field cfg) (if String.eqb text "" then (if negb (String.eqb (url cfg) "") then remote else here) else text) [here; remote]
  | VPorts field default => ports_hold (field cfg) (envString key default)
  | VStatus field default => ParseStatusPolicy (envString key default) = Ok (field cfg)
  | VSeed => ∃ b, bool_holds key b false ∧ cfg_SeedDefaultLinks cfg = b || String.eqb (cfg_AppEnv cfg) "demo"
  end.

#[local] Ltac number parse t :=
  unfold number_holds; destruct (env_text _) as [t|]; [|unfold cret; split; [by intros [= ->]|by intros ->]];
  destruct (parse t) as [z|]; [|split; [done|by intros [? _]]];
  repeat match goal with |- context [?a <? ?b] => destruct (Z.ltb_spec a b) end; cbn;
  (split; [intros [= <-]; (split; [done|lia])|]); intros [[= ->] ?]; try lia; done.

Lemma envInt_holds key v d lo hi : envInt key d lo hi = (v, []) ↔ number_holds Atoi key v d lo hi.
Proof. unfold envInt. number Atoi t. Qed.
Lemma envDuration_holds key v d lo hi : envDuration key d lo hi = (v, []) ↔ number_holds ParseDuration key v d lo hi.
Proof. unfold envDuration. number ParseDuration t. Qed.

Lemma one_of_spec s l : one_of s l = true ↔ s ∈ l.
Proof.
  unfold one_of. rewrite existsb_exists. setoid_rewrite String.eqb_eq. split.
  - intros (x & Hx & ->). by apply list_elem_of_In.
  - intros H%list_elem_of_In. by exists s.
Qed.

Lemma envBool_holds key v d : envBool key d = (v, []) ↔ bool_holds key v d.
Proof.
  unfold envBool, bool_holds. destruct (env_text key) as [t|]; [|unfold cret; split; [by intros [= ->]|by intros ->]].
  destruct (one_of (ToLower t) ["1"; _; _; _; _]) eqn:H1; [|destruct (one_of (ToLower t) ["0"; _; _; _; _]) eqn:H2].
  - apply one_of_spec in H1. unfold cret. split; [by intros [= <-]|]. destruct v; [done|].
    intros H0. exfalso. set_unfold. by decompose [or] H0; decompose [or] H1; congruence.
  - unfold cret. apply one_of_spec in H2. split; [by intros [= <-]|]. destruct v; [|done].
    intros H0%one_of_spec. congruence.
  - split; [done|]. destruct v; intros H0%one_of_spec; congruence.
Qed.

Lemma validateEnum_holds key v text allowed : validateEnum key text allowed = (v, []) ↔ enum_holds v text allowed.
Proof.
  unfold validateEnum, enum_holds. destruct (one_of _ allowed) eqn:H; unfold cret.
  - apply one_of_spec in H. split; [by intros [= <-]|by intros [-> _]].
  - split; [done|]. intros [-> Hin%one_of_spec]. congruence.
Qed.

Lemma cbind_nil {A B} (m : conf A) (f : A → conf B) b :
  cbind m f = (b, []) ↔ ∃ a, m = (a, []) ∧ f a = (b, []).
Proof.
  unfold cbind. destruct m as [a e]. cbn. destruct (f a) as [b' e'] eqn:Hf. cbn. split.
  - intros [= -> [-> ->]%app_eq_nil]. by exists a.
  - intros (a' & [= <- ->] & H). rewrite Hf in H. by simplify_eq.
Qed.

Lemma port_parts_holds key parts ports ports' :
  port_parts key parts ports = (ports', []) ↔
  (∀ part, part ∈ parts → ∃ port, Atoi (TrimSpace part) = Some port ∧ 1 <= port <= 65535)
  ∧ (∀ port, port ∈ ports' ↔ port ∈ ports ∨ ∃ part, part ∈ parts ∧ Atoi (TrimSpace part) = Some port).
Proof.
  revert ports. induction parts as [|part parts IH]; intros ports; cbn [port_parts].
  - unfold cret. split.
    + intros [= <-]. split; [by intros ? ?%not_elem_of_nil|]. intros port. split; [by left|].
      intros [?|(? & ?%not_elem_of_nil & _)]; done.
    + intros [_ H]. f_equal. apply leibniz_equiv. intros port. rewrite H. split; [by left|].
      intros [?|(? & ?%not_elem_of_nil & _)]; done.
  - assert (∀ e, cbind (ports, [e]) (port_parts key parts) = (ports', []) ↔ False) as Hbad.
    { intros e. rewrite cbind_nil. split; [|done]. by intros (a & [= _ ?] & _). }
    assert ((∀ port, Atoi (TrimSpace part) = Some port → ¬ 1 <= port <= 65535) →
      ((∀ x, x ∈ part :: parts → ∃ port, Atoi (TrimSpace x) = Some port ∧ 1 <= port <= 65535) → False)) as Hno.
    { intros Hn H. destruct (H part (list_elem_of_here _ _)) as (port & Hp & Hr). by eapply Hn. }
    destruct (String.eqb_spec (TrimSpace part) "") as [He|_].
    { rewrite Hbad. split; [done|]. intros [H _]. apply Hno in H; [done|]. rewrite He. done. }
    destruct (Atoi (TrimSpace part)) as [port|] eqn:Hp.
    2:{ rewrite Hbad. split; [done|]. intros [H _]. apply Hno in H; done. }
    destruct ((port <? 1) || (65535 <? port)) eqn:Hr.
    { rewrite Hbad. split; [done|]. intros [H _]. apply Hno in H; [done|]. intros ? [= <-] ?.
      apply orb_true_iff in Hr as [?%Z.ltb_lt|?%Z.ltb_lt]; lia. }
    apply orb_false_iff in Hr as [Hr1%Z.ltb_ge Hr2%Z.ltb_ge]. rewrite IH. split.
    + intros [H1 H2]. split.
      * intros x [->|Hx]%elem_of_cons; [by exists port|by apply H1].
      * intros q. rewrite H2. set_solver.
    + intros [H1 H2]. split; [intros x Hx; apply H1; by right|]. intros q. rewrite H2, elem_of_union, elem_of_singleton. split.
      * intros [?|(x & [->|Hx]%elem_of_cons & Hq)]; [by left; right|left; left; congruence|right; by exists x].
      * intros [[->|?]|(x & Hx & Hq)]; [right; exists part|by left|right; exists x]; (split; [|done]); [by left|by right].
Qed.

Lemma envPorts_holds key d ports : envPorts key d = (ports, []) ↔ ports_hold ports (envString key d).
Proof.
  unfold envPorts, ports_hold. rewrite cbind_nil. split.
  - intros (a & [H1 H2]%port_parts_holds & [= <- Hs]). unfold report in Hs.
    destruct (Nat.eqb_spec (size a) 0) as [|Hn]; [done|]. split; [by intros ->|]. split; [done|].
    intros port. rewrite H2. set_solver.
  - intros (Hn & H1 & H2). exists ports. split.
    + apply port_parts_holds. split; [done|]. intros port. rewrite H2. set_solver.
    + unfold report. destruct (Nat.eqb_spec (size ports) 0) as [Hz|]; [|done]. apply size_empty_inv in Hz.
      exfalso. apply Hn. by apply leibniz_equiv.
Qed.

(** ** The rules *)


Record rules_ok (cfg : Config) : Prop := {
  ro_webhook : cfg_AlertWebhookURL cfg ≠ "" →
    validateHTTPURLShape (cfg_AlertWebhookURL cfg) = None ∧ cfg_StorageType cfg = "postgres";
  ro_dispatcher : cfg_AppRole cfg = "alert-dispatcher" → cfg_AlertWebhookURL cfg ≠ "";
  ro_alert_backoff : cfg_AlertRetryInitialBackoff cfg <= cfg_AlertRetryMaxBackoff cfg;
  ro_alert_lease : minimumAlertLeaseTimeout (cfg_AlertDeliveryTimeout cfg) (cfg_DatabaseOperationTimeout cfg) <= cfg_AlertLeaseTimeout cfg;
  ro_user_agent : cfg_UserAgent cfg ≠ "";
  ro_health : cfg_AppRole cfg ∈ ["all"; "api"] → cfg_HealthAddr cfg ≠ "";
  ro_auth_disabled : cfg_AuthDisabled cfg = true → cfg_AppEnv cfg ∈ ["local"; "development"; "demo"] ∧ cfg_APIKey cfg = "";
  ro_api_key : cfg_AppRole cfg ∈ ["all"; "api"] → cfg_AuthDisabled cfg = false →
    minAPIKeyLength <= Z.of_nat (String.length (cfg_APIKey cfg));
  ro_database : cfg_StorageType cfg = "postgres" → cfg_DatabaseURL cfg ≠ "";
  ro_rabbit : cfg_QueueType cfg = "rabbitmq" → cfg_RabbitMQURL cfg ≠ "";
  ro_retention : cfg_RetentionEnabled cfg = true → cfg_StorageType cfg = "postgres" ∧ cfg_AppRole cfg ∈ ["all"; "scheduler"];
  ro_prod_storage : cfg_AppEnv cfg = "production" → cfg_StorageType cfg = "postgres";
  ro_prod_queue : cfg_AppEnv cfg = "production" → cfg_AppRole cfg ∈ ["all"; "scheduler"] → cfg_QueueType cfg = "rabbitmq";
  ro_prod_heartbeat : cfg_AppEnv cfg = "production" → cfg_QueueType cfg = "rabbitmq" →
    cfg_AppRole cfg ∈ ["all"; "scheduler"; "worker"] → rabbitMQHeartbeatDisabled (cfg_RabbitMQURL cfg) = false;
  ro_prod_retention : cfg_AppEnv cfg = "production" → cfg_AppRole cfg = "all" → cfg_RetentionEnabled cfg = true;
  ro_prod_pprof : cfg_AppEnv cfg = "production" → cfg_EnablePprof cfg = false;
  ro_role_storage : cfg_AppRole cfg ∈ ["api"; "scheduler"; "worker"] → cfg_StorageType cfg = "postgres";
  ro_role_queue : cfg_AppRole cfg ∈ ["scheduler"; "worker"] → cfg_QueueType cfg = "rabbitmq";
  ro_reconnect : cfg_RabbitMQReconnectInitial cfg <= cfg_RabbitMQReconnectMax cfg;
  ro_queue_name : cfg_QueueName cfg ≠ ""; ro_dead_letters : cfg_DeadLetterQueueName cfg ≠ "";
}.

Lemma report_nil c e : report c e = [] ↔ c = false.
Proof. by destruct c. Qed.
Lemma if_nil (c : bool) (l : list ConfigErr) : (if c then l else []) = [] ↔ (c = true → l = []).
Proof. destruct c; split; auto; done. Qed.
Lemma eqb_true a b : String.eqb a b = true ↔ a = b.
Proof. apply String.eqb_eq. Qed.

#[local] Ltac rule_step :=
  match goal with
  | |- context [report _ _ = []] => rewrite report_nil
  | |- context [(if ?c then _ else []) = []] => rewrite (if_nil c)
  | |- context [String.eqb ?a ?b] => destruct (String.eqb_spec a b)
  | |- context [?a <? ?b] => destruct (Z.ltb_spec a b)
  end.
#[local] Ltac rule := repeat rule_step; cbn; set_unfold; naive_solver lia.

Lemma alert_rules_ok cfg : alert_rules cfg = [] ↔
  (cfg_AlertWebhookURL cfg ≠ "" → validateHTTPURLShape (cfg_AlertWebhookURL cfg) = None ∧ cfg_StorageType cfg = "postgres")
  ∧ (cfg_AppRole cfg = "alert-dispatcher" → cfg_AlertWebhookURL cfg ≠ "")
  ∧ cfg_AlertRetryInitialBackoff cfg <= cfg_AlertRetryMaxBackoff cfg
  ∧ minimumAlertLeaseTimeout (cfg_AlertDeliveryTimeout cfg) (cfg_DatabaseOperationTimeout cfg) <= cfg_AlertLeaseTimeout cfg.
Proof.
  unfold alert_rules. cbn zeta. rewrite !app_nil. f_equiv; [|f_equiv; [rule|f_equiv; rule]].
  rewrite if_nil, app_nil. destruct (validateHTTPURLShape _); rule.
Qed.

Lemma api_rules_ok cfg : api_rules cfg = [] ↔
  cfg_UserAgent cfg ≠ "" ∧ (cfg_AppRole cfg ∈ ["all"; "api"] → cfg_HealthAddr cfg ≠ "")
  ∧ (cfg_AuthDisabled cfg = true → cfg_AppEnv cfg ∈ ["local"; "development"; "demo"] ∧ cfg_APIKey cfg = "")
  ∧ (cfg_AppRole cfg ∈ ["all"; "api"] → cfg_AuthDisabled cfg = false →
     minAPIKeyLength <= Z.of_nat (String.length (cfg_APIKey cfg))).
Proof.
  unfold api_rules, api_enabled. rewrite !app_nil. f_equiv; [rule|]. f_equiv; [rule|]. f_equiv.
  - rewrite if_nil, app_nil, !report_nil. rewrite negb_false_iff, one_of_spec. rule.
  - rewrite if_nil. destruct (cfg_AuthDisabled cfg); [rule|].
    assert (Hshort : cfg_APIKey cfg = "" → ¬ minAPIKeyLength <= Z.of_nat (String.length (cfg_APIKey cfg))).
    { intros ->. unfold minAPIKeyLength; cbn; lia. }
    repeat rule_step; cbn; set_unfold; intuition (try congruence; try lia).
Qed.

Lemma backend_rules_ok cfg : backend_rules cfg = [] ↔
  (cfg_StorageType cfg = "postgres" → cfg_DatabaseURL cfg ≠ "") ∧ (cfg_QueueType cfg = "rabbitmq" → cfg_RabbitMQURL cfg ≠ "")
  ∧ (cfg_RetentionEnabled cfg = true → cfg_StorageType cfg = "postgres" ∧ cfg_AppRole cfg ∈ ["all"; "scheduler"]).
Proof.
  unfold backend_rules. rewrite !app_nil. f_equiv; [rule|]. f_equiv; [rule|].
  rewrite if_nil, app_nil. rule.
Qed.

Lemma production_rules_ok cfg : production_rules cfg = [] ↔
  (cfg_AppEnv cfg = "production" → cfg_StorageType cfg = "postgres")
  ∧ (cfg_AppEnv cfg = "production" → cfg_AppRole cfg ∈ ["all"; "scheduler"] → cfg_QueueType cfg = "rabbitmq")
  ∧ (cfg_AppEnv cfg = "production" → cfg_QueueType cfg = "rabbitmq" →
     cfg_AppRole cfg ∈ ["all"; "scheduler"; "worker"] → rabbitMQHeartbeatDisabled (cfg_RabbitMQURL cfg) = false)
  ∧ (cfg_AppEnv cfg = "production" → cfg_AppRole cfg = "all" → cfg_RetentionEnabled cfg = true)
  ∧ (cfg_AppEnv cfg = "production" → cfg_EnablePprof cfg = false).
Proof.
  unfold production_rules, roleEnabled. cbn zeta. rewrite !app_nil.
  f_equiv; [rule|]. f_equiv; [rule|]. f_equiv; [destruct (rabbitMQHeartbeatDisabled _); rule|].
  f_equiv; [destruct (cfg_RetentionEnabled cfg); rule|]. destruct (cfg_EnablePprof cfg); rule.
Qed.

Lemma role_rules_ok cfg : role_rules cfg = [] ↔
  (cfg_AppRole cfg ∈ ["api"; "scheduler"; "worker"] → cfg_StorageType cfg = "postgres")
  ∧ (cfg_AppRole cfg ∈ ["scheduler"; "worker"] → cfg_QueueType cfg = "rabbitmq")
  ∧ cfg_RabbitMQReconnectInitial cfg <= cfg_RabbitMQReconnectMax cfg
  ∧ cfg_QueueName cfg ≠ "" ∧ cfg_DeadLetterQueueName cfg ≠ "".
Proof.
  unfold role_rules, one_of. cbn [existsb]. rewrite !app_nil.
  f_equiv; [rule|]. f_equiv; [rule|]. f_equiv; [rule|]. f_equiv; rule.
Qed.

Lemma rules_iff cfg : rules cfg = [] ↔ rules_ok cfg.
Proof.
  unfold rules. rewrite !app_nil, alert_rules_ok, api_rules_ok, backend_rules_ok, production_rules_ok, role_rules_ok.
  split; [intros H; decompose [and] H; by split|]. intros []. by split_and!.
Qed.

(** ** The fields are read as the table says *)

Definition early_rules (cfg : Config) : Prop :=
  minimumCheckLeaseTimeout (cfg_DatabaseOperationTimeout cfg) (cfg_RabbitMQPublishTimeout cfg) <= cfg_CheckLeaseTimeout cfg
  ∧ (cfg_AllowProxyEnv cfg = true → cfg_AllowPrivateNetworks cfg = true).

Lemma let_report_nil {A} c e (k : conf A) a : cbind (tt, report c e) (λ _, k) = (a, []) ↔ c = false ∧ k = (a, []).
Proof.
  rewrite cbind_nil. split.
  - by intros ([] & [= Hr] & H); apply report_nil in Hr.
  - intros [-> H]. by exists tt.
Qed.

#[local] Ltac load_inv H :=
  cbv zeta in H;
  lazymatch type of H with
  | cbind (tt, _) _ = _ => apply let_report_nil in H as [? H]
  | cbind _ _ = _ => apply cbind_nil in H as (? & ? & H)
  end.

#[local] Ltac var_case :=
  lazymatch goal with
  | |- var_holds _ (_, VString _ _) => reflexivity
  | |- var_holds _ (_, VInt _ _ _ _) => apply envInt_holds; assumption
  | |- var_holds _ (_, VDuration _ _ _ _) => apply envDuration_holds; assumption
  | |- var_holds _ (_, VBool _ _) => apply envBool_holds; assumption
  | |- var_holds _ (_, VEnum _ _ _) => eapply validateEnum_holds; eassumption
  | |- var_holds _ (_, VBackend _ _ _ _) => eapply validateEnum_holds; eassumption
  | |- var_holds _ (_, VPorts _ _) => eapply envPorts_holds; eassumption
  end.

Lemma load_holds cfg : load = (cfg, []) → Forall (var_holds cfg) variables ∧ early_rules cfg.
Proof.
  intros H. unfold load in H. repeat load_inv H.
  injection H as <-.
  match goal with H : (match ParseStatusPolicy _ with _ => _ end) = _ |- _ => rename H into Hstatus end.
  assert (ParseStatusPolicy (envString "EXPECTED_STATUS" defaultExpectedStatus) = Ok x43) as Hp.
  { destruct (ParseStatusPolicy _); [by injection Hstatus as ->|done]. }
  split.
  - unfold variables. repeat (apply Forall_cons; split; [first [var_case | exact Hp | eexists; split; [by apply envBool_holds|reflexivity]]|]).
    apply Forall_nil_2.
  - split; cbn.
    + by apply Z.ltb_ge.
    + intros ->. by destruct x22.
Qed.

#[local] Ltac load_step :=
  cbv zeta;
  lazymatch goal with
  | |- cbind (tt, report _ _) _ = _ => apply let_report_nil; split
  | |- cbind (envInt _ _ _ _) _ = _ => apply cbind_nil; eexists; split; [apply envInt_holds; eassumption|]
  | |- cbind (envDuration _ _ _ _) _ = _ => apply cbind_nil; eexists; split; [apply envDuration_holds; eassumption|]
  | |- cbind (envBool _ _) _ = _ => apply cbind_nil; eexists; split; [apply envBool_holds; eassumption|]
  | |- cbind (envPorts _ _) _ = _ => apply cbind_nil; eexists; split; [apply envPorts_holds; eassumption|]
  | |- cbind (envEnum _ _ _) _ = _ => apply cbind_nil; eexists; split; [apply validateEnum_holds; eassumption|]
  | |- cbind (validateEnum _ _ _) _ = _ => apply cbind_nil; eexists; split; [apply validateEnum_holds; eassumption|]
  end.

Lemma load_complete cfg : Forall (var_holds cfg) variables → early_rules cfg → load = (cfg, []).
Proof.
  intros H [Hlease Hproxy]. destruct cfg. unfold variables in H. cbn in Hlease, Hproxy.
  repeat (let Hv := fresh "Hv" in apply Forall_cons in H as [Hv H];
          unfold var_holds in Hv; cbn -[number_holds bool_holds enum_holds ports_hold envString ParseStatusPolicy] in Hv).
  clear H.
  repeat match goal with H : _ = envString _ _ |- _ => rewrite H in *; clear H end.
  match goal with H : ∃ b, _ |- _ => destruct H as (seeds & Hseeds & ->) end.
  unfold load. repeat load_step.
  - by apply Z.ltb_ge.
  - destruct cfg_AllowProxyEnv; [|done]. by rewrite Hproxy.
  - match goal with H : ParseStatusPolicy _ = _ |- _ => rewrite H end. apply cbind_nil. by eexists.
Qed.

Lemma LoadConfig_iff cfg :
  LoadConfig = Ok cfg ↔ Forall (var_holds cfg) variables ∧ early_rules cfg ∧ rules_ok cfg.
Proof.
  unfold LoadConfig. split.
  - destruct load as [cfg' errs] eqn:Hl. destruct (errs ++ rules cfg') as [|? ?] eqn:He; [|done]. intros [= ->].
    apply app_eq_nil in He as [-> Hr]. apply load_holds in Hl as [Hv He]. split; [done|]. split; [done|]. by apply rules_iff.
  - intros (Hv & He & Hr). rewrite (load_complete cfg Hv He). cbn. by apply rules_iff in Hr as ->.
Qed.

(** C23: [LoadConfig] accepts an environment exactly when every variable of the
    table is unset or reads as a value within its limits, and the rules between
    the fields hold; the configuration it returns is then the one the table
    gives, defaults for what is unset included.  (Which rules:
    [early_rules] and [rules_ok].) *)
Theorem LoadConfig_table cfg :
  LoadConfig = Ok cfg ↔ Forall (var_holds cfg) variables ∧ early_rules cfg ∧ rules_ok cfg.
Proof. apply LoadConfig_iff. Qed.

(** ** Consequences *)

Definition default_ok (kv : string * Var) : bool :=
  match kv.2 with
  | VInt _ d lo hi | VDuration _ d lo hi => (lo <=? d) && (d <=? hi)
  | _ => true
  end.

(** The numbers of the table with their limits. *)
Definition limited (kv : string * Var) : option ((Config → Z) * Z * Z) :=
  match kv.2 with
  | VInt field _ lo hi | VDuration field _ lo hi => Some (field, lo, hi)
  | _ => None
  end.

Lemma accepted_limits cfg kv field lo hi :
  Forall (var_holds cfg) variables → kv ∈ variables → limited kv = Some (field, lo, hi) → lo <= field cfg <= hi.
Proof.
  intros Hv Hin Hl. assert (Forall (λ kv, default_ok kv = true) variables) as Hd by (vm_compute; repeat constructor).
  rewrite Forall_forall in Hv, Hd. specialize (Hv _ Hin). specialize (Hd _ Hin).
  unfold limited, default_ok, var_holds, number_holds in *. destruct kv as [key v]. cbn [fst snd] in *.
  destruct v; simplify_eq; apply andb_true_iff in Hd as [?%Z.leb_le ?%Z.leb_le];
    destruct (env_text key); [tauto|lia|tauto|lia].
Qed.

#[local] Ltac limit kv Hv H :=
  pose proof (accepted_limits _ kv _ _ _ Hv ltac:(by repeat first [left | right]) eq_refl) as H.

Lemma rabbit_limits cfg : Forall (var_holds cfg) variables →
  Second <= cfg_RabbitMQConnectTimeout cfg <= Minute ∧ 100 * Millisecond <= cfg_RabbitMQPublishTimeout cfg <= 5 * Minute
  ∧ 100 * Millisecond <= cfg_RabbitMQReconnectInitial cfg <= Hour
  ∧ 100 * Millisecond <= cfg_RabbitMQReconnectMax cfg <= 24 * Hour.
Proof.
  intros Hv.
  limit ("RABBITMQ_CONNECT_TIMEOUT", VDuration cfg_RabbitMQConnectTimeout defaultRabbitMQConnectTimeout Second Minute) Hv H1.
  limit ("RABBITMQ_PUBLISH_TIMEOUT", VDuration cfg_RabbitMQPublishTimeout defaultRabbitMQPublishTimeout (100 * Millisecond) (5 * Minute)) Hv H2.
  limit ("RABBITMQ_RECONNECT_INITIAL_BACKOFF", VDuration cfg_RabbitMQReconnectInitial defaultRabbitMQReconnectInitial (100 * Millisecond) Hour) Hv H3.
  limit ("RABBITMQ_RECONNECT_MAX_BACKOFF", VDuration cfg_RabbitMQReconnectMax defaultRabbitMQReconnectMax (100 * Millisecond) (24 * Hour)) Hv H4.
  tauto.
Qed.

Lemma alert_limits cfg : LoadConfig = Ok cfg →
  100 * Millisecond <= cfg_AlertRetryInitialBackoff cfg <= cfg_AlertRetryMaxBackoff cfg
  ∧ cfg_AlertRetryMaxBackoff cfg <= 24 * Hour ∧ 1 <= cfg_AlertDispatchBatchSize cfg.
Proof.
  intros (Hv & _ & Hr)%LoadConfig_iff. pose proof (ro_alert_backoff _ Hr).
  limit ("ALERT_RETRY_INITIAL_BACKOFF", VDuration cfg_AlertRetryInitialBackoff defaultAlertRetryInitial (100 * Millisecond) Hour) Hv H1.
  limit ("ALERT_RETRY_MAX_BACKOFF", VDuration cfg_AlertRetryMaxBackoff defaultAlertRetryMax (100 * Millisecond) (24 * Hour)) Hv H2.
  limit ("ALERT_DISPATCH_BATCH_SIZE", VInt cfg_AlertDispatchBatchSize defaultAlertDispatchBatch 1 1000) Hv H3.
  lia.
Qed.

Lemma database_limits cfg : LoadConfig = Ok cfg → Second <= cfg_DatabaseOperationTimeout cfg <= 5 * Minute.
Proof.
  intros (Hv & _)%LoadConfig_iff.
  limit ("DATABASE_OPERATION_TIMEOUT", VDuration cfg_DatabaseOperationTimeout defaultDatabaseOperationTimeout Second (5 * Minute)) Hv H1.
  exact H1.
Qed.

Lemma seed_limits cfg : Forall (var_holds cfg) variables →
  30 * Second <= cfg_CheckInterval cfg <= 24 * Hour ∧ Second <= cfg_HTTPTimeout cfg <= Minute
  ∧ ∃ text, ParseStatusPolicy text = Ok (cfg_ExpectedStatus cfg).
Proof.
  intros Hv.
  limit ("CHECK_INTERVAL", VDuration cfg_CheckInterval defaultCheckInterval (30 * Second) (24 * Hour)) Hv H1.
  limit ("HTTP_TIMEOUT", VDuration cfg_HTTPTimeout defaultHTTPTimeout Second Minute) Hv H2.
  split; [done|]. split; [done|]. rewrite Forall_forall in Hv.
  assert (("EXPECTED_STATUS", VStatus cfg_ExpectedStatus defaultExpectedStatus) ∈ variables) as Hin
    by (by repeat first [left | right]). specialize (Hv _ Hin). eexists. exact Hv.
Qed.

(** C24: In an accepted configuration every number is within its limits, so no
    sum of the lease budgets overflows, and the leases outlast the work they
    cover: a check lease covers the longest check, or a whole publication, with
    a database operation and 30 seconds to spare, and an alert lease covers a
    delivery with a database operation on either side and 5 seconds. *)
Theorem LoadConfig_leases cfg : LoadConfig = Ok cfg →
  (∀ kv field lo hi, kv ∈ variables → limited kv = Some (field, lo, hi) → lo <= field cfg <= hi)
  ∧ maxMonitorTimeoutSeconds * Second + cfg_DatabaseOperationTimeout cfg + 30 * Second <= cfg_CheckLeaseTimeout cfg
  ∧ cfg_RabbitMQPublishTimeout cfg + cfg_DatabaseOperationTimeout cfg + 30 * Second <= cfg_CheckLeaseTimeout cfg
  ∧ cfg_AlertDeliveryTimeout cfg + 2 * cfg_DatabaseOperationTimeout cfg + 5 * Second <= cfg_AlertLeaseTimeout cfg.
Proof.
  intros (Hv & [Hlease _] & Hr)%LoadConfig_iff. split; [intros kv field lo hi; by apply accepted_limits|].
  pose proof (ro_alert_lease _ Hr) as Halert.
  limit ("DATABASE_OPERATION_TIMEOUT", VDuration cfg_DatabaseOperationTimeout defaultDatabaseOperationTimeout Second (5 * Minute)) Hv Hdb.
  limit ("RABBITMQ_PUBLISH_TIMEOUT", VDuration cfg_RabbitMQPublishTimeout defaultRabbitMQPublishTimeout (100 * Millisecond) (5 * Minute)) Hv Hpub.
  limit ("ALERT_DELIVERY_TIMEOUT", VDuration cfg_AlertDeliveryTimeout defaultAlertDeliveryTimeout Second Minute) Hv Hdel.
  unfold minimumCheckLeaseTimeout, minimumAlertLeaseTimeout in *.
  unfold maxMonitorTimeoutSeconds, processingLeaseSafetyMargin, alertLeaseSafetyMargin, Second, Millisecond, Minute in *.
  rewrite !wrap64_id in Hlease by (rewrite ?wrap64_id; unfold in_int64, two63, max_int64; lia).
  rewrite wrap64_id in Halert by (unfold in_int64, two63, max_int64; lia). lia.
Qed.

(** C25: An accepted configuration never exposes an unguarded API: a role that
    serves it either has an API key of at least 24 bytes or runs outside
    production with authentication switched off on purpose; in production there
    is no profiler, state is kept in PostgreSQL, a scheduler publishes to
    RabbitMQ, and everything runs with retention; outbound checks never go
    through a proxy that would resolve names outside the egress policy. *)
Theorem LoadConfig_secure cfg : LoadConfig = Ok cfg →
  (cfg_AppRole cfg ∈ ["all"; "api"] →
     24 <= Z.of_nat (String.length (cfg_APIKey cfg)) ∧ cfg_AuthDisabled cfg = false
     ∨ cfg_APIKey cfg = "" ∧ cfg_AuthDisabled cfg = true ∧ cfg_AppEnv cfg ≠ "production")
  ∧ (cfg_AppEnv cfg = "production" →
     cfg_AuthDisabled cfg = false ∧ cfg_EnablePprof cfg = false ∧ cfg_StorageType cfg = "postgres" ∧ cfg_DatabaseURL cfg ≠ ""
     ∧ (cfg_AppRole cfg ∈ ["all"; "scheduler"] → cfg_QueueType cfg = "rabbitmq" ∧ cfg_RabbitMQURL cfg ≠ "")
     ∧ (cfg_AppRole cfg = "all" → cfg_RetentionEnabled cfg = true))
  ∧ (cfg_AllowProxyEnv cfg = true → cfg_AllowPrivateNetworks cfg = true)
  ∧ allowedPorts (NewNetworkPolicy cfg) = cfg_AllowedPorts cfg
  ∧ (∀ port, port ∈ cfg_AllowedPorts cfg → 1 <= port <= 65535).
Proof.
  intros (Hv & [_ Hproxy] & Hr)%LoadConfig_iff. destruct Hr. split_and!; [| |done| |].
  - intros Hrole. destruct (cfg_AuthDisabled cfg) eqn:Hd; [right|left; split; [by apply ro_api_key0|done]].
    destruct (ro_auth_disabled0 eq_refl) as [Henv Hkey]. split; [done|]. split; [done|]. set_unfold. naive_solver congruence.
  - intros Henv. split_and!; auto.
    destruct (cfg_AuthDisabled cfg) eqn:Hd; [|done]. destruct (ro_auth_disabled0 eq_refl) as [Hin _]. set_unfold. naive_solver congruence.
  - rewrite Forall_forall in Hv. assert (("ALLOWED_PORTS", VPorts cfg_AllowedPorts defaultAllowedPorts) ∈ variables) as Hin
      by (by repeat first [left | right]). destruct (Hv _ Hin) as (Hn & _). cbn.
    destruct (Nat.eqb_spec (size (cfg_AllowedPorts cfg)) 0) as [Hz%size_empty_inv|]; [|done].
    exfalso. apply Hn. by apply leibniz_equiv.
  - rewrite Forall_forall in Hv. assert (("ALLOWED_PORTS", VPorts cfg_AllowedPorts defaultAllowedPorts) ∈ variables) as Hin
      by (by repeat first [left | right]). destruct (Hv _ Hin) as (_ & Hval & Hall). cbn in *.
    intros port (part & Hp & Ha)%Hall. destruct (Hval _ Hp) as (port' & Ha' & Hr'). congruence.
Qed.
End spec.

(** ** A production deployment, everything else by default *)

Definition sample_variables : list (string * string) :=
  [("DATABASE_URL", "postgres://db"); ("RABBITMQ_URL", " amqp://mq "); ("API_KEY", "0123456789abcdef01234567");
   ("RETENTION_ENABLED", "Yes"); ("CHECK_LEASE_TIMEOUT", "2m30.5s"); ("ALLOWED_PORTS", "443, 8443")].
Definition sample_environment : Environment :=
  {| LookupEnv key := snd <$> find (λ kv, String.eqb kv.1 key) sample_variables |}.
Definition sample_query : URLQuery := {| url_Query_Get _ _ := Some "" |}.
#[export] Existing Instances sample_environment sample_query.

Lemma sample_config_loads : ∃ cfg, LoadConfig = Ok cfg
  ∧ (cfg_CheckLeaseTimeout cfg =? 150500000000) && String.eqb (cfg_QueueType cfg) "rabbitmq" && cfg_RetentionEnabled cfg = true.
Proof.
  assert (match LoadConfig with
          | Ok cfg => (cfg_CheckLeaseTimeout cfg =? 150500000000) && String.eqb (cfg_QueueType cfg) "rabbitmq" && cfg_RetentionEnabled cfg
          | Err _ => false end = true) as H by (vm_compute; reflexivity).
  destruct LoadConfig as [cfg|e]; [|discriminate]. by exists cfg.
Qed.

Lemma LoadConfig_leases_witness :
  ∃ cfg, cfg_CheckLeaseTimeout cfg = 150500000000
  ∧ maxMonitorTimeoutSeconds * Second + cfg_DatabaseOperationTimeout cfg + 30 * Second <= cfg_CheckLeaseTimeout cfg.
Proof.
  destruct sample_config_loads as (cfg & Hc & Hok). exists cfg.
  apply andb_true_iff in Hok as [[Hl%Z.eqb_eq _]%andb_true_iff _]. split; [exact Hl|].
  apply (LoadConfig_leases cfg Hc).
Defined.

Lemma LoadConfig_secure_witness :
  ∃ cfg, LoadConfig = Ok cfg ∧ allowedPorts (NewNetworkPolicy cfg) = cfg_AllowedPorts cfg.
Proof.
  destruct sample_config_loads as (cfg & Hc & Hok). exists cfg. split; [exact Hc|]. apply (LoadConfig_secure cfg Hc).
Defined.
