(* ===== verification/Links.v ===== *)
(** * Seed links (links.go, repository.go)

    Where the first monitors come from: a file of URLs, one per line or a JSON
    array, or the built-in list; trimmed, without duplicates and sorted, each
    validated against the egress policy, then created in the repository.  The
    file system and [encoding/json] are parameters. *)

From stdpp Require Import base list gmap strings sorting.
From Stdlib Require Import ZArith Lia Ascii.
From Corelib Require Import SpecFloat.
From S2P Require Import Prelude GoNum GoStrings GoDuration NetworkPolicy Egress Domain Store StoreInv Sample Checker Config ConfigSpec.
#[local] Open Scope string_scope.
#[local] Open Scope list_scope.
#[local] Open Scope Z_scope.

(** [<origin>: <err>], the origin without user, path and query; [None] prints as
    [<invalid URL>]. *)
Inductive LinksErr :=
| EmptyFile | NoLinks | ReadError (e : GoError) | JSONError (e : GoError)
| BadLink (origin : option (string * string)) (e : NetErr).

Class Files := {
  ReadFile : string → res GoError string;
  Unmarshal_links : string → res GoError (list string);
}.

(** ** Loading *)

(** The loop of [normalizeLinks]; [seen] are the links kept so far. *)
Fixpoint normalize_loop (links : list string) (seen : gset string) : list string :=
  match links with
  | [] => []
  | link :: links =>
      let link := TrimSpace link in
      if String.eqb link "" then normalize_loop links seen
      else if decide (link ∈ seen) then normalize_loop links seen
      else link :: normalize_loop links ({[link]} ∪ seen)
  end.

Definition normalizeLinks (links : list string) : res LinksErr (list string) :=
  match normalize_loop links ∅ with
  | [] => Err NoLinks
  | normalized => Ok (SortFunc compareString normalized)
  end.

Definition newline : ascii := ascii_of_nat 10.

(** The lines of the file that are neither blank nor comments. *)
Definition link_lines (trimmed : string) : list string :=
  List.filter (λ line, negb (String.eqb line "" || HasPrefix line "#")) (map TrimSpace (Split newline trimmed)).

Definition LoadLinks `{!Files} (path : string) (fallback : list string) : res LinksErr (list string) :=
  if String.eqb (TrimSpace path) "" then
    match fallback with [] => Ok [] | _ => normalizeLinks fallback end
  else match ReadFile path with
  | Err e => Err (ReadError e)
  | Ok content =>
      let trimmed := TrimSpace content in
      if String.eqb trimmed "" then Err EmptyFile
      else if HasPrefix trimmed "[" then
        match Unmarshal_links content with Err e => Err (JSONError e) | Ok links => normalizeLinks links end
      else normalizeLinks (link_lines trimmed)
  end.

Definition DefaultLinks : list string :=
  [ "https://4book.org"; "https://a-level.com.ua"; "https://abiturients.info"; "https://antischool.online";
    "https://bazilik.media"; "https://beetroot.academy"; "https://besmart.edu.gethomestudy.com";
    "https://buki.com.ua"; "https://cambridge.ua"; "https://casers.org"; "https://childcamp.com.ua";
    "https://choice31.com"; "https://cursor.education"; "https://dan-it.com.ua"; "https://dnipro.it";
    "https://dnu.dp.ua"; "https://donnu.edu.ua"; "https://dou.ua"; "https://edu.cbsystematics.com";
    "https://englisher.com.ua"; "https://erudyt.net"; "https://foxminded.ua"; "https://gdz4you.com";
    "https://genius.space"; "https://gioschool.com"; "https://goit.global/ua"; "https://grade.ua";
    "https://greenforest.com.ua"; "https://greencountry.com.ua"; "https://happymonday.ua"; "https://iampm.club";
    "https://ilearn.org.ua"; "https://impactorium.org"; "https://info.edbo.gov.ua"; "https://ithillel.ua";
    "https://itstep.org"; "https://itvdn.com"; "https://k-a-m-a.com"; "https://khnu.km.ua"; "https://kneu.edu.ua";
    "https://knutd.edu.ua"; "https://kpi.ua"; "https://kursi.ua"; "https://l-a-b-a.com"; "https://learning.ua";
    "https://lemon.school"; "https://lms.e-school.net.ua"; "https://lnu.edu.ua"; "https://lpnu.edu.ua";
    "https://mainacademy.com"; "https://man.gov.ua"; "https://mate.academy"; "https://miyklas.com.ua";
    "https://mon.gov.ua"; "https://nau.edu.ua"; "https://nmu.org.ua"; "https://nmuofficial.com";
    "https://nubip.edu.ua"; "https://nure.ua"; "https://nus.org.ua"; "https://onu.edu.ua"; "https://onpu.edu.ua";
    "https://osvita.diia.gov.ua"; "https://osvita.ua"; "https://parta.com.ua"; "https://pkk.com.ua";
    "https://prjctr.com"; "https://prog.kiev.ua"; "https://prometheus.org.ua"; "https://robotdreams.cc";
    "https://rozum.com"; "https://shkola.in.ua"; "https://sigma.software/university"; "https://skillup.ua";
    "https://skvot.io"; "https://speak-up.com.ua"; "https://studway.com.ua"; "https://subject.com.ua";
    "https://sumdu.edu.ua"; "https://superludi.com"; "https://testportal.gov.ua"; "https://tntu.edu.ua";
    "https://ua.mozaweb.com"; "https://ucu.edu.ua"; "https://urok-ua.com"; "https://uzhnu.edu.ua";
    "https://video.novashkola.ua"; "https://vseosvita.ua"; "https://vumonline.ua"; "https://web-academy.com.ua";
    "https://wisecow.com.ua"; "https://www.britishcouncil.org.ua"; "https://www.chnu.edu.ua";
    "https://www.ed-era.com"; "https://www.education.ua"; "https://www.englishdom.com"; "https://www.k-a-m-a.com";
    "https://www.mathema.me"; "https://www.nmu.org.ua"; "https://www.study.ua"; "https://www.ukma.edu.ua";
    "https://www.univ.kiev.ua"; "https://www.univer.kharkov.ua"; "https://yappi.com.ua"; "https://zno.ua";
    "https://znu.edu.ua"; "http://www.nbuv.gov.ua" ].

Definition LoadSeedLinks `{!Files} (cfg : Config) : res LinksErr (list string) :=
  LoadLinks (cfg_SeedURLsFile cfg) (if cfg_SeedDefaultLinks cfg then DefaultLinks else []).

(** ** Validation and seeding *)

Section seed.
Context `{UN : !Unicode, UP : !URLParser}.

Definition redactedURLOrigin (parsed : option URL) : option (string * string) :=
  match parsed with
  | Some u => if String.eqb (Scheme u) "" || String.eqb (Host u) "" then None else Some (Scheme u, Host u)
  | None => None
  end.
Definition redactedURLOriginFromRaw (raw : string) : option (string * string) := redactedURLOrigin (url_Parse raw).

Fixpoint validate_loop (links : list string) (policy : NetworkPolicy) : option LinksErr :=
  match links with
  | [] => None
  | link :: links =>
      match ValidateURL policy link with
      | Some err => Some (BadLink (redactedURLOriginFromRaw link) err)
      | None => validate_loop links policy
      end
  end.
Definition ValidateLinks (links : list string) (policy : NetworkPolicy) : option LinksErr :=
  match links with [] => Some NoLinks | _ => validate_loop links policy end.

(** [int(d.Seconds())]. *)
Definition int_seconds (d : Z) : Z := float64_trunc (Seconds d).

Definition seed_input (cfg : Config) (link : string) : MonitorInput :=
  {| in_URL := link; in_IntervalSeconds := int_seconds (cfg_CheckInterval cfg);
     in_TimeoutSeconds := int_seconds (cfg_HTTPTimeout cfg);
     in_ExpectedStatus := PreferredStatus (cfg_ExpectedStatus cfg); in_Enabled := None |}.

(** On the in-memory repository: the clock and the random source of each
    [Create] come with its link. *)
Fixpoint SeedRepository (s : MonitorStore) (links : list (string * Time * Entropy)) (cfg : Config)
  : MonitorStore * option GoError :=
  match links with
  | [] => (s, None)
  | (link, clk, rnd) :: links =>
      match Create s (seed_input cfg link) clk rnd with
      | (s, Ok _) | (s, Err ErrMonitorExists) => SeedRepository s links cfg
      | (s, Err err) => (s, Some err)
      end
  end.
End seed.

(** ** What is loaded *)

Lemma elem_of_normalize_loop links seen x :
  x ∈ normalize_loop links seen ↔ x ≠ "" ∧ x ∉ seen ∧ ∃ link, link ∈ links ∧ x = TrimSpace link.
Proof.
  revert seen. induction links as [|link links IH]; intros seen; cbn [normalize_loop].
  - split; [by intros ?%not_elem_of_nil|]. by intros (_ & _ & ? & ?%not_elem_of_nil & _).
  - destruct (String.eqb_spec (TrimSpace link) "") as [He|Hne]; [|case_decide as Hin].
    + rewrite IH. split; intros (H1 & H2 & y & Hy & ->); (split; [done|split; [done|]]).
      * exists y. split; [by right|done].
      * apply elem_of_cons in Hy as [->|Hy]; [congruence|by exists y].
    + rewrite IH. split; intros (H1 & H2 & y & Hy & ->); (split; [done|split; [done|]]).
      * exists y. split; [by right|done].
      * apply elem_of_cons in Hy as [->|Hy]; [done|by exists y].
    + rewrite elem_of_cons, IH, elem_of_union, elem_of_singleton. split.
      * intros [->|(H1 & H2 & y & Hy & ->)].
        { split; [done|]. split; [done|]. exists link. split; [by left|done]. }
        split; [done|]. split; [tauto|]. exists y. split; [by right|done].
      * intros (H1 & H2 & y & Hy & ->). destruct (decide (TrimSpace y = TrimSpace link)) as [->|Hd]; [by left|right].
        split; [done|]. split; [tauto|]. apply elem_of_cons in Hy as [->|Hy]; [done|by exists y].
Qed.

Lemma NoDup_normalize_loop links seen : NoDup (normalize_loop links seen).
Proof.
  revert seen. induction links as [|link links IH]; intros seen; cbn [normalize_loop]; [constructor|].
  destruct (String.eqb _ ""); [done|]. case_decide; [done|]. constructor; [|done].
  rewrite elem_of_normalize_loop. set_solver.
Qed.

(** The links that are loaded are, sorted and each once, exactly the
    non-empty trimmed links of the input; loading fails only when there are
    none. *)
Lemma normalizeLinks_spec links :
  match normalizeLinks links with
  | Ok l => StronglySorted (cmp_le compareString) l ∧ NoDup l ∧ l ≠ []
            ∧ (∀ x, x ∈ l ↔ x ≠ "" ∧ ∃ link, link ∈ links ∧ x = TrimSpace link)
  | Err e => e = NoLinks ∧ ∀ link, link ∈ links → TrimSpace link = ""
  end.
Proof.
  unfold normalizeLinks. pose proof (elem_of_normalize_loop links ∅) as Hin. pose proof (NoDup_normalize_loop links ∅) as Hnd.
  destruct (normalize_loop links ∅) as [|x l] eqn:Hl.
  - split; [done|]. intros link Hlink. destruct (decide (TrimSpace link = "")) as [|Hne]; [done|].
    exfalso. apply (not_elem_of_nil (TrimSpace link)), Hin. split; [done|]. split; [set_solver|]. by exists link.
  - rewrite <- Hl in *. split; [apply (SortFunc_sorted compareString)|]. split; [by rewrite SortFunc_Permutation|].
    split; [intros He; apply (f_equal length) in He; rewrite length_SortFunc, Hl in He; done|].
    intros y. rewrite elem_of_SortFunc, Hin. set_solver.
Qed.

(** The built-in list has no duplicates: all of it is seeded. *)
Lemma DefaultLinks_distinct : NoDup DefaultLinks ∧ Forall (λ l, TrimSpace l = l ∧ l ≠ "") DefaultLinks.
Proof.
  split; [apply (bool_decide_unpack _); vm_compute; reflexivity|].
  apply Forall_forall. intros l Hl. assert (forallb (λ l, String.eqb (TrimSpace l) l && negb (String.eqb l "")) DefaultLinks = true) as H
    by (vm_compute; reflexivity).
  rewrite forallb_forall in H. apply list_elem_of_In in Hl. specialize (H _ Hl).
  apply andb_true_iff in H as [?%String.eqb_eq ?%negb_true_iff%String.eqb_neq]. done.
Qed.

(** ** What is seeded *)

Lemma int_seconds_whole n : 0 <= n <= 86400 → int_seconds (n * Second) = n.
Proof. intros Hn. apply Seconds_whole. lia. Qed.

Lemma preferred_range text p : ParseStatusPolicy text = Ok p → 100 <= PreferredStatus p <= 599.
Proof.
  unfold ParseStatusPolicy, PreferredStatus. destruct (String.eqb _ _); [done|].
  destruct (parse_parts _) as [rs|] eqn:Hp; [|done]. intros [= <-]. cbn.
  apply parse_parts_ok in Hp as [_ Hf]. destruct rs as [|r rs]; [lia|].
  apply Forall_cons in Hf as [(H1 & H2 & H3) _]. lia.
Qed.

Section seeding.
Context `{EN : !Environment, UN : !Unicode, UP : !URLParser, UQ : !URLQuery}.

(** With an accepted configuration only the link itself can be refused. *)
Definition link_refused (why : InvalidReason) : Prop :=
  match why with IntervalRange | TimeoutRange | Domain.StatusRange => False | _ => True end.

Lemma seed_input_valid cfg link p why :
  LoadConfig = Ok cfg → cfg_CheckInterval cfg mod Second = 0 → cfg_HTTPTimeout cfg mod Second = 0 →
  validateMonitorInput (seed_input cfg link) p = Some (ErrInvalidMonitor why) → link_refused why.
Proof.
  intros (Hv & _)%LoadConfig_iff Hi Ht. apply seed_limits in Hv as (Hci & Hto & text & Hst%preferred_range).
  apply Z.div_exact in Hi, Ht; [|done..]. unfold validateMonitorInput, seed_input. cbn [in_URL in_IntervalSeconds in_TimeoutSeconds in_ExpectedStatus].
  rewrite Hi, Ht, !(Z.mul_comm Second). unfold Second, Minute, Hour in *.
  rewrite !int_seconds_whole by (split; [apply Z.div_pos|apply Z.div_le_upper_bound]; lia).
  assert (30 <= cfg_CheckInterval cfg / 1000000000 <= 86400) as H1.
  { split; [apply Z.div_le_lower_bound|apply Z.div_le_upper_bound]; lia. }
  assert (1 <= cfg_HTTPTimeout cfg / 1000000000 <= 60) as H2.
  { split; [apply Z.div_le_lower_bound|apply Z.div_le_upper_bound]; lia. }
  destruct (String.eqb _ _); [by intros [= <-]|]. destruct (_ <? RuneCountInString _); [by intros [= <-]|].
  destruct (url_ParseRequestURI _); [|by intros [= <-]]. destruct (ValidateURL _ _); [by intros [= <-]|].
  unfold minMonitorTimeoutSeconds, maxMonitorTimeoutSeconds.
  repeat match goal with |- context [?a <? ?b] => destruct (Z.ltb_spec a b) end; try lia; done.
Qed.

(** Drawn identifiers are not in use. *)
Fixpoint seeds_fresh (s : MonitorStore) (links : list (string * Time * Entropy)) (cfg : Config) : Prop :=
  match links with
  | [] => True
  | (link, clk, rnd) :: links =>
      byID s !! newMonitorID rnd = None ∧ seeds_fresh (Create s (seed_input cfg link) clk rnd).1 links cfg
  end.

(** One [Create] of the loop. *)
Lemma Create_keeps s input clk rnd id m :
  store_wf s → byID s !! newMonitorID rnd = None → byID s !! id = Some m → byID (Create s input clk rnd).1 !! id = Some m.
Proof.
  intros Hwf Hf Hm. unfold Create. destruct (validateMonitorInput _ _); [done|].
  destruct (byURL s !! _); [done|]. cbn. rewrite lookup_insert_ne; [done|congruence].
Qed.

Definition configured (cfg : Config) (m : Monitor) : Prop :=
  mon_IntervalSeconds m = int_seconds (cfg_CheckInterval cfg) ∧ mon_TimeoutSeconds m = int_seconds (cfg_HTTPTimeout cfg)
  ∧ mon_ExpectedStatus m = PreferredStatus (cfg_ExpectedStatus cfg) ∧ mon_Enabled m = true.

Lemma Create_seed s cfg link clk rnd s' r :
  store_wf s → Create s (seed_input cfg link) clk rnd = (s', r) → (∃ m, r = Ok m) ∨ r = Err ErrMonitorExists →
  ∃ id m, byURL s' !! link = Some id ∧ byID s' !! id = Some m ∧ mon_URL m = link
  ∧ (byURL s !! link = None → configured cfg m) ∧ (∀ id, byURL s !! link = Some id → s' = s).
Proof.
  intros Hwf. unfold Create. destruct (validateMonitorInput _ _) as [e|] eqn:Hv.
  { intros [= <- <-] [[m [=]]|[= ->]]. exfalso. revert Hv. unfold validateMonitorInput.
    repeat first [destruct (String.eqb _ _) | destruct (_ <? RuneCountInString _) | destruct (url_ParseRequestURI _)
                 | destruct (ValidateURL _ _) | destruct (_ || _)]; done. }
  cbn [mon_URL seed_input in_URL in_IntervalSeconds in_TimeoutSeconds in_ExpectedStatus in_Enabled mon_ID default].
  destruct (byURL s !! link) as [id|] eqn:Hu; intros [= <- <-] _.
  - destruct (sw_url _ Hwf _ _ Hu) as (m & Hm & Hurl). exists id, m. by repeat split.
  - eexists _, _. cbn. rewrite !lookup_insert_eq. split; [done|]. split; [done|]. by repeat split.
Qed.

Lemma Create_result s input clk rnd s' r :
  Create s input clk rnd = (s', r) →
  (∃ m, r = Ok m) ∨ r = Err ErrMonitorExists ∨ ∃ why, r = Err (ErrInvalidMonitor why) ∧ s' = s
    ∧ validateMonitorInput input (policy s) = Some (ErrInvalidMonitor why).
Proof.
  unfold Create. destruct (validateMonitorInput input (policy s)) as [e|] eqn:Hv.
  - intros [= <- <-]. right. right. revert Hv. unfold validateMonitorInput.
    repeat first [destruct (String.eqb _ _) | destruct (_ <? RuneCountInString _) | destruct (url_ParseRequestURI _)
                 | destruct (ValidateURL _ _) | destruct (_ || _)]; intros [= <-]; by eexists.
  - destruct (byURL s !! _); intros [= <- <-]; [right; by left|]. left. by eexists.
Qed.

Lemma Create_urls s input clk rnd x : x ≠ in_URL input → byURL (Create s input clk rnd).1 !! x = byURL s !! x.
Proof.
  intros Hx. unfold Create. destruct (validateMonitorInput _ _); [done|]. cbn [mon_URL].
  destruct (byURL s !! in_URL input); [done|]. cbn. by rewrite lookup_insert_ne.
Qed.

(** The link has a monitor after [s']; a configured one if it had none in [s]. *)
Definition seeded (cfg : Config) (s s' : MonitorStore) (link : string) : Prop :=
  ∃ id m, byURL s' !! link = Some id ∧ byID s' !! id = Some m ∧ mon_URL m = link ∧ (byURL s !! link = None → configured cfg m).
Definition keeps_monitors (s s' : MonitorStore) : Prop := ∀ id m, byID s !! id = Some m → byID s' !! id = Some m.

Lemma seeded_kept cfg s s1 s' link : seeded cfg s s1 link → store_wf s' → keeps_monitors s1 s' → seeded cfg s s' link.
Proof.
  intros (id & m & _ & Hm & Hurl & Hc) Hwf Hk. apply Hk in Hm. exists id, m. split; [|done]. rewrite <- Hurl. by apply (sw_monitor _ Hwf).
Qed.

(** C27: Seeding an in-memory repository with an accepted configuration (whole
    seconds) fails only for a link that is itself refused, never for the
    configured interval, timeout or status.  When it succeeds every link has
    exactly one monitor, a new one has the configured settings and is enabled,
    and monitors that were there are untouched: seeding again after a restart is
    harmless. *)
Theorem seeds_created cfg s links :
  LoadConfig = Ok cfg → cfg_CheckInterval cfg mod Second = 0 → cfg_HTTPTimeout cfg mod Second = 0 →
  store_wf s → seeds_fresh s links cfg →
  let '(s', err) := SeedRepository s links cfg in
  store_wf s' ∧ keeps_monitors s s'
  ∧ match err with
    | Some e => ∃ why, e = ErrInvalidMonitor why ∧ link_refused why
    | None => ∀ link clk rnd, (link, clk, rnd) ∈ links → seeded cfg s s' link
    end.
Proof.
  intros Hcfg Hi Ht. revert s. induction links as [|[[link clk] rnd] links IH]; intros s Hwf Hfresh; cbn [SeedRepository].
  { split; [done|]. split; [by intros ? ?|]. by intros ? ? ? ?%not_elem_of_nil. }
  destruct Hfresh as [Hf Hfresh].
  pose proof (Create_wf s (seed_input cfg link) clk rnd Hwf Hf) as Hwf1.
  pose proof (λ id m, Create_keeps s (seed_input cfg link) clk rnd id m Hwf Hf) as Hk.
  pose proof (Create_urls s (seed_input cfg link) clk rnd) as Hu.
  destruct (Create s (seed_input cfg link) clk rnd) as [s1 r] eqn:Hc. cbn [fst] in *. specialize (IH s1 Hwf1 Hfresh).
  assert ((∃ m, r = Ok m) ∨ r = Err ErrMonitorExists →
    let '(s', err) := SeedRepository s1 links cfg in
    store_wf s' ∧ keeps_monitors s s'
    ∧ match err with
      | Some e => ∃ why, e = ErrInvalidMonitor why ∧ link_refused why
      | None => ∀ x clk' rnd', (x, clk', rnd') ∈ (link, clk, rnd) :: links → seeded cfg s s' x
      end) as Hrest.
  { intros Hr. destruct (Create_seed _ _ _ _ _ _ _ Hwf Hc Hr) as (id & m & H1 & H2 & H3 & H4 & _).
    destruct (SeedRepository s1 links cfg) as [s' [e|]]; destruct IH as (Hwf' & Hk' & IH);
      (split; [done|]); (split; [by intros i x Hx%Hk%Hk'|]); [done|].
    assert (seeded cfg s s' link) as Hhead by (eapply seeded_kept; [by exists id, m|done|done]).
    intros x clk' rnd' [[= -> -> ->]|Hx]%elem_of_cons; [done|].
    destruct (decide (x = link)) as [->|Hne]; [done|]. destruct (IH _ _ _ Hx) as (id' & m' & G1 & G2 & G3 & G4).
    exists id', m'. split; [done|]. split; [done|]. split; [done|]. intros Hn. apply G4. by rewrite Hu. }
  destruct (Create_result _ _ _ _ _ _ Hc) as [[m ->]|[->|(why & -> & -> & Hv)]]; [apply Hrest; left; by eexists|apply Hrest; by right|].
  split; [done|]. split; [done|]. exists why. split; [done|]. by eapply seed_input_valid.
Qed.
End seeding.

(** One link, into an empty store. *)
Definition sample_seeds : list (string * Time * Entropy) :=
  [("https://a.example/health", sample_now, sample_rnd 1)].

Lemma seeds_created_witness :
  ∃ cfg, LoadConfig = Ok cfg
  ∧ (SeedRepository (NewMonitorStore default_policy) sample_seeds cfg).2 = None
  ∧ seeded cfg (NewMonitorStore default_policy) (SeedRepository (NewMonitorStore default_policy) sample_seeds cfg).1 "https://a.example/health".
Proof.
  assert (match LoadConfig with
          | Ok cfg => (cfg_CheckInterval cfg mod Second =? 0) && (cfg_HTTPTimeout cfg mod Second =? 0)
                      && match (SeedRepository (NewMonitorStore default_policy) sample_seeds cfg).2 with None => true | Some _ => false end
          | Err _ => false end = true) as H by (vm_compute; reflexivity).
  destruct LoadConfig as [cfg|e] eqn:Hc; [|discriminate].
  apply andb_true_iff in H as [[H1%Z.eqb_eq H2%Z.eqb_eq]%andb_true_iff H3].
  pose proof (seeds_created cfg (NewMonitorStore default_policy) sample_seeds Hc H1 H2 (NewMonitorStore_wf _)) as H.
  exists cfg. split; [reflexivity|]. destruct (SeedRepository _ _ _) as [s' [e|]]; [discriminate|].
  split; [reflexivity|]. destruct H as (_ & _ & H); [by split|]. apply (H _ sample_now (sample_rnd 1)). by left.
Defined.
