(* ===== verification/Metrics.v ===== *)
(** * Counters and per-monitor gauges (metrics.go)

    [Metrics] keeps process-wide counters and, when the process runs every
    role, the last state of at most ten thousand monitors, oldest tracked first
    out.  Each method holds the mutex throughout.  [Prometheus] renders the
    state; the text of a float64 is a parameter. *)

From stdpp Require Import base list gmap strings.
From Stdlib Require Import ZArith Lia Ascii.
From Corelib Require Import SpecFloat.
From S2P Require Import Prelude GoNum GoStrings NetworkPolicy Egress Domain History Checker.
#[local] Open Scope string_scope.
#[local] Open Scope list_scope.
#[local] Open Scope Z_scope.

Definition maxTrackedMetricMonitors : Z := 10000.

Record Metrics := mkMetrics {
  monitorStateEnabled : bool; startedAt : Time; version : string; commit : string; buildDate : string;
  totalLinks : Z; checksTotal : Z; healthyTotal : Z; unhealthyTotal : Z; checkErrorsTotal : Z;
  jobsScheduledTotal : Z; jobsSkippedTotal : Z; infraRequeuesTotal : Z; alertsDeliveredTotal : Z;
  alertFailuresTotal : Z; alertsDeadTotal : Z; durationSumSeconds : spec_float; durationCount : Z;
  lastCheckAt : Time; lastSuccessAt : Time;
  statusByMonitor : gmap string Z; upByMonitor : gmap string bool; consecutiveFailures : gmap string Z;
  dependencyUp : gmap string bool;
  trackedMonitors : gset string; trackedMonitorOrder : list string; trackedMonitorHead : nat;
}.
#[export] Instance eta_Metrics : Eta Metrics := λ m,
  mkMetrics (monitorStateEnabled m) (startedAt m) (version m) (commit m) (buildDate m) (totalLinks m)
    (checksTotal m) (healthyTotal m) (unhealthyTotal m) (checkErrorsTotal m) (jobsScheduledTotal m)
    (jobsSkippedTotal m) (infraRequeuesTotal m) (alertsDeliveredTotal m) (alertFailuresTotal m)
    (alertsDeadTotal m) (durationSumSeconds m) (durationCount m) (lastCheckAt m) (lastSuccessAt m)
    (statusByMonitor m) (upByMonitor m) (consecutiveFailures m) (dependencyUp m) (trackedMonitors m)
    (trackedMonitorOrder m) (trackedMonitorHead m).

(** A negative capacity of the order slice panics. *)
Definition newMetrics (version commit buildDate : string) (totalLinks : Z) (monitorStateEnabled : bool) (clk : Time)
  : option Metrics :=
  if totalLinks <? 0 then None
  else Some (mkMetrics monitorStateEnabled clk version commit buildDate totalLinks 0 0 0 0 0 0 0 0 0 0
               (S754_zero false) 0 time_zero time_zero ∅ ∅ ∅ ∅ ∅ [] 0).

Definition NewMetricsForRole (version commit buildDate : string) (totalLinks : Z) (appRole : string) (clk : Time)
  : option Metrics :=
  newMetrics version commit buildDate totalLinks (String.eqb appRole "all") clk.

(** ** Counters *)

Definition incr (n : Z) : Z := wrapu64 (n + 1).

Definition SetTotalLinks (m : Metrics) (n : Z) : Metrics := m <| totalLinks := n |>.
Definition AdjustTotalLinks (m : Metrics) (delta : Z) : Metrics :=
  m <| totalLinks := Z.max (wrap64 (totalLinks m + delta)) 0 |>.
Definition RecordScheduled (m : Metrics) : Metrics := m <| jobsScheduledTotal := incr (jobsScheduledTotal m) |>.
Definition RecordSkipped (m : Metrics) : Metrics := m <| jobsSkippedTotal := incr (jobsSkippedTotal m) |>.
Definition RecordInfrastructureRequeue (m : Metrics) : Metrics :=
  m <| infraRequeuesTotal := incr (infraRequeuesTotal m) |>.
Definition RecordAlertDelivered (m : Metrics) : Metrics := m <| alertsDeliveredTotal := incr (alertsDeliveredTotal m) |>.
Definition RecordAlertFailure (m : Metrics) (dead : bool) : Metrics :=
  let m := m <| alertFailuresTotal := incr (alertFailuresTotal m) |> in
  if dead then m <| alertsDeadTotal := incr (alertsDeadTotal m) |> else m.
Definition SetDependencyUp (m : Metrics) (name : string) (up : bool) : Metrics :=
  m <| dependencyUp := <[name := up]> (dependencyUp m) |>.

(** ** Tracked monitors *)

Definition forget_gauges (m : Metrics) (monitorID : string) : Metrics :=
  m <| statusByMonitor := delete monitorID (statusByMonitor m) |>
    <| upByMonitor := delete monitorID (upByMonitor m) |>
    <| consecutiveFailures := delete monitorID (consecutiveFailures m) |>.

(** The loop with its [copy]: the first occurrence is closed up. *)
Fixpoint remove_first (id : string) (l : list string) : list string :=
  match l with
  | [] => []
  | x :: rest => if String.eqb x id then rest else x :: remove_first id rest
  end.

Definition RemoveMonitor (m : Metrics) (monitorID : string) : Metrics :=
  if String.eqb monitorID "" then m
  else if negb (monitorStateEnabled m) then m
  else
    let m := forget_gauges m monitorID in
    if decide (monitorID ∈ trackedMonitors m) then
      m <| trackedMonitors := trackedMonitors m ∖ {[monitorID]} |>
        <| trackedMonitorOrder := take (trackedMonitorHead m) (trackedMonitorOrder m)
             ++ remove_first monitorID (drop (trackedMonitorHead m) (trackedMonitorOrder m)) |>
    else m.

(** The eviction loop over the entries from the head on; [None]: the loop
    indexes past the end of the slice. *)
Fixpoint evict_tracked (pending : list string) (m : Metrics) : option Metrics :=
  if maxTrackedMetricMonitors <? Z.of_nat (size (trackedMonitors m)) then
    match pending with
    | oldest :: rest =>
        evict_tracked rest
          (forget_gauges (m <| trackedMonitorHead := S (trackedMonitorHead m) |>
                            <| trackedMonitors := trackedMonitors m ∖ {[oldest]} |>) oldest)
    | [] => None
    end
  else Some m.

Definition trackMonitorLocked (m : Metrics) (monitorID : string) : option Metrics :=
  if decide (monitorID ∈ trackedMonitors m) then Some m
  else
    let m := m <| trackedMonitors := {[monitorID]} ∪ trackedMonitors m |>
               <| trackedMonitorOrder := trackedMonitorOrder m ++ [monitorID] |> in
    match evict_tracked (drop (trackedMonitorHead m) (trackedMonitorOrder m)) m with
    | None => None
    | Some m =>
        let '(order, head) := compact maxTrackedMetricMonitors (trackedMonitorOrder m) (trackedMonitorHead m) in
        Some (m <| trackedMonitorOrder := order |> <| trackedMonitorHead := head |>)
    end.

Definition RecordResult (m : Metrics) (result : CheckResult) (recordedAt clk : Time) : option Metrics :=
  let recordedAt := if IsZero recordedAt then UTC clk else recordedAt in
  let m := m <| checksTotal := incr (checksTotal m) |> <| lastCheckAt := UTC recordedAt |>
             <| durationSumSeconds := float64_add (durationSumSeconds m) (Seconds (cr_Duration result)) |>
             <| durationCount := incr (durationCount m) |> in
  let id := cr_MonitorID result in
  let gauged := monitorStateEnabled m && negb (String.eqb id "") in
  let tracked :=
    if gauged then
      match trackMonitorLocked m id with
      | None => None
      | Some m => Some (m <| statusByMonitor := <[id := cr_StatusCode result]> (statusByMonitor m) |>
                          <| upByMonitor := <[id := cr_Healthy result]> (upByMonitor m) |>)
      end
    else Some m in
  match tracked with
  | None => None
  | Some m =>
      if cr_Healthy result then
        let m := m <| healthyTotal := incr (healthyTotal m) |> <| lastSuccessAt := UTC recordedAt |> in
        Some (if gauged then m <| consecutiveFailures := <[id := 0]> (consecutiveFailures m) |> else m)
      else
        let m := m <| unhealthyTotal := incr (unhealthyTotal m) |> in
        let m := if gauged
                 then m <| consecutiveFailures :=
                        <[id := wrap64 (default 0 (consecutiveFailures m !! id) + 1)]> (consecutiveFailures m) |>
                 else m in
        Some (if String.eqb (cr_Error result) "" then m
              else m <| checkErrorsTotal := incr (checkErrorsTotal m) |>)
  end.

(** ** Invariant *)

Record gauges_ok (enabled : bool) (tracked : gset string) (order : list string) (head : nat)
    (status : gmap string Z) (up : gmap string bool) (failures : gmap string Z) : Prop := {
  gw_tracked : processed_wf maxTrackedMetricMonitors tracked order head;
  gw_status : dom status = tracked;
  gw_up : dom up = tracked;
  gw_failures : dom failures = tracked;
  gw_healthy id : up !! id = Some true → failures !! id = Some 0;
  gw_disabled : enabled = false → tracked = ∅;
  gw_named : "" ∉ tracked;
}.
Definition gauges_wf (m : Metrics) : Prop :=
  gauges_ok (monitorStateEnabled m) (trackedMonitors m) (trackedMonitorOrder m) (trackedMonitorHead m)
    (statusByMonitor m) (upByMonitor m) (consecutiveFailures m).
Definition counters_wf (m : Metrics) : Prop :=
  checksTotal m = wrapu64 (healthyTotal m + unhealthyTotal m) ∧ durationCount m = checksTotal m.
Definition metrics_wf (m : Metrics) : Prop := gauges_wf m ∧ counters_wf m.

(** Deleting several keys. *)
Definition drop_keys {V} (ids : list string) (m : gmap string V) : gmap string V := foldl (λ m id, delete id m) m ids.

Lemma drop_keys_lookup {V} ids (m : gmap string V) k :
  drop_keys ids m !! k = if decide (k ∈ ids) then None else m !! k.
Proof.
  revert m. induction ids as [|id ids IH]; intros m; [done|]. cbn. fold (drop_keys ids (delete id m)). rewrite IH.
  destruct (decide (k ∈ ids)) as [Hk|Hk]; [by rewrite decide_True by (by right)|].
  destruct (decide (k = id)) as [->|Hne].
  - rewrite decide_True by left. apply lookup_delete_eq.
  - rewrite decide_False by (intros [->|]%elem_of_cons; done). by apply lookup_delete_ne.
Qed.

Lemma dom_drop_keys {V} ids (m : gmap string V) : dom (drop_keys ids m) = dom m ∖ list_to_set ids.
Proof.
  apply set_eq. intros k. rewrite elem_of_difference, elem_of_list_to_set, !elem_of_dom, drop_keys_lookup.
  destruct (decide (k ∈ ids)); split; [by intros [? ?]|tauto|tauto|tauto].
Qed.

Definition drop_gauges (ids : list string) (m : Metrics) : Metrics :=
  m <| statusByMonitor := drop_keys ids (statusByMonitor m) |>
    <| upByMonitor := drop_keys ids (upByMonitor m) |>
    <| consecutiveFailures := drop_keys ids (consecutiveFailures m) |>.

(** The eviction loop is the one over the set, and drops the gauges of what it
    evicts. *)
Lemma evict_tracked_spec pending m tracked head :
  evict_processed maxTrackedMetricMonitors pending (trackedMonitors m) (trackedMonitorHead m) = Some (tracked, head) →
  ∃ gone, tracked = trackedMonitors m ∖ list_to_set gone
  ∧ evict_tracked pending m
    = Some (drop_gauges gone (m <| trackedMonitors := tracked |> <| trackedMonitorHead := head |>)).
Proof.
  revert m. induction pending as [|oldest rest IH]; intros m; cbn [evict_processed evict_tracked];
    destruct (_ <? _) eqn:Hlt; try done.
  - intros [= <- <-]. exists []. destruct m. cbn -[difference union]. split; [set_solver|done].
  - intros Hev. specialize (IH (forget_gauges (m <| trackedMonitorHead := S (trackedMonitorHead m) |>
      <| trackedMonitors := trackedMonitors m ∖ {[oldest]} |>) oldest)).
    destruct (IH Hev) as (gone & -> & ->). exists (oldest :: gone). destruct m. cbn -[difference union].
    split; [|done]. set_solver.
  - intros [= <- <-]. exists []. destruct m. cbn -[difference union]. split; [set_solver|done].
Qed.

(** Tracking a monitor: it is tracked afterwards, and whatever is no longer
    tracked has lost its gauges. *)
Lemma trackMonitor_spec m id :
  gauges_wf m → ∃ gone tracked order head,
  trackMonitorLocked m id = Some (drop_gauges gone (m <| trackedMonitors := tracked |>
    <| trackedMonitorOrder := order |> <| trackedMonitorHead := head |>))
  ∧ processed_wf maxTrackedMetricMonitors tracked order head
  ∧ id ∈ tracked ∧ tracked = ({[id]} ∪ trackedMonitors m) ∖ list_to_set gone.
Proof.
  intros Hm. unfold trackMonitorLocked. destruct (decide _) as [Hin|Hnew].
  { exists [], (trackedMonitors m), (trackedMonitorOrder m), (trackedMonitorHead m). destruct m. cbn -[union difference] in *.
    split; [done|]. split; [apply Hm|]. set_solver. }
  destruct (processed_remember maxTrackedMetricMonitors (trackedMonitors m) (trackedMonitorOrder m) (trackedMonitorHead m) id)
    as (tracked & h & order & h' & Hev & Hco & Hwf & Hin & _); [done|apply Hm|done|].
  cbn zeta. set (m1 := m <| trackedMonitors := _ |> <| trackedMonitorOrder := _ |>).
  destruct (evict_tracked_spec (drop (trackedMonitorHead m1) (trackedMonitorOrder m1)) m1 tracked h Hev) as (gone & Ht & ->).
  destruct m. cbn -[union difference compact] in *. rewrite Hco. exists gone, tracked, order, h'. done.
Qed.

Lemma wrapu64_idem a b : wrapu64 (wrapu64 a + b) = wrapu64 (a + b).
Proof. unfold wrapu64, two64. by rewrite Zplus_mod_idemp_l. Qed.
Lemma wrapu64_idem_r a b : wrapu64 (a + wrapu64 b) = wrapu64 (a + b).
Proof. unfold wrapu64, two64. by rewrite Zplus_mod_idemp_r. Qed.

Lemma tracked_gauges_ok tracked0 order0 head0 status up failures gone tracked order head id code healthy n :
  gauges_ok true tracked0 order0 head0 status up failures → id ≠ "" →
  processed_wf maxTrackedMetricMonitors tracked order head → id ∈ tracked →
  tracked = ({[id]} ∪ tracked0) ∖ list_to_set gone → (healthy = true → n = 0) →
  gauges_ok true tracked order head (<[id := code]> (drop_keys gone status)) (<[id := healthy]> (drop_keys gone up))
    (<[id := n]> (drop_keys gone failures)).
Proof.
  intros [Ht Hs Hu Hf Hh Hd Hn] Hid Hwf Hin Hset Hz.
  assert (∀ X : gset string, X = tracked0 → {[id]} ∪ X ∖ list_to_set gone = tracked) as Hdom.
  { intros X ->. apply set_eq. intros k. rewrite Hset in *. rewrite elem_of_difference, elem_of_union, elem_of_singleton in Hin.
    rewrite elem_of_union, !elem_of_difference, elem_of_union, elem_of_singleton. destruct (decide (k = id)) as [->|]; tauto. }
  split; [done|by rewrite dom_insert_L, dom_drop_keys; apply Hdom..| |done|rewrite Hset; set_solver].
  intros k [[-> Hup]|[Hne Hk]]%lookup_insert_Some; [by rewrite lookup_insert_eq, Hz|].
  rewrite lookup_insert_ne by done. revert Hk. rewrite !drop_keys_lookup.
  destruct (decide _); [done|]. intros Hk. by apply Hh.
Qed.

(** Recording a result never panics and keeps the invariant; a gauged monitor
    shows the result. *)
Lemma RecordResult_spec m result recordedAt clk :
  metrics_wf m → ∃ m', RecordResult m result recordedAt clk = Some m' ∧ metrics_wf m'
  ∧ monitorStateEnabled m' = monitorStateEnabled m
  ∧ (monitorStateEnabled m = true → cr_MonitorID result ≠ "" →
     upByMonitor m' !! cr_MonitorID result = Some (cr_Healthy result)
     ∧ statusByMonitor m' !! cr_MonitorID result = Some (cr_StatusCode result)).
Proof.
  intros [Hg [Hc Hd]]. unfold RecordResult. set (at_ := if IsZero recordedAt then _ else _). cbn zeta.
  set (m1 := m <| checksTotal := _ |> <| lastCheckAt := _ |> <| durationSumSeconds := _ |> <| durationCount := _ |>).
  set (id := cr_MonitorID result). assert (gauges_wf m1) as Hg1 by exact Hg.
  assert (checksTotal m1 = wrapu64 (wrapu64 (healthyTotal m1 + unhealthyTotal m1) + 1) ∧ durationCount m1 = checksTotal m1) as [Hc1 Hd1].
  { unfold m1. destruct m. cbn in *. by rewrite Hd, <- Hc. }
  assert (monitorStateEnabled m = monitorStateEnabled m1) as -> by (unfold m1; by destruct m).
  clearbody m1. clear Hg Hc Hd m. destruct (monitorStateEnabled m1 && negb (String.eqb id "")) eqn:Hgauged.
  - apply andb_true_iff in Hgauged as [Hen Hid]. apply negb_true_iff, String.eqb_neq in Hid.
    destruct (trackMonitor_spec m1 id Hg1) as (gone & tracked & order & head & -> & Hwf & Hin & Hset).
    destruct m1. unfold gauges_wf in Hg1. cbn -[union difference] in *. subst.
    pose proof (λ code healthy n, tracked_gauges_ok _ _ _ _ _ _ gone _ order head id code healthy n Hg1 Hid Hwf Hin eq_refl) as Hok.
    destruct (cr_Healthy result); [|destruct (String.eqb (cr_Error result) "")]; eexists; (split; [reflexivity|]);
      unfold metrics_wf, gauges_wf, counters_wf, incr; cbn -[union difference];
      rewrite ?wrapu64_idem, ?wrapu64_idem_r; (split; [split; [by apply Hok|split; [f_equal; lia|done]]|]);
      (split; [done|]); intros _ _; by rewrite !lookup_insert_eq.
  - assert (monitorStateEnabled m1 = true → id ≠ "" → False) as Hno.
    { intros Hen Hid. rewrite Hen in Hgauged. apply String.eqb_neq in Hid. by rewrite Hid in Hgauged. }
    destruct m1. unfold gauges_wf in Hg1. cbn -[union difference] in *. subst.
    destruct (cr_Healthy result); [|destruct (String.eqb (cr_Error result) "")]; eexists; (split; [reflexivity|]);
      unfold metrics_wf, gauges_wf, counters_wf, incr; cbn -[union difference];
      rewrite ?wrapu64_idem, ?wrapu64_idem_r; (split; [split; [done|split; [f_equal; lia|done]]|]);
      (split; [done|]); intros Hen Hid; by destruct (Hno Hen Hid).
Qed.

Lemma remove_first_spec id l :
  NoDup l → id ∈ l →
  NoDup (remove_first id l) ∧ (∀ x, x ∈ remove_first id l ↔ x ∈ l ∧ x ≠ id) ∧ S (length (remove_first id l)) = length l.
Proof.
  induction l as [|x l IH]; intros Hnd Hin; [by apply not_elem_of_nil in Hin|].
  apply NoDup_cons in Hnd as [Hx Hnd]. cbn. destruct (String.eqb_spec x id) as [->|Hne].
  - split; [done|]. split; [|done]. intros y. rewrite elem_of_cons. split; [|naive_solver].
    intros Hy. split; [by right|]. by intros ->.
  - apply elem_of_cons in Hin as [->|Hin]; [done|]. destruct (IH Hnd Hin) as (Hnd' & Hmem & Hlen).
    split; [|split].
    + apply NoDup_cons. split; [|done]. by intros [? _]%Hmem.
    + intros y. rewrite !elem_of_cons, Hmem. naive_solver.
    + cbn. lia.
Qed.

Lemma RemoveMonitor_spec m id :
  metrics_wf m → metrics_wf (RemoveMonitor m id) ∧ monitorStateEnabled (RemoveMonitor m id) = monitorStateEnabled m
  ∧ id ∉ trackedMonitors (RemoveMonitor m id).
Proof.
  intros [Hg Hc]. unfold RemoveMonitor. destruct (String.eqb_spec id "") as [->|Hid].
  { split; [done|]. split; [done|]. apply Hg. }
  destruct (monitorStateEnabled m) eqn:Hen; cbn [negb]; cycle 1.
  { split; [done|]. split; [done|]. rewrite (gw_disabled _ _ _ _ _ _ _ Hg Hen). apply not_elem_of_empty. }
  cbn zeta. change (trackedMonitors (forget_gauges m id)) with (trackedMonitors m).
  destruct m. unfold metrics_wf, gauges_wf in *. cbn -[difference union] in *. subst.
  destruct Hg as [(Hnd & Hset & Hw1 & Hw2 & Hw3) Hs Hu Hf Hh Hd Hn].
  destruct (decide _) as [Hin|Hout]; cbn -[difference union].
  - rewrite Hset in Hin. rewrite elem_of_list_to_set in Hin.
    destruct (remove_first_spec id _ Hnd Hin) as (Hnd' & Hmem & Hlen). rewrite length_drop in Hlen.
    split; [split; [|done]|]; [|split; [done|set_solver]]. split; cbn -[difference union]; try done.
    + assert (drop trackedMonitorHead0 (take trackedMonitorHead0 trackedMonitorOrder0
        ++ remove_first id (drop trackedMonitorHead0 trackedMonitorOrder0)) = remove_first id (drop trackedMonitorHead0 trackedMonitorOrder0)) as Hdrop.
      { rewrite drop_app_le by (rewrite length_take; lia). rewrite drop_ge; [done|rewrite length_take; lia]. }
      unfold processed_wf. rewrite Hdrop. split; [done|]. split.
      { rewrite Hset. apply set_eq. intros x. rewrite elem_of_difference, !elem_of_list_to_set, elem_of_singleton. by rewrite Hmem. }
      unfold window_ok in *. rewrite length_app, length_take. lia.
    + by rewrite dom_delete_L, Hs.
    + by rewrite dom_delete_L, Hu.
    + by rewrite dom_delete_L, Hf.
    + intros k Hk. apply lookup_delete_Some in Hk as [Hne Hk]. rewrite lookup_delete_ne by done. by apply Hh.
    + set_solver.
  - split; [split; [|done]|done]. split; cbn; try done.
    + by rewrite dom_delete_L, Hs, difference_disjoint_L by set_solver.
    + by rewrite dom_delete_L, Hu, difference_disjoint_L by set_solver.
    + by rewrite dom_delete_L, Hf, difference_disjoint_L by set_solver.
    + intros k Hk. apply lookup_delete_Some in Hk as [Hne Hk]. rewrite lookup_delete_ne by done. by apply Hh.
Qed.

(** ** Runs *)

Inductive MetricsOp :=
| MSetTotalLinks (n : Z) | MAdjustTotalLinks (delta : Z) | MRemoveMonitor (id : string)
| MRecordScheduled | MRecordSkipped | MRecordInfrastructureRequeue | MRecordAlertDelivered
| MRecordAlertFailure (dead : bool) | MSetDependencyUp (name : string) (up : bool)
| MRecordResult (result : CheckResult) (recordedAt clk : Time).

Definition apply_metric (m : Metrics) (op : MetricsOp) : option Metrics :=
  match op with
  | MSetTotalLinks n => Some (SetTotalLinks m n)
  | MAdjustTotalLinks d => Some (AdjustTotalLinks m d)
  | MRemoveMonitor id => Some (RemoveMonitor m id)
  | MRecordScheduled => Some (RecordScheduled m)
  | MRecordSkipped => Some (RecordSkipped m)
  | MRecordInfrastructureRequeue => Some (RecordInfrastructureRequeue m)
  | MRecordAlertDelivered => Some (RecordAlertDelivered m)
  | MRecordAlertFailure dead => Some (RecordAlertFailure m dead)
  | MSetDependencyUp name up => Some (SetDependencyUp m name up)
  | MRecordResult result at_ clk => RecordResult m result at_ clk
  end.

Fixpoint run_metrics (m : Metrics) (ops : list MetricsOp) : option Metrics :=
  match ops with
  | [] => Some m
  | op :: rest => match apply_metric m op with Some m => run_metrics m rest | None => None end
  end.

Lemma apply_metric_wf m op : metrics_wf m → ∃ m', apply_metric m op = Some m' ∧ metrics_wf m'.
Proof.
  intros Hm. destruct op as [n|d|id| | | | |dead|name up|result at_ clk]; cbn [apply_metric];
    try (eexists; split; [reflexivity|]; by destruct m).
  - eexists. split; [reflexivity|]. by apply RemoveMonitor_spec.
  - eexists. split; [reflexivity|]. by destruct m, dead.
  - destruct (RecordResult_spec m result at_ clk Hm) as (m' & -> & Hm' & _). eauto.
Qed.

Lemma run_metrics_wf ops m : metrics_wf m → ∃ m', run_metrics m ops = Some m' ∧ metrics_wf m'.
Proof.
  revert m. induction ops as [|op ops IH]; intros m Hm; cbn; [by eauto|].
  destruct (apply_metric_wf m op Hm) as (m' & -> & Hm'). by apply IH.
Qed.

Lemma newMetrics_wf v c b n enabled clk m : newMetrics v c b n enabled clk = Some m → metrics_wf m.
Proof.
  unfold newMetrics. destruct (n <? 0); [done|]. intros [= <-]. split; [|split; reflexivity].
  split; cbn; try done. split; [constructor|]. split; [done|]. unfold window_ok, maxTrackedMetricMonitors. cbn. lia.
Qed.

(** C39: the metrics stay consistent and bounded over any run, and no run
    panics: every completed check is counted exactly once as healthy or
    unhealthy and once in the duration histogram (modulo 2^64); at most ten
    thousand monitors have gauges, each tracked monitor has all three and
    no other has any; a monitor shown as up shows no consecutive failure; and a
    process that does not run every role keeps no per-monitor state. *)
Theorem metrics_consistent (v c b : string) (n : Z) (role : string) (clk : Time) (m0 : Metrics) (ops : list MetricsOp) :
  NewMetricsForRole v c b n role clk = Some m0 → ∃ m, run_metrics m0 ops = Some m
  ∧ checksTotal m = wrapu64 (healthyTotal m + unhealthyTotal m) ∧ durationCount m = checksTotal m
  ∧ Z.of_nat (size (trackedMonitors m)) <= maxTrackedMetricMonitors
  ∧ dom (statusByMonitor m) = trackedMonitors m ∧ dom (upByMonitor m) = trackedMonitors m
  ∧ dom (consecutiveFailures m) = trackedMonitors m
  ∧ (∀ id, upByMonitor m !! id = Some true → consecutiveFailures m !! id = Some 0)
  ∧ (monitorStateEnabled m = false → dom (upByMonitor m) = ∅).
Proof.
  intros Hm0%newMetrics_wf. destruct (run_metrics_wf ops m0 Hm0) as (m & Hrun & Hg & Hc & Hd).
  exists m. split; [done|]. split; [done|]. split; [done|]. destruct Hg as [(Hnd & Hset & Hw1 & Hw2 & Hw3) Hs Hu Hf Hh Hdis Hn].
  split_and!; try done.
  - rewrite Hset, size_list_to_set, length_drop by done. exact Hw2.
  - intros Hx. rewrite Hu. by apply Hdis.
Qed.

Definition sample_result (ok : bool) : CheckResult :=
  mkCheckResult "mon_1" "https://a.example/" 0 ok (if ok then 200 else 503) (250 * Millisecond) 10
    (if ok then "" else "unexpected status 503") 7.

Lemma metrics_consistent_witness :
  ∃ m0, NewMetricsForRole "dev" "none" "unknown" 1 "all" 5 = Some m0 ∧
  ∃ m, run_metrics m0 [MRecordResult (sample_result false) 9 9; MRecordResult (sample_result true) 9 9; MAdjustTotalLinks (-3)] = Some m
  ∧ dom (consecutiveFailures m) = trackedMonitors m.
Proof.
  eexists. split; [reflexivity|].
  destruct (metrics_consistent "dev" "none" "unknown" 1 "all" 5 _
    [MRecordResult (sample_result false) 9 9; MRecordResult (sample_result true) 9 9; MAdjustTotalLinks (-3)] eq_refl)
    as (m & Hrun & _ & _ & _ & _ & _ & Hf & _).
  exists m. split; [exact Hrun|exact Hf].
Defined.

(** ** The text exposition *)

Definition quote : ascii := ascii_of_nat 34.
Definition newline : ascii := ascii_of_nat 10.
Definition backslash : ascii := ascii_of_nat 92.

(** [strings.ReplaceAll] of a single byte. *)
Fixpoint ReplaceByte (s : string) (c : ascii) (by_ : string) : string :=
  match s with
  | "" => ""
  | String x rest => if Ascii.eqb x c then by_ +:+ ReplaceByte rest c by_ else String x (ReplaceByte rest c by_)
  end.

Definition escapeLabelValue (value : string) : string :=
  let value := ReplaceByte value backslash (String backslash (String backslash "")) in
  let value := ReplaceByte value newline (String backslash "n") in
  ReplaceByte value quote (String backslash (String quote "")).

Definition unixSeconds (value : Time) : Z := if IsZero value then 0 else value / Second - unixToInternal.

(** [fmt.Sprint] of a float64. *)
Class FloatFormat := { Sprint_float64 : spec_float → string }.

Definition lines (l : list string) : string := foldr String.append "" l.
Definition line (s : string) : string := s +:+ String newline "".
Definition in_quotes (s : string) : string := String quote s +:+ String quote "".

Definition writeMetric (name help metricType value : string) : string :=
  lines [line ("# HELP " +:+ name +:+ " " +:+ help); line ("# TYPE " +:+ name +:+ " " +:+ metricType); line (name +:+ " " +:+ value)].

Definition flag (b : bool) : string := Itoa (if b then 1 else 0).

(** The keys of a map, sorted. *)
Definition sorted_keys `{!MapRange} {V} (m : gmap string V) : list string := SortFunc compareString (map_range m).*1.

Definition monitor_lines (m : Metrics) (id : string) : string :=
  let label := "monitor_id=" +:+ in_quotes (escapeLabelValue id) in
  lines [line ("site_checker_site_up{" +:+ label +:+ "} " +:+ flag (default false (upByMonitor m !! id)));
         line ("site_checker_site_status_code{" +:+ label +:+ "} " +:+ Itoa (default 0 (statusByMonitor m !! id)));
         line ("site_checker_site_consecutive_failures{" +:+ label +:+ "} "
                 +:+ Itoa (default 0 (consecutiveFailures m !! id)))].

Definition dependency_line (m : Metrics) (name : string) : string :=
  line ("site_checker_dependency_up{dependency=" +:+ in_quotes (escapeLabelValue name) +:+ "} "
          +:+ flag (default false (dependencyUp m !! name))).

Section exposition.
Context `{!MapRange, !FloatFormat}.

Definition monitor_section (m : Metrics) : list string :=
  if negb (monitorStateEnabled m) then []
  else
    [line "# HELP site_checker_site_up Last known site health by monitor ID.";
     line "# TYPE site_checker_site_up gauge";
     line "# HELP site_checker_site_status_code Last observed HTTP status code by monitor ID.";
     line "# TYPE site_checker_site_status_code gauge";
     line "# HELP site_checker_site_consecutive_failures Consecutive failed checks by monitor ID.";
     line "# TYPE site_checker_site_consecutive_failures gauge"]
    ++ (monitor_lines m <$> sorted_keys (upByMonitor m)).

Definition Prometheus (m : Metrics) : string :=
  lines (
    [line "# HELP site_checker_build_info Build metadata."; line "# TYPE site_checker_build_info gauge";
     line ("site_checker_build_info{version=" +:+ in_quotes (escapeLabelValue (version m))
             +:+ ",commit=" +:+ in_quotes (escapeLabelValue (commit m))
             +:+ ",build_date=" +:+ in_quotes (escapeLabelValue (buildDate m)) +:+ "} 1")]
    ++ (if monitorStateEnabled m
        then [writeMetric "site_checker_links_total" "Number of configured URLs." "gauge" (Itoa (totalLinks m))] else [])
    ++ [writeMetric "site_checker_checks_total" "Total completed checks." "counter" (Itoa (checksTotal m));
        writeMetric "site_checker_checks_healthy_total" "Total checks matching the expected status policy." "counter"
          (Itoa (healthyTotal m));
        writeMetric "site_checker_checks_unhealthy_total" "Total checks outside the expected status policy." "counter"
          (Itoa (unhealthyTotal m));
        writeMetric "site_checker_check_errors_total" "Total checks that returned an error." "counter"
          (Itoa (checkErrorsTotal m));
        writeMetric "site_checker_jobs_scheduled_total" "Total jobs accepted by the scheduler." "counter"
          (Itoa (jobsScheduledTotal m));
        writeMetric "site_checker_jobs_skipped_total" "Total scheduler attempts skipped because the queue was full." "counter"
          (Itoa (jobsSkippedTotal m));
        writeMetric "site_checker_job_infrastructure_requeues_total"
          "Total jobs requeued after transient infrastructure failures." "counter" (Itoa (infraRequeuesTotal m));
        writeMetric "site_checker_alerts_delivered_total" "Total webhook alerts delivered successfully." "counter"
          (Itoa (alertsDeliveredTotal m));
        writeMetric "site_checker_alert_delivery_failures_total" "Total failed webhook alert delivery attempts." "counter"
          (Itoa (alertFailuresTotal m));
        writeMetric "site_checker_alerts_dead_total" "Total webhook alerts exhausted after retry attempts." "counter"
          (Itoa (alertsDeadTotal m));
        writeMetric "site_checker_check_duration_seconds_sum" "Total check duration in seconds." "counter"
          (Sprint_float64 (durationSumSeconds m));
        writeMetric "site_checker_check_duration_seconds_count" "Number of observed check durations." "counter"
          (Itoa (durationCount m));
        writeMetric "site_checker_started_timestamp_seconds" "Unix timestamp when the process started." "gauge"
          (Itoa (unixSeconds (startedAt m)));
        writeMetric "site_checker_last_check_timestamp_seconds" "Unix timestamp of the last completed check." "gauge"
          (Itoa (unixSeconds (lastCheckAt m)));
        writeMetric "site_checker_last_success_timestamp_seconds" "Unix timestamp of the last successful check." "gauge"
          (Itoa (unixSeconds (lastSuccessAt m)))]
    ++ monitor_section m
    ++ [line "# HELP site_checker_dependency_up Last known dependency readiness by dependency name.";
        line "# TYPE site_checker_dependency_up gauge"]
    ++ (dependency_line m <$> sorted_keys (dependencyUp m))).
End exposition.

(** A reader of a quoted label value, as the exposition format defines it: what
    follows an opening quote up to the closing one. *)
Fixpoint scan_label (s : string) : option (string * string) :=
  match s with
  | "" => None
  | String c rest =>
      if Ascii.eqb c quote then Some ("", rest)
      else if Ascii.eqb c newline then None
      else if Ascii.eqb c backslash then
        match rest with
        | String d rest =>
            let value := if Ascii.eqb d "n" then Some newline
                         else if Ascii.eqb d backslash || Ascii.eqb d quote then Some d else None in
            match value, scan_label rest with
            | Some x, Some (v, tail) => Some (String x v, tail)
            | _, _ => None
            end
        | "" => None
        end
      else match scan_label rest with Some (v, tail) => Some (String c v, tail) | None => None end
  end.

Lemma append_cons c s t : String c s +:+ t = String c (s +:+ t).
Proof. reflexivity. Qed.
Lemma append_nil t : "" +:+ t = t.
Proof. reflexivity. Qed.

Lemma escape_String c s :
  escapeLabelValue (String c s)
  = (if Ascii.eqb c backslash then String backslash (String backslash "")
     else if Ascii.eqb c newline then String backslash "n"
     else if Ascii.eqb c quote then String backslash (String quote "") else String c "") +:+ escapeLabelValue s.
Proof.
  unfold escapeLabelValue. cbn [ReplaceByte]. destruct (Ascii.eqb_spec c backslash) as [->|Hb]; [reflexivity|].
  destruct (Ascii.eqb_spec c newline) as [->|Hn]; [reflexivity|]. cbn [ReplaceByte].
  rewrite (proj2 (Ascii.eqb_neq c newline)) by done. cbn [ReplaceByte]. by destruct (Ascii.eqb c quote).
Qed.

Lemma sorted_keys_unique {V} (R1 R2 : MapRange) (m : gmap string V) : @sorted_keys R1 V m = @sorted_keys R2 V m.
Proof.
  unfold sorted_keys. apply SortFunc_perm; [apply _| |intros; by apply compareString_le_antisym].
  rewrite (@map_range_perm R1), (@map_range_perm R2). done.
Qed.

(** C40: the text exposition does not depend on the iteration order of the
    maps behind it, and a label value, whatever bytes it holds, stays inside
    its quotes: reading the escaped value back gives the value and stops at
    the closing quote, so a monitor or dependency name cannot forge samples. *)
Theorem Prometheus_labels `{!FloatFormat} (m : Metrics) (value rest : string) :
  (∀ R1 R2 : MapRange, @Prometheus R1 _ m = @Prometheus R2 _ m)
  ∧ scan_label (escapeLabelValue value +:+ String quote rest) = Some (value, rest).
Proof.
  split.
  - intros R1 R2. unfold Prometheus, monitor_section. by rewrite !(sorted_keys_unique R1 R2).
  - induction value as [|c s IH]; [reflexivity|]. rewrite escape_String.
    destruct (Ascii.eqb_spec c backslash) as [->|Hb]; [rewrite !append_cons, append_nil; cbn; by rewrite IH|].
    destruct (Ascii.eqb_spec c newline) as [->|Hn]; [rewrite !append_cons, append_nil; cbn; by rewrite IH|].
    destruct (Ascii.eqb_spec c quote) as [->|Hq]; [rewrite !append_cons, append_nil; cbn; by rewrite IH|].
    rewrite !append_cons, append_nil. cbn -[quote newline backslash].
    rewrite (proj2 (Ascii.eqb_neq c quote)), (proj2 (Ascii.eqb_neq c newline)), (proj2 (Ascii.eqb_neq c backslash)) by done.
    by rewrite IH.
Qed.

(** Fresh metrics, for the examples. *)
Definition sample_metrics : Metrics :=
  mkMetrics true 0 "dev" "none" "unknown" 1 0 0 0 0 0 0 0 0 0 0 (SpecFloat.S754_zero false) 0 time_zero time_zero ∅ ∅ ∅ ∅ ∅ [] 0.
