(* ===== verification/Alert.v ===== *)
(** * Webhook alerts (alert.go)

    Sending one event of the alert outbox to the webhook, and what the
    dispatcher records about it.  The HTTP client and the outbox repository
    answer what they like; [http.ParseTime] is a parameter. *)

From stdpp Require Import base list gmap strings.
From Stdlib Require Import ZArith Lia Ascii.
From S2P Require Import Prelude GoNum GoStrings NetworkPolicy Egress Domain Backoff History Checker Metrics.
#[local] Open Scope string_scope.
#[local] Open Scope list_scope.
#[local] Open Scope Z_scope.

Definition maxAlertRetryAfter : Z := 24 * Hour.

Record AlertDeliveryError := mkDeliveryError { ade_StatusCode : Z; ade_Permanent : bool; ade_RetryAfter : Z }.

Record AlertPayload := mkPayload {
  ap_EventType : string; ap_IncidentID : string; ap_MonitorID : string; ap_URL : string; ap_StatusCode : Z;
  ap_Error : string; ap_ConsecutiveFailures : Z; ap_CheckedAt : Time;
}.

Record AlertOutboxEvent := mkEvent {
  ev_ID : string; ev_IdempotencyKey : string; ev_IncidentID : string; ev_MonitorID : string;
  ev_Payload : AlertPayload; ev_AttemptCount : Z; ev_LeaseToken : string;
}.

(** ** One delivery *)

(** [errors.As] finds the first [*url.Error] of the chain. *)
Fixpoint first_url_error (e : HTTPErr) : option (option HTTPErr) :=
  match e with
  | EUrl _ inner => Some inner
  | EOther _ (Some e') => first_url_error e'
  | EOther _ None => None
  end.

Definition alertTransportCause (err : HTTPErr) : HTTPErr :=
  match first_url_error err with Some (Some inner) => inner | _ => err end.

Definition isPermanentAlertStatus (statusCode : Z) : bool :=
  if (statusCode <? 400) || (500 <=? statusCode) then false
  else negb ((statusCode =? 408) || (statusCode =? 425) || (statusCode =? 429)).

(** [http.ParseTime]. *)
Class HTTPTime := { ParseTime : string → option Time }.

(** The client: building the request may fail, sending it yields a status with
    the [Retry-After] and [Date] headers, or an error.  The redirects it sees are
    answers like any other, since the alert client does not follow them. *)
Record WebhookAnswer := { wa_StatusCode : Z; wa_RetryAfter : string; wa_Date : string }.
Class WebhookClient := {
  marshal_error : AlertPayload → option string;
  new_request : string → option string;
  post : string → list (string * string) → AlertPayload → res HTTPErr WebhookAnswer;
}.

Inductive DeliveryErr := Failed (text : string) | Rejected (e : AlertDeliveryError).

Definition delivery_error_text (e : DeliveryErr) : string :=
  match e with
  | Failed text => text
  | Rejected e => "alert webhook returned status " +:+ Itoa (ade_StatusCode e)
  end.

Section alert.
Context `{!HTTPTime}.

Definition parseRetryAfter (value responseDate : string) : Z :=
  let value := TrimSpace value in
  if String.eqb value "" then 0
  else match Atoi value with
  | Some n => if n <=? 0 then 0
              else if Z.quot maxAlertRetryAfter Second <=? n then maxAlertRetryAfter
              else wrap64 (n * Second)
  | None =>
      match ParseTime value with
      | None => 0
      | Some retryAt =>
          match ParseTime responseDate with
          | None => 0
          | Some serverTime =>
              if negb (After retryAt serverTime) then 0
              else
                let delay := Z.min (retryAt - serverTime) max_int64 in
                if maxAlertRetryAfter <? delay then maxAlertRetryAfter else delay
          end
      end
  end.

Definition Send `{!WebhookClient} (webhookURL userAgent : string) (event : AlertOutboxEvent) : option DeliveryErr :=
  match marshal_error (ev_Payload event) with
  | Some e => Some (Failed ("encode alert payload: " +:+ e))
  | None =>
      match new_request webhookURL with
      | Some e => Some (Failed ("create alert request: " +:+ e))
      | None =>
          match post webhookURL [("Content-Type", "application/json"); ("User-Agent", userAgent);
                                 ("Idempotency-Key", ev_IdempotencyKey event)] (ev_Payload event) with
          | Err err => Some (Failed ("send alert: " +:+ ErrorText (alertTransportCause err)))
          | Ok answer =>
              if (wa_StatusCode answer <? 200) || (300 <=? wa_StatusCode answer)
              then Some (Rejected (mkDeliveryError (wa_StatusCode answer) (isPermanentAlertStatus (wa_StatusCode answer))
                                     (parseRetryAfter (wa_RetryAfter answer) (wa_Date answer))))
              else None
          end
      end
  end.

(** ** What the dispatcher records *)

Record AlertConfig := { AlertMaxAttempts : Z; AlertRetryInitialBackoff : Z; AlertRetryMaxBackoff : Z }.

Inductive AlertCall :=
| MarkAlertDelivered (id leaseToken : string)
| MarkAlertFailed (id leaseToken lastError : string) (retryDelay : Z) (dead : bool).

(** The call that records the outcome, if any; [done_] is the dispatcher's
    context after the delivery. *)
Definition outcome_call (cfg : AlertConfig) (event : AlertOutboxEvent) (deliveryErr : option DeliveryErr) (done_ : bool)
  : option AlertCall :=
  match deliveryErr with
  | None => Some (MarkAlertDelivered (ev_ID event) (ev_LeaseToken event))
  | Some err =>
      if done_ then None
      else
        let responseError := match err with Rejected e => Some e | Failed _ => None end in
        let permanent := match responseError with Some e => ade_Permanent e | None => false end in
        let dead := permanent || (AlertMaxAttempts cfg <=? ev_AttemptCount event) in
        let retryDelay := alertRetryDelay (ev_AttemptCount event) (AlertRetryInitialBackoff cfg) (AlertRetryMaxBackoff cfg) in
        let retryDelay := match responseError with
                          | Some e => if retryDelay <? ade_RetryAfter e then ade_RetryAfter e else retryDelay
                          | None => retryDelay
                          end in
        Some (MarkAlertFailed (ev_ID event) (ev_LeaseToken event) (delivery_error_text err) retryDelay dead)
  end.

(** What the metrics count once the repository accepted the call. *)
Definition count_outcome (c : AlertCall) (m : Metrics) : Metrics :=
  match c with
  | MarkAlertDelivered _ _ => RecordAlertDelivered m
  | MarkAlertFailed _ _ _ _ dead => RecordAlertFailure m dead
  end.

(** [answer] tells whether the repository accepts the call. *)
Definition dispatchAlert (cfg : AlertConfig) (event : AlertOutboxEvent) (deliveryErr : option DeliveryErr) (done_ : bool)
    (answer : AlertCall → bool) (m : Metrics) : list AlertCall * Metrics :=
  match outcome_call cfg event deliveryErr done_ with
  | None => ([], m)
  | Some c => ([c], if answer c then count_outcome c m else m)
  end.

(** ** Properties *)

Lemma parseRetryAfter_bounds value date : 0 <= parseRetryAfter value date <= maxAlertRetryAfter.
Proof.
  unfold parseRetryAfter, maxAlertRetryAfter, Hour, After.
  destruct (String.eqb _ _); [lia|]. destruct (Atoi _) as [n|].
  - destruct (Z.leb_spec n 0); [lia|]. change (Z.quot (24 * 3600000000000) Second) with 86400.
    destruct (Z.leb_spec 86400 n); [lia|]. rewrite wrap64_id by (unfold in_int64, two63, max_int64, Second; lia). unfold Second. lia.
  - destruct (ParseTime _) as [r|]; [|lia]. destruct (ParseTime _) as [t|]; [|lia].
    destruct (Z.ltb_spec t r); cbn [negb]; [|lia]. destruct (Z.ltb_spec (24 * 3600000000000) (Z.min (r - t) max_int64)); [lia|].
    unfold max_int64 in *. lia.
Qed.

Lemma isPermanentAlertStatus_spec c :
  isPermanentAlertStatus c = true ↔ 400 <= c < 500 ∧ c ≠ 408 ∧ c ≠ 425 ∧ c ≠ 429.
Proof.
  unfold isPermanentAlertStatus.
  destruct (Z.ltb_spec c 400), (Z.leb_spec 500 c), (Z.eqb_spec c 408), (Z.eqb_spec c 425), (Z.eqb_spec c 429); cbn; split; try done; lia.
Qed.

(** How a rejected delivery reads its answer. *)
Lemma Send_rejected `{!WebhookClient} url ua event e :
  Send url ua event = Some (Rejected e) →
  ¬ 200 <= ade_StatusCode e < 300 ∧ 0 <= ade_RetryAfter e <= maxAlertRetryAfter
  ∧ ade_Permanent e = isPermanentAlertStatus (ade_StatusCode e).
Proof.
  unfold Send. destruct (marshal_error _); [done|]. destruct (new_request _); [done|]. destruct (post _ _ _) as [a|]; [|done].
  destruct (Z.ltb_spec (wa_StatusCode a) 200), (Z.leb_spec 300 (wa_StatusCode a)); cbn [orb]; try done; intros [= <-]; cbn;
    (split; [lia|]; split; [apply parseRetryAfter_bounds|done]).
Qed.

Definition alert_config_ok (cfg : AlertConfig) : Prop :=
  0 < AlertRetryInitialBackoff cfg <= AlertRetryMaxBackoff cfg ∧ AlertRetryMaxBackoff cfg <= 24 * Hour.

(** The outcome of a delivery as the webhook's answer, the attempts and the
    backoff determine it. *)
Definition outcome_spec (cfg : AlertConfig) (event : AlertOutboxEvent) (deliveryErr : option DeliveryErr) (c : AlertCall) : Prop :=
  match deliveryErr with
  | None => c = MarkAlertDelivered (ev_ID event) (ev_LeaseToken event)
  | Some err =>
      ∃ delay dead, c = MarkAlertFailed (ev_ID event) (ev_LeaseToken event) (delivery_error_text err) delay dead
      ∧ capped_exponential (ev_AttemptCount event) (AlertRetryInitialBackoff cfg) (AlertRetryMaxBackoff cfg) <= delay <= 24 * Hour
      ∧ (dead = true ↔ AlertMaxAttempts cfg <= ev_AttemptCount event
         ∨ ∃ e, err = Rejected e ∧ 400 <= ade_StatusCode e < 500
           ∧ ade_StatusCode e ≠ 408 ∧ ade_StatusCode e ≠ 425 ∧ ade_StatusCode e ≠ 429)
  end.

Lemma outcome_call_spec `{!WebhookClient} (cfg : AlertConfig) (url ua : string) (event : AlertOutboxEvent) (done_ : bool) :
  alert_config_ok cfg →
  match outcome_call cfg event (Send url ua event) done_ with
  | Some c => outcome_spec cfg event (Send url ua event) c
  | None => is_Some (Send url ua event) ∧ done_ = true
  end.
Proof.
  intros [Hinit Hmax]. unfold outcome_call.
  destruct (Send url ua event) as [err|] eqn:Hsend; [|done]. destruct done_; [done|]. cbn zeta. unfold outcome_spec.
  rewrite alertRetryDelay_capped_exponential by (unfold max_int64, Hour in *; lia).
  pose proof (capped_exponential_bounds (ev_AttemptCount event) _ _ Hinit) as Hb. set (backoff := capped_exponential _ _ _) in *.
  eexists _, _. split; [reflexivity|]. destruct err as [text|e].
  - split; [lia|]. cbn [orb]. rewrite Z.leb_le. split; [auto|]. intros [?|(e & ? & _)]; done.
  - apply Send_rejected in Hsend as (_ & Hra & Hperm). unfold maxAlertRetryAfter in Hra. split.
    + destruct (Z.ltb_spec backoff (ade_RetryAfter e)); lia.
    + rewrite orb_true_iff, Z.leb_le, Hperm, isPermanentAlertStatus_spec. split; [intros [?|?]; eauto|].
      intros [?|(e' & [= <-] & ?)]; auto.
Qed.

(** Dispatching an alert records exactly one outcome, unless the dispatcher is
    shutting down after a failure. *)
Lemma alert_dispatch_outcome `{!WebhookClient} (cfg : AlertConfig) (url ua : string) (event : AlertOutboxEvent) (done_ : bool)
    (answer : AlertCall → bool) (m : Metrics) :
  alert_config_ok cfg →
  match (dispatchAlert cfg event (Send url ua event) done_ answer m).1 with
  | [c] => outcome_spec cfg event (Send url ua event) c
  | calls => calls = [] ∧ is_Some (Send url ua event) ∧ done_ = true
  end.
Proof.
  intros Hcfg. pose proof (outcome_call_spec cfg url ua event done_ Hcfg) as Hcall. unfold dispatchAlert.
  by destruct (outcome_call _ _ _ _).
Qed.
End alert.

Definition sample_event : AlertOutboxEvent :=
  mkEvent "alert_1" "key_1" "inc_1" "mon_1" (mkPayload "incident.failure" "inc_1" "mon_1" "https://a.example/" 503 "" 3 5) 2 "lease_1".
