(* ===== verification/Sql.v ===== *)
(** * Database sessions and tables

    How the PostgreSQL repository talks to its server.  A statement is a
    function on the tables; a method is a program that sends statements one
    after the other, alone or inside a transaction.  The [Server] decides when
    each statement runs (its clock reading and the rows other transactions hold
    locked), whether it fails, and whether its reply is lost on the way; between
    two statements sent outside a transaction other clients may change the
    tables.  A transaction is taken to run at one point in time: the code locks
    the rows it reads before it decides on them. *)

From stdpp Require Import base list gmap strings sorting.
From Stdlib Require Import ZArith Lia Ascii.
From S2P Require Import Prelude GoNum GoStrings NetworkPolicy Egress Domain.
#[local] Open Scope string_scope.
#[local] Open Scope list_scope.
#[local] Open Scope Z_scope.

(** ** Values

    [timestamptz] holds microseconds: a Go time is truncated on its way in, and
    the server's clock is read in microseconds. *)
Definition timestamptz (t : Time) : Time := Microsecond * (t / Microsecond).

(** [$n::bigint * interval '1 microsecond'] of a Go duration. *)
Definition Microseconds (d : Z) : Z := Z.quot d Microsecond.
Definition interval_us (d : Z) : Z := Microsecond * Microseconds d.
Definition interval_s (n : Z) : Z := n * Second.

(** [Time.Sub] saturates. *)
Definition Sub (t u : Time) : Z := Z.max (- two63) (Z.min max_int64 (t - u)).

(** A parameter the server may refuse: an [integer] out of range, or a [text]
    that is not valid UTF-8 or holds a zero byte. *)
Inductive param := text (s : string) | int4 (z : Z).

Fixpoint text_from (skip : nat) (s : string) : bool :=
  match s with
  | EmptyString => true
  | String a t =>
      match skip with
      | S k => text_from k t
      | O => negb (byte_val a =? 0) && ((byte_val a <? 0x80) || (1 <? rune_len s)%nat)
             && text_from (rune_len s - 1) t
      end
  end.
Definition text_ok (s : string) : bool := text_from 0 s.
Definition int4_ok (z : Z) : bool := (-2147483648 <=? z) && (z <=? 2147483647).
Definition param_ok (p : param) : bool := match p with text s => text_ok s | int4 z => int4_ok z end.

(** The SQLSTATE of the errors the model raises. *)
Definition unique_violation : GoError := ErrInfra 23505.
Definition foreign_key_violation : GoError := ErrInfra 23503.
Definition check_violation : GoError := ErrInfra 23514.
Definition invalid_parameter : GoError := ErrInfra 22000.
Definition numeric_out_of_range : GoError := ErrInfra 22003.

(** ** Tables *)

Section tables.
Context `{MR : !MapRange} {R : Type}.
Implicit Types (t : gmap string R) (p q : R → bool) (f : R → R).

(** [UPDATE t SET f WHERE p], [DELETE FROM t WHERE p], [SELECT ... WHERE p]
    (in an unspecified order) and the number of rows they affect. *)
Definition update_rows p f t : gmap string R := (λ r, if p r then f r else r) <$> t.
Definition delete_rows p t : gmap string R := filter (λ kv, p kv.2 = false) t.
Definition select_rows p t : list R := List.filter p (map_range t).*2.
Definition count_rows p t : Z := Z.of_nat (length (select_rows p t)).
Definition exists_row p t : bool := negb (count_rows p t =? 0).
(** [LIMIT 1]. *)
Definition first_row p t : option R := head (select_rows p t).
(** [ORDER BY cmp OFFSET offset LIMIT limit]. *)
Definition order_limit (cmp : R → R → Z) (offset limit : Z) (rows : list R) : list R :=
  take (Z.to_nat limit) (drop (Z.to_nat offset) (SortFunc cmp rows)).

Lemma elem_of_select_rows p t r : r ∈ select_rows p t ↔ (∃ k, t !! k = Some r) ∧ p r = true.
Proof. unfold select_rows. by rewrite elem_of_filter_bool, elem_of_map_range_values. Qed.

Lemma lookup_update_rows p f t k :
  update_rows p f t !! k = (λ r, if p r then f r else r) <$> t !! k.
Proof. apply lookup_fmap. Qed.

Lemma lookup_update_rows_Some p f t k r' :
  update_rows p f t !! k = Some r' ↔
  ∃ r, t !! k = Some r ∧ r' = if p r then f r else r.
Proof.
  rewrite lookup_update_rows, fmap_Some. split; intros (r & Hr & ->); exists r; done.
Qed.

Lemma lookup_delete_rows_Some p t k r :
  delete_rows p t !! k = Some r ↔ t !! k = Some r ∧ p r = false.
Proof. unfold delete_rows. by rewrite map_lookup_filter_Some. Qed.

Lemma count_rows_nonneg p t : 0 <= count_rows p t.
Proof. unfold count_rows. lia. Qed.

Lemma count_rows_zero p t : count_rows p t = 0 ↔ ∀ k r, t !! k = Some r → p r = false.
Proof.
  unfold count_rows. split.
  - intros H k r Hk. assert (select_rows p t = []) as Hnil.
    { apply length_zero_iff_nil. lia. }
    destruct (p r) eqn:Hp; [|done].
    assert (r ∈ select_rows p t) as Hin by (apply elem_of_select_rows; eauto).
    rewrite Hnil in Hin. by apply elem_of_nil in Hin.
  - intros H. destruct (select_rows p t) as [|r l] eqn:Hs; [done|].
    assert (r ∈ select_rows p t) as Hin by (rewrite Hs; apply list_elem_of_here).
    apply elem_of_select_rows in Hin as [[k Hk] Hp]. by rewrite (H _ _ Hk) in Hp.
Qed.

Lemma length_filter_values_perm p (l1 l2 : list (string * R)) :
  l1 ≡ₚ l2 → length (List.filter p l1.*2) = length (List.filter p l2.*2).
Proof.
  induction 1 as [|x l1 l2 _ IH|x y l|l1 l2 l3 _ IH1 _ IH2]; cbn; [done| | |congruence].
  - destruct (p x.2); cbn; congruence.
  - by destruct (p x.2), (p y.2).
Qed.

Lemma count_rows_size p t : count_rows p t = Z.of_nat (size (filter (λ kv, p kv.2 = true) t)).
Proof.
  unfold count_rows, select_rows. f_equal. rewrite (length_filter_values_perm _ _ _ (map_range_perm t)).
  induction t as [|k r t Hk IH] using map_ind; [by rewrite map_to_list_empty, map_filter_empty, map_size_empty|].
  rewrite (length_filter_values_perm _ _ _ (map_to_list_insert _ _ r Hk)). cbn. rewrite map_filter_insert. cbn.
  destruct (p r) eqn:Hp; cbn.
  - rewrite decide_True by done. rewrite map_size_insert_None; [by rewrite IH|].
    apply map_lookup_filter_None. by left.
  - rewrite decide_False by done. by rewrite delete_id.
Qed.

Lemma update_rows_none p f t : (∀ k r, t !! k = Some r → p r = false) → update_rows p f t = t.
Proof.
  intros H. apply map_eq. intros k. rewrite lookup_update_rows.
  destruct (t !! k) as [r|] eqn:Hk; [|done]. cbn. by rewrite (H _ _ Hk).
Qed.

Lemma exists_row_spec p t : exists_row p t = true ↔ ∃ k r, t !! k = Some r ∧ p r = true.
Proof.
  unfold exists_row. rewrite negb_true_iff, Z.eqb_neq. split.
  - intros H. destruct (select_rows p t) as [|r l] eqn:Hs.
    + exfalso. apply H. unfold count_rows. by rewrite Hs.
    + assert (r ∈ select_rows p t) as Hin by (rewrite Hs; apply list_elem_of_here).
      apply elem_of_select_rows in Hin as [[k Hk] Hp]. eauto.
  - intros (k & r & Hk & Hp) H0. rewrite count_rows_zero in H0. by rewrite (H0 _ _ Hk) in Hp.
Qed.

Lemma first_row_Some p t r : first_row p t = Some r → (∃ k, t !! k = Some r) ∧ p r = true.
Proof.
  unfold first_row. intros H. apply elem_of_select_rows.
  destruct (select_rows p t); simplify_eq/=. apply list_elem_of_here.
Qed.

Lemma first_row_None p t : first_row p t = None ↔ ∀ k r, t !! k = Some r → p r = false.
Proof.
  rewrite <- count_rows_zero. unfold first_row, count_rows. destruct (select_rows p t); cbn; split; done || lia.
Qed.

Lemma update_rows_ext p q f t :
  (∀ k r, t !! k = Some r → p r = q r) → update_rows p f t = update_rows q f t.
Proof.
  intros Hpq. apply map_eq. intros k. rewrite !lookup_update_rows.
  destruct (t !! k) as [r|] eqn:Hk; [|done]. cbn. by rewrite (Hpq _ _ Hk).
Qed.

Lemma elem_of_order_limit cmp offset limit rows r : r ∈ order_limit cmp offset limit rows → r ∈ rows.
Proof.
  unfold order_limit. intros Hr. eapply elem_of_SortFunc, subseteq_drop, subseteq_take, Hr.
Qed.

Lemma length_order_limit cmp offset limit rows :
  0 <= limit → Z.of_nat (length (order_limit cmp offset limit rows)) <= limit.
Proof. intros Hl. unfold order_limit. rewrite length_take. lia. Qed.

(** A condition at most one row meets. *)
Lemma first_row_unique p t k r :
  t !! k = Some r → p r = true → (∀ k' r', t !! k' = Some r' → p r' = true → r' = r) → first_row p t = Some r.
Proof.
  intros Hk Hp Hu. destruct (first_row p t) as [r'|] eqn:Hf.
  - apply first_row_Some in Hf as [[k' Hk'] Hp']. f_equal. eauto.
  - rewrite first_row_None in Hf. by rewrite (Hf _ _ Hk) in Hp.
Qed.

(** [WHERE id = k AND q] touches at most the row under [k]. *)
Section keyed.
Context (id : R → string).
Definition keyed t : Prop := ∀ k r, t !! k = Some r → id r = k.

Lemma update_key q f t k r :
  keyed t → t !! k = Some r →
  update_rows (λ x, String.eqb (id x) k && q x) f t = if q r then <[k := f r]> t else t.
Proof.
  intros Ht Hk. apply map_eq. intros i. rewrite lookup_update_rows.
  destruct (decide (i = k)) as [->|Hne].
  - rewrite Hk. cbn. rewrite (Ht _ _ Hk), String.eqb_refl. cbn.
    destruct (q r); [by rewrite lookup_insert_eq|done].
  - assert ((if q r then <[k:=f r]> t else t) !! i = t !! i) as ->.
    { destruct (q r); [|done]. by rewrite lookup_insert_ne. }
    destruct (t !! i) as [x|] eqn:Hx; [|done]. cbn.
    destruct (String.eqb_spec (id x) k) as [He|]; [|done]. exfalso. apply Hne. by rewrite <- (Ht _ _ Hx).
Qed.

Lemma update_key_absent q f t k :
  keyed t → t !! k = None → update_rows (λ x, String.eqb (id x) k && q x) f t = t.
Proof.
  intros Ht Hk. apply update_rows_none. intros i x Hx.
  destruct (String.eqb_spec (id x) k) as [He|]; [|done]. rewrite <- He, (Ht _ _ Hx) in Hk. congruence.
Qed.

Lemma count_key q t k :
  keyed t →
  count_rows (λ x, String.eqb (id x) k && q x) t = match t !! k with Some r => if q r then 1 else 0 | None => 0 end.
Proof.
  intros Ht. set (p := λ x, String.eqb (id x) k && q x).
  destruct (t !! k) as [r|] eqn:Hk; [destruct (q r) eqn:Hq|].
  - unfold count_rows. assert (select_rows p t = [r]) as ->; [|done].
    assert (NoDup (id <$> select_rows p t)) as Hnd.
    { unfold select_rows. apply NoDup_fmap_filter. rewrite (map_range_ids id); [apply NoDup_map_range_keys|done]. }
    assert (∀ x, x ∈ select_rows p t → x = r) as Hall.
    { intros x [[i Hx] Hp]%elem_of_select_rows. unfold p in Hp.
      destruct (String.eqb_spec (id x) k) as [He|]; [|done]. rewrite (Ht _ _ Hx) in He. subst. congruence. }
    assert (r ∈ select_rows p t) as Hin.
    { apply elem_of_select_rows. split; [eauto|]. unfold p. by rewrite (Ht _ _ Hk), String.eqb_refl. }
    destruct (select_rows p t) as [|a [|b l]]; [by apply elem_of_nil in Hin|f_equal; apply Hall; left|].
    exfalso. rewrite (Hall a), (Hall b) in Hnd by (repeat constructor).
    apply NoDup_cons in Hnd as [Hnd _]. apply Hnd. left.
  - apply count_rows_zero. intros i x Hx. unfold p. destruct (String.eqb_spec (id x) k) as [He|]; [|done].
    rewrite (Ht _ _ Hx) in He. subst. simplify_eq. done.
  - apply count_rows_zero. intros i x Hx. unfold p. destruct (String.eqb_spec (id x) k) as [He|]; [|done].
    rewrite (Ht _ _ Hx) in He. subst. congruence.
Qed.

(** A row chosen by its key was selected. *)
Lemma chosen_selected cmp offset limit p t k r :
  keyed t → t !! k = Some r → id r ∈ id <$> order_limit cmp offset limit (select_rows p t) → p r = true.
Proof.
  intros Ht Hk (x & Hid & Hx)%list_elem_of_fmap.
  apply elem_of_order_limit, elem_of_select_rows in Hx as [[k' Hk'] Hp].
  pose proof (Ht _ _ Hk). pose proof (Ht _ _ Hk'). assert (k = k') as <- by congruence. by simplify_eq.
Qed.

(** [UPDATE ... FROM (SELECT ... LIMIT n) RETURNING]: each row returned is the
    update of a selected row, and is the row now stored. *)
Lemma claimed_rows cmp limit p f t :
  keyed t → (∀ r, id (f r) = id r) → 0 <= limit →
  let ids := id <$> order_limit cmp 0 limit (select_rows p t) in
  let hit := λ r, bool_decide (id r ∈ ids) in
  let rows := select_rows hit (update_rows hit f t) in
  Z.of_nat (length rows) <= limit ∧ NoDup (id <$> rows)
  ∧ (∀ r', r' ∈ rows → update_rows hit f t !! id r' = Some r' ∧ ∃ r, t !! id r' = Some r ∧ p r = true ∧ r' = f r).
Proof.
  intros Ht Hf Hl ids hit rows.
  assert (keyed (update_rows hit f t)) as Ht'.
  { intros k r (x & Hx & ->)%lookup_update_rows_Some. destruct (hit x); rewrite ?Hf; by eapply Ht. }
  assert (NoDup (id <$> rows)) as Hnd.
  { apply NoDup_fmap_filter. rewrite (map_range_ids id); [apply NoDup_map_range_keys|done]. }
  assert (∀ r', r' ∈ rows → update_rows hit f t !! id r' = Some r' ∧ ∃ r, t !! id r' = Some r ∧ p r = true ∧ r' = f r) as Hrows.
  { intros r' [[k Hk] Hh]%elem_of_select_rows. rewrite (Ht' _ _ Hk). split; [done|].
    apply lookup_update_rows_Some in Hk as (r & Hr & ->). exists r. split; [done|].
    assert (hit r = true) as Hhr by (destruct (hit r) eqn:?; [done|congruence]). rewrite Hhr. split; [|done].
    apply bool_decide_eq_true in Hhr. exact (chosen_selected cmp 0 limit p t _ _ Ht Hr Hhr). }
  split; [|done]. etrans; [|apply (length_order_limit cmp 0 limit (select_rows p t) Hl)].
  apply inj_le. rewrite <- (length_fmap id rows), <- (length_fmap id (order_limit _ _ _ _)).
  apply submseteq_length, NoDup_submseteq; [done|].
  intros x (r' & -> & Hr')%list_elem_of_fmap. apply elem_of_select_rows in Hr' as [_ Hh].
  by apply bool_decide_eq_true in Hh.
Qed.

Lemma keyed_update p f t : keyed t → (∀ r, id (f r) = id r) → keyed (update_rows p f t).
Proof.
  intros Ht Hf k r (x & Hx & ->)%lookup_update_rows_Some. destruct (p x); [rewrite Hf|]; eauto.
Qed.

Lemma keyed_delete p t : keyed t → keyed (delete_rows p t).
Proof. intros Ht k r [Hk _]%lookup_delete_rows_Some. eauto. Qed.

Lemma keyed_insert t k r : keyed t → id r = k → keyed (<[k := r]> t).
Proof. intros Ht Hr i x [[<- <-]|[_ Hx]]%lookup_insert_Some; eauto. Qed.
End keyed.
End tables.

(** ** Sessions *)

Inductive outcome :=
| Answered (micros : Z) (locked : gset string)                 (* it ran and the reply arrived *)
| NotRun (e : GoError)                                         (* it failed and had no effect *)
| ReplyLost (micros : Z) (locked : gset string) (e : GoError). (* it ran, the caller saw an error *)

Class Server (DB : Type) := { answer : nat → outcome; others : nat → DB → DB }.

Section session.
Context {DB : Type} `{SV : !Server DB}.

(** A statement reads the clock and the locks held by others. *)
Definition stmt (A : Type) : Type := Time → gset string → DB → DB * res GoError A.
Definition proc (A : Type) : Type := nat → DB → nat * DB * res GoError A.

Definition ret {A} (a : A) : proc A := λ n d, (n, d, Ok a).
Definition fail {A} (e : GoError) : proc A := λ n d, (n, d, Err e).
Definition bind {A B} (p : proc A) (f : A → proc B) : proc B := λ n d,
  match p n d with (n, d, Ok a) => f a n d | (n, d, Err e) => (n, d, Err e) end.
(** For the errors the code handles itself. *)
Definition try {A} (p : proc A) : proc (res GoError A) := λ n d,
  let '(n, d, r) := p n d in (n, d, Ok r).

(** One statement: the parameters are encoded first. A statement that the
    server rejects has no effect. *)
Definition apply_stmt {A} (s : stmt A) (now : Time) (locked : gset string) (d : DB) : DB * res GoError A :=
  match s now locked d with (d', Ok a) => (d', Ok a) | (_, Err e) => (d, Err e) end.

Definition exec {A} (ps : list param) (s : stmt A) : proc A := λ n d,
  if negb (forallb param_ok ps) then (n, d, Err invalid_parameter)
  else match answer n with
  | Answered micros locked => let '(d, r) := apply_stmt s (Microsecond * micros) locked d in (S n, d, r)
  | NotRun e => (S n, d, Err e)
  | ReplyLost micros locked e => (S n, (apply_stmt s (Microsecond * micros) locked d).1, Err e)
  end.

(** [pool.Exec], [pool.Query]: a transaction of one statement. *)
Definition query {A} (ps : list param) (s : stmt A) : proc A := λ n d, exec ps s n (others n d).

(** [pool.Begin ... tx.Commit], with the deferred rollback. *)
Definition transaction {A} (body : proc A) : proc A := λ n d,
  let d := others n d in
  match answer n with
  | NotRun e | ReplyLost _ _ e => (S n, d, Err e)
  | Answered _ _ =>
      match body (S n) d with
      | (n, _, Err e) => (S n, d, Err e)
      | (n, d', Ok a) =>
          match answer n with
          | Answered _ _ => (S n, d', Ok a)
          | NotRun e => (S n, d, Err e)
          | ReplyLost _ _ e => (S n, d', Err e)
          end
      end
  end.

(** [SELECT clock_timestamp()]. *)
Definition databaseTime : proc Time := exec [] (λ now _ d, (d, Ok now)).

(** ** Reasoning about sessions

    [guarantees G p]: whatever the server does, [p] moves the tables along [G],
    a preorder that the other clients respect too; [keeps I p] is the case of an
    invariant. *)
Definition guarantees {A} (G : relation DB) (p : proc A) : Prop := ∀ n d, G d (p n d).1.2.
Definition stmt_guarantees {A} (G : relation DB) (s : stmt A) : Prop :=
  ∀ now locked d d' a, s now locked d = (d', Ok a) → G d d'.

Section guarantees.
Context (G : relation DB) `{GP : !PreOrder G} (Hothers : ∀ n d, G d (others n d)).

Lemma guarantees_ret {A} (a : A) : guarantees G (ret a).
Proof. by intros n d. Qed.
Lemma guarantees_fail {A} e : guarantees G (@fail A e).
Proof. by intros n d. Qed.
Lemma guarantees_bind {A B} (p : proc A) (f : A → proc B) :
  guarantees G p → (∀ a, guarantees G (f a)) → guarantees G (bind p f).
Proof.
  intros Hp Hf n d. specialize (Hp n d). unfold bind.
  destruct (p n d) as [[n1 d1] [a|e]]; cbn in *; [etrans; [exact Hp|apply Hf]|done].
Qed.
Lemma guarantees_try {A} (p : proc A) : guarantees G p → guarantees G (try p).
Proof. intros Hp n d. specialize (Hp n d). unfold try. by destruct (p n d) as [[n1 d1] r]. Qed.
Lemma guarantees_exec {A} ps (s : stmt A) : stmt_guarantees G s → guarantees G (exec ps s).
Proof.
  intros Hs n d. unfold exec, apply_stmt. destruct (negb _); [done|].
  destruct (answer n) as [us lk|e|us lk e]; [|done|];
    specialize (Hs (Microsecond * us) lk d); destruct (s _ lk d) as [d' [a|e']]; cbn; try done; by eapply Hs.
Qed.
Lemma guarantees_query {A} ps (s : stmt A) : stmt_guarantees G s → guarantees G (query ps s).
Proof. intros Hs n d. etrans; [apply Hothers|]. by apply (guarantees_exec ps s Hs). Qed.
Lemma guarantees_transaction {A} (body : proc A) : guarantees G body → guarantees G (transaction body).
Proof.
  intros Hb n d. unfold transaction. pose proof (Hothers n d) as Hd.
  destruct (answer n); cbn; try done. specialize (Hb (S n) (others n d)).
  destruct (body (S n) (others n d)) as [[n1 d1] [a|e1]]; cbn in *; [|done].
  destruct (answer n1); cbn; try done; by etrans.
Qed.
Lemma guarantees_databaseTime : guarantees G databaseTime.
Proof. apply guarantees_exec. by intros now lk d d' a [= <- <-]. Qed.
End guarantees.

Definition keeping (I : DB → Prop) : relation DB := λ d d', I d → I d'.
#[export] Instance keeping_preorder I : PreOrder (keeping I).
Proof. split; unfold keeping; [by intros d Hd|intros d1 d2 d3 H1 H2; auto]. Qed.

Definition keeps {A} (I : DB → Prop) (p : proc A) : Prop := guarantees (keeping I) p.
Definition stmt_keeps {A} (I : DB → Prop) (s : stmt A) : Prop :=
  ∀ now locked d d' a, I d → s now locked d = (d', Ok a) → I d'.


Lemma guarantees_mono {A} (G1 G2 : relation DB) (p : proc A) :
  (∀ d d', G1 d d' → G2 d d') → guarantees G1 p → guarantees G2 p.
Proof. intros HG Hp n d. apply HG, Hp. Qed.

(** *** What a method that returned a value did *)

Lemma bind_Ok {A B} (p : proc A) (f : A → proc B) n d n' d' b :
  bind p f n d = (n', d', Ok b) → ∃ n1 d1 a, p n d = (n1, d1, Ok a) ∧ f a n1 d1 = (n', d', Ok b).
Proof. unfold bind. destruct (p n d) as [[n1 d1] [a|e]] eqn:Hp; [|done]. intros H. by exists n1, d1, a. Qed.

Lemma exec_Ok {A} ps (s : stmt A) n d n' d' a :
  exec ps s n d = (n', d', Ok a) →
  ∃ us lk, answer n = Answered us lk ∧ s (Microsecond * us) lk d = (d', Ok a) ∧ n' = S n.
Proof.
  unfold exec, apply_stmt. destruct (negb _); [done|]. destruct (answer n) as [us lk|e|us lk e]; [|done..].
  destruct (s _ lk d) as [d1 [a1|e1]] eqn:Hs; [|done]. intros [= <- <- <-]. by exists us, lk.
Qed.

Lemma query_Ok {A} ps (s : stmt A) n d n' d' a :
  query ps s n d = (n', d', Ok a) →
  ∃ us lk, answer n = Answered us lk ∧ s (Microsecond * us) lk (others n d) = (d', Ok a) ∧ n' = S n.
Proof. apply exec_Ok. Qed.

Lemma transaction_Ok {A} (body : proc A) n d n' d' a :
  transaction body n d = (n', d', Ok a) → ∃ n1, body (S n) (others n d) = (n1, d', Ok a) ∧ n' = S n1.
Proof.
  unfold transaction. destruct (answer n); [|done..].
  destruct (body (S n) (others n d)) as [[n1 d1] [a1|e1]]; [|done].
  destruct (answer n1); [|done..]. intros [= <- <- <-]. by exists n1.
Qed.

(** The clock as statement [n] read it. *)
Definition server_clock (n : nat) (t : Time) : Prop := ∃ us lk, answer n = Answered us lk ∧ t = Microsecond * us.

Lemma databaseTime_Ok n d n' d' t :
  databaseTime n d = (n', d', Ok t) → d' = d ∧ n' = S n ∧ server_clock n t.
Proof. intros (us & lk & Ha & [= <- <-] & ->)%exec_Ok. unfold server_clock. eauto 6. Qed.

(** A run that returned a value. *)
Definition returned {A} (x : nat * DB * res GoError A) : bool := match x.2 with Ok _ => true | Err _ => false end.
Lemma returned_Ok {A} (x : nat * DB * res GoError A) : returned x = true → ∃ a, x = (x.1.1, x.1.2, Ok a).
Proof. destruct x as [[n d] [a|e]]; [|done]. by exists a. Qed.
Lemma returned_Err {A} (x : nat * DB * res GoError A) : returned x = false → ∃ e, x = (x.1.1, x.1.2, Err e).
Proof. destruct x as [[n d] [a|e]]; [done|]. by exists e. Qed.

(** ** A server that answers

    When no other client interferes, the outcome of a method is that of its
    statements. *)
Definition quiet : Prop := ∀ n d, others n d = d.
End session.
Arguments Server : clear implicits.

(** Taking a successful session apart, one statement at a time. *)
Ltac session_Ok H :=
  let n1 := fresh "n" in let d1 := fresh "d" in let a := fresh "a" in let Hp := fresh "Hp" in
  apply bind_Ok in H as (n1 & d1 & a & Hp & H).

Declare Scope sql_scope.
Notation "'let+' x := p 'in' q" := (bind p (λ x, q)) (at level 200, x pattern, p at level 100, q at level 200) : sql_scope.
Notation "'do+' p 'in' q" := (bind p (λ _, q)) (at level 200, p at level 100, q at level 200) : sql_scope.
