(* ===== verification/Migrations.v ===== *)
(** * Database migrations (db.go)

    The embedded scripts are applied in the order of their names, each once,
    in one transaction under an advisory lock; before it serves, a process
    verifies that the database has all of them.  What a script does to the
    schema is the server's business: a parameter, as is the embedded file
    system.  The first script also creates [schema_migrations], which exists by
    then.

    A transaction runs at one point in time, so the advisory lock, which keeps
    two migrating processes apart, is a statement with no effect.  The server's
    code 42P01 (undefined table) is numbered 42001. *)

From stdpp Require Import base list gmap strings sorting.
From Stdlib Require Import ZArith Lia Ascii.
From S2P Require Import Prelude GoNum GoStrings NetworkPolicy Egress Domain Sql.
#[local] Open Scope string_scope.
#[local] Open Scope list_scope.
#[local] Open Scope Z_scope.
#[local] Open Scope sql_scope.

Definition undefined_table : GoError := ErrInfra 42001.
Definition is_undefined_table (e : GoError) : bool := match e with ErrInfra code => code =? 42001 | _ => false end.
(** "no embedded database migrations found". *)
Definition no_migrations : GoError := ErrInfra 1.

(** The directory [migrations] of the embedded file system: the names in a
    directory are distinct. *)
Record DirEntry := { entry_Name : string; entry_IsDir : bool }.
Class MigrationFiles (Schema : Type) := {
  ReadDir : res GoError (list DirEntry);
  ReadDir_names : ∀ entries, ReadDir = Ok entries → NoDup (map entry_Name entries);
  read_script : string → res GoError string;
  run_script : string → Schema → res GoError Schema;
}.

Record MigDB (Schema : Type) := mkMigDB { db_schema : Schema; schema_migrations : option (gset string) }.
Arguments mkMigDB {_} _ _.
Arguments db_schema {_} _.
Arguments schema_migrations {_} _.

(** [ErrDatabaseSchemaIncompatible] with its reason, or another error. *)
Inductive SchemaErr := MetadataMissing | MissingMigrations (versions : list string) | SchemaServer (e : GoError).

Section migrations.
Context {Schema : Type} `{MF : !MigrationFiles Schema} `{SV : !Server (MigDB Schema)}.
#[local] Abbreviation DB := (MigDB Schema).

Definition embeddedMigrationNames : res GoError (list string) :=
  match ReadDir with
  | Err e => Err e
  | Ok entries =>
      let names := SortFunc compareString (map entry_Name
        (List.filter (λ e, negb (entry_IsDir e || negb (HasSuffix (entry_Name e) ".sql"))) entries)) in
      match names with [] => Err no_migrations | _ => Ok names end
  end.

(** [strings.TrimSuffix(name, filepath.Ext(name))]: the names end in [.sql]. *)
Definition version_of (name : string) : string := TrimSuffix name ".sql".

(** ** Statements *)

Definition advisory_lock : stmt (DB := DB) unit := λ _ _ d, (d, Ok tt).
Definition create_table : stmt (DB := DB) unit := λ _ _ d,
  (mkMigDB (db_schema d) (Some (default ∅ (schema_migrations d))), Ok tt).
Definition select_version (version : string) : stmt (DB := DB) bool := λ _ _ d,
  match schema_migrations d with
  | None => (d, Err undefined_table)
  | Some versions => (d, Ok (bool_decide (version ∈ versions)))
  end.
Definition exec_script (sql : string) : stmt (DB := DB) unit := λ _ _ d,
  match run_script sql (db_schema d) with
  | Ok schema => (mkMigDB schema (schema_migrations d), Ok tt)
  | Err e => (d, Err e)
  end.
Definition insert_version (version : string) : stmt (DB := DB) unit := λ _ _ d,
  match schema_migrations d with
  | None => (d, Err undefined_table)
  | Some versions => if decide (version ∈ versions) then (d, Err unique_violation)
                     else (mkMigDB (db_schema d) (Some ({[version]} ∪ versions)), Ok tt)
  end.
Definition select_versions : stmt (DB := DB) (gset string) := λ _ _ d,
  match schema_migrations d with None => (d, Err undefined_table) | Some versions => (d, Ok versions) end.

(** ** Migrating *)

Definition migrationApplied (version : string) : proc bool :=
  do+ exec [] create_table in exec [text version] (select_version version).

Definition applyMigration (version sql : string) : proc unit :=
  do+ exec [] (exec_script sql) in exec [text version] (insert_version version).

Fixpoint migrate_loop (names : list string) : proc unit :=
  match names with
  | [] => ret tt
  | name :: names =>
      let version := version_of name in
      let+ applied := migrationApplied version in
      if applied then migrate_loop names
      else match read_script ("migrations/" +:+ name) with
      | Err e => fail e
      | Ok sql => do+ applyMigration version sql in migrate_loop names
      end
  end.

(** What [RunMigrationsWithTimeout] does between [Begin] and [Commit]. *)
Definition migrate : proc unit :=
  do+ exec [] advisory_lock in
  match embeddedMigrationNames with
  | Err e => fail e
  | Ok names => migrate_loop names
  end.
Definition RunMigrations : proc unit := transaction migrate.

(** ** Verifying *)

Definition missing_versions (applied : gset string) (names : list string) : list string :=
  List.filter (λ version, negb (bool_decide (version ∈ applied))) (map version_of names).

Definition VerifyPostgresSchema : proc (res SchemaErr unit) :=
  match embeddedMigrationNames with
  | Err e => ret (Err (SchemaServer e))
  | Ok names =>
      let+ r := try (query [] select_versions) in
      match r with
      | Err e => ret (Err (if is_undefined_table e then MetadataMissing else SchemaServer e))
      | Ok applied =>
          match missing_versions applied names with
          | [] => ret (Ok tt)
          | missing => ret (Err (MissingMigrations missing))
          end
      end
  end.

(** ** What a migration does *)

Definition versions (d : DB) : gset string := default ∅ (schema_migrations d).

(** The scripts of the versions that are not recorded, run in the order given. *)
Definition pending (recorded : gset string) (names : list string) : list string :=
  List.filter (λ name, negb (bool_decide (version_of name ∈ recorded))) names.
Fixpoint run_scripts (names : list string) (schema : Schema) : option Schema :=
  match names with
  | [] => Some schema
  | name :: names =>
      match read_script ("migrations/" +:+ name) with
      | Err _ => None
      | Ok sql => match run_script sql schema with Ok schema => run_scripts names schema | Err _ => None end
      end
  end.

Lemma migrationApplied_Ok version n d n' d' b :
  migrationApplied version n d = (n', d', Ok b) →
  db_schema d' = db_schema d ∧ schema_migrations d' = Some (versions d)
  ∧ b = bool_decide (version ∈ versions d).
Proof.
  intros H. session_Ok H. apply exec_Ok in Hp as (? & ? & _ & [= <- _] & _).
  apply exec_Ok in H as (? & ? & _ & [= <- <-] & _). done.
Qed.

Lemma applyMigration_Ok version sql n d n' d' :
  applyMigration version sql n d = (n', d', Ok tt) →
  run_script sql (db_schema d) = Ok (db_schema d')
  ∧ ∃ vs, schema_migrations d = Some vs ∧ version ∉ vs ∧ schema_migrations d' = Some ({[version]} ∪ vs).
Proof.
  intros H. session_Ok H. apply exec_Ok in Hp as (? & ? & _ & Hs & _). apply exec_Ok in H as (? & ? & _ & Hi & _).
  unfold exec_script in Hs. destruct (run_script sql (db_schema d)) as [schema|] eqn:Hr; [|done].
  injection Hs as <- _. unfold insert_version in Hi. cbn in Hi.
  destruct (schema_migrations d) as [vs|]; [|done]. destruct (decide _); [done|]. injection Hi as <-. eauto.
Qed.

Lemma pending_cons recorded name names :
  pending recorded (name :: names)
  = if bool_decide (version_of name ∈ recorded) then pending recorded names else name :: pending recorded names.
Proof. unfold pending. cbn. by case_bool_decide. Qed.

Lemma pending_fresh version vs names :
  version ∉ version_of <$> names → pending ({[version]} ∪ vs) names = pending vs names.
Proof.
  intros Hv. unfold pending. induction names as [|name names IH]; [done|]. cbn in *.
  apply not_elem_of_cons in Hv as [Hne Hv]. rewrite (IH Hv).
  by rewrite (bool_decide_ext (version_of name ∈ {[version]} ∪ vs) (version_of name ∈ vs)) by set_solver.
Qed.

Lemma migrate_loop_Ok names : ∀ n d n' d',
  NoDup (version_of <$> names) → migrate_loop names n d = (n', d', Ok tt) →
  run_scripts (pending (versions d) names) (db_schema d) = Some (db_schema d')
  ∧ versions d' = versions d ∪ list_to_set (version_of <$> names)
  ∧ (names ≠ [] → is_Some (schema_migrations d')) ∧ (is_Some (schema_migrations d) → is_Some (schema_migrations d')).
Proof.
  induction names as [|name names IH]; intros n d n' d' Hnd H.
  - injection H as <- <-. split; [done|]. split; [set_solver|done].
  - cbn [fmap list_fmap] in Hnd. apply NoDup_cons in Hnd as [Hnew Hnd].
    cbn [migrate_loop] in H. session_Ok H.
    apply migrationApplied_Ok in Hp as (Hsc & Hm & ->).
    assert (versions d0 = versions d) as Hv by (unfold versions at 1; by rewrite Hm).
    rewrite pending_cons. case_bool_decide as Hin.
    + apply IH in H as (H1 & H2 & _ & H4); [|done]. rewrite Hv, Hsc in *. rewrite H2. split; [done|].
      split; [cbn; set_solver|]. assert (is_Some (schema_migrations d')) by (apply H4; by rewrite Hm). done.
    + destruct (read_script _) as [sql|] eqn:Hread; [|done]. session_Ok H.
      destruct a. apply applyMigration_Ok in Hp as (Hrun & vs & Hvs & _ & Hm'). rewrite Hm in Hvs. injection Hvs as <-.
      apply IH in H as (H1 & H2 & _ & H4); [|done].
      assert (versions d1 = {[version_of name]} ∪ versions d) as Hv1 by (unfold versions at 1; by rewrite Hm').
      rewrite Hv1, (pending_fresh _ _ _ Hnew) in H1. cbn [run_scripts]. rewrite Hread, <- Hsc, Hrun.
      split; [done|]. split; [rewrite H2, Hv1; cbn; set_solver|].
      assert (is_Some (schema_migrations d')) by (apply H4; by rewrite Hm'). done.
Qed.

(** Nothing is pending: the schema stays. *)
Lemma pending_recorded recorded names :
  pending recorded names = [] ↔ ∀ name, name ∈ names → version_of name ∈ recorded.
Proof.
  unfold pending. induction names as [|name names IH]; cbn; [split; [intros _ x Hx; by apply elem_of_nil in Hx|done]|].
  case_bool_decide as Hin; cbn; [rewrite IH; set_solver|]. split; [done|]. intros H. destruct Hin. apply H. left.
Qed.

Lemma missing_pending recorded names : missing_versions recorded names = version_of <$> pending recorded names.
Proof.
  unfold missing_versions, pending. induction names as [|name names IH]; cbn; [done|].
  case_bool_decide; cbn; by rewrite IH.
Qed.

(** The names are in order and name distinct versions. *)
Lemma embedded_names names :
  embeddedMigrationNames = Ok names →
  StronglySorted (cmp_le compareString) names ∧ NoDup (version_of <$> names) ∧ names ≠ [].
Proof.
  unfold embeddedMigrationNames. destruct ReadDir as [entries|] eqn:Hd; [|done]. cbn zeta.
  set (kept := map entry_Name _). intros H.
  assert (names = SortFunc compareString kept ∧ names ≠ []) as [-> Hne].
  { destruct (SortFunc compareString kept); [done|]. by injection H as <-. }
  split; [apply (SortFunc_sorted _)|]. split; [|done].
  assert (NoDup kept ∧ Forall (λ name, HasSuffix name ".sql" = true) kept) as [Hnd Hsql].
  { pose proof (ReadDir_names _ Hd) as Hnd. clear Hd H Hne. subst kept. split.
    - by apply (NoDup_fmap_filter entry_Name).
    - apply Forall_forall. intros x (e & -> & He)%list_elem_of_fmap. apply elem_of_filter_bool in He as [_ He].
      destruct (entry_IsDir e), (HasSuffix (entry_Name e) ".sql"); done. }
  rewrite (SortFunc_Permutation compareString kept). clear H Hne.
  induction kept as [|name kept IH]; cbn; [constructor|].
  apply NoDup_cons in Hnd as [Hnew Hnd]. apply Forall_cons in Hsql as [Hs Hsql].
  apply NoDup_cons. split; [|by apply IH].
  intros (other & Heq & Hin)%list_elem_of_fmap. destruct Hnew. rewrite Forall_forall in Hsql.
  apply Hsql in Hin as Ho. unfold version_of in Heq.
  by rewrite (TrimSuffix_app name ".sql" Hs), Heq, <- (TrimSuffix_app other ".sql" Ho).
Qed.

(** The version table only grows, and stays. *)
Definition recorded_more (d d' : DB) : Prop :=
  versions d ⊆ versions d' ∧ (is_Some (schema_migrations d) → is_Some (schema_migrations d')).

Lemma RunMigrations_Ok n d n' d' :
  RunMigrations n d = (n', d', Ok tt) →
  ∃ names, embeddedMigrationNames = Ok names
  ∧ run_scripts (pending (versions (others n d)) names) (db_schema (others n d)) = Some (db_schema d')
  ∧ versions d' = versions (others n d) ∪ list_to_set (version_of <$> names)
  ∧ is_Some (schema_migrations d').
Proof.
  intros (n1 & H & _)%transaction_Ok. session_Ok H. apply exec_Ok in Hp as (? & ? & _ & [= <- _] & _).
  destruct embeddedMigrationNames as [names|] eqn:Hn; [|done]. exists names. split; [done|].
  destruct (embedded_names _ Hn) as (_ & Hnd & Hne).
  destruct (migrate_loop_Ok _ _ _ _ _ Hnd H) as (H1 & H2 & H3 & _). eauto.
Qed.

(** The tables up to the existence of an empty version table. *)
Definition same_data (d d' : DB) : Prop := db_schema d' = db_schema d ∧ versions d' = versions d.
#[local] Instance same_data_preorder : PreOrder same_data.
Proof.
  split; [by intros d|]. intros d1 d2 d3 [H1 H2] [H3 H4]. split; congruence.
Qed.

Lemma migrationApplied_guarantees version : guarantees same_data (migrationApplied version).
Proof.
  apply (guarantees_bind same_data); [|intros _]; apply (guarantees_exec same_data); intros now lk d d' a Hs.
  - injection Hs as <- _. done.
  - unfold select_version in Hs. destruct (schema_migrations d); [|done]. injection Hs as <- _. done.
Qed.

(** With every version recorded, the loop leaves the data. *)
Lemma migrate_loop_recorded names : ∀ n d,
  (∀ name, name ∈ names → version_of name ∈ versions d) → same_data d (migrate_loop names n d).1.2.
Proof.
  induction names as [|name names IH]; intros n d Hall; [done|].
  cbn [migrate_loop]. unfold bind at 1. pose proof (migrationApplied_guarantees (version_of name) n d) as Hsame.
  destruct (migrationApplied (version_of name) n d) as [[n1 d1] [b|e]] eqn:Ha; [|exact Hsame]. cbn in Hsame.
  apply migrationApplied_Ok in Ha as (_ & _ & ->). rewrite bool_decide_true by (apply Hall; left).
  etrans; [exact Hsame|]. apply IH. intros x Hx. rewrite (proj2 Hsame). apply Hall. by right.
Qed.

Lemma RunMigrations_recorded names n d :
  embeddedMigrationNames = Ok names → (∀ name, name ∈ names → version_of name ∈ versions (others n d)) →
  same_data (others n d) (RunMigrations n d).1.2.
Proof.
  intros Hn Hall. unfold RunMigrations, transaction. destruct (answer n); [|done..].
  assert (same_data (others n d) (migrate (S n) (others n d)).1.2) as Hbody.
  { unfold migrate, bind, exec, apply_stmt, advisory_lock. cbn [forallb negb]. rewrite Hn.
    destruct (answer (S n)); [|done..]. by apply migrate_loop_recorded. }
  destruct (migrate (S n) (others n d)) as [[n1 d1] [a|e]]; [|done]. by destruct (answer n1).
Qed.

Lemma missing_none recorded names : missing_versions recorded names = [] ↔ ∀ name, name ∈ names → version_of name ∈ recorded.
Proof.
  rewrite missing_pending, <- pending_recorded. by destruct (pending recorded names).
Qed.

(** C26: A migration that returns success ran the scripts of exactly the
    versions not yet recorded, in the order of their names, each once, and left
    every embedded version recorded. From then on, as long as records are only
    added, the start-up check accepts the database whenever its query is
    answered, and migrating again, whatever its result, changes neither the
    schema nor the records. *)
Theorem migrations_applied_once n d n' d' :
  RunMigrations n d = (n', d', Ok tt) →
  ∃ names, embeddedMigrationNames = Ok names
  ∧ StronglySorted (cmp_le compareString) names ∧ NoDup (version_of <$> names)
  ∧ run_scripts (pending (versions (others n d)) names) (db_schema (others n d)) = Some (db_schema d')
  ∧ versions d' = versions (others n d) ∪ list_to_set (version_of <$> names)
  ∧ ∀ m d2, recorded_more d' (others m d2) →
      same_data (others m d2) (RunMigrations m d2).1.2
      ∧ (∀ us lk, answer m = Answered us lk → VerifyPostgresSchema m d2 = (S m, others m d2, Ok (Ok tt))).
Proof.
  intros H. apply RunMigrations_Ok in H as (names & Hn & Hrun & Hv & Hsome).
  destruct (embedded_names _ Hn) as (Hs & Hnd & _). exists names. split; [done|]. do 4 (split; [done|]).
  intros m d2 [Hsub Hkeep]. assert (∀ name, name ∈ names → version_of name ∈ versions (others m d2)) as Hall.
  { intros name Hname. apply Hsub. rewrite Hv. apply elem_of_union_r, elem_of_list_to_set, list_elem_of_fmap. eauto. }
  split; [by apply (RunMigrations_recorded names)|]. intros us lk Ha.
  unfold VerifyPostgresSchema. rewrite Hn. unfold bind, try, query, exec, apply_stmt, select_versions.
  cbn [forallb negb]. rewrite Ha. destruct (Hkeep Hsome) as [vs Hvs]. rewrite Hvs.
  unfold versions in Hall. rewrite Hvs in Hall. by rewrite (proj2 (missing_none vs names) Hall).
Qed.

(** The start-up check accepts a database exactly when it answers and has
    a record of every embedded version; it reports the missing ones in the order
    of their names, and the absence of the version table; it changes nothing. *)
Lemma schema_verified n d :
  ∃ n' r, VerifyPostgresSchema n d = (n', match embeddedMigrationNames with Ok _ => others n d | Err _ => d end, Ok r)
  ∧ match r with
    | Ok _ => ∃ names vs, embeddedMigrationNames = Ok names ∧ schema_migrations (others n d) = Some vs
              ∧ ∀ name, name ∈ names → version_of name ∈ vs
    | Err (MissingMigrations ms) =>
        ∃ names vs, embeddedMigrationNames = Ok names ∧ schema_migrations (others n d) = Some vs
        ∧ ms ≠ [] ∧ ms = version_of <$> pending vs names
    | Err MetadataMissing =>
        schema_migrations (others n d) = None ∨ answer n = NotRun undefined_table
        ∨ ∃ us lk, answer n = ReplyLost us lk undefined_table
    | Err (SchemaServer _) => True
    end.
Proof.
  unfold VerifyPostgresSchema. destruct embeddedMigrationNames as [names|e]; [|by eexists n, _].
  unfold bind, try, query, exec, apply_stmt, select_versions. cbn [forallb negb].
  assert (∀ e, ∃ r, @ret DB _ (Err (if is_undefined_table e then MetadataMissing else SchemaServer e) : res SchemaErr unit)
      (S n) (others n d) = (S n, others n d, Ok r)
      ∧ (e = undefined_table ∧ r = Err MetadataMissing ∨ r = Err (SchemaServer e))) as Herr.
  { intros e. eexists. split; [done|]. destruct (is_undefined_table e) eqn:He; [left|by right].
    unfold is_undefined_table in He. destruct e; try done. by apply Z.eqb_eq in He as ->. }
  destruct (answer n) as [us lk|e|us lk e] eqn:Ha.
  - destruct (schema_migrations (others n d)) as [vs|] eqn:Hvs.
    + destruct (missing_versions vs names) as [|m ms] eqn:Hm.
      * exists (S n), (Ok tt). split; [done|]. exists names, vs. repeat (split; [done|]). by apply missing_none.
      * exists (S n), (Err (MissingMigrations (m :: ms))). split; [done|].
        exists names, vs. repeat (split; [done|]). by rewrite <- missing_pending.
    + exists (S n), (Err MetadataMissing). by eauto.
  - destruct (Herr e) as (r & -> & Hr). exists (S n), r. split; [done|].
    destruct Hr as [[-> ->]| ->]; [by eauto|done].
  - assert (∀ x : MigDB Schema * res GoError (gset string), x = match schema_migrations (others n d) with
        | Some vs => (others n d, Ok vs) | None => (others n d, Err undefined_table) end →
        (match x with (d', Ok a) => (d', Ok a) | (_, Err e0) => (others n d, Err e0) end).1 = others n d) as Hsame.
    { intros x ->. by destruct (schema_migrations (others n d)). }
    rewrite (Hsame _ eq_refl). destruct (Herr e) as (r & -> & Hr). exists (S n), r. split; [done|].
    destruct Hr as [[-> ->]| ->]; [eauto|done].
Qed.
End migrations.

(** ** A database migrated in two steps

    Three files, of which [b.sql] was applied by an earlier build; the schema
    is the list of the scripts it has seen. *)
Definition sample_files : MigrationFiles (list string).
Proof.
  refine {| ReadDir := Ok [Build_DirEntry "c.sql" false; Build_DirEntry "readme" false; Build_DirEntry "b.sql" false;
                           Build_DirEntry "old.sql" true; Build_DirEntry "a.sql" false];
            read_script := λ name, Ok name;
            run_script := λ sql schema, Ok (schema ++ [sql]) |}.
  intros entries [= <-]. cbn. repeat constructor; set_solver.
Defined.
Definition sample_mig_server : Server (MigDB (list string)) :=
  {| answer n := Answered (Z.of_nat n) ∅; others _ d := d |}.
#[export] Existing Instances sample_files sample_mig_server.
Definition sample_mig_db : MigDB (list string) := mkMigDB ["migrations/b.sql"] (Some {["b"]}).

Lemma migrations_applied_once_witness :
  let run := RunMigrations 0%nat sample_mig_db in
  db_schema run.1.2 = ["migrations/b.sql"; "migrations/a.sql"; "migrations/c.sql"]
  ∧ ∃ names, embeddedMigrationNames = Ok names
    ∧ versions run.1.2 = versions sample_mig_db ∪ list_to_set (version_of <$> names)
    ∧ VerifyPostgresSchema run.1.1 run.1.2 = (S run.1.1, run.1.2, Ok (Ok tt)).
Proof.
  cbn zeta. split; [by vm_compute|].
  destruct (migrations_applied_once 0%nat sample_mig_db (RunMigrations 0%nat sample_mig_db).1.1 (RunMigrations 0%nat sample_mig_db).1.2)
    as (names & Hn & _ & _ & _ & Hv & Hlater).
  { by vm_compute. }
  exists names. split; [exact Hn|]. split; [exact Hv|].
  destruct (Hlater (RunMigrations 0%nat sample_mig_db).1.1 (RunMigrations 0%nat sample_mig_db).1.2) as [_ Hverify].
  - split; done.
  - by eapply Hverify.
Defined.
