(* ===== verification/PgSchema.v ===== *)
(** * The database schema (migrations/*.sql, the scan functions of postgres_repository.go)

    The rows of the five tables after all migrations, with nullable columns as
    options, and how a row becomes the value the repository returns.  The
    columns [pending], [pending_since] and [pending_job_id] of [monitors] are
    deprecated and no statement mentions them. *)

From stdpp Require Import base list gmap strings.
From Stdlib Require Import ZArith Lia Ascii.
From S2P Require Import Prelude GoNum GoStrings NetworkPolicy Egress Domain Alert Sql.
#[local] Open Scope string_scope.
#[local] Open Scope list_scope.
#[local] Open Scope Z_scope.

(** ** Rows *)

Record monitor_row := mkMonitorRow {
  m_id : string; m_url : string; m_interval_seconds : Z; m_timeout_seconds : Z; m_expected_status : Z;
  m_status : MonitorStatus; m_enabled : bool; m_next_check_at : Time; m_created_at : Time; m_updated_at : Time;
  m_last_status_code : option Z; m_last_latency_ms : option Z; m_last_checked_at : option Time; m_last_error : string;
}.
#[export] Instance eta_monitor_row : Eta monitor_row := λ r,
  mkMonitorRow (m_id r) (m_url r) (m_interval_seconds r) (m_timeout_seconds r) (m_expected_status r) (m_status r)
    (m_enabled r) (m_next_check_at r) (m_created_at r) (m_updated_at r) (m_last_status_code r)
    (m_last_latency_ms r) (m_last_checked_at r) (m_last_error r).

Record job_row := mkJobRow {
  j_id : string; j_monitor_id : string; j_kind : CheckJobKind; j_scheduled_for : Time; j_status : CheckJobStatus;
  j_attempt : Z; j_available_at : Time; j_published_at : option Time; j_processing_started_at : option Time;
  j_lease_expires_at : option Time; j_lease_token : option string; j_completed_at : option Time;
  j_last_error : string; j_created_at : Time; j_updated_at : Time; j_publication_token : option string;
}.
#[export] Instance eta_job_row : Eta job_row := λ r,
  mkJobRow (j_id r) (j_monitor_id r) (j_kind r) (j_scheduled_for r) (j_status r) (j_attempt r) (j_available_at r)
    (j_published_at r) (j_processing_started_at r) (j_lease_expires_at r) (j_lease_token r) (j_completed_at r)
    (j_last_error r) (j_created_at r) (j_updated_at r) (j_publication_token r).

Record result_row := mkResultRow {
  c_id : string; c_job_id : option string; c_monitor_id : string; c_status_code : Z; c_latency_ms : Z;
  c_error : string; c_success : bool; c_checked_at : Time; c_recorded_at : Time;
}.

Record incident_row := mkIncidentRow {
  i_id : string; i_monitor_id : string; i_status : IncidentStatus; i_failure_count : Z; i_first_failure_at : Time;
  i_last_failure_at : Time; i_resolved_at : option Time; i_last_error : string; i_last_alerted_at : option Time;
  i_alert_count : Z; i_created_at : Time; i_updated_at : Time;
}.
#[export] Instance eta_incident_row : Eta incident_row := λ r,
  mkIncidentRow (i_id r) (i_monitor_id r) (i_status r) (i_failure_count r) (i_first_failure_at r)
    (i_last_failure_at r) (i_resolved_at r) (i_last_error r) (i_last_alerted_at r) (i_alert_count r)
    (i_created_at r) (i_updated_at r).

Inductive AlertStatus := alertPending | alertProcessing | alertDelivered | alertDead.
#[export] Instance AlertStatus_eq_dec : EqDecision AlertStatus.
Proof. solve_decision. Defined.

Record alert_row := mkAlertRow {
  a_id : string; a_idempotency_key : string; a_incident_id : string; a_monitor_id : string; a_event_type : string;
  a_payload : AlertPayload; a_status : AlertStatus; a_attempt_count : Z; a_available_at : Time;
  a_lease_token : option string; a_locked_until : option Time; a_delivered_at : option Time; a_last_error : string;
  a_created_at : Time; a_updated_at : Time;
}.
#[export] Instance eta_alert_row : Eta alert_row := λ r,
  mkAlertRow (a_id r) (a_idempotency_key r) (a_incident_id r) (a_monitor_id r) (a_event_type r) (a_payload r)
    (a_status r) (a_attempt_count r) (a_available_at r) (a_lease_token r) (a_locked_until r) (a_delivered_at r)
    (a_last_error r) (a_created_at r) (a_updated_at r).

Record Tables := mkTables {
  monitors : gmap string monitor_row;
  check_jobs : gmap string job_row;
  check_results : gmap string result_row;
  incidents : gmap string incident_row;
  alert_outbox : gmap string alert_row;
}.
#[export] Instance eta_Tables : Eta Tables := λ d,
  mkTables (monitors d) (check_jobs d) (check_results d) (incidents d) (alert_outbox d).

Definition empty_tables : Tables := mkTables ∅ ∅ ∅ ∅ ∅.

(** ** Reading rows *)

Definition scanCheckJob (r : job_row) : CheckJobRecord :=
  mkCheckJobRecord (j_id r) (j_monitor_id r) (j_kind r) (j_scheduled_for r) (j_status r) (j_attempt r)
    (j_available_at r) (default time_zero (j_published_at r)) (default time_zero (j_processing_started_at r))
    (default time_zero (j_lease_expires_at r)) (default "" (j_lease_token r)) (default "" (j_publication_token r))
    (default time_zero (j_completed_at r)) (j_last_error r) (j_created_at r) (j_updated_at r).

Definition scanMonitor (r : monitor_row) : Monitor :=
  mkMonitor (m_id r) (m_url r) (m_interval_seconds r) (m_timeout_seconds r) (m_expected_status r) (m_status r)
    (m_enabled r) (m_next_check_at r) (m_created_at r) (m_updated_at r) (default 0 (m_last_status_code r))
    (default 0 (m_last_latency_ms r)) (default time_zero (m_last_checked_at r)) (m_last_error r).

(** [COALESCE(job_id, '')]. *)
Definition scanCheckRecord (r : result_row) : CheckRecord :=
  mkCheckRecord (c_id r) (default "" (c_job_id r)) (c_monitor_id r) (c_status_code r) (c_latency_ms r) (c_error r)
    (c_success r) (c_checked_at r).

Definition scanIncident (r : incident_row) : Incident :=
  mkIncident (i_id r) (i_monitor_id r) (i_status r) (i_failure_count r) (i_first_failure_at r)
    (i_last_failure_at r) (default time_zero (i_resolved_at r)) (i_last_error r)
    (default time_zero (i_last_alerted_at r)) (i_alert_count r) (i_created_at r) (i_updated_at r).

(** ** Conditions the statements share *)

(** [status IN ('scheduled', 'queued', 'processing', 'failed')]. *)
Definition job_active (r : job_row) : bool :=
  match j_status r with checkJobStatusCompleted | checkJobStatusDead => false | _ => true end.
Definition job_is (st : CheckJobStatus) (r : job_row) : bool := bool_decide (j_status r = st).
Definition active_of (monitorID : string) (r : job_row) : bool :=
  String.eqb (j_monitor_id r) monitorID && job_active r.

Definition incident_open (r : incident_row) : bool := bool_decide (i_status r = incidentStatusOpen).
Definition open_of (monitorID : string) (r : incident_row) : bool :=
  String.eqb (i_monitor_id r) monitorID && incident_open r.
Definition alert_is (st : AlertStatus) (r : alert_row) : bool := bool_decide (a_status r = st).

(** Comparing a nullable column: NULL makes the condition fail. *)
Definition col_le (c : option Time) (t : Time) : bool := match c with Some x => x <=? t | None => false end.
Definition col_gt (c : option Time) (t : Time) : bool := match c with Some x => t <? x | None => false end.
Definition col_is (c : option string) (s : string) : bool := match c with Some x => String.eqb x s | None => false end.

(** ** Constraints *)

(** The CHECK constraints of [monitors]; [char_length] counts characters. *)
Definition monitor_check (r : monitor_row) : bool :=
  (30 <=? m_interval_seconds r) && (m_interval_seconds r <=? 86400)
  && (1 <=? m_timeout_seconds r) && (m_timeout_seconds r <=? 60)
  && (100 <=? m_expected_status r) && (m_expected_status r <=? 599)
  && (RuneCountInString (m_url r) <=? 8192).

(** The CHECK constraint that ties an alert's lease to its status. *)
Definition alert_check (r : alert_row) : bool :=
  (0 <=? a_attempt_count r)
  && match a_status r, a_lease_token r, a_locked_until r with
     | alertProcessing, Some _, Some _ => true
     | alertProcessing, _, _ => false
     | _, None, None => true
     | _, _, _ => false
     end.

Definition job_check (r : job_row) : bool := 0 <=? j_attempt r.

Section unique.
Context {R K : Type} `{EqDecision K}.

(** [CREATE UNIQUE INDEX ON t (key) WHERE p], and [REFERENCES]. *)
Definition unique_where (p : R → bool) (key : R → K) (t : gmap string R) : Prop :=
  ∀ k1 k2 r1 r2, t !! k1 = Some r1 → t !! k2 = Some r2 → p r1 = true → p r2 = true → key r1 = key r2 → k1 = k2.
Definition refers {S} (key : R → string) (t : gmap string R) (u : gmap string S) : Prop :=
  ∀ k r, t !! k = Some r → is_Some (u !! key r).

Lemma unique_update p key q f t :
  unique_where p key t → (∀ r, key (f r) = key r) → (∀ r, q r = true → p (f r) = true → p r = true) →
  unique_where p key (update_rows q f t).
Proof.
  intros Ht Hk Hp k1 k2 r1 r2 (x1 & H1 & ->)%lookup_update_rows_Some (x2 & H2 & ->)%lookup_update_rows_Some.
  assert (∀ x, p (if q x then f x else x) = true → p x = true) as Hp'.
  { intros x. destruct (q x) eqn:Hq; [by apply Hp|done]. }
  assert (∀ x, key (if q x then f x else x) = key x) as Hk' by (intros x; destruct (q x); [apply Hk|done]).
  intros Hp1%Hp' Hp2%Hp'. rewrite !Hk'. by apply Ht.
Qed.

Lemma unique_delete p key q t : unique_where p key t → unique_where p key (delete_rows q t).
Proof. intros Ht k1 k2 r1 r2 [H1 _]%lookup_delete_rows_Some [H2 _]%lookup_delete_rows_Some. by apply Ht. Qed.

Lemma unique_insert p key t k r :
  unique_where p key t → (∀ k' r', t !! k' = Some r' → p r' = true → key r' = key r → p r = true → k' = k) →
  unique_where p key (<[k := r]> t).
Proof.
  intros Ht Hn k1 k2 r1 r2 [[<- <-]|[Hne1 H1]]%lookup_insert_Some [[<- <-]|[Hne2 H2]]%lookup_insert_Some; [done| | |by apply Ht].
  - intros Hp1 Hp2 Hk. symmetry. by eapply Hn.
  - intros Hp1 Hp2 Hk. by eapply Hn.
Qed.

Lemma refers_update {S} key q f t (u : gmap string S) :
  refers key t u → (∀ r, key (f r) = key r) → refers key (update_rows q f t) u.
Proof.
  intros Ht Hk k r (x & Hx & ->)%lookup_update_rows_Some. destruct (q x); [rewrite Hk|]; by eapply Ht.
Qed.
Lemma refers_delete {S} key q t (u : gmap string S) : refers key t u → refers key (delete_rows q t) u.
Proof. intros Ht k r [Hk _]%lookup_delete_rows_Some. by eapply Ht. Qed.
Lemma refers_insert {S} key t (u : gmap string S) k r :
  refers key t u → is_Some (u !! key r) → refers key (<[k := r]> t) u.
Proof. intros Ht Hr i x [[<- <-]|[_ Hx]]%lookup_insert_Some; [done|by eapply Ht]. Qed.
(** The referenced table may gain rows, and keeps the keys of updated ones. *)
Lemma refers_dom {S S'} key t (u : gmap string S) (u' : gmap string S') :
  refers key t u → dom u ⊆ dom u' → refers key t u'.
Proof. intros Ht Hd k r Hk. apply elem_of_dom, Hd, elem_of_dom. by eapply Ht. Qed.

Lemma rows_update (P : R → Prop) q f (t : gmap string R) :
  map_Forall (λ _, P) t → (∀ r, P r → q r = true → P (f r)) → map_Forall (λ _, P) (update_rows q f t).
Proof.
  intros Ht Hf k r (x & Hx & ->)%lookup_update_rows_Some. destruct (q x) eqn:Hq; [apply Hf; [|done]|]; by eapply Ht.
Qed.
Lemma rows_delete (P : R → Prop) q (t : gmap string R) :
  map_Forall (λ _, P) t → map_Forall (λ _, P) (delete_rows q t).
Proof. intros Ht k r [Hk _]%lookup_delete_rows_Some. by eapply Ht. Qed.
End unique.

Lemma dom_update_rows {R} (p : R → bool) f t : dom (update_rows p f t) = dom t.
Proof. unfold update_rows. by rewrite dom_fmap_L. Qed.

(** ** The invariant of the tables

    The constraints of the schema, and what the code keeps beyond them: a job
    that is being processed, and no other, holds a lease token with an expiry,
    and has been attempted; a monitor's status follows its switch; resolved
    incidents, and no others, have a resolution time. *)

Definition job_row_ok (r : job_row) : Prop :=
  job_check r = true ∧
  if decide (j_status r = checkJobStatusProcessing)
  then is_Some (j_lease_expires_at r) ∧ (∃ tok, j_lease_token r = Some tok ∧ tok ≠ "") ∧ 1 <= j_attempt r
  else j_lease_token r = None.

Definition monitor_row_ok (r : monitor_row) : Prop :=
  monitor_check r = true ∧ (m_status r = monitorStatusActive ↔ m_enabled r = true).

Definition incident_row_ok (r : incident_row) : Prop :=
  (i_status r = incidentStatusResolved ↔ is_Some (i_resolved_at r)).

Definition always {R} (_ : R) : bool := true.

Record tables_wf (d : Tables) : Prop := {
  tw_monitors : keyed m_id (monitors d);
  tw_monitor_rows : map_Forall (λ _, monitor_row_ok) (monitors d);
  tw_url : unique_where always m_url (monitors d);
  tw_jobs : keyed j_id (check_jobs d);
  tw_job_rows : map_Forall (λ _, job_row_ok) (check_jobs d);
  tw_one_active : unique_where job_active j_monitor_id (check_jobs d);
  tw_job_monitor : refers j_monitor_id (check_jobs d) (monitors d);
  tw_results : keyed c_id (check_results d);
  tw_result_job : unique_where (λ r, bool_decide (is_Some (c_job_id r))) c_job_id (check_results d);
  tw_result_monitor : refers c_monitor_id (check_results d) (monitors d);
  tw_incidents : keyed i_id (incidents d);
  tw_incident_rows : map_Forall (λ _, incident_row_ok) (incidents d);
  tw_one_open : unique_where incident_open i_monitor_id (incidents d);
  tw_incident_monitor : refers i_monitor_id (incidents d) (monitors d);
  tw_alerts : keyed a_id (alert_outbox d);
  tw_alert_rows : map_Forall (λ _ r, alert_check r = true) (alert_outbox d);
  tw_alert_key : unique_where always a_idempotency_key (alert_outbox d);
  tw_alert_incident : refers a_incident_id (alert_outbox d) (incidents d);
  tw_alert_monitor : refers a_monitor_id (alert_outbox d) (monitors d);
}.

Lemma empty_tables_wf : tables_wf empty_tables.
Proof.
  split; try (intros ????; cbn; by rewrite lookup_empty); try (intros ??; cbn; by rewrite lookup_empty);
    intros ???? H; cbn in H; by rewrite lookup_empty in H.
Qed.
