(* ===== verification/Postgres.v ===== *)
(** * The PostgreSQL repository: monitors, jobs and results (postgres_repository.go)

    [PostgresMonitorRepository], one definition per method ([pg_] and the
    method's name).  The statements of a method are functions on the tables;
    [exec] and [query] send them, [transaction] is [Begin ... Commit] with the
    deferred rollback.  The slices made for a limit are taken to be within the
    capacity [make] accepts: limits are configured between 1 and 1000. *)

From stdpp Require Import base list gmap strings.
From Stdlib Require Import ZArith Lia Ascii.
From Corelib Require Import SpecFloat.
From S2P Require Import Prelude GoNum GoStrings NetworkPolicy Egress Domain History Store Alert Sql PgSchema.
#[local] Open Scope string_scope.
#[local] Open Scope list_scope.
#[local] Open Scope Z_scope.
#[local] Open Scope sql_scope.
#[local] Abbreviation proc := (Sql.proc (DB:=Tables)).
#[local] Abbreviation stmt := (Sql.stmt (DB:=Tables)).

(** The order of [text] columns is that of the database's collation, which
    tells different strings apart. *)
Class Collation := {
  collate : string → string → Z;
  collate_good :: GoodCmp collate;
  collate_antisym a b : collate a b <= 0 → collate b a <= 0 → a = b;
}.

Definition isUniqueViolation (e : GoError) : bool :=
  match e with ErrInfra code => code =? 23505 | _ => false end.

Record AlertPolicy := { Enabled : bool; FailureThreshold : Z; Cooldown : Z }.

Section repository.
Context `{UN : !Unicode, UP : !URLParser, MR : !MapRange, SV : !Server Tables, CO : !Collation}.

Definition read {A} (ps : list param) (f : Tables → A) : proc A := query ps (λ _ _ d, (d, Ok (f d))).
Definition tx_read {A} (ps : list param) (f : Tables → A) : proc A := exec ps (λ _ _ d, (d, Ok (f d))).

(** ** Monitors *)

Definition pg_Count : proc Z := read [] (λ d, Z.of_nat (size (monitors d))).

(** Writing a monitor: its CHECK constraints, then the unique URL. *)
Definition put_monitor (row : monitor_row) (d : Tables) : Tables * res GoError (option monitor_row) :=
  if negb (monitor_check row) then (d, Err check_violation)
  else if exists_row (λ r, String.eqb (m_url r) (m_url row) && negb (String.eqb (m_id r) (m_id row))) (monitors d)
  then (d, Err unique_violation)
  else (d <| monitors := <[m_id row := row]> (monitors d) |>, Ok (Some row)).

Definition insert_monitor (row : Time → monitor_row) : stmt (option monitor_row) := λ now _ d,
  match monitors d !! m_id (row now) with
  | Some _ => (d, Err (if monitor_check (row now) then unique_violation else check_violation))
  | None => put_monitor (row now) d
  end.

(** [isUniqueViolation] and [pgx.ErrNoRows] become the repository's errors. *)
Definition monitor_result (r : res GoError (option monitor_row)) : proc monitor_row :=
  match r with
  | Err e => fail (if isUniqueViolation e then ErrMonitorExists else e)
  | Ok None => fail ErrMonitorNotFound
  | Ok (Some row) => ret row
  end.

Definition pg_Create (p : NetworkPolicy) (input : MonitorInput) (rnd : Entropy) : proc Monitor :=
  match validateMonitorInput input p with
  | Some err => fail err
  | None =>
      let enabled := default true (in_Enabled input) in
      let status := if enabled then monitorStatusActive else monitorStatusDisabled in
      let row now :=
        mkMonitorRow (newMonitorID rnd) (in_URL input) (in_IntervalSeconds input) (in_TimeoutSeconds input)
          (in_ExpectedStatus input) status enabled now now now None None None "" in
      let+ r := try (query [text (newMonitorID rnd); text (in_URL input); int4 (in_IntervalSeconds input);
                            int4 (in_TimeoutSeconds input); int4 (in_ExpectedStatus input)] (insert_monitor row)) in
      let+ row := monitor_result r in
      ret (scanMonitor row)
  end.

(** [ORDER BY created_at, id OFFSET offset LIMIT limit]; a negative number is
    an error of the server. *)
Definition page_rows {R} (cmp : R → R → Z) (offset limit : Z) (rows : list R) : res GoError (list R) :=
  if (offset <? 0) || (limit <? 0) then Err invalid_parameter else Ok (order_limit cmp offset limit rows).

Definition compare_monitor_rows (a b : monitor_row) : Z :=
  if m_created_at a =? m_created_at b then collate (m_id a) (m_id b) else TimeCompare (m_created_at a) (m_created_at b).

Definition pg_List (offset limit : Z) : proc (list Monitor * Z) :=
  let+ total := pg_Count in
  let+ rows := query [] (λ _ _ d, (d, page_rows compare_monitor_rows offset limit (map_range (monitors d)).*2)) in
  ret (scanMonitor <$> rows, total).

Definition pg_Get (id : string) : proc Monitor :=
  let+ row := read [text id] (λ d, monitors d !! id) in
  match row with None => fail ErrMonitorNotFound | Some row => ret (scanMonitor row) end.

(** The row written by [UPDATE monitors SET ...]. *)
Definition updated_row (row : monitor_row) (updated : Monitor) (semanticsChanged : bool) : monitor_row :=
  mkMonitorRow (m_id row) (mon_URL updated) (mon_IntervalSeconds updated) (mon_TimeoutSeconds updated)
    (mon_ExpectedStatus updated) (mon_Status updated) (mon_Enabled updated) (timestamptz (mon_NextCheckAt updated))
    (m_created_at row) (timestamptz (mon_UpdatedAt updated))
    (if semanticsChanged then None else m_last_status_code row)
    (if semanticsChanged then None else m_last_latency_ms row)
    (if semanticsChanged then None else m_last_checked_at row)
    (if semanticsChanged then "" else m_last_error row).

Definition resolved_row (now : Time) (r : incident_row) : incident_row :=
  r <| i_status := incidentStatusResolved |> <| i_resolved_at := Some now |> <| i_updated_at := now |>.

Definition resolve_open (monitorID : string) (now : Time) (d : Tables) : Tables :=
  d <| incidents := update_rows (open_of monitorID) (resolved_row now) (incidents d) |>.

(** A job that will not run again. *)
Definition finished_row (st : CheckJobStatus) (lastError : string) (now : Time) (r : job_row) : job_row :=
  r <| j_status := st |> <| j_completed_at := Some now |> <| j_processing_started_at := None |>
    <| j_lease_expires_at := None |> <| j_lease_token := None |> <| j_last_error := lastError |>
    <| j_updated_at := now |>.

Definition kill_active (monitorID : string) (now : Time) (jobError : string) (d : Tables) : Tables :=
  d <| check_jobs := update_rows (active_of monitorID) (finished_row checkJobStatusDead jobError now) (check_jobs d) |>.

(** The Go side of [Update]: the monitor to write. *)
Definition update_target (current updated : Monitor) (now : Time) : Monitor :=
  let updated := updated <| mon_UpdatedAt := now |> in
  if mon_Enabled updated
  then updated <| mon_Status := monitorStatusActive |> <| mon_NextCheckAt := rescheduled updated current now |>
  else updated <| mon_Status := monitorStatusDisabled |>.

Definition pg_Update (p : NetworkPolicy) (id : string) (patch : MonitorPatch) : proc Monitor :=
  transaction (
    let+ row := tx_read [text id] (λ d, monitors d !! id) in
    match row with
    | None => fail ErrMonitorNotFound
    | Some row =>
        let current := scanMonitor row in
        let updated := apply_patch current patch in
        match validateMonitorInput (input_of_monitor updated) p with
        | Some err => fail err
        | None =>
            let+ now := databaseTime in
            let semanticsChanged := checkSemanticsChanged updated current in
            let updated := update_target current updated now in
            let+ r := try (exec [text id; text (mon_URL updated); int4 (mon_IntervalSeconds updated);
                                 int4 (mon_TimeoutSeconds updated); int4 (mon_ExpectedStatus updated)]
              (λ _ _ d, match monitors d !! id with
                        | None => (d, Ok None)
                        | Some row => put_monitor (updated_row row updated semanticsChanged) d
                        end)) in
            let+ row := monitor_result r in
            do+ (if semanticsChanged
                 then exec [text id] (λ _ _ d, (resolve_open id now d, Ok tt)) else ret tt) in
            do+ (if negb (mon_Enabled updated) || semanticsChanged
                 then
                   let jobError := if negb (mon_Enabled updated) then "monitor disabled"
                                   else "monitor configuration changed" in
                   exec [text id; text jobError] (λ _ _ d, (kill_active id now jobError d, Ok tt))
                 else ret tt) in
            ret (scanMonitor row)
        end
    end).

(** [ON DELETE CASCADE] removes what refers to the monitor, and the alerts of
    its incidents. *)
Definition delete_monitor (id : string) (d : Tables) : Tables :=
  mkTables (delete id (monitors d))
    (delete_rows (λ r, String.eqb (j_monitor_id r) id) (check_jobs d))
    (delete_rows (λ r, String.eqb (c_monitor_id r) id) (check_results d))
    (delete_rows (λ r, String.eqb (i_monitor_id r) id) (incidents d))
    (delete_rows (λ r, String.eqb (a_monitor_id r) id
                       || exists_row (λ i, String.eqb (i_id i) (a_incident_id r) && String.eqb (i_monitor_id i) id)
                            (incidents d)) (alert_outbox d)).

Definition pg_Delete (id : string) : proc unit :=
  let+ affected := query [text id] (λ _ _ d,
    match monitors d !! id with None => (d, Ok 0) | Some _ => (delete_monitor id d, Ok 1) end) in
  if affected =? 0 then fail ErrMonitorNotFound else ret tt.

(** ** Claiming jobs *)

(** [INSERT INTO check_jobs]: the primary key, the index of active jobs and
    the reference to the monitor. *)
Definition insert_job (row : job_row) : stmt job_row := λ _ _ d,
  if match check_jobs d !! j_id row with Some _ => true | None => false end
     || (job_active row && exists_row (active_of (j_monitor_id row)) (check_jobs d))
  then (d, Err unique_violation)
  else match monitors d !! j_monitor_id row with
  | None => (d, Err foreign_key_violation)
  | Some _ => (d <| check_jobs := <[j_id row := row]> (check_jobs d) |>, Ok row)
  end.

Definition pg_CreateManualJob (id : string) (rnd : Entropy) : proc (CheckJobRecord * bool) :=
  transaction (
    let+ now := databaseTime in
    let+ monitor := tx_read [text id] (λ d, monitors d !! id) in
    match monitor with
    | None => fail ErrMonitorNotFound
    | Some _ =>
        let+ existing := tx_read [text id] (λ d, first_row (active_of id) (check_jobs d)) in
        match existing with
        | Some row => ret (scanCheckJob row, false)
        | None =>
            let jobID := newID "job" rnd in
            let+ row := exec [text jobID; text id] (insert_job
              (mkJobRow jobID id checkJobKindManual now checkJobStatusScheduled 0 now None None None None None ""
                 now now None)) in
            ret (scanCheckJob row, true)
        end
    end).

(** First statement of [ClaimDueJobs]: jobs out of attempts die, and the
    monitors of the scheduled ones are scheduled again. *)
Definition exhausted (maxAttempts : Z) (now : Time) (r : job_row) : bool :=
  (maxAttempts <=? j_attempt r)
  && ((job_is checkJobStatusProcessing r && col_le (j_lease_expires_at r) now)
      || (job_is checkJobStatusFailed r && (j_available_at r <=? now))
      || (job_is checkJobStatusScheduled r && col_le (j_lease_expires_at r) now)).

Definition exhausted_row (now : Time) (r : job_row) : job_row :=
  finished_row checkJobStatusDead
    (if job_is checkJobStatusProcessing r then "processing lease expired; maximum attempts reached"
     else "maximum processing attempts reached") now r.

Definition advance_row (now : Time) (m : monitor_row) : monitor_row :=
  m <| m_next_check_at := now + interval_s (m_interval_seconds m) |> <| m_updated_at := now |>.

Definition kill_exhausted (maxAttempts : Z) (now : Time) (d : Tables) : Tables :=
  let hit m := exists_row (λ r, exhausted maxAttempts now r && String.eqb (j_monitor_id r) (m_id m)
                                && bool_decide (j_kind r = checkJobKindScheduled)) (check_jobs d) in
  d <| check_jobs := update_rows (exhausted maxAttempts now) (exhausted_row now) (check_jobs d) |>
    <| monitors := update_rows hit (advance_row now) (monitors d) |>.

(** Second statement: expired leases of jobs that may be attempted again. *)
Definition lease_expired (maxAttempts : Z) (now : Time) (r : job_row) : bool :=
  job_is checkJobStatusProcessing r && col_le (j_lease_expires_at r) now && (j_attempt r <? maxAttempts).
Definition failed_row (now availableAt : Time) (lastError : string) (r : job_row) : job_row :=
  r <| j_status := checkJobStatusFailed |> <| j_available_at := availableAt |> <| j_processing_started_at := None |>
    <| j_lease_expires_at := None |> <| j_lease_token := None |> <| j_last_error := lastError |>
    <| j_updated_at := now |>.
Definition fail_expired (maxAttempts : Z) (now : Time) (d : Tables) : Tables :=
  d <| check_jobs := update_rows (lease_expired maxAttempts now) (failed_row now now "processing lease expired")
                       (check_jobs d) |>.

(** Third statement: the claimable jobs, oldest first, skipping locked rows. *)
Definition claimable_row (maxAttempts : Z) (now : Time) (r : job_row) : bool :=
  (job_is checkJobStatusScheduled r || job_is checkJobStatusFailed r) && (j_available_at r <=? now)
  && (bool_decide (j_lease_expires_at r = None) || col_le (j_lease_expires_at r) now) && (j_attempt r <? maxAttempts).

Definition unlocked {R} (id : R → string) (locked : gset string) (r : R) : bool := bool_decide (id r ∉ locked).

Definition compare_job_rows (a b : job_row) : Z :=
  if negb (j_available_at a =? j_available_at b) then TimeCompare (j_available_at a) (j_available_at b)
  else if negb (j_scheduled_for a =? j_scheduled_for b) then TimeCompare (j_scheduled_for a) (j_scheduled_for b)
  else collate (j_id a) (j_id b).

Definition claimed_row (now leaseExpiresAt : Time) (token : string) (r : job_row) : job_row :=
  r <| j_status := checkJobStatusScheduled |> <| j_lease_expires_at := Some leaseExpiresAt |>
    <| j_publication_token := Some (token +:+ ":" +:+ j_id r) |> <| j_updated_at := now |>.

Definition chosen (ids : list string) (r : job_row) : bool := bool_decide (j_id r ∈ ids).

(** The rows come back in no particular order. *)
Definition claim_rows (limit : Z) (now leaseExpiresAt : Time) (maxAttempts : Z) (token : string)
  : stmt (list job_row) := λ _ locked d,
  let claimable := select_rows (λ r, claimable_row maxAttempts now r && unlocked j_id locked r) (check_jobs d) in
  let ids := j_id <$> order_limit compare_job_rows 0 limit claimable in
  let d := d <| check_jobs := update_rows (chosen ids) (claimed_row now leaseExpiresAt token) (check_jobs d) |> in
  (d, Ok (select_rows (chosen ids) (check_jobs d))).

(** The monitors that are due and have no active job. *)
Definition due_row (now : Time) (d : Tables) (m : monitor_row) : bool :=
  m_enabled m && (m_next_check_at m <=? now) && negb (exists_row (active_of (m_id m)) (check_jobs d)).
Definition compare_due_rows (a b : monitor_row) : Z :=
  if negb (m_next_check_at a =? m_next_check_at b) then TimeCompare (m_next_check_at a) (m_next_check_at b)
  else collate (m_id a) (m_id b).
Definition due_rows (limit : Z) (now : Time) : stmt (list monitor_row) := λ _ locked d,
  (d, Ok (order_limit compare_due_rows 0 limit
            (select_rows (λ m, due_row now d m && unlocked m_id locked m) (monitors d)))).

Definition due_job (m : monitor_row) (now leaseExpiresAt clk : Time) (token : string) : job_row :=
  mkJobRow (NewCheckJobID (m_id m) (m_next_check_at m) clk) (m_id m) checkJobKindScheduled
    (timestamptz (UTC (m_next_check_at m))) checkJobStatusScheduled 0 now None None (Some leaseExpiresAt) None None ""
    now now (Some token).

Fixpoint insert_due_jobs (due : list monitor_row) (now leaseExpiresAt clk : Time) (rnd : nat → Entropy)
    (jobs : list job_row) : proc (list job_row) :=
  match due with
  | [] => ret jobs
  | m :: due =>
      let row := due_job m now leaseExpiresAt clk (newID "publish" (rnd (length jobs))) in
      let+ row := exec [text (j_id row); text (m_id m)] (insert_job row) in
      insert_due_jobs due now leaseExpiresAt clk rnd (jobs ++ [row])
  end.

(** [rnd0] and [rnd i] are drawn for the publication tokens, [clk] is read for
    the identifier of a job whose monitor has no due time. *)
Definition pg_ClaimDueJobs (limit leaseTimeout maxAttempts : Z) (clk : Time) (rnd0 : Entropy) (rnd : nat → Entropy)
  : proc (list CheckJobRecord) :=
  if limit <=? 0 then ret []
  else
    let leaseTimeout := if leaseTimeout <=? 0 then Minute else leaseTimeout in
    let maxAttempts := if maxAttempts <=? 0 then defaultMaxJobAttempts else maxAttempts in
    transaction (
      let+ now := databaseTime in
      let leaseExpiresAt := timestamptz (AddDur now leaseTimeout) in
      do+ exec [int4 maxAttempts] (λ _ _ d, (kill_exhausted maxAttempts now d, Ok tt)) in
      do+ exec [int4 maxAttempts] (λ _ _ d, (fail_expired maxAttempts now d, Ok tt)) in
      let+ jobs := exec [int4 maxAttempts] (claim_rows limit now leaseExpiresAt maxAttempts (newID "publish" rnd0)) in
      let remaining := limit - Z.of_nat (length jobs) in
      let+ jobs := (if 0 <? remaining
                    then
                      let+ due := exec [] (due_rows remaining now) in
                      insert_due_jobs due now leaseExpiresAt clk rnd jobs
                    else ret jobs) in
      ret (scanCheckJob <$> jobs)).

Definition pg_GetCheckJob (jobID : string) : proc CheckJobRecord :=
  let+ row := read [text jobID] (λ d, check_jobs d !! jobID) in
  match row with None => fail ErrStaleJob | Some row => ret (scanCheckJob row) end.

(** ** Publication *)

Definition job_of (monitorID jobID : string) (r : job_row) : bool :=
  String.eqb (j_id r) jobID && String.eqb (j_monitor_id r) monitorID.

(** [classifyInactiveJobQuery]: what became of a job no statement matched. *)
Definition classify (monitorID jobID : string) (d : Tables) : GoError :=
  if bool_decide (is_Some (monitors d !! monitorID)) then
    if exists_row (job_of monitorID jobID) (check_jobs d) then ErrStaleJob else ErrStaleJob
  else ErrMonitorNotFound.
Definition classifyInactiveJob {A} (monitorID jobID : string) : proc A :=
  let+ e := read [text monitorID; text jobID] (classify monitorID jobID) in fail e.

Definition acceptPublicationProgress (claim : PublicationClaim) : proc unit :=
  let+ row := read [text (claim_JobID claim); text (claim_MonitorID claim)]
                (λ d, first_row (job_of (claim_MonitorID claim) (claim_JobID claim)) (check_jobs d)) in
  match row with
  | None => classifyInactiveJob (claim_MonitorID claim) (claim_JobID claim)
  | Some row =>
      if col_is (j_publication_token row) (claim_Token claim) && negb (job_is checkJobStatusScheduled row)
      then ret tt else fail ErrStaleJob
  end.

(** The rows of the common table expression [owned] whose lease still runs. *)
Definition publication_owned (claim : PublicationClaim) (now : Time) (r : job_row) : bool :=
  String.eqb (j_id r) (claim_JobID claim)
  && (String.eqb (j_monitor_id r) (claim_MonitorID claim) && job_is checkJobStatusScheduled r
      && (j_attempt r =? claim_Attempt claim) && col_is (j_publication_token r) (claim_Token claim)
      && col_gt (j_lease_expires_at r) now).

(** [UPDATE check_jobs ... WHERE p] and [RowsAffected]. *)
Definition update_jobs (p : Time → job_row → bool) (f : Time → job_row → job_row) : stmt Z := λ now _ d,
  (d <| check_jobs := update_rows (p now) (f now) (check_jobs d) |>, Ok (count_rows (p now) (check_jobs d))).

Definition queued_row (now : Time) (r : job_row) : job_row :=
  r <| j_status := checkJobStatusQueued |> <| j_published_at := Some now |> <| j_lease_expires_at := None |>
    <| j_updated_at := now |>.

Definition claim_params (claim : PublicationClaim) : list param :=
  [text (claim_JobID claim); text (claim_MonitorID claim); int4 (claim_Attempt claim); text (claim_Token claim)].

Definition pg_MarkJobPublished (claim : PublicationClaim) : proc unit :=
  if String.eqb (claim_Token claim) "" then fail ErrStaleJob
  else
    let+ affected := query (claim_params claim) (update_jobs (publication_owned claim) queued_row) in
    if affected =? 1 then ret tt else acceptPublicationProgress claim.

Definition released_row (lastError : string) (now : Time) (r : job_row) : job_row :=
  r <| j_lease_expires_at := None |> <| j_publication_token := None |> <| j_last_error := lastError |>
    <| j_updated_at := now |>.

Definition pg_ReleaseJobPublish (claim : PublicationClaim) (lastError : string) : proc unit :=
  if String.eqb (claim_Token claim) "" then fail ErrStaleJob
  else
    let+ affected := query (claim_params claim ++ [text lastError])
                       (update_jobs (publication_owned claim) (released_row lastError)) in
    if affected =? 1 then ret tt else acceptPublicationProgress claim.

Definition lost_row (r : job_row) : bool := job_is checkJobStatusScheduled r || job_is checkJobStatusQueued r.
Definition recovered_row (now : Time) (r : job_row) : job_row :=
  failed_row now now "rabbitmq queue topology was lost" r <| j_published_at := None |> <| j_publication_token := None |>.

Definition pg_RecoverQueuedJobsAfterTopologyLoss : proc Z :=
  query [] (update_jobs (λ _, lost_row) recovered_row).

(** ** Processing *)

Definition checkJobStatus (monitorID jobID : string) : proc CheckJobStatus :=
  let+ row := read [text jobID; text monitorID] (λ d, first_row (job_of monitorID jobID) (check_jobs d)) in
  match row with Some row => ret (j_status row) | None => classifyInactiveJob monitorID jobID end.

Definition startable (id jobID : string) (attempt : Z) (r : job_row) : bool :=
  String.eqb (j_id r) jobID
  && (String.eqb (j_monitor_id r) id && (job_is checkJobStatusScheduled r || job_is checkJobStatusQueued r)
      && (j_attempt r <? attempt)).
Definition processing_row (attempt leaseTimeout : Z) (token : string) (now : Time) (r : job_row) : job_row :=
  r <| j_status := checkJobStatusProcessing |> <| j_attempt := attempt |> <| j_processing_started_at := Some now |>
    <| j_lease_expires_at := Some (now + interval_us leaseTimeout) |> <| j_lease_token := Some token |>
    <| j_updated_at := now |>.

Definition pg_MarkJobProcessing (id jobID : string) (attempt leaseTimeout : Z) (rnd : Entropy) : proc ProcessingLease :=
  let leaseTimeout := if leaseTimeout <=? 0 then Minute else leaseTimeout in
  let leaseToken := newID "lease" rnd in
  let attempt := Z.max attempt 1 in
  let+ affected := query [text id; text jobID; int4 attempt; text leaseToken]
                     (update_jobs (λ _, startable id jobID attempt) (processing_row attempt leaseTimeout leaseToken)) in
  if negb (affected =? 0)
  then ret {| lease_JobID := jobID; lease_MonitorID := id; lease_Attempt := attempt; lease_LeaseToken := leaseToken |}
  else
    let+ status := checkJobStatus id jobID in
    fail (if bool_decide (status = checkJobStatusProcessing) then ErrJobAlreadyProcessing else ErrStaleJob).

(** The row the holder of a lease may still settle. *)
Definition lease_owned (lease : ProcessingLease) (now : Time) (r : job_row) : bool :=
  String.eqb (j_id r) (lease_JobID lease)
  && (String.eqb (j_monitor_id r) (lease_MonitorID lease) && job_is checkJobStatusProcessing r
      && (j_attempt r =? lease_Attempt lease) && col_is (j_lease_token r) (lease_LeaseToken lease)
      && col_gt (j_lease_expires_at r) now).

Definition lease_params (lease : ProcessingLease) : list param :=
  [text (lease_JobID lease); text (lease_MonitorID lease); int4 (lease_Attempt lease); text (lease_LeaseToken lease)].

Definition pg_MarkJobFailed (lease : ProcessingLease) (lastError : string) (retryDelay : Z) : proc unit :=
  let retryDelay := Z.max retryDelay 0 in
  let+ affected := query (lease_params lease ++ [text lastError])
    (update_jobs (lease_owned lease) (λ now, failed_row now (now + interval_us retryDelay) lastError)) in
  if affected =? 1 then ret tt else classifyInactiveJob (lease_MonitorID lease) (lease_JobID lease).

(** [UPDATE ... RETURNING kind, completed_at]. *)
Definition kill_owned (lease : ProcessingLease) (lastError : string) : stmt (option (CheckJobKind * Time)) := λ now _ d,
  match first_row (lease_owned lease now) (check_jobs d) with
  | None => (d, Ok None)
  | Some row =>
      (d <| check_jobs := update_rows (lease_owned lease now) (finished_row checkJobStatusDead lastError now) (check_jobs d) |>,
       Ok (Some (j_kind row, now)))
  end.

(** [UPDATE monitors ... WHERE id = $1]. *)
Definition update_monitor (id : string) (f : monitor_row → monitor_row) : stmt (option monitor_row) := λ _ _ d,
  match monitors d !! id with
  | None => (d, Ok None)
  | Some row => (d <| monitors := <[id := f row]> (monitors d) |>, Ok (Some (f row)))
  end.

Definition pg_MarkJobDead (lease : ProcessingLease) (lastError : string) : proc unit :=
  transaction (
    let+ monitor := tx_read [text (lease_MonitorID lease)] (λ d, monitors d !! lease_MonitorID lease) in
    match monitor with
    | None => fail ErrMonitorNotFound
    | Some _ =>
        let+ killed := exec (lease_params lease ++ [text lastError]) (kill_owned lease lastError) in
        match killed with
        | None =>
            let+ e := tx_read [text (lease_MonitorID lease); text (lease_JobID lease)]
                        (classify (lease_MonitorID lease) (lease_JobID lease)) in
            fail e
        | Some (checkJobKindScheduled, now) =>
            let+ updated := exec [text (lease_MonitorID lease)]
                              (update_monitor (lease_MonitorID lease) (advance_row now)) in
            match updated with None => fail ErrMonitorNotFound | Some _ => ret tt end
        | Some (checkJobKindManual, _) => ret tt
        end
    end).

(** ** Results *)

(** [INSERT INTO check_results ... ON CONFLICT (job_id) DO NOTHING]. *)
Definition insert_result (record : CheckRecord) (now : Time) : stmt Z := λ _ _ d,
  let job_id := if String.eqb (rec_JobID record) "" then None else Some (rec_JobID record) in
  if exists_row (λ r, bool_decide (is_Some (c_job_id r)) && bool_decide (c_job_id r = job_id)) (check_results d)
  then (d, Ok 0)
  else match check_results d !! rec_ID record, monitors d !! rec_MonitorID record with
  | Some _, _ => (d, Err unique_violation)
  | None, None => (d, Err foreign_key_violation)
  | None, Some _ =>
      let row := {| c_id := rec_ID record; c_job_id := job_id; c_monitor_id := rec_MonitorID record;
                    c_status_code := rec_StatusCode record; c_latency_ms := rec_LatencyMS record;
                    c_error := rec_Error record; c_success := rec_Success record;
                    c_checked_at := timestamptz (UTC (rec_CheckedAt record)); c_recorded_at := now |} in
      (d <| check_results := <[rec_ID record := row]> (check_results d) |>, Ok 1)
  end.

Definition checked_row (record : CheckRecord) (kind : CheckJobKind) (now : Time) (m : monitor_row) : monitor_row :=
  m <| m_last_status_code := Some (rec_StatusCode record) |> <| m_last_latency_ms := Some (rec_LatencyMS record) |>
    <| m_last_checked_at := Some now |> <| m_last_error := rec_Error record |>
    <| m_next_check_at := match kind with
                          | checkJobKindScheduled => now + interval_s (m_interval_seconds m)
                          | checkJobKindManual => m_next_check_at m
                          end |>
    <| m_updated_at := now |>.

(** The upsert on the index of open incidents. *)
Definition upsert_incident (id monitorID lastError : string) (now : Time) : stmt incident_row := λ _ _ d,
  match first_row (open_of monitorID) (incidents d) with
  | Some row =>
      let row' := row <| i_failure_count := i_failure_count row + 1 |> <| i_last_failure_at := now |>
                      <| i_last_error := lastError |> <| i_updated_at := now |> in
      if int4_ok (i_failure_count row')
      then (d <| incidents := <[i_id row := row']> (incidents d) |>, Ok row')
      else (d, Err numeric_out_of_range)
  | None =>
      match incidents d !! id, monitors d !! monitorID with
      | Some _, _ => (d, Err unique_violation)
      | None, None => (d, Err foreign_key_violation)
      | None, Some _ =>
          let row := mkIncidentRow id monitorID incidentStatusOpen 1 now now None lastError None 0 now now in
          (d <| incidents := <[id := row]> (incidents d) |>, Ok row)
      end
  end.

(** [INSERT INTO alert_outbox ... ON CONFLICT (idempotency_key) DO NOTHING]. *)
Definition insert_alert (row : alert_row) : stmt Z := λ _ _ d,
  if exists_row (λ r, String.eqb (a_idempotency_key r) (a_idempotency_key row)) (alert_outbox d) then (d, Ok 0)
  else match alert_outbox d !! a_id row, incidents d !! a_incident_id row, monitors d !! a_monitor_id row with
  | Some _, _, _ => (d, Err unique_violation)
  | None, Some _, Some _ => (d <| alert_outbox := <[a_id row := row]> (alert_outbox d) |>, Ok 1)
  | None, _, _ => (d, Err foreign_key_violation)
  end.

Definition mark_alerted (incidentID : string) (now : Time) : stmt unit := λ _ _ d,
  match incidents d !! incidentID with
  | None => (d, Ok tt)
  | Some row =>
      let row' := row <| i_last_alerted_at := Some now |> <| i_alert_count := i_alert_count row + 1 |>
                      <| i_updated_at := now |> in
      if int4_ok (i_alert_count row')
      then (d <| incidents := <[incidentID := row']> (incidents d) |>, Ok tt) else (d, Err numeric_out_of_range)
  end.

(** The failure is not alerted: alerts are off, too few failures in a row, or
    the last alert is too recent. *)
Definition alert_suppressed (ap : AlertPolicy) (incident : incident_row) (now : Time) : bool :=
  negb (Enabled ap) || (i_failure_count incident <? FailureThreshold ap)
  || match i_last_alerted_at incident with Some at_ => Sub now at_ <? Cooldown ap | None => false end.

Definition alertEventIncidentFailure : string := "incident.failure".

Definition alert_payload (record : CheckRecord) (monitor : Monitor) (incident : incident_row) : AlertPayload :=
  mkPayload alertEventIncidentFailure (i_id incident) (rec_MonitorID record) (mon_URL monitor) (rec_StatusCode record)
    (incident_error record) (i_failure_count incident) (UTC (rec_CheckedAt record)).

Definition outbox_row (record : CheckRecord) (monitor : Monitor) (incident : incident_row) (now : Time) (rnd : Entropy)
  : alert_row :=
  mkAlertRow (newID "alert" rnd) (i_id incident +:+ ":failure:" +:+ Itoa (i_failure_count incident)) (i_id incident)
    (rec_MonitorID record) alertEventIncidentFailure (alert_payload record monitor incident) alertPending 0 now
    None None None "" now now.

(** Encoding the payload ([marshal_error]) is code of the JSON library. *)
Definition upsertIncidentAndAlert `{WC : !WebhookClient} (record : CheckRecord) (monitor : Monitor) (ap : AlertPolicy)
    (now : Time) (rndInc rndAlert : Entropy) : proc unit :=
  if rec_Success record then exec [text (rec_MonitorID record)] (λ _ _ d, (resolve_open (rec_MonitorID record) now d, Ok tt))
  else
    let lastError := incident_error record in
    let+ incident := exec [text (newID "inc" rndInc); text (rec_MonitorID record); text lastError]
                       (upsert_incident (newID "inc" rndInc) (rec_MonitorID record) lastError now) in
    if alert_suppressed ap incident now then ret tt
    else match marshal_error (alert_payload record monitor incident) with
    | Some _ => fail (ErrInfra 0)
    | None =>
        let row := outbox_row record monitor incident now rndAlert in
        let+ inserted := exec [text (a_id row); text (a_idempotency_key row)] (insert_alert row) in
        if inserted =? 0 then ret tt else exec [] (mark_alerted (i_id incident) now)
    end.

(** [ErrDuplicateJob] and [ErrStaleJob]: who may record a result. *)
Definition check_refused (record : CheckRecord) (lease : ProcessingLease) (job : job_row) : option GoError :=
  if job_is checkJobStatusCompleted job then Some ErrDuplicateJob
  else if negb (job_is checkJobStatusProcessing job) then Some ErrStaleJob
  else if negb (j_attempt job =? lease_Attempt lease) || col_is (j_lease_token job) ""
          || negb (col_is (j_lease_token job) (lease_LeaseToken lease))
          || negb (String.eqb (lease_JobID lease) (rec_JobID record))
          || negb (String.eqb (lease_MonitorID lease) (rec_MonitorID record))
  then Some ErrStaleJob else None.

Definition pg_AddCheck `{WC : !WebhookClient} (record : CheckRecord) (lease : ProcessingLease) (ap : AlertPolicy)
    (rndInc rndAlert : Entropy) : proc Monitor :=
  if String.eqb (rec_JobID record) "" then fail ErrJobIDRequired
  else transaction (
    let+ monitor := tx_read [text (rec_MonitorID record)] (λ d, monitors d !! rec_MonitorID record) in
    match monitor with
    | None => fail ErrMonitorNotFound
    | Some _ =>
        let+ job := tx_read [text (rec_JobID record); text (rec_MonitorID record)]
                      (λ d, first_row (job_of (rec_MonitorID record) (rec_JobID record)) (check_jobs d)) in
        match job with
        | None => fail ErrStaleJob
        | Some job =>
            match check_refused record lease job with
            | Some e => fail e
            | None =>
                let+ updatedAt := databaseTime in
                if negb (col_gt (j_lease_expires_at job) updatedAt) then fail ErrStaleJob
                else
                  let+ inserted := exec [text (rec_ID record); text (rec_JobID record); int4 (rec_StatusCode record);
                                         text (rec_Error record)] (insert_result record updatedAt) in
                  if inserted =? 0 then fail ErrDuplicateJob
                  else
                    let+ monitor := exec [int4 (rec_StatusCode record); text (rec_Error record)]
                                      (update_monitor (rec_MonitorID record) (checked_row record (j_kind job) updatedAt)) in
                    match monitor with
                    | None => fail ErrMonitorNotFound
                    | Some monitor =>
                        do+ upsertIncidentAndAlert record (scanMonitor monitor) ap updatedAt rndInc rndAlert in
                        (* the lease is checked again, on the clock of this statement *)
                        let+ completed := exec (lease_params lease)
                          (update_jobs (lease_owned lease) (λ _, finished_row checkJobStatusCompleted "" updatedAt)) in
                        if negb (completed =? 1) then fail ErrStaleJob else ret (scanMonitor monitor)
                    end
            end
        end
    end).

(** ** Reading *)

Definition compare_result_rows (a b : result_row) : Z :=
  if c_recorded_at a =? c_recorded_at b then collate (c_id b) (c_id a) else TimeCompare (c_recorded_at b) (c_recorded_at a).

Definition pg_ListChecks (id : string) (offset limit : Z) : proc (list CheckRecord * Z) :=
  do+ pg_Get id in
  let+ total := read [text id] (λ d, count_rows (λ r, String.eqb (c_monitor_id r) id) (check_results d)) in
  let+ rows := query [text id] (λ _ _ d,
    (d, page_rows compare_result_rows offset limit
          (select_rows (λ r, String.eqb (c_monitor_id r) id) (check_results d)))) in
  ret (scanCheckRecord <$> rows, total).

Definition compare_incident_rows (a b : incident_row) : Z :=
  if i_created_at a =? i_created_at b then collate (i_id b) (i_id a) else TimeCompare (i_created_at b) (i_created_at a).
Definition status_matches (status : string) (r : incident_row) : bool :=
  String.eqb status "" || String.eqb (incident_status_string (i_status r)) status.

Definition pg_ListIncidents (status : string) (offset limit : Z) : proc (list Incident * Z) :=
  let+ total := read [text status] (λ d, count_rows (status_matches status) (incidents d)) in
  let+ rows := query [text status] (λ _ _ d,
    (d, page_rows compare_incident_rows offset limit (select_rows (status_matches status) (incidents d)))) in
  ret (scanIncident <$> rows, total).

(** [avg] of a bigint column is exact decimal arithmetic whose digits and whose
    conversion to float64 are the server's and the driver's: [average]. *)
Definition pg_Stats (average : list Z → spec_float) (id : string) : proc MonitorStats :=
  let+ monitor := pg_Get id in
  let mine r := String.eqb (c_monitor_id r) id in
  let+ counts := read [text id] (λ d,
    (count_rows mine (check_results d), count_rows (λ r, mine r && c_success r) (check_results d),
     count_rows (λ r, mine r && negb (c_success r)) (check_results d),
     average (c_latency_ms <$> select_rows mine (check_results d)))) in
  let '(total, ok, failed, latency) := counts in
  let uptime := if 0 <? total then uptime_percent ok total else S754_zero false in
  let+ consecutive := read [text id] (λ d,
    match first_row (open_of id) (incidents d) with Some i => i_failure_count i | None => 0 end) in
  ret (mkMonitorStats id uptime latency total ok failed (mon_LastCheckedAt monitor) (mon_LastStatusCode monitor) consecutive).
End repository.
