(* ===== verification/PgOutbox.v ===== *)
(** * The alert outbox and data retention (postgres_repository.go, postgres_retention.go)

    Claiming alerts for delivery under a lease, recording the outcome of a
    delivery, and deleting expired rows in batches. *)

From stdpp Require Import base list gmap strings.
From Stdlib Require Import ZArith Lia Ascii.
From S2P Require Import Prelude GoNum GoStrings NetworkPolicy Egress Domain Checker Config History Store Alert Sql PgSchema Postgres.
#[local] Open Scope string_scope.
#[local] Open Scope list_scope.
#[local] Open Scope Z_scope.
#[local] Open Scope sql_scope.
#[local] Abbreviation proc := (Sql.proc (DB:=Tables)).
#[local] Abbreviation stmt := (Sql.stmt (DB:=Tables)).


Definition maxAlertErrorBytes : Z := 4096.
Definition truncateAlertError (value : string) : string :=
  if Z.of_nat (String.length value) <=? maxAlertErrorBytes then value
  else String.substring 0 (Z.to_nat maxAlertErrorBytes) value.

Record RetentionPolicy := {
  CheckResults : Z; CheckJobs : Z; AlertOutbox : Z; ResolvedIncident : Z; BatchSize : Z;
}.
Record RetentionResult := mkRetentionResult {
  del_CheckResults : Z; del_CheckJobs : Z; del_AlertOutbox : Z; del_ResolvedIncidents : Z;
}.

Section outbox.
Context `{MR : !MapRange, SV : !Server Tables, CO : !Collation}.

(** ** Claiming alerts *)

(** Alerts out of attempts die: waiting ones, and those whose lease expired. *)
Definition alert_exhausted (maxAttempts : Z) (now : Time) (r : alert_row) : bool :=
  (maxAttempts <=? a_attempt_count r)
  && (alert_is alertPending r || (alert_is alertProcessing r && col_le (a_locked_until r) now)).
Definition dead_alert (now : Time) (r : alert_row) : alert_row :=
  r <| a_status := alertDead |> <| a_lease_token := None |> <| a_locked_until := None |>
    <| a_last_error := if String.eqb (a_last_error r) "" then "maximum delivery attempts reached after lease expiry"
                       else a_last_error r |>
    <| a_updated_at := now |>.

Definition alert_claimable (maxAttempts : Z) (now : Time) (r : alert_row) : bool :=
  (a_attempt_count r <? maxAttempts)
  && ((alert_is alertPending r && (a_available_at r <=? now))
      || (alert_is alertProcessing r && col_le (a_locked_until r) now)).
Definition compare_alert_rows (a b : alert_row) : Z :=
  if negb (a_available_at a =? a_available_at b) then TimeCompare (a_available_at a) (a_available_at b)
  else if negb (a_created_at a =? a_created_at b) then TimeCompare (a_created_at a) (a_created_at b)
  else collate (a_id a) (a_id b).
Definition claimed_alert (now lockedUntil : Time) (leaseToken : string) (r : alert_row) : alert_row :=
  r <| a_status := alertProcessing |> <| a_attempt_count := a_attempt_count r + 1 |>
    <| a_lease_token := Some leaseToken |> <| a_locked_until := Some lockedUntil |> <| a_updated_at := now |>.

(** The row as scanned: the payload is decoded from the JSON it was stored as. *)
Definition scanAlert (r : alert_row) : AlertOutboxEvent :=
  mkEvent (a_id r) (a_idempotency_key r) (a_incident_id r) (a_monitor_id r) (a_payload r) (a_attempt_count r)
    (default "" (a_lease_token r)).

Definition alert_chosen (ids : list string) (r : alert_row) : bool := bool_decide (a_id r ∈ ids).

Definition claim_alerts (limit : Z) (now lockedUntil : Time) (leaseToken : string) (maxAttempts : Z)
  : stmt (list alert_row) := λ _ locked d,
  let candidates := select_rows (λ r, alert_claimable maxAttempts now r && unlocked a_id locked r) (alert_outbox d) in
  let ids := a_id <$> order_limit compare_alert_rows 0 limit candidates in
  let d := d <| alert_outbox := update_rows (alert_chosen ids) (claimed_alert now lockedUntil leaseToken) (alert_outbox d) |> in
  (d, Ok (select_rows (alert_chosen ids) (alert_outbox d))).

Definition pg_ClaimAlerts (limit leaseTimeout maxAttempts : Z) (rnd : Entropy) : proc (list AlertOutboxEvent) :=
  if limit <=? 0 then ret []
  else
    let leaseTimeout := if leaseTimeout <=? 0 then defaultAlertLeaseTimeout else leaseTimeout in
    let maxAttempts := if maxAttempts <=? 0 then defaultAlertMaxAttempts else maxAttempts in
    let leaseToken := newID "lease" rnd in
    transaction (
      let+ now := databaseTime in
      let lockedUntil := timestamptz (AddDur now leaseTimeout) in
      do+ exec [int4 maxAttempts] (λ _ _ d,
        (d <| alert_outbox := update_rows (alert_exhausted maxAttempts now) (dead_alert now) (alert_outbox d) |>, Ok tt)) in
      let+ rows := exec [text leaseToken; int4 maxAttempts] (claim_alerts limit now lockedUntil leaseToken maxAttempts) in
      ret (scanAlert <$> rows)).

(** ** The outcome of a delivery *)

Definition alert_owned (id leaseToken : string) (r : alert_row) : bool :=
  String.eqb (a_id r) id && (alert_is alertProcessing r && col_is (a_lease_token r) leaseToken).

Definition update_alerts (p : alert_row → bool) (f : Time → alert_row → alert_row) : stmt Z := λ now _ d,
  (d <| alert_outbox := update_rows p (f now) (alert_outbox d) |>, Ok (count_rows p (alert_outbox d))).

Definition delivered_alert (now : Time) (r : alert_row) : alert_row :=
  r <| a_status := alertDelivered |> <| a_delivered_at := Some now |> <| a_lease_token := None |>
    <| a_locked_until := None |> <| a_last_error := "" |> <| a_updated_at := now |>.

Definition pg_MarkAlertDelivered (id leaseToken : string) : proc unit :=
  let+ affected := query [text id; text leaseToken] (update_alerts (alert_owned id leaseToken) delivered_alert) in
  if affected =? 0 then fail ErrStaleAlertLease else ret tt.

Definition failed_alert (st : AlertStatus) (retryDelay : Z) (lastError : string) (now : Time) (r : alert_row) : alert_row :=
  r <| a_status := st |> <| a_available_at := now + interval_us retryDelay |> <| a_lease_token := None |>
    <| a_locked_until := None |> <| a_last_error := lastError |> <| a_updated_at := now |>.

Definition pg_MarkAlertFailed (id leaseToken lastError : string) (retryDelay : Z) (dead : bool) : proc unit :=
  let status := if dead then alertDead else alertPending in
  let retryDelay := Z.max retryDelay 0 in
  let lastError := truncateAlertError lastError in
  let+ affected := query [text id; text leaseToken; text lastError]
                     (update_alerts (alert_owned id leaseToken) (failed_alert status retryDelay lastError)) in
  if affected =? 0 then fail ErrStaleAlertLease else ret tt.

(** ** Retention *)

(** [deleteRetentionBatch]: the oldest rows that meet the condition and are not
    locked, at most [batchSize] of them. *)
Definition expired_ids {R} (id : R → string) (cmp : R → R → Z) (p : R → bool) (batchSize : Z) (locked : gset string)
    (t : gmap string R) : list string :=
  id <$> order_limit cmp 0 batchSize (select_rows (λ r, p r && unlocked id locked r) t).
Definition delete_ids {R} (id : R → string) (ids : list string) (t : gmap string R) : gmap string R :=
  delete_rows (λ r, bool_decide (id r ∈ ids)) t.

Definition by_time {R} (at_ : R → Time) (id : R → string) (a b : R) : Z :=
  if negb (at_ a =? at_ b) then TimeCompare (at_ a) (at_ b) else collate (id a) (id b).

Definition expired_result (cutoff : Time) (r : result_row) : bool := c_recorded_at r <? cutoff.
Definition expired_job (cutoff : Time) (r : job_row) : bool := negb (job_active r) && (j_updated_at r <? cutoff).
Definition expired_alert (cutoff : Time) (r : alert_row) : bool :=
  (alert_is alertDelivered r || alert_is alertDead r) && (a_updated_at r <? cutoff).
Definition expired_incident (cutoff : Time) (d : Tables) (r : incident_row) : bool :=
  negb (incident_open r) && match i_resolved_at r with Some t => t <? cutoff | None => false end
  && negb (exists_row (λ a, String.eqb (a_incident_id a) (i_id r)) (alert_outbox d)).

Definition delete_results (cutoff : Time) (batchSize : Z) : stmt Z := λ _ locked d,
  let ids := expired_ids c_id (by_time c_recorded_at c_id) (expired_result cutoff) batchSize locked (check_results d) in
  (d <| check_results := delete_ids c_id ids (check_results d) |>, Ok (Z.of_nat (length ids))).
Definition delete_jobs (cutoff : Time) (batchSize : Z) : stmt Z := λ _ locked d,
  let ids := expired_ids j_id (by_time j_updated_at j_id) (expired_job cutoff) batchSize locked (check_jobs d) in
  (d <| check_jobs := delete_ids j_id ids (check_jobs d) |>, Ok (Z.of_nat (length ids))).
Definition delete_alerts (cutoff : Time) (batchSize : Z) : stmt Z := λ _ locked d,
  let ids := expired_ids a_id (by_time a_updated_at a_id) (expired_alert cutoff) batchSize locked (alert_outbox d) in
  (d <| alert_outbox := delete_ids a_id ids (alert_outbox d) |>, Ok (Z.of_nat (length ids))).
(** Deleting an incident would delete its alerts; these have none. *)
Definition delete_incidents (cutoff : Time) (batchSize : Z) : stmt Z := λ _ locked d,
  let resolved r := default time_zero (i_resolved_at r) in
  let ids := expired_ids i_id (by_time resolved i_id) (expired_incident cutoff d) batchSize locked (incidents d) in
  (d <| incidents := delete_ids i_id ids (incidents d) |>
     <| alert_outbox := delete_rows (λ a, bool_decide (a_incident_id a ∈ ids)) (alert_outbox d) |>,
   Ok (Z.of_nat (length ids))).

Definition retention_cutoff (now : Time) (retention : Z) : Time := timestamptz (UTC (AddDur now (wrap64 (- retention)))).

Definition pg_DeleteExpiredData (policy : RetentionPolicy) : proc RetentionResult :=
  if BatchSize policy <? 1 then fail (ErrInfra 1)
  else if (CheckResults policy <=? 0) || (CheckJobs policy <=? 0) || (AlertOutbox policy <=? 0)
          || (ResolvedIncident policy <=? 0)
  then fail (ErrInfra 2)
  else transaction (
    let+ now := databaseTime in
    let+ results := exec [] (delete_results (retention_cutoff now (CheckResults policy)) (BatchSize policy)) in
    let+ jobs := exec [] (delete_jobs (retention_cutoff now (CheckJobs policy)) (BatchSize policy)) in
    let+ alerts := exec [] (delete_alerts (retention_cutoff now (AlertOutbox policy)) (BatchSize policy)) in
    let+ incs := exec [] (delete_incidents (retention_cutoff now (ResolvedIncident policy)) (BatchSize policy)) in
    ret (mkRetentionResult results jobs alerts incs)).
End outbox.
