(* ===== verification/PgInv.v ===== *)
(** * The tables keep their invariant

    Every method of the PostgreSQL repository keeps [tables_wf], whatever the
    server answers and whenever it fails, as long as the other clients keep it
    too: no statement but an insertion ever meets a constraint of the schema. *)

From stdpp Require Import base list gmap strings.
From Stdlib Require Import ZArith Lia Ascii.
From S2P Require Import Prelude GoNum GoStrings NetworkPolicy Egress Domain History Store Alert Sql PgSchema Postgres PgOutbox.
#[local] Open Scope string_scope.
#[local] Open Scope list_scope.
#[local] Open Scope Z_scope.
#[local] Open Scope sql_scope.

(** ** What each kind of change needs *)

Section changes.
Context `{MR : !MapRange} (d : Tables) (Hd : tables_wf d).

Lemma jobs_update_wf q f :
  (∀ r, j_id (f r) = j_id r) → (∀ r, j_monitor_id (f r) = j_monitor_id r) →
  (∀ r, q r = true → job_active (f r) = true → job_active r = true) →
  (∀ r, job_row_ok r → q r = true → job_row_ok (f r)) →
  tables_wf (d <| check_jobs := update_rows q f (check_jobs d) |>).
Proof.
  intros Hid Hm Ha Hok. pose proof Hd as []. split; cbn; try done.
  - by apply keyed_update.
  - by apply rows_update.
  - by apply unique_update.
  - by apply refers_update.
Qed.

Lemma monitors_update_wf q f :
  (∀ r, m_id (f r) = m_id r) → (∀ r, m_url (f r) = m_url r) →
  (∀ r, monitor_row_ok r → q r = true → monitor_row_ok (f r)) →
  tables_wf (d <| monitors := update_rows q f (monitors d) |>).
Proof.
  intros Hid Hu Hok. pose proof Hd as []. split; cbn; try done.
  - by apply keyed_update.
  - by apply rows_update.
  - by apply unique_update.
  - eapply refers_dom; [done|]. by rewrite dom_update_rows.
  - eapply refers_dom; [done|]. by rewrite dom_update_rows.
  - eapply refers_dom; [done|]. by rewrite dom_update_rows.
  - eapply refers_dom; [done|]. by rewrite dom_update_rows.
Qed.

Lemma incidents_update_wf q f :
  (∀ r, i_id (f r) = i_id r) → (∀ r, i_monitor_id (f r) = i_monitor_id r) →
  (∀ r, q r = true → incident_open (f r) = true → incident_open r = true) →
  (∀ r, incident_row_ok r → q r = true → incident_row_ok (f r)) →
  tables_wf (d <| incidents := update_rows q f (incidents d) |>).
Proof.
  intros Hid Hm Ha Hok. pose proof Hd as []. split; cbn; try done.
  - by apply keyed_update.
  - by apply rows_update.
  - by apply unique_update.
  - by apply refers_update.
  - eapply refers_dom; [done|]. by rewrite dom_update_rows.
Qed.

Lemma alerts_update_wf q f :
  (∀ r, a_id (f r) = a_id r) → (∀ r, a_idempotency_key (f r) = a_idempotency_key r) →
  (∀ r, a_incident_id (f r) = a_incident_id r) → (∀ r, a_monitor_id (f r) = a_monitor_id r) →
  (∀ r, alert_check r = true → q r = true → alert_check (f r) = true) →
  tables_wf (d <| alert_outbox := update_rows q f (alert_outbox d) |>).
Proof.
  intros Hid Hk Hi Hm Hok. pose proof Hd as []. split; cbn; try done.
  - by apply keyed_update.
  - intros k r (x & Hx & ->)%lookup_update_rows_Some. destruct (q x) eqn:Hq; [apply Hok; [|done]|];
      eapply tw_alert_rows, Hx.
  - by apply unique_update.
  - by apply refers_update.
  - by apply refers_update.
Qed.

(** Replacing or adding a monitor row. *)
Lemma monitor_put_wf id row :
  m_id row = id → monitor_row_ok row →
  (∀ k r, monitors d !! k = Some r → m_url r = m_url row → k = id) →
  tables_wf (d <| monitors := <[id := row]> (monitors d) |>).
Proof.
  intros <- Hok Hu. destruct Hd.
  assert (dom (monitors d) ⊆ dom (<[m_id row:=row]> (monitors d))) as Hdom by set_solver.
  split; cbn; try done; try (by eapply refers_dom).
  - by apply keyed_insert.
  - by apply map_Forall_insert_2.
  - apply unique_insert; [done|]. intros k r Hk _ Hr _. by eapply Hu.
Qed.

Lemma job_insert_wf row :
  job_row_ok row → is_Some (monitors d !! j_monitor_id row) →
  (job_active row = true → exists_row (active_of (j_monitor_id row)) (check_jobs d) = false) →
  tables_wf (d <| check_jobs := <[j_id row := row]> (check_jobs d) |>).
Proof.
  intros Hok Hm Ha. pose proof Hd as []. split; cbn; try done.
  - by apply keyed_insert.
  - by apply map_Forall_insert_2.
  - apply unique_insert; [done|]. intros k r Hk Hp Hr Hrow. exfalso.
    assert (exists_row (active_of (j_monitor_id row)) (check_jobs d) = true) as He; [|by rewrite Ha in He].
    apply exists_row_spec. exists k, r. split; [done|]. unfold active_of. by rewrite Hr, String.eqb_refl.
  - by apply refers_insert.
Qed.

Lemma result_insert_wf row :
  is_Some (monitors d !! c_monitor_id row) →
  (∀ k r, check_results d !! k = Some r → is_Some (c_job_id r) → c_job_id r ≠ c_job_id row) →
  tables_wf (d <| check_results := <[c_id row := row]> (check_results d) |>).
Proof.
  intros Hm Hj. pose proof Hd as []. split; cbn; try done.
  - by apply keyed_insert.
  - apply unique_insert; [done|]. intros k r Hk Hp Hr _. apply bool_decide_eq_true in Hp. by destruct (Hj _ _ Hk Hp).
  - by apply refers_insert.
Qed.

Lemma incident_put_wf id row :
  i_id row = id → incident_row_ok row → is_Some (monitors d !! i_monitor_id row) →
  (∀ k r, incidents d !! k = Some r → i_monitor_id r = i_monitor_id row → incident_open r = true →
     incident_open row = true → k = id) →
  tables_wf (d <| incidents := <[id := row]> (incidents d) |>).
Proof.
  intros <- Hok Hm Ho. destruct Hd.
  assert (dom (incidents d) ⊆ dom (<[i_id row:=row]> (incidents d))) as Hdom by set_solver.
  split; cbn; try done; try (by eapply refers_dom).
  - by apply keyed_insert.
  - by apply map_Forall_insert_2.
  - apply unique_insert; [done|]. intros k r Hk Hp Hr Hrow. by eapply Ho.
  - by apply refers_insert.
Qed.

Lemma alert_insert_wf row :
  alert_check row = true → is_Some (incidents d !! a_incident_id row) → is_Some (monitors d !! a_monitor_id row) →
  (∀ k r, alert_outbox d !! k = Some r → a_idempotency_key r ≠ a_idempotency_key row) →
  tables_wf (d <| alert_outbox := <[a_id row := row]> (alert_outbox d) |>).
Proof.
  intros Hok Hi Hm Hk. pose proof Hd as []. split; cbn; try done.
  - by apply keyed_insert.
  - by apply map_Forall_insert_2.
  - apply unique_insert; [done|]. intros k r Hr _ He _. by destruct (Hk _ _ Hr).
  - by apply refers_insert.
  - by apply refers_insert.
Qed.

Lemma results_delete_wf q : tables_wf (d <| check_results := delete_rows q (check_results d) |>).
Proof.
  pose proof Hd as []. split; cbn; try done; [by apply keyed_delete|by apply unique_delete|by apply refers_delete].
Qed.
Lemma jobs_delete_wf q : tables_wf (d <| check_jobs := delete_rows q (check_jobs d) |>).
Proof.
  pose proof Hd as [].

  split; cbn; try done; [by apply keyed_delete|by apply rows_delete|by apply unique_delete|by apply refers_delete].
Qed.
Lemma alerts_delete_wf q : tables_wf (d <| alert_outbox := delete_rows q (alert_outbox d) |>).
Proof.
  pose proof Hd as []. split; cbn; try done; [by apply keyed_delete| |by apply unique_delete|by apply refers_delete..].
  intros k r [Hk _]%lookup_delete_rows_Some. eapply tw_alert_rows, Hk.
Qed.
(** With the alerts that refer to them. *)
Lemma incidents_delete_wf q qa :
  (∀ k r, alert_outbox d !! k = Some r → qa r = false →
     ∀ i, incidents d !! a_incident_id r = Some i → q i = false) →
  tables_wf (d <| incidents := delete_rows q (incidents d) |> <| alert_outbox := delete_rows qa (alert_outbox d) |>).
Proof.
  intros Hq. pose proof Hd as []. split; cbn; try done.
  - by apply keyed_delete.
  - by apply rows_delete.
  - by apply unique_delete.
  - by apply refers_delete.
  - by apply keyed_delete.
  - intros k r [Hk _]%lookup_delete_rows_Some. eapply tw_alert_rows, Hk.
  - by apply unique_delete.
  - intros k r [Hk Hp]%lookup_delete_rows_Some. destruct (tw_alert_incident _ _ Hk) as [i Hi].
    exists i. apply lookup_delete_rows_Some. split; [done|]. by eapply Hq.
  - by apply refers_delete.
Qed.

Lemma delete_monitor_wf id : tables_wf (delete_monitor id d).
Proof.
  assert (∀ (R : Type) (key : R → string) (t : gmap string R),
    refers key t (monitors d) → refers key (delete_rows (λ r, String.eqb (key r) id) t) (delete id (monitors d))) as Hrefers.
  { intros R key t Ht k r [Hk Hr]%lookup_delete_rows_Some. apply String.eqb_neq in Hr.
    rewrite lookup_delete_ne by done. by eapply Ht. }
  pose proof Hd as []. split; cbn;
    eauto using keyed_delete, rows_delete, unique_delete.
  - intros k r [_ Hk]%lookup_delete_Some. eauto.
  - by apply map_Forall_delete.
  - intros k1 k2 r1 r2 [_ H1]%lookup_delete_Some [_ H2]%lookup_delete_Some. eauto.
  - intros k r [Hk Hr]%lookup_delete_rows_Some. destruct (tw_alert_incident _ _ Hk) as [i Hi].
    exists i. apply lookup_delete_rows_Some. split; [done|].
    apply orb_false_iff in Hr as [_ Hr]. apply not_true_iff_false. intros He.
    apply (not_true_iff_false _) in Hr. apply Hr. apply exists_row_spec. exists (a_incident_id r), i.
    split; [done|]. by rewrite (tw_incidents _ _ Hi), String.eqb_refl.
  - intros k r [Hk Hr]%lookup_delete_rows_Some. apply orb_false_iff in Hr as [Hr _]. apply String.eqb_neq in Hr.
    rewrite lookup_delete_ne by done. by eapply tw_alert_monitor.
Qed.
End changes.

(** ** Rows the statements write *)

Lemma finished_row_ok st e now r :
  job_row_ok r → st ≠ checkJobStatusProcessing → job_row_ok (finished_row st e now r).
Proof. intros [Hc _] Hst. split; [done|]. cbn. by rewrite decide_False. Qed.
Lemma failed_row_ok now at_ e r : job_row_ok r → job_row_ok (failed_row now at_ e r).
Proof. intros [Hc _]. by split. Qed.

Lemma job_is_spec st r : job_is st r = true ↔ j_status r = st.
Proof. unfold job_is. by rewrite bool_decide_eq_true. Qed.

Lemma open_row_resolved now r : incident_row_ok (resolved_row now r).
Proof. unfold incident_row_ok. cbn. split; [by eauto|done]. Qed.

Lemma advance_row_ok now m : monitor_row_ok m → monitor_row_ok (advance_row now m).
Proof. done. Qed.

Lemma scan_status_ok row : monitor_row_ok row → mon_Status (scanMonitor row) = monitorStatusActive ↔ mon_Enabled (scanMonitor row) = true.
Proof. by intros [_ H]. Qed.

Lemma isUnique_none {R} (p : R → bool) (t : gmap string R) `{MR : !MapRange} k r :
  exists_row p t = false → t !! k = Some r → p r = false.
Proof.
  intros He Hk. destruct (p r) eqn:Hp; [|done].
  rewrite (proj2 (exists_row_spec p t)) in He; [done|eauto].
Qed.

(** ** The methods *)

(** Walks through a session down to the statements that write. *)
Ltac session_steps :=
  repeat match goal with
  | |- guarantees _ (bind _ _) => apply guarantees_bind; [apply _| |intros ?]
  | |- guarantees _ (ret _) => apply guarantees_ret, _
  | |- guarantees _ (fail _) => apply guarantees_fail, _
  | |- guarantees _ (try _) => apply guarantees_try
  | |- guarantees _ databaseTime => apply guarantees_databaseTime, _
  | |- guarantees _ (transaction _) => apply guarantees_transaction; [apply _|assumption|]
  | |- guarantees _ (query _ _) => apply guarantees_query; [apply _|assumption|]
  | |- guarantees _ (exec _ _) => apply guarantees_exec; [apply _|]
  | |- guarantees _ (read _ _) => unfold read
  | |- guarantees _ (tx_read _ _) => unfold tx_read
  | |- guarantees _ (if ?b then _ else _) => destruct b eqn:?
  | |- guarantees _ (match ?x with _ => _ end) => destruct x
  | |- guarantees _ (let _ := _ in _) => cbv zeta
  | |- stmt_guarantees _ (λ _ _ d, (d, _)) => intros ? ? ? ? ? [= <- ?]; reflexivity
  end.

(** A statement is one step. *)
Ltac one_step c :=
  let H := fresh "Hst" in intros ? ? ? ? ? H; apply rtc_once;
  first [injection H as <- ?; by apply c | eapply c; [..|exact H]; done].

Section methods.
Context `{UN : !Unicode, UP : !URLParser, MR : !MapRange, SV : !Server Tables, CO : !Collation, WC : !WebhookClient}.
#[local] Abbreviation safe := (stmt_keeps tables_wf).

(** *** Statements *)

Lemma put_row_wf row d d' r :
  tables_wf d → (m_status row = monitorStatusActive ↔ m_enabled row = true) →
  put_monitor row d = (d', Ok r) → tables_wf d'.
Proof.
  intros Hd Hs. unfold put_monitor. destruct (monitor_check row) eqn:Hc; cbn; [|done].
  destruct (exists_row _ _) eqn:He; [done|]. intros [= <- _]. apply monitor_put_wf; [done|done|by split|].
  intros k r' Hk Hu. apply (isUnique_none _ _ _ _ He) in Hk as Hn. rewrite Hu, String.eqb_refl in Hn. cbn in Hn.
  apply negb_false_iff, String.eqb_eq in Hn. rewrite <- Hn. symmetry. by apply (tw_monitors _ Hd).
Qed.

Lemma insert_job_safe row : job_row_ok row → safe (insert_job row).
Proof.
  intros Hok now lk d d' a Hd. unfold insert_job.
  destruct (_ || _) eqn:He; [done|]. destruct (monitors d !! _) as [m|] eqn:Hm; [|done]. intros [= <- _].
  apply job_insert_wf; [done|done|by rewrite Hm|]. intros Ha. apply orb_false_iff in He as [_ He].
  by rewrite Ha in He.
Qed.

Lemma update_jobs_safe p f :
  (∀ now r, j_id (f now r) = j_id r) → (∀ now r, j_monitor_id (f now r) = j_monitor_id r) →
  (∀ now r, p now r = true → job_active (f now r) = true → job_active r = true) →
  (∀ now r, job_row_ok r → p now r = true → job_row_ok (f now r)) → safe (update_jobs p f).
Proof.
  intros H1 H2 H3 H4 now lk d d' a Hd [= <- _].
  apply jobs_update_wf; [done|apply H1|apply H2|apply H3|apply H4].
Qed.

Lemma resolve_open_wf id now d : tables_wf d → tables_wf (resolve_open id now d).
Proof.
  intros Hd. by apply incidents_update_wf.
Qed.

Lemma kill_active_wf id now e d : tables_wf d → tables_wf (kill_active id now e d).
Proof. intros Hd. apply jobs_update_wf; try done. intros r Hr _. by refine (finished_row_ok _ _ _ _ Hr _). Qed.

Lemma update_monitor_safe id f :
  (∀ r, m_id (f r) = m_id r) → (∀ r, m_url (f r) = m_url r) → (∀ r, monitor_row_ok r → monitor_row_ok (f r)) →
  safe (update_monitor id f).
Proof.
  intros Hid Hu Hok now lk d d' a Hd. unfold update_monitor.
  destruct (monitors d !! id) as [row|] eqn:Hm; intros [= <- _]; [|done].
  pose proof (tw_monitors _ Hd _ _ Hm) as Hrow.
  apply monitor_put_wf; [done|by rewrite Hid|apply Hok; by eapply tw_monitor_rows|].
  intros k r Hk Heq. rewrite Hu in Heq. by eapply (tw_url _ Hd).
Qed.

Lemma kill_exhausted_wf maxAttempts now d : tables_wf d → tables_wf (kill_exhausted maxAttempts now d).
Proof.
  intros Hd. unfold kill_exhausted.
  assert (tables_wf (d <| check_jobs := update_rows (exhausted maxAttempts now) (exhausted_row now) (check_jobs d) |>)) as Hd1.
  { apply jobs_update_wf; try done. intros r Hr _. by refine (finished_row_ok _ _ _ _ Hr _). }
  by refine (monitors_update_wf _ Hd1 _ _ _ _ _).
Qed.

Lemma fail_expired_wf maxAttempts now d : tables_wf d → tables_wf (fail_expired maxAttempts now d).
Proof.
  intros Hd. apply jobs_update_wf; try done.
  - intros r Hq _. unfold lease_expired in Hq. apply andb_true_iff in Hq as [[Hq _]%andb_true_iff _].
    apply job_is_spec in Hq. unfold job_active. by rewrite Hq.
  - intros r Hr _. exact (failed_row_ok _ _ _ _ Hr).
Qed.

Lemma claim_rows_safe limit now exp maxAttempts token : safe (claim_rows limit now exp maxAttempts token).
Proof.
  intros now' lk d d' a Hd [= <- _].
  set (ids := j_id <$> _). rewrite (update_rows_ext _ (λ r, chosen ids r && claimable_row maxAttempts now r)).
  - apply jobs_update_wf; try done.
    + intros r [_ Hc]%andb_true_iff _. unfold claimable_row in Hc. unfold job_active, job_is in *.
      by destruct (j_status r).
    + intros r [Hc Hr] Hq. split; [done|]. cbn. apply andb_true_iff in Hq as [_ Hq].
      unfold claimable_row, job_is in Hq. destruct (decide (j_status r = checkJobStatusProcessing)) as [He|]; [|done].
      by rewrite He in Hq.
  - intros k r Hk. destruct (chosen ids r) eqn:Hc; [|done]. symmetry. cbn.
    apply bool_decide_eq_true, (chosen_selected j_id _ _ _ _ _ _ _ (tw_jobs _ Hd) Hk), andb_true_iff in Hc. apply Hc.
Qed.

Lemma update_alerts_safe p f :
  (∀ now r, a_id (f now r) = a_id r) → (∀ now r, a_idempotency_key (f now r) = a_idempotency_key r) →
  (∀ now r, a_incident_id (f now r) = a_incident_id r) → (∀ now r, a_monitor_id (f now r) = a_monitor_id r) →
  (∀ now r, alert_check r = true → p r = true → alert_check (f now r) = true) → safe (update_alerts p f).
Proof.
  intros H1 H2 H3 H4 H5 now lk d d' a Hd [= <- _].
  apply alerts_update_wf; [done|apply H1|apply H2|apply H3|apply H4|apply H5].
Qed.

Lemma claim_alerts_safe limit now until token maxAttempts : safe (claim_alerts limit now until token maxAttempts).
Proof.
  intros now' lk d d' a Hd [= <- _]. apply alerts_update_wf; try done.
  intros r Hr _. unfold alert_check in *. cbn in *. apply andb_true_iff in Hr as [Hr _]. rewrite andb_true_r. lia.
Qed.

Lemma insert_result_safe record now : safe (insert_result record now).
Proof.
  intros now' lk d d' a Hd. unfold insert_result. destruct (exists_row _ _) eqn:He; [by intros [= <- _]|].
  destruct (check_results d !! _) eqn:Hc; [done|]. destruct (monitors d !! _) as [m|] eqn:Hm; [|done].
  intros [= <- _].
  match goal with |- context [insert _ ?row (check_results d)] => apply (result_insert_wf d Hd row) end;
    cbn; [by rewrite Hm|].
  intros k r Hk Hr Heq. apply (isUnique_none _ _ _ _ He) in Hk. cbn in Heq.
  rewrite !bool_decide_eq_true_2 in Hk by done. done.
Qed.

Lemma upsert_incident_safe id m e now : safe (upsert_incident id m e now).
Proof.
  intros now' lk d d' a Hd. unfold upsert_incident. destruct (first_row _ _) as [row|] eqn:Hf.
  - apply first_row_Some in Hf as [[k Hk] Ho]. apply andb_true_iff in Ho as [Hm Ho].
    destruct (int4_ok _); [|done]. intros [= <- _].
    pose proof (tw_incidents _ Hd _ _ Hk) as Hid.
    apply (incident_put_wf d Hd (i_id row) (row <| i_failure_count := _ |> <| i_last_failure_at := _ |>
             <| i_last_error := _ |> <| i_updated_at := _ |>)); cbn; [done|..].
    + exact (tw_incident_rows _ Hd _ _ Hk).
    + exact (tw_incident_monitor _ Hd _ _ Hk).
    + intros k' r' Hk' Hm' Ho' _. rewrite Hid. by eapply (tw_one_open _ Hd).
  - destruct (incidents d !! id) eqn:Hi; [done|]. destruct (monitors d !! m) eqn:Hm; [|done].
    intros [= <- _]. apply (incident_put_wf d Hd id (mkIncidentRow id m _ _ _ _ _ _ _ _ _ _)); cbn; [done|..].
    + split; [done|by intros [??]].
    + by rewrite Hm.
    + intros k r Hk Hrm Hro _. rewrite first_row_None in Hf. specialize (Hf _ _ Hk).
      unfold open_of in Hf. by rewrite Hrm, String.eqb_refl, Hro in Hf.
Qed.

Lemma insert_alert_safe row : alert_check row = true → safe (insert_alert row).
Proof.
  intros Hc now lk d d' a Hd. unfold insert_alert. destruct (exists_row _ _) eqn:He; [by intros [= <- _]|].
  destruct (alert_outbox d !! _) eqn:Ha; [done|]. destruct (incidents d !! _) eqn:Hi; [|done].
  destruct (monitors d !! _) eqn:Hm; [|done]. intros [= <- _].
  apply alert_insert_wf; [done|done|by rewrite Hi|by rewrite Hm|].
  intros k r Hk Heq. apply (isUnique_none _ _ _ _ He) in Hk. by rewrite Heq, String.eqb_refl in Hk.
Qed.

Lemma mark_alerted_safe id now : safe (mark_alerted id now).
Proof.
  intros now' lk d d' a Hd. unfold mark_alerted. destruct (incidents d !! id) as [row|] eqn:Hi; [|by intros [= <- _]].
  destruct (int4_ok _); [|done]. intros [= <- _].
  pose proof (tw_incidents _ Hd _ _ Hi) as Hid. 
  apply (incident_put_wf d Hd id (row <| i_last_alerted_at := _ |> <| i_alert_count := _ |> <| i_updated_at := _ |>));
    cbn; [done|..].
  - exact (tw_incident_rows _ Hd _ _ Hi).
  - exact (tw_incident_monitor _ Hd _ _ Hi).
  - intros k r Hk Hm Ho Ho'. by eapply (tw_one_open _ Hd).
Qed.

Lemma kill_owned_safe lease e : safe (kill_owned lease e).
Proof.
  intros now lk d d' a Hd. unfold kill_owned. destruct (first_row _ _); intros [= <- _]; [|done].
  apply jobs_update_wf; try done. intros r Hr _. by refine (finished_row_ok _ _ _ _ Hr _).
Qed.
Lemma delete_results_safe cutoff n : safe (delete_results cutoff n).
Proof. intros now lk d d' a Hd [= <- _]. by apply results_delete_wf. Qed.
Lemma delete_jobs_safe cutoff n : safe (delete_jobs cutoff n).
Proof. intros now lk d d' a Hd [= <- _]. by apply jobs_delete_wf. Qed.
Lemma delete_alerts_safe cutoff n : safe (delete_alerts cutoff n).
Proof. intros now lk d d' a Hd [= <- _]. by apply alerts_delete_wf. Qed.
Lemma delete_incidents_safe cutoff n : safe (delete_incidents cutoff n).
Proof.
  intros now lk d d' a Hd [= <- _]. apply incidents_delete_wf; [done|].
  intros k r Hk Hq i Hi. rewrite (tw_incidents _ Hd _ _ Hi). done.
Qed.

(** An incident that is deleted has no alerts. *)
Lemma delete_incidents_alerts cutoff n now lk d d' a :
  tables_wf d → delete_incidents cutoff n now lk d = (d', Ok a) → alert_outbox d' = alert_outbox d.
Proof.
  intros Hd [= <- _]. cbn. apply map_eq. intros id.
  destruct (alert_outbox d !! id) as [r|] eqn:Hr.
  - apply lookup_delete_rows_Some. split; [done|]. apply bool_decide_eq_false. intros He.
    destruct (tw_alert_incident _ Hd _ _ Hr) as [i Hi].
    rewrite <- (tw_incidents _ Hd _ _ Hi) in He.
    apply (chosen_selected i_id _ _ _ _ _ _ _ (tw_incidents _ Hd) Hi), andb_true_iff in He as [He _].
    unfold expired_incident in He. apply andb_true_iff in He as [_ He]. apply negb_true_iff in He.
    rewrite (tw_incidents _ Hd _ _ Hi) in He.
    apply (isUnique_none _ _ _ _ He) in Hr. by rewrite String.eqb_refl in Hr.
  - destruct (delete_rows _ _ !! id) eqn:Hx; [|done]. apply lookup_delete_rows_Some in Hx as [Hx _]. congruence.
Qed.

(** ** Steps of the tables

    What one statement may do to the tables: the conditions the code
    establishes before it sends the statement are premises.  [del] allows the
    deletion of a monitor. *)
Inductive table_step (del : bool) (d : Tables) : Tables → Prop :=
| ts_insert_monitor row now lk d' a :
    (∀ now, m_status (row now) = monitorStatusActive ↔ m_enabled (row now) = true) →
    insert_monitor row now lk d = (d', Ok a) → table_step del d d'
| ts_put_monitor row d' a :
    (m_status row = monitorStatusActive ↔ m_enabled row = true) →
    put_monitor row d = (d', Ok a) → table_step del d d'
| ts_update_monitor id f now lk d' a :
    (∀ r, m_id (f r) = m_id r) → (∀ r, m_url (f r) = m_url r) → (∀ r, monitor_row_ok r → monitor_row_ok (f r)) →
    update_monitor id f now lk d = (d', Ok a) → table_step del d d'
| ts_delete_monitor id : del = true → table_step del d (delete_monitor id d)
| ts_resolve id now : table_step del d (resolve_open id now d)
| ts_kill_active id now e : table_step del d (kill_active id now e d)
| ts_insert_job row now lk d' a :
    j_status row = checkJobStatusScheduled → j_attempt row = 0 → j_lease_token row = None →
    insert_job row now lk d = (d', Ok a) → table_step del d d'
| ts_kill_exhausted maxAttempts now : table_step del d (kill_exhausted maxAttempts now d)
| ts_fail_expired maxAttempts now : table_step del d (fail_expired maxAttempts now d)
| ts_claim_jobs limit now exp maxAttempts token now' lk d' a :
    claim_rows limit now exp maxAttempts token now' lk d = (d', Ok a) → table_step del d d'
| ts_published claim now lk d' a :
    update_jobs (publication_owned claim) queued_row now lk d = (d', Ok a) → table_step del d d'
| ts_released claim e now lk d' a :
    update_jobs (publication_owned claim) (released_row e) now lk d = (d', Ok a) → table_step del d d'
| ts_recovered now lk d' a :
    update_jobs (λ _, lost_row) recovered_row now lk d = (d', Ok a) → table_step del d d'
| ts_started id jobID attempt lt token now lk d' a :
    1 <= attempt → token ≠ "" →
    update_jobs (λ _, startable id jobID attempt) (processing_row attempt lt token) now lk d = (d', Ok a) →
    table_step del d d'
| ts_failed lease delay e now lk d' a :
    update_jobs (lease_owned lease) (λ now, failed_row now (now + delay) e) now lk d = (d', Ok a) → table_step del d d'
| ts_killed lease e now lk d' a : kill_owned lease e now lk d = (d', Ok a) → table_step del d d'
| ts_completed lease at_ now lk d' a :
    update_jobs (lease_owned lease) (λ _, finished_row checkJobStatusCompleted "" at_) now lk d = (d', Ok a) →
    table_step del d d'
| ts_insert_result record at_ now lk d' a : insert_result record at_ now lk d = (d', Ok a) → table_step del d d'
| ts_upsert_incident id m e at_ now lk d' a : upsert_incident id m e at_ now lk d = (d', Ok a) → table_step del d d'
| ts_insert_alert row now lk d' a :
    a_status row = alertPending → a_attempt_count row = 0 → a_lease_token row = None → a_locked_until row = None →
    insert_alert row now lk d = (d', Ok a) → table_step del d d'
| ts_mark_alerted id at_ now lk d' a : mark_alerted id at_ now lk d = (d', Ok a) → table_step del d d'
| ts_kill_alerts maxAttempts now :
    table_step del d (d <| alert_outbox := update_rows (alert_exhausted maxAttempts now) (dead_alert now) (alert_outbox d) |>)
| ts_claim_alerts limit at_ until token maxAttempts now lk d' a :
    claim_alerts limit at_ until token maxAttempts now lk d = (d', Ok a) → table_step del d d'
| ts_delivered id token now lk d' a :
    update_alerts (alert_owned id token) delivered_alert now lk d = (d', Ok a) → table_step del d d'
| ts_alert_failed id token st delay e now lk d' a :
    st = alertPending ∨ st = alertDead →
    update_alerts (alert_owned id token) (failed_alert st delay e) now lk d = (d', Ok a) → table_step del d d'
| ts_delete_results cutoff n now lk d' a : delete_results cutoff n now lk d = (d', Ok a) → table_step del d d'
| ts_delete_jobs cutoff n now lk d' a : delete_jobs cutoff n now lk d = (d', Ok a) → table_step del d d'
| ts_delete_alerts cutoff n now lk d' a : delete_alerts cutoff n now lk d = (d', Ok a) → table_step del d d'
| ts_delete_incidents cutoff n now lk d' a : delete_incidents cutoff n now lk d = (d', Ok a) → table_step del d d'.

Definition table_steps (del : bool) : relation Tables := rtc (table_step del).

Lemma lease_owned_active lease now r : lease_owned lease now r = true → job_active r = true.
Proof.
  unfold lease_owned, job_is, job_active. destruct (j_status r); rewrite ?andb_false_r; try done;
    cbn; by rewrite ?andb_false_r.
Qed.

Lemma publication_owned_scheduled claim now r : publication_owned claim now r = true → j_status r = checkJobStatusScheduled.
Proof.
  unfold publication_owned. rewrite !andb_true_iff. intros (_ & ((((_ & H) & _) & _) & _)). by apply job_is_spec.
Qed.

Lemma lost_row_spec r : lost_row r = true → j_status r = checkJobStatusScheduled ∨ j_status r = checkJobStatusQueued.
Proof. unfold lost_row. rewrite orb_true_iff, !job_is_spec. done. Qed.

Lemma startable_spec id jobID attempt r :
  startable id jobID attempt r = true →
  (j_status r = checkJobStatusScheduled ∨ j_status r = checkJobStatusQueued) ∧ j_attempt r < attempt.
Proof. unfold startable. rewrite !andb_true_iff, orb_true_iff, !job_is_spec. intros (_ & (_ & H) & Ha). split; [done|lia]. Qed.

Lemma not_processing_ok r (st : CheckJobStatus) :
  job_row_ok r → j_status r = st → st ≠ checkJobStatusProcessing → job_check r = true ∧ j_lease_token r = None.
Proof. intros [Hc Hr] Hst Hne. rewrite decide_False in Hr by congruence. done. Qed.

Lemma start_row_ok attempt lt token now r :
  1 <= attempt → token ≠ "" → job_row_ok (processing_row attempt lt token now r).
Proof.
  intros Ha Ht. split; [unfold job_check; cbn; lia|]. cbn. split; [eauto|]. split; [|lia]. by exists token.
Qed.

Lemma alert_check_count r : alert_check r = true → (0 <=? a_attempt_count r) = true.
Proof. unfold alert_check. by intros [H _]%andb_true_iff. Qed.

(** Every step keeps the invariant. *)
Lemma table_step_wf del d d' : tables_wf d → table_step del d d' → tables_wf d'.
Proof.
  intros Hd. destruct 1 as
    [row now lk d' a Hs Hst|row d' a Hs Hst|id f now lk d' a H1 H2 H3 Hst|id _|id now|id now e
    |row now lk d' a H1 H2 H3 Hst|ma now|ma now|limit now exp ma token now' lk d' a Hst|claim now lk d' a Hst
    |claim e now lk d' a Hst|now lk d' a Hst|id jobID attempt lt token now lk d' a H1 H2 Hst
    |lease delay e now lk d' a Hst|lease e now lk d' a Hst|lease at_ now lk d' a Hst|record at_ now lk d' a Hst
    |id m e at_ now lk d' a Hst|row now lk d' a H1 H2 H3 H4 Hst|id at_ now lk d' a Hst|ma now
    |limit at_ until token ma now lk d' a Hst|id token now lk d' a Hst|id token st delay e now lk d' a H1 Hst
    |cutoff n now lk d' a Hst|cutoff n now lk d' a Hst|cutoff n now lk d' a Hst|cutoff n now lk d' a Hst].
  - unfold insert_monitor in Hst. destruct (monitors d !! _); [done|]. by eapply put_row_wf.
  - by eapply put_row_wf.
  - by eapply update_monitor_safe.
  - by apply delete_monitor_wf.
  - by apply resolve_open_wf.
  - by apply kill_active_wf.
  - eapply insert_job_safe; [|done|done]. split; [unfold job_check; by rewrite H2|]. by rewrite decide_False by congruence.
  - by apply kill_exhausted_wf.
  - by apply fail_expired_wf.
  - by eapply claim_rows_safe.
  - eapply update_jobs_safe; [..|exact Hd|exact Hst]; try done; intros t r.
    + intros Hq%publication_owned_scheduled _. unfold job_active. by rewrite Hq.
    + intros Hr Hq%publication_owned_scheduled. by apply (not_processing_ok r _ Hr Hq).
  - eapply update_jobs_safe; [..|exact Hd|exact Hst]; try done; intros t r.
    intros Hr Hq%publication_owned_scheduled. destruct Hr as [Hc Hr]. split; [done|]. cbn. by rewrite Hq in *.
  - eapply update_jobs_safe; [..|exact Hd|exact Hst]; try done; intros t r.
    + intros [Hq|Hq]%lost_row_spec _; unfold job_active; by rewrite Hq.
    + intros [Hc _] _. by split.
  - eapply update_jobs_safe; [..|exact Hd|exact Hst]; try done; intros t r.
    + intros [[Hq|Hq] _]%startable_spec _; unfold job_active; by rewrite Hq.
    + intros _ _. by apply start_row_ok.
  - eapply update_jobs_safe; [..|exact Hd|exact Hst]; try done; intros t r.
    + intros Hq _. by eapply lease_owned_active.
    + intros Hr _. exact (failed_row_ok _ _ _ _ Hr).
  - by eapply kill_owned_safe.
  - eapply update_jobs_safe; [..|exact Hd|exact Hst]; try done; intros t r.
    intros Hr _. by refine (finished_row_ok _ _ _ _ Hr _).
  - by eapply insert_result_safe.
  - by eapply upsert_incident_safe.
  - eapply insert_alert_safe; [|done|done]. unfold alert_check. by rewrite H1, H2, H3, H4.
  - by eapply mark_alerted_safe.
  - apply alerts_update_wf; try done. intros r Hr%alert_check_count _. unfold alert_check. cbn. by rewrite Hr.
  - by eapply claim_alerts_safe.
  - eapply update_alerts_safe; [..|exact Hd|exact Hst]; try done. intros t r Hr%alert_check_count _.
    unfold alert_check. cbn. by rewrite Hr.
  - eapply update_alerts_safe; [..|exact Hd|exact Hst]; try done. intros t r Hr%alert_check_count _.
    unfold alert_check. cbn. rewrite Hr. by destruct H1 as [-> | ->].
  - by eapply delete_results_safe.
  - by eapply delete_jobs_safe.
  - by eapply delete_alerts_safe.
  - by eapply delete_incidents_safe.
Qed.

Lemma table_steps_wf del d d' : table_steps del d d' → tables_wf d → tables_wf d'.
Proof. induction 1 as [|x y z Hs _ IH]; [done|]. intros Hx. apply IH. by eapply table_step_wf. Qed.

Lemma guaranteed_wf {A} del (p : Sql.proc (DB:=Tables) A) n d n' d' r :
  guarantees (table_steps del) p → tables_wf d → p n d = (n', d', r) → tables_wf d'.
Proof. intros Hp Hd Hr. specialize (Hp n d). rewrite Hr in Hp. by eapply table_steps_wf. Qed.

(** ** The methods

    [PgOp] lists the repository's methods with their arguments. *)
Inductive PgOp :=
| PgCreate (p : NetworkPolicy) (input : MonitorInput) (rnd : Entropy)
| PgUpdate (p : NetworkPolicy) (id : string) (patch : MonitorPatch)
| PgDelete (id : string)
| PgCreateManualJob (id : string) (rnd : Entropy)
| PgClaimDueJobs (limit leaseTimeout maxAttempts : Z) (clk : Time) (rnd0 : Entropy) (rnd : nat → Entropy)
| PgMarkJobPublished (claim : PublicationClaim)
| PgReleaseJobPublish (claim : PublicationClaim) (lastError : string)
| PgRecoverQueuedJobs
| PgMarkJobProcessing (id jobID : string) (attempt leaseTimeout : Z) (rnd : Entropy)
| PgMarkJobFailed (lease : ProcessingLease) (lastError : string) (retryDelay : Z)
| PgMarkJobDead (lease : ProcessingLease) (lastError : string)
| PgAddCheck (record : CheckRecord) (lease : ProcessingLease) (ap : AlertPolicy) (rndInc rndAlert : Entropy)
| PgClaimAlerts (limit leaseTimeout maxAttempts : Z) (rnd : Entropy)
| PgMarkAlertDelivered (id leaseToken : string)
| PgMarkAlertFailed (id leaseToken lastError : string) (retryDelay : Z) (dead : bool)
| PgDeleteExpiredData (policy : RetentionPolicy).

Definition done_ {A} (p : Sql.proc (DB:=Tables) A) : Sql.proc (DB:=Tables) unit := do+ p in ret tt.

Definition pg_run (op : PgOp) : Sql.proc (DB:=Tables) unit :=
  match op with
  | PgCreate p input rnd => done_ (pg_Create p input rnd)
  | PgUpdate p id patch => done_ (pg_Update p id patch)
  | PgDelete id => pg_Delete id
  | PgCreateManualJob id rnd => done_ (pg_CreateManualJob id rnd)
  | PgClaimDueJobs limit lt ma clk rnd0 rnd => done_ (pg_ClaimDueJobs limit lt ma clk rnd0 rnd)
  | PgMarkJobPublished claim => pg_MarkJobPublished claim
  | PgReleaseJobPublish claim e => pg_ReleaseJobPublish claim e
  | PgRecoverQueuedJobs => done_ pg_RecoverQueuedJobsAfterTopologyLoss
  | PgMarkJobProcessing id jobID attempt lt rnd => done_ (pg_MarkJobProcessing id jobID attempt lt rnd)
  | PgMarkJobFailed lease e delay => pg_MarkJobFailed lease e delay
  | PgMarkJobDead lease e => pg_MarkJobDead lease e
  | PgAddCheck record lease ap r1 r2 => done_ (pg_AddCheck record lease ap r1 r2)
  | PgClaimAlerts limit lt ma rnd => done_ (pg_ClaimAlerts limit lt ma rnd)
  | PgMarkAlertDelivered id token => pg_MarkAlertDelivered id token
  | PgMarkAlertFailed id token e delay dead => pg_MarkAlertFailed id token e delay dead
  | PgDeleteExpiredData policy => done_ (pg_DeleteExpiredData policy)
  end.

Section walk.
Context (del : bool) (Hothers : ∀ n d, table_steps del d (others n d)).
#[local] Abbreviation steps := (guarantees (table_steps del)).
#[local] Instance steps_preorder : PreOrder (table_steps del).
Proof. unfold table_steps. apply _. Qed.

Lemma update_target_status current updated now :
  mon_Status (update_target current updated now) = monitorStatusActive
  ↔ mon_Enabled (update_target current updated now) = true.
Proof. unfold update_target. cbn. by destruct (mon_Enabled updated) eqn:He; cbn; rewrite ?He. Qed.

Lemma Create_steps p input rnd : steps (pg_Create p input rnd).
Proof.
  unfold pg_Create, monitor_result. session_steps.
  intros now lk d d' a Hst. apply rtc_once. eapply ts_insert_monitor; [|exact Hst].
  intros t. cbn. by destruct (default true _).
Qed.

Lemma Update_steps p id patch : steps (pg_Update p id patch).
Proof.
  unfold pg_Update, monitor_result. session_steps.
  - intros now lk d d' r Hst. destruct (monitors d !! id); [|by injection Hst as <- _].
    apply rtc_once. eapply ts_put_monitor; [|exact Hst]. apply update_target_status.
  - one_step ts_resolve.
  - one_step ts_kill_active.
Qed.

Lemma Delete_steps id : del = true → steps (pg_Delete id).
Proof.
  intros Hdel. unfold pg_Delete. session_steps. intros now lk d d' r.
  destruct (monitors d !! id); intros [= <- _]; [|done]. by apply rtc_once, ts_delete_monitor.
Qed.

Lemma CreateManualJob_steps id rnd : steps (pg_CreateManualJob id rnd).
Proof. unfold pg_CreateManualJob. session_steps. one_step ts_insert_job. Qed.

Lemma insert_due_jobs_steps due now exp clk rnd jobs : steps (insert_due_jobs due now exp clk rnd jobs).
Proof.
  revert jobs. induction due as [|m due IH]; intros jobs; cbn [insert_due_jobs]; session_steps; [|by apply IH].
  one_step ts_insert_job.
Qed.

Lemma ClaimDueJobs_steps limit lt ma clk rnd0 rnd : steps (pg_ClaimDueJobs limit lt ma clk rnd0 rnd).
Proof.
  unfold pg_ClaimDueJobs. session_steps; try apply insert_due_jobs_steps.
  - one_step ts_kill_exhausted.
  - one_step ts_fail_expired.
  - one_step ts_claim_jobs.
  - intros ????? [= <- _]. reflexivity.
Qed.

Lemma acceptPublicationProgress_steps claim : steps (acceptPublicationProgress claim).
Proof. unfold acceptPublicationProgress, classifyInactiveJob. session_steps. Qed.

Lemma MarkJobPublished_steps claim : steps (pg_MarkJobPublished claim).
Proof.
  unfold pg_MarkJobPublished. session_steps; [|apply acceptPublicationProgress_steps]. one_step ts_published.
Qed.

Lemma ReleaseJobPublish_steps claim e : steps (pg_ReleaseJobPublish claim e).
Proof.
  unfold pg_ReleaseJobPublish. session_steps; [|apply acceptPublicationProgress_steps]. one_step ts_released.
Qed.

Lemma Recover_steps : steps pg_RecoverQueuedJobsAfterTopologyLoss.
Proof. unfold pg_RecoverQueuedJobsAfterTopologyLoss. session_steps. one_step ts_recovered. Qed.

Lemma MarkJobProcessing_steps id jobID attempt lt rnd : steps (pg_MarkJobProcessing id jobID attempt lt rnd).
Proof.
  unfold pg_MarkJobProcessing, checkJobStatus, classifyInactiveJob. session_steps.
  intros now lk d d' a Hst. apply rtc_once. eapply ts_started; [| |exact Hst]; [lia|apply newID_nonempty].
Qed.

Lemma MarkJobFailed_steps lease e delay : steps (pg_MarkJobFailed lease e delay).
Proof. unfold pg_MarkJobFailed, classifyInactiveJob. session_steps. one_step ts_failed. Qed.

Lemma MarkJobDead_steps lease e : steps (pg_MarkJobDead lease e).
Proof. unfold pg_MarkJobDead. session_steps; [one_step ts_killed|one_step ts_update_monitor]. Qed.

Lemma upsertIncidentAndAlert_steps record m ap now r1 r2 : steps (upsertIncidentAndAlert record m ap now r1 r2).
Proof.
  unfold upsertIncidentAndAlert. session_steps;
    [one_step ts_resolve|one_step ts_upsert_incident|one_step ts_insert_alert|one_step ts_mark_alerted].
Qed.

Lemma AddCheck_steps record lease ap r1 r2 : steps (pg_AddCheck record lease ap r1 r2).
Proof.
  unfold pg_AddCheck. session_steps; [one_step ts_insert_result|one_step ts_update_monitor| |one_step ts_completed].
  apply upsertIncidentAndAlert_steps.
Qed.

Lemma ClaimAlerts_steps limit lt ma rnd : steps (pg_ClaimAlerts limit lt ma rnd).
Proof. unfold pg_ClaimAlerts. session_steps; [one_step ts_kill_alerts|one_step ts_claim_alerts]. Qed.

Lemma MarkAlertDelivered_steps id token : steps (pg_MarkAlertDelivered id token).
Proof. unfold pg_MarkAlertDelivered. session_steps. one_step ts_delivered. Qed.

Lemma MarkAlertFailed_steps id token e delay dead : steps (pg_MarkAlertFailed id token e delay dead).
Proof.
  unfold pg_MarkAlertFailed. session_steps. intros now lk d d' a Hst. apply rtc_once.
  eapply ts_alert_failed; [|exact Hst]. destruct dead; auto.
Qed.

Lemma DeleteExpiredData_steps policy : steps (pg_DeleteExpiredData policy).
Proof.
  unfold pg_DeleteExpiredData. session_steps;
    [one_step ts_delete_results|one_step ts_delete_jobs|one_step ts_delete_alerts|one_step ts_delete_incidents].
Qed.

Definition deletes_monitor (op : PgOp) : bool := match op with PgDelete _ => true | _ => false end.

Lemma pg_run_steps op : (deletes_monitor op = true → del = true) → steps (pg_run op).
Proof.
  intros Hdel. destruct op; cbn [pg_run]; unfold done_; session_steps;
    eauto using Create_steps, Update_steps, Delete_steps, CreateManualJob_steps, ClaimDueJobs_steps,
      MarkJobPublished_steps, ReleaseJobPublish_steps, Recover_steps, MarkJobProcessing_steps, MarkJobFailed_steps,
      MarkJobDead_steps, AddCheck_steps, ClaimAlerts_steps, MarkAlertDelivered_steps, MarkAlertFailed_steps,
      DeleteExpiredData_steps.
Qed.
End walk.

(** A session: the methods called one after the other, whatever each returns. *)
Fixpoint pg_session (ops : list PgOp) (n : nat) (d : Tables) : nat * Tables :=
  match ops with
  | [] => (n, d)
  | op :: ops => let '(n, d, _) := pg_run op n d in pg_session ops n d
  end.

Lemma pg_session_wf ops n d :
  (∀ n d, table_steps true d (others n d)) → tables_wf d → tables_wf (pg_session ops n d).2.
Proof.
  intros Hothers. revert n d. induction ops as [|op ops IH]; intros n d Hd; cbn [pg_session]; [done|].
  pose proof (pg_run_steps true Hothers op (λ _, eq_refl) n d) as Hrun. destruct (pg_run op n d) as [[n' d'] r].
  apply IH. by eapply table_steps_wf.
Qed.

(** C8: Whatever methods a client calls, and whatever the server does
    meanwhile (statements that fail, replies that are lost, clocks that jump,
    other clients of the same repository), the tables keep the schema's keys,
    references and checks, at most one active job and one open incident per
    monitor, and a lease exactly on the jobs being processed. *)
Theorem pg_invariant ops n :
  (∀ n d, table_steps true d (others n d)) → tables_wf (pg_session ops n empty_tables).2.
Proof. intros Hothers. apply pg_session_wf; [done|apply empty_tables_wf]. Qed.
End methods.
