(* ===== verification/PgSample.v ===== *)
(** * A small concrete session

    A client on its own, with a server that answers every statement one
    microsecond after the last: one monitor is created, its first check is
    claimed, published, started and recorded as a failure, and the alert it
    raises is claimed.  The theorems about the PostgreSQL repository are applied
    to these tables. *)

From stdpp Require Import base list gmap strings relations.
From Stdlib Require Import ZArith Lia Ascii.
From S2P Require Import Prelude GoNum GoStrings NetworkPolicy Egress Domain History Store StoreInv Sample Checker Alert Sql PgSchema Postgres PgOutbox PgInv.
#[local] Open Scope string_scope.
#[local] Open Scope list_scope.
#[local] Open Scope Z_scope.

(** Statement [n] runs [n] microseconds after [sample_now]; no other client. *)
Definition sample_server : Server Tables :=
  {| answer n := Answered (63871286400000000 + Z.of_nat n) ∅; others _ d := d |}.

(** The C collation: byte order. *)
Definition sample_collation : Collation.
Proof.
  refine {| collate := compareString; collate_good := _ |}. intros a b Hab Hba.
  apply compareString_eq. pose proof (compareString_antisym a b). lia.
Defined.

Definition sample_webhook : WebhookClient :=
  {| marshal_error _ := None; new_request _ := None; post _ _ _ := Err (Checker.EOther "connection refused" None) |}.
#[export] Existing Instances sample_server sample_collation sample_webhook.

Definition sample_alerts : AlertPolicy := {| Enabled := true; FailureThreshold := 1; Cooldown := Minute |}.

Definition pg_sample_ops : list PgOp :=
  [ PgCreate default_policy sample_input (sample_rnd 1);
    PgClaimDueJobs 5 Minute 3 sample_now (sample_rnd 2) (λ _, sample_rnd 2);
    PgMarkJobPublished sample_claim;
    PgMarkJobProcessing sample_monitor sample_job 1 Minute (sample_rnd 3);
    PgAddCheck (sample_record false) sample_lease sample_alerts (sample_rnd 4) (sample_rnd 5);
    PgClaimAlerts 5 Minute 3 (sample_rnd 6) ].

(** The next statement's number and the tables after the first [k] methods. *)
Definition pg_sample_at (k : nat) : nat * Tables := pg_session (take k pg_sample_ops) 0 empty_tables.
Definition pg_sample (k : nat) : Tables := (pg_sample_at k).2.

Lemma sample_quiet del (n : nat) (d : Tables) : table_steps del d (others n d).
Proof. apply rtc_refl. Qed.

Lemma pg_sample_wf k : tables_wf (pg_sample k).
Proof. apply pg_session_wf; [apply sample_quiet|apply empty_tables_wf]. Qed.
Lemma pg_sample_wf' n k : tables_wf (others n (pg_sample k)).
Proof. apply pg_sample_wf. Qed.

Definition sample_at : nat → nat := λ k, (pg_sample_at k).1.

(** The same server, except that statement [k] fails. *)
Definition failing_server (k : nat) : Server Tables :=
  {| answer n := if decide (n = k) then NotRun (ErrInfra 40001) else Answered (63871286400000000 + Z.of_nat n) ∅;
     others _ d := d |}.

Lemma pg_invariant_witness :
  size (alert_outbox (pg_sample 6)) = 1%nat ∧ tables_wf (pg_session pg_sample_ops 0 empty_tables).2.
Proof. split; [vm_compute; reflexivity|apply (pg_invariant pg_sample_ops 0), sample_quiet]. Defined.
