(* ===== verification/PgLife.v ===== *)
(** * The lives of jobs and alerts in the database

    Every statement moves each job along the life cycle of [StoreJobs], the one
    the in-memory store implements, and each alert along the life cycle of the
    outbox: waiting, leased to a dispatcher, and then delivered, dead or
    waiting again. *)

From stdpp Require Import base list gmap strings relations.
From Stdlib Require Import ZArith Lia Ascii.
From S2P Require Import Prelude GoNum GoStrings NetworkPolicy Egress Domain History Lifecycle Store StoreInv Sample StoreJobs Alert Sql PgSchema Postgres PgOutbox PgInv PgSample.
#[local] Open Scope string_scope.
#[local] Open Scope list_scope.
#[local] Open Scope Z_scope.

(** ** Alerts *)

Definition same_alert (r r' : alert_row) : Prop :=
  a_id r' = a_id r ∧ a_idempotency_key r' = a_idempotency_key r ∧ a_incident_id r' = a_incident_id r
  ∧ a_monitor_id r' = a_monitor_id r ∧ a_payload r' = a_payload r ∧ a_created_at r' = a_created_at r.

Definition alert_open (r : alert_row) : Prop := a_status r = alertPending ∨ a_status r = alertProcessing.
Definition alert_final (r : alert_row) : Prop := a_status r = alertDelivered ∨ a_status r = alertDead.
Definition new_alert (r : alert_row) : Prop := a_status r = alertPending ∧ a_attempt_count r = 0.

Inductive alert_step (r r' : alert_row) : Prop :=
| alert_take :         (* a dispatcher leases it for one more attempt *)
    same_alert r r' → alert_open r → a_status r' = alertProcessing →
    a_attempt_count r' = a_attempt_count r + 1 → alert_step r r'
| alert_deliver :      (* the webhook accepted it *)
    same_alert r r' → a_status r = alertProcessing → a_status r' = alertDelivered →
    a_attempt_count r' = a_attempt_count r → alert_step r r'
| alert_retry :        (* the attempt failed *)
    same_alert r r' → a_status r = alertProcessing → a_status r' = alertPending →
    a_attempt_count r' = a_attempt_count r → alert_step r r'
| alert_die :          (* it failed for good, or attempts are exhausted *)
    same_alert r r' → alert_open r → a_status r' = alertDead →
    a_attempt_count r' = a_attempt_count r → alert_step r r'.

Definition alerts_evolve : relation (gmap string alert_row) := Lifecycle.evolves alert_step new_alert alert_final.

Lemma alert_is_spec st r : alert_is st r = true ↔ a_status r = st.
Proof. unfold alert_is. by rewrite bool_decide_eq_true. Qed.

(** A delivered or dead alert makes no step; the others only gain attempts. *)
Lemma alert_step_open r r' : alert_step r r' → alert_open r ∧ same_alert r r' ∧ a_attempt_count r <= a_attempt_count r'.
Proof. unfold alert_open. destruct 1; (split; [by auto|split; [done|lia]]). Qed.

(** ** The tables *)

Definition job_records (d : Tables) : gmap string CheckJobRecord := scanCheckJob <$> check_jobs d.

Definition lives (d d' : Tables) : Prop :=
  StoreJobs.evolves (job_records d) (job_records d') ∧ alerts_evolve (alert_outbox d) (alert_outbox d').

#[export] Instance lives_preorder : PreOrder lives.
Proof.
  unfold lives, alerts_evolve. split; [by intros d|].
  intros d1 d2 d3 [J12 A12] [J23 A23]. split; [exact (transitivity J12 J23)|exact (transitivity A12 A23)].
Qed.

Lemma lives_same d d' : check_jobs d' = check_jobs d → alert_outbox d' = alert_outbox d → lives d d'.
Proof. intros Hj Ha. unfold lives, job_records, alerts_evolve. by rewrite Hj, Ha. Qed.

(** Rows updated in place. *)
Lemma lives_jobs d q f :
  (∀ k r, check_jobs d !! k = Some r → q r = true → job_step (scanCheckJob r) (scanCheckJob (f r))) →
  lives d (d <| check_jobs := update_rows q f (check_jobs d) |>).
Proof.
  intros Hf. split; [|by unfold alerts_evolve]. apply evolves_pointwise.
  - intros id j. unfold job_records. cbn. rewrite !lookup_fmap, lookup_update_rows.
    destruct (check_jobs d !! id) as [r|] eqn:Hr; [|done]. cbn. intros [= <-]. eexists. split; [done|].
    destruct (q r) eqn:Hq; [right; by eapply Hf|by left].
  - unfold job_records. cbn. by rewrite !dom_fmap_L, dom_update_rows.
Qed.

Lemma lives_alerts d q f :
  (∀ k r, alert_outbox d !! k = Some r → q r = true → alert_step r (f r)) →
  lives d (d <| alert_outbox := update_rows q f (alert_outbox d) |>).
Proof.
  intros Hf. split; [by unfold job_records|]. apply evolves_pointwise.
  - intros id r'. cbn. rewrite lookup_update_rows. destruct (alert_outbox d !! id) as [r|] eqn:Hr; [|done]. cbn.
    intros [= <-]. exists r. split; [done|]. destruct (q r) eqn:Hq; [right; by eapply Hf|by left].
  - cbn. by rewrite dom_update_rows.
Qed.

Lemma job_active_live r : job_active r = true → live (scanCheckJob r).
Proof. unfold live, job_terminal, job_active. cbn. by destruct (j_status r). Qed.

(** ** The rows the statements write *)

Lemma scan_same r r' :
  j_id r' = j_id r → j_monitor_id r' = j_monitor_id r → j_kind r' = j_kind r →
  j_scheduled_for r' = j_scheduled_for r → j_created_at r' = j_created_at r → same_job (scanCheckJob r) (scanCheckJob r').
Proof. by unfold same_job. Qed.

Lemma dead_job_step now e r : job_active r = true → job_step (scanCheckJob r) (scanCheckJob (finished_row checkJobStatusDead e now r)).
Proof. intros Ha. apply step_die; [by apply scan_same|by apply job_active_live|done|done]. Qed.

Lemma failed_job_step now at_ e r :
  job_active r = true → j_status r ≠ checkJobStatusFailed → job_step (scanCheckJob r) (scanCheckJob (failed_row now at_ e r)).
Proof. intros Ha Hne. apply step_fail; [by apply scan_same|by apply job_active_live|done|done|done]. Qed.

Lemma lease_owned_processing lease now r : lease_owned lease now r = true → j_status r = checkJobStatusProcessing.
Proof.
  unfold lease_owned. rewrite !andb_true_iff. intros (_ & ((((_ & Hq) & _) & _) & _)). by apply job_is_spec.
Qed.

Lemma owned_alert_processing id tok r : alert_owned id tok r = true → a_status r = alertProcessing.
Proof. unfold alert_owned. rewrite !andb_true_iff. intros (_ & Hs & _). by apply alert_is_spec. Qed.

Section life.
Context `{UN : !Unicode, UP : !URLParser, MR : !MapRange, SV : !Server Tables, CO : !Collation, WC : !WebhookClient}.

Lemma exhausted_active ma now r : exhausted ma now r = true → job_active r = true.
Proof.
  unfold exhausted, job_active, job_is. by destruct (j_status r); rewrite ?andb_false_r.
Qed.

Lemma claim_job_step now exp token r :
  j_status r = checkJobStatusScheduled ∨ j_status r = checkJobStatusFailed →
  job_step (scanCheckJob r) (scanCheckJob (claimed_row now exp token r)).
Proof. intros Hs. by apply step_claim; [apply scan_same| | |]. Qed.

Lemma claim_rows_lives limit now exp ma token now' lk d d' a :
  tables_wf d → claim_rows limit now exp ma token now' lk d = (d', Ok a) → lives d d'.
Proof.
  intros Hd [= <- _]. apply lives_jobs. intros k r Hk Hc. apply claim_job_step.
  apply bool_decide_eq_true, (chosen_selected j_id _ _ _ _ _ _ _ (tw_jobs _ Hd) Hk), andb_true_iff in Hc as [Hc _].
  unfold claimable_row in Hc. rewrite !andb_true_iff, orb_true_iff, !job_is_spec in Hc. tauto.
Qed.

Lemma claim_alerts_lives limit at_ until token ma now lk d d' a :
  tables_wf d → claim_alerts limit at_ until token ma now lk d = (d', Ok a) → lives d d'.
Proof.
  intros Hd [= <- _]. apply lives_alerts. intros k r Hk Hc.
  apply bool_decide_eq_true, (chosen_selected a_id _ _ _ _ _ _ _ (tw_alerts _ Hd) Hk), andb_true_iff in Hc as [Hc _].
  apply alert_take; try done. unfold alert_claimable in Hc.
  rewrite andb_true_iff, orb_true_iff, !andb_true_iff, !alert_is_spec in Hc. unfold alert_open. tauto.
Qed.

Lemma insert_job_lives row now lk d d' a :
  j_status row = checkJobStatusScheduled → j_attempt row = 0 → insert_job row now lk d = (d', Ok a) → lives d d'.
Proof.
  intros Hs Ha. unfold insert_job. destruct (_ || _) eqn:Ho; [done|]. destruct (monitors d !! _); [|done].
  intros [= <- _]. split; [|by unfold alerts_evolve]. unfold job_records. cbn. rewrite fmap_insert.
  apply StoreJobs.evolves_new; [|done]. intros j. rewrite lookup_fmap.
  apply orb_false_iff in Ho as [Ho _]. by destruct (check_jobs d !! j_id row).
Qed.

Lemma insert_alert_lives row now lk d d' a :
  a_status row = alertPending → a_attempt_count row = 0 → insert_alert row now lk d = (d', Ok a) → lives d d'.
Proof.
  intros Hs Ha. unfold insert_alert. destruct (exists_row _ _); [by intros [= <- _]|].
  destruct (alert_outbox d !! a_id row) eqn:Hrow; [done|]. destruct (incidents d !! _); [|done].
  destruct (monitors d !! _); [|done]. intros [= <- _]. split; [by unfold job_records|]. cbn.
  apply rows_evolve_new; [|done]. intros r. by rewrite Hrow.
Qed.

Lemma delete_jobs_lives cutoff n now lk d d' a :
  tables_wf d → delete_jobs cutoff n now lk d = (d', Ok a) → lives d d'.
Proof.
  intros Hd [= <- _]. split; [|by unfold alerts_evolve]. unfold job_records. cbn. apply evolves_shrink.
  - intros id j. rewrite !lookup_fmap, !fmap_Some. intros (r & [Hr _]%lookup_delete_rows_Some & ->). eauto.
  - intros id j. rewrite !lookup_fmap, fmap_Some. intros (r & Hr & ->) Hn%fmap_None.
    destruct (bool_decide (j_id r ∈ expired_ids j_id (by_time j_updated_at j_id) (expired_job cutoff) n lk (check_jobs d)))
      eqn:He; [|unfold delete_ids in Hn; by rewrite (proj2 (lookup_delete_rows_Some _ _ _ _) (conj Hr He)) in Hn].
    apply bool_decide_eq_true, (chosen_selected j_id _ _ _ _ _ _ _ (tw_jobs _ Hd) Hr), andb_true_iff in He as [He _].
    unfold expired_job in He. apply andb_true_iff in He as [He _]. unfold is_terminal.
    unfold job_terminal, job_active in *. cbn. by destruct (j_status r).
Qed.

Lemma delete_alerts_lives cutoff n now lk d d' a :
  tables_wf d → delete_alerts cutoff n now lk d = (d', Ok a) → lives d d'.
Proof.
  intros Hd [= <- _]. split; [by unfold job_records|]. cbn. apply evolves_shrink.
  - by intros id r [Hr _]%lookup_delete_rows_Some.
  - intros id r Hr Hn.
    destruct (bool_decide (a_id r ∈ expired_ids a_id (by_time a_updated_at a_id) (expired_alert cutoff) n lk (alert_outbox d)))
      eqn:He; [|unfold delete_ids in Hn; by rewrite (proj2 (lookup_delete_rows_Some _ _ _ _) (conj Hr He)) in Hn].
    apply bool_decide_eq_true, (chosen_selected a_id _ _ _ _ _ _ _ (tw_alerts _ Hd) Hr), andb_true_iff in He as [He _].
    unfold expired_alert in He. rewrite andb_true_iff, orb_true_iff, !alert_is_spec in He. unfold alert_final. tauto.
Qed.

Lemma delete_incidents_lives cutoff n now lk d d' a :
  tables_wf d → delete_incidents cutoff n now lk d = (d', Ok a) → lives d d'.
Proof.
  intros Hd Hdel. apply lives_same; [by injection Hdel as <- _|]. by eapply delete_incidents_alerts.
Qed.

(** ** Every step but the deletion of a monitor *)

Lemma table_step_lives d d' : tables_wf d → table_step false d d' → lives d d'.
Proof.
  intros Hd. destruct 1 as
    [row now lk d' a Hs Hst|row d' a Hs Hst|id f now lk d' a H1 H2 H3 Hst|id Hdel|id now|id now e
    |row now lk d' a H1 H2 H3 Hst|ma now|ma now|limit now exp ma token now' lk d' a Hst|claim now lk d' a Hst
    |claim e now lk d' a Hst|now lk d' a Hst|id jobID attempt lt token now lk d' a H1 H2 Hst
    |lease delay e now lk d' a Hst|lease e now lk d' a Hst|lease at_ now lk d' a Hst|record at_ now lk d' a Hst
    |id m e at_ now lk d' a Hst|row now lk d' a H1 H2 H3 H4 Hst|id at_ now lk d' a Hst|ma now
    |limit at_ until token ma now lk d' a Hst|id token now lk d' a Hst|id token st delay e now lk d' a H1 Hst
    |cutoff n now lk d' a Hst|cutoff n now lk d' a Hst|cutoff n now lk d' a Hst|cutoff n now lk d' a Hst].
  - unfold insert_monitor, put_monitor in Hst. destruct (monitors d !! _); [done|].
    destruct (negb _); [done|]. destruct (exists_row _ _); [done|]. injection Hst as <- _. by apply lives_same.
  - unfold put_monitor in Hst. destruct (negb _); [done|]. destruct (exists_row _ _); [done|].
    injection Hst as <- _. by apply lives_same.
  - unfold update_monitor in Hst. destruct (monitors d !! _); injection Hst as <- _; by apply lives_same.
  - done.
  - by apply lives_same.
  - apply lives_jobs. intros k r _ Hq. apply andb_true_iff in Hq as [_ Hq]. by apply dead_job_step.
  - by eapply insert_job_lives.
  - etrans; [apply (lives_jobs d (exhausted ma now) (exhausted_row now))|by apply lives_same].
    intros k r _ Hq. by eapply dead_job_step, exhausted_active.
  - apply lives_jobs. intros k r _ Hq. unfold lease_expired in Hq. rewrite !andb_true_iff, job_is_spec in Hq.
    destruct Hq as [[Hq _] _]. apply failed_job_step; [unfold job_active; by rewrite Hq|congruence].
  - by eapply claim_rows_lives.
  - injection Hst as <- _. apply lives_jobs. intros k r _ Hq%publication_owned_scheduled.
    apply step_publish; [by apply scan_same|done..].
  - injection Hst as <- _. apply lives_jobs. intros k r _ Hq%publication_owned_scheduled.
    apply step_claim; [by apply scan_same|by left|done|done].
  - injection Hst as <- _. apply lives_jobs. intros k r _ Hq%lost_row_spec.
    apply step_fail; [by apply scan_same| | |done|done]; unfold live, job_terminal; cbn; by destruct Hq as [-> | ->].
  - injection Hst as <- _. apply lives_jobs. intros k r _ [Hq Ha]%startable_spec.
    apply step_start; [by apply scan_same|done|done|done].
  - injection Hst as <- _. apply lives_jobs. intros k r _ Hq%lease_owned_processing.
    apply failed_job_step; [unfold job_active; by rewrite Hq|congruence].
  - unfold kill_owned in Hst. destruct (first_row _ _); injection Hst as <- _; [|done].
    apply lives_jobs. intros k r _ Hq. by eapply dead_job_step, lease_owned_active.
  - injection Hst as <- _. apply lives_jobs. intros k r _ Hq%lease_owned_processing.
    apply step_complete; [by apply scan_same|done..].
  - unfold insert_result in Hst. destruct (exists_row _ _); [by injection Hst as <- _|].
    destruct (check_results d !! _); [done|]. destruct (monitors d !! _); [|done]. injection Hst as <- _. by apply lives_same.
  - unfold upsert_incident in Hst. destruct (first_row _ _).
    + destruct (int4_ok _); [|done]. injection Hst as <- _. by apply lives_same.
    + destruct (incidents d !! _); [done|]. destruct (monitors d !! _); [|done]. injection Hst as <- _. by apply lives_same.
  - by eapply insert_alert_lives.
  - unfold mark_alerted in Hst. destruct (incidents d !! _); [|by injection Hst as <- _].
    destruct (int4_ok _); [|done]. injection Hst as <- _. by apply lives_same.
  - apply lives_alerts. intros k r _ Hq. apply alert_die; try done. unfold alert_exhausted in Hq.
    rewrite andb_true_iff, orb_true_iff, andb_true_iff, !alert_is_spec in Hq. unfold alert_open. tauto.
  - by eapply claim_alerts_lives.
  - injection Hst as <- _. apply lives_alerts. intros k r _ Hq%owned_alert_processing. by apply alert_deliver.
  - injection Hst as <- _. apply lives_alerts. intros k r _ Hq%owned_alert_processing.
    destruct H1 as [-> | ->]; [by apply alert_retry|apply alert_die; try done; by right].
  - injection Hst as <- _. by apply lives_same.
  - by eapply delete_jobs_lives.
  - by eapply delete_alerts_lives.
  - by eapply delete_incidents_lives.
Qed.

Lemma table_steps_lives d d' : table_steps false d d' → tables_wf d → lives d d'.
Proof.
  induction 1 as [d|d1 d2 d3 Hs Hr IH]; [done|]. intros Hd. etrans; [by apply table_step_lives|].
  apply IH. by eapply table_step_wf.
Qed.

(** C9: Whatever a method does, succeeding or failing halfway, and whatever
    other clients that delete no monitor do meanwhile: each job moves only along
    the life cycle the in-memory store implements, and each alert only along its
    own: its content and idempotency key are fixed, each lease costs one attempt,
    a delivered or dead alert is never leased again, and no row leaves the tables
    before it is final. *)
Theorem pg_lifecycles op n d :
  (∀ n d, table_steps false d (others n d)) → deletes_monitor op = false → tables_wf d →
  let d' := (pg_run op n d).1.2 in
  StoreJobs.evolves (job_records d) (job_records d') ∧ alerts_evolve (alert_outbox d) (alert_outbox d').
Proof.
  intros Hothers Hop Hd. apply table_steps_lives; [|done]. apply (pg_run_steps false Hothers op); congruence.
Qed.
End life.

Lemma pg_lifecycles_witness :
  let run := pg_run (PgAddCheck (sample_record false) sample_lease sample_alerts (sample_rnd 4) (sample_rnd 5))
               (sample_at 4) (pg_sample 4) in
  returned run = true
  ∧ StoreJobs.evolves (job_records (pg_sample 4)) (job_records run.1.2)
  ∧ alerts_evolve (alert_outbox (pg_sample 4)) (alert_outbox run.1.2).
Proof.
  split; [vm_compute; reflexivity|]. apply pg_lifecycles; [apply sample_quiet|reflexivity|apply pg_sample_wf].
Defined.
