(* ===== verification/PgRefine.v ===== *)
(** * The two repositories agree

    [MonitorRepository] has two implementations: the in-memory store of
    [Store] and the PostgreSQL repository.  Their job protocols give the same
    answers: on tables and a store that hold the same monitors and jobs, a
    method of one decides as the method of the other does at the instant the
    server read its clock, and they hold the same monitors and jobs again. *)

From stdpp Require Import base list gmap strings.
From Stdlib Require Import ZArith Lia Ascii Btauto.
From S2P Require Import Prelude GoNum GoStrings NetworkPolicy Egress Domain History Store StoreInv Sample Alert Sql PgSchema Postgres PgOutbox PgInv PgSample.
#[local] Open Scope string_scope.
#[local] Open Scope list_scope.
#[local] Open Scope Z_scope.
#[local] Open Scope sql_scope.
#[local] Abbreviation proc := (Sql.proc (DB:=Tables)).

(** ** The interface the clients use *)

Inductive JobOp :=
| JGet (id : string)
| JGetCheckJob (jobID : string)
| JCreateManualJob (id : string) (rnd : Entropy)
| JMarkJobPublished (claim : PublicationClaim)
| JReleaseJobPublish (claim : PublicationClaim) (lastError : string)
| JRecoverQueuedJobs
| JMarkJobProcessing (id jobID : string) (attempt leaseTimeout : Z) (rnd : Entropy)
| JMarkJobFailed (lease : ProcessingLease) (lastError : string) (retryDelay : Z)
| JMarkJobDead (lease : ProcessingLease) (lastError : string).

Inductive JobAnswer :=
| ADone | AMonitor (m : Monitor) | AJob (j : CheckJobRecord) | AManual (j : CheckJobRecord) (created : bool)
| ALease (l : ProcessingLease) | ACount (n : Z).

Definition error_or_done (e : option GoError) : res GoError JobAnswer :=
  match e with Some e => Err e | None => Ok ADone end.
Definition answer_with {A} (f : A → JobAnswer) (r : res GoError A) : res GoError JobAnswer :=
  match r with Ok a => Ok (f a) | Err e => Err e end.

Section refine.
Context `{UN : !Unicode, UP : !URLParser, MR : !MapRange, SV : !Server Tables, CO : !Collation, WC : !WebhookClient}.

(** The in-memory repository (repository.go), at the instant [t]. *)
Definition mem_job (op : JobOp) (t : Time) (s : MonitorStore) : MonitorStore * res GoError JobAnswer :=
  match op with
  | JGet id => (s, answer_with AMonitor (Get s id))
  | JGetCheckJob jobID => (s, answer_with AJob (CheckJob s jobID))
  | JCreateManualJob id rnd =>
      let '(s, r) := CreateManualJob s id t rnd in (s, answer_with (λ p, AManual p.1 p.2) r)
  | JMarkJobPublished claim => let '(s, e) := MarkJobPublished s claim t in (s, error_or_done e)
  | JReleaseJobPublish claim le => let '(s, e) := ReleaseJobPublish s claim le t in (s, error_or_done e)
  | JRecoverQueuedJobs => let '(s, k) := RecoverQueuedJobsAfterTopologyLoss s t in (s, Ok (ACount k))
  | JMarkJobProcessing id jobID attempt lt rnd =>
      let '(s, r) := MarkJobProcessing s id jobID attempt t lt rnd in (s, answer_with ALease r)
  | JMarkJobFailed lease le delay =>
      let '(s, e) := MarkJobFailed s lease le t (AddDur t (Z.max delay 0)) t in (s, error_or_done e)
  | JMarkJobDead lease le =>
      match Get s (lease_MonitorID lease) with
      | Err e => (s, Err e)
      | Ok monitor =>
          let '(s, e) := MarkJobDead s lease le t (AddDur t (seconds (mon_IntervalSeconds monitor))) t in
          (s, error_or_done e)
      end
  end.

Definition pg_job (op : JobOp) : proc JobAnswer :=
  match op with
  | JGet id => let+ m := pg_Get id in ret (AMonitor m)
  | JGetCheckJob jobID => let+ j := pg_GetCheckJob jobID in ret (AJob j)
  | JCreateManualJob id rnd => let+ p := pg_CreateManualJob id rnd in ret (AManual p.1 p.2)
  | JMarkJobPublished claim => do+ pg_MarkJobPublished claim in ret ADone
  | JReleaseJobPublish claim le => do+ pg_ReleaseJobPublish claim le in ret ADone
  | JRecoverQueuedJobs => let+ k := pg_RecoverQueuedJobsAfterTopologyLoss in ret (ACount k)
  | JMarkJobProcessing id jobID attempt lt rnd => let+ l := pg_MarkJobProcessing id jobID attempt lt rnd in ret (ALease l)
  | JMarkJobFailed lease le delay => do+ pg_MarkJobFailed lease le delay in ret ADone
  | JMarkJobDead lease le => do+ pg_MarkJobDead lease le in ret ADone
  end.

(** The statement that decides: the first of a single statement, the clock
    reading or the update of a transaction. *)
Definition decided_at (op : JobOp) (n : nat) : nat :=
  match op with
  | JCreateManualJob _ _ => S n
  | JMarkJobDead _ _ => S (S n)
  | _ => n
  end.

(** What the schema's types and the precision of its clock ask of the
    arguments; publication tokens are never empty, attempts count from one. *)
Definition representable (op : JobOp) (d : Tables) : Prop :=
  match op with
  | JGet id => param_ok (text id) = true
  | JGetCheckJob jobID => param_ok (text jobID) = true
  | JCreateManualJob id rnd =>
      forallb param_ok [text id; text (newID "job" rnd)] = true
      ∧ entropy_ok rnd ∧ check_jobs d !! newID "job" rnd = None
  | JMarkJobPublished claim => forallb param_ok (claim_params claim) = true ∧ claim_Token claim ≠ ""
  | JReleaseJobPublish claim le =>
      forallb param_ok (claim_params claim ++ [text le]) = true ∧ claim_Token claim ≠ ""
  | JRecoverQueuedJobs => True
  | JMarkJobProcessing id jobID attempt lt rnd =>
      forallb param_ok [text id; text jobID; int4 attempt; text (newID "lease" rnd)] = true
      ∧ 1 <= attempt ∧ (Microsecond | lt)
  | JMarkJobFailed lease le delay =>
      forallb param_ok (lease_params lease ++ [text le]) = true ∧ (Microsecond | delay)
  | JMarkJobDead lease le => forallb param_ok (lease_params lease ++ [text le]) = true
  end.

(** The finished jobs the store remembers are not yet so many that it forgets
    one (the tables keep theirs until retention deletes them). *)
Definition room (s : MonitorStore) : Prop :=
  Z.of_nat (length (terminalJobOrder s) - terminalJobHead s) < maxRetainedCheckJobs.

Record agree (d : Tables) (s : MonitorStore) : Prop := {
  ag_tables : tables_wf d;
  ag_store : store_wf s;
  ag_monitors : byID s = scanMonitor <$> monitors d;
  ag_jobs : checkJobs s = scanCheckJob <$> check_jobs d;
}.

(** ** A server that answers *)

Context (Hquiet : quiet (DB:=Tables)) (Hans : ∀ n, ∃ us lk, answer n = Answered us lk).
Definition tick (n : nat) : Time :=
  match answer n with Answered us _ | ReplyLost us _ _ => Microsecond * us | NotRun _ => 0 end.
Definition held (n : nat) : gset string :=
  match answer n with Answered _ lk | ReplyLost _ lk _ => lk | NotRun _ => ∅ end.

Lemma exec_run {A} ps (st : Sql.stmt (DB:=Tables) A) n d :
  forallb param_ok ps = true →
  exec ps st n d = let '(d', r) := apply_stmt st (tick n) (held n) d in (S n, d', r).
Proof.
  intros Hps. unfold exec, tick, held. rewrite Hps. cbn. by destruct (Hans n) as (us & lk & ->).
Qed.
Lemma query_run {A} ps (st : Sql.stmt (DB:=Tables) A) n d :
  forallb param_ok ps = true →
  query ps st n d = let '(d', r) := apply_stmt st (tick n) (held n) d in (S n, d', r).
Proof. intros Hps. unfold query. rewrite Hquiet. by apply exec_run. Qed.
Lemma read_run {A} ps (f : Tables → A) n d :
  forallb param_ok ps = true → read ps f n d = (S n, d, Ok (f d)).
Proof. intros Hps. unfold read. by rewrite query_run. Qed.
Lemma tx_read_run {A} ps (f : Tables → A) n d :
  forallb param_ok ps = true → tx_read ps f n d = (S n, d, Ok (f d)).
Proof. intros Hps. unfold tx_read. by rewrite exec_run. Qed.
Lemma databaseTime_run n d : databaseTime n d = (S n, d, Ok (tick n)).
Proof. unfold databaseTime. by rewrite exec_run. Qed.
Lemma transaction_run {A} (body : proc A) n d :
  transaction body n d = match body (S n) d with
                         | (n', d', Ok a) => (S n', d', Ok a) | (n', _, Err e) => (S n', d, Err e) end.
Proof.
  unfold transaction. rewrite Hquiet. destruct (Hans n) as (us & lk & ->).
  destruct (body (S n) d) as [[n' d'] [a|e]]; [|done]. by destruct (Hans n') as (us' & lk' & ->).
Qed.

Lemma check_jobs_same d : d <| check_jobs := check_jobs d |> = d.
Proof. by destruct d. Qed.

(** An update of the row under one identifier. *)
Lemma update_jobs_run p q f id n d ps :
  forallb param_ok ps = true → keyed j_id (check_jobs d) →
  (∀ r, p (tick n) r = String.eqb (j_id r) id && q r) →
  query ps (update_jobs p f) n d =
    match check_jobs d !! id with
    | Some r => if q r then (S n, d <| check_jobs := <[id := f (tick n) r]> (check_jobs d) |>, Ok 1) else (S n, d, Ok 0)
    | None => (S n, d, Ok 0)
    end.
Proof.
  intros Hps Hk Hp. rewrite query_run by done. unfold apply_stmt, update_jobs.
  rewrite (update_rows_ext _ (λ r, String.eqb (j_id r) id && q r)) by (intros; apply Hp).
  assert (count_rows (p (tick n)) (check_jobs d) = count_rows (λ r, String.eqb (j_id r) id && q r) (check_jobs d)) as ->.
  { unfold count_rows, select_rows. do 2 f_equal. apply List.filter_ext. exact Hp. }
  rewrite (count_key j_id) by done.
  destruct (check_jobs d !! id) as [r|] eqn:Hr.
  - rewrite (update_key j_id _ _ _ _ _ Hk Hr). destruct (q r); [done|]. by rewrite check_jobs_same.
  - rewrite (update_key_absent j_id _ _ _ _ Hk Hr). by rewrite check_jobs_same.
Qed.

(** A row found by its identifier. *)
Lemma first_row_key d monitorID jobID :
  tables_wf d →
  first_row (job_of monitorID jobID) (check_jobs d) =
    match check_jobs d !! jobID with
    | Some r => if String.eqb (j_monitor_id r) monitorID then Some r else None | None => None end.
Proof.
  intros Hd. destruct (check_jobs d !! jobID) as [r|] eqn:Hr;
    [destruct (String.eqb_spec (j_monitor_id r) monitorID) as [Hm|Hm]|].
  - apply (first_row_unique _ _ jobID); [done| |].
    + unfold job_of. by rewrite (tw_jobs _ Hd _ _ Hr), Hm, !String.eqb_refl.
    + intros k r' Hk Hp. unfold job_of in Hp. apply andb_true_iff in Hp as [Hp _]. apply String.eqb_eq in Hp.
      rewrite (tw_jobs _ Hd _ _ Hk) in Hp. congruence.
  - apply first_row_None. intros k r' Hk. unfold job_of. destruct (String.eqb_spec (j_id r') jobID) as [He|]; [|done].
    rewrite (tw_jobs _ Hd _ _ Hk) in He. simplify_eq. by apply String.eqb_neq.
  - apply first_row_None. intros k r' Hk. unfold job_of. destruct (String.eqb_spec (j_id r') jobID) as [He|]; [|done].
    rewrite (tw_jobs _ Hd _ _ Hk) in He. congruence.
Qed.

(** ** The relation *)

Lemma agree_monitor d s id : agree d s → byID s !! id = scanMonitor <$> monitors d !! id.
Proof. intros H. by rewrite (ag_monitors _ _ H), lookup_fmap. Qed.
Lemma agree_job d s id : agree d s → checkJobs s !! id = scanCheckJob <$> check_jobs d !! id.
Proof. intros H. by rewrite (ag_jobs _ _ H), lookup_fmap. Qed.

Lemma scan_terminal r : job_terminal (scanCheckJob r) = negb (job_active r).
Proof. unfold job_terminal, job_active. cbn. by destruct (j_status r). Qed.

(** Finding the active job through the index, or by its row. *)
Lemma activeJobLocked_row d s m id :
  agree d s →
  activeJobLocked s m id =
    match monitors d !! m with
    | None => Err ErrMonitorNotFound
    | Some _ => match check_jobs d !! id with
                | Some r => if String.eqb (j_monitor_id r) m && job_active r then Ok (scanCheckJob r) else Err ErrStaleJob
                | None => Err ErrStaleJob
                end
    end.
Proof.
  intros H. pose proof (ag_store _ _ H) as Hs. unfold activeJobLocked. rewrite (agree_monitor _ _ m H).
  destruct (monitors d !! m) as [mr|]; cbn; [|done].
  rewrite (agree_job _ _ id H). destruct (check_jobs d !! id) as [r|] eqn:Hr; cbn.
  - assert (checkJobs s !! id = Some (scanCheckJob r)) as Hj by (by rewrite (agree_job _ _ id H), Hr).
    destruct (job_lookup _ _ _ Hs Hj) as (_ & _ & Hact). rewrite scan_terminal in Hact. cbn in Hact.
    destruct (String.eqb_spec (j_monitor_id r) m) as [<-|Hm]; cbn.
    + destruct (job_active r) eqn:Ha; cbn in Hact; [rewrite Hact by done; by rewrite String.eqb_refl|].
      destruct (activeJobByMonitor s !! _) as [a|] eqn:Hidx; [|done].
      destruct (String.eqb_spec a id) as [->|]; cbn; [|done].
      destruct (active_job _ _ _ Hs Hidx) as (j & Hj' & _ & Ht & _). simplify_eq.
      by rewrite scan_terminal, Ha in Ht.
    + destruct (activeJobByMonitor s !! m) as [a|]; [|done]. by destruct (String.eqb a id).
  - destruct (activeJobByMonitor s !! m) as [a|]; [|done]. by destruct (String.eqb a id).
Qed.

(** The error for a job no statement matched. *)
Lemma classify_row d m id :
  classify m id d = if decide (is_Some (monitors d !! m)) then ErrStaleJob else ErrMonitorNotFound.
Proof.
  unfold classify. destruct (decide _); [rewrite bool_decide_eq_true_2 by done|by rewrite bool_decide_eq_false_2].
  by destruct (exists_row _ _).
Qed.

Lemma classifyInactiveJob_run {A} m id n d :
  forallb param_ok [text m; text id] = true →
  @classifyInactiveJob _ _ A m id n d =
    (S n, d, Err (if decide (is_Some (monitors d !! m)) then ErrStaleJob else ErrMonitorNotFound)).
Proof. intros Hps. unfold classifyInactiveJob, bind. rewrite read_run by done. cbn. by rewrite classify_row. Qed.
(** ** Columns and fields *)

Lemma col_is_default c tok : tok ≠ "" → String.eqb (default "" c) tok = col_is c tok.
Proof. intros Ht. destruct c as [x|]; cbn; [done|]. by destruct tok. Qed.

Lemma col_gt_default c t : 0 <= t → (t <? default time_zero c) = col_gt c t.
Proof. intros Ht. destruct c as [x|]; cbn; [done|]. unfold time_zero. by apply Z.ltb_ge. Qed.

Lemma lapsed_row r claim t :
  0 <= t →
  publication_lapsed (scanCheckJob r) claim t
  = negb (j_attempt r =? claim_Attempt claim) || negb (col_gt (j_lease_expires_at r) t).
Proof.
  intros Ht. unfold publication_lapsed, After, IsZero. rewrite <- (col_gt_default _ _ Ht). cbn.
  generalize (default time_zero (j_lease_expires_at r)) as x. intros x.
  destruct (_ =? claim_Attempt claim); cbn; [|done].
  destruct (Z.eqb_spec x 0) as [->|]; cbn; [|done].
  by destruct (Z.ltb_spec t 0); [lia|].
Qed.

Lemma refers_monitor d id r : tables_wf d → check_jobs d !! id = Some r → is_Some (monitors d !! j_monitor_id r).
Proof. intros Hd Hr. by eapply (tw_job_monitor _ Hd). Qed.

(** Writing the same job on both sides. *)
Lemma agree_put d s s' id r :
  agree d s → tables_wf (d <| check_jobs := <[id := r]> (check_jobs d) |>) → store_wf s' →
  s' = s <| checkJobs := <[id := scanCheckJob r]> (checkJobs s) |> →
  agree (d <| check_jobs := <[id := r]> (check_jobs d) |>) s'.
Proof.
  intros H Hd Hs ->. split; [done|done|by apply (ag_monitors _ _ H)|].
  cbn. by rewrite (ag_jobs _ _ H), fmap_insert.
Qed.

(** Both sides decide, answer alike and agree again. *)
Definition same (x : nat * Tables * res GoError JobAnswer) (y : MonitorStore * res GoError JobAnswer) : Prop :=
  x.2 = y.2 ∧ byID y.1 = scanMonitor <$> monitors x.1.2 ∧ checkJobs y.1 = scanCheckJob <$> check_jobs x.1.2.

Lemma same_unchanged d s n r : agree d s → same (n, d, r) (s, r).
Proof. intros H. split; [done|]. split; apply H. Qed.

Lemma same_put d s n id r a :
  agree d s →
  same (n, d <| check_jobs := <[id := r]> (check_jobs d) |>, a)
       (s <| checkJobs := <[id := scanCheckJob r]> (checkJobs s) |>, a).
Proof.
  intros H. split; [done|]. split; cbn; [apply H|]. by rewrite (ag_jobs _ _ H), fmap_insert.
Qed.

(** ** Publication *)

Lemma acceptPublicationProgress_run claim n d :
  forallb param_ok [text (claim_JobID claim); text (claim_MonitorID claim)] = true → tables_wf d →
  ∃ n', acceptPublicationProgress claim n d =
    (n', d, match check_jobs d !! claim_JobID claim with
            | Some r =>
                if String.eqb (j_monitor_id r) (claim_MonitorID claim)
                then if col_is (j_publication_token r) (claim_Token claim) && negb (job_is checkJobStatusScheduled r)
                     then Ok tt else Err ErrStaleJob
                else Err (if decide (is_Some (monitors d !! claim_MonitorID claim)) then ErrStaleJob else ErrMonitorNotFound)
            | None => Err (if decide (is_Some (monitors d !! claim_MonitorID claim)) then ErrStaleJob else ErrMonitorNotFound)
            end).
Proof.
  intros Hps Hd. unfold acceptPublicationProgress, bind. rewrite read_run by done. cbn.
  rewrite first_row_key by done.
  assert (forallb param_ok [text (claim_MonitorID claim); text (claim_JobID claim)] = true) as Hps'.
  { cbn in *. rewrite !andb_true_r in *. by rewrite andb_comm. }
  destruct (check_jobs d !! claim_JobID claim) as [r|];
    [destruct (String.eqb (j_monitor_id r) (claim_MonitorID claim))|].
  - eexists. by destruct (_ && _).
  - eexists. by rewrite (classifyInactiveJob_run _ _ _ _ Hps').
  - eexists. by rewrite (classifyInactiveJob_run _ _ _ _ Hps').
Qed.

Lemma publicationJobLocked_row d s claim :
  agree d s → claim_Token claim ≠ "" →
  publicationJobLocked s claim =
    match monitors d !! claim_MonitorID claim with
    | None => Err ErrMonitorNotFound
    | Some _ => match check_jobs d !! claim_JobID claim with
                | Some r => if String.eqb (j_monitor_id r) (claim_MonitorID claim)
                               && col_is (j_publication_token r) (claim_Token claim)
                            then Ok (scanCheckJob r) else Err ErrStaleJob
                | None => Err ErrStaleJob
                end
    end.
Proof.
  intros H Ht. unfold publicationJobLocked. rewrite (agree_monitor _ _ _ H), (agree_job _ _ _ H).
  destruct (monitors d !! _); cbn; [|done]. destruct (check_jobs d !! _) as [r|]; cbn; [|done].
  rewrite (col_is_default _ _ Ht). apply String.eqb_neq in Ht. rewrite Ht, orb_false_r.
  destruct (String.eqb (j_monitor_id r) (claim_MonitorID claim)); [|done].
  by destruct (col_is (j_publication_token r) (claim_Token claim)).
Qed.

(** Publishing and releasing differ only in the row they write. *)
Lemma publication_step d s n claim f g ps :
  agree d s → claim_Token claim ≠ "" → 0 <= tick n → forallb param_ok (claim_params claim) = true →
  forallb param_ok ps = true →
  (∀ t r, g t (scanCheckJob r) = scanCheckJob (f t r)) →
  same
    ((do+ (let+ affected := query ps (update_jobs (publication_owned claim) f) in
           if affected =? 1 then ret tt else acceptPublicationProgress claim) in ret ADone) n d)
    (match publicationJobLocked s claim with
     | Err err => (s, Err err)
     | Ok job =>
         if negb (bool_decide (job_Status job = checkJobStatusScheduled)) then (s, Ok ADone)
         else if publication_lapsed job claim (tick n) then (s, Err ErrStaleJob)
         else (s <| checkJobs := <[claim_JobID claim := g (tick n) job]> (checkJobs s) |>, Ok ADone)
     end).
Proof.
  intros H Htok Ht Hcp Hps Hg. pose proof (ag_tables _ _ H) as Hd.
  rewrite (publicationJobLocked_row _ _ _ H Htok). unfold bind at 1 2.
  rewrite (update_jobs_run _ (λ r, String.eqb (j_monitor_id r) (claim_MonitorID claim) && job_is checkJobStatusScheduled r
      && (j_attempt r =? claim_Attempt claim) && col_is (j_publication_token r) (claim_Token claim)
      && col_gt (j_lease_expires_at r) (tick n)) f (claim_JobID claim)); [|done|apply Hd|done].
  assert (forallb param_ok [text (claim_JobID claim); text (claim_MonitorID claim)] = true) as Hps'.
  { unfold claim_params in Hcp. cbn [forallb] in *. rewrite !andb_true_iff in Hcp |- *. tauto. }
  destruct (acceptPublicationProgress_run claim (S n) d Hps' Hd) as [n' Hacc].
  destruct (check_jobs d !! claim_JobID claim) as [r|] eqn:Hr.
  2:{ cbn -[acceptPublicationProgress]. rewrite Hacc. cbn. destruct (monitors d !! _); cbn; by apply same_unchanged. }
  destruct (String.eqb_spec (j_monitor_id r) (claim_MonitorID claim)) as [Hm|Hm]; cbn -[acceptPublicationProgress].
  2:{ rewrite Hacc. destruct (monitors d !! _); cbn; by apply same_unchanged. }
  destruct (refers_monitor _ _ _ Hd Hr) as [mr Hmr]. rewrite Hm in Hmr. rewrite Hmr in *. cbn -[acceptPublicationProgress] in *.
  unfold job_is at 1.
  destruct (col_is (j_publication_token r) (claim_Token claim)); rewrite ?andb_false_r, ?andb_true_r;
    cbn -[acceptPublicationProgress] in *; [|rewrite Hacc; by apply same_unchanged].
  rewrite lapsed_row by done. unfold job_is in Hacc.
  destruct (bool_decide (j_status r = checkJobStatusScheduled)); cbn -[acceptPublicationProgress] in *;
    [|rewrite Hacc; by apply same_unchanged].
  destruct (j_attempt r =? claim_Attempt claim); cbn -[acceptPublicationProgress] in *;
    [|rewrite Hacc; by apply same_unchanged].
  destruct (col_gt (j_lease_expires_at r) (tick n)); cbn -[acceptPublicationProgress] in *;
    [|rewrite Hacc; by apply same_unchanged].
  rewrite Hg. by apply same_put.
Qed.

Lemma published_step d s n claim :
  agree d s → 0 <= tick n → representable (JMarkJobPublished claim) d →
  same (pg_job (JMarkJobPublished claim) n d) (mem_job (JMarkJobPublished claim) (tick n) s).
Proof.
  intros H Ht [Hps Htok]. cbn [pg_job]. unfold pg_MarkJobPublished.
  rewrite (proj2 (String.eqb_neq _ _) Htok).
  pose proof (publication_step d s n claim queued_row (λ t job, job <| job_Status := checkJobStatusQueued |>
    <| job_PublishedAt := t |> <| job_LeaseExpiresAt := time_zero |> <| job_UpdatedAt := t |>)
    (claim_params claim) H Htok Ht Hps Hps (λ t r, eq_refl)) as Hst.
  cbn [mem_job]. unfold MarkJobPublished, UTC. destruct (publicationJobLocked s claim) as [job|]; [|done].
  destruct (negb _); [done|]. by destruct (publication_lapsed _ _ _).
Qed.

Lemma released_step d s n claim e :
  agree d s → 0 <= tick n → representable (JReleaseJobPublish claim e) d →
  same (pg_job (JReleaseJobPublish claim e) n d) (mem_job (JReleaseJobPublish claim e) (tick n) s).
Proof.
  intros H Ht [Hps Htok]. cbn [pg_job]. unfold pg_ReleaseJobPublish.
  rewrite (proj2 (String.eqb_neq _ _) Htok).
  assert (forallb param_ok (claim_params claim) = true) as Hcp.
  { unfold claim_params in *. cbn [forallb app] in *. rewrite !andb_true_iff in *. tauto. }
  pose proof (publication_step d s n claim (released_row e) (λ t job, job <| job_LeaseExpiresAt := time_zero |>
    <| job_PublicationToken := "" |> <| job_LastError := e |> <| job_UpdatedAt := t |>)
    (claim_params claim ++ [text e]) H Htok Ht Hcp Hps (λ t r, eq_refl)) as Hst.
  cbn [mem_job]. unfold ReleaseJobPublish, UTC. destruct (publicationJobLocked s claim) as [job|]; [|done].
  destruct (negb _); [done|]. by destruct (publication_lapsed _ _ _).
Qed.

(** ** Processing *)

(** Decides comparisons of known statuses. *)
Ltac eval_status :=
  repeat match goal with
  | |- context [bool_decide (@eq CheckJobStatus ?a ?b)] =>
      let v := eval vm_compute in (bool_decide (@eq CheckJobStatus a b)) in
      lazymatch v with true => idtac | false => idtac end;
      change (bool_decide (@eq CheckJobStatus a b)) with v
  end.

Lemma scan_processing_row attempt lt tok t r :
  scanCheckJob (processing_row attempt lt tok t r)
  = (scanCheckJob r) <| job_Status := checkJobStatusProcessing |> <| job_Attempt := attempt |>
      <| job_ProcessingStartedAt := t |> <| job_LeaseExpiresAt := t + interval_us lt |>
      <| job_LeaseToken := tok |> <| job_UpdatedAt := t |>.
Proof. done. Qed.

Lemma interval_us_id lt : (Microsecond | lt) → interval_us lt = lt.
Proof.
  intros [k ->]. unfold interval_us, Microseconds. rewrite Z.quot_mul by done. unfold Microsecond. lia.
Qed.

Lemma processing_step d s n id jobID attempt lt rnd :
  agree d s → representable (JMarkJobProcessing id jobID attempt lt rnd) d →
  same (pg_job (JMarkJobProcessing id jobID attempt lt rnd) n d)
       (mem_job (JMarkJobProcessing id jobID attempt lt rnd) (tick n) s).
Proof.
  intros H (Hps & Hat & Hlt). pose proof (ag_tables _ _ H) as Hd.
  cbn [pg_job mem_job]. unfold pg_MarkJobProcessing, MarkJobProcessing. rewrite (activeJobLocked_row _ _ _ _ H).
  unfold bind at 1 2. rewrite Z.max_l by lia.
  set (lt' := if lt <=? 0 then Minute else lt).
  assert (interval_us lt' = lt') as Hus.
  { apply interval_us_id. unfold lt'. destruct (lt <=? 0); [|done]. by exists 60000000. }
  rewrite (update_jobs_run _ (λ r, String.eqb (j_monitor_id r) id
      && (job_is checkJobStatusScheduled r || job_is checkJobStatusQueued r) && (j_attempt r <? attempt)) _ jobID);
    [|done|apply Hd|done].
  assert (forallb param_ok [text jobID; text id] = true ∧ forallb param_ok [text id; text jobID] = true) as [Hp1 Hp2].
  { cbn [forallb] in *. rewrite !andb_true_iff in *. tauto. }
  assert (∀ m, checkJobStatus id jobID m d =
    match check_jobs d !! jobID with
    | Some r => if String.eqb (j_monitor_id r) id then (S m, d, Ok (j_status r))
                else (S (S m), d, Err (if decide (is_Some (monitors d !! id)) then ErrStaleJob else ErrMonitorNotFound))
    | None => (S (S m), d, Err (if decide (is_Some (monitors d !! id)) then ErrStaleJob else ErrMonitorNotFound))
    end) as Hst.
  { intros m. unfold checkJobStatus, bind. rewrite read_run by done. cbn. rewrite first_row_key by done.
    destruct (check_jobs d !! jobID) as [r|]; [destruct (String.eqb _ _); [done|]|]; by apply classifyInactiveJob_run. }
  destruct (check_jobs d !! jobID) as [r|] eqn:Hr.
  2:{ cbn -[checkJobStatus Z.leb Z.ltb Z.max]. unfold bind. rewrite Hst. cbn. destruct (monitors d !! id); cbn; by apply same_unchanged. }
  destruct (String.eqb_spec (j_monitor_id r) id) as [Hm|Hm]; cbn -[checkJobStatus Z.leb Z.ltb Z.max].
  2:{ unfold bind. rewrite Hst. cbn. destruct (monitors d !! id); cbn; by apply same_unchanged. }
  destruct (refers_monitor _ _ _ Hd Hr) as [mr Hmr]. rewrite Hm in Hmr. rewrite Hmr.
  unfold processing_refused, job_active, job_is. cbn -[checkJobStatus Z.leb Z.ltb Z.max].
  destruct (j_status r) eqn:Hs; cbn -[checkJobStatus Z.leb Z.ltb Z.max]; eval_status; unfold bind; rewrite ?Hst, ?Hs; cbn -[checkJobStatus Z.leb Z.ltb Z.max];
    rewrite ?Hst, ?Hs; eval_status; cbn -[Z.leb Z.ltb Z.max]; try by apply same_unchanged.
  all: rewrite Z.leb_antisym; destruct (Z.ltb_spec (j_attempt r) attempt); cbn -[checkJobStatus Z.max];
    rewrite ?Hst, ?Hs; eval_status; cbn -[Z.max];
    try by apply same_unchanged.
  all: rewrite (Z.max_r (j_attempt r)) by lia; rewrite ?(Z.max_l attempt 1) by lia; split; [done|]; split; [apply H|]; cbn;
    rewrite (ag_jobs _ _ H), fmap_insert; do 2 f_equal; rewrite scan_processing_row, Hus; done.
Qed.

(** ** Settling under a lease *)

Lemma owns_row r lease t :
  0 <= t → j_id r = lease_JobID lease → job_row_ok r →
  jobOwnsLease (scanCheckJob r) lease t =
    String.eqb (j_monitor_id r) (lease_MonitorID lease) && job_is checkJobStatusProcessing r
    && (j_attempt r =? lease_Attempt lease) && col_is (j_lease_token r) (lease_LeaseToken lease)
    && col_gt (j_lease_expires_at r) t.
Proof.
  intros Ht Hid [_ Hok]. unfold jobOwnsLease, After, job_is. cbn [job_Status job_LeaseExpiresAt job_ID job_MonitorID job_Attempt job_LeaseToken scanCheckJob].
  rewrite Hid, String.eqb_refl, (col_gt_default _ _ Ht).
  destruct (decide (j_status r = checkJobStatusProcessing)) as [Hp|Hp].
  2:{ rewrite bool_decide_eq_false_2 by done. cbn. by rewrite andb_false_r. }
  rewrite bool_decide_eq_true_2 by done. destruct Hok as (_ & (tok & -> & Htok) & _). cbn.
  apply String.eqb_neq in Htok. rewrite Htok. cbn.
  btauto.
Qed.

Lemma owned_active r lease t :
  0 <= t → j_id r = lease_JobID lease → job_row_ok r → jobOwnsLease (scanCheckJob r) lease t = true →
  String.eqb (j_monitor_id r) (lease_MonitorID lease) && job_active r = true.
Proof.
  intros Ht Hid Hok Ho. rewrite owns_row in Ho by done. unfold job_is, job_active in *.
  destruct (String.eqb _ _); cbn in *; [|done]. by destruct (j_status r).
Qed.

Lemma failed_step d s n lease e delay :
  agree d s → 0 <= tick n → representable (JMarkJobFailed lease e delay) d →
  same (pg_job (JMarkJobFailed lease e delay) n d) (mem_job (JMarkJobFailed lease e delay) (tick n) s).
Proof.
  intros H Ht (Hps & Hdelay). pose proof (ag_tables _ _ H) as Hd.
  cbn [pg_job mem_job]. unfold pg_MarkJobFailed, MarkJobFailed. rewrite (activeJobLocked_row _ _ _ _ H).
  unfold bind at 1 2.
  rewrite (update_jobs_run _ (λ r, String.eqb (j_monitor_id r) (lease_MonitorID lease) && job_is checkJobStatusProcessing r
      && (j_attempt r =? lease_Attempt lease) && col_is (j_lease_token r) (lease_LeaseToken lease)
      && col_gt (j_lease_expires_at r) (tick n)) _ (lease_JobID lease)); [|done|apply Hd|done].
  assert (forallb param_ok [text (lease_MonitorID lease); text (lease_JobID lease)] = true) as Hps'.
  { unfold lease_params in Hps. cbn [forallb app] in *. rewrite !andb_true_iff in *. tauto. }
  destruct (check_jobs d !! lease_JobID lease) as [r|] eqn:Hr; cbn -[classifyInactiveJob].
  2:{ rewrite (classifyInactiveJob_run _ _ _ _ Hps'). destruct (monitors d !! _); cbn; by apply same_unchanged. }
  pose proof (tw_jobs _ Hd _ _ Hr) as Hid. pose proof (tw_job_rows _ Hd _ _ Hr) as Hok. cbn in Hok.
  rewrite <- (owns_row _ _ _ Ht Hid Hok).
  destruct (jobOwnsLease (scanCheckJob r) lease (tick n)) eqn:Ho.
  - destruct (refers_monitor _ _ _ Hd Hr) as [mr Hmr].
    pose proof (owned_active _ _ _ Ht Hid Hok Ho) as Ha. rewrite Ha. apply andb_true_iff in Ha as [Hm%String.eqb_eq _].
    rewrite <- Hm, Hmr. rewrite Ho. rewrite owns_row in Ho by done. apply andb_true_iff in Ho as [_ Hgt].
    unfold After. cbn. pose proof (col_gt_default (j_lease_expires_at r) (tick n) Ht) as Hcol. cbn in Hcol. rewrite Hcol, Hgt.
    cbn. split; [done|]. split; [apply H|]. cbn. rewrite (ag_jobs _ _ H), fmap_insert. do 2 f_equal.
    unfold failed_row, AddDur, UTC. unfold scanCheckJob; cbn. by rewrite interval_us_id by (destruct (Z.max_spec delay 0) as [[_ ->]|[_ ->]]; [by exists 0|done]).
  - cbn -[classifyInactiveJob]. rewrite (classifyInactiveJob_run _ _ _ _ Hps').
    destruct (monitors d !! _); cbn; [|by apply same_unchanged].
    destruct (_ && job_active r); cbn; [rewrite Ho|]; by apply same_unchanged.
Qed.

(** Nothing is forgotten while there is room. *)
Lemma rememberTerminal_room s id :
  (terminalJobHead s <= length (terminalJobOrder s))%nat → room s →
  checkJobs (rememberTerminalJobLocked s id) = checkJobs s.
Proof.
  intros Hhead Hroom. unfold rememberTerminalJobLocked, remember. unfold room in Hroom.
  assert (evict maxRetainedCheckJobs job_terminal (drop (terminalJobHead s) (terminalJobOrder s ++ [id]))
            (checkJobs s) (terminalJobHead s) = (checkJobs s, terminalJobHead s)) as ->.
  { destruct (drop (terminalJobHead s) (terminalJobOrder s ++ [id])) as [|x l] eqn:Hl; [done|]. cbn [evict].
    assert (Z.of_nat (length (x :: l)) <= maxRetainedCheckJobs) as Hlen.
    { rewrite <- Hl, length_drop, length_app. cbn [length]. lia. }
    by destruct (Z.ltb_spec maxRetainedCheckJobs (Z.of_nat (length (x :: l)))); [lia|]. }
  by destruct (compact _ _ _).
Qed.

Lemma lease_first_row d lease t :
  tables_wf d → 0 <= t →
  first_row (lease_owned lease t) (check_jobs d) =
    match check_jobs d !! lease_JobID lease with
    | Some r => if jobOwnsLease (scanCheckJob r) lease t then Some r else None | None => None end.
Proof.
  intros Hd Ht.
  assert (∀ k r, check_jobs d !! k = Some r → lease_owned lease t r = true → k = lease_JobID lease) as Hkey.
  { intros k r Hk Hp. unfold lease_owned in Hp. apply andb_true_iff in Hp as [Hp _]. apply String.eqb_eq in Hp.
    by rewrite <- Hp, (tw_jobs _ Hd _ _ Hk). }
  destruct (check_jobs d !! lease_JobID lease) as [r|] eqn:Hr.
  - pose proof (tw_jobs _ Hd _ _ Hr) as Hid. pose proof (tw_job_rows _ Hd _ _ Hr) as Hok. cbn in Hok.
    pose proof (owns_row _ lease _ Ht Hid Hok) as Ho.
    assert (lease_owned lease t r = jobOwnsLease (scanCheckJob r) lease t) as Heq.
    { rewrite Ho. unfold lease_owned. by rewrite Hid, String.eqb_refl. }
    destruct (jobOwnsLease (scanCheckJob r) lease t) eqn:Hj.
    + apply (first_row_unique _ _ _ _ Hr Heq). intros k r' Hk Hp. pose proof (Hkey _ _ Hk Hp). subst k. congruence.
    + apply first_row_None. intros k r' Hk. destruct (lease_owned lease t r') eqn:Hp; [|done].
      pose proof (Hkey _ _ Hk Hp). subst k. simplify_eq. congruence.
  - apply first_row_None. intros k r' Hk. destruct (lease_owned lease t r') eqn:Hp; [|done].
    pose proof (Hkey _ _ Hk Hp). subst k. congruence.
Qed.

Lemma lease_update d lease t f r :
  tables_wf d → 0 <= t → check_jobs d !! lease_JobID lease = Some r → jobOwnsLease (scanCheckJob r) lease t = true →
  update_rows (lease_owned lease t) f (check_jobs d) = <[lease_JobID lease := f r]> (check_jobs d).
Proof.
  intros Hd Ht Hr Ho. unfold lease_owned. rewrite (update_key j_id _ _ _ _ r (tw_jobs _ Hd) Hr).
  rewrite owns_row in Ho; [by rewrite Ho|done|by apply (tw_jobs _ Hd)|exact (tw_job_rows _ Hd _ _ Hr)].
Qed.

Lemma advance_scan m t :
  monitor_row_ok m →
  scanMonitor (advance_row t m)
  = (scanMonitor m) <| mon_NextCheckAt := AddDur t (seconds (m_interval_seconds m)) |> <| mon_UpdatedAt := t |>.
Proof.
  intros [Hc _]. unfold monitor_check in Hc. rewrite !andb_true_iff in Hc.
  destruct Hc as [[[[[[H1 H2] _] _] _] _] _]. unfold AddDur. rewrite seconds_small by lia. done.
Qed.

Lemma dead_step d s n lease e :
  agree d s → room s → 0 <= tick (S (S n)) → representable (JMarkJobDead lease e) d →
  same (pg_job (JMarkJobDead lease e) n d) (mem_job (JMarkJobDead lease e) (tick (S (S n))) s).
Proof.
  intros H Hroom Ht Hps. pose proof (ag_tables _ _ H) as Hd. cbn [pg_job mem_job representable] in *.
  set (t := tick (S (S n))) in *.
  assert (forallb param_ok [text (lease_MonitorID lease)] = true
          ∧ forallb param_ok [text (lease_MonitorID lease); text (lease_JobID lease)] = true) as [Hp1 Hp2].
  { unfold lease_params in Hps. cbn [forallb app] in *. rewrite !andb_true_iff in *. tauto. }
  unfold pg_MarkJobDead, bind at 1, Get. rewrite transaction_run. unfold bind at 1. rewrite tx_read_run by done.
  rewrite (agree_monitor _ _ _ H).
  destruct (monitors d !! lease_MonitorID lease) as [m|] eqn:Hm; cbn -[exec tx_read MarkJobDead]; [|by apply same_unchanged].
  unfold bind at 1. rewrite exec_run by done. fold t. unfold apply_stmt, kill_owned. rewrite lease_first_row by done.
  unfold MarkJobDead. rewrite (agree_monitor _ _ _ H), Hm, (activeJobLocked_row _ _ _ _ H), Hm. cbn -[exec tx_read].
  destruct (check_jobs d !! lease_JobID lease) as [r|] eqn:Hr.
  2:{ cbn -[tx_read]. unfold bind. rewrite tx_read_run by done. rewrite classify_row, decide_True by eauto.
      by apply same_unchanged. }
  pose proof (tw_jobs _ Hd _ _ Hr) as Hid. pose proof (tw_job_rows _ Hd _ _ Hr) as Hok. cbn in Hok.
  destruct (jobOwnsLease (scanCheckJob r) lease t) eqn:Ho.
  2:{ cbn -[tx_read]. unfold bind. rewrite tx_read_run by done. rewrite classify_row, decide_True by eauto.
      destruct (_ && job_active r); rewrite ?Ho; by apply same_unchanged. }
  rewrite (owned_active _ _ _ Ht Hid Hok Ho). rewrite Ho. cbn -[exec tx_read].
  rewrite (lease_update _ _ _ _ _ Hd Ht Hr Ho).
  pose proof Ho as Hgt. rewrite owns_row in Hgt by done. apply andb_true_iff in Hgt as [_ Hgt].
  unfold After. cbn -[exec tx_read]. pose proof (col_gt_default (j_lease_expires_at r) t Ht) as Hcol.
  cbn in Hcol. rewrite Hcol, Hgt. cbn -[exec tx_read].
  assert (terminalJobHead s <= length (terminalJobOrder s))%nat as Hhead.
  { apply (tw_window _ _ _ _ _ _ _ _ _ (sw_jobs s (ag_store _ _ H))). }
  match goal with |- context [rememberTerminalJobLocked ?s1 ?id] =>
    pose proof (rememberTerminal_fields s1 id) as (_ & Hb & _);
    pose proof (rememberTerminal_room s1 id Hhead Hroom) as Hj end.
  cbn in Hb, Hj.
  destruct (j_kind r) eqn:Hk; cbn -[exec tx_read rememberTerminalJobLocked].
  - unfold bind. rewrite exec_run by done. unfold apply_stmt, update_monitor. cbn -[rememberTerminalJobLocked].
    rewrite Hm. cbn -[rememberTerminalJobLocked]. split; [done|].
    split; cbn -[rememberTerminalJobLocked]; rewrite ?Hb, ?Hj, ?(ag_monitors _ _ H), ?(ag_jobs _ _ H), fmap_insert.
    + f_equal. symmetry. by apply advance_scan, (tw_monitor_rows _ Hd _ _ Hm).
    + done.
  - split; [done|]. split; cbn -[rememberTerminalJobLocked]; rewrite ?Hb, ?Hj; [apply H|].
    by rewrite (ag_jobs _ _ H), fmap_insert.
Qed.

(** ** Topology loss, manual jobs, reads *)

Lemma recover_step d s n :
  agree d s → same (pg_job JRecoverQueuedJobs n d) (mem_job JRecoverQueuedJobs (tick n) s).
Proof.
  intros H. cbn [pg_job mem_job]. unfold pg_RecoverQueuedJobsAfterTopologyLoss, bind. rewrite query_run by done.
  unfold apply_stmt, update_jobs, RecoverQueuedJobsAfterTopologyLoss. cbn. rewrite (ag_jobs _ _ H).
  split; [|split; [apply H|]]; cbn.
  - rewrite count_rows_size, map_filter_fmap, map_size_fmap. do 4 f_equal.
  - apply map_eq. intros i. rewrite !lookup_fmap, lookup_update_rows.
    destruct (check_jobs d !! i) as [r|]; cbn; [|done]. f_equal.
    change (lost_with_topology (scanCheckJob r)) with (lost_row r). by destruct (lost_row r).
Qed.

(** The active job of a monitor, by its row or through the index. *)
Lemma active_index d s id :
  agree d s →
  first_row (active_of id) (check_jobs d) =
    match activeJobByMonitor s !! id with Some jobID => check_jobs d !! jobID | None => None end.
Proof.
  intros H. pose proof (ag_tables _ _ H) as Hd. pose proof (ag_store _ _ H) as Hs.
  assert (∀ k r, check_jobs d !! k = Some r → active_of id r = true → activeJobByMonitor s !! id = Some k) as Hrow.
  { intros k r Hk Hp. unfold active_of in Hp. apply andb_true_iff in Hp as [Hm%String.eqb_eq Ha].
    assert (checkJobs s !! k = Some (scanCheckJob r)) as Hj by (by rewrite (agree_job _ _ _ H), Hk).
    destruct (job_lookup _ _ _ Hs Hj) as (_ & _ & Hact). rewrite scan_terminal, Ha in Hact. rewrite <- Hm. by apply Hact. }
  destruct (first_row (active_of id) (check_jobs d)) as [r|] eqn:Hf.
  - apply first_row_Some in Hf as [[k Hk] Hp]. by rewrite (Hrow _ _ Hk Hp), Hk.
  - destruct (activeJobByMonitor s !! id) as [jobID|] eqn:Hi; [|done].
    destruct (active_job _ _ _ Hs Hi) as (j & Hj & Hm & Ht & _). rewrite (agree_job _ _ _ H) in Hj.
    destruct (check_jobs d !! jobID) as [r|] eqn:Hr; [|done]. cbn in Hj. simplify_eq.
    rewrite first_row_None in Hf. specialize (Hf _ _ Hr). unfold active_of in Hf.
    rewrite scan_terminal in Ht. apply negb_false_iff in Ht. cbn in Hf. by rewrite String.eqb_refl, Ht in Hf.
Qed.

Lemma manual_step d s n id rnd :
  agree d s → representable (JCreateManualJob id rnd) d →
  same (pg_job (JCreateManualJob id rnd) n d) (mem_job (JCreateManualJob id rnd) (tick (S n)) s).
Proof.
  intros H (Hps & _ & Hfresh). pose proof (ag_tables _ _ H) as Hd. cbn [pg_job mem_job].
  assert (forallb param_ok [text id] = true ∧ forallb param_ok [text (newID "job" rnd); text id] = true) as [Hp1 Hp2].
  { cbn [forallb] in *. rewrite !andb_true_iff in *. tauto. }
  unfold pg_CreateManualJob, CreateManualJob, bind at 1. rewrite transaction_run. unfold bind at 1.
  rewrite databaseTime_run. unfold bind at 1. rewrite tx_read_run by done. rewrite (agree_monitor _ _ _ H).
  destruct (monitors d !! id) as [m|] eqn:Hm; cbn -[exec tx_read]; [|by apply same_unchanged].
  unfold bind at 1. rewrite tx_read_run by done. rewrite (active_index _ _ _ H).
  pose proof (active_index _ _ id H) as Hidx.
  destruct (activeJobByMonitor s !! id) as [jobID|] eqn:Hi.
  - destruct (active_job _ _ _ (ag_store _ _ H) Hi) as (j & Hj & _ & _ & _). rewrite Hj.
    rewrite (agree_job _ _ _ H) in Hj. destruct (check_jobs d !! jobID) as [r|]; [|done]. cbn in Hj. simplify_eq.
    by apply same_unchanged.
  - unfold bind. rewrite exec_run by done. unfold apply_stmt, insert_job. cbn. rewrite Hfresh.
    assert (exists_row (active_of id) (check_jobs d) = false) as ->.
    { apply not_true_iff_false. intros (k & r & Hk & Hp)%exists_row_spec. rewrite first_row_None in Hidx.
      by rewrite (Hidx _ _ Hk) in Hp. }
    cbn. rewrite Hm. cbn. split; [done|]. split; cbn; [apply H|]. by rewrite (ag_jobs _ _ H), fmap_insert.
Qed.

Lemma get_step d s n id :
  agree d s → representable (JGet id) d → same (pg_job (JGet id) n d) (mem_job (JGet id) (tick n) s).
Proof.
  intros H Hps. cbn [pg_job mem_job representable] in *. unfold pg_Get, Get, bind.
  rewrite read_run by (cbn [forallb]; by rewrite Hps). rewrite (agree_monitor _ _ _ H).
  destruct (monitors d !! id); by apply same_unchanged.
Qed.

Lemma get_job_step d s n id :
  agree d s → representable (JGetCheckJob id) d → same (pg_job (JGetCheckJob id) n d) (mem_job (JGetCheckJob id) (tick n) s).
Proof.
  intros H Hps. cbn [pg_job mem_job representable] in *. unfold pg_GetCheckJob, CheckJob, bind.
  rewrite read_run by (cbn [forallb]; by rewrite Hps). rewrite (agree_job _ _ _ H).
  destruct (check_jobs d !! id); by apply same_unchanged.
Qed.

(** ** The diagram *)

Lemma mem_job_wf op t s :
  store_wf s → (∀ id rnd, op = JCreateManualJob id rnd → entropy_ok rnd ∧ checkJobs s !! newID "job" rnd = None) →
  store_wf (mem_job op t s).1.
Proof.
  intros Hs Hf. destruct op; cbn [mem_job].
  - done.
  - done.
  - destruct (Hf _ _ eq_refl) as [He Hn]. pose proof (CreateManualJob_wf s id t rnd Hs He Hn).
    by destruct (CreateManualJob s id t rnd).
  - pose proof (MarkJobPublished_wf s claim t Hs). by destruct (MarkJobPublished s claim t).
  - pose proof (ReleaseJobPublish_wf s claim lastError t Hs). by destruct (ReleaseJobPublish s claim lastError t).
  - pose proof (RecoverQueuedJobs_wf s t Hs). by destruct (RecoverQueuedJobsAfterTopologyLoss s t).
  - pose proof (MarkJobProcessing_wf s id jobID attempt t leaseTimeout rnd Hs).
    by destruct (MarkJobProcessing s id jobID attempt t leaseTimeout rnd).
  - pose proof (MarkJobFailed_wf s lease lastError t (AddDur t (Z.max retryDelay 0)) t Hs).
    by destruct (MarkJobFailed s lease lastError t (AddDur t (Z.max retryDelay 0)) t).
  - destruct (Get s (lease_MonitorID lease)) as [m|]; [|done].
    pose proof (MarkJobDead_wf s lease lastError t (AddDur t (seconds (mon_IntervalSeconds m))) t Hs).
    by destruct (MarkJobDead _ _ _ _ _ _).
Qed.

Lemma pg_job_keeps op n d : tables_wf d → tables_wf (pg_job op n d).1.2.
Proof.
  assert (∀ n d, table_steps true d (others n d)) as Ho by (intros n' d'; rewrite Hquiet; apply rtc_refl).
  assert (PreOrder (table_steps true)) by (unfold table_steps; apply _).
  intros Hd. eapply table_steps_wf; [|exact Hd]. revert n d Hd. 
  enough (guarantees (table_steps true) (pg_job op)) as Hg by (intros; apply Hg).
  destruct op; cbn [pg_job]; session_steps;
    eauto using CreateManualJob_steps, MarkJobPublished_steps, ReleaseJobPublish_steps, Recover_steps,
      MarkJobProcessing_steps, MarkJobFailed_steps, MarkJobDead_steps;
    unfold pg_Get, pg_GetCheckJob; session_steps.
Qed.

(** C7: The job protocol of the PostgreSQL repository refines the in-memory
    store: from tables and a store that hold the same monitors and jobs, every
    method of a server that answers returns what the store's method returns at
    the clock reading the statement was decided on (errors included), and the
    two hold the same monitors and jobs afterwards. *)
Theorem pg_refines_store op d s n :
  agree d s → representable op d → room s → 0 <= tick (decided_at op n) →
  let '(_, d', r) := pg_job op n d in
  let '(s', r') := mem_job op (tick (decided_at op n)) s in
  r = r' ∧ agree d' s'.
Proof.
  intros H Hrep Hroom Ht.
  assert (same (pg_job op n d) (mem_job op (tick (decided_at op n)) s)) as Hsame.
  { destruct op; cbn [decided_at] in *.
    - by apply get_step.
    - by apply get_job_step.
    - by apply manual_step.
    - by apply published_step.
    - by apply released_step.
    - by apply recover_step.
    - by apply processing_step.
    - by apply failed_step.
    - by apply dead_step. }
  pose proof (pg_job_keeps op n d (ag_tables _ _ H)) as Hwf.
  pose proof (mem_job_wf op (tick (decided_at op n)) s (ag_store _ _ H)) as Hwf'.
  destruct (pg_job op n d) as [[n' d'] r], (mem_job op _ s) as [s' r']. destruct Hsame as (Hr & Hm & Hj).
  split; [done|]. split; [done| |done|done]. apply Hwf'. intros id rnd ->. destruct Hrep as (_ & He & Hfresh).
  split; [done|]. by rewrite (agree_job _ _ _ H), Hfresh.
Qed.
End refine.

(** Both repositories after creating the monitor at the same instant. *)
Lemma sample_agree : agree (pg_sample 1) (sample 1).
Proof. split; [apply pg_sample_wf|apply sample_wf|vm_compute; reflexivity|vm_compute; reflexivity]. Qed.

Lemma pg_refines_store_witness :
  let op := JCreateManualJob sample_monitor (sample_rnd 7) in
  let '(_, d', r) := pg_job op (sample_at 1) (pg_sample 1) in
  let '(s', r') := mem_job op (tick (decided_at op (sample_at 1))) (sample 1) in
  r = r' ∧ agree d' s'.
Proof.
  apply pg_refines_store.
  - by intros n d.
  - intros n. by eexists _, _.
  - apply sample_agree.
  - split; [vm_compute; reflexivity|]. split; [|vm_compute; reflexivity].
    unfold sample_rnd, entropy_ok. cbn [repeat]. repeat constructor; lia.
  - vm_compute. reflexivity.
  - vm_compute. discriminate.
Defined.
