(* ===== verification/PgAtomic.v ===== *)
(** * The methods of the PostgreSQL repository are all or nothing

    A method that answers an error changed nothing of its own, unless the reply
    to its last write was lost: then all of it took effect, and with that reply
    ([answered_at]) the same run would have succeeded.  Other clients may move
    the tables between a method's transactions. *)

From stdpp Require Import base list gmap strings relations.
From Stdlib Require Import ZArith Lia Ascii.
From S2P Require Import Prelude GoNum GoStrings NetworkPolicy Egress Domain History Store Sample Alert Sql PgSchema Postgres PgOutbox PgInv PgSample.
#[local] Open Scope string_scope.
#[local] Open Scope list_scope.
#[local] Open Scope Z_scope.
#[local] Open Scope sql_scope.
#[local] Abbreviation proc := (Sql.proc (DB:=Tables)).
#[local] Abbreviation stmt := (Sql.stmt (DB:=Tables)).

(** ** The same server, had it answered statement [K] *)

Definition with_reply (o : outcome) : outcome :=
  match o with ReplyLost micros locked _ => Answered micros locked | o => o end.
Definition answered_at {DB} (SV : Server DB) (K : nat) : Server DB :=
  {| answer n := if decide (n = K) then with_reply (answer n) else answer n; others := others |}.

Section lost_reply.
Context `{SV : !Server Tables}.

Lemma answered_elsewhere K n : n ≠ K → answer (Server := answered_at SV K) n = answer n.
Proof. intros Hn. cbn. by rewrite decide_False. Qed.
Lemma answered_there K us lk e : answer K = ReplyLost us lk e → answer (Server := answered_at SV K) K = Answered us lk.
Proof. intros Ha. cbn. by rewrite decide_True, Ha. Qed.

(** What other clients did to the tables. *)
Definition others_only : relation Tables := rtc (λ d d', ∃ n, d' = others n d).
#[local] Instance others_only_preorder : PreOrder others_only.
Proof. unfold others_only. apply _. Qed.
Lemma others_move n d : others_only d (others n d).
Proof. apply rtc_once. by exists n. Qed.

(** A run that does not reach statement [K] is the same on both servers. *)
Definition until {A} (K : nat) (p p' : proc A) : Prop :=
  ∀ n d, (n <= (p n d).1.1)%nat ∧ (((p n d).1.1 <= K)%nat ∨ (K < n)%nat → p' n d = p n d).

Lemma until_refl {A} K (p : proc A) : (∀ n d, n <= (p n d).1.1)%nat → until K p p.
Proof. by intros Hp n d. Qed.
Lemma until_ret {A} K (a : A) : until K (ret a) (ret a).
Proof. by apply until_refl. Qed.
Lemma until_fail {A} K e : until K (@fail Tables A e) (fail e).
Proof. by apply until_refl. Qed.
Lemma until_bind {A B} K (p p' : proc A) (f f' : A → proc B) :
  until K p p' → (∀ a, until K (f a) (f' a)) → until K (bind p f) (bind p' f').
Proof.
  intros Hp Hf n d. destruct (Hp n d) as [Hn Heq]. unfold bind.
  destruct (p n d) as [[n1 d1] [a|e]]; cbn [fst snd] in *.
  - destruct (Hf a n1 d1) as [Hn1 Heq1]. split; [lia|]. intros Hk. rewrite Heq by lia. apply Heq1. lia.
  - split; [done|]. intros Hk. by rewrite Heq.
Qed.
Lemma until_try {A} K (p p' : proc A) : until K p p' → until K (try p) (try p').
Proof.
  intros Hp n d. destruct (Hp n d) as [Hn Heq]. unfold try.
  destruct (p n d) as [[n1 d1] r]; cbn [fst snd] in *. split; [done|]. intros Hk. by rewrite Heq.
Qed.
Lemma until_exec {A} K ps (s : stmt A) : until K (exec ps s) (exec (SV := answered_at SV K) ps s).
Proof.
  intros n d. unfold exec. destruct (negb _); [by split|]. split; [destruct (answer n); cbn; try lia; destruct (apply_stmt _ _ _ _); cbn; lia|].
  intros Hk. assert (n ≠ K) as Hn.
  { destruct (answer n); cbn in Hk; try lia. destruct (apply_stmt _ _ _ _). cbn in Hk. lia. }
  by rewrite answered_elsewhere.
Qed.
Lemma until_query {A} K ps (s : stmt A) : until K (query ps s) (query (SV := answered_at SV K) ps s).
Proof. intros n d. destruct (until_exec K ps s n (others n d)) as [Hn Heq]. split; [exact Hn|]. intros Hk. exact (Heq Hk). Qed.

Lemma until_databaseTime K : until K databaseTime (databaseTime (SV := answered_at SV K)).
Proof. apply until_exec. Qed.

(** ** All or nothing

    [p'] is [p] on the server that answers statement [K]. *)
Definition all_or_nothing {A} (p : proc A) (p' : nat → proc A) : Prop :=
  ∀ n d n' d' e, tables_wf d → p n d = (n', d', Err e) →
  others_only d d'
  ∨ ∃ K us lk err, (n <= K < n')%nat ∧ answer K = ReplyLost us lk err ∧ ∃ a, p' K n d = (n', d', Ok a).

Lemma error_only {A} (p : proc A) p' : guarantees others_only p → all_or_nothing p p'.
Proof. intros Hp n d n' d' e _ Hr. left. specialize (Hp n d). by rewrite Hr in Hp. Qed.

Lemma transaction_all_or_nothing {A} (body : proc A) (body' : nat → proc A) :
  (∀ K, until K body (body' K)) →
  all_or_nothing (transaction body) (λ K, transaction (SV := answered_at SV K) (body' K)).
Proof.
  intros Hb n d n' d' e _. unfold transaction. pose proof (others_move n d) as Hd.
  destruct (answer n) as [us lk|e1|us lk e1] eqn:Ha; try (intros [= <- <- <-]; by left).
  destruct (body (S n) (others n d)) as [[n1 d1] [a|e2]] eqn:Hbody; [|intros [= <- <- <-]; by left].
  destruct (answer n1) as [us1 lk1|e3|us1 lk1 e3] eqn:Ha1; [done|intros [= <- <- <-]; by left|]. intros [= <- <- <-].
  destruct (Hb n1 (S n) (others n d)) as [Hn1 Heq]. rewrite Hbody in Hn1, Heq. cbn [fst] in Hn1, Heq.
  right. exists n1, us1, lk1, e3. split; [lia|]. split; [done|]. exists a.
  rewrite answered_elsewhere by lia. rewrite Ha. change (others (Server := answered_at SV n1) n d) with (others n d).
  rewrite Heq by (left; lia). by rewrite (answered_there n1 us1 lk1 e3).
Qed.

(** A statement the server rejected, or whose reply was lost. *)
Lemma query_Err {A} ps (st : stmt A) n d n1 d1 e :
  query ps st n d = (n1, d1, Err e) →
  d1 = others n d
  ∨ ∃ us lk err a, n1 = S n ∧ answer n = ReplyLost us lk err
    ∧ st (Microsecond * us) lk (others n d) = (d1, Ok a)
    ∧ query (SV := answered_at SV n) ps st n d = (n1, d1, Ok a).
Proof.
  unfold query, exec, apply_stmt. destruct (negb _); [intros [= <- <- <-]; by left|].
  destruct (answer n) as [us lk|e2|us lk e2] eqn:Ha.
  - destruct (st _ lk _) as [d2 [a|e3]]; [done|]. intros [= <- <- <-]. by left.
  - intros [= <- <- <-]. by left.
  - destruct (st _ lk (others n d)) as [d2 [a|e3]] eqn:Hs; cbn [fst]; intros [= <- <- <-]; [|by left].
    right. exists us, lk, e2, a. split; [done|]. split; [done|]. split; [done|].
    rewrite (answered_there n us lk e2) by done. change (others (Server := answered_at SV n) n d) with (others n d). by rewrite Hs.
Qed.

(** A single statement that is followed by reads when it changed nothing. *)
Lemma query_all_or_nothing {A B} ps (st : stmt A) (f : A → proc B) (f' : nat → A → proc B) :
  (∀ now lk d d1 a, tables_wf d → st now lk d = (d1, Ok a) → d1 = d ∨ ∃ b, f a = ret b ∧ ∀ K, f' K a = ret b) →
  (∀ n d, tables_wf d → tables_wf (others n d)) →
  (∀ a, guarantees others_only (f a)) →
  all_or_nothing (bind (query ps st) f) (λ K, bind (query (SV := answered_at SV K) ps st) (f' K)).
Proof.
  intros Hst Hwf Hf n d n' d' e Hd. pose proof (others_move n d) as Ho. specialize (Hwf n d Hd).
  unfold bind. destruct (query ps st n d) as [[n1 d1] [a|e1]] eqn:Hq.
  - apply query_Ok in Hq as (us & lk & _ & Hs & _). destruct (Hst _ _ _ _ _ Hwf Hs) as [->|(b & -> & _)]; [|done].
    intros Hrun. left. etrans; [exact Ho|]. specialize (Hf a n1 (others n d)). by rewrite Hrun in Hf.
  - intros [= <- <- <-]. apply query_Err in Hq as [->|(us & lk & err & a & -> & Ha & Hs & Hq)]; [by left|].
    destruct (Hst _ _ _ _ _ Hwf Hs) as [->|(b & Hb & Hb')]; [by left|]. right. exists n, us, lk, err.
    split; [lia|]. split; [done|]. exists b. by rewrite Hq, Hb'.
Qed.

Lemma all_or_nothing_done {A} (p : proc A) p' : all_or_nothing p p' → all_or_nothing (done_ p) (λ K, done_ (p' K)).
Proof.
  intros Hp n d n' d' e Hd. unfold done_, bind. destruct (p n d) as [[n1 d1] [a|e1]] eqn:Hr; [done|].
  intros [= <- <- <-]. destruct (Hp _ _ _ _ _ Hd Hr) as [?|(K & us & lk & err & HK & Ha & a & Heq)]; [by left|].
  right. exists K, us, lk, err. split; [done|]. split; [done|]. exists tt. by rewrite Heq.
Qed.
End lost_reply.

(** Walks through a session on the two servers at once. *)
Ltac until_steps :=
  repeat match goal with
  | |- until _ (bind _ _) _ => apply until_bind; [|intros ?]
  | |- until _ (ret _) _ => apply until_ret
  | |- until _ (fail _) _ => apply until_fail
  | |- until _ (try _) _ => apply until_try
  | |- until _ databaseTime _ => apply until_databaseTime
  | |- until _ (query _ _) _ => apply until_query
  | |- until _ (exec _ _) _ => apply until_exec
  | |- until _ (read _ _) _ => unfold read
  | |- until _ (tx_read _ _) _ => unfold tx_read
  | |- until _ (if ?b then _ else _) _ => destruct b
  | |- until _ (match ?x with _ => _ end) _ => destruct x
  | |- until _ (let _ := _ in _) _ => cbv zeta
  end.

Section spec.
Context `{UN : !Unicode, UP : !URLParser, MR : !MapRange, SV : !Server Tables, CO : !Collation, WC : !WebhookClient}.
#[local] Instance others_only_pre : PreOrder (others_only (SV := SV)).
Proof. apply others_only_preorder. Qed.
#[local] Hint Resolve others_move : core.

(** An update by identifier matches one row or changes nothing. *)
Lemma update_jobs_atomic p f id d :
  tables_wf d → (∀ now r, p now r = true → j_id r = id) →
  ∀ now lk d1 k, update_jobs p f now lk d = (d1, Ok k) → d1 = d ∨ k = 1.
Proof.
  intros Hd Hp now lk d1 k [= <- <-].
  assert (count_rows (p now) (check_jobs d) = 0 ∨ count_rows (p now) (check_jobs d) = 1) as Hc.
  { assert (count_rows (p now) (check_jobs d) = count_rows (λ x, String.eqb (j_id x) id && p now x) (check_jobs d)) as ->.
    { unfold count_rows, select_rows. do 2 f_equal. apply List.filter_ext. intros x.
      destruct (p now x) eqn:Hx; [|by rewrite andb_false_r]. by rewrite (Hp _ _ Hx), String.eqb_refl. }
    rewrite (count_key j_id) by apply Hd. destruct (check_jobs d !! id) as [r|]; [|by left].
    destruct (p now r); auto. }
  destruct Hc as [H0|H1]; [left|by right].
  rewrite update_rows_none; [by destruct d|]. by apply count_rows_zero.
Qed.

Lemma update_alerts_atomic p f d :
  ∀ now lk d1 k, update_alerts p f now lk d = (d1, Ok k) → d1 = d ∨ k ≠ 0.
Proof.
  intros now lk d1 k [= <- <-]. destruct (decide (count_rows p (alert_outbox d) = 0)) as [H0|H0]; [left|by right].
  rewrite update_rows_none; [by destruct d|]. by apply count_rows_zero.
Qed.

Lemma publication_owned_id claim now r : publication_owned claim now r = true → j_id r = claim_JobID claim.
Proof. unfold publication_owned. by intros [?%String.eqb_eq _]%andb_true_iff. Qed.
Lemma startable_id id jobID attempt r : startable id jobID attempt r = true → j_id r = jobID.
Proof. unfold startable. by intros [?%String.eqb_eq _]%andb_true_iff. Qed.
Lemma lease_owned_id lease now r : lease_owned lease now r = true → j_id r = lease_JobID lease.
Proof. unfold lease_owned. by intros [?%String.eqb_eq _]%andb_true_iff. Qed.

Lemma insert_due_jobs_until K due now exp clk rnd jobs :
  until K (insert_due_jobs due now exp clk rnd jobs) (insert_due_jobs (SV := answered_at SV K) due now exp clk rnd jobs).
Proof. revert jobs. induction due as [|m due IH]; intros jobs; cbn [insert_due_jobs]; until_steps. by apply IH. Qed.

Lemma Create_all_or_nothing p input rnd :
  all_or_nothing (pg_Create p input rnd) (λ K, pg_Create (SV := answered_at SV K) p input rnd).
Proof.
  unfold pg_Create. destruct (validateMonitorInput input p) as [err|]; [apply error_only; intros n d; reflexivity|]. cbn zeta.
  match goal with |- context [query _ (insert_monitor ?r)] => set (row := r) end.
  assert (∀ now lk d d1 a, insert_monitor row now lk d = (d1, Ok a) → ∃ r, a = Some r) as Hrow.
  { intros now lk d d1 a. unfold insert_monitor, put_monitor. destruct (monitors _ !! _); [done|].
    destruct (negb _); [done|]. destruct (exists_row _ _); [done|]. intros [= _ <-]. by eexists. }
  intros n d n' d' e Hd. unfold bind, try.
  match goal with |- context [query ?ps _ n d] => destruct (query ps (insert_monitor row) n d) as [[n1 d1] [r|e1]] eqn:Hq end.
  - apply query_Ok in Hq as (us & lk & _ & Hs & _). destruct (Hrow _ _ _ _ _ Hs) as [r' ->]. done.
  - cbn. intros [= <- <- <-]. apply query_Err in Hq as [->|(us & lk & err & a & -> & Ha & Hs & Hq)]; [left; apply others_move|].
    destruct (Hrow _ _ _ _ _ Hs) as [r ->]. right. exists n, us, lk, err. split; [lia|]. split; [done|]. eexists. by rewrite Hq.
Qed.

Section methods.
Context (Hwf : ∀ n d, tables_wf d → tables_wf (others n d)).

(** A claim's holder updates its row, or what became of the claim is read. *)
Lemma acceptPublicationProgress_reads claim : guarantees others_only (acceptPublicationProgress claim).
Proof. pose proof others_move. unfold acceptPublicationProgress, classifyInactiveJob. session_steps. Qed.

Lemma publication_all_or_nothing ps claim f :
  all_or_nothing (bind (query ps (update_jobs (publication_owned claim) f)) (λ k, if k =? 1 then ret tt else acceptPublicationProgress claim))
    (λ K, bind (query (SV := answered_at SV K) ps (update_jobs (publication_owned claim) f))
            (λ k, if k =? 1 then ret tt else acceptPublicationProgress (SV := answered_at SV K) claim)).
Proof.
  apply query_all_or_nothing; [|done|].
  - intros now lk d d1 k Hd Hs. destruct (update_jobs_atomic _ _ _ _ Hd (publication_owned_id claim) _ _ _ _ Hs) as [->| ->]; [by left|].
    right. by exists tt.
  - intros k. destruct (k =? 1); [apply guarantees_ret, _|apply acceptPublicationProgress_reads].
Qed.

Lemma alerts_all_or_nothing ps p f (e : GoError) :
  all_or_nothing (bind (query ps (update_alerts p f)) (λ k, if k =? 0 then fail e else ret tt))
    (λ K, bind (query (SV := answered_at SV K) ps (update_alerts p f)) (λ k, if k =? 0 then fail e else ret tt)).
Proof.
  apply query_all_or_nothing; [|done|].
  - intros now lk d d1 k _ [->|Hk]%update_alerts_atomic; [by left|right]. exists tt. by destruct (Z.eqb_spec k 0).
  - intros k. pose proof others_move. session_steps.
Qed.

(** C10: a method that answers an error either changed nothing (the tables are
    as other clients left them: its transaction was rolled back, or no row
    matched), or took effect as a whole: then the reply to one of its statements,
    its only write or its commit, was lost on the way, and had that reply arrived
    the same run would have succeeded with the same tables. *)
Theorem pg_all_or_nothing op n d n' d' e :
  tables_wf d → pg_run op n d = (n', d', Err e) →
  others_only d d'
  ∨ ∃ K us lk err, (n <= K < n')%nat ∧ answer K = ReplyLost us lk err
    ∧ pg_run (SV := answered_at SV K) op n d = (n', d', Ok tt).
Proof.
  enough (all_or_nothing (pg_run op) (λ K, pg_run (SV := answered_at SV K) op)) as Hall.
  { intros Hd Hr. destruct (Hall _ _ _ _ _ Hd Hr) as [?|(K & us & lk & err & HK & Ha & [] & Heq)]; [by left|right].
    by exists K, us, lk, err. }
  pose proof others_move as Hothers. destruct op; cbn [pg_run].
  - apply all_or_nothing_done, Create_all_or_nothing.
  - apply all_or_nothing_done, transaction_all_or_nothing. intros K. unfold monitor_result. until_steps.
  - apply query_all_or_nothing; [|done|intros k; session_steps].
    intros now lk d1 d2 k _. destruct (monitors d1 !! id); intros [= <- <-]; [|by left]. right. by exists tt.
  - apply all_or_nothing_done, transaction_all_or_nothing. intros K. until_steps.
  - apply all_or_nothing_done. unfold pg_ClaimDueJobs. destruct (limit <=? 0); [by apply error_only; intros n1 d1|].
    apply transaction_all_or_nothing. intros K. until_steps; apply insert_due_jobs_until.
  - unfold pg_MarkJobPublished. destruct (String.eqb _ _); [apply error_only; intros n1 d1; reflexivity|].
    apply publication_all_or_nothing.
  - unfold pg_ReleaseJobPublish. destruct (String.eqb _ _); [apply error_only; intros n1 d1; reflexivity|].
    apply publication_all_or_nothing.
  - apply query_all_or_nothing; [|done|intros k; apply guarantees_ret, _]. intros now lk d1 d2 k _ _. right. by exists tt.
  - apply all_or_nothing_done, query_all_or_nothing; [|done|].
    + intros now lk d1 d2 k Hd1 Hs. destruct (update_jobs_atomic _ _ jobID _ Hd1 (λ _, startable_id _ _ _) _ _ _ _ Hs) as [->| ->];
        [by left|right; by eexists].
    + intros k. unfold checkJobStatus, classifyInactiveJob. session_steps.
  - apply query_all_or_nothing; [|done|].
    + intros now lk d1 d2 k Hd1 Hs. destruct (update_jobs_atomic _ _ _ _ Hd1 (lease_owned_id lease) _ _ _ _ Hs) as [->| ->];
        [by left|right; by exists tt].
    + intros k. unfold classifyInactiveJob. session_steps.
  - apply transaction_all_or_nothing. intros K. until_steps.
  - apply all_or_nothing_done. unfold pg_AddCheck. destruct (String.eqb _ _); [apply error_only; intros n1 d1; reflexivity|].
    apply transaction_all_or_nothing. intros K. unfold upsertIncidentAndAlert. until_steps.
  - apply all_or_nothing_done. unfold pg_ClaimAlerts. destruct (limit <=? 0); [by apply error_only; intros n1 d1|].
    apply transaction_all_or_nothing. intros K. until_steps.
  - apply alerts_all_or_nothing.
  - apply alerts_all_or_nothing.
  - apply all_or_nothing_done. unfold pg_DeleteExpiredData.
    destruct (BatchSize policy <? 1); [apply error_only; intros n1 d1; reflexivity|].
    destruct (_ || _); [apply error_only; intros n1 d1; reflexivity|].
    apply transaction_all_or_nothing. intros K. until_steps.
Qed.
End methods.
End spec.

Definition sample_check : PgOp :=
  PgAddCheck (sample_record false) sample_lease sample_alerts (sample_rnd 4) (sample_rnd 5).

(** The sample server, except that the reply to statement [k] is lost. *)
Definition losing_server (k : nat) : Server Tables :=
  {| answer n := if decide (n = k) then ReplyLost (63871286400000000 + Z.of_nat n) ∅ ErrDeadlineExceeded
                 else Answered (63871286400000000 + Z.of_nat n) ∅;
     others _ d := d |}.

Lemma alone_only (SV : Server Tables) d d' : (∀ n d, others n d = d) → others_only (SV := SV) d d' → d' = d.
Proof. intros Hq Ho. induction Ho as [|x y z [n ->] _ IH]; [done|]. by rewrite IH, Hq. Qed.

(** The statement that marks the incident as alerted fails: nothing changed.
    The reply to the commit is lost: the result is stored. *)
Lemma pg_all_or_nothing_witness :
  (let run := pg_run (SV := failing_server 19) sample_check (sample_at 4) (pg_sample 4) in
   returned run = false ∧ run.1.2 = pg_sample 4)
  ∧ let run := pg_run (SV := losing_server 21) sample_check (sample_at 4) (pg_sample 4) in
    returned run = false ∧ ∃ K, pg_run (SV := answered_at (losing_server 21) K) sample_check (sample_at 4) (pg_sample 4)
                                = (run.1.1, run.1.2, Ok tt).
Proof.
  split; cbv zeta.
  - assert (returned (pg_run (SV := failing_server 19) sample_check (sample_at 4) (pg_sample 4)) = false) as Hf
      by (vm_compute; reflexivity).
    split; [exact Hf|]. destruct (returned_Err _ Hf) as [e He].
    destruct (pg_all_or_nothing (SV := failing_server 19) (λ _ _ H, H) _ _ _ _ _ _ (pg_sample_wf 4) He)
      as [Ho|(K & us & lk & err & _ & Ha & _)].
    + by apply (alone_only (failing_server 19)).
    + exfalso. cbn in Ha. by destruct (decide _).
  - assert (returned (pg_run (SV := losing_server 21) sample_check (sample_at 4) (pg_sample 4)) = false) as Hf
      by (vm_compute; reflexivity).
    split; [exact Hf|]. destruct (returned_Err _ Hf) as [e He].
    destruct (pg_all_or_nothing (SV := losing_server 21) (λ _ _ H, H) _ _ _ _ _ _ (pg_sample_wf 4) He)
      as [Ho|(K & us & lk & err & _ & _ & Hk)]; [|exists K; exact Hk].
    exfalso. apply (alone_only (losing_server 21)) in Ho; [|reflexivity].
    apply (f_equal (λ d, size (check_results d))) in Ho. revert Ho. vm_compute. discriminate.
Defined.
