(* ===== verification/PgSpec.v ===== *)
(** * What the PostgreSQL repository promises

    A recorded result was fenced by its lease and has exactly the stated effect;
    alerts are enqueued by their rule; what claims and settlements change. *)

From stdpp Require Import base list gmap strings.
From Stdlib Require Import ZArith Lia Ascii.
From S2P Require Import Prelude GoNum GoStrings NetworkPolicy Egress Domain History Store Sample Alert Sql PgSchema Postgres PgOutbox PgInv PgSample.
#[local] Open Scope string_scope.
#[local] Open Scope list_scope.
#[local] Open Scope Z_scope.
#[local] Open Scope sql_scope.
#[local] Abbreviation proc := (Sql.proc (DB:=Tables)).
#[local] Abbreviation stmt := (Sql.stmt (DB:=Tables)).

Section spec.
Context `{UN : !Unicode, UP : !URLParser, MR : !MapRange, SV : !Server Tables, CO : !Collation, WC : !WebhookClient}.

(** ** Recording a result *)

Lemma read_Ok {A} ps (f : Tables → A) n d n' d' a :
  tx_read ps f n d = (n', d', Ok a) → d' = d ∧ a = f d ∧ n' = S n.
Proof. intros (us & lk & _ & [= <- <-] & ->)%exec_Ok. done. Qed.

(** The open incident after one more failure. *)
Definition next_incident (d : Tables) (monitorID lastError : string) (now : Time) (rnd : Entropy) : incident_row :=
  match first_row (open_of monitorID) (incidents d) with
  | Some row => row <| i_failure_count := i_failure_count row + 1 |> <| i_last_failure_at := now |>
                    <| i_last_error := lastError |> <| i_updated_at := now |>
  | None => mkIncidentRow (newID "inc" rnd) monitorID incidentStatusOpen 1 now now None lastError None 0 now now
  end.
Definition alerted (now : Time) (row : incident_row) : incident_row :=
  row <| i_last_alerted_at := Some now |> <| i_alert_count := i_alert_count row + 1 |> <| i_updated_at := now |>.

Definition key_used (d : Tables) (key : string) : bool :=
  exists_row (λ r, String.eqb (a_idempotency_key r) key) (alert_outbox d).

(** What a result does to incidents and alerts. *)
Definition incident_effect (record : CheckRecord) (monitor : Monitor) (ap : AlertPolicy) (now : Time)
    (rndInc rndAlert : Entropy) (d d' : Tables) : Prop :=
  if rec_Success record
  then incidents d' = update_rows (open_of (rec_MonitorID record)) (resolved_row now) (incidents d)
       ∧ alert_outbox d' = alert_outbox d
  else
    let incident := next_incident d (rec_MonitorID record) (incident_error record) now rndInc in
    let alert := outbox_row record monitor incident now rndAlert in
    if alert_suppressed ap incident now || key_used d (a_idempotency_key alert)
    then incidents d' = <[i_id incident := incident]> (incidents d) ∧ alert_outbox d' = alert_outbox d
    else incidents d' = <[i_id incident := alerted now incident]> (incidents d)
         ∧ alert_outbox d' = <[a_id alert := alert]> (alert_outbox d) ∧ alert_outbox d !! a_id alert = None.

Definition rest_same (d d' : Tables) : Prop :=
  monitors d' = monitors d ∧ check_jobs d' = check_jobs d ∧ check_results d' = check_results d.

Lemma upsert_incident_Ok id m e now t lk d d' row :
  upsert_incident id m e now t lk d = (d', Ok row) →
  ∀ rnd, id = newID "inc" rnd →
  row = next_incident d m e now rnd ∧ d' = d <| incidents := <[i_id row := row]> (incidents d) |>.
Proof.
  intros Hs rnd ->. unfold upsert_incident, next_incident in *.
  destruct (first_row _ _) as [r|].
  - destruct (int4_ok _); [|done]. by injection Hs as <- <-.
  - destruct (incidents d !! _); [done|]. destruct (monitors d !! _); [|done]. by injection Hs as <- <-.
Qed.

Lemma upsertIncidentAndAlert_Ok record monitor ap now r1 r2 n d n' d' :
  tables_wf d → upsertIncidentAndAlert record monitor ap now r1 r2 n d = (n', d', Ok tt) →
  rest_same d d' ∧ incident_effect record monitor ap now r1 r2 d d'.
Proof.
  intros Hd. unfold upsertIncidentAndAlert, incident_effect. destruct (rec_Success record).
  { intros (us & lk & _ & [= <-] & _)%exec_Ok. done. }
  intros H. session_Ok H. apply exec_Ok in Hp as (us & lk & _ & Hup & ->).
  destruct (upsert_incident_Ok _ _ _ _ _ _ _ _ _ Hup r1 eq_refl) as [-> ->].
  set (inc := next_incident d (rec_MonitorID record) (incident_error record) now r1) in *.
  destruct (alert_suppressed ap inc now); cbn [orb]; [by injection H as <- <-|].
  destruct (marshal_error _); [done|]. session_Ok H. apply exec_Ok in Hp as (us' & lk' & _ & Hal & ->).
  unfold insert_alert in Hal. cbn [alert_outbox incidents monitors set_field] in Hal.
  unfold key_used. set (alert := outbox_row record monitor inc now r2) in *.
  change (alert_outbox (d <| incidents := _ |>)) with (alert_outbox d) in Hal.
  destruct (exists_row _ _).
  { injection Hal as <- <-. cbn in H. injection H as <- <-. done. }
  destruct (alert_outbox d !! a_id alert) eqn:Hfree; [done|].
  destruct (_ !! a_incident_id alert) eqn:Hinc; [|done]. destruct (_ !! a_monitor_id alert); [|done].
  injection Hal as <- <-. cbn [Z.eqb] in H. apply exec_Ok in H as (us2 & lk2 & _ & Hmark & _).
  unfold mark_alerted in Hmark. cbn in Hmark. rewrite lookup_insert_eq in Hmark.
  destruct (int4_ok _); [|done]. injection Hmark as <-. split; [done|]. cbn. split; [|done].
  by rewrite insert_insert_eq.
Qed.

Definition stored_result (record : CheckRecord) (now : Time) : result_row :=
  {| c_id := rec_ID record; c_job_id := Some (rec_JobID record); c_monitor_id := rec_MonitorID record;
     c_status_code := rec_StatusCode record; c_latency_ms := rec_LatencyMS record; c_error := rec_Error record;
     c_success := rec_Success record; c_checked_at := timestamptz (UTC (rec_CheckedAt record)); c_recorded_at := now |}.

(** The job a result is recorded for is held under the lease at [now]. *)
Definition holds_lease (record : CheckRecord) (lease : ProcessingLease) (now : Time) (job : job_row) : Prop :=
  lease_JobID lease = rec_JobID record ∧ lease_MonitorID lease = rec_MonitorID record
  ∧ j_status job = checkJobStatusProcessing ∧ j_monitor_id job = rec_MonitorID record
  ∧ j_attempt job = lease_Attempt lease ∧ j_lease_token job = Some (lease_LeaseToken lease)
  ∧ col_gt (j_lease_expires_at job) now = true.

Lemma check_refused_None record lease job :
  check_refused record lease job = None →
  j_status job = checkJobStatusProcessing ∧ j_attempt job = lease_Attempt lease
  ∧ j_lease_token job = Some (lease_LeaseToken lease)
  ∧ lease_JobID lease = rec_JobID record ∧ lease_MonitorID lease = rec_MonitorID record.
Proof.
  unfold check_refused. destruct (job_is checkJobStatusCompleted job); [done|].
  destruct (job_is checkJobStatusProcessing job) eqn:Hp; cbn; [|done]. apply job_is_spec in Hp.
  destruct (Z.eqb_spec (j_attempt job) (lease_Attempt lease)); cbn; [|done].
  destruct (col_is (j_lease_token job) ""); cbn; [done|].
  destruct (j_lease_token job) as [tok|]; cbn; [|done].
  destruct (String.eqb_spec tok (lease_LeaseToken lease)) as [->|]; cbn; [|done].
  destruct (String.eqb_spec (lease_JobID lease) (rec_JobID record)); cbn; [|done].
  by destruct (String.eqb_spec (lease_MonitorID lease) (rec_MonitorID record)).
Qed.

Lemma insert_result_Ok record t now lk d d' k :
  rec_JobID record ≠ "" → insert_result record t now lk d = (d', Ok k) → k ≠ 0 →
  d' = d <| check_results := <[rec_ID record := stored_result record t]> (check_results d) |>
  ∧ check_results d !! rec_ID record = None
  ∧ (∀ id r, check_results d !! id = Some r → c_job_id r ≠ Some (rec_JobID record)).
Proof.
  intros Hj. unfold insert_result. rewrite (proj2 (String.eqb_neq _ _) Hj).
  destruct (exists_row _ _) eqn:He; [by intros [= <- <-]|].
  destruct (check_results d !! _) eqn:Hc; [done|]. destruct (monitors d !! _); [|done]. intros [= <- <-] _.
  split; [done|]. split; [done|]. intros id r Hr Heq. apply (isUnique_none _ _ _ _ He) in Hr.
  by rewrite Heq, bool_decide_eq_true_2, bool_decide_eq_true_2 in Hr.
Qed.

(** The update that completes the job, on the clock of its own statement. *)
Lemma complete_Ok lease t now lk d d' :
  tables_wf d → update_jobs (lease_owned lease) (λ _, finished_row checkJobStatusCompleted "" t) now lk d = (d', Ok 1) →
  ∃ job, check_jobs d !! lease_JobID lease = Some job ∧ lease_owned lease now job = true
    ∧ d' = d <| check_jobs := <[lease_JobID lease := finished_row checkJobStatusCompleted "" t job]> (check_jobs d) |>.
Proof.
  intros Hd [= <- Hc]. unfold lease_owned in Hc at 1. rewrite (count_key j_id) in Hc by apply Hd.
  destruct (check_jobs d !! lease_JobID lease) as [job|] eqn:Hj; [|done].
  match type of Hc with context [if ?b then _ else _] => destruct b eqn:Hq; [|done] end.
  exists job. split; [done|]. split.
  - unfold lease_owned. by rewrite (tw_jobs _ Hd _ _ Hj), String.eqb_refl.
  - unfold lease_owned at 1. rewrite (update_key j_id _ _ _ _ job (tw_jobs _ Hd) Hj). by rewrite Hq.
Qed.

(** C28: When [AddCheck] returns a monitor, the worker held the lease of the job
    both when the result was written and, on a later reading of the clock, when
    the job was completed; and the transaction did exactly this: one new result,
    the first for its job, the job completed, the monitor's last result and (for
    scheduled jobs) its next check updated, and the incident and alert the
    result calls for. *)
Theorem pg_AddCheck_effect record lease ap r1 r2 n d n' d' m :
  tables_wf (others n d) → pg_AddCheck record lease ap r1 r2 n d = (n', d', Ok m) →
  let d0 := others n d in
  ∃ row job t t',
    monitors d0 !! rec_MonitorID record = Some row ∧ check_jobs d0 !! rec_JobID record = Some job
    ∧ server_clock (3 + n) t ∧ holds_lease record lease t job
    ∧ (∃ k, n' = 2 + k ∧ server_clock k t')%nat ∧ holds_lease record lease t' job
    ∧ check_results d0 !! rec_ID record = None
    ∧ (∀ id r, check_results d0 !! id = Some r → c_job_id r ≠ Some (rec_JobID record))
    ∧ m = scanMonitor (checked_row record (j_kind job) t row)
    ∧ monitors d' = <[rec_MonitorID record := checked_row record (j_kind job) t row]> (monitors d0)
    ∧ check_jobs d' = <[rec_JobID record := finished_row checkJobStatusCompleted "" t job]> (check_jobs d0)
    ∧ check_results d' = <[rec_ID record := stored_result record t]> (check_results d0)
    ∧ incident_effect record m ap t r1 r2 d0 d'.
Proof.
  intros Hd H. unfold pg_AddCheck in H. destruct (String.eqb_spec (rec_JobID record) "") as [|Hjob]; [done|].
  apply transaction_Ok in H as (nc & H & Hend). set (d0 := others n d) in *. cbn zeta.
  session_Ok H. apply read_Ok in Hp as (-> & -> & ->). destruct (monitors d0 !! rec_MonitorID record) as [row|] eqn:Hrow; [|done].
  session_Ok H. apply read_Ok in Hp as (-> & -> & ->). destruct (first_row _ _) as [job|] eqn:Hfirst; [|done].
  apply first_row_Some in Hfirst as [[k Hk] Hof]. unfold job_of in Hof.
  apply andb_true_iff in Hof as [Hid%String.eqb_eq Hmon%String.eqb_eq].
  assert (check_jobs d0 !! rec_JobID record = Some job) as Hjobs by (by rewrite <- Hid, (tw_jobs _ Hd _ _ Hk)).
  destruct (check_refused record lease job) eqn:Href; [done|].
  apply check_refused_None in Href as (Hst & Hat & Htok & Hl1 & Hl2).
  session_Ok H. apply databaseTime_Ok in Hp as (-> & _ & Hclock). set (t := a) in *. clearbody t.
  destruct (col_gt (j_lease_expires_at job) t) eqn:Hgt; cbn [negb] in H; [|done].
  session_Ok H. apply exec_Ok in Hp as (us1 & lk1 & _ & Hins & ->).
  destruct (Z.eqb_spec a0 0) as [|Hk0]; [done|].
  pose proof (insert_result_safe record t _ _ _ _ _ Hd Hins) as Hd1.
  destruct (insert_result_Ok _ _ _ _ _ _ _ Hjob Hins Hk0) as (-> & Hfree & Hfirst).
  session_Ok H. apply exec_Ok in Hp as (us2 & lk2 & _ & Hup & ->).
  unfold update_monitor in Hup. cbn [monitors set_field] in Hup. 
  change (monitors (d0 <| check_results := _ |>)) with (monitors d0) in Hup. rewrite Hrow in Hup. injection Hup as <- <-.
  set (row' := checked_row record (j_kind job) t row) in *.
  session_Ok H. match type of Hp with _ = (_, ?d, _) => rename d into d3 end. destruct a1.
  assert (tables_wf ((d0 <| check_results := <[rec_ID record:=stored_result record t]> (check_results d0) |>)
            <| monitors := <[rec_MonitorID record := row']> (monitors d0) |>)) as Hd2.
  { refine (monitor_put_wf _ Hd1 _ row' _ _ _); [exact (tw_monitors _ Hd _ _ Hrow)|exact (tw_monitor_rows _ Hd _ _ Hrow)|].
    intros k' r Hr Hu. by eapply (tw_url _ Hd). }
  destruct (upsertIncidentAndAlert_Ok _ _ _ _ _ _ _ _ _ _ Hd2 Hp) as ((Hm & Hj & Hc) & Heff).
  session_Ok H. apply exec_Ok in Hp0 as (us3 & lk3 & Hfinal & Hfin & ->).
  match type of H with context [?c =? 1] => destruct (Z.eqb_spec c 1) as [->|]; cbn [negb] in H; [|done] end.
  injection H as <- <- <-.
  assert (tables_wf d3) as Hd3.
  { eapply (guaranteed_wf false); [|exact Hd2|exact Hp]. apply upsertIncidentAndAlert_steps. }
  destruct (complete_Ok _ _ _ _ _ _ Hd3 Hfin) as (job' & Hjob' & Hown & ->).
  rewrite Hj, Hl1 in Hjob'. cbn in Hjob'. rewrite Hjobs in Hjob'. injection Hjob' as <-.
  exists row, job, t, (Microsecond * us3).
  assert (holds_lease record lease (Microsecond * us3) job) as Hhold'.
  { unfold holds_lease. split; [done|]. do 5 (split; [done|]).
    unfold lease_owned in Hown. rewrite !andb_true_iff in Hown. tauto. }
  do 3 (split; [done|]). split; [done|]. split; [eexists; split; [exact Hend|by exists us3, lk3]|].
  repeat (split; [done|]). cbn -[incident_effect]. rewrite Hj, Hc, Hl1. split; [done|]. split; [done|]. exact Heff.
Qed.

(** ** Claiming jobs *)

Definition claim_lease (leaseTimeout : Z) : Z := if leaseTimeout <=? 0 then Minute else leaseTimeout.
Definition claim_attempts (maxAttempts : Z) : Z := if maxAttempts <=? 0 then defaultMaxJobAttempts else maxAttempts.

(** A job handed to the scheduler at [now]. *)
Definition handed_out (maxAttempts : Z) (now leaseExpiresAt : Time) (d : Tables) (r : job_row) : Prop :=
  check_jobs d !! j_id r = Some r ∧ j_status r = checkJobStatusScheduled ∧ j_available_at r <= now
  ∧ j_attempt r < maxAttempts ∧ j_lease_expires_at r = Some leaseExpiresAt
  ∧ (∃ tok, j_publication_token r = Some tok ∧ tok ≠ "") ∧ is_Some (monitors d !! j_monitor_id r).

Definition batch_ok maxAttempts now exp d (rows : list job_row) : Prop :=
  NoDup (j_id <$> rows) ∧ Forall (handed_out maxAttempts now exp d) rows.

Lemma claim_rows_Ok limit now exp ma token t lk d d' rows :
  tables_wf d → 0 <= limit → token ≠ "" → claim_rows limit now exp ma token t lk d = (d', Ok rows) →
  batch_ok ma now exp d' rows ∧ Z.of_nat (length rows) <= limit.
Proof.
  intros Hd Hl Htok Hc. injection Hc as <- <-.
  destruct (claimed_rows j_id compare_job_rows limit (λ r, claimable_row ma now r && unlocked j_id lk r)
    (claimed_row now exp token) (check_jobs d) (tw_jobs _ Hd) (λ _, eq_refl) Hl) as (Hlen & Hnd & Hrows).
  split; [split; [done|]|done]. apply Forall_forall. intros r' Hr'.
  destruct (Hrows _ Hr') as (Hst & r & Hr & Hp & ->). apply andb_true_iff in Hp as [Hp _].
  unfold claimable_row in Hp. rewrite !andb_true_iff in Hp. destruct Hp as (((_ & Hav) & _) & Hat).
  split; [done|]. split; [done|]. split; [cbn; lia|]. split; [cbn; lia|]. split; [done|]. split.
  - eexists. split; [done|]. by destruct token.
  - cbn. by eapply (tw_job_monitor _ Hd).
Qed.

Lemma insert_due_jobs_Ok due now exp clk rnd ma jobs n d n' d' rows :
  0 < ma → batch_ok ma now exp d jobs → insert_due_jobs due now exp clk rnd jobs n d = (n', d', Ok rows) →
  batch_ok ma now exp d' rows ∧ length rows = (length jobs + length due)%nat.
Proof.
  intros Hma. revert jobs n d. induction due as [|m due IH]; intros jobs n d Hb H; cbn [insert_due_jobs] in H.
  { injection H as <- <- <-. split; [done|cbn; lia]. }
  session_Ok H. apply exec_Ok in Hp as (us & lk & _ & Hins & ->).
  unfold insert_job in Hins. destruct (_ || _) eqn:Ho; [done|]. destruct (monitors d !! _) as [mr|] eqn:Hm; [|done].
  injection Hins as <- <-. set (row := due_job m now exp clk (newID "publish" (rnd (length jobs)))) in *.
  assert (check_jobs d !! j_id row = None) as Hfree.
  { apply orb_false_iff in Ho as [Ho _]. by destruct (check_jobs d !! j_id row). }
  destruct Hb as [Hnd Hall]. rewrite Forall_forall in Hall.
  eapply IH in H; [destruct H as [H ->]; split; [done|rewrite length_app; cbn; lia]|].
  split.
  - rewrite fmap_app, NoDup_app. split; [done|]. split; [|apply NoDup_singleton].
    intros x (r & -> & Hr)%list_elem_of_fmap Hx. apply list_elem_of_singleton in Hx.
    destruct (Hall _ Hr) as [Hst _]. change (j_id r = j_id row) in Hx. by rewrite Hx, Hfree in Hst.
  - apply Forall_app. split.
    + apply Forall_forall. intros r Hr. destruct (Hall _ Hr) as (Hst & Hrest). split; [|done]. cbn.
      rewrite lookup_insert_ne; [done|]. intros Heq. change (j_id row = j_id r) in Heq.
      by rewrite <- Heq, Hfree in Hst.
    + apply Forall_singleton. split; [cbn; by rewrite lookup_insert_eq|].
      split; [done|]. split; [cbn; lia|]. split; [cbn; lia|]. split; [done|]. split; [|by exists mr].
      eexists. split; [done|]. apply newID_nonempty.
Qed.

Lemma default_attempts_pos ma : 0 < claim_attempts ma.
Proof. unfold claim_attempts, defaultMaxJobAttempts. destruct (Z.leb_spec ma 0); lia. Qed.

(** A successful [ClaimDueJobs] returns at most [limit] jobs, all
    different, each as it is stored: scheduled, available, with attempts left, a
    publication lease that runs for the given time from the server's clock, a
    publication token, and a monitor. *)
Lemma pg_ClaimDueJobs_sound limit leaseTimeout maxAttempts clk rnd0 rnd n d n' d' jobs :
  tables_wf (others n d) → pg_ClaimDueJobs limit leaseTimeout maxAttempts clk rnd0 rnd n d = (n', d', Ok jobs) →
  Z.of_nat (length jobs) <= Z.max limit 0 ∧ NoDup (job_ID <$> jobs)
  ∧ (jobs = [] ∨ ∃ now, server_clock (S n) now ∧ ∀ job, job ∈ jobs → ∃ row, job = scanCheckJob row
      ∧ handed_out (claim_attempts maxAttempts) now (timestamptz (AddDur now (claim_lease leaseTimeout))) d' row).
Proof.
  intros Hd H. unfold pg_ClaimDueJobs in H. destruct (Z.leb_spec limit 0) as [Hl|Hl].
  { injection H as <- <- <-. split; [cbn; lia|]. split; [constructor|]. by left. }
  change (if maxAttempts <=? 0 then _ else _) with (claim_attempts maxAttempts) in H.
  change (if leaseTimeout <=? 0 then _ else _) with (claim_lease leaseTimeout) in H. cbv zeta in H.
  set (ma := claim_attempts maxAttempts) in *.
  apply transaction_Ok in H as (nc & H & _). session_Ok H. apply databaseTime_Ok in Hp as (-> & _ & Hclock).
  set (now := a) in *. clearbody now. set (exp := timestamptz (AddDur now (claim_lease leaseTimeout))) in *.
  session_Ok H. apply exec_Ok in Hp as (us1 & lk1 & _ & Hk & ->). injection Hk as <- <-.
  session_Ok H. apply exec_Ok in Hp as (us2 & lk2 & _ & Hk & ->). injection Hk as <- <-.
  session_Ok H. apply exec_Ok in Hp as (us3 & lk3 & _ & Hc & ->).
  assert (tables_wf (fail_expired ma now (kill_exhausted ma now (others n d)))) as Hd1
    by (by apply fail_expired_wf, kill_exhausted_wf).
  match type of Hc with _ = (_, Ok ?l) => rename l into claimed end.
  apply claim_rows_Ok in Hc as [Hb Hlen]; [|done|lia|apply newID_nonempty].
  session_Ok H. injection H as <- <- <-. match type of Hp with _ = (_, ?dl, Ok ?l) => rename l into rows; set (dt := dl) in * end.
  assert (batch_ok ma now exp dt rows ∧ Z.of_nat (length rows) <= limit) as [[Hnd Hall] Hlen'].
  { destruct (Z.ltb_spec 0 (limit - Z.of_nat (length claimed))) as [Hr|Hr].
    - session_Ok Hp. apply exec_Ok in Hp0 as (us4 & lk4 & _ & Hdue & ->). injection Hdue as <- <-.
      apply (insert_due_jobs_Ok _ _ _ _ _ ma) in Hp as [Hb' ->]; [|apply default_attempts_pos|done].
      split; [done|]. match goal with |- context [order_limit ?c ?o ?l ?rs] =>
        pose proof (length_order_limit c o l rs ltac:(lia)) end. lia.
    - injection Hp as <- <- <-. done. }
  split; [rewrite length_fmap; lia|]. split.
  - rewrite <- list_fmap_compose. exact Hnd.
  - right. exists now. split; [done|]. intros job (row & -> & Hrow)%list_elem_of_fmap. exists row. split; [done|].
    rewrite Forall_forall in Hall. by apply Hall.
Qed.
End spec.

Lemma pg_AddCheck_effect_witness :
  let run := pg_AddCheck (sample_record false) sample_lease sample_alerts (sample_rnd 4) (sample_rnd 5)
               (sample_at 4) (pg_sample 4) in
  ∃ m t, run.2 = Ok m ∧ server_clock (3 + sample_at 4) t
    ∧ check_results run.1.2 = <["chk_1" := stored_result (sample_record false) t]> (check_results (pg_sample 4))
    ∧ incident_effect (sample_record false) m sample_alerts t (sample_rnd 4) (sample_rnd 5) (pg_sample 4) run.1.2.
Proof.
  cbv zeta. match goal with |- context [pg_AddCheck ?a ?b ?c ?d ?e ?n ?t] =>
    destruct (returned_Ok (pg_AddCheck a b c d e n t)) as [m Hm]; [vm_compute; reflexivity|] end.
  destruct (pg_AddCheck_effect _ _ _ _ _ _ _ _ _ _ (pg_sample_wf' _ 4) Hm)
    as (row & job & t & t' & _ & _ & Hc & _ & _ & _ & _ & _ & _ & _ & _ & Hr & Hi).
  exists m, t. split; [by rewrite Hm|]. split; [exact Hc|]. split; [exact Hr|exact Hi].
Defined.

Lemma pg_ClaimDueJobs_sound_witness :
  let run := pg_ClaimDueJobs 5 Minute 3 sample_now (sample_rnd 2) (λ _, sample_rnd 2) (sample_at 1) (pg_sample 1) in
  ∃ jobs, run.2 = Ok jobs ∧ length jobs = 1%nat ∧ Z.of_nat (length jobs) <= 5 ∧ NoDup (job_ID <$> jobs).
Proof.
  cbv zeta. match goal with |- context [pg_ClaimDueJobs ?a ?b ?c ?d ?e ?f ?n ?t] =>
    destruct (returned_Ok (pg_ClaimDueJobs a b c d e f n t)) as [jobs Hm]; [vm_compute; reflexivity|] end.
  destruct (pg_ClaimDueJobs_sound _ _ _ _ _ _ _ _ _ _ _ (pg_sample_wf' _ 1) Hm) as (Hl & Hn & _).
  exists jobs. split; [by rewrite Hm|]. split; [|by split].
  apply (f_equal (λ x, match x.2 with Ok l => length l | Err _ => 0%nat end)) in Hm. cbn [snd] in Hm. rewrite <- Hm. vm_compute. reflexivity.
Defined.
