(* ===== verification/PgOutboxSpec.v ===== *)
(** * What the outbox and retention promise

    An alert is leased to one dispatcher at a time and only the holder of the
    lease records an outcome; retention deletes, in bounded batches, only rows
    that are final and have expired. *)

From stdpp Require Import base list gmap strings.
From Stdlib Require Import ZArith Lia Ascii.
From S2P Require Import Prelude GoNum GoStrings NetworkPolicy Egress Domain Checker Config History Store Sample Alert Sql PgSchema Postgres PgOutbox PgInv PgSample PgLife PgSpec.
#[local] Open Scope string_scope.
#[local] Open Scope list_scope.
#[local] Open Scope Z_scope.
#[local] Open Scope sql_scope.

Section outbox.
Context `{MR : !MapRange, SV : !Server Tables, CO : !Collation}.

(** ** Claiming alerts *)

(** An alert leased to the dispatcher that holds [token]. *)
Definition leased_alert (maxAttempts : Z) (until : Time) (token : string) (d : Tables) (r : alert_row) : Prop :=
  alert_outbox d !! a_id r = Some r ∧ a_status r = alertProcessing ∧ a_lease_token r = Some token
  ∧ a_locked_until r = Some until ∧ a_attempt_count r <= maxAttempts.

(** It was waiting, or its last lease had expired, and it had attempts left. *)
Definition was_claimable (maxAttempts : Z) (now : Time) (d : Tables) (r : alert_row) : Prop :=
  ∃ old, alert_outbox d !! a_id r = Some old ∧ a_attempt_count r = a_attempt_count old + 1
    ∧ a_attempt_count old < maxAttempts ∧ a_payload r = a_payload old ∧ a_idempotency_key r = a_idempotency_key old
    ∧ (a_status old = alertPending ∧ a_available_at old <= now
       ∨ a_status old = alertProcessing ∧ ∃ u, a_locked_until old = Some u ∧ u <= now).

Definition alert_attempts (maxAttempts : Z) : Z := if maxAttempts <=? 0 then defaultAlertMaxAttempts else maxAttempts.
Definition alert_lease (leaseTimeout : Z) : Z := if leaseTimeout <=? 0 then defaultAlertLeaseTimeout else leaseTimeout.

Lemma claim_alerts_Ok limit now until token ma t lk d d' rows :
  tables_wf d → 0 <= limit → claim_alerts limit now until token ma t lk d = (d', Ok rows) →
  Z.of_nat (length rows) <= limit ∧ NoDup (a_id <$> rows)
  ∧ Forall (λ r, leased_alert ma until token d' r ∧ was_claimable ma now d r) rows.
Proof.
  intros Hd Hl Hc. injection Hc as <- <-.
  destruct (claimed_rows a_id compare_alert_rows limit (λ r, alert_claimable ma now r && unlocked a_id lk r)
    (claimed_alert now until token) (alert_outbox d) (tw_alerts _ Hd) (λ _, eq_refl) Hl) as (Hlen & Hnd & Hrows).
  split; [done|]. split; [done|]. apply Forall_forall. intros r' Hr'.
  destruct (Hrows _ Hr') as (Hst & r & Hr & Hp & ->). apply andb_true_iff in Hp as [Hp _].
  unfold alert_claimable in Hp. apply andb_true_iff in Hp as [Hat Hp]. split.
  - repeat (split; [done|]). cbn. lia.
  - exists r. split; [done|]. split; [done|]. split; [lia|]. split; [done|]. split; [done|].
    apply orb_true_iff in Hp as [Hp|Hp]; apply andb_true_iff in Hp as [Hs Hp];
      apply bool_decide_eq_true in Hs; [left; split; [done|lia]|right].
    split; [done|]. destruct (a_locked_until r) as [u|]; [|done]. exists u. split; [done|]. cbn in Hp. lia.
Qed.

Lemma kill_alerts_lookup ma now (t : gmap string alert_row) id old :
  update_rows (alert_exhausted ma now) (dead_alert now) t !! id = Some old →
  a_status old = alertPending ∨ a_status old = alertProcessing → t !! id = Some old.
Proof.
  intros (r & Hr & ->)%lookup_update_rows_Some Hs. destruct (alert_exhausted ma now r); [|done].
  cbn in Hs. by destruct Hs.
Qed.

(** C29: A successful [ClaimAlerts] leases at most [limit] alerts, all
    different, under the one token it drew and until the lease's end: each was
    waiting and due, or its previous lease had expired, it had attempts left and
    has used one more; no alert is handed to two holders of running leases. *)
Theorem pg_ClaimAlerts_leases limit leaseTimeout maxAttempts rnd n d n' d' events :
  tables_wf (others n d) → pg_ClaimAlerts limit leaseTimeout maxAttempts rnd n d = (n', d', Ok events) →
  Z.of_nat (length events) <= Z.max limit 0 ∧ NoDup (ev_ID <$> events)
  ∧ (events = [] ∨ ∃ now, server_clock (S n) now ∧ ∀ event, event ∈ events → ∃ row, event = scanAlert row ∧ ev_LeaseToken event = newID "lease" rnd
      ∧ leased_alert (alert_attempts maxAttempts) (timestamptz (AddDur now (alert_lease leaseTimeout)))
          (newID "lease" rnd) d' row
      ∧ was_claimable (alert_attempts maxAttempts) now (others n d) row).
Proof.
  intros Hd H. unfold pg_ClaimAlerts in H. destruct (Z.leb_spec limit 0) as [Hl|Hl].
  { injection H as <- <- <-. split; [cbn; lia|]. split; [constructor|]. by left. }
  change (if maxAttempts <=? 0 then _ else _) with (alert_attempts maxAttempts) in H.
  change (if leaseTimeout <=? 0 then _ else _) with (alert_lease leaseTimeout) in H. cbv zeta in H.
  set (ma := alert_attempts maxAttempts) in *.
  apply transaction_Ok in H as (nc & H & _). session_Ok H. apply databaseTime_Ok in Hp as (-> & _ & Hclock).
  set (now := a) in *. clearbody now. set (until := timestamptz (AddDur now (alert_lease leaseTimeout))) in *.
  session_Ok H. apply exec_Ok in Hp as (us1 & lk1 & _ & Hk & ->). injection Hk as <- <-.
  session_Ok H. apply exec_Ok in Hp as (us2 & lk2 & _ & Hc & ->). injection H as <- <- <-.
  match type of Hc with _ = (_, Ok ?l) => rename l into rows end.
  apply claim_alerts_Ok in Hc as (Hlen & Hnd & Hall); [| |lia].
  2:{ apply alerts_update_wf; try done. intros r Hr%alert_check_count _. unfold alert_check. cbn. by rewrite Hr. }
  split; [rewrite length_fmap; lia|]. split.
  { rewrite <- list_fmap_compose. exact Hnd. }
  right. exists now. split; [done|]. intros event (row & -> & Hrow)%list_elem_of_fmap. rewrite Forall_forall in Hall.
  destruct (Hall _ Hrow) as [Hleased Hwas]. exists row. split; [done|].
  split; [destruct Hleased as (_ & _ & Htok & _); cbn; by rewrite Htok|]. split; [done|].
  destruct Hwas as (old & Hold & H1 & H2 & H3 & H4 & H5). exists old. split; [|done].
  eapply kill_alerts_lookup; [exact Hold|]. destruct H5 as [[? _]|[? _]]; auto.
Qed.

(** ** Recording an outcome *)

Lemma alert_owned_spec id token r :
  alert_owned id token r = true ↔ a_id r = id ∧ a_status r = alertProcessing ∧ a_lease_token r = Some token.
Proof.
  unfold alert_owned, alert_is, col_is. rewrite !andb_true_iff, String.eqb_eq, bool_decide_eq_true.
  destruct (a_lease_token r) as [tok|]; [rewrite String.eqb_eq|]; naive_solver.
Qed.

Lemma update_owned id token f now lk d :
  tables_wf d →
  update_alerts (alert_owned id token) f now lk d =
    match alert_outbox d !! id with
    | Some r => if alert_is alertProcessing r && col_is (a_lease_token r) token
                then (d <| alert_outbox := <[id := f now r]> (alert_outbox d) |>, Ok 1) else (d, Ok 0)
    | None => (d, Ok 0)
    end.
Proof.
  intros Hd. unfold update_alerts, alert_owned. rewrite (count_key a_id) by apply Hd.
  assert (d <| alert_outbox := alert_outbox d |> = d) as Hsame by (by destruct d).
  destruct (alert_outbox d !! id) as [r|] eqn:Hr.
  - rewrite (update_key a_id _ _ _ _ r (tw_alerts _ Hd) Hr). destruct (_ && _); [done|]. by rewrite Hsame.
  - rewrite (update_key_absent a_id _ _ _ _ (tw_alerts _ Hd) Hr). by rewrite Hsame.
Qed.

(** The methods that record an outcome, and the row they write. *)
Inductive Outcome := Delivered | FailedDelivery (lastError : string) (retryDelay : Z) (dead : bool).
Definition record_outcome (id token : string) (o : Outcome) : Sql.proc (DB:=Tables) unit :=
  match o with
  | Delivered => pg_MarkAlertDelivered id token
  | FailedDelivery e delay dead => pg_MarkAlertFailed id token e delay dead
  end.
Definition outcome_row (o : Outcome) (now : Time) (r : alert_row) : alert_row :=
  match o with
  | Delivered => delivered_alert now r
  | FailedDelivery e delay dead =>
      failed_alert (if dead then alertDead else alertPending) (Z.max delay 0) (truncateAlertError e) now r
  end.

(** Only the dispatcher that holds an alert's lease records an outcome:
    when the call succeeds the alert was leased under the given token, and that
    row alone changes, losing its lease; with any other token the call reports a
    stale lease and changes nothing. *)
Lemma pg_outcome_fenced id token o n d n' d' r :
  tables_wf (others n d) → record_outcome id token o n d = (n', d', r) →
  let d0 := others n d in
  (r = Ok tt → ∃ row now, alert_outbox d0 !! id = Some row ∧ a_status row = alertProcessing
     ∧ a_lease_token row = Some token
     ∧ d' = d0 <| alert_outbox := <[id := outcome_row o now row]> (alert_outbox d0) |>)
  ∧ (r = Err ErrStaleAlertLease → (∀ us lk, answer n = Answered us lk → d' = d0
       ∧ ∀ row, alert_outbox d0 !! id = Some row → a_status row = alertProcessing → a_lease_token row ≠ Some token)).
Proof.
  intros Hd H d0.
  assert (∃ ps, bind (query ps (update_alerts (alert_owned id token) (outcome_row o)))
            (λ affected, if affected =? 0 then fail ErrStaleAlertLease else ret tt) n d = (n', d', r)) as (ps & Hrun).
  { destruct o as [|e delay dead]; [by exists [text id; text token]|].
    by exists [text id; text token; text (truncateAlertError e)]. }
  clear H. unfold bind, query, exec in Hrun. fold d0 in Hrun.
  destruct (negb _); [injection Hrun as <- <- <-; split; [done|]; intros Herr; done|].
  destruct (answer n) as [us lk|e|us lk e] eqn:Ha.
  - unfold apply_stmt in Hrun. rewrite update_owned in Hrun by done.
    destruct (alert_outbox d0 !! id) as [row|] eqn:Hrow.
    + destruct (alert_is alertProcessing row && col_is (a_lease_token row) token) eqn:Ho; cbn in Hrun;
        injection Hrun as <- <- <-; (split; [intros Hr; try discriminate Hr|intros Hr; try discriminate Hr]).
      * apply andb_true_iff in Ho as [Hs%bool_decide_eq_true Ht]. exists row, (Microsecond * us).
        split; [done|]. split; [done|]. split; [|done].
        destruct (a_lease_token row) as [tok|]; [|done]. cbn in Ht. apply String.eqb_eq in Ht. by subst.
      * intros _ _ _. split; [done|]. intros row' [= <-] Hs Ht.
        rewrite Ht in Ho. unfold alert_is in Ho. rewrite bool_decide_eq_true_2 in Ho by done. cbn in Ho.
        by rewrite String.eqb_refl in Ho.
    + cbn in Hrun. injection Hrun as <- <- <-. by split.
  - injection Hrun as <- <- <-. by split.
  - injection Hrun as <- <- <-. by split.
Qed.

(** The error text kept with an alert is cut at a byte count, which may
    split a character; the server refuses such text, so the failure is never
    recorded, whatever the table holds. *)
Lemma truncated_error_rejected n d id token delay dead :
  let e := String.concat "" (repeat (bytes_str [0xE2; 0x82; 0xAC]%nat) 1366) in
  text_ok e = true ∧ pg_MarkAlertFailed id token e delay dead n d = (n, others n d, Err invalid_parameter).
Proof.
  cbv zeta. split; [vm_compute; reflexivity|].
  assert (text_ok (truncateAlertError (String.concat "" (repeat (bytes_str [0xE2; 0x82; 0xAC]%nat) 1366))) = false) as He
    by (vm_compute; reflexivity).
  generalize dependent (String.concat "" (repeat (bytes_str [0xE2; 0x82; 0xAC]%nat) 1366)). intros e He.
  unfold pg_MarkAlertFailed, bind, query, exec. cbn [forallb param_ok]. rewrite He. cbn. by rewrite !andb_false_r.
Qed.

(** ** Retention *)

Lemma delete_ids_kept {R} (id : R → string) (cmp : R → R → Z) (p : R → bool) batch lk (t : gmap string R) k r :
  keyed id t → t !! k = Some r →
  delete_ids id (expired_ids id cmp p batch lk t) t !! k = Some r
  ∨ delete_ids id (expired_ids id cmp p batch lk t) t !! k = None ∧ p r = true.
Proof.
  intros Ht Hk. unfold delete_ids.
  destruct (bool_decide (id r ∈ expired_ids id cmp p batch lk t)) eqn:He.
  - right. split.
    + destruct (delete_rows _ t !! k) as [r'|] eqn:Hr; [|done].
      apply lookup_delete_rows_Some in Hr as [Hr Hn]. rewrite Hk in Hr. injection Hr as <-. cbn in Hn. by rewrite He in Hn.
    + apply bool_decide_eq_true, (chosen_selected id _ _ _ _ _ _ _ Ht Hk), andb_true_iff in He. apply He.
  - left. apply lookup_delete_rows_Some. done.
Qed.

Lemma delete_ids_expired {R} (id : R → string) (cmp : R → R → Z) (p : R → bool) batch lk (t : gmap string R) k r (P : Prop) :
  keyed id t → t !! k = Some r → (p r = true → P) →
  delete_ids id (expired_ids id cmp p batch lk t) t !! k = Some r
  ∨ delete_ids id (expired_ids id cmp p batch lk t) t !! k = None ∧ P.
Proof. intros Ht Hk HP. destruct (delete_ids_kept id cmp p batch lk t k r Ht Hk) as [?|[? ?]]; auto. Qed.

Lemma length_expired_ids {R} (id : R → string) (cmp : R → R → Z) (p : R → bool) batch lk (t : gmap string R) :
  0 <= batch → Z.of_nat (length (expired_ids id cmp p batch lk t)) <= batch.
Proof. intros Hb. unfold expired_ids. rewrite length_fmap. by apply length_order_limit. Qed.

(** C30: A successful retention pass deletes at most a batch from each table,
    and of a row it deletes: a result was recorded before its cutoff; a job or an
    alert is final and was last changed before its cutoff; an incident was
    resolved before its cutoff.  Everything else stays, monitors included. *)
Theorem pg_retention_bounded policy n d n' d' result :
  tables_wf (others n d) → pg_DeleteExpiredData policy n d = (n', d', Ok result) →
  let d0 := others n d in
  let gone {R} (t t' : gmap string R) (expired : R → Prop) :=
    ∀ k r, t !! k = Some r → t' !! k = Some r ∨ t' !! k = None ∧ expired r in
  (del_CheckResults result <= BatchSize policy ∧ del_CheckJobs result <= BatchSize policy
   ∧ del_AlertOutbox result <= BatchSize policy ∧ del_ResolvedIncidents result <= BatchSize policy)
  ∧ monitors d' = monitors d0
  ∧ ∃ now, server_clock (S n) now
      ∧ gone (check_results d0) (check_results d') (λ r, c_recorded_at r < retention_cutoff now (CheckResults policy))
      ∧ gone (check_jobs d0) (check_jobs d') (λ r, job_active r = false
               ∧ j_updated_at r < retention_cutoff now (CheckJobs policy))
      ∧ gone (alert_outbox d0) (alert_outbox d') (λ r, (a_status r = alertDelivered ∨ a_status r = alertDead)
               ∧ a_updated_at r < retention_cutoff now (AlertOutbox policy))
      ∧ gone (incidents d0) (incidents d') (λ r, i_status r = incidentStatusResolved
               ∧ ∃ t, i_resolved_at r = Some t ∧ t < retention_cutoff now (ResolvedIncident policy)).
Proof.
  intros Hd H d0 gone. unfold pg_DeleteExpiredData in H. destruct (Z.ltb_spec (BatchSize policy) 1) as [|Hb]; [done|].
  destruct (_ || _); [done|]. apply transaction_Ok in H as (nc & H & _). fold d0 in H, Hd.
  session_Ok H. apply databaseTime_Ok in Hp as (-> & _ & Hclock). set (now := a) in *. clearbody now.
  session_Ok H. apply exec_Ok in Hp as (us1 & lk1 & _ & Hc & ->). injection Hc as <- <-.
  session_Ok H. apply exec_Ok in Hp as (us2 & lk2 & _ & Hc & ->). injection Hc as <- <-.
  session_Ok H. apply exec_Ok in Hp as (us3 & lk3 & _ & Hc & ->).
  pose proof (delete_alerts_safe _ _ _ _ _ _ _ (jobs_delete_wf _ (results_delete_wf _ Hd _) _) Hc) as Hd3.
  injection Hc as <- <-.
  session_Ok H. apply exec_Ok in Hp as (us4 & lk4 & _ & Hc & ->).
  pose proof (delete_incidents_alerts _ _ _ _ _ _ _ Hd3 Hc) as Halerts.
  injection Hc as <- <-. injection H as <- <- <-. cbn in Halerts. cbn. rewrite Halerts.
  split; [repeat split; apply length_expired_ids; lia|]. split; [done|]. exists now. split; [done|]. unfold gone.
  split; [|split; [|split]]; intros k r Hk.
  - eapply delete_ids_expired; [apply Hd|exact Hk|]. unfold expired_result. lia.
  - eapply delete_ids_expired; [apply Hd|exact Hk|]. unfold expired_job.
    intros [Ha%negb_true_iff Hlt]%andb_true_iff. split; [done|lia].
  - eapply delete_ids_expired; [apply Hd|exact Hk|]. unfold expired_alert.
    rewrite andb_true_iff, orb_true_iff, !alert_is_spec. intros [Hs Hlt]. split; [done|lia].
  - eapply delete_ids_expired; [apply Hd|exact Hk|]. unfold expired_incident, incident_open.
    intros [[Ho%negb_true_iff%bool_decide_eq_false Hr]%andb_true_iff _]%andb_true_iff.
    destruct (i_resolved_at r) as [t|]; [|done]. split; [|exists t; split; [done|lia]].
    by destruct (i_status r).
Qed.
End outbox.

Definition sample_events := pg_ClaimAlerts 5 Minute 3 (sample_rnd 6) (sample_at 5) (pg_sample 5).

Lemma pg_ClaimAlerts_leases_witness :
  ∃ events, sample_events.2 = Ok events ∧ length events = 1%nat ∧ NoDup (ev_ID <$> events).
Proof.
  destruct (returned_Ok sample_events) as [events Hm]; [vm_compute; reflexivity|].
  destruct (pg_ClaimAlerts_leases _ _ _ _ _ _ _ _ _ (pg_sample_wf' _ 5) Hm) as (_ & Hn & _).
  exists events. split; [by rewrite Hm|]. split; [|exact Hn].
  apply (f_equal (λ x, match x.2 with Ok l => length l | Err _ => 0%nat end)) in Hm. cbn [snd] in Hm. rewrite <- Hm. vm_compute. reflexivity.
Defined.

(** The holder of the lease, and somebody else. *)
Lemma pg_outcome_fenced_witness :
  let id := newID "alert" (sample_rnd 5) in
  let run token := record_outcome id token Delivered (sample_at 6) (pg_sample 6) in
  (run (newID "lease" (sample_rnd 6))).2 = Ok tt
  ∧ (∃ row now, (run (newID "lease" (sample_rnd 6))).1.2
                = (pg_sample 6) <| alert_outbox := <[id := delivered_alert now row]> (alert_outbox (pg_sample 6)) |>)
  ∧ (run "lease_other").2 = Err ErrStaleAlertLease ∧ (run "lease_other").1.2 = pg_sample 6.
Proof.
  cbv zeta. assert ((record_outcome (newID "alert" (sample_rnd 5)) (newID "lease" (sample_rnd 6)) Delivered
    (sample_at 6) (pg_sample 6)).2 = Ok tt) as H1 by (vm_compute; reflexivity).
  assert ((record_outcome (newID "alert" (sample_rnd 5)) "lease_other" Delivered (sample_at 6) (pg_sample 6)).2
    = Err ErrStaleAlertLease) as H2 by (vm_compute; reflexivity).
  split; [exact H1|]. split; [|split; [exact H2|]].
  - destruct (record_outcome (newID "alert" (sample_rnd 5)) (newID "lease" (sample_rnd 6)) Delivered _ _)
      as [[n' d'] r] eqn:Hr.
    destruct (pg_outcome_fenced _ _ _ _ _ _ _ _ (pg_sample_wf' _ 6) Hr) as [Hok _].
    destruct (Hok H1) as (row & now & _ & _ & _ & Hd). by exists row, now.
  - destruct (record_outcome (newID "alert" (sample_rnd 5)) "lease_other" Delivered _ _) as [[n' d'] r] eqn:Hr.
    destruct (pg_outcome_fenced _ _ _ _ _ _ _ _ (pg_sample_wf' _ 6) Hr) as [_ Herr].
    destruct (Herr H2 _ _ eq_refl) as [Hd _]. exact Hd.
Defined.

Definition sample_policy : RetentionPolicy :=
  {| CheckResults := Microsecond; CheckJobs := Microsecond; AlertOutbox := Microsecond; ResolvedIncident := Microsecond;
     BatchSize := 10 |}.

(** The result and the completed job go; the monitor stays. *)
Lemma pg_retention_bounded_witness :
  let run := pg_DeleteExpiredData sample_policy (sample_at 6) (pg_sample 6) in
  run.2 = Ok (mkRetentionResult 1 1 0 0) ∧ monitors run.1.2 = monitors (pg_sample 6).
Proof.
  cbv zeta. assert ((pg_DeleteExpiredData sample_policy (sample_at 6) (pg_sample 6)).2 = Ok (mkRetentionResult 1 1 0 0)) as Hr
    by (vm_compute; reflexivity).
  split; [exact Hr|]. destruct (pg_DeleteExpiredData sample_policy (sample_at 6) (pg_sample 6)) as [[n' d'] r] eqn:Hrun.
  cbn in Hr. subst r. by destruct (pg_retention_bounded _ _ _ _ _ _ (pg_sample_wf' _ 6) Hrun) as (_ & Hm & _).
Defined.
