(* ===== verification/Queue.v ===== *)
(** * The in-memory job queue (queue.go)

    [InMemoryQueue] is a bounded channel of messages with a set of the job
    identifiers that are published and not yet settled.  Publishing and
    settling take the mutex several times, so beside the sequential operations
    the file has the interleaving of their critical sections ([qstep]). *)

From stdpp Require Import base list gmap strings relations.
From Stdlib Require Import ZArith Lia Ascii.
From S2P Require Import Prelude GoNum GoStrings NetworkPolicy Egress Domain.
#[local] Open Scope string_scope.
#[local] Open Scope list_scope.
#[local] Open Scope Z_scope.

Record CheckJobMessage := mkMessage {
  msg_JobID : string; msg_MonitorID : string; msg_Attempt : Z; msg_EnqueuedAt : Time;
}.
#[export] Instance eta_CheckJobMessage : Eta CheckJobMessage := λ r,
  mkMessage (msg_JobID r) (msg_MonitorID r) (msg_Attempt r) (msg_EnqueuedAt r).

Record InMemoryQueue := mkQueue {
  jobs : list CheckJobMessage; deadLetters : list CheckJobMessage; bufferSize : nat; maxAttempts : Z;
  seen : gset string; closed : bool;
}.
#[export] Instance eta_InMemoryQueue : Eta InMemoryQueue := λ q,
  mkQueue (jobs q) (deadLetters q) (bufferSize q) (maxAttempts q) (seen q) (closed q).

Definition NewInMemoryQueue (bufferSize : nat) (maxAttempts : Z) : InMemoryQueue :=
  mkQueue [] [] bufferSize maxAttempts ∅ false.

(** ** Critical sections *)

(** The defaults [Publish] fills in. *)
Definition normalized (job : CheckJobMessage) (clk : Time) : CheckJobMessage :=
  let job := if String.eqb (msg_JobID job) ""
             then job <| msg_JobID := NewCheckJobID (msg_MonitorID job) (msg_EnqueuedAt job) clk |> else job in
  if msg_Attempt job =? 0 then job <| msg_Attempt := 1 |> else job.

Inductive reservation := ReserveClosed | ReserveDuplicate | Reserved (q : InMemoryQueue).
Definition reserve (q : InMemoryQueue) (job : CheckJobMessage) : reservation :=
  if closed q then ReserveClosed
  else if decide (msg_JobID job ∈ seen q) then ReserveDuplicate
  else Reserved (q <| seen := {[msg_JobID job]} ∪ seen q |>).

(** The [select] of [enqueue]: [cancelled] is the context's error when its
    [Done] case is taken (possible only when the context is done). *)
Definition enqueue (q : InMemoryQueue) (job : CheckJobMessage) (cancelled : option GoError)
  : InMemoryQueue * option GoError :=
  if closed q then (q, Some ErrCanceled)
  else match cancelled with
  | Some err => (q, Some err)
  | None =>
      if (length (jobs q) <? bufferSize q)%nat
      then (q <| jobs := jobs q ++ [job] |>, None) else (q, Some ErrQueueFull)
  end.

Definition forget (q : InMemoryQueue) (jobID : string) : InMemoryQueue := q <| seen := seen q ∖ {[jobID]} |>.

(** The non-blocking send to the dead-letter channel. *)
Definition dead_letter (q : InMemoryQueue) (job : CheckJobMessage) : InMemoryQueue :=
  if (length (deadLetters q) <? bufferSize q)%nat then q <| deadLetters := deadLetters q ++ [job] |> else q.

(** ** The operations, run without interruption *)

Definition Publish (q : InMemoryQueue) (job : CheckJobMessage) (cancelled : option GoError) (clk : Time)
  : InMemoryQueue * option GoError :=
  let job := normalized job clk in
  match reserve q job with
  | ReserveClosed => (q, Some ErrCanceled)
  | ReserveDuplicate => (q, None)
  | Reserved q =>
      match enqueue q job cancelled with
      | (q, None) => (q, None)
      | (q, Some err) => (forget q (msg_JobID job), Some err)
      end
  end.

Definition receive (q : InMemoryQueue) : option (CheckJobMessage * InMemoryQueue) :=
  match jobs q with
  | job :: rest => Some (job, q <| jobs := rest |>)
  | [] => None
  end.

Definition Retryable (q : InMemoryQueue) (job : CheckJobMessage) : bool := msg_Attempt job <? maxAttempts q.

Definition Ack (q : InMemoryQueue) (job : CheckJobMessage) : InMemoryQueue * option GoError :=
  (forget q (msg_JobID job), None).

Definition Nack (q : InMemoryQueue) (job : CheckJobMessage) (requeue : bool) (cancelled : option GoError)
  : InMemoryQueue * option GoError :=
  if requeue && (msg_Attempt job <? maxAttempts q) then
    let next := job <| msg_Attempt := wrap64 (msg_Attempt job + 1) |> in
    match enqueue q next cancelled with
    | (q, None) => (q, None)
    | (q, Some err) => (forget q (msg_JobID job), Some err)
    end
  else (forget (dead_letter q job) (msg_JobID job), None).

Definition Requeue (q : InMemoryQueue) (job : CheckJobMessage) (cancelled : option GoError)
  : InMemoryQueue * option GoError :=
  match enqueue q job cancelled with
  | (q, None) => (q, None)
  | (q, Some err) => (forget q (msg_JobID job), Some err)
  end.

Definition Close (q : InMemoryQueue) : InMemoryQueue := q <| closed := true |>.

(** ** Interleaving

    Between its critical sections a call holds its message: after the
    reservation of [Publish], when an [enqueue] failed and the identifier is
    about to be forgotten, from the delivery to its settlement, and for ever
    when the consumer stopped before handing the delivery over. *)
Inductive stage := Publishing | Releasing | InFlight | Dropped.

Record QState := mkQState { queue : InMemoryQueue; held : list (stage * CheckJobMessage) }.

Inductive qstep : QState → QState → Prop :=
| q_reserve q q' h job clk :
    reserve q (normalized job clk) = Reserved q' →
    qstep (mkQState q h) (mkQState q' ((Publishing, normalized job clk) :: h))
| q_enqueue q q' h h' job c :
    h ≡ₚ (Publishing, job) :: h' → enqueue q job c = (q', None) →
    qstep (mkQState q h) (mkQState q' h')
| q_enqueue_failed q q' h h' job c e :
    h ≡ₚ (Publishing, job) :: h' → enqueue q job c = (q', Some e) →
    qstep (mkQState q h) (mkQState q' ((Releasing, job) :: h'))
| q_release q h h' job :
    h ≡ₚ (Releasing, job) :: h' → qstep (mkQState q h) (mkQState (forget q (msg_JobID job)) h')
| q_receive q q' h job :
    receive q = Some (job, q') → qstep (mkQState q h) (mkQState q' ((InFlight, job) :: h))
| q_drop q h h' job :
    h ≡ₚ (InFlight, job) :: h' → qstep (mkQState q h) (mkQState q ((Dropped, job) :: h'))
| q_ack q h h' job :
    h ≡ₚ (InFlight, job) :: h' → qstep (mkQState q h) (mkQState (forget q (msg_JobID job)) h')
| q_nack_retry q q' h h' job c :
    h ≡ₚ (InFlight, job) :: h' → msg_Attempt job < maxAttempts q →
    enqueue q (job <| msg_Attempt := wrap64 (msg_Attempt job + 1) |>) c = (q', None) →
    qstep (mkQState q h) (mkQState q' h')
| q_nack_retry_failed q q' h h' job c e :
    h ≡ₚ (InFlight, job) :: h' → msg_Attempt job < maxAttempts q →
    enqueue q (job <| msg_Attempt := wrap64 (msg_Attempt job + 1) |>) c = (q', Some e) →
    qstep (mkQState q h) (mkQState q' ((Releasing, job) :: h'))
| q_nack_dead q h h' job :
    h ≡ₚ (InFlight, job) :: h' →
    qstep (mkQState q h) (mkQState (dead_letter q job) ((Releasing, job) :: h'))
| q_requeue q q' h h' job c :
    h ≡ₚ (InFlight, job) :: h' → enqueue q job c = (q', None) → qstep (mkQState q h) (mkQState q' h')
| q_requeue_failed q q' h h' job c e :
    h ≡ₚ (InFlight, job) :: h' → enqueue q job c = (q', Some e) →
    qstep (mkQState q h) (mkQState q' ((Releasing, job) :: h'))
| q_close q h : qstep (mkQState q h) (mkQState (Close q) h).

Definition queued_ids (s : QState) : list string := msg_JobID <$> jobs (queue s) ++ (held s).*2.

Record queue_wf (s : QState) : Prop := {
  qw_nodup : NoDup (queued_ids s);
  qw_seen : ∀ id, id ∈ seen (queue s) ↔ id ∈ queued_ids s;
  qw_room : (length (jobs (queue s)) <= bufferSize (queue s))%nat;
}.

(** A step that only moves messages around, keeping their identifiers. *)
Lemma queue_wf_perm s s' :
  queue_wf s → queued_ids s' ≡ₚ queued_ids s → seen (queue s') = seen (queue s) →
  (length (jobs (queue s')) <= bufferSize (queue s'))%nat → queue_wf s'.
Proof.
  intros [Hnd Hseen Hroom] Hp Hs Hr. split; [by rewrite Hp| |done].
  intros id. by rewrite Hs, Hseen, Hp.
Qed.

(** A step that forgets a message that is held. *)
Lemma queue_wf_forget s q' job h' :
  queue_wf s → queued_ids s ≡ₚ msg_JobID job :: (msg_JobID <$> jobs q' ++ h'.*2) →
  seen q' = seen (queue s) → (length (jobs q') <= bufferSize q')%nat →
  queue_wf (mkQState (forget q' (msg_JobID job)) h').
Proof.
  intros [Hnd Hseen Hroom] Hp Hs Hr. rewrite Hp in Hnd. apply NoDup_cons in Hnd as [Hid Hnd].
  split; [done| |done]. intros id. cbn [queue forget seen set_field].
  change (id ∈ seen q' ∖ {[msg_JobID job]} ↔ id ∈ msg_JobID <$> jobs q' ++ h'.*2).
  rewrite elem_of_difference, elem_of_singleton, Hs, Hseen, Hp, elem_of_cons.
  split; [tauto|]. intros Hin. split; [by right|]. intros ->. done.
Qed.

Lemma enqueue_None q job c q' :
  enqueue q job c = (q', None) →
  closed q = false ∧ (length (jobs q) < bufferSize q)%nat ∧ q' = q <| jobs := jobs q ++ [job] |>.
Proof.
  unfold enqueue. destruct (closed q); [done|]. destruct c; [done|].
  destruct (Nat.ltb_spec (length (jobs q)) (bufferSize q)); [|done]. by intros [= <-].
Qed.

Lemma enqueue_Some q job c q' e : enqueue q job c = (q', Some e) → q' = q.
Proof.
  unfold enqueue. destruct (closed q); [by intros [= <-]|]. destruct c; [by intros [= <-]|].
  destruct (_ <? _)%nat; [done|by intros [= <-]].
Qed.

Lemma dead_letter_fields q job :
  jobs (dead_letter q job) = jobs q ∧ seen (dead_letter q job) = seen q ∧ bufferSize (dead_letter q job) = bufferSize q.
Proof. unfold dead_letter. by destruct (_ <? _)%nat. Qed.

Lemma ids_held_perm (q : InMemoryQueue) (h h' : list (stage * CheckJobMessage)) st job :
  h ≡ₚ (st, job) :: h' →
  msg_JobID <$> jobs q ++ h.*2 ≡ₚ msg_JobID job :: (msg_JobID <$> jobs q ++ h'.*2).
Proof.
  intros ->. cbn. rewrite !fmap_app. cbn. by rewrite Permutation_middle.
Qed.

Lemma ids_enqueued (q q' : InMemoryQueue) job' (h' : list CheckJobMessage) :
  jobs q' = jobs q ++ [job'] →
  msg_JobID <$> jobs q' ++ h' ≡ₚ msg_JobID job' :: (msg_JobID <$> jobs q ++ h').
Proof. intros ->. rewrite !fmap_app, <- app_assoc. cbn. by rewrite Permutation_middle. Qed.

Lemma qstep_wf s s' : qstep s s' → queue_wf s → queue_wf s'.
Proof.
  intros Hstep Hwf. pose proof (qw_room _ Hwf) as Hroom.
  destruct Hstep as [q q' h job clk Hr|q q' h h' job c Hh He|q q' h h' job c e Hh He|q h h' job Hh|q q' h job Hr
    |q h h' job Hh|q h h' job Hh|q q' h h' job c Hh Hlt He|q q' h h' job c e Hh Hlt He|q h h' job Hh
    |q q' h h' job c Hh He|q q' h h' job c e Hh He|q h]; cbn [queue] in Hroom.
  - unfold reserve in Hr. destruct (closed q); [done|]. destruct (decide _) as [|Hn]; [done|].
    injection Hr as <-. destruct Hwf as [Hnd Hseen _]. cbn in Hseen.
    set (j := normalized job clk) in *.
    assert (queued_ids (mkQState (q <| seen := {[msg_JobID j]} ∪ seen q |>) ((Publishing, j) :: h))
      ≡ₚ msg_JobID j :: queued_ids (mkQState q h)) as Hp.
    { unfold queued_ids. cbn. rewrite !fmap_app. cbn. by rewrite Permutation_middle. }
    split; [|intros id|done].
    + rewrite Hp. apply NoDup_cons. split; [|done]. by rewrite <- Hseen.
    + rewrite Hp, elem_of_cons. cbn. rewrite elem_of_union, elem_of_singleton, Hseen. done.
  - apply enqueue_None in He as (_ & Hlt & ->). eapply queue_wf_perm; [exact Hwf| |done|].
    + unfold queued_ids. cbn [queue held]. rewrite (ids_held_perm q h h' _ _ Hh). by apply ids_enqueued.
    + cbn. rewrite length_app. cbn. lia.
  - apply enqueue_Some in He as ->. eapply queue_wf_perm; [exact Hwf| |done|done].
    unfold queued_ids. cbn [queue held]. by rewrite Hh.
  - apply (queue_wf_forget _ q job h' Hwf); [|done|done]. unfold queued_ids. cbn [queue held].
    by apply (ids_held_perm q h h' Releasing).
  - unfold receive in Hr. destruct (jobs q) as [|j rest] eqn:Hj; [done|]. injection Hr as <- <-.
    eapply queue_wf_perm; [exact Hwf| |done|cbn in *; lia].
    unfold queued_ids. cbn [queue held]. rewrite Hj. cbn. rewrite !fmap_app. cbn. by rewrite <- Permutation_middle.
  - eapply queue_wf_perm; [exact Hwf| |done|done]. unfold queued_ids. cbn [queue held]. by rewrite Hh.
  - apply (queue_wf_forget _ q job h' Hwf); [|done|done]. unfold queued_ids. cbn [queue held].
    by apply (ids_held_perm q h h' InFlight).
  - apply enqueue_None in He as (_ & Hlt' & ->). eapply queue_wf_perm; [exact Hwf| |done|].
    + unfold queued_ids. cbn [queue held]. rewrite (ids_held_perm q h h' _ _ Hh).
      change (msg_JobID job) with (msg_JobID (job <| msg_Attempt := wrap64 (msg_Attempt job + 1) |>)).
      by apply ids_enqueued.
    + cbn. rewrite length_app. cbn. lia.
  - apply enqueue_Some in He as ->. eapply queue_wf_perm; [exact Hwf| |done|done].
    unfold queued_ids. cbn [queue held]. by rewrite Hh.
  - destruct (dead_letter_fields q job) as (Hj & Hs & Hb).
    eapply queue_wf_perm; [exact Hwf| |done|cbn; by rewrite Hj, Hb].
    unfold queued_ids. cbn [queue held]. by rewrite Hh, Hj.
  - apply enqueue_None in He as (_ & Hlt & ->). eapply queue_wf_perm; [exact Hwf| |done|].
    + unfold queued_ids. cbn [queue held]. rewrite (ids_held_perm q h h' _ _ Hh). by apply ids_enqueued.
    + cbn. rewrite length_app. cbn. lia.
  - apply enqueue_Some in He as ->. eapply queue_wf_perm; [exact Hwf| |done|done].
    unfold queued_ids. cbn [queue held]. by rewrite Hh.
  - eapply queue_wf_perm; [exact Hwf|done|done|done].
Qed.

(** ** Properties *)

Definition initial (bufferSize : nat) (maxAttempts : Z) : QState :=
  mkQState (NewInMemoryQueue bufferSize maxAttempts) [].

Lemma initial_wf n m : queue_wf (initial n m).
Proof. split; cbn; [constructor| |lia]. intros id. set_solver. Qed.

Lemma qsteps_wf s s' : rtc qstep s s' → queue_wf s → queue_wf s'.
Proof. induction 1 as [|s1 s2 s3 H12 _ IH]; [done|]. intros Hwf. by apply IH, (qstep_wf _ _ H12). Qed.

(** However publishers, consumers and settlements interleave, a job
    identifier is in the queue or in someone's hands at most once, the set of
    seen identifiers is exactly those, and the channel never exceeds its
    capacity. *)
Lemma queue_no_duplicates (bufferSize0 : nat) (maxAttempts0 : Z) (s : QState) :
  rtc qstep (initial bufferSize0 maxAttempts0) s →
  NoDup (queued_ids s) ∧ (∀ id, id ∈ seen (queue s) ↔ id ∈ queued_ids s)
  ∧ (length (jobs (queue s)) <= bufferSize (queue s))%nat.
Proof. intros Hr. destruct (qsteps_wf _ _ Hr (initial_wf _ _)). done. Qed.

Definition sample_message (attempt : Z) : CheckJobMessage := mkMessage "job_1" "mon_1" attempt 5.

Lemma queue_no_duplicates_witness :
  let s := mkQState ((NewInMemoryQueue 2 3) <| seen := {["job_1"]} |>) [(Publishing, sample_message 1)] in
  rtc qstep (initial 2 3) s ∧ NoDup (queued_ids s).
Proof.
  intros s. assert (rtc qstep (initial 2 3) s) as Hr.
  { eapply rtc_l; [|apply rtc_refl]. apply (q_reserve _ _ [] (sample_message 1) 0). vm_compute. reflexivity. }
  split; [exact Hr|]. exact (proj1 (queue_no_duplicates 2 3 s Hr)).
Defined.

(** What an uninterrupted [Publish] answers: a closed queue cancels, a message
    whose job is already queued or in flight is silently dropped whatever its
    attempt, a full channel or a cancelled context leaves the queue unchanged
    and says so, and otherwise the message goes to the end of the channel; a
    missing attempt becomes 1. *)
Lemma Publish_spec (q : InMemoryQueue) (job : CheckJobMessage) (cancelled : option GoError) (clk : Time) :
  msg_JobID job ≠ "" →
  let job' := if msg_Attempt job =? 0 then job <| msg_Attempt := 1 |> else job in
  Publish q job cancelled clk =
    if closed q then (q, Some ErrCanceled)
    else if decide (msg_JobID job ∈ seen q) then (q, None)
    else match cancelled with
    | Some err => (q, Some err)
    | None =>
        if (length (jobs q) <? bufferSize q)%nat
        then (q <| jobs := jobs q ++ [job'] |> <| seen := {[msg_JobID job]} ∪ seen q |>, None)
        else (q, Some ErrQueueFull)
    end.
Proof.
  intros Hid job'. unfold Publish, normalized. apply String.eqb_neq in Hid. rewrite Hid. cbn zeta. fold job'.
  assert (msg_JobID job' = msg_JobID job) as Hj by (unfold job'; by destruct (msg_Attempt job =? 0)).
  clearbody job'. unfold reserve. rewrite Hj. destruct (closed q) eqn:Hc; [done|].
  destruct (decide (msg_JobID job ∈ seen q)) as [|Hn]; [done|]. unfold enqueue. cbn -[Nat.ltb length]. rewrite Hc.
  assert (q <| seen := ({[msg_JobID job]} ∪ seen q) ∖ {[msg_JobID job]} |> = q) as Hback.
  { assert (({[msg_JobID job]} ∪ seen q) ∖ {[msg_JobID job]} = seen q) as Hs.
    { apply set_eq. intros y. rewrite elem_of_difference, elem_of_union, elem_of_singleton.
      split; [tauto|]. intros Hy. split; [by right|]. by intros ->. }
    rewrite Hs. by destruct q. }
  destruct cancelled as [err|]; [f_equal; exact Hback|].
  destruct (length (jobs q) <? bufferSize q)%nat; [done|]. f_equal. exact Hback.
Qed.

(** Settling a delivery: acknowledging frees its identifier; a negative
    acknowledgement with attempts left puts the next attempt at the end of the
    channel under the same identifier, and otherwise dead-letters the message
    and frees the identifier; requeueing keeps the attempt; and when the
    channel has no room the identifier is freed and the error reported, so the
    scheduler can publish the job again. *)
Lemma settle_outcomes (q : InMemoryQueue) (job : CheckJobMessage) :
  closed q = false → 0 <= msg_Attempt job < maxAttempts q → maxAttempts q <= max_int64 →
  let room := (length (jobs q) <? bufferSize q)%nat in
  let freed := q <| seen := seen q ∖ {[msg_JobID job]} |> in
  Ack q job = (freed, None) ∧ Retryable q job = true
  ∧ Nack q job true None =
      (if room then (q <| jobs := jobs q ++ [job <| msg_Attempt := msg_Attempt job + 1 |>] |>, None)
       else (freed, Some ErrQueueFull))
  ∧ Requeue q job None = (if room then (q <| jobs := jobs q ++ [job] |>, None) else (freed, Some ErrQueueFull))
  ∧ (Nack q job false None).2 = None ∧ jobs (Nack q job false None).1 = jobs q
  ∧ seen (Nack q job false None).1 = seen q ∖ {[msg_JobID job]}
  ∧ deadLetters (Nack q job false None).1
    = if (length (deadLetters q) <? bufferSize q)%nat then deadLetters q ++ [job] else deadLetters q.
Proof.
  intros Hc Hat Hmax room freed. unfold Nack, Requeue, enqueue. rewrite Hc.
  unfold Retryable. rewrite (proj2 (Z.ltb_lt _ _)) by lia. cbn [andb].
  rewrite wrap64_id by (unfold in_int64, two63, max_int64 in *; lia). fold room. split_and!; try done.
  all: try by destruct room.
  all: unfold dead_letter; by destruct (length (deadLetters q) <? bufferSize q)%nat.
Qed.

Lemma settle_outcomes_witness :
  let q := (NewInMemoryQueue 1 3) <| seen := {["job_1"]} |> in
  0 <= msg_Attempt (sample_message 1) < maxAttempts q
  ∧ Nack q (sample_message 1) true None = (q <| jobs := [sample_message 2] |>, None).
Proof.
  intros q. split; [cbn; lia|].
  exact (proj1 (proj2 (proj2 (settle_outcomes q (sample_message 1) eq_refl ltac:(cbn; lia) ltac:(vm_compute; discriminate))))).
Defined.
