(* ===== verification/Shared.v ===== *)
(** * Goroutines on shared state

    A method that takes a mutex now and then and calls a library in between is
    a program: calls with their answers, and critical sections on the state.
    Before each of them other goroutines may have moved the state along a
    relation [R].  A run has a log of what it called and changed; a loop the
    code leaves unbounded has fuel, and [exhausts] tells what a run did that
    spent it. *)

From stdpp Require Import base list.
From Stdlib Require Import Lia.
From S2P Require Import Prelude.

(** ** Logs as words

    [path moves st log st']: the automaton [moves] reads the log from [st] to
    [st']. *)
Section path.
Context {E St : Type} (moves : St → E → St → Prop).

Inductive path : St → list E → St → Prop :=
| path_nil st : path st [] st
| path_cons st e st1 log st2 : moves st e st1 → path st1 log st2 → path st (e :: log) st2.

Lemma path_app st1 l1 st2 l2 st3 : path st1 l1 st2 → path st2 l2 st3 → path st1 (l1 ++ l2) st3.
Proof. induction 1 as [|st e st1 log st2 Hm _ IH]; [done|]. intros H. econstructor; [exact Hm|by apply IH]. Qed.
Lemma path_last st log st' : path st log st' → st = st' ∨ ∃ st1 e, e ∈ log ∧ moves st1 e st'.
Proof.
  induction 1 as [st|st e st1 log st2 Hm Hp IH]; [by left|right].
  destruct IH as [->|(st' & e' & Hin & Hm')]; [exists st, e; split; [left|done]|exists st', e'; split; [by right|done]].
Qed.
Lemma path_one st e st' : moves st e st' → path st [e] st'.
Proof. intros H. econstructor; [exact H|constructor]. Qed.
End path.

Section programs.
Context {S : Type} {call : Type → Type}.

Inductive prog (A : Type) : Type :=
| Ret (a : A)
| Call {X : Type} (c : call X) (k : X → prog A)
| Atomic {X : Type} (f : S → S * X) (k : X → prog A)
| Spent.                      (* the fuel of a loop is spent *)
Arguments Ret {A} a.
Arguments Call {A X} c k.
Arguments Atomic {A X} f k.
Arguments Spent {A}.

Fixpoint bind {A B} (p : prog A) (f : A → prog B) : prog B :=
  match p with
  | Ret a => f a
  | Call c k => Call c (λ x, bind (k x) f)
  | Atomic g k => Atomic g (λ x, bind (k x) f)
  | Spent => Spent
  end.

Definition perform {X} (c : call X) : prog X := Call c Ret.
(** A critical section, and one that only reads. *)
Definition locked {X} (f : S → S * X) : prog X := Atomic f Ret.
Definition read {X} (f : S → X) : prog X := Atomic (λ s, (s, f s)) Ret.

(** A Go function that may fail is a program of a [res]. *)
Definition try_bind {E A B} (p : prog (res E A)) (f : A → prog (res E B)) : prog (res E B) :=
  bind p (λ r, match r with Ok a => f a | Err e => Ret (Err e) end).

(** [defer q] around [p]. *)
Definition deferring {A B} (q : prog B) (p : prog A) : prog A := bind p (λ a, bind q (λ _, Ret a)).

(** ** Runs *)

Inductive entry : Type :=
| Called {X : Type} (s : S) (c : call X) (x : X)
| Changed (s s' : S).

Section runs.
Context (R : S → S → Prop) (possible : ∀ X, call X → X → Prop).

(** [run p s log s' a]: from [s] the program may do [log] and return [a] in [s']. *)
Fixpoint run {A} (p : prog A) (s : S) (log : list entry) (s' : S) (a : A) : Prop :=
  match p with
  | Ret b => log = [] ∧ s' = s ∧ a = b
  | Call c k => ∃ s1 x rest, R s s1 ∧ possible _ c x ∧ log = Called s1 c x :: rest ∧ run (k x) s1 rest s' a
  | Atomic f k => ∃ s1 rest, R s s1 ∧ log = Changed s1 (f s1).1 :: rest ∧ run (k (f s1).2) (f s1).1 rest s' a
  | Spent => False
  end.

(** [exhausts p s log]: it may do [log] and then find the fuel of a loop spent. *)
Fixpoint exhausts {A} (p : prog A) (s : S) (log : list entry) : Prop :=
  match p with
  | Ret _ => False
  | Call c k => ∃ s1 x rest, R s s1 ∧ possible _ c x ∧ log = Called s1 c x :: rest ∧ exhausts (k x) s1 rest
  | Atomic f k => ∃ s1 rest, R s s1 ∧ log = Changed s1 (f s1).1 :: rest ∧ exhausts (k (f s1).2) (f s1).1 rest
  | Spent => log = []
  end.

Lemma run_bind {A B} (p : prog A) (f : A → prog B) s log s' b :
  run (bind p f) s log s' b ↔
  ∃ log1 s1 a log2, run p s log1 s1 a ∧ run (f a) s1 log2 s' b ∧ log = log1 ++ log2.
Proof.
  revert s log. induction p as [a|X c k IH|X g k IH|]; intros s log; cbn.
  - split; [intros H; by exists [], s, a, log|]. by intros (log1 & s1 & a' & log2 & (-> & -> & ->) & H & ->).
  - split.
    + intros (s1 & x & rest & HR & Hx & -> & (log1 & s2 & a & log2 & H1 & H2 & ->)%IH).
      exists (Called s1 c x :: log1), s2, a, log2. split; [|done]. by exists s1, x, log1.
    + intros (log1 & s2 & a & log2 & (s1 & x & rest & HR & Hx & -> & H1) & H2 & ->).
      exists s1, x, (rest ++ log2). split; [done|]. split; [done|]. split; [done|]. apply IH. by exists rest, s2, a, log2.
  - split.
    + intros (s1 & rest & HR & -> & (log1 & s2 & a & log2 & H1 & H2 & ->)%IH).
      exists (Changed s1 (g s1).1 :: log1), s2, a, log2. split; [|done]. by exists s1, log1.
    + intros (log1 & s2 & a & log2 & (s1 & rest & HR & -> & H1) & H2 & ->).
      exists s1, (rest ++ log2). split; [done|]. split; [done|]. apply IH. by exists rest, s2, a, log2.
  - split; [done|]. by intros (? & ? & ? & ? & [] & _).
Qed.

Lemma run_try_bind {E A B} (p : prog (res E A)) (f : A → prog (res E B)) s log s' r :
  run (try_bind p f) s log s' r →
  (∃ e, run p s log s' (Err e) ∧ r = Err e)
  ∨ ∃ log1 s1 a log2, run p s log1 s1 (Ok a) ∧ run (f a) s1 log2 s' r ∧ log = log1 ++ log2.
Proof.
  intros (log1 & s1 & [a|e] & log2 & H1 & H2 & ->)%run_bind; [right; by exists log1, s1, a, log2|left].
  destruct H2 as (-> & -> & ->). exists e. by rewrite app_nil_r.
Qed.

Lemma run_perform {X} (c : call X) s log s' x :
  run (perform c) s log s' x ↔ R s s' ∧ possible _ c x ∧ log = [Called s' c x].
Proof.
  cbn. split.
  - intros (s1 & y & rest & HR & Hx & -> & -> & -> & ->). done.
  - intros (HR & Hx & ->). exists s', x, []. done.
Qed.

Lemma run_locked {X} (f : S → S * X) s log s' x :
  run (locked f) s log s' x ↔ ∃ s1, R s s1 ∧ s' = (f s1).1 ∧ x = (f s1).2 ∧ log = [Changed s1 s'].
Proof.
  cbn. split.
  - intros (s1 & rest & HR & -> & -> & -> & ->). by exists s1.
  - intros (s1 & HR & -> & -> & ->). by exists s1, [].
Qed.

Lemma run_read {X} (f : S → X) s log s' x :
  run (read f) s log s' x ↔ R s s' ∧ x = f s' ∧ log = [Changed s' s'].
Proof.
  unfold read. cbn. split.
  - intros (s1 & rest & HR & -> & -> & -> & ->). done.
  - intros (HR & -> & ->). by exists s', [].
Qed.

Lemma run_Ret {A} (a b : A) s log s' : run (Ret a) s log s' b ↔ log = [] ∧ s' = s ∧ b = a.
Proof. done. Qed.

Lemma run_deferring {A B} (q : prog B) (p : prog A) s log s' a :
  run (deferring q p) s log s' a ↔
  ∃ log1 s1 log2 b, run p s log1 s1 a ∧ run q s1 log2 s' b ∧ log = log1 ++ log2.
Proof.
  unfold deferring. rewrite run_bind. split.
  - intros (log1 & s1 & a' & log2 & H1 & (l1 & s2 & b & l2 & H2 & (-> & -> & ->) & ->)%run_bind & ->).
    exists log1, s1, l1, b. by rewrite app_nil_r.
  - intros (log1 & s1 & log2 & b & H1 & H2 & ->). exists log1, s1, a, log2. split; [done|]. split; [|done].
    apply run_bind. exists log2, s', b, []. by rewrite app_nil_r.
Qed.

Lemma exhausts_bind {A B} (p : prog A) (f : A → prog B) s log :
  exhausts (bind p f) s log →
  exhausts p s log ∨ ∃ log1 s1 a log2, run p s log1 s1 a ∧ exhausts (f a) s1 log2 ∧ log = log1 ++ log2.
Proof.
  revert s log. induction p as [a|X c k IH|X g k IH|]; intros s log; cbn.
  - intros H. right. by exists [], s, a, log.
  - intros (s1 & x & rest & HR & Hx & -> & [H|(log1 & s2 & a & log2 & H1 & H2 & ->)]%IH).
    + left. by exists s1, x, rest.
    + right. exists (Called s1 c x :: log1), s2, a, log2. split; [|done]. by exists s1, x, log1.
  - intros (s1 & rest & HR & -> & [H|(log1 & s2 & a & log2 & H1 & H2 & ->)]%IH).
    + left. by exists s1, rest.
    + right. exists (Changed s1 (g s1).1 :: log1), s2, a, log2. split; [|done]. by exists s1, log1.
  - intros ->. by left.
Qed.

(** ** What every entry of the log satisfies *)

Section only.
Context (P : entry → Prop).

Fixpoint only {A} (p : prog A) : Prop :=
  match p with
  | Ret _ | Spent => True
  | Call c k => ∀ x, (∀ s, P (Called s c x)) ∧ only (k x)
  | Atomic f k => (∀ s, P (Changed s (f s).1)) ∧ ∀ s, only (k (f s).2)
  end.

Lemma only_bind {A B} (p : prog A) (f : A → prog B) : only p → (∀ a, only (f a)) → only (bind p f).
Proof.
  intros Hp Hf. induction p as [a|X c k IH|X g k IH|]; cbn in *; [done| | |done].
  - intros x. destruct (Hp x). split; [done|]. by apply IH.
  - destruct Hp as [H1 H2]. split; [done|]. intros s. by apply IH.
Qed.

Lemma only_try_bind {E A B} (p : prog (res E A)) (f : A → prog (res E B)) :
  only p → (∀ a, only (f a)) → only (try_bind p f).
Proof. intros Hp Hf. apply only_bind; [done|]. by intros [a|e]. Qed.

Lemma only_deferring {A B} (q : prog B) (p : prog A) : only p → only q → only (deferring q p).
Proof. intros Hp Hq. apply only_bind; [done|]. intros a. by apply only_bind. Qed.

Lemma only_perform {X} (c : call X) : (∀ s x, P (Called s c x)) → only (perform c).
Proof. intros H x. split; [|done]. intros s. apply H. Qed.

Lemma only_locked {X} (f : S → S * X) : (∀ s, P (Changed s (f s).1)) → only (locked f).
Proof. by intros H. Qed.

Lemma only_read {X} (f : S → X) : (∀ s, P (Changed s s)) → only (read f).
Proof. by intros H. Qed.

Lemma run_only {A} (p : prog A) s log s' a : only p → run p s log s' a → Forall P log.
Proof.
  revert s log. induction p as [b|X c k IH|X g k IH|]; intros s log Hp; cbn in *.
  - by intros (-> & _).
  - intros (s1 & x & rest & _ & _ & -> & H). destruct (Hp x) as [H1 H2]. constructor; [apply H1|by eapply IH].
  - intros (s1 & rest & _ & -> & H). destruct Hp as [H1 H2]. constructor; [apply H1|by eapply IH].
  - done.
Qed.

Lemma exhausts_only {A} (p : prog A) s log : only p → exhausts p s log → Forall P log.
Proof.
  revert s log. induction p as [b|X c k IH|X g k IH|]; intros s log Hp; cbn in *.
  - done.
  - intros (s1 & x & rest & _ & _ & -> & H). destruct (Hp x) as [H1 H2]. constructor; [apply H1|by eapply IH].
  - intros (s1 & rest & _ & -> & H). destruct Hp as [H1 H2]. constructor; [apply H1|by eapply IH].
  - by intros ->.
Qed.
End only.

Lemma only_mono (P Q : entry → Prop) {A} (p : prog A) : (∀ e, P e → Q e) → only P p → only Q p.
Proof.
  intros HPQ. induction p as [b|X c k IH|X g k IH|]; cbn; [done| | |done].
  - intros H x. destruct (H x). split; [intros s; by apply HPQ|by apply IH].
  - intros [H1 H2]. split; [intros s; by apply HPQ|]. intros s. by apply IH.
Qed.

(** ** Other goroutines

    When both [R] and the program's own sections stay within a preorder [T],
    the state moves along [T] from the beginning of a run to its end. *)
Definition within (T : S → S → Prop) (e : entry) : Prop :=
  match e with Called _ _ _ => True | Changed s s' => T s s' end.

Lemma run_within_log (T : S → S → Prop) `{!Reflexive T, !Transitive T} {A} (p : prog A) s log s' a :
  (∀ s s', R s s' → T s s') → Forall (within T) log → run p s log s' a → T s s'.
Proof.
  intros HRT. revert s log. induction p as [b|X c k IH|X g k IH|]; intros s log Hl; cbn in *.
  - by intros (_ & -> & _).
  - intros (s1 & x & rest & HR & _ & -> & H). apply Forall_cons in Hl as [_ Hl]. etrans; [apply HRT, HR|by eapply IH].
  - intros (s1 & rest & HR & -> & H). apply Forall_cons in Hl as [H1 Hl].
    etrans; [apply HRT, HR|]. etrans; [exact H1|by eapply IH].
  - done.
Qed.

Lemma run_within (T : S → S → Prop) `{!Reflexive T, !Transitive T} {A} (p : prog A) s log s' a :
  (∀ s s', R s s' → T s s') → only (within T) p → run p s log s' a → T s s'.
Proof. intros HRT Hp Hr. eapply (run_within_log T p s log); [done|by eapply run_only|done]. Qed.

(** Every entry of the log happened in a state reached along [T]. *)
Definition state_of (e : entry) : S := match e with Called s _ _ => s | Changed s _ => s end.

Lemma run_states (T : S → S → Prop) `{!Reflexive T, !Transitive T} {A} (p : prog A) s log s' a :
  (∀ s s', R s s' → T s s') → only (within T) p → run p s log s' a → Forall (λ e, T s (state_of e)) log.
Proof.
  intros HRT. revert s log. induction p as [b|X c k IH|X g k IH|]; intros s log Hp; cbn in *.
  - by intros (-> & _).
  - intros (s1 & x & rest & HR & _ & -> & H). destruct (Hp x) as [_ H2]. constructor; [by apply HRT|].
    eapply Forall_impl; [by eapply IH|]. intros e He. etrans; [by apply HRT|exact He].
  - intros (s1 & rest & HR & -> & H). destruct Hp as [H1 H2]. constructor; [by apply HRT|].
    eapply Forall_impl; [by eapply IH|]. intros e He. etrans; [by apply HRT|]. etrans; [exact (H1 s1)|exact He].
  - done.
Qed.
End runs.

(** ** Goroutines that are joined

    [par ps] runs the programs [ps] interleaved until all have returned, as a
    [WaitGroup] does; which one moves next is the answer to a call. *)
Section par.
#[local] Open Scope nat_scope.
Context (pick : list nat → call nat).

Definition is_returned {A} (p : prog A) : bool := match p with Ret _ => true | _ => false end.
Fixpoint runnable (i : nat) (ps : list (prog unit)) : list nat :=
  match ps with
  | [] => []
  | p :: ps => if is_returned p then runnable (i + 1) ps else i :: runnable (i + 1) ps
  end.

Fixpoint par (fuel : nat) (ps : list (prog unit)) : prog unit :=
  match runnable 0 ps with
  | [] => Ret tt
  | l =>
      match fuel with
      | O => Spent
      | Datatypes.S fuel =>
          Call (pick l) (λ i,
            match ps !! i with
            | Some (Call c k) => Call c (λ x, par fuel (<[i := k x]> ps))
            | Some (Atomic f k) => Atomic f (λ x, par fuel (<[i := k x]> ps))
            | _ => Spent
            end)
      end
  end.

Lemma runnable_nil i ps : runnable i ps = [] ↔ Forall (λ p, p = Ret tt) ps.
Proof.
  revert i. induction ps as [|p ps IH]; intros i; cbn; [done|].
  rewrite Forall_cons, <- (IH (i + 1)). destruct p as [[]|X c k|X f k|]; cbn; [|split; [done|by intros [? _]]..].
  split; [done|by intros [_ ?]].
Qed.

Lemma elem_of_runnable n i ps : i ∈ runnable n ps → ∃ p, n ≤ i ∧ ps !! (i - n) = Some p ∧ is_returned p = false.
Proof.
  revert n. induction ps as [|p ps IH]; intros n; cbn; [by intros ?%not_elem_of_nil|].
  intros Hi. assert (i = n ∧ is_returned p = false ∨ i ∈ runnable (n + 1) ps) as [[-> Hp]|Hin].
  { destruct (is_returned p); [by right|]. apply elem_of_cons in Hi as [->|Hi]; [by left|by right]. }
  - exists p. by rewrite Nat.sub_diag.
  - destruct (IH _ Hin) as (q & Hle & Hq & Hr). exists q. split; [lia|]. split; [|done].
    replace (i - n) with (Datatypes.S (i - (n + 1))) by lia. done.
Qed.

Section runs_of_par.
Context (R : S → S → Prop) (possible : ∀ X, call X → X → Prop).
Context (Hany : ∀ s s', R s s') (Hpick : ∀ l i, possible nat (pick l) i → i ∈ l).

Definition is_pick (e : entry) : Prop := ∃ s l i, e = Called s (pick l) i.

(** When the state is anyone's, a run may start anywhere. *)
Lemma run_anywhere {A} (p : prog A) s log s' a s0 : run R possible p s log s' a → ∃ s1, run R possible p s0 log s1 a.
Proof.
  destruct p as [b|X c k|X f k|]; cbn.
  - intros (-> & _ & ->). by exists s0.
  - intros (s1 & x & rest & _ & Hx & -> & H). exists s', s1, x, rest. auto.
  - intros (s1 & rest & _ & -> & H). exists s', s1, rest. auto.
  - done.
Qed.

(** What an interleaving did is what its programs did, each on its own. *)
Lemma run_par fuel ps s log s' :
  run R possible (par fuel ps) s log s' tt →
  ∃ logs picks, Forall2 (λ p l, ∃ s s1, run R possible p s l s1 tt) ps logs
    ∧ log ≡ₚ concat logs ++ picks ∧ Forall is_pick picks.
Proof.
  revert ps s log. induction fuel as [|fuel IH]; intros ps s log; cbn [par].
  - destruct (runnable 0 ps) eqn:Hr; [|done]. intros (-> & _). apply runnable_nil in Hr.
    exists (replicate (length ps) []), []. split; [|split; [|done]].
    + induction Hr as [|p ps -> _ IH']; cbn; constructor; [by exists s', s'|done].
    + clear. induction ps; cbn; done.
  - destruct (runnable 0 ps) as [|j l] eqn:Hr.
    { intros (-> & _). apply runnable_nil in Hr. exists (replicate (length ps) []), []. split; [|split; [|done]].
      - induction Hr as [|p ps -> _ IH']; cbn; constructor; [by exists s', s'|done].
      - clear. induction ps; cbn; done. }
    cbn [run]. intros (s1 & i & rest & _ & Hi & -> & H). apply Hpick in Hi. rewrite <- Hr in Hi.
    apply elem_of_runnable in Hi as (p & _ & Hp & Hret). rewrite Nat.sub_0_r in Hp. rewrite Hp in H.
    assert (∀ e q, (∀ l s2 s3, run R possible q s2 l s3 tt → ∃ s4, run R possible p s2 (e :: l) s4 tt) →
      ∀ logs picks rest', Forall2 (λ p l, ∃ s s1, run R possible p s l s1 tt) (<[i:=q]> ps) logs →
      rest' ≡ₚ concat logs ++ picks → Forall is_pick picks →
      ∃ logs picks, Forall2 (λ p l, ∃ s s1, run R possible p s l s1 tt) ps logs
        ∧ Called s1 (pick (j :: l)) i :: e :: rest' ≡ₚ concat logs ++ picks ∧ Forall is_pick picks) as Hstep.
    { intros e q Hq logs picks rest' Hall Hlog Hpicks.
      assert (i < length ps) as Hlt by (by eapply lookup_lt_Some).
      destruct (Forall2_lookup_l _ _ _ i q Hall) as (li & Hli & s2 & s3 & Hrun); [by apply list_lookup_insert_eq|].
      destruct (Hq _ _ _ Hrun) as [s4 Hrun'].
      exists (<[i := e :: li]> logs), (Called s1 (pick (j :: l)) i :: picks). split; [|split].
      - rewrite <- (list_insert_id ps i p Hp), <- (list_insert_insert_eq ps i p q).
        apply Forall2_insert; [done|by exists s2, s4].
      - rewrite (insert_take_drop logs i) by (by eapply lookup_lt_Some).
        rewrite <- (take_drop_middle logs i li Hli) in Hlog. rewrite concat_app in *. cbn in *. rewrite Hlog.
        solve_Permutation.
      - constructor; [by eexists _, _, _|done]. }
    destruct p as [b|X c k|X f k|]; [done|..|done]; cbn in H.
    + destruct H as (s2 & x & rest' & _ & Hx & -> & H). apply IH in H as (logs & picks & H1 & H2 & H3).
      eapply (Hstep _ (k x)); [|exact H1|exact H2|exact H3].
      intros l' s3 s4 Hk. destruct (run_anywhere _ _ _ _ _ s2 Hk) as [s5 Hk']. exists s5, s2, x, l'. auto.
    + destruct H as (s2 & rest' & _ & -> & H). apply IH in H as (logs & picks & H1 & H2 & H3).
      eapply (Hstep _ (k (f s2).2)); [|exact H1|exact H2|exact H3].
      intros l' s3 s4 Hk. destruct (run_anywhere _ _ _ _ _ (f s2).1 Hk) as [s5 Hk']. exists s5, s2, l'. auto.
Qed.
End runs_of_par.

Lemma only_par (P : entry → Prop) fuel ps :
  (∀ s l i, P (Called s (pick l) i)) → Forall (only P) ps → only P (par fuel ps).
Proof.
  intros Hpick. revert ps. induction fuel as [|fuel IH]; intros ps Hps; cbn [par]; destruct (runnable 0 ps) as [|j l]; try done.
  intros i. split; [intros s; apply Hpick|].
  destruct (ps !! i) as [[b|X c k|X f k|]|] eqn:Hi; try done; pose proof (Forall_lookup_1 _ _ _ _ Hps Hi) as Hp; cbn in *.
  - intros x. destruct (Hp x) as [H1 H2]. split; [done|]. apply IH. by apply Forall_insert.
  - destruct Hp as [H1 H2]. split; [done|]. intros s. apply IH. by apply Forall_insert.
Qed.

(** [ends_within n p]: [p] returns after at most [n] steps. *)
Fixpoint ends_within {A} (n : nat) (p : prog A) : Prop :=
  match p, n with
  | Ret _, _ => True
  | Call c k, Datatypes.S n => ∀ x, ends_within n (k x)
  | Atomic f k, Datatypes.S n => ∀ x, ends_within n (k x)
  | _, _ => False
  end.

Lemma par_ends (R : S → S → Prop) (possible : ∀ X, call X → X → Prop) (Hpick : ∀ l i, possible nat (pick l) i → i ∈ l) fuel ps ns s log :
  Forall2 ends_within ns ps → sum_list ns ≤ fuel → ¬ exhausts R possible (par fuel ps) s log.
Proof.
  revert ps ns s log. induction fuel as [|fuel IH]; intros ps ns s log Hall Hle; cbn [par].
  - destruct (runnable 0 ps) as [|j l] eqn:Hr; [by intros []|]. exfalso.
    assert (Forall (λ p, p = Ret tt) ps) as Hret; [|apply (runnable_nil 0) in Hret; congruence].
    clear Hr. induction Hall as [|n p ns ps Hp _ IH']; cbn in *; [done|].
    constructor; [|apply IH'; lia]. assert (n = 0) as -> by lia. destruct p as [[]|X c k|X f k|]; done.
  - destruct (runnable 0 ps) as [|j l] eqn:Hr; [by intros []|]. cbn [exhausts].
    intros (s1 & i & rest & _ & Hi & -> & H). apply Hpick in Hi. rewrite <- Hr in Hi.
    apply elem_of_runnable in Hi as (p & _ & Hp & Hret). rewrite Nat.sub_0_r in Hp. rewrite Hp in H.
    destruct (Forall2_lookup_r _ _ _ i p Hall Hp) as (n & Hn & Hend).
    assert (∀ q n', ends_within n' q → n = Datatypes.S n' →
      ∀ s log, ¬ exhausts R possible (par fuel (<[i := q]> ps)) s log) as Hstep.
    { intros q n' Hq -> s2 log2. apply (IH _ (<[i := n']> ns)); [by apply Forall2_insert|].
      rewrite (insert_take_drop ns i) by (by eapply lookup_lt_Some).
      rewrite <- (take_drop_middle ns i _ Hn) in Hle. rewrite sum_list_with_app in *. cbn in *. lia. }
    destruct p as [b|X c k|X f k|]; [done|..|by destruct n]; destruct n as [|n]; try done; cbn in H, Hend.
    + destruct H as (s2 & x & rest' & _ & _ & -> & H). by eapply Hstep.
    + destruct H as (s2 & rest' & _ & -> & H). by eapply Hstep.
Qed.
End par.

(** ** Runs as a computation

    The answers may depend on what happened before; no other goroutine moves
    the state. *)
Section simulate.
Context (answers : list entry → ∀ X, call X → X).

Fixpoint simulate {A} (past : list entry) (p : prog A) (s : S) : option (list entry * S * A) :=
  match p with
  | Ret a => Some ([], s, a)
  | Call c k =>
      let e := Called s c (answers past _ c) in
      match simulate (past ++ [e]) (k (answers past _ c)) s with
      | Some (l, s', a) => Some (e :: l, s', a)
      | None => None
      end
  | Atomic f k =>
      let e := Changed s (f s).1 in
      match simulate (past ++ [e]) (k (f s).2) (f s).1 with
      | Some (l, s', a) => Some (e :: l, s', a)
      | None => None
      end
  | Spent => None
  end.

Lemma simulate_run (R : S → S → Prop) (possible : ∀ X, call X → X → Prop) `{!Reflexive R} {A} past (p : prog A) s log s' a :
  (∀ l X (c : call X), possible X c (answers l X c)) →
  simulate past p s = Some (log, s', a) → run R possible p s log s' a.
Proof.
  intros Hp. revert past s log. induction p as [b|X c k IH|X g k IH|]; intros past s log; cbn.
  - by intros [= <- <- <-].
  - intros H. destruct (simulate _ (k _) s) as [[[l s1] b]|] eqn:He; simplify_eq. apply IH in He.
    exists s, (answers past X c), l. done.
  - intros H. destruct (simulate _ (k _) _) as [[[l s1] b]|] eqn:He; simplify_eq. apply IH in He.
    exists s, l. done.
  - done.
Qed.

(** What a run does until it finds the fuel of a loop spent. *)
Fixpoint cut_off {A} (past : list entry) (p : prog A) (s : S) : option (list entry) :=
  match p with
  | Ret _ => None
  | Call c k =>
      let e := Called s c (answers past _ c) in
      match cut_off (past ++ [e]) (k (answers past _ c)) s with Some l => Some (e :: l) | None => None end
  | Atomic f k =>
      let e := Changed s (f s).1 in
      match cut_off (past ++ [e]) (k (f s).2) (f s).1 with Some l => Some (e :: l) | None => None end
  | Spent => Some []
  end.

Lemma cut_off_exhausts (R : S → S → Prop) (possible : ∀ X, call X → X → Prop) `{!Reflexive R} {A} past (p : prog A) s log :
  (∀ l X (c : call X), possible X c (answers l X c)) →
  cut_off past p s = Some log → exhausts R possible p s log.
Proof.
  intros Hp. revert past s log. induction p as [b|X c k IH|X g k IH|]; intros past s log; cbn.
  - done.
  - intros H. destruct (cut_off _ (k _) s) as [l|] eqn:He; simplify_eq. apply IH in He.
    by exists s, (answers past X c), l.
  - intros H. destruct (cut_off _ (k _) _) as [l|] eqn:He; simplify_eq. apply IH in He. by exists s, l.
  - by intros [= <-].
Qed.
End simulate.
End programs.

Arguments prog : clear implicits.
Arguments entry : clear implicits.
Arguments Ret {S call A} a.
Arguments Call {S call A X} c k.
Arguments Atomic {S call A X} f k.
Arguments Spent {S call A}.

Declare Scope shared_scope.
Notation "'let*' x := p 'in' q" := (bind p (λ x, q)) (at level 200, x pattern, p at level 100, q at level 200) : shared_scope.
Notation "'do*' p 'in' q" := (bind p (λ _, q)) (at level 200, p at level 100, q at level 200) : shared_scope.
(** [x, err := p; if err != nil { return err }]. *)
Notation "'let?' x := p 'in' q" := (try_bind p (λ x, q)) (at level 200, x pattern, p at level 100, q at level 200) : shared_scope.
Notation "'do?' p 'in' q" := (try_bind p (λ _, q)) (at level 200, p at level 100, q at level 200) : shared_scope.

(** Taking a run apart, one step at a time: [H] becomes the run of what is left. *)
Ltac run_step H :=
  lazymatch type of H with
  | run _ _ (bind _ _) _ _ _ _ =>
      let l1 := fresh "log" in let s1 := fresh "s" in let a := fresh "a" in let l2 := fresh "log" in
      let H1 := fresh "Hrun" in
      apply run_bind in H as (l1 & s1 & a & l2 & H1 & H & ->); run_step H1
  | run _ _ (deferring _ _) _ _ _ _ =>
      let l1 := fresh "log" in let s1 := fresh "s" in let l2 := fresh "log" in let b := fresh "b" in
      let H2 := fresh "Hlast" in
      apply run_deferring in H as (l1 & s1 & l2 & b & H & H2 & ->); run_step H2
  | run _ _ (perform _) _ _ _ _ =>
      let HR := fresh "HR" in let Hx := fresh "Hx" in apply run_perform in H as (HR & Hx & ->)
  | run _ _ (locked _) _ _ _ _ =>
      let s1 := fresh "q" in let HR := fresh "HR" in apply run_locked in H as (s1 & HR & -> & -> & ->); cbn [fst snd] in *
  | run _ _ (read _) _ _ _ _ =>
      let HR := fresh "HR" in apply run_read in H as (HR & -> & ->)
  | run _ _ (Ret _) _ _ _ _ => apply run_Ret in H as (-> & -> & H)
  | _ => idtac
  end.
