(* ===== verification/Rabbit.v ===== *)
(** * The RabbitMQ queue: connections and topology (queue.go)

    [RabbitMQQueue] is shared by the scheduler, the workers and the health
    checks.  Each method is a program ([Shared.prog]) over the calls it makes to
    the broker's client library, the clock and its context; a critical section
    of [q.mu] or [q.topologyMu] is one step on the record.  Waiting in a
    [select] is a call whose answer says which case was taken.  [fuel] bounds
    each of the loops the code leaves unbounded.

    Logging is left out.  [runRabbitMQOperation] gives up on an operation whose
    context ends; the goroutine left behind is one of the others that share the
    state. *)

From stdpp Require Import base list gmap strings.
From Stdlib Require Import ZArith Lia Ascii.
From S2P Require Import Prelude GoNum GoStrings NetworkPolicy Egress Domain Backoff Queue Shared.
#[local] Open Scope string_scope.
#[local] Open Scope list_scope.
#[local] Open Scope Z_scope.
#[local] Open Scope shared_scope.

(** ** State *)

(** Connections, channels and handlers of the library are known by number. *)
Definition Conn : Type := nat.
Definition Chan : Type := nat.
Definition Handler : Type := nat.

(** The notifications of a channel are named after it. *)
Record RabbitMQQueue := mkRabbit {
  url : string; queueName : string; dlqName : string; prefetch : Z; rmaxAttempts : Z;
  connectTimeout : Z; publishTimeout : Z; reconnectInitial : Z; reconnectMax : Z;
  conn : option Conn; channel : option Chan; confirms : option Chan; returns : option Chan;
  publishClosed : option Chan; rclosed : bool;
  topologyLossGeneration : Z; recoveredTopologyGeneration : Z; topologyLossHandler : option Handler;
}.
#[export] Instance eta_RabbitMQQueue : Eta RabbitMQQueue := λ q,
  mkRabbit (url q) (queueName q) (dlqName q) (prefetch q) (rmaxAttempts q) (connectTimeout q) (publishTimeout q)
    (reconnectInitial q) (reconnectMax q) (conn q) (channel q) (confirms q) (returns q) (publishClosed q) (rclosed q)
    (topologyLossGeneration q) (recoveredTopologyGeneration q) (topologyLossHandler q).

Record rabbitMQPublishSession := mkSession {
  s_channel : option Chan; s_confirms : option Chan; s_returns : option Chan; s_closed : option Chan;
}.

(** ** Errors

    [QWrap] is [fmt.Errorf("...: %w", err)], [QJoin] is [errors.Join] of two
    errors. *)
Inductive QErr :=
| QCtx (e : GoError)                 (* ctx.Err() *)
| QCanceled                          (* context.Canceled *)
| QConsumerClosed                    (* ErrQueueConsumerClosed *)
| QReturned (nacked : bool)          (* ErrRabbitMQReturned, joined with ErrRabbitMQNack when nacked *)
| QNack                              (* ErrRabbitMQNack *)
| QAmqp (code : Z)                   (* *amqp.Error *)
| QAmqpClosed                        (* amqp.ErrClosed *)
| QOther (e : GoError)               (* JSON, the network, the topology handler *)
| QNilHandler | QInvalidURL | QCanceledConsumer
| QMonitorIDRequired
| QWrap (e : QErr)
| QJoin (e1 e2 : QErr).

(** [errors.Is(err, ErrRabbitMQReturned)], and the code [errors.As] finds. *)
Fixpoint is_returned (e : QErr) : bool :=
  match e with
  | QReturned _ => true
  | QWrap e => is_returned e
  | QJoin e1 e2 => is_returned e1 || is_returned e2
  | _ => false
  end.
Fixpoint amqp_code (e : QErr) : option Z :=
  match e with
  | QAmqp code => Some code
  | QAmqpClosed => Some 504
  | QWrap e => amqp_code e
  | QJoin e1 e2 => match amqp_code e1 with Some c => Some c | None => amqp_code e2 end
  | _ => None
  end.
Definition isRabbitMQNotFound (e : QErr) : bool := bool_decide (amqp_code e = Some 404).

(** [errors.Join(err, other)] of a non-nil error and one that may be nil. *)
Definition join (e : QErr) (other : res QErr unit) : QErr :=
  match other with Ok _ => QWrap e | Err e' => QJoin e e' end.

(** ** Calls *)

Inductive Ctx := Background | Caller | WithTimeout (parent : Ctx) (d : Z).

(** Which case a [select] took. *)
Inductive Waited := TimerFired | CtxDone (e : GoError) | QueueDone.
Inductive Finished := OperationReturned | OperationCtxDone (e : GoError) | OperationQueueDone.
Inductive ConfirmEvent :=
| ConfirmCtxDone (e : GoError) | ConfirmQueueDone
| ReturnArrived | ReturnsClosed                       (* on [returns] *)
| ChannelClosed (e : option QErr)
| Confirmed (ack : bool) | ConfirmsClosed.            (* on [confirms] *)
Inductive Polled := PolledReturn | PolledClosed | PolledNothing.

(** [amqp.Delivery]: its tag on the consumer's channel and its body. *)
Record Delivery := mkDelivery { d_tag : Z; d_body : string }.
Inductive ConsumeEvent :=
| ConsumeCtxDone (e : GoError) | ConsumeQueueDone
| ConsumerChannelClosed (e : option QErr)
| ConsumerCanceled (tag : option string)
| DeliveryArrived (d : Delivery) | DeliveriesClosed.
Inductive HandOver := HandedOver | HandOverCtxDone (e : GoError) | HandOverQueueDone.

Abbreviation unit_res := (res QErr unit).

Inductive acall : Type → Type :=
(* contexts and the clock *)
| CtxErr (ctx : Ctx) : acall (option GoError)
| CtxDeadline (ctx : Ctx) : acall (option Time)
| Now_ : acall Time
| Int64N (n : Z) : acall Z
| WaitTimer (ctx : Ctx) (delay : Z) : acall Waited
| SendGate (ctx : Ctx) : acall Waited                  (* q.reconnectGate <- struct{}{} *)
| ReceiveGate : acall unit
| LockRecovery : acall unit | UnlockRecovery : acall unit
| LockPublish : acall unit | UnlockPublish : acall unit
| AwaitOperation (ctx : Ctx) (c : Conn) : acall Finished
(* connections *)
| ParseURI (url : string) : acall (res QErr Z)          (* amqp.ParseURI: the port *)
| Dial (ctx : Ctx) (url : string) (connectTimeout writeTimeout : Z) : acall (res QErr Conn)
| ConnIsClosed (c : Conn) : acall bool
| CloseDeadline (c : Conn) (deadline : Time) : acall unit_res
| OpenChannel (c : Conn) : acall (res QErr Chan)
(* channels *)
| ChanIsClosed (ch : Chan) : acall bool
| ChanClose (ch : Chan) : acall unit
| QueueDeclarePassive (ch : Chan) (name : string) : acall unit_res
| ExchangeDeclarePassive (ch : Chan) (name : string) : acall unit_res
| QueueDeclare (ch : Chan) (name : string) (durable autoDelete exclusive : bool) (deadLetter : option (string * string))
  : acall unit_res
| ExchangeDeclare (ch : Chan) (name : string) : acall unit_res
| QueueBind (ch : Chan) (name key exchange : string) : acall unit_res
| ConfirmMode (ch : Chan) : acall unit_res
| Qos (ch : Chan) (prefetch : Z) : acall unit_res
| ChanConsume (ch : Chan) (name : string) : acall unit_res
| PublishWithContext (ctx : Ctx) (ch : Chan) (name : string) (job : CheckJobMessage) (body : string) : acall unit_res
| AwaitConfirm (ctx : Ctx) (returnsOpen : bool) (ch : Chan) : acall ConfirmEvent
| PollReturn (ch : Chan) : acall Polled
| AwaitDelivery (ctx : Ctx) (ch : Chan) : acall ConsumeEvent
| SendDelivery (ctx : Ctx) (d : Delivery) (job : CheckJobMessage) (retryable : bool) : acall HandOver
| MsgAck (d : Delivery) : acall unit_res
| MsgNack (d : Delivery) (requeue : bool) : acall unit_res
(* the application *)
| RunHandler (h : Handler) (ctx : Ctx) : acall unit_res.

Abbreviation qprog := (prog RabbitMQQueue acall).

(** A nil channel is never ready; [rand.Int64N(n)] draws from [0, n). *)
Definition possible (X : Type) (c : acall X) : X → Prop :=
  match c in acall X return X → Prop with
  | Int64N n => λ x, 0 < n → 0 <= x < n
  | AwaitConfirm _ returnsOpen _ => λ x, returnsOpen = true ∨ (x ≠ ReturnArrived ∧ x ≠ ReturnsClosed)
  | _ => λ _, True
  end.

Definition ok {A} (a : A) : qprog (res QErr A) := Ret (Ok a).
Definition fail {A} (e : QErr) : qprog (res QErr A) := Ret (Err e).
Definition fail_ctx {A} (e : GoError) : qprog (res QErr A) := Ret (Err (QCtx e)).
(** [if err := ctx.Err(); err != nil { return err }]. *)
Definition check_ctx (ctx : Ctx) : qprog unit_res :=
  let* e := perform (CtxErr ctx) in match e with Some e => fail_ctx e | None => ok tt end.
(** [fmt.Errorf("...: %w", err)] around a call. *)
Definition wrapping {A} (p : qprog (res QErr A)) : qprog (res QErr A) :=
  let* r := p in Ret (match r with Ok a => Ok a | Err e => Err (QWrap e) end).

(** ** Small methods *)

Definition durationOrDefault (value fallback : Z) : Z := if value <=? 0 then fallback else value.

Definition isClosed : qprog bool := read rclosed.
Definition connection : qprog (option Conn) := read conn.
Definition publishSession : qprog rabbitMQPublishSession :=
  read (λ q, mkSession (channel q) (confirms q) (returns q) (publishClosed q)).

(** The library is asked while [q.mu] is held for reading. *)
Definition isConnected : qprog bool :=
  let* state := read (λ q, (rclosed q, conn q, channel q)) in
  match state with
  | (false, Some c, ch) =>
      let* gone := perform (ConnIsClosed c) in
      if gone : bool then Ret false
      else match ch with
      | None => Ret false
      | Some ch => let* gone := perform (ChanIsClosed ch) in Ret (negb gone)
      end
  | _ => Ret false
  end.

Definition acquireReconnect (ctx : Ctx) : qprog unit_res :=
  let* w := perform (SendGate ctx) in
  match w with TimerFired => ok tt | CtxDone e => fail_ctx e | QueueDone => fail QCanceled end.
Definition releaseReconnect : qprog unit := perform ReceiveGate.

Definition waitForReconnect (ctx : Ctx) (delay : Z) : qprog unit_res :=
  let* w := perform (WaitTimer ctx delay) in
  match w with TimerFired => ok tt | CtxDone e => fail_ctx e | QueueDone => fail QCanceled end.

(** [rabbitMQReconnectDelay] draws from [rand.Int64N] when the base is long enough. *)
Definition reconnectDelay (attempt : Z) : qprog Z :=
  let* bounds := read (λ q, (reconnectInitial q, reconnectMax q)) in
  let '(initial, maximum) := bounds in
  let base := rabbitMQReconnectBaseDelay attempt initial maximum in
  let* drawn := perform (Int64N (base - Z.quot base 2 + 1)) in
  Ret (rabbitMQReconnectDelay (λ _, drawn) attempt initial maximum).

(** ** The wire

    The net.Conn under a connection bounds each write of the library. *)
Record rabbitMQDeadlineConn := mkDeadlineConn {
  writeTimeout : Z; handshakeDeadline : Time; explicitDeadline : Time; established : bool;
}.

(** The deadline goes on to the connection below, whatever it answers. *)
Definition conn_SetDeadline (deadline : Time) (c : rabbitMQDeadlineConn) : rabbitMQDeadlineConn :=
  if IsZero deadline then mkDeadlineConn (writeTimeout c) time_zero time_zero true
  else if negb (established c) then mkDeadlineConn (writeTimeout c) deadline (explicitDeadline c) (established c)
  else mkDeadlineConn (writeTimeout c) (handshakeDeadline c) deadline (established c).

(** The write deadline [Write] sets, if it sets one. *)
Definition conn_Write (now : Time) (c : rabbitMQDeadlineConn) : option Time :=
  let deadline :=
    if established c then
      let deadline := AddDur now (writeTimeout c) in
      if negb (IsZero (explicitDeadline c)) && Before (explicitDeadline c) deadline then explicitDeadline c else deadline
    else handshakeDeadline c in
  if IsZero deadline then None else Some deadline.

(** The connection [dialRabbitMQ] hands to the library. *)
Definition dialled_conn (now : Time) (ctxDeadline : option Time) (connectTimeout writeTimeout : Z) : rabbitMQDeadlineConn :=
  let deadline := AddDur now connectTimeout in
  let deadline := match ctxDeadline with Some d => if Before d deadline then d else deadline | None => deadline end in
  conn_SetDeadline deadline (mkDeadlineConn writeTimeout time_zero time_zero false).

(** The errors of the parser may quote the password: they are not passed on. *)
Definition dialRabbitMQ (ctx : Ctx) (rawURL : string) (connectTimeout writeTimeout : Z) : qprog (res QErr Conn) :=
  let* uri := perform (ParseURI rawURL) in
  match uri with
  | Ok port => if (port <? 1) || (65535 <? port) then fail QInvalidURL
               else perform (Dial ctx rawURL connectTimeout writeTimeout)
  | Err _ => fail QInvalidURL
  end.

Definition closeConnection (ctx : Ctx) (c : option Conn) : qprog unit_res :=
  match c with
  | None => ok tt
  | Some c =>
      let* gone := perform (ConnIsClosed c) in
      if gone : bool then ok tt
      else
        let* now := perform Now_ in
        let* timeout := read publishTimeout in
        let deadline := AddDur now timeout in
        let* e := perform (CtxErr ctx) in
        let* deadline := match e with
                         | Some _ => perform Now_
                         | None =>
                             let* d := perform (CtxDeadline ctx) in
                             Ret (match d with Some d => if Before d deadline then d else deadline | None => deadline end)
                         end in
        let* r := perform (CloseDeadline c deadline) in
        Ret (match r with Err QAmqpClosed => Ok tt | r => r end)
  end.

(** The session's fields are cleared together. *)
Definition drop_session (q : RabbitMQQueue) : RabbitMQQueue :=
  q <| conn := None |> <| channel := None |> <| confirms := None |> <| returns := None |> <| publishClosed := None |>.

Definition opt_is (o : option nat) (n : nat) : bool := bool_decide (o = Some n).

Definition invalidatePublishChannel (ctx : Ctx) (ch : option Chan) : qprog unit :=
  let* dropped := locked (λ q, if bool_decide (channel q = ch) then (drop_session q, Some (conn q)) else (q, None)) in
  match dropped with
  | Some (Some c) => do* closeConnection ctx (Some c) in Ret tt
  | _ => Ret tt
  end.

Definition invalidateConnection (ctx : Ctx) (c : Conn) : qprog unit :=
  do* locked (λ q, (if opt_is (conn q) c then drop_session q else q, tt)) in
  do* closeConnection ctx (Some c) in Ret tt.

Definition runRabbitMQOperation {A} (ctx : Ctx) (c : Conn) (operation : qprog (res QErr A)) : qprog (res QErr A) :=
  do? check_ctx ctx in
  let* f := perform (AwaitOperation ctx c) in
  match f with
  | OperationReturned => operation
  | OperationCtxDone e => do* invalidateConnection ctx c in fail_ctx e
  | OperationQueueDone => fail QCanceled
  end.

Definition Close : qprog unit_res :=
  let* c := locked (λ q, if rclosed q then (q, None) else (drop_session (q <| rclosed := true |>), conn q)) in
  match c with
  | None => ok tt
  | Some c =>
      let* gone := perform (ConnIsClosed c) in
      if gone : bool then ok tt else closeConnection Background (Some c)
  end.

(** ** Lost topology

    The main queue may vanish with the messages in it.  Each loss observed gets
    a generation; the handler recovers the persisted jobs, and the generation it
    recovered is remembered. *)

Definition record_loss (q : RabbitMQQueue) : RabbitMQQueue :=
  q <| topologyLossGeneration := wrapu64 (topologyLossGeneration q + 1) |>.
Definition mark_recovered (generation : Z) (q : RabbitMQQueue) : RabbitMQQueue :=
  if recoveredTopologyGeneration q <? generation then q <| recoveredTopologyGeneration := generation |> else q.

(** The loop, with [topologyRecoveryMu] held. *)
Fixpoint recovery_loop (fuel : nat) (ctx : Ctx) : qprog unit_res :=
  match fuel with
  | O => Spent
  | S fuel =>
      let* state := read (λ q, (topologyLossGeneration q, recoveredTopologyGeneration q, topologyLossHandler q)) in
      let '(generation, recovered, handler) := state in
      if generation <=? recovered then ok tt
      else match handler with
      | None => ok tt
      | Some h =>
          do? perform (RunHandler h ctx) in
          do* locked (λ q, (mark_recovered generation q, tt)) in
          recovery_loop fuel ctx
      end
  end.

Section methods.
Context (fuel : nat).

Definition recoverDetectedTopologyLoss (ctx : Ctx) : qprog unit_res :=
  do* perform LockRecovery in
  deferring (perform UnlockRecovery) (recovery_loop fuel ctx).

Definition recordTopologyLoss (ctx : Ctx) : qprog unit_res :=
  do* locked (λ q, (record_loss q, tt)) in
  recoverDetectedTopologyLoss ctx.

Definition SetTopologyLossHandler (ctx : Ctx) (handler : option Handler) : qprog unit_res :=
  match handler with
  | None => fail QNilHandler
  | Some h =>
      do* locked (λ q, (q <| topologyLossHandler := Some h |>, tt)) in
      recoverDetectedTopologyLoss ctx
  end.

(** ** Declaring the topology *)

Definition dlx : string := "site_checker.dlx".

Definition bindDeadLetterQueue (ch : Chan) : qprog unit_res :=
  let* dlq := read dlqName in perform (QueueBind ch dlq dlq dlx).

Definition declareDeadLetterTopology (ch : Chan) : qprog unit_res :=
  do? perform (ExchangeDeclare ch dlx) in
  let* dlq := read dlqName in
  do? perform (QueueDeclare ch dlq true false false None) in
  bindDeadLetterQueue ch.

Definition declareTopology (ch : Chan) : qprog unit_res :=
  do? declareDeadLetterTopology ch in
  let* names := read (λ q, (queueName q, dlqName q)) in
  perform (QueueDeclare ch names.1 true false false (Some (dlx, names.2))).

(** A second connection owns an exclusive queue while it repairs the topology;
    405 (resource locked) says that somebody else does. *)
Fixpoint lock_loop (n : nat) (ctx : Ctx) : qprog (res QErr Conn) :=
  match n with
  | O => Spent
  | S n =>
      let* q := read (λ q, q) in
      let? c := dialRabbitMQ ctx (url q) (connectTimeout q) (publishTimeout q) in
      let* r := runRabbitMQOperation ctx c (
        let? ch := perform (OpenChannel c) in
        perform (QueueDeclare ch (queueName q +:+ ".topology-recovery-lock") false true true None)) in
      match r with
      | Ok _ => ok c
      | Err e =>
          do* closeConnection ctx (Some c) in
          if bool_decide (amqp_code e = Some 405)
          then do? waitForReconnect ctx (50 * Millisecond) in lock_loop n ctx
          else fail e
      end
  end.
Definition acquireTopologyRecoveryLock (ctx : Ctx) : qprog (res QErr Conn) := lock_loop fuel ctx.

(** After the queue was found missing twice, the second time with the lock
    held: the jobs are recovered before the queue exists again, unless there is
    no handler yet. *)
Definition restore_topology (ctx : Ctx) (ch : Chan) : qprog unit_res :=
  let* hasHandler := read (λ q, bool_decide (is_Some (topologyLossHandler q))) in
  do? (if hasHandler : bool then wrapping (recordTopologyLoss ctx) else ok tt) in
  do? declareTopology ch in
  if hasHandler then ok tt else wrapping (recordTopologyLoss ctx).

Definition repairTopologyOnConnectionUnbounded (ctx : Ctx) (c : Conn) : qprog unit_res :=
  let* name := read queueName in
  let? ch := perform (OpenChannel c) in
  let* present := perform (QueueDeclarePassive ch name) in
  match present with
  | Ok _ => deferring (perform (ChanClose ch)) (declareTopology ch)
  | Err e =>
      do* perform (ChanClose ch) in
      if negb (isRabbitMQNotFound e) then fail e
      else
        let? lock := acquireTopologyRecoveryLock ctx in
        deferring (closeConnection ctx (Some lock)) (
          let? ch := perform (OpenChannel c) in
          let* present := perform (QueueDeclarePassive ch name) in
          match present with
          | Ok _ => deferring (perform (ChanClose ch)) (declareTopology ch)
          | Err e =>
              do* perform (ChanClose ch) in
              if negb (isRabbitMQNotFound e) then fail e
              else
                let? ch := perform (OpenChannel c) in
                deferring (perform (ChanClose ch)) (restore_topology ctx ch)
          end)
  end.

Definition repairTopologyOnConnection (ctx : Ctx) (c : Conn) : qprog unit_res :=
  runRabbitMQOperation ctx c (repairTopologyOnConnectionUnbounded ctx c).

Definition repairTopology (ctx : Ctx) : qprog unit_res :=
  do? acquireReconnect ctx in
  deferring releaseReconnect (
    let* closed := isClosed in
    if closed : bool then fail QCanceled
    else
      let* c := connection in
      match c with
      | None => fail QConsumerClosed
      | Some c =>
          let* gone := perform (ConnIsClosed c) in
          if gone : bool then fail QConsumerClosed
          else
            let* r := repairTopologyOnConnection ctx c in
            match r with
            | Ok _ => ok tt
            | Err e =>
                let* gone := perform (ConnIsClosed c) in
                do* (if gone : bool then invalidateConnection ctx c else Ret tt) in
                fail e
            end
      end).

(** ** Connecting *)

Definition openTopologyChannel (ctx : Ctx) (c : Conn) : qprog (res QErr Chan) :=
  do? repairTopologyOnConnection ctx c in
  runRabbitMQOperation ctx c (perform (OpenChannel c)).

(** Installing a session; [None] when the queue was closed meanwhile. *)
Definition install (c : Conn) (ch : Chan) (q : RabbitMQQueue) : RabbitMQQueue * option (option Conn) :=
  if rclosed q then (q, None)
  else (q <| conn := Some c |> <| channel := Some ch |> <| confirms := Some ch |> <| returns := Some ch |>
          <| publishClosed := Some ch |>, Some (conn q)).

Definition connectOnce (ctx : Ctx) : qprog unit_res :=
  do? acquireReconnect ctx in
  deferring releaseReconnect (
    let* connected := isConnected in
    if connected : bool then ok tt
    else
      let* closed := isClosed in
      if closed : bool then fail QCanceled
      else
        let* q := read (λ q, q) in
        let? c := dialRabbitMQ ctx (url q) (connectTimeout q) (publishTimeout q) in
        let* r := openTopologyChannel ctx c in
        match r with
        | Err e => do* closeConnection ctx (Some c) in fail e
        | Ok ch =>
            let* r := perform (ConfirmMode ch) in
            match r with
            | Err e => do* closeConnection ctx (Some c) in fail e
            | Ok _ =>
                let* installed := locked (install c ch) in
                match installed with
                | None => do* closeConnection ctx (Some c) in fail QCanceled
                | Some (Some old) => do* (if bool_decide (old = c) then ok tt else closeConnection ctx (Some old)) in ok tt
                | Some None => ok tt
                end
            end
        end).

Fixpoint connect_loop (n : nat) (ctx : Ctx) (attempt : Z) : qprog unit_res :=
  match n with
  | O => Spent
  | S n =>
      do? check_ctx ctx in
      let* connected := isConnected in
      if connected : bool then ok tt
      else
        let* closed := isClosed in
        if closed : bool then fail QCanceled
        else
          let* timeout := read connectTimeout in
          let* r := connectOnce (WithTimeout ctx timeout) in
          match r with
          | Ok _ => ok tt
          | Err _ =>
              do? check_ctx ctx in
              let* delay := reconnectDelay attempt in
              do? waitForReconnect ctx delay in
              connect_loop n ctx (wrap64 (attempt + 1))
          end
  end.
Definition ensureConnected (ctx : Ctx) : qprog unit_res := connect_loop fuel ctx 1.

(** ** Health *)

(** A passive declaration that fails for any reason leads to a repair. *)
Definition repair_after (ctx : Ctx) (passiveErr : QErr) : qprog unit_res :=
  let* r := repairTopology ctx in
  Ret (match r with Ok _ => Ok tt | Err e => Err (QJoin passiveErr (QWrap e)) end).

Definition pingConnection (ctx : Ctx) (c : Conn) : qprog unit_res :=
  let* opened := perform (OpenChannel c) in
  match opened with
  | Err e => do* invalidateConnection ctx c in fail e
  | Ok ch =>
      deferring (perform (ChanClose ch)) (
        let* names := read (λ q, (queueName q, dlqName q)) in
        let* r := perform (QueueDeclarePassive ch names.1) in
        match r with
        | Err e => repair_after ctx e
        | Ok _ =>
            let* r := perform (ExchangeDeclarePassive ch dlx) in
            match r with
            | Err e => repair_after ctx e
            | Ok _ =>
                let* r := perform (QueueDeclarePassive ch names.2) in
                match r with
                | Err e => repair_after ctx e
                | Ok _ =>
                    do? wrapping (bindDeadLetterQueue ch) in
                    recoverDetectedTopologyLoss ctx
                end
            end
        end)
  end.

Definition Ping (ctx : Ctx) : qprog unit_res :=
  do? check_ctx ctx in
  do? ensureConnected ctx in
  let* c := connection in
  match c with
  | None => fail QConsumerClosed
  | Some c => runRabbitMQOperation ctx c (pingConnection ctx c)
  end.
End methods.
