(* ===== verification/RabbitPublish.v ===== *)
(** * The RabbitMQ queue: publishing and consuming (queue.go) *)

From stdpp Require Import base list gmap strings.
From Stdlib Require Import ZArith Lia Ascii.
From S2P Require Import Prelude GoNum GoStrings NetworkPolicy Egress Domain Backoff Queue Shared Rabbit.
#[local] Open Scope string_scope.
#[local] Open Scope list_scope.
#[local] Open Scope Z_scope.
#[local] Open Scope shared_scope.

(** [encoding/json] on messages. *)
Class Json := {
  json_Marshal : CheckJobMessage → res GoError string;
  json_Unmarshal : string → res GoError CheckJobMessage;
}.

Section methods.
Context `{JS : !Json} (fuel : nat).

(** ** Publishing *)

(** The loop of [waitForPublishConfirmation] on the session's channel [ch]:
    [returned] says whether the message came back, [returnsOpen] whether the
    returns can still be received. *)
Fixpoint confirm_loop (n : nat) (ctx : Ctx) (ch : Chan) (returned returnsOpen : bool) : qprog unit_res :=
  match n with
  | O => Spent
  | S n =>
      let* event := perform (AwaitConfirm ctx returnsOpen ch) in
      match event with
      | ConfirmCtxDone e => fail_ctx e
      | ConfirmQueueDone => fail QCanceled
      | ReturnsClosed => confirm_loop n ctx ch returned false
      | ReturnArrived => confirm_loop n ctx ch true returnsOpen
      | ChannelClosed (Some e) => fail (QWrap e)
      | ChannelClosed None | ConfirmsClosed => fail QConsumerClosed
      | Confirmed ack =>
          let* returned := (if negb returned && returnsOpen
                            then let* p := perform (PollReturn ch) in
                                 Ret (match p with PolledReturn => true | _ => returned end)
                            else Ret returned) in
          match ack, returned with
          | false, true => fail (QReturned true)
          | false, false => fail QNack
          | true, true => fail (QReturned false)
          | true, false => ok tt
          end
      end
  end.

Definition waitForPublishConfirmation (ctx : Ctx) (session : rabbitMQPublishSession) : qprog unit_res :=
  match s_channel session, s_confirms session, s_closed session with
  | Some ch, Some _, Some _ => confirm_loop fuel ctx ch false (bool_decide (is_Some (s_returns session)))
  | _, _, _ => fail QConsumerClosed
  end.

(** The defaults filled in; the clock is read for what lacks one. *)
Definition prepared (job : CheckJobMessage) (clk1 clk2 : Time) : CheckJobMessage :=
  let job := normalized job clk1 in
  if IsZero (msg_EnqueuedAt job) then job <| msg_EnqueuedAt := UTC clk2 |> else job.

(** One message on the session, with [publishMu] held. *)
Definition publish_once (ctx : Ctx) (session : rabbitMQPublishSession) (ch : Chan) (job : CheckJobMessage) (body : string)
  : qprog unit_res :=
  let* name := read queueName in
  do? perform (PublishWithContext ctx ch name job body) in
  waitForPublishConfirmation ctx session.

Fixpoint publish_loop (n : nat) (ctx : Ctx) (job : CheckJobMessage) (body : string) (attempt : Z) (topologyRepaired : bool)
  : qprog unit_res :=
  match n with
  | O => Spent
  | S n =>
      do? ensureConnected fuel ctx in
      do? wrapping (recoverDetectedTopologyLoss fuel ctx) in
      do* perform LockPublish in
      let* session := publishSession in
      match s_channel session with
      | None => do* perform UnlockPublish in publish_loop n ctx job body (wrap64 (attempt + 1)) topologyRepaired
      | Some ch =>
          let* published := deferring (perform UnlockPublish) (publish_once ctx session ch job body) in
          match published with
          | Ok _ => ok tt
          | Err err =>
              let retry_later :=
                do* invalidatePublishChannel ctx (s_channel session) in
                do? check_ctx ctx in
                let* delay := reconnectDelay attempt in
                do? waitForReconnect ctx delay in
                publish_loop n ctx job body (wrap64 (attempt + 1)) topologyRepaired in
              if is_returned err then
                if topologyRepaired then fail err
                else
                  let* repaired := repairTopology fuel ctx in
                  match repaired with
                  | Ok _ => publish_loop n ctx job body (wrap64 (attempt + 1)) true
                  | Err _ => retry_later
                  end
              else retry_later
          end
      end
  end.

Definition rabbit_Publish (ctx : Ctx) (job : CheckJobMessage) : qprog unit_res :=
  let* clk1 := perform Now_ in
  let* clk2 := perform Now_ in
  let job := prepared job clk1 clk2 in
  match json_Marshal job with
  | Err e => fail (QOther e)
  | Ok body =>
      let* timeout := read publishTimeout in
      publish_loop fuel (WithTimeout ctx timeout) job body 1 false
  end.

(** ** Deliveries *)

Definition decodeJobMessage (body : string) (clk : Time) : res QErr CheckJobMessage :=
  match json_Unmarshal body with
  | Err e => Err (QOther e)
  | Ok job => if String.eqb (msg_MonitorID job) "" then Err QMonitorIDRequired else Ok (normalized job clk)
  end.

(** Rejecting a message without requeueing it sends it to the dead letters;
    when they are not there it goes back to the queue instead. *)
Definition deadLetter (ctx : Ctx) (d : Delivery) : qprog unit_res :=
  let* healthy := Ping fuel ctx in
  match healthy with
  | Err e => let* nacked := perform (MsgNack d true) in Ret (Err (join (QWrap e) nacked))
  | Ok _ => perform (MsgNack d false)
  end.

(** The closures of a [QueueDelivery]. *)
Definition delivery_Ack (d : Delivery) : qprog unit_res := perform (MsgAck d).
Definition delivery_Nack (ctx : Ctx) (d : Delivery) (job : CheckJobMessage) (requeue : bool) : qprog unit_res :=
  let* maxAttempts := read rmaxAttempts in
  if requeue && (msg_Attempt job <? maxAttempts) then
    let* now := perform Now_ in
    let next := job <| msg_Attempt := wrap64 (msg_Attempt job + 1) |> <| msg_EnqueuedAt := UTC now |> in
    let* published := rabbit_Publish ctx next in
    match published with
    | Err e => let* nacked := perform (MsgNack d true) in Ret (Err (join e nacked))
    | Ok _ => perform (MsgAck d)
    end
  else deadLetter ctx d.
Definition delivery_Requeue (d : Delivery) : qprog unit_res := perform (MsgNack d true).

(** ** Consuming *)

(** The loop of [consumeSession] on an open channel. *)
Fixpoint deliver_loop (n : nat) (ctx : Ctx) (ch : Chan) : qprog unit_res :=
  match n with
  | O => Spent
  | S n =>
      let* event := perform (AwaitDelivery ctx ch) in
      match event with
      | ConsumeCtxDone e => fail_ctx e
      | ConsumeQueueDone => fail QCanceled
      | ConsumerChannelClosed (Some e) => fail (QWrap e)
      | ConsumerChannelClosed None | ConsumerCanceled None | DeliveriesClosed => fail QConsumerClosed
      | ConsumerCanceled (Some _) =>
          do? wrapping (repairTopology fuel ctx) in
          fail QCanceledConsumer
      | DeliveryArrived d =>
          let* clk := perform Now_ in
          match decodeJobMessage (d_body d) clk with
          | Err _ => do* deadLetter ctx d in deliver_loop n ctx ch
          | Ok job =>
              let* maxAttempts := read rmaxAttempts in
              let* sent := perform (SendDelivery ctx d job (msg_Attempt job <? maxAttempts)) in
              match sent with
              | HandedOver => deliver_loop n ctx ch
              | HandOverCtxDone e => do* perform (MsgNack d true) in fail_ctx e
              | HandOverQueueDone => do* perform (MsgNack d true) in fail QCanceled
              end
          end
      end
  end.

(** The deferred end of a session. *)
Definition end_session (ctx : Ctx) (c : Conn) (ch : Chan) : qprog unit :=
  let* e := perform (CtxErr ctx) in
  let* closed := (match e with Some _ => Ret true | None => isClosed end) in
  if closed : bool then invalidateConnection ctx c else perform (ChanClose ch).

Definition consumeSession (ctx : Ctx) : qprog unit_res :=
  do? ensureConnected fuel ctx in
  let* c := connection in
  match c with
  | None => fail QConsumerClosed
  | Some c =>
      let* opened := openTopologyChannel fuel ctx c in
      match opened with
      | Err e =>
          let* gone := perform (ConnIsClosed c) in
          do* (if gone : bool then invalidateConnection ctx c else Ret tt) in
          fail e
      | Ok ch =>
          deferring (end_session ctx c ch) (
            let* settings := read (λ q, (prefetch q, queueName q)) in
            do? perform (Qos ch settings.1) in
            do? perform (ChanConsume ch settings.2) in
            deliver_loop fuel ctx ch)
      end
  end.

(** The goroutine [Consume] starts: sessions until the context ends or the
    queue is closed. *)
Fixpoint consume_loop (n : nat) (ctx : Ctx) (attempt : Z) : qprog unit :=
  match n with
  | O => Spent
  | S n =>
      let* startedAt := perform Now_ in
      do* consumeSession ctx in
      let* e := perform (CtxErr ctx) in
      let* closed := (match e with Some _ => Ret true | None => isClosed end) in
      if closed : bool then Ret tt
      else
        let* now := perform Now_ in
        let* longest := read reconnectMax in
        let attempt := if longest <=? now - startedAt then 1 else attempt in
        let* delay := reconnectDelay attempt in
        let* waited := waitForReconnect ctx delay in
        match waited with
        | Err _ => Ret tt
        | Ok _ => consume_loop n ctx (wrap64 (attempt + 1))
        end
  end.

Definition Consume (ctx : Ctx) : qprog (res QErr unit) :=
  let* closed := isClosed in
  if closed : bool then fail QCanceled else do* consume_loop fuel ctx 1 in ok tt.

(** ** The queue as the application uses it *)

Inductive rabbit_op :=
| OpPublish (job : CheckJobMessage) | OpConsume | OpPing | OpSetTopologyLossHandler (handler : option Handler) | OpClose
| OpAck (d : Delivery) | OpNack (d : Delivery) (job : CheckJobMessage) (requeue : bool) | OpRequeue (d : Delivery).

Definition rabbit_do (ctx : Ctx) (op : rabbit_op) : qprog unit_res :=
  match op with
  | OpPublish job => rabbit_Publish ctx job
  | OpConsume => Consume ctx
  | OpPing => Ping fuel ctx
  | OpSetTopologyLossHandler h => SetTopologyLossHandler fuel ctx h
  | OpClose => Close
  | OpAck d => delivery_Ack d
  | OpNack d job requeue => delivery_Nack ctx d job requeue
  | OpRequeue d => delivery_Requeue d
  end.
End methods.
