(* ===== verification/RabbitSample.v ===== *)
(** * A broker to try the RabbitMQ queue on

    It answers every call, has lost the queue or not, and delivers one message
    before the context ends.  Connections and channels are numbered by the calls
    before them. *)

From stdpp Require Import base list gmap strings.
From Stdlib Require Import ZArith Lia Ascii.
From S2P Require Import Prelude GoNum GoStrings NetworkPolicy Egress Domain Store StoreInv Sample Backoff Queue Shared Rabbit RabbitPublish.
#[local] Open Scope string_scope.
#[local] Open Scope list_scope.
#[local] Open Scope Z_scope.

Definition sample_rabbit : RabbitMQQueue :=
  {| url := "amqp://localhost"; queueName := "checks"; dlqName := "checks.dlq"; prefetch := 10; rmaxAttempts := 3;
     connectTimeout := 10 * Second; publishTimeout := 5 * Second; reconnectInitial := Second; reconnectMax := 30 * Second;
     conn := Some 0%nat; channel := Some 0%nat; confirms := Some 0%nat; returns := Some 0%nat; publishClosed := Some 0%nat;
     rclosed := false; topologyLossGeneration := 0; recoveredTopologyGeneration := 0; topologyLossHandler := Some 0%nat |}.

(** The same before its first connection. *)
Definition unconnected_rabbit : RabbitMQQueue :=
  sample_rabbit <| conn := None |> <| channel := None |> <| confirms := None |> <| returns := None |> <| publishClosed := None |>.

Definition sample_message : CheckJobMessage := mkMessage sample_job sample_monitor 1 sample_now.

(** A codec for the messages of this check. *)
Definition sample_json : Json :=
  {| json_Marshal m := Ok (msg_MonitorID m);
     json_Unmarshal s := Ok (sample_message <| msg_MonitorID := s |>) |}.
#[export] Existing Instance sample_json.

(** How often the consumer has waited. *)
Definition is_wait (e : entry RabbitMQQueue acall) : bool :=
  match e with Called _ (AwaitDelivery _ _) _ => true | _ => false end.
Definition waits (past : list (entry RabbitMQQueue acall)) : nat := length (List.filter is_wait past).

Definition sample_broker (lost : bool) (past : list (entry RabbitMQQueue acall)) (X : Type) (c : acall X) : X :=
  match c in acall X return X with
  | CtxErr _ => if (2 <=? waits past)%nat then Some ErrCanceled else None
  | CtxDeadline _ => None
  | Now_ => sample_now
  | Int64N _ => 0
  | WaitTimer _ _ | SendGate _ => TimerFired
  | ReceiveGate | LockRecovery | UnlockRecovery | LockPublish | UnlockPublish | ChanClose _ => tt
  | AwaitOperation _ _ => OperationReturned
  | ParseURI _ => Ok 5672
  | Dial _ _ _ _ | OpenChannel _ => Ok (length past)
  | ConnIsClosed _ | ChanIsClosed _ => false
  | QueueDeclarePassive _ name => if lost && String.eqb name "checks" then Err (QAmqp 404) else Ok tt
  | AwaitConfirm _ _ _ => Confirmed true
  | PollReturn _ => PolledNothing
  | AwaitDelivery _ _ => if (0 <? waits past)%nat then ConsumeCtxDone ErrCanceled else DeliveryArrived (mkDelivery 1 "m")
  | SendDelivery _ _ _ _ => HandedOver
  | CloseDeadline _ _ | ExchangeDeclarePassive _ _ | QueueDeclare _ _ _ _ _ _ | ExchangeDeclare _ _ | QueueBind _ _ _ _
  | ConfirmMode _ | Qos _ _ | ChanConsume _ _ | PublishWithContext _ _ _ _ _ | MsgAck _ | MsgNack _ _
  | RunHandler _ _ => Ok tt
  end.

Definition sample_run {A} (lost : bool) (p : qprog A) (q : RabbitMQQueue) : option (list (entry RabbitMQQueue acall) * RabbitMQQueue * A) :=
  simulate (sample_broker lost) [] p q.

(** A check of what a run does, and the run. *)
Definition sample_check {A} (lost : bool) (p : qprog A) (q : RabbitMQQueue)
    (f : list (entry RabbitMQQueue acall) → RabbitMQQueue → A → bool) : bool :=
  match sample_run lost p q with Some (log, q', a) => f log q' a | None => false end.

Lemma sample_runs (R : RabbitMQQueue → RabbitMQQueue → Prop) `{!Reflexive R} {A} lost (p : qprog A) q f :
  sample_check lost p q f = true → ∃ log q' a, run R possible p q log q' a ∧ f log q' a = true.
Proof.
  unfold sample_check. destruct (sample_run lost p q) as [[[log q'] a]|] eqn:H; [|done]. intros Hf.
  exists log, q', a. split; [|done]. eapply simulate_run; [done| |exact H]. intros l X []; cbn; try done. by right.
Qed.

Definition succeeded {A} (a : res QErr A) : bool := match a with Ok _ => true | Err _ => false end.
