(* ===== verification/RabbitSpec.v ===== *)
(** * What the RabbitMQ queue promises

    Every critical section moves the shared state along [moved], which is what a
    goroutine may assume of the others: the queue once closed stays closed and
    holds no connection, generations only grow.  On these grounds: a repair
    declares a lost queue only in a state that has recovered the loss, every
    connection is accounted for, and no write goes without a deadline. *)

From stdpp Require Import base list gmap strings.
From Stdlib Require Import ZArith Lia Ascii.
From S2P Require Import Prelude GoNum GoStrings NetworkPolicy Egress Domain Store StoreInv Sample Backoff Queue Shared Rabbit RabbitPublish RabbitSample.
#[local] Open Scope string_scope.
#[local] Open Scope list_scope.
#[local] Open Scope Z_scope.
#[local] Open Scope shared_scope.
#[local] Abbreviation entry := (Shared.entry RabbitMQQueue acall).

#[local] Arguments drop_session : simpl never.
#[local] Arguments record_loss : simpl never.
#[local] Arguments mark_recovered : simpl never.
#[local] Arguments install : simpl never.

(** ** What other goroutines may do *)

(** A session is there completely or not at all, and not once closed. *)
Definition session_ok (q : RabbitMQQueue) : Prop :=
  confirms q = channel q ∧ returns q = channel q ∧ publishClosed q = channel q
  ∧ (conn q = None ↔ channel q = None) ∧ (rclosed q = true → conn q = None).

Definition settings (q : RabbitMQQueue) :=
  (url q, queueName q, dlqName q, prefetch q, rmaxAttempts q, connectTimeout q, publishTimeout q,
   reconnectInitial q, reconnectMax q).

Record moved (q q' : RabbitMQQueue) : Prop := {
  mv_settings : settings q' = settings q;
  mv_closed : rclosed q = true → rclosed q' = true;
  mv_session : session_ok q → session_ok q';
  mv_losses : topologyLossGeneration q <= topologyLossGeneration q';
  mv_recovered : recoveredTopologyGeneration q <= recoveredTopologyGeneration q';
  mv_handler : is_Some (topologyLossHandler q) → is_Some (topologyLossHandler q');
}.

#[export] Instance moved_preorder : PreOrder moved.
Proof.
  split; [by intros q; split|]. intros q1 q2 q3 [] []. split; [congruence|auto|auto|lia|lia|auto].
Qed.

(** A section moves the state, or counts a loss; the count is a [uint64]. *)
Definition section_moves (e : entry) : Prop :=
  match e with Called _ _ _ => True | Changed q q' => moved q q' ∨ q' = record_loss q end.

Lemma moved_loss q : 0 <= topologyLossGeneration q < two64 - 1 → moved q (record_loss q).
Proof. intros Hc. split; try done. unfold record_loss, wrapu64. cbn. rewrite Z.mod_small; lia. Qed.
Lemma moved_refl q : moved q q.
Proof. reflexivity. Qed.
Lemma moved_drop q : moved q (drop_session q).
Proof. by split. Qed.
Lemma moved_recovered g q : moved q (mark_recovered g q).
Proof. unfold mark_recovered. destruct (Z.ltb_spec (recoveredTopologyGeneration q) g); [|done]. split; try done. cbn. lia. Qed.
Lemma moved_handler h q : moved q (q <| topologyLossHandler := Some h |>).
Proof. by split; try done; eexists. Qed.
Lemma moved_close q : moved q (drop_session (q <| rclosed := true |>)).
Proof. by split. Qed.
Lemma moved_install c ch q : moved q (install c ch q).1.
Proof.
  unfold install. destruct (rclosed q) eqn:Hc; [done|]. split; try done.
  intros _. split; [done|]. split; [done|]. split; [done|]. split; [done|]. cbn. congruence.
Qed.
Create HintDb rabbit.
#[export] Hint Resolve moved_refl moved_drop moved_recovered moved_handler moved_close moved_install : rabbit.

(** ** What a method calls

    [quiet] methods leave messages alone; [unsettled] ones settle no delivery. *)
Definition quiet (e : entry) : Prop :=
  match e with
  | Called _ (PublishWithContext _ _ _ _ _) _ | Called _ (AwaitConfirm _ _ _) _ | Called _ (PollReturn _) _
  | Called _ (AwaitDelivery _ _) _ | Called _ (SendDelivery _ _ _ _) _ | Called _ (MsgAck _) _
  | Called _ (MsgNack _ _) _ => False
  | _ => True
  end.
Definition unsettled (e : entry) : Prop :=
  match e with
  | Called _ (AwaitDelivery _ _) _ | Called _ (SendDelivery _ _ _ _) _ | Called _ (MsgAck _) _
  | Called _ (MsgNack _ _) _ => False
  | _ => True
  end.
Definition undialled (e : entry) : Prop := match e with Called _ (Dial _ _ _ _) _ => False | _ => True end.
Definition still (e : entry) : Prop := section_moves e ∧ quiet e ∧ undialled e.
Definition calm (e : entry) : Prop := section_moves e ∧ quiet e.
Definition busy (e : entry) : Prop := section_moves e ∧ unsettled e.

Lemma still_calm e : still e → calm e.
Proof. by intros (? & ? & _). Qed.
Lemma calm_busy e : calm e → busy e.
Proof. intros [Hm Hq]. split; [done|]. destruct e as [X s c x|]; [|done]. by destruct c. Qed.
Lemma busy_moves e : busy e → section_moves e.
Proof. by intros [? _]. Qed.

Create HintDb rabbit_methods discriminated.
#[export] Hint Constants Opaque : rabbit_methods.

(** One step of the structure of a program. *)
Ltac only_step :=
  lazymatch goal with
  | |- only _ (bind _ _) => apply only_bind; [|intros]
  | |- only _ (try_bind _ _) => apply only_try_bind; [|intros]
  | |- only _ (deferring _ _) => apply only_deferring
  | |- only _ (Ret _) => exact I
  | |- only _ Spent => exact I
  | |- only _ (perform _) => apply only_perform
  | |- only _ (locked _) => apply only_locked
  | |- only _ (read _) => apply only_read
  | |- only _ (match ?x with _ => _ end) => destruct x
  | |- only _ (ok _) => exact I
  | |- only _ (fail _) => exact I
  | |- only _ (fail_ctx _) => exact I
  end.
Ltac only_steps := repeat first [only_step | solve [eauto 6 with rabbit_methods nocore]].
(** What is left are the entries. *)
Ltac entry_step := intros; split; [cbn; eauto with rabbit|done].
Ltac only_walk := only_steps; try (by entry_step).

#[local] Abbreviation stills := (only still).

Lemma check_ctx_still ctx : stills (check_ctx ctx).
Proof. unfold check_ctx. only_walk. Qed.
#[export] Hint Resolve check_ctx_still : rabbit_methods.
Lemma wrapping_still {A} (p : qprog (res QErr A)) : stills p → stills (wrapping p).
Proof. intros Hp. unfold wrapping. only_walk. Qed.
#[export] Hint Resolve wrapping_still : rabbit_methods.
Lemma isConnected_still : stills isConnected.
Proof. unfold isConnected. only_walk. Qed.
Lemma isClosed_still : stills isClosed.
Proof. unfold isClosed. only_walk. Qed.
Lemma connection_still : stills connection.
Proof. unfold connection. only_walk. Qed.
Lemma acquireReconnect_still ctx : stills (acquireReconnect ctx).
Proof. unfold acquireReconnect. only_walk. Qed.
Lemma releaseReconnect_still : stills releaseReconnect.
Proof. unfold releaseReconnect. only_walk. Qed.
Lemma waitForReconnect_still ctx d : stills (waitForReconnect ctx d).
Proof. unfold waitForReconnect. only_walk. Qed.
Lemma reconnectDelay_still a : stills (reconnectDelay a).
Proof. unfold reconnectDelay. only_walk. Qed.
Lemma closeConnection_still ctx c : stills (closeConnection ctx c).
Proof. unfold closeConnection. only_walk. Qed.
#[export] Hint Resolve isConnected_still isClosed_still connection_still acquireReconnect_still releaseReconnect_still
  waitForReconnect_still reconnectDelay_still closeConnection_still : rabbit_methods.

Lemma invalidateConnection_still ctx c : stills (invalidateConnection ctx c).
Proof. unfold invalidateConnection. only_walk. entry_step. by destruct (opt_is _ _); auto with rabbit. Qed.
Lemma invalidatePublishChannel_still ctx ch : stills (invalidatePublishChannel ctx ch).
Proof. unfold invalidatePublishChannel. only_walk. entry_step. by destruct (bool_decide _); auto with rabbit. Qed.
#[export] Hint Resolve invalidateConnection_still invalidatePublishChannel_still : rabbit_methods.

Lemma runRabbitMQOperation_still {A} ctx c (p : qprog (res QErr A)) : stills p → stills (runRabbitMQOperation ctx c p).
Proof. intros Hp. unfold runRabbitMQOperation. only_walk. Qed.
#[export] Hint Resolve runRabbitMQOperation_still : rabbit_methods.

Lemma recovery_loop_still n ctx : stills (recovery_loop n ctx).
Proof. induction n; cbn [recovery_loop]; only_walk. Qed.
#[export] Hint Resolve recovery_loop_still : rabbit_methods.
Lemma recoverDetectedTopologyLoss_still fuel ctx : stills (recoverDetectedTopologyLoss fuel ctx).
Proof. unfold recoverDetectedTopologyLoss. only_walk. Qed.
#[export] Hint Resolve recoverDetectedTopologyLoss_still : rabbit_methods.
Lemma recordTopologyLoss_still fuel ctx : stills (recordTopologyLoss fuel ctx).
Proof. unfold recordTopologyLoss. only_walk. Qed.
#[export] Hint Resolve recordTopologyLoss_still : rabbit_methods.
Lemma SetTopologyLossHandler_still fuel ctx h : stills (SetTopologyLossHandler fuel ctx h).
Proof. unfold SetTopologyLossHandler. only_walk. Qed.

Lemma bindDeadLetterQueue_still ch : stills (bindDeadLetterQueue ch).
Proof. unfold bindDeadLetterQueue. only_walk. Qed.
#[export] Hint Resolve bindDeadLetterQueue_still : rabbit_methods.
Lemma declareDeadLetterTopology_still ch : stills (declareDeadLetterTopology ch).
Proof. unfold declareDeadLetterTopology. only_walk. Qed.
#[export] Hint Resolve declareDeadLetterTopology_still : rabbit_methods.
Lemma declareTopology_still ch : stills (declareTopology ch).
Proof. unfold declareTopology. only_walk. Qed.
#[export] Hint Resolve declareTopology_still : rabbit_methods.
Lemma restore_topology_still fuel ctx ch : stills (restore_topology fuel ctx ch).
Proof. unfold restore_topology. only_walk. Qed.
#[export] Hint Resolve restore_topology_still : rabbit_methods.
Lemma Close_still : stills Close.
Proof. unfold Close. only_walk. entry_step. by destruct (rclosed _); auto with rabbit. Qed.
Lemma only_still_calm {A} (p : qprog A) : only still p → only calm p.
Proof. apply only_mono, still_calm. Qed.
#[export] Hint Extern 3 (only calm _) => apply only_still_calm : rabbit_methods.

#[local] Abbreviation calmly := (only calm).

Lemma runRabbitMQOperation_calm {A} ctx c (p : qprog (res QErr A)) : calmly p → calmly (runRabbitMQOperation ctx c p).
Proof. intros Hp. unfold runRabbitMQOperation. only_walk. Qed.
#[export] Hint Resolve runRabbitMQOperation_calm : rabbit_methods.
Lemma wrapping_calm {A} (p : qprog (res QErr A)) : calmly p → calmly (wrapping p).
Proof. intros Hp. unfold wrapping. only_walk. Qed.
#[export] Hint Resolve wrapping_calm : rabbit_methods.
Lemma dial_calm ctx u t1 t2 : calmly (dialRabbitMQ ctx u t1 t2).
Proof. unfold dialRabbitMQ. only_walk. Qed.
#[export] Hint Resolve dial_calm : rabbit_methods.
Lemma lock_loop_calm n ctx : calmly (lock_loop n ctx).
Proof. induction n; cbn [lock_loop]; only_walk. apply runRabbitMQOperation_calm. only_walk. Qed.
#[export] Hint Resolve lock_loop_calm : rabbit_methods.
Lemma repairUnbounded_calm fuel ctx c : calmly (repairTopologyOnConnectionUnbounded fuel ctx c).
Proof. unfold repairTopologyOnConnectionUnbounded, acquireTopologyRecoveryLock. only_walk. Qed.
#[export] Hint Resolve repairUnbounded_calm : rabbit_methods.
Lemma repairTopologyOnConnection_calm fuel ctx c : calmly (repairTopologyOnConnection fuel ctx c).
Proof. unfold repairTopologyOnConnection. only_walk. Qed.
#[export] Hint Resolve repairTopologyOnConnection_calm : rabbit_methods.
Lemma repairTopology_calm fuel ctx : calmly (repairTopology fuel ctx).
Proof. unfold repairTopology. only_walk. Qed.
#[export] Hint Resolve repairTopology_calm : rabbit_methods.
Lemma openTopologyChannel_calm fuel ctx c : calmly (openTopologyChannel fuel ctx c).
Proof. unfold openTopologyChannel. only_walk. apply runRabbitMQOperation_calm. only_walk. Qed.
#[export] Hint Resolve openTopologyChannel_calm : rabbit_methods.
Lemma connectOnce_calm fuel ctx : calmly (connectOnce fuel ctx).
Proof. unfold connectOnce. only_walk. Qed.
#[export] Hint Resolve connectOnce_calm : rabbit_methods.
Lemma connect_loop_calm fuel n ctx a : calmly (connect_loop fuel n ctx a).
Proof. revert a. induction n; intros a; cbn [connect_loop]; only_walk. Qed.
#[export] Hint Resolve connect_loop_calm : rabbit_methods.
Lemma ensureConnected_calm fuel ctx : calmly (ensureConnected fuel ctx).
Proof. unfold ensureConnected. only_walk. Qed.
#[export] Hint Resolve ensureConnected_calm : rabbit_methods.
Lemma pingConnection_calm fuel ctx c : calmly (pingConnection fuel ctx c).
Proof. unfold pingConnection, repair_after. only_walk. Qed.
#[export] Hint Resolve pingConnection_calm : rabbit_methods.
Lemma Ping_calm fuel ctx : calmly (Ping fuel ctx).
Proof. unfold Ping. only_walk. Qed.

(** ** Jobs are recovered before a lost queue is restored *)

#[local] Abbreviation runs := (run moved possible).
Ltac qstep H := unfold ok, fail, fail_ctx in H; run_step H.
(** The first part of [do?], [let?] succeeded. *)
Ltac qtry H :=
  let e := fresh "e" in let He := fresh "He" in let l1 := fresh "log" in let s1 := fresh "s" in let a := fresh "a" in
  let l2 := fresh "log" in let H1 := fresh "Hrun" in
  apply run_try_bind in H as [(e & He & [=])|(l1 & s1 & a & l2 & H1 & H & ->)]; qstep H1.

Definition same_settings (q q' : RabbitMQQueue) : Prop := settings q' = settings q.
#[export] Instance same_settings_preorder : PreOrder same_settings.
Proof. unfold same_settings. split; [by intros q|]. intros q1 q2 q3. congruence. Qed.

Lemma run_settings {A} (p : qprog A) s log s' a : only section_moves p → runs p s log s' a → settings s' = settings s.
Proof.
  intros Hp. apply (run_within moved possible same_settings p); [by intros q q' []|].
  eapply only_mono; [|exact Hp]. intros [X q c x|q q']; cbn; [done|]. by intros [[]| ->].
Qed.

(** A recovery that returned nil recovered every loss counted before it. *)
Lemma recovery_loop_recovers n ctx s log s' :
  runs (recovery_loop n ctx) s log s' (Ok tt) → is_Some (topologyLossHandler s) →
  topologyLossGeneration s <= recoveredTopologyGeneration s' ∧ moved s s'.
Proof.
  revert s log. induction n as [|n IH]; intros s log; cbn [recovery_loop]; [done|].
  intros H Hh. qstep H. destruct (Z.leb_spec (topologyLossGeneration s0) (recoveredTopologyGeneration s0)) as [Hle|Hgt].
  - qstep H. split; [|done]. pose proof (mv_losses _ _ HR). lia.
  - destruct (topologyLossHandler s0) as [h|] eqn:Hs0.
    2:{ destruct (mv_handler _ _ HR Hh) as [h Hh']. congruence. }
    qtry H. qstep H.
    assert (moved s (mark_recovered (topologyLossGeneration s0) q)) as Hm.
    { etrans; [exact HR|]. etrans; [exact HR0|]. etrans; [exact HR1|]. apply moved_recovered. }
    apply IH in H as [Hrec Hmv]; [|by apply Hm]. split; [|by etrans]. pose proof (mv_losses _ _ Hm). lia.
Qed.

Lemma recover_recovers fuel ctx s log s' :
  runs (recoverDetectedTopologyLoss fuel ctx) s log s' (Ok tt) → is_Some (topologyLossHandler s) →
  topologyLossGeneration s <= recoveredTopologyGeneration s' ∧ moved s s'.
Proof.
  intros H Hh. unfold recoverDetectedTopologyLoss in H. qstep H. qstep H.
  apply recovery_loop_recovers in H as [Hrec Hmv]; [|by apply HR].
  pose proof (mv_losses _ _ HR). pose proof (mv_recovered _ _ HR0). split; [lia|]. etrans; [exact HR|]. by etrans.
Qed.

(** The counter does not wrap. *)
Definition counted (e : entry) : Prop :=
  match e with Called _ _ _ => True | Changed q _ => 0 <= topologyLossGeneration q < two64 - 1 end.

Lemma record_recovers fuel ctx s log s' :
  runs (recordTopologyLoss fuel ctx) s log s' (Ok tt) → is_Some (topologyLossHandler s) → Forall counted log →
  topologyLossGeneration s < recoveredTopologyGeneration s' ∧ moved s s'.
Proof.
  intros H Hh Hc. unfold recordTopologyLoss in H. qstep H. apply Forall_cons in Hc as [Hc _]. cbn in Hc.
  assert (moved s (record_loss q)) as Hm by (etrans; [exact HR|by apply moved_loss]).
  apply recover_recovers in H as [Hrec Hmv]; [|by apply Hm]. split; [|by etrans].
  assert (topologyLossGeneration (record_loss q) = topologyLossGeneration q + 1) as He.
  { unfold record_loss, wrapu64. cbn. rewrite Z.mod_small; lia. }
  pose proof (mv_losses _ _ HR). lia.
Qed.

(** Declaring the main queue: the queue with dead letters. *)
Definition restores (P : RabbitMQQueue → Prop) (e : entry) : Prop :=
  match e with Called q (QueueDeclare _ _ _ _ _ (Some _)) _ => P q | _ => True end.
Definition never (_ : RabbitMQQueue) : Prop := False.

Lemma restores_mono (P Q : RabbitMQQueue → Prop) e : (∀ q, P q → Q q) → restores P e → restores Q e.
Proof. intros HPQ. destruct e as [X q c x|]; [|done]. destruct c; try done. destruct deadLetter; [apply HPQ|done]. Qed.

Lemma run_never {A} (p : qprog A) s log s' a P :
  only (restores never) p → run moved possible p s log s' a → Forall (restores P) log.
Proof.
  intros Hp Hr. eapply Forall_impl; [by eapply run_only|]. intros e. apply restores_mono. by intros q [].
Qed.

Ltac restores_walk := only_steps; try (intros; exact I).

#[local] Abbreviation never_restores := (only (restores never)).
Section never.
#[local] Ltac never := restores_walk.
Lemma closeConnection_never ctx c : never_restores (closeConnection ctx c).
Proof. unfold closeConnection. never. Qed.
Lemma check_ctx_never ctx : never_restores (check_ctx ctx).
Proof. unfold check_ctx. never. Qed.
Lemma waitForReconnect_never ctx d : never_restores (waitForReconnect ctx d).
Proof. unfold waitForReconnect. never. Qed.
#[local] Hint Resolve closeConnection_never check_ctx_never waitForReconnect_never : rabbit_methods.
Lemma invalidateConnection_never ctx c : never_restores (invalidateConnection ctx c).
Proof. unfold invalidateConnection. never. Qed.
#[local] Hint Resolve invalidateConnection_never : rabbit_methods.
Lemma runRabbitMQOperation_never {A} ctx c (p : qprog (res QErr A)) :
  never_restores p → never_restores (runRabbitMQOperation ctx c p).
Proof. intros Hp. unfold runRabbitMQOperation. never. Qed.
Lemma dial_never ctx u t1 t2 : never_restores (dialRabbitMQ ctx u t1 t2).
Proof. unfold dialRabbitMQ. never. Qed.
#[local] Hint Resolve dial_never : rabbit_methods.
Lemma lock_loop_never n ctx : never_restores (lock_loop n ctx).
Proof. induction n; cbn [lock_loop]; never. apply runRabbitMQOperation_never. never. Qed.
Lemma recovery_loop_never n ctx : never_restores (recovery_loop n ctx).
Proof. induction n; cbn [recovery_loop]; never. Qed.
#[local] Hint Resolve recovery_loop_never : rabbit_methods.
Lemma recordTopologyLoss_never fuel ctx : never_restores (recordTopologyLoss fuel ctx).
Proof. unfold recordTopologyLoss, recoverDetectedTopologyLoss. never. Qed.
End never.

Lemma declareTopology_reads ch : only (within eq) (declareTopology ch).
Proof. unfold declareTopology, declareDeadLetterTopology, bindDeadLetterQueue. restores_walk; done. Qed.

(** Declared at states reached along [moved]. *)
Lemma declareTopology_states ch s log s' r : runs (declareTopology ch) s log s' r → Forall (restores (moved s)) log.
Proof.
  intros H. assert (Forall (λ e, moved s (state_of e)) log) as Hs.
  { apply (run_states moved possible moved (declareTopology ch) s log s' r); [done| |exact H].
    eapply only_mono; [|apply declareTopology_reads]. intros [X q c x|q q']; cbn; [done|]. by intros <-. }
  eapply Forall_impl; [exact Hs|]. intros e He. destruct e as [X q c x|]; [|done]. destruct c; try done. by destruct deadLetter.
Qed.

Lemma restore_topology_recovers fuel ctx ch s log s' r :
  runs (restore_topology fuel ctx ch) s log s' r → is_Some (topologyLossHandler s) → Forall counted log →
  Forall (restores (λ q, topologyLossGeneration s < recoveredTopologyGeneration q)) log.
Proof.
  intros H Hh Hc. unfold restore_topology in H. qstep H.
  rewrite bool_decide_eq_true_2 in H by (by apply HR). cbn [app] in *. apply Forall_cons in Hc as [_ Hc].
  constructor; [done|]. apply run_try_bind in H as [(e & H & _)|(l1 & s1 & [] & l2 & H1 & H & ->)].
  - unfold wrapping in H. qstep H. qstep H. rewrite app_nil_r.
    eapply run_never; [apply recordTopologyLoss_never|exact Hrun].
  - unfold wrapping in H1. qstep H1. qstep H1. destruct a as [[]|]; [|done]. rewrite app_nil_r in *.
    apply Forall_app in Hc as [Hc1 Hc2]. apply Forall_app. split.
    { eapply run_never; [apply recordTopologyLoss_never|exact Hrun]. }
    apply record_recovers in Hrun as [Hrec Hmv]; [|by apply HR|done].
    pose proof (mv_losses _ _ HR) as Hl.
    assert (∀ l sx rx, runs (declareTopology ch) s2 l sx rx →
      Forall (restores (λ q, topologyLossGeneration s < recoveredTopologyGeneration q)) l) as Hdecl.
    { intros l sx rx Hd%declareTopology_states. eapply Forall_impl; [exact Hd|]. intros e'. apply restores_mono.
      intros q Hq. pose proof (mv_recovered _ _ Hq). lia. }
    apply run_try_bind in H as [(e & H & _)|(l3 & s3 & [] & l4 & H3 & H & ->)]; [by eapply Hdecl|].
    qstep H. rewrite app_nil_r. by eapply Hdecl.
Qed.

(** Without a wrap of the counter the sections move the state. *)
Lemma run_moved {A} (p : qprog A) s log s' a :
  only section_moves p → Forall counted log → runs p s log s' a → moved s s'.
Proof.
  intros Hp Hc Hr. apply (run_within_log moved possible moved p s log s' a); [done| |done].
  pose proof (run_only moved possible _ p s log s' a Hp Hr) as Hs. rewrite Forall_forall in Hs, Hc.
  apply Forall_forall. intros [X q c x|q q'] He; [done|]. specialize (Hs _ He). specialize (Hc _ He). cbn in *.
  destruct Hs as [?| ->]; [done|by apply moved_loss].
Qed.

(** The main queue was found when it was asked for, or it is declared only
    after the loss was recovered. *)
Definition queue_found (name : string) (log : list entry) : Prop :=
  ∃ q ch, Called q (QueueDeclarePassive ch name) (Ok tt) ∈ log.
Definition recovered_first (s : RabbitMQQueue) (log : list entry) : Prop :=
  queue_found (queueName s) log ∨ Forall (restores (λ q, topologyLossGeneration s < recoveredTopologyGeneration q)) log.

Lemma recovered_first_app s l1 l2 :
  (∀ P, Forall (restores P) l1) → recovered_first s l2 → recovered_first s (l1 ++ l2).
Proof.
  intros H1 [(q & ch & Hf)|H2]; [left; exists q, ch; apply elem_of_app; by right|right]. apply Forall_app. by split.
Qed.
Lemma recovered_first_tail s l1 l2 :
  (∀ P, Forall (restores P) l2) → recovered_first s l1 → recovered_first s (l1 ++ l2).
Proof.
  intros H2 [(q & ch & Hf)|H1]; [left; exists q, ch; apply elem_of_app; by left|right]. apply Forall_app. by split.
Qed.
Lemma recovered_first_never {A} (p : qprog A) s s0 log s' a :
  never_restores p → runs p s0 log s' a → recovered_first s log.
Proof. intros Hp Hr. right. by eapply run_never. Qed.
Lemma recovered_first_found s q ch l1 l2 :
  recovered_first s (l1 ++ Called q (QueueDeclarePassive ch (queueName s)) (Ok tt) :: l2).
Proof. left. exists q, ch. apply elem_of_app. right. apply list_elem_of_here. Qed.

(** The repair once the lock is held. *)
Definition repair_locked (fuel : nat) (ctx : Ctx) (c : Conn) (name : string) : qprog unit_res :=
  let? ch := perform (OpenChannel c) in
  let* present := perform (QueueDeclarePassive ch name) in
  match present with
  | Ok _ => deferring (perform (ChanClose ch)) (declareTopology ch)
  | Err e =>
      do* perform (ChanClose ch) in
      if negb (isRabbitMQNotFound e) then fail e
      else
        let? ch := perform (OpenChannel c) in
        deferring (perform (ChanClose ch)) (restore_topology fuel ctx ch)
  end.

Lemma repair_locked_recovers fuel ctx c s s0 log s' r :
  runs (repair_locked fuel ctx c (queueName s)) s0 log s' r → moved s s0 →
  is_Some (topologyLossHandler s) → Forall counted log → recovered_first s log.
Proof.
  intros H Hm Hh Hc. unfold repair_locked in H.
  apply run_try_bind in H as [(e & H & _)|(l1 & t1 & ch & l2 & H1 & H & ->)].
  { qstep H. right. by repeat constructor. }
  qstep H1. qstep H. destruct a as [[]|e]; [apply (recovered_first_found s _ _ [_])|].
  qstep H. destruct (negb (isRabbitMQNotFound e)); [qstep H; right; by repeat constructor|].
  apply run_try_bind in H as [(e' & H & _)|(l3 & t2 & ch' & l4 & H1 & H & ->)].
  { qstep H. right. by repeat constructor. }
  qstep H1. qstep H. do 4 (apply recovered_first_app; [by repeat constructor|]).
  apply recovered_first_tail; [by repeat constructor|]. right.
  assert (moved s t2) as Hm2 by (repeat (etrans; [eassumption|]); reflexivity).
  apply restore_topology_recovers in H; [|by apply Hm2|].
  - eapply Forall_impl; [exact H|]. intros e'. apply restores_mono. intros q. pose proof (mv_losses _ _ Hm2). lia.
  - rewrite !Forall_app in Hc. tauto.
Qed.

(** A repair declares the main queue again only when the broker said that it
    exists, or in a state that has recovered this loss. *)
Lemma repair_recovers fuel ctx c s log s' r :
  runs (repairTopologyOnConnectionUnbounded fuel ctx c) s log s' r →
  is_Some (topologyLossHandler s) → Forall counted log → recovered_first s log.
Proof.
  intros H Hh Hc. unfold repairTopologyOnConnectionUnbounded in H. qstep H.
  assert (queueName s0 = queueName s) as Hname by (pose proof (mv_settings _ _ HR) as Hs; unfold settings in Hs; congruence).
  rewrite Hname in H. apply run_try_bind in H as [(e & H & _)|(l1 & s1 & ch & l2 & H1 & H & ->)].
  { qstep H. right. by repeat constructor. }
  qstep H1. qstep H. destruct a as [[]|e]; [apply (recovered_first_found s _ _ [_; _])|].
  qstep H. destruct (negb (isRabbitMQNotFound e)); [qstep H; right; by repeat constructor|].
  do 4 (apply recovered_first_app; [by repeat constructor|]). rewrite !Forall_app in Hc. destruct Hc as (_ & _ & _ & _ & Hc).
  apply run_try_bind in H as [(e' & H & _)|(l3 & s4 & lock & l4 & H1 & H & ->)].
  { eapply recovered_first_never; [apply lock_loop_never|exact H]. }
  apply Forall_app in Hc as [Hc1 Hc2]. apply run_moved in H1 as Hm; [| |done].
  2:{ eapply only_mono; [|apply lock_loop_calm]. by intros e' [? _]. }
  apply recovered_first_app; [intros P; eapply run_never; [apply lock_loop_never|exact H1]|].
  change (runs (deferring (closeConnection ctx (Some lock)) (repair_locked fuel ctx c (queueName s))) s4 l4 s' r) in H.
  qstep H. apply Forall_app in Hc2 as [Hc2 _].
  apply recovered_first_tail; [intros P; eapply run_never; [apply closeConnection_never|exact Hlast]|].
  eapply repair_locked_recovers; [exact H| |done|done]. repeat (etrans; [eassumption|]). reflexivity.
Qed.

(** The broker lost the queue: it is found missing twice, the jobs are
    recovered, then it is declared. *)
Definition counting (e : entry) : bool :=
  match e with
  | Called _ _ _ => true
  | Changed q _ => (0 <=? topologyLossGeneration q) && (topologyLossGeneration q <? two64 - 1)
  end.
Lemma counting_counted log : forallb counting log = true → Forall counted log.
Proof.
  intros H. apply Forall_forall. intros e He. rewrite forallb_forall in H. specialize (H e).
  rewrite <- list_elem_of_In in H. specialize (H He). destruct e as [|q q']; [done|].
  apply andb_true_iff in H as [H1 H2]. cbn. lia.
Qed.

(** ** Connections are not leaked *)

Definition dialled {X} (c : acall X) : X → option Conn :=
  match c in acall X return X → option Conn with
  | Dial _ _ _ _ => λ x, match x with Ok c => Some c | Err _ => None end
  | _ => λ _, None
  end.

(** The connection is closed, was found closed, or is the queue's. *)
Definition releases (c : Conn) (e : entry) : Prop :=
  match e with
  | Called _ k x =>
      match k in acall X return X → Prop with
      | ConnIsClosed c' => λ x, c' = c ∧ x = true
      | CloseDeadline c' _ => λ _, c' = c
      | _ => λ _, False
      end x
  | Changed _ q => conn q = Some c
  end.

Fixpoint accounted (log : list entry) : Prop :=
  match log with
  | [] => True
  | e :: log =>
      match e with Called _ k x => match dialled k x with Some c => Exists (releases c) log | None => True end
      | Changed _ _ => True end
      ∧ accounted log
  end.

Lemma accounted_app l1 l2 : accounted l1 → accounted l2 → accounted (l1 ++ l2).
Proof.
  intros H1 H2. induction l1 as [|e l1 IH]; cbn; [done|]. destruct H1 as [He H1]. split; [|by apply IH].
  destruct e as [X q k x|]; [|done]. destruct (dialled k x); [|done]. apply Exists_app. by left.
Qed.

Lemma accounted_undialled {A} (p : qprog A) s log s' a : only still p → runs p s log s' a → accounted log.
Proof.
  intros Hp Hr. pose proof (run_only moved possible _ p s log s' a Hp Hr) as Hl. clear Hr.
  induction Hl as [|e log (_ & _ & He) _ IH]; [done|]. split; [|done].
  destruct e as [X q k x|]; [|done]. by destruct k.
Qed.

(** A run of [closeConnection] ends by closing the connection, if it is open. *)
Lemma closeConnection_releases ctx c s log s' r :
  runs (closeConnection ctx (Some c)) s log s' r → Exists (releases c) log.
Proof.
  intros H. unfold closeConnection in H. qstep H. destruct a; [by left|].
  do 5 (qstep H; apply Exists_app; right). by left.
Qed.

(** Released before anything else may happen. *)
Definition accounted_but (c : Conn) (log : list entry) : Prop :=
  ∀ rest, Exists (releases c) rest → accounted rest → accounted (log ++ rest).

Lemma accounted_but_app c l1 l2 : accounted l1 → accounted_but c l2 → accounted_but c (l1 ++ l2).
Proof. intros H1 H2 rest Hr Ha. rewrite <- app_assoc. apply accounted_app; [done|]. by apply H2. Qed.
Lemma accounted_but_tail c l1 l2 : accounted_but c l1 → accounted l2 → accounted_but c (l1 ++ l2).
Proof.
  intros H1 H2 rest Hr Ha. rewrite <- app_assoc. apply H1; [|by apply accounted_app]. apply Exists_app. by right.
Qed.
Lemma accounted_but_released c l1 l2 : accounted_but c l1 → accounted l2 → Exists (releases c) l2 → accounted (l1 ++ l2).
Proof. intros H1 H2 Hr. by apply H1. Qed.

Lemma dial_accounted ctx u t1 t2 s log s' r :
  runs (dialRabbitMQ ctx u t1 t2) s log s' r →
  match r with Ok c => accounted_but c log | Err _ => accounted log end.
Proof.
  intros H. unfold dialRabbitMQ in H. qstep H. destruct a as [port|e]; [|qstep H; by subst r].
  destruct (_ || _); [qstep H; by subst r|]. qstep H. destruct r as [c|e]; [|done]. intros rest Hr Ha. by split.
Qed.

(** What comes between a dial and the release. *)
Lemma accounted_close c l0 l1 ctx s log s' r :
  accounted_but c l0 → accounted l1 → runs (closeConnection ctx (Some c)) s log s' r → accounted (l0 ++ l1 ++ log).
Proof.
  intros H0 H1 Hr. apply H0.
  - apply Exists_app. right. by eapply closeConnection_releases.
  - apply accounted_app; [done|]. eapply accounted_undialled; [apply closeConnection_still|exact Hr].
Qed.

Lemma runRabbitMQOperation_accounted {A} ctx c (p : qprog (res QErr A)) s log s' r :
  (∀ t l t' r, runs p t l t' r → accounted l) → runs (runRabbitMQOperation ctx c p) s log s' r → accounted log.
Proof.
  intros Hp H. unfold runRabbitMQOperation in H.
  apply run_try_bind in H as [(e & H & _)|(l1 & t1 & [] & l2 & H1 & H & ->)].
  { eapply accounted_undialled; [apply check_ctx_still|exact H]. }
  apply accounted_app; [eapply accounted_undialled; [apply check_ctx_still|exact H1]|].
  qstep H. cbn [app accounted dialled]. split; [done|]. destruct a as [|e|]; [by eapply Hp| |by qstep H].
  qstep H. qstep H. rewrite app_nil_r. eapply accounted_undialled; [apply invalidateConnection_still|exact Hrun].
Qed.

(** The lock's connection is the only one a successful acquisition leaves open. *)
Lemma lock_loop_accounted n ctx s log s' r :
  runs (lock_loop n ctx) s log s' r →
  match r with Ok c => accounted_but c log | Err _ => accounted log end.
Proof.
  revert s log. induction n as [|n IH]; intros s log H; cbn [lock_loop] in H; [done|].
  qstep H. apply run_try_bind in H as [(e & H & ->)|(ld & t1 & c & l2 & Hdial & H & ->)].
  { apply dial_accounted in H. by apply (accounted_app [_]). }
  apply dial_accounted in Hdial. qstep H.
  assert (accounted log) as Hop.
  { eapply runRabbitMQOperation_accounted; [|exact Hrun]. clear. intros t l t' r H. eapply accounted_undialled; [|exact H].
    only_walk. }
  destruct a as [|e].
  - qstep H. subst r. apply (accounted_but_app _ [_]); [done|].
    apply (accounted_but_tail c ld); [done|by rewrite app_nil_r].
  - qstep H. assert (∀ l, accounted l → accounted (ld ++ log ++ log1 ++ l)) as Hall.
    { intros l Hl. rewrite !app_assoc. apply accounted_app; [|done]. rewrite <- app_assoc.
      eapply (accounted_close c ld); [done|done|exact Hrun0]. }
    case_bool_decide as Hlocked; [|qstep H; subst r; by apply (accounted_app [_]); [|apply Hall]].
    apply run_try_bind in H as [(e' & H & ->)|(l3 & t3 & [] & l4 & H3 & H & ->)].
    { apply (accounted_app [_]); [done|]. apply Hall. eapply accounted_undialled; [apply waitForReconnect_still|exact H]. }
    assert (accounted l3) as H3' by (eapply accounted_undialled; [apply waitForReconnect_still|exact H3]).
    apply IH in H. destruct r as [c'|e'].
    + intros rest Hr Ha. specialize (H rest Hr Ha). rewrite <- !app_assoc. apply (accounted_app [_]); [done|].
      apply Hall. by apply accounted_app.
    + apply (accounted_app [_]); [done|]. apply Hall. by apply accounted_app.
Qed.

(** Every run of the program accounts for what it dialled. *)
Definition accounting {A} (p : qprog A) : Prop := ∀ s log s' a, runs p s log s' a → accounted log.

Lemma still_accounting {A} (p : qprog A) : only still p → accounting p.
Proof. intros Hp s log s' a Hr. by eapply accounted_undialled. Qed.
Lemma bind_accounting {A B} (p : qprog A) (f : A → qprog B) :
  accounting p → (∀ a, accounting (f a)) → accounting (bind p f).
Proof. intros Hp Hf s log s' b (l1 & s1 & a & l2 & H1 & H2 & ->)%run_bind. apply accounted_app; [by eapply Hp|by eapply Hf]. Qed.
Lemma try_bind_accounting {E A B} (p : qprog (res E A)) (f : A → qprog (res E B)) :
  accounting p → (∀ a, accounting (f a)) → accounting (try_bind p f).
Proof. intros Hp Hf. apply bind_accounting; [done|]. intros [a|e]; [apply Hf|]. by intros s log s' r (-> & _). Qed.
Lemma deferring_accounting {A B} (q : qprog B) (p : qprog A) : accounting p → accounting q → accounting (deferring q p).
Proof.
  intros Hp Hq. apply bind_accounting; [done|]. intros a. apply bind_accounting; [done|]. intros b.
  by intros s log s' r (-> & _).
Qed.
Lemma runRabbitMQOperation_accounting {A} ctx c (p : qprog (res QErr A)) :
  accounting p → accounting (runRabbitMQOperation ctx c p).
Proof. intros Hp s log s' r. by apply runRabbitMQOperation_accounted. Qed.

Ltac accounting_step :=
  lazymatch goal with
  | |- accounting (match ?x with _ => _ end) => destruct x
  | |- accounting (bind _ _) => apply bind_accounting; [|intros]
  | |- accounting (try_bind _ _) => apply try_bind_accounting; [|intros]
  | |- accounting (deferring _ _) => apply deferring_accounting
  | |- accounting (runRabbitMQOperation _ _ _) => apply runRabbitMQOperation_accounting
  end.
Ltac accounting_walk :=
  repeat first [solve [eauto 4 with rabbit_methods nocore] | solve [apply still_accounting; only_walk] | accounting_step].

Lemma repair_locked_accounting fuel ctx c name : accounting (repair_locked fuel ctx c name).
Proof. apply still_accounting. unfold repair_locked. only_walk. Qed.

Lemma repairUnbounded_accounting fuel ctx c : accounting (repairTopologyOnConnectionUnbounded fuel ctx c).
Proof.
  unfold repairTopologyOnConnectionUnbounded. do 2 (accounting_step; [accounting_walk|]).
  accounting_step; [accounting_walk|]. accounting_step; [accounting_walk|].
  accounting_step; [accounting_walk|]. accounting_step; [accounting_walk|].
  intros s log s' r [(e' & H & _)|(l1 & s1 & lock & l2 & H1 & H & ->)]%run_try_bind.
  { apply (lock_loop_accounted _ _ _ _ _ _ H). }
  apply lock_loop_accounted in H1.
  change (runs (deferring (closeConnection ctx (Some lock)) (repair_locked fuel ctx c a)) s1 l2 s' r) in H.
  qstep H. eapply accounted_close; [exact H1|by eapply repair_locked_accounting|exact Hlast].
Qed.
#[export] Hint Resolve repairUnbounded_accounting : rabbit_methods.

Lemma openTopologyChannel_accounting fuel ctx c : accounting (openTopologyChannel fuel ctx c).
Proof. unfold openTopologyChannel, repairTopologyOnConnection. accounting_walk. Qed.
Lemma repairTopology_accounting fuel ctx : accounting (repairTopology fuel ctx).
Proof. unfold repairTopology, repairTopologyOnConnection. accounting_walk. Qed.
#[export] Hint Resolve openTopologyChannel_accounting repairTopology_accounting : rabbit_methods.

(** Every run releases the connection. *)
Definition settling (c : Conn) {A} (p : qprog A) : Prop :=
  ∀ s log s' a, runs p s log s' a → accounted log ∧ Exists (releases c) log.

Lemma settling_close ctx c : settling c (closeConnection ctx (Some c)).
Proof.
  intros s log s' r H. split; [|by eapply closeConnection_releases].
  eapply accounted_undialled; [apply closeConnection_still|exact H].
Qed.
Lemma settling_first c {A B} (p : qprog A) (f : A → qprog B) :
  settling c p → (∀ a, accounting (f a)) → settling c (bind p f).
Proof.
  intros Hp Hf s log s' b (l1 & s1 & a & l2 & H1 & H2 & ->)%run_bind. apply Hp in H1 as [H1 He]. apply Hf in H2.
  split; [by apply accounted_app|]. apply Exists_app. by left.
Qed.
Lemma settling_then c {A B} (p : qprog A) (f : A → qprog B) :
  accounting p → (∀ a, settling c (f a)) → settling c (bind p f).
Proof.
  intros Hp Hf s log s' b (l1 & s1 & a & l2 & H1 & H2 & ->)%run_bind. apply Hp in H1. apply Hf in H2 as [H2 He].
  split; [by apply accounted_app|]. apply Exists_app. by right.
Qed.
Lemma dial_accounting ctx u t1 t2 {A} (f : Conn → qprog (res QErr A)) :
  (∀ c, settling c (f c)) → accounting (let? c := dialRabbitMQ ctx u t1 t2 in f c).
Proof.
  intros Hf s log s' r [(e & H & _)|(l1 & s1 & c & l2 & H1 & H & ->)]%run_try_bind; [by apply dial_accounted in H|].
  apply dial_accounted in H1. apply Hf in H as [H He]. by apply H1.
Qed.

Lemma install_settling c ch ctx :
  settling c (let* installed := locked (install c ch) in
              match installed with
              | None => do* closeConnection ctx (Some c) in fail QCanceled
              | Some (Some old) => do* (if bool_decide (old = c) then ok tt else closeConnection ctx (Some old)) in ok tt
              | Some None => ok tt
              end).
Proof.
  intros s log s' r H. qstep H. destruct (install c ch q) as [q1 [installed|]] eqn:Hi; cbn [fst snd] in H.
  - assert (Exists (releases c) [Changed q q1]) as He.
    { left. unfold install in Hi. destruct (rclosed q); simplify_eq. done. }
    split; [|apply Exists_app; by left]. apply (accounted_app [_]); [done|].
    revert H. match goal with |- runs ?p _ _ _ _ → _ => assert (accounting p) as Hp by accounting_walk end. apply Hp.
  - eapply (settling_first c) in H as [H He]; [|apply settling_close|intros; apply still_accounting; only_walk].
    split; [done|]. apply Exists_app. by right.
Qed.

Lemma connectOnce_accounting fuel ctx : accounting (connectOnce fuel ctx).
Proof.
  unfold connectOnce. accounting_step; [accounting_walk|]. apply deferring_accounting; [|accounting_walk].
  do 4 (accounting_step; [accounting_walk|]). accounting_step; [accounting_walk|].
  apply dial_accounting. intros c. apply settling_then; [accounting_walk|]. intros [ch|e].
  2:{ apply settling_first; [apply settling_close|intros; apply still_accounting; only_walk]. }
  apply settling_then; [accounting_walk|]. intros [_|e]; [apply install_settling|].
  apply settling_first; [apply settling_close|intros; apply still_accounting; only_walk].
Qed.
#[export] Hint Resolve connectOnce_accounting : rabbit_methods.

Lemma connect_loop_accounting fuel n ctx a : accounting (connect_loop fuel n ctx a).
Proof. revert a. induction n; intros a; cbn [connect_loop]; accounting_walk. Qed.
#[export] Hint Resolve connect_loop_accounting : rabbit_methods.
Lemma ensureConnected_accounting fuel ctx : accounting (ensureConnected fuel ctx).
Proof. unfold ensureConnected. accounting_walk. Qed.
#[export] Hint Resolve ensureConnected_accounting : rabbit_methods.
Lemma pingConnection_accounting fuel ctx c : accounting (pingConnection fuel ctx c).
Proof. unfold pingConnection, repair_after. accounting_walk. Qed.
#[export] Hint Resolve pingConnection_accounting : rabbit_methods.
Lemma Ping_accounting fuel ctx : accounting (Ping fuel ctx).
Proof. unfold Ping. accounting_walk. Qed.

(** ** No write without a deadline *)

(** The deadlines the library set since the dial. *)
Definition wire (now : Time) (ctxDeadline : option Time) (ct wt : Z) (deadlines : list Time) : rabbitMQDeadlineConn :=
  foldl (λ c d, conn_SetDeadline d c) (dialled_conn now ctxDeadline ct wt) deadlines.

Lemma wire_snoc now cd ct wt ds d : wire now cd ct wt (ds ++ [d]) = conn_SetDeadline d (wire now cd ct wt ds).
Proof. unfold wire. by rewrite foldl_snoc. Qed.

Definition dial_deadline (now : Time) (ctxDeadline : option Time) (ct : Z) : Time :=
  match ctxDeadline with Some d => Z.min d (now + ct) | None => now + ct end.

Lemma wire_state now cd ct wt ds : dial_deadline now cd ct ≠ 0 →
  let c := wire now cd ct wt ds in
  writeTimeout c = wt
  ∧ (established c = false → 0 ∉ ds ∧ handshakeDeadline c = List.last ds (dial_deadline now cd ct) ∧ handshakeDeadline c ≠ 0)
  ∧ (established c = true → 0 ∈ ds ∧ explicitDeadline c = List.last ds 0).
Proof.
  intros Hd. induction ds as [|d ds IH] using rev_ind.
  - assert (dialled_conn now cd ct wt = mkDeadlineConn wt (dial_deadline now cd ct) time_zero false) as Heq.
    { unfold dialled_conn, dial_deadline, AddDur, Before in *.
      assert ((match cd with Some d => if d <? now + ct then d else now + ct | None => now + ct end)
        = (match cd with Some d => Z.min d (now + ct) | None => now + ct end)) as ->.
      { destruct cd as [d|]; [|done]. destruct (Z.ltb_spec d (now + ct)); lia. }
      unfold conn_SetDeadline, IsZero. apply Z.eqb_neq in Hd. by rewrite Hd. }
    unfold wire. cbn. rewrite Heq. cbn. split; [done|]. split; [|done]. intros _. split; [apply not_elem_of_nil|]. done.
  - rewrite wire_snoc. destruct IH as (Hw & Hf & Ht). cbn zeta. unfold conn_SetDeadline, IsZero.
    rewrite !List.last_last. destruct (Z.eqb_spec d 0) as [->|Hd0]; cbn.
    { split; [done|]. split; [done|]. intros _. split; [|done]. apply elem_of_app. right. by left. }
    destruct (established (wire now cd ct wt ds)) eqn:He; cbn.
    + split; [done|]. split; [done|]. intros _. destruct (Ht eq_refl) as [H0 _]. split; [|done]. apply elem_of_app. by left.
    + split; [done|]. split; [|done]. intros _. destruct (Hf eq_refl) as (H0 & _). split; [|done].
      rewrite elem_of_app, list_elem_of_singleton. intros [?|?]; [done|congruence].
Qed.

(** No write to the broker can block for good: during the handshake it is
    bounded by the last deadline set, which dialling makes the earlier of the
    context's and the connect timeout; once the library has cleared the
    deadline that ends the handshake, each write has its own bound of the
    publish timeout, shortened by the deadline of a close in progress. *)
Lemma rabbit_writes_bounded now0 cd ct wt ds now :
  dial_deadline now0 cd ct ≠ 0 → 0 < now + wt →
  ∃ d, conn_Write now (wire now0 cd ct wt ds) = Some d
  ∧ (0 ∉ ds → d = List.last ds (dial_deadline now0 cd ct))
  ∧ (0 ∈ ds → d <= now + wt ∧ (0 < List.last ds 0 → d <= List.last ds 0)).
Proof.
  intros Hd Hnow. destruct (wire_state now0 cd ct wt ds Hd) as (Hw & Hf & Ht). unfold conn_Write, AddDur, IsZero, Before.
  destruct (established (wire now0 cd ct wt ds)) eqn:He.
  - destruct (Ht eq_refl) as [H0 Hx]. rewrite Hw, Hx. destruct (Z.eqb_spec (List.last ds 0) 0) as [Hz|Hz]; cbn [negb andb].
    + destruct (Z.eqb_spec (now + wt) 0); [lia|]. eexists. split; [done|]. split; [done|]. intros _. lia.
    + destruct (Z.ltb_spec (List.last ds 0) (now + wt)); [rewrite (proj2 (Z.eqb_neq _ _) Hz)|rewrite (proj2 (Z.eqb_neq (now + wt) 0)) by lia];
        (eexists; split; [done|]; split; [done|]; intros _; lia).
  - destruct (Hf eq_refl) as (H0 & Hh & Hn). rewrite Hh in *. apply Z.eqb_neq in Hn. rewrite Hn. eexists. by split.
Qed.

Lemma rabbit_writes_bounded_witness :
  ∃ d, conn_Write (sample_now + Second) (wire sample_now None (10 * Second) (5 * Second) [time_zero]) = Some d
  ∧ d <= sample_now + 6 * Second.
Proof.
  destruct (rabbit_writes_bounded sample_now None (10 * Second) (5 * Second) [time_zero] (sample_now + Second)) as (d & Hd & _ & H).
  - by vm_compute.
  - by vm_compute.
  - exists d. split; [exact Hd|]. destruct (H (list_elem_of_here _ _)) as [Hle _]. unfold sample_now, Second in *. lia.
Defined.
