(* ===== verification/RabbitDelivery.v ===== *)
(** * What the RabbitMQ queue promises about messages

    A message is published once the broker has confirmed it and did not return
    it.  A delivery is settled once: acknowledged after the next attempt was
    published, rejected to dead letters that are there, or sent back to the
    queue.  The consumer hands over, or settles, each arrival before the next. *)

From stdpp Require Import base list gmap strings.
From Stdlib Require Import ZArith Lia Ascii.
From S2P Require Import Prelude GoNum GoStrings NetworkPolicy Egress Domain Backoff Queue Shared Rabbit RabbitPublish RabbitSample RabbitSpec.
#[local] Open Scope string_scope.
#[local] Open Scope list_scope.
#[local] Open Scope Z_scope.
#[local] Open Scope shared_scope.
#[local] Abbreviation entry := (Shared.entry RabbitMQQueue acall).
#[local] Abbreviation runs := (run moved possible).

#[local] Arguments drop_session : simpl never.
#[local] Arguments record_loss : simpl never.
#[local] Arguments mark_recovered : simpl never.
#[local] Arguments install : simpl never.

(** ** Every method moves the state *)

Lemma only_calm_busy {A} (p : qprog A) : only calm p → only busy p.
Proof. apply only_mono, calm_busy. Qed.
#[export] Hint Extern 4 (only busy _) => apply only_calm_busy : rabbit_methods.
#[export] Hint Resolve Ping_calm Close_still SetTopologyLossHandler_still : rabbit_methods.

#[local] Abbreviation busily := (only busy).

Section busy.
Context `{JS : !Json}.

Lemma confirm_loop_busy n ctx ch b o : busily (confirm_loop n ctx ch b o).
Proof. revert b o. induction n; intros b o; cbn [confirm_loop]; only_walk. Qed.
#[local] Hint Resolve confirm_loop_busy : rabbit_methods.
Lemma publish_once_busy n ctx session ch job body : busily (publish_once n ctx session ch job body).
Proof. unfold publish_once, waitForPublishConfirmation. only_walk. Qed.
#[local] Hint Resolve publish_once_busy : rabbit_methods.
Lemma publish_loop_busy fuel n ctx job body a r : busily (publish_loop fuel n ctx job body a r).
Proof. revert a r. induction n; intros a r; cbn [publish_loop]; [exact I|]. unfold publishSession. only_walk. Qed.
#[local] Hint Resolve publish_loop_busy : rabbit_methods.
Lemma rabbit_Publish_busy fuel ctx job : busily (rabbit_Publish fuel ctx job).
Proof. unfold rabbit_Publish. only_walk. Qed.
End busy.
#[export] Hint Resolve confirm_loop_busy publish_once_busy publish_loop_busy rabbit_Publish_busy : rabbit_methods.

#[local] Abbreviation moving := (only section_moves).

Lemma only_busy_moves {A} (p : qprog A) : busily p → moving p.
Proof. apply only_mono, busy_moves. Qed.
#[export] Hint Extern 4 (only section_moves _) => apply only_busy_moves : rabbit_methods.

Ltac moving_walk := only_steps; try (intros; exact I); try (intros; cbn; eauto with rabbit).

Section moves.
Context `{JS : !Json}.

Lemma deadLetter_moves fuel ctx d : moving (deadLetter fuel ctx d).
Proof. unfold deadLetter. moving_walk. Qed.
#[local] Hint Resolve deadLetter_moves : rabbit_methods.
Lemma delivery_Nack_moves fuel ctx d job rq : moving (delivery_Nack fuel ctx d job rq).
Proof. unfold delivery_Nack. moving_walk. Qed.
Lemma deliver_loop_moves fuel n ctx ch : moving (deliver_loop fuel n ctx ch).
Proof. induction n; cbn [deliver_loop]; moving_walk. Qed.
#[local] Hint Resolve deliver_loop_moves : rabbit_methods.
Lemma consumeSession_moves fuel ctx : moving (consumeSession fuel ctx).
Proof. unfold consumeSession, end_session. moving_walk. Qed.
#[local] Hint Resolve consumeSession_moves : rabbit_methods.
Lemma consume_loop_moves fuel n ctx a : moving (consume_loop fuel n ctx a).
Proof. revert a. induction n; intros a; cbn [consume_loop]; moving_walk. Qed.

Lemma rabbit_do_moves fuel ctx op : moving (rabbit_do fuel ctx op).
Proof.
  pose proof consume_loop_moves. pose proof delivery_Nack_moves. pose proof isClosed_still.
  destruct op; cbn [rabbit_do]; unfold Consume, delivery_Ack, delivery_Requeue; moving_walk.
Qed.
End moves.

(** ** The shared state

    What survives a wrap of the generation counter, too. *)
Record kept (q q' : RabbitMQQueue) : Prop := {
  kp_settings : settings q' = settings q;
  kp_closed : rclosed q = true → rclosed q' = true;
  kp_session : session_ok q → session_ok q';
  kp_handler : is_Some (topologyLossHandler q) → is_Some (topologyLossHandler q');
}.
#[export] Instance kept_preorder : PreOrder kept.
Proof. split; [by intros q; split|]. intros q1 q2 q3 [] []. split; [congruence|auto|auto|auto]. Qed.

Lemma moved_kept q q' : moved q q' → kept q q'.
Proof. by intros []. Qed.
Lemma section_kept e : section_moves e → within kept e.
Proof. destruct e as [|q q']; [done|]. intros [Hm| ->]; [by apply moved_kept|]. by split. Qed.

(** C16: Whatever the queue's operations do while others use it too, the state
    stays consistent: a connection comes with its channel and all of that
    channel's notifications, or there is none; the settings do not change; a
    closed queue stays closed and without a connection, however late a dial
    succeeds. *)
Theorem rabbit_state_kept `{JS : !Json} fuel ctx op q log q' r :
  runs (rabbit_do fuel ctx op) q log q' r → session_ok q →
  session_ok q' ∧ settings q' = settings q
  ∧ (rclosed q = true → rclosed q' = true ∧ conn q' = None ∧ channel q' = None)
  ∧ Forall (λ e, session_ok (state_of e)) log.
Proof.
  intros Hr Hok. assert (only (within kept) (rabbit_do fuel ctx op)) as Hp.
  { eapply only_mono; [apply section_kept|apply rabbit_do_moves]. }
  assert (kept q q') as [Hs Hc Hq _] by (eapply (run_within moved possible kept); [apply moved_kept|exact Hp|exact Hr]).
  split; [by apply Hq|]. split; [done|]. split.
  - intros Hcl%Hc. split; [done|]. destruct (Hq Hok) as (_ & _ & _ & Hiff & Hnone). specialize (Hnone Hcl). tauto.
  - eapply Forall_impl; [eapply (run_states moved possible kept); [apply moved_kept|exact Hp|exact Hr]|].
    intros e [_ _ He _]. by apply He.
Qed.

(** Closing a connected queue. *)
Lemma rabbit_state_kept_witness :
  ∃ log q' r, session_ok q' ∧ settings q' = settings sample_rabbit ∧ runs (rabbit_do 5 Caller OpClose) sample_rabbit log q' r.
Proof.
  destruct (sample_runs moved false (rabbit_do 5 Caller OpClose) sample_rabbit (λ _ _ r, succeeded r)) as (log & q' & r & Hr & _);
    [vm_compute; reflexivity|].
  exists log, q', r. destruct (rabbit_state_kept 5 Caller OpClose sample_rabbit log q' r Hr) as (H1 & H2 & _); [|done].
  by vm_compute.
Defined.

(** ** Connections *)

(** Publishing and settling dial only through [ensureConnected] and repairs. *)
Lemma undialled_accounting {A} (p : qprog A) : only undialled p → accounting p.
Proof.
  intros Hp s log s' a Hr. pose proof (run_only moved possible _ p s log s' a Hp Hr) as Hl. clear Hr.
  induction Hl as [|e log He _ IH]; [done|]. split; [|done]. destruct e as [X q k x|]; [|done]. by destruct k.
Qed.

Ltac dial_walk :=
  repeat first [solve [eauto 4 with rabbit_methods nocore] | solve [apply still_accounting; only_walk]
               | solve [apply undialled_accounting; only_steps; intros; exact I] | accounting_step].
#[export] Hint Resolve Ping_accounting : rabbit_methods.

Section accounting.
Context `{JS : !Json}.

Lemma publish_once_accounting n ctx session ch job body : accounting (publish_once n ctx session ch job body).
Proof.
  apply undialled_accounting. unfold publish_once, waitForPublishConfirmation.
  assert (∀ m b o c, only undialled (confirm_loop m ctx c b o)) as Hloop.
  { intros m. induction m; intros b o c; cbn [confirm_loop]; only_steps; try (intros; exact I). }
  only_steps; try (intros; exact I); apply Hloop.
Qed.
#[local] Hint Resolve publish_once_accounting : rabbit_methods.
Lemma publish_loop_accounting fuel n ctx job body a r : accounting (publish_loop fuel n ctx job body a r).
Proof.
  revert a r. induction n; intros a r; cbn [publish_loop]; [by intros ????|]. unfold publishSession, wrapping. dial_walk.
Qed.
#[local] Hint Resolve publish_loop_accounting : rabbit_methods.
Lemma rabbit_Publish_accounting fuel ctx job : accounting (rabbit_Publish fuel ctx job).
Proof. unfold rabbit_Publish. dial_walk. Qed.
#[local] Hint Resolve rabbit_Publish_accounting : rabbit_methods.
Lemma deadLetter_accounting fuel ctx d : accounting (deadLetter fuel ctx d).
Proof. unfold deadLetter. dial_walk. Qed.
#[local] Hint Resolve deadLetter_accounting : rabbit_methods.
Lemma deliver_loop_accounting fuel n ctx ch : accounting (deliver_loop fuel n ctx ch).
Proof. induction n; cbn [deliver_loop]; [by intros ????|]. unfold wrapping. dial_walk. Qed.
#[local] Hint Resolve deliver_loop_accounting : rabbit_methods.
Lemma consumeSession_accounting fuel ctx : accounting (consumeSession fuel ctx).
Proof. unfold consumeSession, end_session. dial_walk. Qed.
#[local] Hint Resolve consumeSession_accounting : rabbit_methods.
Lemma consume_loop_accounting fuel n ctx a : accounting (consume_loop fuel n ctx a).
Proof. revert a. induction n; intros a; cbn [consume_loop]; [by intros ????|]. dial_walk. Qed.
#[local] Hint Resolve consume_loop_accounting : rabbit_methods.

(** C15: No operation leaks a connection: each one it dials is later closed,
    found closed, or installed as the queue's, on every path, whatever fails
    and whether the queue was closed in the meantime. *)
Theorem rabbit_connections_accounted fuel ctx op q log q' r :
  runs (rabbit_do fuel ctx op) q log q' r → accounted log.
Proof.
  revert q log q' r. change (accounting (rabbit_do fuel ctx op)).
  destruct op; cbn [rabbit_do]; unfold Consume, delivery_Ack, delivery_Nack, delivery_Requeue; dial_walk.
Qed.
End accounting.

(** The first connection, for a message. *)
Lemma rabbit_connections_accounted_witness :
  ∃ log q' r, (succeeded r && bool_decide (is_Some (conn q')) = true) ∧ accounted log
  ∧ runs (rabbit_do 5 Caller (OpPublish sample_message)) unconnected_rabbit log q' r.
Proof.
  destruct (sample_runs moved true (rabbit_do 5 Caller (OpPublish sample_message)) unconnected_rabbit
    (λ _ q' r, succeeded r && bool_decide (is_Some (conn q')))) as (log & q' & r & Hr & Hf); [vm_compute; reflexivity|].
  exists log, q', r. split; [exact Hf|]. split; [|exact Hr].
  exact (rabbit_connections_accounted 5 Caller (OpPublish sample_message) unconnected_rabbit log q' r Hr).
Defined.

(** ** What success entails

    [P s log]: the log shows that something was done, as of a state that [s] was
    kept in.  It lasts while what follows satisfies [Q]. *)
Class Lasting (P : RabbitMQQueue → list entry → Prop) (Q : entry → Prop) := {
  lasting_before : ∀ s t l1 l2, kept s t → P t l2 → P s (l1 ++ l2);
  lasting_after : ∀ s l1 l2, P s l1 → Forall Q l2 → P s (l1 ++ l2);
}.

Definition ensures_at (P : RabbitMQQueue → list entry → Prop) (s : RabbitMQQueue) {A} (p : qprog (res QErr A)) : Prop :=
  ∀ log s' a, runs p s log s' (Ok a) → P s log.
Definition ensures (P : RabbitMQQueue → list entry → Prop) {A} (p : qprog (res QErr A)) : Prop := ∀ s, ensures_at P s p.

Lemma run_kept {A} (p : qprog A) s log s' a : only section_moves p → runs p s log s' a → kept s s'.
Proof.
  intros Hp. apply (run_within moved possible kept p); [apply moved_kept|]. eapply only_mono; [apply section_kept|exact Hp].
Qed.

Section ensures.
Context {P : RabbitMQQueue → list entry → Prop} {Q : entry → Prop} {L : Lasting P Q}.

Lemma ensures_fail {A} (e : QErr) : ensures P (@fail A e).
Proof. intros s log s' a (_ & _ & [=]). Qed.
Lemma ensures_fail_ctx {A} (e : GoError) : ensures P (@fail_ctx A e).
Proof. intros s log s' a (_ & _ & [=]). Qed.
Lemma ensures_then {A B} (p : qprog A) (f : A → qprog (res QErr B)) :
  only section_moves p → (∀ a, ensures P (f a)) → ensures P (bind p f).
Proof.
  intros Hp Hf s log s' b (l1 & s1 & a & l2 & H1 & H2 & ->)%run_bind.
  eapply lasting_before; [by eapply run_kept|by eapply Hf].
Qed.
(** After reading the state it goes on in. *)
Lemma ensures_read {X A} (g : RabbitMQQueue → X) (f : X → qprog (res QErr A)) :
  (∀ q, ensures_at P q (f (g q))) → ensures P (bind (read g) f).
Proof.
  intros Hf s log s' b (l1 & q & x & l2 & (HR & -> & ->)%run_read & H2 & ->)%run_bind.
  eapply lasting_before; [by apply moved_kept|by eapply Hf].
Qed.
Lemma ensures_try {A B} (p : qprog (res QErr A)) (f : A → qprog (res QErr B)) :
  only section_moves p → (∀ a, ensures P (f a)) → ensures P (try_bind p f).
Proof. intros Hp Hf. apply ensures_then; [done|]. intros [a|e]; [apply Hf|apply ensures_fail]. Qed.
(** Done by [p]. *)
Lemma ensures_result_at s {A B} (p : qprog (res QErr A)) (f : res QErr A → qprog (res QErr B)) :
  only section_moves p → ensures_at P s p → (∀ a, only Q (f (Ok a))) → (∀ e, ensures P (f (Err e))) → ensures_at P s (bind p f).
Proof.
  intros Hm Hp Hok Herr log s' b (l1 & s1 & [a|e] & l2 & H1 & H2 & ->)%run_bind.
  - eapply lasting_after; [by eapply Hp|]. by eapply run_only.
  - eapply lasting_before; [by eapply run_kept|by eapply Herr].
Qed.
Lemma ensures_result {A B} (p : qprog (res QErr A)) (f : res QErr A → qprog (res QErr B)) :
  only section_moves p → ensures P p → (∀ a, only Q (f (Ok a))) → (∀ e, ensures P (f (Err e))) → ensures P (bind p f).
Proof. intros Hm Hp Hok Herr s. by apply ensures_result_at. Qed.
Lemma ensures_first {A B} (p : qprog (res QErr A)) (f : A → qprog (res QErr B)) :
  only section_moves p → ensures P p → (∀ a, only Q (f a)) → ensures P (try_bind p f).
Proof. intros Hm Hp Hf. apply ensures_result; [done..|]. intros e. apply ensures_fail. Qed.
Lemma ensures_deferring_at s {A B} (q : qprog B) (p : qprog (res QErr A)) :
  ensures_at P s p → only Q q → ensures_at P s (deferring q p).
Proof.
  intros Hp Hq log s' a (l1 & s1 & l2 & b & H1 & H2 & ->)%run_deferring.
  eapply lasting_after; [by eapply Hp|]. by eapply run_only.
Qed.
Lemma ensures_deferring {A B} (q : qprog B) (p : qprog (res QErr A)) :
  ensures P p → only Q q → ensures P (deferring q p).
Proof. intros Hp Hq s. by apply ensures_deferring_at. Qed.
End ensures.

(** ** A published message was confirmed *)

(** The message came back. *)
Definition came_back (e : entry) : Prop :=
  match e with
  | Called _ k x =>
      match k in acall X return X → Prop with
      | AwaitConfirm _ _ _ => λ x, x = ReturnArrived
      | PollReturn _ => λ x, x = PolledReturn
      | _ => λ _, False
      end x
  | _ => False
  end.
Definition not_published (e : entry) : Prop :=
  match e with Called _ (PublishWithContext _ _ _ _ _) _ => False | _ => True end.

(** The channel of the returns was closed. *)
Definition returns_ended (ch : Chan) (e : entry) : Prop :=
  match e with
  | Called _ k x =>
      match k in acall X return X → Prop with AwaitConfirm _ _ c => λ x, c = ch ∧ x = ReturnsClosed | _ => λ _, False end x
  | _ => False
  end.
(** A message may have come back before the confirmation and wait unread: right
    after the confirmation the returns are asked, and there is none; unless their
    channel was found closed while waiting. *)
Definition drained (ch : Chan) (o : bool) (waiting after : list entry) : Prop :=
  if o then ∃ q p rest, after = Called q (PollReturn ch) p :: rest ∧ p ≠ PolledReturn else Exists (returns_ended ch) waiting.

(** The last message the log published went to the queue of [s], was confirmed
    on the channel it was published on and did not come back, not even unread. *)
Definition confirmed_publication (s : RabbitMQQueue) (job : CheckJobMessage) (body : string) (log : list entry) : Prop :=
  ∃ l1 q ctx ch l2 q' o l3,
    log = l1 ++ Called q (PublishWithContext ctx ch (queueName s) job body) (Ok tt) :: l2 ++ Called q' (AwaitConfirm ctx o ch) (Confirmed true) :: l3
    ∧ Forall (λ e, ¬ came_back e ∧ not_published e) (l2 ++ l3)
    ∧ (session_ok s → drained ch o l2 l3).

(** The returns that arrived before the confirmation. *)
Definition late_return (ch : Chan) (returned returnsOpen : bool) : qprog bool :=
  if negb returned && returnsOpen
  then let* p := perform (PollReturn ch) in Ret (match p with PolledReturn => true | _ => returned end)
  else Ret returned.

Lemma late_return_seen ch b o s log s' b' :
  runs (late_return ch b o) s log s' b' →
  if b' then b = true ∨ Exists came_back log
  else b = false ∧ Forall (λ e, ¬ came_back e ∧ not_published e) log
       ∧ (o = true → ∃ q p, log = [Called q (PollReturn ch) p] ∧ p ≠ PolledReturn).
Proof.
  unfold late_return. destruct (negb b && o) eqn:Hb.
  - apply andb_true_iff in Hb as [Hb%negb_true_iff _]. subst b. intros H. qstep H. qstep H. subst b'.
    destruct a; [right; by left| |]; (split; [done|]); (split; [repeat constructor; by intros [=]|]); by eexists _, _.
  - intros H. qstep H. subst b'. destruct b; [by left|]. split; [done|]. split; [done|]. intros ->. done.
Qed.

(** Once closed, the returns are not received from any more. *)
Lemma confirm_loop_closed n ctx ch b s log s' r :
  runs (confirm_loop n ctx ch b false) s log s' r →
  Forall (λ e, match e with Called _ (AwaitConfirm _ o _) _ => o = false | _ => True end) log.
Proof.
  revert b s log. induction n as [|n IH]; intros b s log H; cbn [confirm_loop] in H; [done|].
  qstep H. constructor; [done|]. destruct a; try (by qstep H).
  - by eapply IH.
  - by eapply IH.
  - destruct e; by qstep H.
  - fold (late_return ch b false) in H. qstep H. unfold late_return in Hrun. rewrite andb_false_r in Hrun. qstep Hrun.
    destruct ack, a; by qstep H.
Qed.

Lemma confirm_loop_confirmed n ctx ch b o s log s' :
  runs (confirm_loop n ctx ch b o) s log s' (Ok tt) →
  b = false ∧ ∃ l2 q' o' l3, log = l2 ++ Called q' (AwaitConfirm ctx o' ch) (Confirmed true) :: l3
  ∧ Forall (λ e, ¬ came_back e ∧ not_published e) (l2 ++ l3) ∧ (o = true → drained ch o' l2 l3).
Proof.
  revert b o s log. induction n as [|n IH]; intros b o s log H; cbn [confirm_loop] in H; [done|].
  qstep H. destruct a; try (by qstep H).
  - apply IH in H as [H _]. done.
  - apply confirm_loop_closed in H as Hc. apply IH in H as (-> & l2 & q' & o' & l3 & -> & Hall & _). split; [done|].
    eexists (_ :: l2), q', o', l3. split; [done|]. split; [constructor; [by split|done]|]. intros _.
    apply Forall_app in Hc as [_ [Hc _]%Forall_cons]. cbn in Hc. rewrite Hc. by left.
  - destruct e; by qstep H.
  - fold (late_return ch b o) in H. qstep H. apply late_return_seen in Hrun. destruct ack, a; try (by qstep H).
    qstep H. destruct Hrun as (-> & Hall & Hp). split; [done|]. eexists [], _, _, _. split; [done|].
    rewrite app_nil_r. split; [done|]. intros ->. destruct (Hp eq_refl) as (q & p & -> & Hne). by exists q, p, [].
Qed.

(** A message reported as returned did come back. *)
Lemma confirm_loop_returned n ctx ch b o s log s' e :
  runs (confirm_loop n ctx ch b o) s log s' (Err (QReturned e)) → b = true ∨ Exists came_back log.
Proof.
  revert b o s log. induction n as [|n IH]; intros b o s log H; cbn [confirm_loop] in H; [done|].
  qstep H. destruct a; try (by qstep H).
  - right. by left.
  - apply IH in H as [?|?]; [by left|right]. by right.
  - destruct e0; by qstep H.
  - fold (late_return ch b o) in H. qstep H. apply late_return_seen in Hrun.
    destruct ack, a; try (by qstep H); destruct Hrun as [?|?]; (try by left); right; right; apply Exists_app; by left.
Qed.

Section publish.
Context `{JS : !Json}.

(** Every message a log publishes has this body and goes to this queue. *)
Definition publishes (name : string) (job : CheckJobMessage) (body : string) (e : entry) : Prop :=
  match e with Called _ (PublishWithContext _ _ n j b) _ => n = name ∧ j = job ∧ b = body | _ => True end.

Lemma publish_once_confirmed fuel ctx session ch job body s log s' :
  runs (publish_once fuel ctx session ch job body) s log s' (Ok tt) → s_channel session = Some ch →
  (session_ok s → s_returns session = s_channel session) → confirmed_publication s job body log.
Proof.
  intros H Hch Hret. unfold publish_once, waitForPublishConfirmation in H. rewrite Hch in H. qstep H. qtry H.
  destruct (s_confirms session); [|by qstep H]. destruct (s_closed session); [|by qstep H].
  apply confirm_loop_confirmed in H as (_ & l2 & q' & o' & l3 & -> & Hall & Hd).
  assert (queueName s0 = queueName s) as Hn by (pose proof (mv_settings _ _ HR) as Hs; unfold settings in Hs; congruence).
  eexists [_], _, ctx, ch, l2, q', o', l3. destruct a. split; [by rewrite <- Hn|]. split; [done|].
  intros Hok. apply Hd. rewrite (Hret Hok), Hch. by apply bool_decide_eq_true_2.
Qed.

#[export] Instance confirmed_lasting job body :
  Lasting (λ s, confirmed_publication s job body) (λ e, ¬ came_back e ∧ not_published e).
Proof.
  split.
  - intros s t l1 l2 [Hs _ Hok _] (m1 & q & ctx & ch & m2 & q' & o & m3 & -> & Hall & Hd).
    assert (queueName t = queueName s) as -> by (unfold settings in Hs; congruence).
    exists (l1 ++ m1), q, ctx, ch, m2, q', o, m3. split; [by simplify_list_eq|]. split; [done|]. auto.
  - intros s l1 l2 (m1 & q & ctx & ch & m2 & q' & o & m3 & -> & Hall & Hd) H2.
    exists m1, q, ctx, ch, m2, q', o, (m3 ++ l2). split; [by simplify_list_eq|].
    split; [rewrite app_assoc; by apply Forall_app|]. intros Hok. specialize (Hd Hok). unfold drained in *. destruct o; [|done].
    destruct Hd as (q1 & p & rest & -> & Hp). by exists q1, p, (rest ++ l2).
Qed.

Lemma publish_loop_confirmed fuel n ctx job body a r :
  ensures (λ s, confirmed_publication s job body) (publish_loop fuel n ctx job body a r).
Proof.
  revert a r. induction n as [|n IH]; intros a r; cbn [publish_loop]; [by intros ????|].
  apply ensures_try; [moving_walk|intros _]. apply ensures_try; [unfold wrapping; moving_walk|intros _].
  apply ensures_then; [moving_walk|intros _]. apply ensures_read. intros q. set (session := mkSession _ _ _ _).
  destruct (s_channel session) as [ch|] eqn:Hch; [|apply ensures_then; [moving_walk|intros; apply IH]].
  apply (ensures_result_at (Q := λ e, ¬ came_back e ∧ not_published e)).
  - moving_walk.
  - apply (ensures_deferring_at (Q := λ e, ¬ came_back e ∧ not_published e)).
    + intros log s' [] H. eapply publish_once_confirmed; [exact H|done|]. intros (_ & Hr & _). exact Hr.
    + only_walk.
  - done.
  - intros err.
    match goal with |- context [do* invalidatePublishChannel ?c ?o in ?rest] =>
      assert (ensures (λ s, confirmed_publication s job body) (do* invalidatePublishChannel c o in rest)) as Hgive end.
    { apply ensures_then; [moving_walk|intros _]. apply ensures_try; [moving_walk|intros _].
      apply ensures_then; [moving_walk|intros delay]. apply ensures_try; [moving_walk|intros _]. apply IH. }
    destruct (is_returned err); [|exact Hgive]. destruct r; [apply ensures_fail|].
    apply ensures_then; [moving_walk|]. intros [_|e]; [apply IH|exact Hgive].
Qed.

Lemma Publish_confirmed fuel ctx job s log s' :
  runs (rabbit_Publish fuel ctx job) s log s' (Ok tt) →
  ∃ clk1 clk2 body, json_Marshal (prepared job clk1 clk2) = Ok body
  ∧ confirmed_publication s (prepared job clk1 clk2) body log.
Proof.
  intros H. unfold rabbit_Publish in H. qstep H. qstep H. rename a into clk1, a0 into clk2.
  destruct (json_Marshal (prepared job clk1 clk2)) as [body|e] eqn:Hbody; [|by qstep H].
  exists clk1, clk2, body. split; [done|]. qstep H. apply publish_loop_confirmed in H. revert H.
  apply (lasting_before (P := λ s, confirmed_publication s _ body) s s2 [_; _; _]). apply moved_kept.
  etrans; [exact HR|]. by etrans.
Qed.

(** C12: [Publish] returns nil only when the broker has the message: the last
    message it sent went to the queue, was confirmed with an ack on the channel
    it was sent on, and did not come back: no return of it was read and, on a
    consistent session, the returns were polled right after the ack and none was
    waiting (or their channel had been found closed); and its body is the message
    with its defaults, marshalled. *)
Theorem rabbit_publish_confirmed fuel ctx job s log s' :
  runs (rabbit_Publish fuel ctx job) s log s' (Ok tt) →
  ∃ clk1 clk2 body, json_Marshal (prepared job clk1 clk2) = Ok body
  ∧ confirmed_publication s (prepared job clk1 clk2) body log.
Proof. apply Publish_confirmed. Qed.
End publish.

Lemma rabbit_publish_confirmed_witness :
  ∃ log q' clk1 clk2 body, runs (rabbit_Publish 5 Caller sample_message) sample_rabbit log q' (Ok tt)
  ∧ confirmed_publication sample_rabbit (prepared sample_message clk1 clk2) body log.
Proof.
  destruct (sample_runs moved false (rabbit_Publish 5 Caller sample_message) sample_rabbit (λ _ _ r, succeeded r))
    as (log & q' & r & Hr & Hf); [vm_compute; reflexivity|]. destruct r as [[]|e]; [|discriminate].
  destruct (rabbit_publish_confirmed 5 Caller sample_message sample_rabbit log q' Hr) as (clk1 & clk2 & body & _ & Hc).
  exists log, q', clk1, clk2, body. by split.
Defined.

(** ** The dead letters are there *)

Definition dead_letters_bound (name : string) (log : list entry) : Prop :=
  ∃ q ch, Called q (QueueBind ch name name dlx) (Ok tt) ∈ log.
#[local] Abbreviation bound := (λ s, dead_letters_bound (dlqName s)).

#[export] Instance bound_lasting : Lasting bound (λ _, True).
Proof.
  split.
  - intros s t l1 l2 [Hs _ _ _] (q & ch & He). assert (dlqName t = dlqName s) as <- by (unfold settings in Hs; congruence).
    exists q, ch. apply elem_of_app. by right.
  - intros s l1 l2 (q & ch & He) _. exists q, ch. apply elem_of_app. by left.
Qed.

Lemma only_any {A} (p : qprog A) : only (λ _, True) p.
Proof. induction p; by cbn; eauto. Qed.
#[export] Hint Resolve only_any : rabbit_methods.

Ltac ensures_step :=
  lazymatch goal with
  | |- ensures _ (match ?x with _ => _ end) => destruct x
  | |- ensures _ (fail _) => apply ensures_fail
  | |- ensures _ (Ret (Err _)) => apply ensures_fail
  | |- ensures _ (fail_ctx _) => apply ensures_fail_ctx
  | |- ensures _ (deferring _ _) => apply (ensures_deferring (Q := λ _, True)); [|apply only_any]
  end.

Lemma bind_ensures_bound ch : ensures bound (bindDeadLetterQueue ch).
Proof.
  intros s log s' [] H. unfold bindDeadLetterQueue in H. qstep H. qstep H. exists s', ch.
  assert (dlqName s0 = dlqName s) as -> by (pose proof (mv_settings _ _ HR) as Hs; unfold settings in Hs; congruence).
  right. left.
Qed.
Lemma deadLetterTopology_ensures_bound ch : ensures bound (declareDeadLetterTopology ch).
Proof.
  unfold declareDeadLetterTopology. apply ensures_try; [moving_walk|intros _]. apply ensures_then; [moving_walk|intros dlq].
  apply ensures_try; [moving_walk|intros _]. apply bind_ensures_bound.
Qed.
Lemma declareTopology_ensures_bound ch : ensures bound (declareTopology ch).
Proof.
  unfold declareTopology. apply (ensures_first (Q := λ _, True)); [moving_walk|apply deadLetterTopology_ensures_bound|].
  intros. apply only_any.
Qed.
Lemma restore_topology_ensures_bound fuel ctx ch : ensures bound (restore_topology fuel ctx ch).
Proof.
  unfold restore_topology. apply ensures_then; [moving_walk|intros h]. apply ensures_try; [moving_walk|intros _].
  apply (ensures_first (Q := λ _, True)); [moving_walk|apply declareTopology_ensures_bound|]. intros. apply only_any.
Qed.
#[local] Hint Resolve declareTopology_ensures_bound restore_topology_ensures_bound bind_ensures_bound : rabbit_methods.
Ltac ensures_walk :=
  repeat first [solve [eauto 3 with rabbit_methods nocore] | ensures_step | apply ensures_try; [by moving_walk|intros]
               | apply ensures_then; [by moving_walk|intros]].

Lemma repairUnbounded_ensures_bound fuel ctx c : ensures bound (repairTopologyOnConnectionUnbounded fuel ctx c).
Proof. unfold repairTopologyOnConnectionUnbounded, acquireTopologyRecoveryLock. ensures_walk. Qed.
#[local] Hint Resolve repairUnbounded_ensures_bound : rabbit_methods.
Lemma operation_ensures_bound {A} ctx c (p : qprog (res QErr A)) : ensures bound p → ensures bound (runRabbitMQOperation ctx c p).
Proof. intros Hp. unfold runRabbitMQOperation. ensures_walk. Qed.
#[local] Hint Resolve operation_ensures_bound : rabbit_methods.
Ltac ensures_by_result :=
  apply (ensures_result (Q := λ _, True)); [by moving_walk|solve [eauto 3 with rabbit_methods]|intros; apply only_any|intros].

Lemma repairTopology_ensures_bound fuel ctx : ensures bound (repairTopology fuel ctx).
Proof.
  unfold repairTopology, repairTopologyOnConnection.
  do 6 (first [ensures_step|apply ensures_try; [by moving_walk|intros]|apply ensures_then; [by moving_walk|intros]];
        try by ensures_walk).
  apply ensures_then; [by moving_walk|intros gone]. destruct gone; [ensures_walk|]. ensures_by_result. ensures_walk.
Qed.
#[local] Hint Resolve repairTopology_ensures_bound : rabbit_methods.
Lemma repair_after_ensures_bound fuel ctx e : ensures bound (repair_after fuel ctx e).
Proof. unfold repair_after. ensures_by_result. ensures_walk. Qed.
#[local] Hint Resolve repair_after_ensures_bound : rabbit_methods.
Lemma wrapping_ensures_bound {A} (p : qprog (res QErr A)) : only section_moves p → ensures bound p → ensures bound (wrapping p).
Proof. intros Hm Hp. unfold wrapping. apply (ensures_result (Q := λ _, True)); [done|done|done|]. intros e. apply ensures_fail. Qed.

(** A health check that passes has bound the dead letters. *)
Lemma pingConnection_ensures_bound fuel ctx c : ensures bound (pingConnection fuel ctx c).
Proof.
  unfold pingConnection. apply ensures_then; [by moving_walk|]. intros [ch|e]; [|by ensures_walk].
  ensures_step. do 3 (apply ensures_then; [by moving_walk|intros]; try (ensures_step; [|by ensures_walk])).
  apply ensures_then; [by moving_walk|intros r]. destruct r; [|by ensures_walk].
  apply (ensures_first (Q := λ _, True)); [by moving_walk| |intros; apply only_any].
  apply wrapping_ensures_bound; [moving_walk|apply bind_ensures_bound].
Qed.
#[local] Hint Resolve pingConnection_ensures_bound : rabbit_methods.
Lemma Ping_binds fuel ctx : ensures bound (Ping fuel ctx).
Proof. unfold Ping. ensures_walk. Qed.

(** ** A delivery is settled once *)

Section settle.
Context `{JS : !Json}.

(** The one settlement of the log is its last entry. *)
Definition settled_last (log : list entry) (e : entry) (l : list entry) : Prop := log = l ++ [e] ∧ Forall unsettled l.

Lemma busy_unsettled {A} (p : qprog A) s log s' a : only busy p → runs p s log s' a → Forall unsettled log.
Proof. intros Hp Hr. eapply run_only; [|exact Hr]. eapply only_mono; [|exact Hp]. by intros e [_ ?]. Qed.

Lemma deadLetter_settles fuel ctx d s log s' r :
  runs (deadLetter fuel ctx d) s log s' r →
  ∃ l e, settled_last log e l ∧
  ((e = Called s' (MsgNack d false) r ∧ dead_letters_bound (dlqName s) l)
   ∨ (∃ x err, e = Called s' (MsgNack d true) x ∧ r = Err err)).
Proof.
  intros H. unfold deadLetter in H. qstep H. assert (Forall unsettled log0) as Hu.
  { eapply busy_unsettled; [|exact Hrun]. apply only_calm_busy, Ping_calm. }
  destruct a as [[]|err].
  - apply Ping_binds in Hrun. qstep H. exists log0, (Called s' (MsgNack d false) r). split; [by split|]. by left.
  - qstep H. qstep H. eexists log0, _. split; [by split|]. right. eauto.
Qed.

(** C14: A negative acknowledgement settles the delivery exactly once, as the
    last thing it does.  It acknowledges the message only after the next
    attempt was published and confirmed; it rejects it for good only when no
    attempt is left or none is wanted, after the dead-letter queue was bound to
    its exchange, so the broker has where to put it; in every other case the
    message goes back to the queue and an error is returned. *)
Theorem rabbit_Nack_settles fuel ctx d job requeue s log s' r :
  runs (delivery_Nack fuel ctx d job requeue) s log s' r →
  ∃ l e, settled_last log e l ∧
  ((e = Called s' (MsgAck d) r ∧ requeue = true ∧ msg_Attempt job < rmaxAttempts s
    ∧ ∃ clk now1 now2 body,
        let next := prepared (job <| msg_Attempt := wrap64 (msg_Attempt job + 1) |> <| msg_EnqueuedAt := UTC clk |>) now1 now2 in
        json_Marshal next = Ok body ∧ confirmed_publication s next body l)
   ∨ (e = Called s' (MsgNack d false) r ∧ (requeue = false ∨ rmaxAttempts s <= msg_Attempt job) ∧ dead_letters_bound (dlqName s) l)
   ∨ (∃ x err, e = Called s' (MsgNack d true) x ∧ r = Err err)).
Proof.
  intros H. unfold delivery_Nack in H. qstep H. assert (settings s0 = settings s) as Hs by apply mv_settings, HR.
  assert (rmaxAttempts s0 = rmaxAttempts s ∧ queueName s0 = queueName s ∧ dlqName s0 = dlqName s) as (Hmax & Hq & Hd)
    by (unfold settings in Hs; by simplify_eq).
  rewrite Hmax in H. destruct (requeue && (msg_Attempt job <? rmaxAttempts s)) eqn:Hretry.
  - apply andb_true_iff in Hretry as [-> Hlt%Z.ltb_lt]. qstep H. qstep H.
    match type of Hrun with runs _ _ ?l _ _ => rename l into lp end. assert (Forall unsettled lp) as Hu.
    { eapply busy_unsettled; [|exact Hrun]. apply rabbit_Publish_busy. }
    exists ([Changed s0 s0; Called s1 Now_ a] ++ lp). destruct a0 as [[]|err]; qstep H.
    + eexists. split; [by split; [|by do 2 constructor]|]. left. split; [done|]. split; [done|]. split; [done|].
      apply Publish_confirmed in Hrun as (now1 & now2 & body & Hbody & Hconf).
      exists a, now1, now2, body. split; [exact Hbody|]. revert Hconf.
      apply (lasting_before (P := λ s, confirmed_publication s _ body)). apply moved_kept. by etrans.
    + qstep H. eexists. split; [by split; [|by do 2 constructor]|]. right. right. eauto.
  - apply deadLetter_settles in H as (l & e & [-> Hu] & H). exists ([Changed s0 s0] ++ l), e.
    split; [split; [done|by constructor]|]. right. destruct H as [[-> Hb]|H]; [left|by right].
    split; [done|]. rewrite Hd in Hb. split; [|by apply (lasting_before (P := bound) s s)].
    destruct requeue; [|by left]. right. by apply Z.ltb_ge.
Qed.
End settle.

(** A retry, and a rejection. *)
Lemma rabbit_Nack_settles_witness :
  (∃ log q' r l e, runs (delivery_Nack 5 Caller (mkDelivery 1 "m") sample_message true) sample_rabbit log q' r
     ∧ settled_last log e l ∧ succeeded r = true)
  ∧ ∃ log q' r l e, runs (delivery_Nack 5 Caller (mkDelivery 1 "m") sample_message false) sample_rabbit log q' r
     ∧ settled_last log e l ∧ succeeded r = true.
Proof.
  split.
  - destruct (sample_runs moved false (delivery_Nack 5 Caller (mkDelivery 1 "m") sample_message true) sample_rabbit
      (λ _ _ r, succeeded r)) as (log & q' & r & Hr & Hf); [vm_compute; reflexivity|].
    destruct (rabbit_Nack_settles 5 Caller _ sample_message true sample_rabbit log q' r Hr) as (l & e & Hs & _).
    by exists log, q', r, l, e.
  - destruct (sample_runs moved false (delivery_Nack 5 Caller (mkDelivery 1 "m") sample_message false) sample_rabbit
      (λ _ _ r, succeeded r)) as (log & q' & r & Hr & Hf); [vm_compute; reflexivity|].
    destruct (rabbit_Nack_settles 5 Caller _ sample_message false sample_rabbit log q' r Hr) as (l & e & Hs & _).
    by exists log, q', r, l, e.
Defined.

(** ** The consumer accounts for every arrival *)

Section track.
Context `{JS : !Json}.

(** The delivery in the consumer's hands, before and after an entry: a message
    arrives when there is none, what is handed over or settled is the one at
    hand, and nothing else is settled. *)
Definition track_step (p : option Delivery) (e : entry) (p' : option Delivery) : Prop :=
  match e with
  | Called _ k x =>
      match k in acall X return X → Prop with
      | AwaitDelivery _ _ => λ x, p = None ∧ p' = (match x with DeliveryArrived d => Some d | _ => None end)
      | SendDelivery _ d job retryable => λ x,
          p = Some d ∧ (∃ clk, decodeJobMessage (d_body d) clk = Ok job) ∧ p' = (match x with HandedOver => None | _ => Some d end)
      | MsgNack d _ => λ _, p = Some d ∧ p' = None
      | MsgAck _ => λ _, False
      | _ => λ _, p' = p
      end x
  | Changed _ _ => p' = p
  end.
Fixpoint tracked (p : option Delivery) (log : list entry) (p' : option Delivery) : Prop :=
  match log with
  | [] => p' = p
  | e :: log => ∃ p1, track_step p e p1 ∧ tracked p1 log p'
  end.

Lemma tracked_app p l1 p1 l2 p' : tracked p l1 p1 → tracked p1 l2 p' → tracked p (l1 ++ l2) p'.
Proof.
  revert p. induction l1 as [|e l1 IH]; intros p; cbn; [by intros ->|].
  intros (p0 & He & H1) H2. exists p0. split; [done|]. by apply IH.
Qed.
Lemma tracked_unsettled p log : Forall unsettled log → tracked p log p.
Proof.
  induction 1 as [|e log He _ IH]; [done|]. exists p. split; [|done]. destruct e as [X q k x|]; [|done]. by destruct k.
Qed.

(** [tracks p prog Q]: with [p] at hand, every run of the program, also one
    that is cut short, is tracked, and it leaves [Q a] at hand. *)
Definition tracks (p : option Delivery) {A} (prog : qprog A) (Q : A → option Delivery) : Prop :=
  (∀ s log s' a, runs prog s log s' a → tracked p log (Q a))
  ∧ (∀ s log, exhausts moved possible prog s log → ∃ p', tracked p log p').

Lemma tracks_Ret p {A} (a : A) Q : Q a = p → tracks p (Ret a) Q.
Proof. intros <-. split; [|done]. by intros s log s' b (-> & -> & ->). Qed.
Lemma tracks_Spent p {A} (Q : A → option Delivery) : tracks p Spent Q.
Proof. split; [done|]. intros s log ->. by exists p. Qed.
Lemma tracks_busy p {A} (prog : qprog A) : only busy prog → tracks p prog (λ _, p).
Proof.
  intros Hp. assert (only unsettled prog) as Hu by (eapply only_mono; [|exact Hp]; by intros e [_ ?]).
  split; [intros s log s' a H; by eapply tracked_unsettled, run_only|].
  intros s log H. exists p. eapply tracked_unsettled, exhausts_only; [exact Hu|exact H].
Qed.
Lemma tracks_bind p {A B} (prog : qprog A) (f : A → qprog B) Q Q' :
  tracks p prog Q → (∀ a, tracks (Q a) (f a) Q') → tracks p (bind prog f) Q'.
Proof.
  intros [Hp He] Hf. split.
  - intros s log s' b (l1 & s1 & a & l2 & H1 & H2 & ->)%run_bind. eapply tracked_app; [by eapply Hp|by eapply Hf].
  - intros s log [H|(l1 & s1 & a & l2 & H1 & H2 & ->)]%exhausts_bind; [by eapply He|].
    apply Hf in H2 as [p' H2]. exists p'. eapply tracked_app; [by eapply Hp|done].
Qed.
Lemma tracks_perform p {X} (c : acall X) Q : (∀ s x, track_step p (Called s c x) (Q x)) → tracks p (perform c) Q.
Proof.
  intros H. split.
  - intros s log s' a (_ & _ & ->)%run_perform. by exists (Q a).
  - intros s log (s1 & x & rest & _ & _ & -> & []).
Qed.
(** A program that leaves none, or only messages alone, before another. *)
Lemma tracks_seq p {A B} (prog : qprog A) (f : A → qprog B) Q' :
  only busy prog → (∀ a, tracks p (f a) Q') → tracks p (bind prog f) Q'.
Proof. intros Hp Hf. eapply tracks_bind; [by apply tracks_busy|exact Hf]. Qed.
Lemma tracks_then p {A B} (prog : qprog A) (f : A → qprog B) Q' :
  tracks p prog (λ _, None) → (∀ a, tracks None (f a) Q') → tracks p (bind prog f) Q'.
Proof. intros Hp Hf. by eapply tracks_bind. Qed.

Lemma deadLetter_tracks fuel ctx d : tracks (Some d) (deadLetter fuel ctx d) (λ _, None).
Proof.
  unfold deadLetter. apply tracks_seq; [only_walk|]. intros [_|e]; [by apply tracks_perform|].
  apply tracks_then; [by apply tracks_perform|]. intros x. by apply tracks_Ret.
Qed.

Lemma nack_tracks d {B} (r : B) : tracks (Some d) (do* perform (MsgNack d true) in Ret r) (λ _, None).
Proof. apply tracks_then; [by apply tracks_perform|]. intros x. by apply tracks_Ret. Qed.

Lemma deliver_loop_tracks fuel n ctx ch : tracks None (deliver_loop fuel n ctx ch) (λ _, None).
Proof.
  induction n as [|n IH]; cbn [deliver_loop]; [apply tracks_Spent|].
  apply (tracks_bind _ _ _ (λ x, match x with DeliveryArrived d => Some d | _ => None end)); [by apply tracks_perform|].
  intros event. destruct event as [e| |[e|]|[tag|]|d|]; try by apply tracks_Ret.
  - apply tracks_seq; [unfold wrapping; only_walk|]. intros [[]|e]; by apply tracks_Ret.
  - apply tracks_bind with (Q := λ _, Some d); [apply tracks_busy; only_walk|]. intros clk.
    destruct (decodeJobMessage (d_body d) clk) as [job|e] eqn:Hd.
    + apply tracks_seq; [only_walk|]. intros maxAttempts.
      eapply (tracks_bind _ _ _ (λ x, match x with HandedOver => None | _ => Some d end)).
      { apply tracks_perform. intros s x. split; [done|]. split; [by exists clk|]. done. }
      intros [|e|]; [exact IH|apply nack_tracks|apply nack_tracks].
    + apply tracks_then; [apply deadLetter_tracks|]. intros _. exact IH.
Qed.

Lemma tracks_deferring p {A B} (q : qprog B) (prog : qprog A) :
  tracks p prog (λ _, None) → tracks None q (λ _, None) → tracks p (deferring q prog) (λ _, None).
Proof.
  intros Hp Hq. apply tracks_then; [done|]. intros a. apply tracks_then; [done|]. intros _. by apply tracks_Ret.
Qed.
Lemma end_session_busy ctx c ch : only busy (end_session ctx c ch).
Proof. unfold end_session. pose proof isClosed_still. only_walk. Qed.

Lemma consumeSession_tracks fuel ctx : tracks None (consumeSession fuel ctx) (λ _, None).
Proof.
  unfold consumeSession. apply tracks_seq; [only_walk|]. intros [[]|e]; [|by apply tracks_Ret].
  apply tracks_seq; [only_walk|]. intros [c|]; [|by apply tracks_Ret].
  apply tracks_seq; [only_walk|]. intros [ch|e].
  - apply tracks_deferring; [|apply tracks_busy, end_session_busy].
    apply tracks_seq; [only_walk|intros settings]. do 2 (apply tracks_seq; [only_walk|intros [[]|e]; [|by apply tracks_Ret]]).
    apply deliver_loop_tracks.
  - apply tracks_busy. only_walk.
Qed.

Lemma consume_loop_tracks fuel n ctx a : tracks None (consume_loop fuel n ctx a) (λ _, None).
Proof.
  revert a. induction n as [|n IH]; intros a; cbn [consume_loop]; [apply tracks_Spent|].
  apply tracks_seq; [only_walk|intros startedAt]. apply tracks_then; [apply consumeSession_tracks|intros _].
  apply tracks_seq; [only_walk|intros e]. apply tracks_seq; [pose proof isClosed_still; only_walk|intros closed].
  destruct closed; [by apply tracks_Ret|]. apply tracks_seq; [only_walk|intros now].
  apply tracks_seq; [only_walk|intros longest]. apply tracks_seq; [only_walk|intros delay].
  apply tracks_seq; [only_walk|]. intros [_|e']; [apply IH|by apply tracks_Ret].
Qed.

(** C13: The consumer loses no message and handles none twice, across lost
    sessions, cancelled consumers and shutdowns: each delivery that arrives is
    handed to the worker with the job its body decodes to, or rejected, or sent
    back, exactly once and before the next one is received; it never
    acknowledges a message itself.  The same holds of what it did up to any
    point at which the bound of a loop cuts it short. *)
Theorem rabbit_consumer_accounts fuel ctx :
  (∀ s log s' r, runs (Consume fuel ctx) s log s' r → tracked None log None)
  ∧ (∀ s log, exhausts moved possible (Consume fuel ctx) s log → ∃ p, tracked None log p).
Proof.
  change (tracks None (Consume fuel ctx) (λ _, None)). unfold Consume.
  apply tracks_seq; [pose proof isClosed_still; only_walk|]. intros [|]; [by apply tracks_Ret|].
  apply tracks_then; [apply consume_loop_tracks|]. intros _. by apply tracks_Ret.
Qed.
End track.

(** One delivery is handed over before the context ends. *)
Lemma rabbit_consumer_accounts_witness :
  ∃ log q' r, (succeeded r && (waits log =? 2)%nat = true) ∧ tracked None log None
  ∧ runs (Consume 5 Caller) sample_rabbit log q' r.
Proof.
  destruct (sample_runs moved false (Consume 5 Caller) sample_rabbit (λ log _ r, succeeded r && (waits log =? 2)%nat))
    as (log & q' & r & Hr & Hf); [vm_compute; reflexivity|].
  exists log, q', r. split; [exact Hf|]. split; [|exact Hr]. by eapply (proj1 (rabbit_consumer_accounts 5 Caller)).
Defined.

(** ** A message survives the trip *)

Lemma normalized_id job clk : msg_JobID job ≠ "" → msg_Attempt job ≠ 0 → normalized job clk = job.
Proof.
  intros Hj Ha. unfold normalized. apply String.eqb_neq in Hj. apply Z.eqb_neq in Ha. by rewrite Hj, Ha.
Qed.

Lemma prepared_complete job clk1 clk2 :
  msg_JobID (prepared job clk1 clk2) ≠ "" ∧ msg_Attempt (prepared job clk1 clk2) ≠ 0
  ∧ msg_MonitorID (prepared job clk1 clk2) = msg_MonitorID job.
Proof.
  assert (msg_JobID (normalized job clk1) ≠ "" ∧ msg_Attempt (normalized job clk1) ≠ 0
          ∧ msg_MonitorID (normalized job clk1) = msg_MonitorID job) as H.
  { unfold normalized. destruct (String.eqb_spec (msg_JobID job) ""); cbn;
      destruct (Z.eqb_spec (msg_Attempt job) 0); cbn; (split; [done|]); by split. }
  unfold prepared. by destruct (IsZero _).
Qed.

(** The consumer decodes from the body of a published message exactly the
    message that was published: its identifiers, its attempt and its time, with
    the defaults the publisher filled in, whatever the consumer's clock says.
    ([encoding/json] reads back what it wrote of this message.) *)
Lemma rabbit_message_roundtrip `{JS : !Json} job clk1 clk2 clk body :
  (∀ b, json_Marshal (prepared job clk1 clk2) = Ok b → json_Unmarshal b = Ok (prepared job clk1 clk2)) →
  msg_MonitorID job ≠ "" → json_Marshal (prepared job clk1 clk2) = Ok body →
  decodeJobMessage body clk = Ok (prepared job clk1 clk2).
Proof.
  intros HJ Hid Hb. unfold decodeJobMessage. rewrite (HJ _ Hb).
  destruct (prepared_complete job clk1 clk2) as (Hj & Ha & Hm). rewrite <- Hm in Hid. apply String.eqb_neq in Hid.
  rewrite Hid. by rewrite normalized_id.
Qed.

Lemma rabbit_message_roundtrip_witness :
  decodeJobMessage "m" 0 = Ok (prepared (sample_message <| msg_MonitorID := "m" |>) 0 0).
Proof.
  apply (rabbit_message_roundtrip (sample_message <| msg_MonitorID := "m" |>) 0 0 0 "m"); [|done|vm_compute; reflexivity].
  intros b H. vm_compute in H. simplify_eq. vm_compute. reflexivity.
Defined.
