(* ===== verification/RabbitLoops.v ===== *)
(** * The RabbitMQ queue: recoveries and rounds

    Two promises that every method of the queue keeps, proved together by one
    walk over the programs ([sound]): a loss is marked as recovered only right
    after a handler returned nil, and a loop goes round again only when something
    outside the queue made it. *)

From stdpp Require Import base list gmap strings.
From Stdlib Require Import ZArith Lia Ascii.
From S2P Require Import Prelude GoNum GoStrings NetworkPolicy Egress Domain Backoff Queue Shared Rabbit RabbitPublish RabbitSample RabbitSpec RabbitDelivery.
#[local] Open Scope string_scope.
#[local] Open Scope list_scope.
#[local] Open Scope Z_scope.
#[local] Open Scope shared_scope.
#[local] Abbreviation entry := (Shared.entry RabbitMQQueue acall).
#[local] Abbreviation runs := (run moved possible).
#[local] Abbreviation spends := (exhausts moved possible).

#[local] Arguments drop_session : simpl never.
#[local] Arguments record_loss : simpl never.
#[local] Arguments mark_recovered : simpl never.
#[local] Arguments install : simpl never.

(** ** Marks *)

(** A section of the log that changes the recovered generation comes right after
    a handler returned nil, and marks no loss that was not counted by then. *)
Definition marked (log : list entry) : Prop :=
  ∀ l1 q q' l2, log = l1 ++ Changed q q' :: l2 → recoveredTopologyGeneration q' ≠ recoveredTopologyGeneration q →
  ∃ l0 qh h ctx, l1 = l0 ++ [Called qh (RunHandler h ctx) (Ok tt)]
  ∧ recoveredTopologyGeneration q' <= topologyLossGeneration qh.

Definition unmarked (e : entry) : Prop :=
  match e with Called _ _ _ => True | Changed q q' => recoveredTopologyGeneration q' = recoveredTopologyGeneration q end.

Lemma marked_nil : marked [].
Proof. intros l1 q q' l2 Heq. by destruct l1. Qed.
Lemma marked_app l1 l2 : marked l1 → marked l2 → marked (l1 ++ l2).
Proof.
  intros H1 H2 m1 q q' m2 Heq Hne. apply app_eq_app in Heq as [l [[-> Heq]|[-> Heq]]].
  - destruct l as [|e l]; cbn in Heq.
    + symmetry in Heq. destruct (H2 [] q q' m2 Heq Hne) as (l0 & qh & h & ctx & Hnil & _). by destruct l0.
    + injection Heq as <- ->. by eapply H1.
  - destruct (H2 _ _ _ _ Heq Hne) as (l0 & qh & h & ctx & -> & Hle). exists (l1 ++ l0), qh, h, ctx.
    split; [by rewrite app_assoc|done].
Qed.
Lemma unmarked_marked log : Forall unmarked log → marked log.
Proof. intros Hl l1 q q' l2 -> Hne. apply Forall_app in Hl as [_ [He _]%Forall_cons]. done. Qed.

(** A mark made when [qh]'s losses were counted. *)
Lemma mark_marked qh h ctx q g :
  g <= topologyLossGeneration qh → marked [Called qh (RunHandler h ctx) (Ok tt); Changed q (mark_recovered g q)].
Proof.
  intros Hg l1 q1 q1' l2 Heq Hne. destruct l1 as [|e1 [|e2 l1]]; cbn in Heq; [done| |by destruct l1].
  injection Heq as <- <- <- <-. exists [], qh, h, ctx. split; [done|]. revert Hne. unfold mark_recovered.
  by destruct (_ <? _).
Qed.

(** ** Rounds *)

(** What a loop spends its fuel on. *)
Fixpoint count (f : entry → bool) (log : list entry) : nat :=
  match log with [] => 0 | e :: log => (if f e then 1 else 0) + count f log end%nat.
Lemma count_app f l1 l2 : count f (l1 ++ l2) = (count f l1 + count f l2)%nat.
Proof. induction l1; cbn; [done|]. lia. Qed.

Definition returned_event (e : entry) : bool :=
  match e with
  | Called _ k x =>
      match k in acall X return X → bool with
      | AwaitConfirm _ _ _ => λ x, match x with ReturnArrived => true | _ => false end
      | _ => λ _, false
      end x
  | _ => false
  end.
Definition handler_success (e : entry) : bool :=
  match e with
  | Called _ k x =>
      match k in acall X return X → bool with
      | RunHandler _ _ => λ x, match x with Ok _ => true | Err _ => false end
      | _ => λ _, false
      end x
  | _ => false
  end.

(** A delay passed, a message came back, a delivery arrived. *)
Definition outside (e : entry) : bool :=
  match e with
  | Called _ k x =>
      match k in acall X return X → bool with
      | WaitTimer _ _ => λ x, match x with TimerFired => true | _ => false end
      | AwaitConfirm _ _ _ => λ x, match x with ReturnArrived => true | _ => false end
      | AwaitDelivery _ _ => λ x, match x with DeliveryArrived _ => true | _ => false end
      | _ => λ _, false
      end x
  | _ => false
  end.
(** The session was gone when it was about to be used: somebody dropped it. *)
Definition finds_none (e : entry) (log : list entry) : bool :=
  match e, log with
  | Called _ k _, Changed q _ :: _ =>
      match k with LockPublish => bool_decide (channel q = None) | _ => false end
  | _, _ => false
  end.
Fixpoint gone_sessions (log : list entry) : nat :=
  match log with [] => 0 | e :: log => (if finds_none e log then 1 else 0) + gone_sessions log end%nat.
Definition cost (log : list entry) : nat := (count outside log + gone_sessions log)%nat.

Lemma gone_sessions_app l1 l2 : (gone_sessions l1 + gone_sessions l2 <= gone_sessions (l1 ++ l2))%nat.
Proof.
  induction l1 as [|e l1 IH]; cbn; [lia|]. assert (finds_none e l1 = true → finds_none e (l1 ++ l2) = true) as Hf.
  { destruct l1; [|done]. destruct e; by destruct l2. }
  destruct (finds_none e l1); [rewrite Hf by done|destruct (finds_none e (l1 ++ l2))]; lia.
Qed.
Lemma cost_app l1 l2 : (cost l1 + cost l2 <= cost (l1 ++ l2))%nat.
Proof. unfold cost. rewrite count_app. pose proof (gone_sessions_app l1 l2). lia. Qed.

(** A spent bound was paid for: of [n] rounds all but [k] by outside events, or,
    in a loop inside, all [fuel] rounds but one; or losses were counted since, one
    for each of the [fuel] rounds. *)
Definition paid (fuel n k : nat) (s : RabbitMQQueue) (log : list entry) : Prop :=
  (n <= cost log + k)%nat ∨ (fuel <= cost log + 1)%nat
  ∨ ∃ e, e ∈ log ∧ recoveredTopologyGeneration s + Z.of_nat fuel <= topologyLossGeneration (state_of e).

Lemma paid_after fuel n k s t l1 l2 : moved s t → paid fuel n k t l2 → paid fuel n k s (l1 ++ l2).
Proof.
  intros Hm. pose proof (cost_app l1 l2). intros [Hc|[Hc|(e & He & Hl)]]; [left; lia|right; left; lia|].
  right. right. exists e. split; [apply elem_of_app; by right|]. pose proof (mv_recovered _ _ Hm). lia.
Qed.
Lemma paid_inner fuel n k s log : paid fuel fuel 1 s log → paid fuel n k s log.
Proof. unfold paid. tauto. Qed.
(** One more round, for one more event or out of the reserve. *)
Lemma paid_round fuel n k s t l1 l2 :
  moved s t → (1 <= cost l1)%nat → paid fuel n k t l2 → paid fuel (S n) k s (l1 ++ l2).
Proof.
  intros Hm Hl1. pose proof (cost_app l1 l2). intros [Hc|Hc]; [left; lia|].
  apply paid_inner, (paid_after _ _ _ _ t); [done|]. by right.
Qed.
Lemma paid_reserve fuel n k s log : paid fuel n k s log → paid fuel (S n) (S k) s log.
Proof. intros [Hc|Hc]; [left; lia|by right]. Qed.

(** ** Programs that keep both promises *)

Record sound (fuel n k : nat) {A} (p : qprog A) : Prop := {
  so_moves : only section_moves p;
  so_marks s log s' a : runs p s log s' a → marked log;
  so_cut s log : spends p s log → marked log;
  so_paid s log : spends p s log → Forall counted log → paid fuel n k s log;
}.
(** Whatever loops it has are bounded by [fuel]. *)
#[local] Abbreviation steady fuel := (sound fuel fuel 1).

Lemma sound_weaken fuel n k n' k' {A} (p : qprog A) :
  (∀ s log, paid fuel n k s log → paid fuel n' k' s log) → sound fuel n k p → sound fuel n' k' p.
Proof. intros Hw [Hm Hr Hc Hp]. split; auto. Qed.
Lemma sound_inner fuel n k {A} (p : qprog A) : steady fuel p → sound fuel n k p.
Proof. apply sound_weaken. intros s log. apply paid_inner. Qed.
Lemma sound_reserve fuel n k {A} (p : qprog A) : sound fuel n k p → sound fuel (S n) (S k) p.
Proof. apply sound_weaken. intros s log. apply paid_reserve. Qed.

(** [p] returns [a] only after an outside event. *)
Definition costs {A} (p : qprog A) (a : A) : Prop := ∀ s log s', runs p s log s' a → (1 <= cost log)%nat.

Section sound.
Context (fuel : nat).

Lemma sound_round n k {A B} (p : qprog A) (f : A → qprog B) :
  steady fuel p → (∀ a, sound fuel (S n) k (f a) ∨ costs p a ∧ sound fuel n k (f a)) → sound fuel (S n) k (bind p f).
Proof.
  intros [Hm1 Hr1 Hc1 Hp1] Hf. split.
  - apply only_bind; [done|]. intros a. destruct (Hf a) as [H|[_ H]]; apply H.
  - intros s log s' b (l1 & s1 & a & l2 & H1 & H2 & ->)%run_bind.
    apply marked_app; [by eapply Hr1|]. destruct (Hf a) as [H|[_ H]]; exact (so_marks _ _ _ _ H _ _ _ _ H2).
  - intros s log [H|(l1 & s1 & a & l2 & H1 & H2 & ->)]%exhausts_bind; [by eapply Hc1|].
    apply marked_app; [by eapply Hr1|]. destruct (Hf a) as [H|[_ H]]; exact (so_cut _ _ _ _ H _ _ H2).
  - intros s log [H|(l1 & s1 & a & l2 & H1 & H2 & ->)]%exhausts_bind Hc; [apply paid_inner; by eapply Hp1|].
    apply Forall_app in Hc as [Hc1' Hc2]. pose proof (run_moved _ _ _ _ _ Hm1 Hc1' H1) as Hm.
    destruct (Hf a) as [H|[Ha H]]; [eapply paid_after; [exact Hm|exact (so_paid _ _ _ _ H _ _ H2 Hc2)]|].
    eapply paid_round; [exact Hm|by eapply Ha|exact (so_paid _ _ _ _ H _ _ H2 Hc2)].
Qed.
Lemma sound_bind n k {A B} (p : qprog A) (f : A → qprog B) :
  sound fuel n k p → (∀ a, sound fuel n k (f a)) → sound fuel n k (bind p f).
Proof.
  intros [Hm1 Hr1 Hc1 Hp1] Hf. split.
  - apply only_bind; [done|]. intros a. apply Hf.
  - intros s log s' b (l1 & s1 & a & l2 & H1 & H2 & ->)%run_bind. apply marked_app; [by eapply Hr1|exact (so_marks _ _ _ _ (Hf a) _ _ _ _ H2)].
  - intros s log [H|(l1 & s1 & a & l2 & H1 & H2 & ->)]%exhausts_bind; [by eapply Hc1|].
    apply marked_app; [by eapply Hr1|exact (so_cut _ _ _ _ (Hf a) _ _ H2)].
  - intros s log [H|(l1 & s1 & a & l2 & H1 & H2 & ->)]%exhausts_bind Hc; [by eapply Hp1|].
    apply Forall_app in Hc as [Hc1' Hc2]. eapply paid_after; [|exact (so_paid _ _ _ _ (Hf a) _ _ H2 Hc2)]. exact (run_moved _ _ _ _ _ Hm1 Hc1' H1).
Qed.
Lemma sound_Ret n k {A} (a : A) : sound fuel n k (Ret a).
Proof.
  split; [done| |by intros s log []|by intros s log []].
  intros s log s' b (-> & _). apply marked_nil.
Qed.
Lemma sound_Spent k {A} : sound fuel 0 k (@Spent _ _ A).
Proof. split; [done|by intros s log s' a []| |]; intros s log ->; [apply marked_nil|left; lia]. Qed.
Lemma sound_try_bind n k {E A B} (p : qprog (res E A)) (f : A → qprog (res E B)) :
  sound fuel n k p → (∀ a, sound fuel n k (f a)) → sound fuel n k (try_bind p f).
Proof. intros Hp Hf. apply sound_bind; [done|]. intros [a|e]; [apply Hf|apply sound_Ret]. Qed.
Lemma sound_deferring n k {A B} (q : qprog B) (p : qprog A) :
  sound fuel n k p → sound fuel n k q → sound fuel n k (deferring q p).
Proof. intros Hp Hq. apply sound_bind; [done|]. intros a. apply sound_bind; [done|]. intros b. apply sound_Ret. Qed.
Lemma sound_locked n k {X} (f : RabbitMQQueue → RabbitMQQueue * X) :
  (∀ s, section_moves (Changed s (f s).1) ∧ unmarked (Changed s (f s).1)) → sound fuel n k (locked f).
Proof.
  intros Hf. split; [apply only_locked; intros s; apply Hf| |..].
  - intros s log s' x (q & _ & -> & _ & ->)%run_locked. apply unmarked_marked. constructor; [apply Hf|done].
  - by intros s log (s1 & rest & _ & _ & []).
  - by intros s log (s1 & rest & _ & _ & []).
Qed.
Lemma sound_read n k {X} (f : RabbitMQQueue → X) : sound fuel n k (read f).
Proof. apply (sound_locked n k (λ s, (s, f s))). intros s. split; [left; reflexivity|done]. Qed.
Lemma sound_perform n k {X} (c : acall X) : sound fuel n k (perform c).
Proof.
  split; [by apply only_perform| |..].
  - intros s log s' x (_ & _ & ->)%run_perform. apply unmarked_marked. by constructor.
  - by intros s log (s1 & x & rest & _ & _ & _ & []).
  - by intros s log (s1 & x & rest & _ & _ & _ & []).
Qed.
End sound.

Create HintDb rabbit_sound discriminated.
#[export] Hint Constants Opaque : rabbit_sound.

Lemma sound_wrapping fuel n k {A} (p : qprog (res QErr A)) : sound fuel n k p → sound fuel n k (wrapping p).
Proof. intros Hp. apply sound_bind; [done|]. intros r. apply sound_Ret. Qed.

Ltac sound_step :=
  lazymatch goal with
  | |- sound _ _ _ (match ?x with _ => _ end) => destruct x
  | |- sound _ _ _ (bind _ _) => apply sound_bind; [|intros]
  | |- sound _ _ _ (try_bind _ _) => apply sound_try_bind; [|intros]
  | |- sound _ _ _ (deferring _ _) => apply sound_deferring
  | |- sound _ _ _ (wrapping _) => apply sound_wrapping
  | |- sound _ _ _ (Ret _) => apply sound_Ret
  | |- sound _ _ _ (ok _) => apply sound_Ret
  | |- sound _ _ _ (fail _) => apply sound_Ret
  | |- sound _ _ _ (fail_ctx _) => apply sound_Ret
  | |- sound _ _ _ (perform _) => apply sound_perform
  | |- sound _ _ _ (read _) => apply sound_read
  | |- sound _ _ _ (locked _) => apply sound_locked; intros
  end.
Ltac sound_walk := repeat first [solve [eauto 4 with rabbit_sound nocore] | sound_step].
(** A section that keeps the recovered generation. *)
Ltac section := (split; [by left; auto with rabbit|done]).

(** ** The methods *)

Section methods.
Context (fuel n k : nat).
#[local] Abbreviation fine := (sound fuel n k).

Lemma check_ctx_sound ctx : fine (check_ctx ctx).
Proof. unfold check_ctx. sound_walk. Qed.
Lemma isConnected_sound : fine isConnected.
Proof. unfold isConnected. sound_walk. Qed.
Lemma isClosed_sound : fine isClosed.
Proof. unfold isClosed. sound_walk. Qed.
Lemma connection_sound : fine connection.
Proof. unfold connection. sound_walk. Qed.
Lemma acquireReconnect_sound ctx : fine (acquireReconnect ctx).
Proof. unfold acquireReconnect. sound_walk. Qed.
Lemma releaseReconnect_sound : fine releaseReconnect.
Proof. unfold releaseReconnect. sound_walk. Qed.
Lemma waitForReconnect_sound ctx d : fine (waitForReconnect ctx d).
Proof. unfold waitForReconnect. sound_walk. Qed.
Lemma reconnectDelay_sound a : fine (reconnectDelay a).
Proof. unfold reconnectDelay. sound_walk. Qed.
Lemma closeConnection_sound ctx c : fine (closeConnection ctx c).
Proof. unfold closeConnection. sound_walk. Qed.
Lemma dial_sound ctx u t1 t2 : fine (dialRabbitMQ ctx u t1 t2).
Proof. unfold dialRabbitMQ. sound_walk. Qed.
End methods.
#[export] Hint Resolve check_ctx_sound isConnected_sound isClosed_sound connection_sound acquireReconnect_sound
  releaseReconnect_sound waitForReconnect_sound reconnectDelay_sound closeConnection_sound dial_sound : rabbit_sound.

Section methods_on_connections.
Context (fuel n k : nat).
#[local] Abbreviation fine := (sound fuel n k).

Lemma invalidateConnection_sound ctx c : fine (invalidateConnection ctx c).
Proof. unfold invalidateConnection. sound_walk. cbn. destruct (opt_is _ _); section. Qed.
#[local] Hint Resolve invalidateConnection_sound : rabbit_sound.
Lemma invalidatePublishChannel_sound ctx ch : fine (invalidatePublishChannel ctx ch).
Proof. unfold invalidatePublishChannel. sound_walk. cbn. destruct (bool_decide _); section. Qed.
Lemma runRabbitMQOperation_sound {A} ctx c (p : qprog (res QErr A)) : fine p → fine (runRabbitMQOperation ctx c p).
Proof. intros Hp. unfold runRabbitMQOperation. sound_walk. Qed.
Lemma Close_sound : fine Close.
Proof. unfold Close. sound_walk. cbn. destruct (rclosed _); section. Qed.
Lemma declareTopology_sound ch : fine (declareTopology ch).
Proof. unfold declareTopology, declareDeadLetterTopology, bindDeadLetterQueue. sound_walk. Qed.
End methods_on_connections.
#[export] Hint Resolve invalidateConnection_sound invalidatePublishChannel_sound Close_sound declareTopology_sound : rabbit_sound.

(** ** Recovering *)

Lemma recovery_loop_moves n ctx : only section_moves (recovery_loop n ctx).
Proof. eapply only_mono; [|apply recovery_loop_still]. by intros e (? & _). Qed.

(** Both ends of a round: the handler returned nil and the loss it was run for
    was marked, if nobody else had. *)
Lemma recovery_round_marked q0 s1 h ctx q l :
  topologyLossGeneration q0 <= topologyLossGeneration s1 → marked l →
  marked (([Changed q0 q0] ++ [Called s1 (RunHandler h ctx) (Ok tt)])
    ++ [Changed q (mark_recovered (topologyLossGeneration q0) q)] ++ l).
Proof.
  intros Hle Hl. rewrite <- app_assoc. apply marked_app; [apply unmarked_marked; by constructor|].
  rewrite app_assoc. apply marked_app; [|exact Hl]. by apply mark_marked.
Qed.

Lemma recovery_loop_marks n ctx s log s' a : runs (recovery_loop n ctx) s log s' a → marked log.
Proof.
  revert s log. induction n as [|n IH]; intros s log H; cbn [recovery_loop] in H; [done|]. qstep H.
  destruct (_ <=? _); [qstep H; apply unmarked_marked; by repeat constructor|].
  destruct (topologyLossHandler s0) as [h|]; [|qstep H; apply unmarked_marked; by repeat constructor].
  apply run_try_bind in H as [(e & H & _)|(l1 & s1 & [] & l2 & H1 & H & ->)].
  { qstep H. apply unmarked_marked. by repeat constructor. }
  qstep H1. qstep H. rewrite app_assoc. apply recovery_round_marked; [|by eapply IH]. apply mv_losses, HR0.
Qed.

(** A bound of [n] rounds is spent on [n] successes of the handler, each for a
    loss that was counted after the one before. *)
Lemma recovery_loop_cut n ctx s log :
  spends (recovery_loop n ctx) s log →
  marked log ∧ count handler_success log = n
  ∧ (n = 0%nat ∨ ∃ e, e ∈ log ∧ recoveredTopologyGeneration s + Z.of_nat n <= topologyLossGeneration (state_of e)).
Proof.
  revert s log. induction n as [|n IH]; intros s log; cbn [recovery_loop].
  { intros ->. split; [apply marked_nil|]. split; [done|by left]. }
  intros [(s1 & rest & _ & _ & [])|(l1 & s1 & state & l2 & H1 & H2 & ->)]%exhausts_bind. qstep H1.
  destruct (Z.leb_spec (topologyLossGeneration s1) (recoveredTopologyGeneration s1)) as [|Hlt]; [done|].
  destruct (topologyLossHandler s1) as [h|]; [|done].
  apply exhausts_bind in H2 as [(s2 & x & rest & _ & _ & _ & [])|(l3 & s2 & [[]|e] & l4 & H3 & H2 & ->)]; [|done].
  qstep H3. apply exhausts_bind in H2 as [(s3 & rest & _ & _ & [])|(l5 & s3 & u & l6 & H4 & H2 & ->)]. qstep H4.
  apply IH in H2 as (Hmk & Hct & Hp). rewrite app_assoc.
  split; [apply recovery_round_marked; [apply mv_losses, HR0|exact Hmk]|]. split; [by cbn; rewrite Hct|]. right.
  pose proof (mv_recovered _ _ HR) as Hr1.
  destruct n as [|n]; [exists (Changed s1 s1); split; [by left|cbn; lia]|].
  destruct Hp as [|(e & He & Hp)]; [done|]. exists e. split; [apply elem_of_app; right; by right|].
  unfold mark_recovered in Hp. destruct (Z.ltb_spec (recoveredTopologyGeneration q) (topologyLossGeneration s1)); cbn in Hp; lia.
Qed.

Lemma recovery_loop_sound fuel n k ctx : sound fuel n k (recovery_loop fuel ctx).
Proof.
  apply sound_inner. split.
  - apply recovery_loop_moves.
  - intros s log s' a. apply recovery_loop_marks.
  - intros s log H. apply recovery_loop_cut in H as [H _]. exact H.
  - intros s log H _. apply recovery_loop_cut in H as (_ & _ & [->|H]); [left; lia|by right; right].
Qed.
#[export] Hint Resolve recovery_loop_sound : rabbit_sound.

Section recovering.
Context (fuel n k : nat).
#[local] Abbreviation fine := (sound fuel n k).

Lemma recoverDetectedTopologyLoss_sound ctx : fine (recoverDetectedTopologyLoss fuel ctx).
Proof. unfold recoverDetectedTopologyLoss. sound_walk. Qed.
#[local] Hint Resolve recoverDetectedTopologyLoss_sound : rabbit_sound.
Lemma recordTopologyLoss_sound ctx : fine (recordTopologyLoss fuel ctx).
Proof. unfold recordTopologyLoss. sound_walk. split; [by right|done]. Qed.
#[local] Hint Resolve recordTopologyLoss_sound : rabbit_sound.
Lemma SetTopologyLossHandler_sound ctx h : fine (SetTopologyLossHandler fuel ctx h).
Proof. unfold SetTopologyLossHandler. sound_walk. section. Qed.
Lemma restore_topology_sound ctx ch : fine (restore_topology fuel ctx ch).
Proof. unfold restore_topology. sound_walk. Qed.
End recovering.
#[export] Hint Resolve recoverDetectedTopologyLoss_sound recordTopologyLoss_sound SetTopologyLossHandler_sound
  restore_topology_sound : rabbit_sound.

(** ** Loops that wait *)

(** Reconnecting goes on only after the delay. *)
Lemma waitForReconnect_costs ctx delay : costs (waitForReconnect ctx delay) (Ok tt).
Proof. intros s log s' H. unfold waitForReconnect in H. qstep H. destruct a; qstep H; [unfold cost; cbn; lia|done..]. Qed.

Lemma sound_wait fuel n k {A} ctx delay (f : unit → qprog (res QErr A)) :
  (∀ u, sound fuel n k (f u)) → sound fuel (S n) k (try_bind (waitForReconnect ctx delay) f).
Proof.
  intros Hf. apply sound_round; [sound_walk|]. intros [[]|e]; [right|left; apply sound_Ret].
  split; [apply waitForReconnect_costs|apply Hf].
Qed.
(** The next round of a loop starts after a delay. *)
Ltac round_walk :=
  repeat first [solve [eauto 4 with rabbit_sound nocore] | progress (apply sound_wait; intros) | sound_step].

Section loops.
Context (fuel : nat).
#[local] Hint Resolve runRabbitMQOperation_sound : rabbit_sound.

Lemma lock_loop_sound n ctx : sound fuel n 0 (lock_loop n ctx).
Proof.
  induction n as [|n IH]; cbn [lock_loop]; [apply sound_Spent|]. round_walk. apply runRabbitMQOperation_sound. round_walk.
Qed.
End loops.

Lemma sound_loop fuel n k {A} (p : qprog A) : sound fuel fuel 0 p → sound fuel n k p.
Proof. intros Hp. apply sound_inner. revert Hp. apply sound_weaken. intros s log [H|H]; [left; lia|by right]. Qed.

Section repairing.
Context (fuel n k : nat).
#[local] Abbreviation fine := (sound fuel n k).
#[local] Hint Resolve runRabbitMQOperation_sound : rabbit_sound.

Lemma acquireTopologyRecoveryLock_sound ctx : fine (acquireTopologyRecoveryLock fuel ctx).
Proof. apply sound_loop, lock_loop_sound. Qed.
#[local] Hint Resolve acquireTopologyRecoveryLock_sound : rabbit_sound.
Lemma repairUnbounded_sound ctx c : fine (repairTopologyOnConnectionUnbounded fuel ctx c).
Proof. unfold repairTopologyOnConnectionUnbounded. sound_walk. Qed.
#[local] Hint Resolve repairUnbounded_sound : rabbit_sound.
Lemma repairTopologyOnConnection_sound ctx c : fine (repairTopologyOnConnection fuel ctx c).
Proof. unfold repairTopologyOnConnection. sound_walk. Qed.
#[local] Hint Resolve repairTopologyOnConnection_sound : rabbit_sound.
Lemma repairTopology_sound ctx : fine (repairTopology fuel ctx).
Proof. unfold repairTopology. sound_walk. Qed.
Lemma openTopologyChannel_sound ctx c : fine (openTopologyChannel fuel ctx c).
Proof. unfold openTopologyChannel. sound_walk. apply runRabbitMQOperation_sound. sound_walk. Qed.
#[local] Hint Resolve openTopologyChannel_sound : rabbit_sound.
Lemma connectOnce_sound ctx : fine (connectOnce fuel ctx).
Proof.
  unfold connectOnce. sound_walk. cbn. split; [left; auto with rabbit|]. unfold install. by destruct (rclosed _).
Qed.
End repairing.
#[export] Hint Resolve runRabbitMQOperation_sound repairTopology_sound openTopologyChannel_sound connectOnce_sound : rabbit_sound.

Lemma connect_loop_sound fuel n ctx a : sound fuel n 0 (connect_loop fuel n ctx a).
Proof. revert a. induction n as [|n IH]; intros a; cbn [connect_loop]; [apply sound_Spent|]. round_walk. Qed.

Section connected.
Context (fuel n k : nat).
#[local] Abbreviation fine := (sound fuel n k).

Lemma ensureConnected_sound ctx : fine (ensureConnected fuel ctx).
Proof. apply sound_loop, connect_loop_sound. Qed.
#[local] Hint Resolve ensureConnected_sound : rabbit_sound.
Lemma repair_after_sound ctx e : fine (repair_after fuel ctx e).
Proof. unfold repair_after. sound_walk. Qed.
#[local] Hint Resolve repair_after_sound : rabbit_sound.
Lemma pingConnection_sound ctx c : fine (pingConnection fuel ctx c).
Proof. unfold pingConnection, bindDeadLetterQueue. sound_walk. Qed.
#[local] Hint Resolve pingConnection_sound : rabbit_sound.
Lemma Ping_sound ctx : fine (Ping fuel ctx).
Proof. unfold Ping. sound_walk. Qed.
End connected.
#[export] Hint Resolve ensureConnected_sound Ping_sound : rabbit_sound.

(** ** Messages *)

(** Waiting for the confirmation goes on for another round only after a message
    came back, or once, when the channel of the returns closes. *)
Lemma confirm_loop_sound fuel n ctx ch b (o : bool) : sound fuel n (if o then 1%nat else 0%nat) (confirm_loop n ctx ch b o).
Proof.
  revert b o. induction n as [|n IH]; intros b o; cbn [confirm_loop]; [apply sound_Spent|].
  apply sound_round; [apply sound_perform|]. intros event. destruct event; try (left; sound_walk; done).
  - right. split; [|apply IH]. intros s log s' H. qstep H. unfold cost. cbn. lia.
  - destruct o; [left; apply sound_reserve, (IH b false)|right]. split; [|apply (IH b false)]. intros s log s' H. qstep H.
    by destruct Hx as [|[_ []]].
Qed.

Lemma confirm_loop_spends n ctx ch b o s log :
  spends (confirm_loop n ctx ch b o) s log → (n <= count returned_event log + (if o then 1 else 0))%nat.
Proof.
  revert b o s log. induction n as [|n IH]; intros b o s log; [intros _; lia|]. cbn [confirm_loop].
  intros [(s1 & x & rest & _ & _ & _ & [])|(l1 & s1 & event & l2 & H1 & H2 & ->)]%exhausts_bind.
  qstep H1. rewrite count_app. destruct event; try done.
  - apply IH in H2. cbn. lia.
  - apply IH in H2. destruct o; [cbn; lia|]. destruct Hx as [|[_ []]]; done.
  - by destruct e.
  - fold (late_return ch b o) in H2. exfalso. apply exhausts_bind in H2 as [H2|(l3 & s2 & r & l4 & H3 & H2 & ->)].
    + unfold late_return in H2. destruct (negb b && o); [|done].
      apply exhausts_bind in H2 as [(s2 & x & rest & _ & _ & _ & [])|(l3 & s2 & r & l4 & _ & [] & _)].
    + by destruct ack, r.
Qed.

Section publishing.
Context `{JS : !Json} (fuel : nat).

Lemma publish_once_sound n k ctx session ch job body : sound fuel n k (publish_once fuel ctx session ch job body).
Proof.
  unfold publish_once, waitForPublishConfirmation. sound_walk. apply sound_inner.
  case_bool_decide; [apply (confirm_loop_sound _ _ _ _ _ true)|apply sound_loop, (confirm_loop_sound _ _ _ _ _ false)].
Qed.
#[local] Hint Resolve publish_once_sound : rabbit_sound.

(** The session was gone. *)
Lemma gone_costs session :
  s_channel session = None → costs (do* perform LockPublish in publishSession) session.
Proof.
  intros Hs s log s' H. unfold publishSession in H. qstep H. qstep H. cbn in Hs.
  unfold cost. cbn. rewrite bool_decide_eq_true_2 by done. lia.
Qed.

Lemma publish_loop_sound n ctx job body a (r : bool) :
  sound fuel n (if r then 0%nat else 1%nat) (publish_loop fuel n ctx job body a r).
Proof.
  revert a r. induction n as [|n IH]; intros a r; cbn [publish_loop]; [apply sound_Spent|].
  do 2 (sound_step; [sound_walk|]).
  match goal with |- sound _ _ _ (bind _ (λ _, bind _ ?f)) =>
    change (sound fuel (S n) (if r then 0%nat else 1%nat) (bind (do* perform LockPublish in publishSession) f)) end.
  apply sound_round; [unfold publishSession; sound_walk|]. intros session.
  destruct (s_channel session) as [ch|] eqn:Hs; [left|right; split; [by apply gone_costs|sound_walk]].
  sound_step; [sound_walk|]. sound_step; [apply sound_Ret|].
  assert (∀ a, sound fuel n 0 (publish_loop fuel n ctx job body a true)) as IHt by (intros; apply (IH _ true)).
  assert (∀ a, sound fuel n 1 (publish_loop fuel n ctx job body a false)) as IHf by (intros; apply (IH _ false)).
  destruct r; sound_step; [apply sound_Ret|round_walk| |round_walk].
  sound_step; [sound_walk|]. sound_step; [|round_walk]. apply sound_reserve, IHt.
Qed.

Lemma rabbit_Publish_sound n k ctx job : sound fuel n k (rabbit_Publish fuel ctx job).
Proof. unfold rabbit_Publish. sound_walk. apply sound_inner, (publish_loop_sound fuel _ _ _ _ false). Qed.
#[local] Hint Resolve rabbit_Publish_sound : rabbit_sound.

Lemma deadLetter_sound n k ctx d : sound fuel n k (deadLetter fuel ctx d).
Proof. unfold deadLetter. sound_walk. Qed.
#[local] Hint Resolve deadLetter_sound : rabbit_sound.
Lemma delivery_Nack_sound n k ctx d job requeue : sound fuel n k (delivery_Nack fuel ctx d job requeue).
Proof. unfold delivery_Nack. sound_walk. Qed.

(** ** Consuming *)

Lemma deliver_loop_sound n ctx ch : sound fuel n 0 (deliver_loop fuel n ctx ch).
Proof.
  induction n as [|n IH]; cbn [deliver_loop]; [apply sound_Spent|].
  apply sound_round; [apply sound_perform|]. intros event. destruct event; try (left; sound_walk; done).
  right. split; [|sound_walk]. intros s log s' H. qstep H. unfold cost. cbn. lia.
Qed.

Lemma consumeSession_sound n k ctx : sound fuel n k (consumeSession fuel ctx).
Proof.
  unfold consumeSession, end_session. sound_walk. apply sound_loop, deliver_loop_sound.
Qed.
#[local] Hint Resolve consumeSession_sound : rabbit_sound.

Lemma consume_loop_sound n ctx a : sound fuel n 0 (consume_loop fuel n ctx a).
Proof.
  revert a. induction n as [|n IH]; intros a; cbn [consume_loop]; [apply sound_Spent|].
  do 4 (sound_step; [sound_walk|]). sound_step; [apply sound_Ret|]. do 3 (sound_step; [sound_walk|]).
  apply sound_round; [sound_walk|]. intros [[]|e]; [right|left; apply sound_Ret].
  split; [apply waitForReconnect_costs|apply IH].
Qed.

Lemma rabbit_do_sound ctx op : sound fuel fuel 1 (rabbit_do fuel ctx op).
Proof.
  pose proof (delivery_Nack_sound fuel 1). pose proof (consume_loop_sound fuel ctx).
  destruct op; cbn [rabbit_do]; unfold Consume, delivery_Ack, delivery_Requeue; sound_walk. by apply sound_loop.
Qed.
End publishing.

(** ** The recovered generation *)

Definition state_after (e : entry) : RabbitMQQueue := match e with Called q _ _ => q | Changed _ q => q end.

(** Between two entries of the log another goroutine took the recovered
    generation past [g]. *)
Fixpoint others_recover (g : Z) (s : RabbitMQQueue) (log : list entry) : Prop :=
  match log with
  | [] => False
  | e :: log =>
      (recoveredTopologyGeneration s <= g ∧ g < recoveredTopologyGeneration (state_of e))
      ∨ others_recover g (state_after e) log
  end.

(** The handler returned nil when more than [g] losses had been counted. *)
Definition handler_recovered (g : Z) (log : list entry) : Prop :=
  ∃ qh h ctx, Called qh (RunHandler h ctx) (Ok tt) ∈ log ∧ g < topologyLossGeneration qh.

(** Someone took it past [g]: another goroutine, or a section in the log. *)
Lemma recovered_by g s l e :
  recoveredTopologyGeneration s <= g → g < recoveredTopologyGeneration (state_of e) →
  others_recover g s (l ++ [e])
  ∨ ∃ l1 q q' l2, l = l1 ++ Changed q q' :: l2 ∧ recoveredTopologyGeneration q <= g ∧ g < recoveredTopologyGeneration q'.
Proof.
  revert s. induction l as [|e0 l IH]; intros s Hs He; cbn [app others_recover]; [by left; left|].
  destruct (Z.le_gt_cases (recoveredTopologyGeneration (state_of e0)) g) as [H0|H0]; [|left; left; lia].
  destruct (Z.le_gt_cases (recoveredTopologyGeneration (state_after e0)) g) as [H1|H1].
  - destruct (IH (state_after e0) H1 He) as [H|(l1 & q & q' & l2 & -> & Hq)]; [by left; right|right].
    by exists (e0 :: l1), q, q', l2.
  - destruct e0 as [X q c x|q q']; cbn in *; [lia|]. right. by exists [], q, q', l.
Qed.

Lemma marked_recovered g s l e l2 :
  marked (l ++ e :: l2) → recoveredTopologyGeneration s <= g → g < recoveredTopologyGeneration (state_of e) →
  handler_recovered g l ∨ others_recover g s (l ++ [e]).
Proof.
  intros Hm Hs He. destruct (recovered_by g s l e Hs He) as [H|(m1 & q & q' & m2 & -> & Hq & Hq')]; [by right|left].
  destruct (Hm m1 q q' (m2 ++ e :: l2)) as (l0 & qh & h & ctx & -> & Hh); [by simplify_list_eq|lia|].
  exists qh, h, ctx. split; [|lia]. rewrite <- app_assoc. apply elem_of_app. right. by left.
Qed.

Section theorems.
Context `{JS : !Json}.

(** C11: The messages of a lost queue are recovered before the queue exists
    again.  A repair with a handler registered (and a loss counter that has not
    wrapped) declares the main queue only when the broker said that it is there, or
    after the application's handler returned nil in a state in
    which this loss was counted: it ran in this repair, or another goroutine
    marked the loss as recovered meanwhile.  And such marks can be trusted:
    whatever the queue's operations do, the recovered generation changes only
    right after the handler returned nil, never past the losses that were
    counted by then; also in a run that the bound of a loop cuts short. *)
Theorem rabbit_restore_after_recovery fuel ctx :
  (∀ op s log s' r, runs (rabbit_do fuel ctx op) s log s' r → marked log)
  ∧ (∀ op s log, spends (rabbit_do fuel ctx op) s log → marked log)
  ∧ ∀ c s log s' r,
      runs (repairTopologyOnConnectionUnbounded fuel ctx c) s log s' r →
      is_Some (topologyLossHandler s) → Forall counted log →
      recoveredTopologyGeneration s <= topologyLossGeneration s →
      queue_found (queueName s) log
      ∨ ∀ l1 q ch name durable autoDelete exclusive dl x l2,
          let declared := Called q (QueueDeclare ch name durable autoDelete exclusive (Some dl)) x in
          log = l1 ++ declared :: l2 →
          handler_recovered (topologyLossGeneration s) l1
          ∨ others_recover (topologyLossGeneration s) s (l1 ++ [declared]).
Proof.
  split; [intros op s log s' r; apply (so_marks _ _ _ _ (rabbit_do_sound fuel ctx op))|].
  split; [intros op s log; apply (so_cut _ _ _ _ (rabbit_do_sound fuel ctx op))|].
  intros c s log s' r Hr Hh Hc Hs. pose proof (so_marks _ _ _ _ (repairUnbounded_sound fuel 0 0 ctx c) _ _ _ _ Hr) as Hm.
  apply repair_recovers in Hr as [Hf|Hall]; [by left|right|done..].
  intros l1 q ch name du au ex dl x l2 declared ->. apply Forall_app in Hall as [_ [Hq _]%Forall_cons].
  by apply (marked_recovered _ s l1 declared l2).
Qed.

(** C17: Every operation of the queue ends unless something outside keeps it
    going.  When it has gone through any [fuel] rounds of one of its loops
    (connecting, taking the recovery lock, recovering, publishing, waiting for a
    confirmation, delivering, consuming), then [fuel - 1] times a delay passed, a
    message came back, a delivery arrived or somebody dropped the session about
    to be used; or [fuel] more losses of the topology had been counted (by a counter that did not wrap)
    than were recovered at the start.  In particular waiting for a confirmation goes on only while the
    broker returns messages, and recovering goes on only while the handler
    succeeds, each time for a new loss. *)
Theorem rabbit_loops_bounded fuel ctx :
  (∀ op s log, spends (rabbit_do fuel ctx op) s log → Forall counted log →
     (fuel <= count outside log + gone_sessions log + 1)%nat
     ∨ ∃ e, e ∈ log ∧ recoveredTopologyGeneration s + Z.of_nat fuel <= topologyLossGeneration (state_of e))
  ∧ (∀ session s log, spends (waitForPublishConfirmation fuel ctx session) s log → (fuel <= count returned_event log + 1)%nat)
  ∧ (∀ s log, spends (recovery_loop fuel ctx) s log →
       count handler_success log = fuel
       ∧ (fuel = 0%nat ∨ ∃ e, e ∈ log ∧ recoveredTopologyGeneration s + Z.of_nat fuel <= topologyLossGeneration (state_of e))).
Proof.
  split; [|split].
  - intros op s log H Hc. destruct (so_paid _ _ _ _ (rabbit_do_sound fuel ctx op) s log H Hc) as [Hp|[Hp|Hp]];
      [by left|by left|by right].
  - intros session s log H. unfold waitForPublishConfirmation in H.
    destruct (s_channel session), (s_confirms session), (s_closed session); try done.
    apply confirm_loop_spends in H. case_bool_decide; lia.
  - intros s log H. by apply recovery_loop_cut in H as [_ H].
Qed.
End theorems.

(** The broker lost the queue: it is found missing twice, the jobs are
    recovered, then it is declared. *)
Lemma rabbit_restore_after_recovery_witness :
  ∃ log q' (r : unit_res), succeeded r && (recoveredTopologyGeneration q' =? 1) && forallb counting log = true
  ∧ (queue_found "checks" log
     ∨ ∀ l1 q ch name durable autoDelete exclusive dl x l2,
         let declared := Called q (QueueDeclare ch name durable autoDelete exclusive (Some dl)) x in
         log = l1 ++ declared :: l2 → handler_recovered 0 l1 ∨ others_recover 0 sample_rabbit (l1 ++ [declared])).
Proof.
  destruct (sample_runs moved true (repairTopologyOnConnectionUnbounded 5 Caller 0%nat) sample_rabbit
    (λ log q' r, succeeded r && (recoveredTopologyGeneration q' =? 1) && forallb counting log)) as (log & q' & r & Hr & Hf).
  { vm_compute. reflexivity. }
  exists log, q', r. split; [exact Hf|]. apply andb_true_iff in Hf as [_ Hc].
  apply (proj2 (proj2 (rabbit_restore_after_recovery 5 Caller)) 0%nat sample_rabbit log q' r);
    [exact Hr|by eexists|by apply counting_counted|vm_compute; discriminate].
Defined.

(** A broker that returns messages for ever. *)
Definition returning_broker (past : list entry) (X : Type) (c : acall X) : X :=
  match c in acall X return X with
  | AwaitConfirm _ returnsOpen _ => if returnsOpen then ReturnArrived else Confirmed true
  | c => sample_broker false past _ c
  end.

(** Publishing to it goes on for as many rounds as messages come back. *)
Lemma rabbit_loops_bounded_witness :
  ∃ log, spends (rabbit_do 5 Caller (OpPublish sample_message)) sample_rabbit log
  ∧ (count returned_event log =? 5)%nat && forallb counting log = true
  ∧ ((5 <= count outside log + gone_sessions log + 1)%nat
     ∨ ∃ e, e ∈ log ∧ recoveredTopologyGeneration sample_rabbit + Z.of_nat 5 <= topologyLossGeneration (state_of e)).
Proof.
  destruct (cut_off returning_broker [] (rabbit_do 5 Caller (OpPublish sample_message)) sample_rabbit) as [log|] eqn:Hl;
    [|by vm_compute in Hl].
  assert (spends (rabbit_do 5 Caller (OpPublish sample_message)) sample_rabbit log) as Hr.
  { eapply cut_off_exhausts; [apply moved_preorder| |exact Hl]. intros past X c. destruct c; cbn; try done. destruct returnsOpen; [by left|by right]. }
  assert ((count returned_event log =? 5)%nat && forallb counting log = true) as Hf.
  { vm_compute in Hl. injection Hl as <-. vm_compute. reflexivity. }
  exists log. split; [exact Hr|]. split; [exact Hf|]. apply andb_true_iff in Hf as [_ Hc].
  apply (proj1 (rabbit_loops_bounded 5 Caller) (OpPublish sample_message) sample_rabbit log Hr). by apply counting_counted.
Defined.
