(* ===== verification/RabbitStart.v ===== *)
(** * Starting the RabbitMQ queue from the configuration (queue.go)

    The settings of the queue are those of the configuration, and with the
    limits [LoadConfig] enforces its waits are bounded on both sides. *)

From stdpp Require Import base list gmap strings.
From Stdlib Require Import ZArith Lia Ascii.
From S2P Require Import Prelude GoNum GoStrings NetworkPolicy Egress Domain Store StoreInv Sample Checker Config ConfigSpec Backoff Queue Shared Rabbit RabbitPublish RabbitSample RabbitSpec RabbitDelivery.
#[local] Open Scope string_scope.
#[local] Open Scope list_scope.
#[local] Open Scope Z_scope.
#[local] Open Scope shared_scope.
#[local] Abbreviation runs := (run moved possible).

(** The queue before its first connection. *)
Definition configured_queue (cfg : Config) (handler : option Handler) : RabbitMQQueue :=
  {| url := cfg_RabbitMQURL cfg; queueName := cfg_QueueName cfg; dlqName := cfg_DeadLetterQueueName cfg;
     prefetch := cfg_QueuePrefetch cfg; rmaxAttempts := cfg_MaxJobAttempts cfg;
     connectTimeout := durationOrDefault (cfg_RabbitMQConnectTimeout cfg) defaultRabbitMQConnectTimeout;
     publishTimeout := durationOrDefault (cfg_RabbitMQPublishTimeout cfg) defaultRabbitMQPublishTimeout;
     reconnectInitial := durationOrDefault (cfg_RabbitMQReconnectInitial cfg) defaultRabbitMQReconnectInitial;
     reconnectMax := durationOrDefault (cfg_RabbitMQReconnectMax cfg) defaultRabbitMQReconnectMax;
     conn := None; channel := None; confirms := None; returns := None; publishClosed := None; rclosed := false;
     topologyLossGeneration := 0; recoveredTopologyGeneration := 0; topologyLossHandler := handler |}.

(** On [configured_queue cfg handler]: one attempt to connect. *)
Definition newRabbitMQQueue (fuel : nat) : qprog unit_res :=
  let* timeout := read connectTimeout in connectOnce fuel (WithTimeout Background timeout).

Definition NewRabbitMQQueue (fuel : nat) (cfg : Config) : RabbitMQQueue * qprog unit_res :=
  (configured_queue cfg None, newRabbitMQQueue fuel).

Definition NewRabbitMQQueueWithTopologyLossHandler (fuel : nat) (cfg : Config) (handler : option Handler)
  : RabbitMQQueue * qprog unit_res :=
  match handler with
  | None => (configured_queue cfg None, fail QNilHandler)
  | Some h => (configured_queue cfg (Some h), newRabbitMQQueue fuel)
  end.

Lemma configured_session_ok cfg handler : session_ok (configured_queue cfg handler).
Proof. done. Qed.

Lemma reconnectDelay_runs attempt s log s' d :
  runs (reconnectDelay attempt) s log s' d →
  0 < reconnectInitial s <= reconnectMax s → reconnectMax s <= max_int64 →
  let base := capped_exponential attempt (reconnectInitial s) (reconnectMax s) in
  base / 2 <= d <= base ∧ 0 < d <= reconnectMax s.
Proof.
  intros H Hi Hm. unfold reconnectDelay in H. qstep H.
  assert (reconnectInitial s0 = reconnectInitial s ∧ reconnectMax s0 = reconnectMax s) as [E1 E2].
  { pose proof (mv_settings _ _ HR) as Hs. unfold settings in Hs. by simplify_eq. }
  rewrite E1, E2 in H. qstep H. qstep H. subst d. cbn in Hx. revert Hx.
  rewrite rabbit_base_capped by lia. intros Hx base.
  set (n := base - Z.quot base 2 + 1) in *.
  (** The draw as a source that is asked once. *)
  set (rnd := λ m, if m =? n then a else 0).
  assert (rabbitMQReconnectDelay (λ _, a) attempt (reconnectInitial s) (reconnectMax s)
          = rabbitMQReconnectDelay rnd attempt (reconnectInitial s) (reconnectMax s)) as ->.
  { unfold rabbitMQReconnectDelay. rewrite rabbit_base_capped by lia. fold base n.
    unfold rnd. by rewrite Z.eqb_refl. }
  apply rabbitMQReconnectDelay_bounds; [|done|done].
  intros m Hpos. unfold rnd. destruct (Z.eqb_spec m n) as [->|]; [by apply Hx|lia].
Qed.

(** A queue started from an accepted configuration has its limits: the
    timeouts and backoffs are the configured ones, never a fallback; whether or
    not the first connection succeeds, the session is whole or absent and no
    connection is leaked; and from then on every wait before a reconnection is
    at least 50ms, so the broker is not flooded, and at most the configured
    maximum, growing exponentially in between. *)
Lemma rabbit_starts_configured `{EN : !Environment, UN : !Unicode, UP : !URLParser, UQ : !URLQuery} fuel cfg handler log q r :
  LoadConfig = Ok cfg → runs (newRabbitMQQueue fuel) (configured_queue cfg handler) log q r →
  session_ok q ∧ accounted log
  ∧ connectTimeout q = cfg_RabbitMQConnectTimeout cfg ∧ publishTimeout q = cfg_RabbitMQPublishTimeout cfg
  ∧ reconnectInitial q = cfg_RabbitMQReconnectInitial cfg ∧ reconnectMax q = cfg_RabbitMQReconnectMax cfg
  ∧ ∀ attempt log2 q2 d, runs (reconnectDelay attempt) q log2 q2 d →
      let base := capped_exponential attempt (cfg_RabbitMQReconnectInitial cfg) (cfg_RabbitMQReconnectMax cfg) in
      base / 2 <= d <= base ∧ 50 * Millisecond <= d <= cfg_RabbitMQReconnectMax cfg.
Proof.
  intros (Hv & _ & Hr)%LoadConfig_iff Hrun.
  pose proof (ro_reconnect _ Hr) as Hle. apply rabbit_limits in Hv as (Hc & Hp & Hi & Hm).
  unfold Second, Millisecond, Minute, Hour in *.
  set (q0 := configured_queue cfg handler) in *.
  assert (connectTimeout q0 = cfg_RabbitMQConnectTimeout cfg ∧ publishTimeout q0 = cfg_RabbitMQPublishTimeout cfg
    ∧ reconnectInitial q0 = cfg_RabbitMQReconnectInitial cfg ∧ reconnectMax q0 = cfg_RabbitMQReconnectMax cfg) as (E1 & E2 & E3 & E4).
  { unfold q0, configured_queue, durationOrDefault. cbn. rewrite !(proj2 (Z.leb_gt _ 0)) by lia. done. }
  assert (only calm (newRabbitMQQueue fuel)) as Hcalm by (unfold newRabbitMQQueue; only_walk).
  assert (kept q0 q) as Hkept.
  { eapply (run_within moved possible kept); [apply moved_kept| |exact Hrun].
    eapply only_mono; [apply section_kept|]. by apply only_busy_moves, only_calm_busy. }
  assert (settings q = settings q0) as Hs by apply Hkept.
  assert (connectTimeout q = connectTimeout q0 ∧ publishTimeout q = publishTimeout q0
    ∧ reconnectInitial q = reconnectInitial q0 ∧ reconnectMax q = reconnectMax q0) as (F1 & F2 & F3 & F4)
    by (unfold settings in Hs; clear -Hs; by simplify_eq).
  rewrite F1, F2, F3, F4, E1, E2, E3, E4. split; [apply Hkept, configured_session_ok|].
  split; [revert Hrun; apply bind_accounting; [apply still_accounting; only_walk|intros; apply connectOnce_accounting]|].
  do 4 (split; [done|]). intros attempt log2 q2 d Hd. apply reconnectDelay_runs in Hd; rewrite ?F3, ?F4, ?E3, ?E4 in *;
    [|lia|unfold max_int64; lia].
  destruct Hd as [Hb Hd]. split; [exact Hb|].
  pose proof (capped_exponential_bounds attempt (cfg_RabbitMQReconnectInitial cfg) (cfg_RabbitMQReconnectMax cfg) ltac:(lia)).
  assert (50 * 1000000 <= capped_exponential attempt (cfg_RabbitMQReconnectInitial cfg) (cfg_RabbitMQReconnectMax cfg) / 2)
    by (apply Z.div_le_lower_bound; lia). lia.
Qed.

Lemma rabbit_starts_configured_witness :
  ∃ cfg log q r, LoadConfig = Ok cfg ∧ session_ok q ∧ reconnectMax q = cfg_RabbitMQReconnectMax cfg
  ∧ runs (newRabbitMQQueue 5) (configured_queue cfg None) log q r.
Proof.
  assert (match LoadConfig with Ok cfg => sample_check false (newRabbitMQQueue 5) (configured_queue cfg None) (λ _ _ r, succeeded r)
          | Err _ => false end = true) as H by (vm_compute; reflexivity).
  destruct LoadConfig as [cfg|e] eqn:Hc; [|discriminate].
  destruct (sample_runs moved false _ _ _ H) as (log & q & r & Hr & _).
  exists cfg, log, q, r. destruct (rabbit_starts_configured 5 cfg None log q r Hc Hr) as (H1 & _ & _ & _ & _ & H2 & _).
  exact (conj eq_refl (conj H1 (conj H2 Hr))).
Defined.
