(* ===== verification/Runtime.v ===== *)
(** * The scheduler and the workers (runtime.go, service.go)

    The scheduler pass and the delivery handler call the repository, the
    broker, the checker and the clock.  They are written here as programs over
    those calls ([prog]); a property of a program holds for every answer the
    calls may give ([wp]), failures of the database and of the broker
    included.  [Pipeline] runs the same programs on the concrete store and
    queue. *)

From stdpp Require Import base list gmap strings.
From Stdlib Require Import ZArith Lia Ascii.
From S2P Require Import Prelude GoNum GoStrings NetworkPolicy Egress Domain Backoff Checker Queue.
#[local] Open Scope string_scope.
#[local] Open Scope list_scope.
#[local] Open Scope Z_scope.

(** ** Calls

    A [QueueDelivery] carries the message and whether it may be retried; its
    three closures are the calls [Ack], [Nack] and [Requeue] of the handler
    that was given the delivery ([Requeue] is nil for some brokers). *)
Record QueueDelivery := { Job : CheckJobMessage; Retryable : bool; HasRequeue : bool }.

Inductive metric := RecordScheduled | RecordSkipped | RecordInfrastructureRequeue
| RecordResult (r : CheckResult) (at_ : Time).

Inductive call : Type → Type :=
(* repository *)
| RepoGet (id : string) : call (res GoError Monitor)
| RepoClaimDueJobs (limit leaseTimeout maxAttempts : Z) : call (res GoError (list CheckJobRecord))
| RepoMarkJobPublished (claim : PublicationClaim) : call (option GoError)
| RepoReleaseJobPublish (claim : PublicationClaim) (lastError : string) : call (option GoError)
| RepoMarkJobProcessing (id jobID : string) (attempt leaseTimeout : Z) : call (res GoError ProcessingLease)
| RepoMarkJobFailed (lease : ProcessingLease) (lastError : string) (retryDelay : Z) : call (option GoError)
| RepoMarkJobDead (lease : ProcessingLease) (lastError : string) : call (option GoError)
| RepoAddCheck (record : CheckRecord) (lease : ProcessingLease) : call (res GoError Monitor)
(* broker *)
| QueuePublish (message : CheckJobMessage) : call (option GoError)
| DeliveryAck : call (option GoError)
| DeliveryNack (requeue : bool) : call (option GoError)
| DeliveryRequeue : call (option GoError)
(* the rest of the world *)
| CheckSite (monitor : Monitor) : call CheckResult
| Draw : call Entropy
| Now : call Time
| Sleep (delay : Z) : call bool            (* false: the context ended first *)
| NextBackoff (jobID : string) (workerID : Z) : call Z
| ResetBackoff : call unit
| Record_ (m : metric) : call unit.

Inductive prog (A : Type) : Type :=
| Ret (a : A)
| Vis {X : Type} (c : call X) (k : X → prog A).
Arguments Ret {A} a.
Arguments Vis {A X} c k.

Fixpoint prog_bind {A B} (p : prog A) (f : A → prog B) : prog B :=
  match p with Ret a => f a | Vis c k => Vis c (λ x, prog_bind (k x) f) end.
Definition perform {X} (c : call X) : prog X := Vis c Ret.

Declare Scope prog_scope.
Notation "'let*' x := p 'in' q" := (prog_bind p (λ x, q)) (at level 200, x pattern, p at level 100, q at level 200) : prog_scope.
Notation "'do*' p 'in' q" := (prog_bind p (λ _, q)) (at level 200, p at level 100, q at level 200) : prog_scope.
#[local] Open Scope prog_scope.

(** ** Scheduler *)

(** [errors.Is(err, target)] on the sentinels the handlers test. *)
Definition is_inactive (e : GoError) : bool :=
  match e with ErrMonitorNotFound | ErrStaleJob => true | _ => false end.
Definition is_refused (e : GoError) : bool :=
  match e with ErrMonitorNotFound | ErrStaleJob | ErrJobAlreadyProcessing => true | _ => false end.

(** One iteration of the loop over the claimed jobs. *)
Definition publish_job (persistedJob : CheckJobRecord) : prog unit :=
  let claim := job_PublicationClaim persistedJob in
  let* now := perform Now in
  let message := mkMessage (job_ID persistedJob) (job_MonitorID persistedJob)
                   (wrap64 (job_Attempt persistedJob + 1)) (UTC now) in
  let* published := perform (QueuePublish message) in
  match published with
  | Some _ =>
      do* perform (RepoReleaseJobPublish claim "broker publish failed") in
      perform (Record_ RecordSkipped)
  | None =>
      do* perform (RepoMarkJobPublished claim) in
      perform (Record_ RecordScheduled)
  end.

Fixpoint publish_jobs (jobs : list CheckJobRecord) : prog unit :=
  match jobs with
  | [] => Ret tt
  | job :: rest => do* publish_job job in publish_jobs rest
  end.

Definition enqueueDueMonitorJobs (limit leaseTimeout maxAttempts : Z) : prog unit :=
  let* claimed := perform (RepoClaimDueJobs limit leaseTimeout maxAttempts) in
  match claimed with
  | Err _ => Ret tt
  | Ok jobs => publish_jobs jobs
  end.

(** ** Workers *)

(** [StoreCheckResult] of the service: a duplicate counts as stored. *)
Definition StoreCheckResult (record : CheckRecord) (result : CheckResult) (lease : ProcessingLease)
  : prog (option GoError) :=
  let* added := perform (RepoAddCheck record lease) in
  match added with
  | Err ErrDuplicateJob => Ret None
  | Err err => Ret (Some err)
  | Ok monitor => do* perform (Record_ (RecordResult result (mon_LastCheckedAt monitor))) in Ret None
  end.

Definition leaseStateRetryInitialDelay : Z := 50 * Millisecond.
Definition leaseStateRetryMaxDelay : Z := Second.

(** The loop of [retryJobStateTransition] from a given delay; [None] when the
    fuel is spent. *)
Fixpoint retry_loop (fuel : nat) (transition : prog (option GoError)) (delay : Z)
  : prog (option (option GoError)) :=
  match fuel with
  | O => Ret None
  | S fuel' =>
      let* err := transition in
      match err with
      | None => Ret (Some None)
      | Some e =>
          if is_inactive e then Ret (Some (Some e))
          else
            let* fired := perform (Sleep delay) in
            if fired : bool
            then retry_loop fuel' transition (Z.min (wrap64 (delay * 2)) leaseStateRetryMaxDelay)
            else Ret (Some (Some e))
      end
  end.
Definition retryJobStateTransition (fuel : nat) (transition : prog (option GoError)) : prog (option (option GoError)) :=
  retry_loop fuel transition leaseStateRetryInitialDelay.

(** How the handler ends: with nil, or with an error that stops the worker. *)
Inductive HandleErr :=
| RequeueFailed (cause err : GoError) | PersistRetryFailed (err : GoError) | AckAfterRetryFailed (err : GoError)
| PersistDeadFailed (err : GoError) | DeadLetterFailed (err : GoError).

Definition requeueInfrastructureFailure (delivery : QueueDelivery) (cause : GoError) (workerID : Z)
  : prog (option HandleErr) :=
  let* delay := perform (NextBackoff (msg_JobID (Job delivery)) workerID) in
  let* fired := perform (Sleep delay) in
  if negb fired then Ret None
  else
    let* err := (if HasRequeue delivery then perform DeliveryRequeue else perform (DeliveryNack true)) in
    match err with
    | Some err => Ret (Some (RequeueFailed cause err))
    | None => do* perform (Record_ RecordInfrastructureRequeue) in Ret None
    end.

(** After a failed state transition: acknowledge when the job moved on
    without this worker, otherwise stop with [failure]. *)
Definition settle_inactive (stateErr : GoError) (failure : GoError → HandleErr) : prog (option HandleErr) :=
  if is_inactive stateErr then do* perform DeliveryAck in Ret None else Ret (Some (failure stateErr)).

(** The handler; the outer option is [None] when the fuel of the retry loop is
    spent. *)
Definition handleQueueDelivery (fuel : nat) (workerID : Z) (delivery : QueueDelivery) (leaseTimeout : Z)
  : prog (option (option HandleErr)) :=
  let job := Job delivery in
  let* got := perform (RepoGet (msg_MonitorID job)) in
  match got with
  | Err ErrMonitorNotFound => do* perform ResetBackoff in do* perform DeliveryAck in Ret (Some None)
  | Err err => let* r := requeueInfrastructureFailure delivery err workerID in Ret (Some r)
  | Ok monitor =>
      let* leased := perform (RepoMarkJobProcessing (msg_MonitorID job) (msg_JobID job) (msg_Attempt job) leaseTimeout) in
      match leased with
      | Err err =>
          if is_refused err then do* perform ResetBackoff in do* perform DeliveryAck in Ret (Some None)
          else let* r := requeueInfrastructureFailure delivery err workerID in Ret (Some r)
      | Ok lease =>
          do* perform ResetBackoff in
          let* result := perform (CheckSite monitor) in
          let* rnd := perform Draw in
          let record := CheckRecordFromResult result rnd in
          let record := {| rec_ID := rec_ID record; rec_JobID := msg_JobID job; rec_MonitorID := rec_MonitorID record;
                           rec_StatusCode := rec_StatusCode record; rec_LatencyMS := rec_LatencyMS record;
                           rec_Error := rec_Error record; rec_Success := rec_Success record;
                           rec_CheckedAt := rec_CheckedAt record |} in
          let* stored := StoreCheckResult record result lease in
          match stored with
          | None => do* perform DeliveryAck in Ret (Some None)
          | Some _ =>
              if Retryable delivery then
                let* transition := retryJobStateTransition fuel
                  (perform (RepoMarkJobFailed lease "result persistence failed" (checkJobRetryDelay (msg_Attempt job)))) in
                match transition with
                | None => Ret None
                | Some (Some stateErr) => let* r := settle_inactive stateErr PersistRetryFailed in Ret (Some r)
                | Some None =>
                    let* acked := perform DeliveryAck in
                    Ret (Some (match acked with Some e => Some (AckAfterRetryFailed e) | None => None end))
                end
              else
                let* transition := retryJobStateTransition fuel
                  (perform (RepoMarkJobDead lease "result persistence failed")) in
                match transition with
                | None => Ret None
                | Some (Some stateErr) => let* r := settle_inactive stateErr PersistDeadFailed in Ret (Some r)
                | Some None =>
                    let* nacked := perform (DeliveryNack false) in
                    Ret (Some (match nacked with Some e => Some (DeadLetterFailed e) | None => None end))
                end
          end
      end
  end.

(** ** What a program does, whatever the calls answer *)

(** The calls a property may speak of, with their answers. *)
Inductive Event :=
| EGet (r : res GoError Monitor)
| EClaimed (r : res GoError (list CheckJobRecord))
| EPublished (claim : PublicationClaim) (r : option GoError)
| EReleased (claim : PublicationClaim) (r : option GoError)
| EProcessing (r : res GoError ProcessingLease)
| EFailed (lease : ProcessingLease) (delay : Z) (r : option GoError)
| EDead (lease : ProcessingLease) (r : option GoError)
| EAdded (record : CheckRecord) (lease : ProcessingLease) (r : res GoError Monitor)
| ESent (message : CheckJobMessage) (r : option GoError)
| EAck (r : option GoError) | ENack (requeue : bool) (r : option GoError) | ERequeue (r : option GoError)
| EChecked (monitor : Monitor) (r : CheckResult)
| ESlept (delay : Z) (fired : bool)
| EQuiet.

Definition event_of {X} (c : call X) : X → Event :=
  match c in call X return X → Event with
  | RepoGet _ => EGet
  | RepoClaimDueJobs _ _ _ => EClaimed
  | RepoMarkJobPublished claim => EPublished claim
  | RepoReleaseJobPublish claim _ => EReleased claim
  | RepoMarkJobProcessing _ _ _ _ => EProcessing
  | RepoMarkJobFailed lease _ delay => EFailed lease delay
  | RepoMarkJobDead lease _ => EDead lease
  | RepoAddCheck record lease => EAdded record lease
  | QueuePublish message => ESent message
  | DeliveryAck => EAck
  | DeliveryNack requeue => ENack requeue
  | DeliveryRequeue => ERequeue
  | CheckSite monitor => EChecked monitor
  | Sleep delay => ESlept delay
  | Draw | Now | NextBackoff _ _ | ResetBackoff | Record_ _ => λ _, EQuiet
  end.

(** [wp p Q log]: every run of [p], continuing [log], ends with a log and an
    answer that satisfy [Q]. *)
Fixpoint wp {A} (p : prog A) (Q : list Event → A → Prop) (log : list Event) : Prop :=
  match p with
  | Ret a => Q log a
  | Vis c k => ∀ x, wp (k x) Q (log ++ [event_of c x])
  end.

Lemma wp_bind {A B} (p : prog A) (f : A → prog B) Q log :
  wp p (λ log a, wp (f a) Q log) log → wp (prog_bind p f) Q log.
Proof. revert log. induction p as [a|X c k IH]; intros log; cbn; [done|]. intros Hp x. by apply IH. Qed.

Lemma wp_mono {A} (p : prog A) (Q Q' : list Event → A → Prop) log :
  (∀ l a, Q l a → Q' l a) → wp p Q log → wp p Q' log.
Proof. intros HQ. revert log. induction p as [a|X c k IH]; intros log; cbn; [apply HQ|]. intros Hp x. by apply IH. Qed.

(** [may p log a]: with some answers [p] does [log] and returns [a]. *)
Fixpoint may {A} (p : prog A) (log : list Event) (a : A) : Prop :=
  match p with
  | Ret b => log = [] ∧ a = b
  | Vis c k => ∃ x rest, log = event_of c x :: rest ∧ may (k x) rest a
  end.

Lemma wp_may {A} (p : prog A) Q past log a : wp p Q past → may p log a → Q (past ++ log) a.
Proof.
  revert past log. induction p as [b|X c k IH]; intros past log; cbn.
  - intros HQ [-> ->]. by rewrite app_nil_r.
  - intros Hp (x & rest & -> & H). specialize (IH x (past ++ [event_of c x]) rest (Hp x) H).
    by rewrite <- app_assoc in IH.
Qed.

(** Running a program with a handler for its calls: [None] when a call
    panics.  A run produces one of the logs [wp] quantifies over. *)
Fixpoint interp {A W} (h : ∀ X, call X → W → option (W * X)) (p : prog A) (w : W) (log : list Event)
  : option (W * list Event * A) :=
  match p with
  | Ret a => Some (w, log, a)
  | Vis c k => match h _ c w with Some (w, x) => interp h (k x) w (log ++ [event_of c x]) | None => None end
  end.

Lemma wp_interp {A W} (h : ∀ X, call X → W → option (W * X)) (p : prog A) Q w log w' log' a :
  wp p Q log → interp h p w log = Some (w', log', a) → Q log' a.
Proof.
  revert w log. induction p as [b|X c k IH]; intros w log; cbn; [by intros ? [= <- <- <-]|].
  intros Hp. destruct (h X c w) as [[w1 x]|]; [|done]. by apply IH.
Qed.

(** ** Settling a delivery *)

Definition is_settlement (e : Event) : bool :=
  match e with EAck _ | ENack _ _ | ERequeue _ => true | _ => false end.
Definition settlements (log : list Event) : list Event := List.filter is_settlement log.
Definition cancelled (log : list Event) : bool :=
  existsb (λ e, match e with ESlept _ false => true | _ => false end) log.

Lemma settlements_app l1 l2 : settlements (l1 ++ l2) = settlements l1 ++ settlements l2.
Proof. apply List.filter_app. Qed.
Lemma cancelled_app l1 l2 : cancelled (l1 ++ l2) = cancelled l1 || cancelled l2.
Proof. apply List.existsb_app. Qed.

(** A loop over a transition that settles nothing settles nothing, and ends
    with an inactive error unless it was cancelled. *)
Lemma retry_loop_wp fuel (c : call (option GoError)) delay Q log :
  (∀ r, is_settlement (event_of c r) = false) → (∀ r, cancelled [event_of c r] = false) →
  (∀ l r, settlements (log ++ l) = settlements log →
     match r with
     | None => True
     | Some None => cancelled l = false ∧ last l = Some (event_of c None)
     | Some (Some e) => is_inactive e = true ∧ cancelled l = false ∧ last l = Some (event_of c (Some e))
                        ∨ is_inactive e = false ∧ cancelled l = true
     end → Q (log ++ l) r) →
  wp (retry_loop fuel (perform c) delay) Q log.
Proof.
  intros Hc Hcc. revert delay log. induction fuel as [|fuel IH]; intros delay log HQ; cbn [retry_loop].
  { cbn. specialize (HQ [] None). rewrite app_nil_r in HQ. by apply HQ. }
  cbn. intros [e|].
  - destruct (is_inactive e) eqn:He.
    + cbn. apply (HQ [_] (Some (Some e))).
      * rewrite settlements_app. cbn. by rewrite Hc, app_nil_r.
      * left. split; [done|]. split; [apply Hcc|done].
    + cbn. intros [|].
      * apply IH. intros l r Hl Hr. rewrite <- !app_assoc in *. apply HQ.
        -- revert Hl. rewrite !settlements_app. cbn. by rewrite Hc, ?app_nil_r.
        -- specialize (Hcc (Some e)). cbn in Hcc. rewrite orb_false_r in Hcc.
           destruct r as [[e'|]|]; [|destruct Hr as [Hr1 Hr2]|done].
           ++ destruct Hr as [(? & Hr1 & Hr2)|[? Hr1]]; [left|right]; (split; [done|]);
                cbn; rewrite Hcc; cbn; [split; [done|]|done].
              destruct l as [|x l]; [done|]. cbn in *. done.
           ++ cbn. rewrite Hcc. cbn. split; [done|]. destruct l as [|x l]; [done|]. cbn in *. done.
      * rewrite <- app_assoc. apply (HQ _ (Some (Some e))).
        -- rewrite settlements_app. cbn. by rewrite Hc, app_nil_r.
        -- right. split; [done|]. specialize (Hcc (Some e)). cbn in Hcc. rewrite orb_false_r in Hcc. cbn. by rewrite Hcc.
  - cbn. apply (HQ [_] (Some None)).
    + rewrite settlements_app. cbn. by rewrite Hc, app_nil_r.
    + split; [apply Hcc|done].
Qed.

(** Walks through the calls of a program, splitting on every answer. *)
Ltac wp_step :=
  lazymatch goal with
  | |- wp (prog_bind _ _) _ _ => apply wp_bind
  | |- wp (match ?x with _ => _ end) _ _ => destruct x
  | |- wp (Vis _ _) _ _ => intros ?
  | |- wp (Ret _) _ _ => cbn [wp]
  | |- wp (perform _) _ _ => intros ?; cbn [wp]
  end.

(** The three ways a handler goes on after its first two calls. *)
Lemma requeue_wp d cause w Q log :
  (∀ delay, Q (log ++ [EQuiet; ESlept delay false]) None) →
  (∀ delay r res, settlements [r] = [r] → (r = ENack true (Some res) ∨ r = ERequeue (Some res)) →
     Q (log ++ [EQuiet; ESlept delay true; r]) (Some (RequeueFailed cause res))) →
  (∀ delay r, settlements [r] = [r] → (r = ENack true None ∨ r = ERequeue None) →
     Q (log ++ [EQuiet; ESlept delay true; r; EQuiet]) None) →
  wp (requeueInfrastructureFailure d cause w) Q log.
Proof.
  intros HQ1 HQ2 HQ3. unfold requeueInfrastructureFailure. cbn. intros delay [|]; cbn.
  - destruct (HasRequeue d); cbn; intros [e|]; cbn; intros; rewrite <- ?app_assoc; cbn.
    + apply (HQ2 _ (ERequeue (Some e))); auto.
    + apply (HQ3 _ (ERequeue None)); auto.
    + apply (HQ2 _ (ENack true (Some e))); auto.
    + apply (HQ3 _ (ENack true None)); auto.
  - rewrite <- ?app_assoc. apply HQ1.
Qed.

Definition inactive_by (l : list Event) : Prop :=
  ∃ e, is_inactive e = true ∧ ((∃ lease delay, EFailed lease delay (Some e) ∈ l) ∨ (∃ lease, EDead lease (Some e) ∈ l)).

(** What a log of the handler looks like: [handled d log answer]. *)
Inductive handled (d : QueueDelivery) : list Event → option (option HandleErr) → Prop :=
| h_gone r : handled d [EGet (Err ErrMonitorNotFound); EQuiet; EAck r] (Some None)
| h_refused m e r : is_refused e = true → handled d [EGet (Ok m); EProcessing (Err e); EQuiet; EAck r] (Some None)
| h_cancelled first delay :
    (∃ e, first = [EGet (Err e)] ∨ ∃ m, first = [EGet (Ok m); EProcessing (Err e)]) →
    handled d (first ++ [EQuiet; ESlept delay false]) (Some None)
| h_requeued first delay r rest a :
    (∃ e, first = [EGet (Err e)] ∨ ∃ m, first = [EGet (Ok m); EProcessing (Err e)]) →
    (r = ENack true None ∨ r = ERequeue None) ∧ rest = [EQuiet] ∧ a = Some None
    ∨ (∃ e c, (r = ENack true (Some e) ∨ r = ERequeue (Some e)) ∧ rest = [] ∧ a = Some (Some (RequeueFailed c e))) →
    handled d (first ++ [EQuiet; ESlept delay true; r] ++ rest) a
| h_processed m lease result record tail a :
    rec_JobID record = msg_JobID (Job d) → finished d lease record tail a →
    handled d ([EGet (Ok m); EProcessing (Ok lease); EQuiet; EChecked m result; EQuiet] ++ tail) a
(** ... and after the check. *)
with finished (d : QueueDelivery) : ProcessingLease → CheckRecord → list Event → option (option HandleErr) → Prop :=
| f_stored lease record m r : finished d lease record [EAdded record lease (Ok m); EQuiet; EAck r] (Some None)
| f_duplicate lease record r : finished d lease record [EAdded record lease (Err ErrDuplicateJob); EAck r] (Some None)
| f_unfinished lease record e l a :
    settlements l = [] → a = None ∨ (∃ err, a = Some (Some err)) →
    finished d lease record ([EAdded record lease (Err e)] ++ l) a
| f_retry lease record e l r delay :
    settlements l = [] → cancelled l = false → last l = Some (EFailed lease delay None) →
    finished d lease record ([EAdded record lease (Err e)] ++ l ++ [EAck r])
      (Some (match r with Some e => Some (AckAfterRetryFailed e) | None => None end))
| f_dead lease record e l r :
    Retryable d = false → settlements l = [] → cancelled l = false → last l = Some (EDead lease None) →
    finished d lease record ([EAdded record lease (Err e)] ++ l ++ [ENack false r])
      (Some (match r with Some e => Some (DeadLetterFailed e) | None => None end))
| f_inactive lease record e l r :
    settlements l = [] → cancelled l = false → inactive_by l →
    finished d lease record ([EAdded record lease (Err e)] ++ l ++ [EAck r]) (Some None).

(** The end of the handler after a result that was not stored. *)
Lemma transition_wp fuel d lease record e0 (c : call (option GoError)) failure settle pre
    (answer : option GoError → option HandleErr) :
  (∀ r, is_settlement (event_of c r) = false) → (∀ r, cancelled [event_of c r] = false) →
  (∀ e, (∃ delay, event_of c (Some e) = EFailed lease delay (Some e)) ∨ event_of c (Some e) = EDead lease (Some e)) →
  (∀ l r, settlements l = [] → cancelled l = false → last l = Some (event_of c None) →
     finished d lease record ([EAdded record lease (Err e0)] ++ l ++ [event_of settle r]) (Some (answer r))) →
  wp (let* transition := retryJobStateTransition fuel (perform c) in
      match transition with
      | None => Ret None
      | Some (Some stateErr) => let* r := settle_inactive stateErr failure in Ret (Some r)
      | Some None => let* acked := perform settle in Ret (Some (answer acked))
      end)
    (λ log a, ∃ tail, log = pre ++ tail ∧ finished d lease record tail a) (pre ++ [EAdded record lease (Err e0)]).
Proof.
  intros Hs Hc Hev Hfin. apply wp_bind. apply retry_loop_wp; [done..|].
  intros l r Hl Hr. rewrite settlements_app in Hl.
  assert (settlements l = []) as Hl'.
  { apply (f_equal length) in Hl. rewrite length_app in Hl. destruct (settlements l); [done|]. cbn in Hl. lia. }
  rewrite <- app_assoc. destruct r as [[e|]|]; cbn [wp].
  - unfold settle_inactive. destruct Hr as [(Hi & Hcl & Hlast)|[Hi Hcl]]; rewrite Hi; cbn.
    + intros r. rewrite <- app_assoc. eexists. split; [reflexivity|]. apply f_inactive; [done..|].
      exists e. split; [done|]. apply last_Some_elem_of in Hlast.
      destruct (Hev e) as [[delay Heq]|Heq]; rewrite Heq in Hlast; eauto.
    + eexists. split; [reflexivity|]. apply f_unfinished; [done|]. eauto.
  - destruct Hr as [Hcl Hlast]. cbn. intros r. rewrite <- app_assoc.
    eexists. split; [reflexivity|]. by apply Hfin.
  - eexists. split; [reflexivity|]. apply f_unfinished; [done|]. by left.
Qed.

(** A failure before the check sends the delivery back. *)
Lemma requeued_wp d e workerID first :
  (∃ e, first = [EGet (Err e)] ∨ ∃ m, first = [EGet (Ok m); EProcessing (Err e)]) →
  wp (let* r := requeueInfrastructureFailure d e workerID in Ret (Some r)) (handled d) first.
Proof.
  intros Hf. apply wp_bind, requeue_wp; cbn [wp]; intros.
  - by apply h_cancelled.
  - apply (h_requeued d first _ _ []); [done|]. right. eauto 10.
  - apply (h_requeued d first _ _ [EQuiet]); [done|]. left. eauto.
Qed.

Lemma handleQueueDelivery_wp fuel workerID d lt :
  wp (handleQueueDelivery fuel workerID d lt) (handled d) [].
Proof.
  unfold handleQueueDelivery. cbn zeta. apply wp_bind. intros [m|e]; cbn [wp].
  2:{ destruct e; try (apply requeued_wp; by eauto). cbn. intros [] r. constructor. }
  apply wp_bind. intros [lease|e]; cbn [wp].
  2:{ destruct (is_refused e) eqn:He; [cbn; intros [] r; by apply h_refused|apply requeued_wp; by eauto]. }
  apply wp_bind. intros []. cbn [wp]. apply wp_bind. intros result. cbn [wp]. apply wp_bind. intros rnd. cbn [wp].
  match goal with |- context [StoreCheckResult ?r _ _] => set (record := r) end.
  set (pre := [EGet (Ok m); EProcessing (Ok lease); EQuiet; EChecked m result; EQuiet]).
  match goal with |- wp ?p _ _ => change (wp p (handled d) pre) end.
  apply (wp_mono _ (λ log a, ∃ tail, log = pre ++ tail ∧ finished d lease record tail a)).
  { intros log a (tail & -> & Hf). by apply (h_processed d m lease result record). }
  unfold StoreCheckResult. apply wp_bind, wp_bind. intros [m'|e]; cbn [wp].
  { cbn. intros [] r. eexists. split; [reflexivity|]. apply f_stored. }
  assert (∀ b, b = Retryable d → wp (if b
    then let* transition := retryJobStateTransition fuel
           (perform (RepoMarkJobFailed lease "result persistence failed" (checkJobRetryDelay (msg_Attempt (Job d))))) in
         match transition with
         | None => Ret None
         | Some (Some stateErr) => let* r := settle_inactive stateErr PersistRetryFailed in Ret (Some r)
         | Some None => let* acked := perform DeliveryAck in
             Ret (Some (match acked with Some e => Some (AckAfterRetryFailed e) | None => None end))
         end
    else let* transition := retryJobStateTransition fuel (perform (RepoMarkJobDead lease "result persistence failed")) in
         match transition with
         | None => Ret None
         | Some (Some stateErr) => let* r := settle_inactive stateErr PersistDeadFailed in Ret (Some r)
         | Some None => let* nacked := perform (DeliveryNack false) in
             Ret (Some (match nacked with Some e => Some (DeadLetterFailed e) | None => None end))
         end)
    (λ log a, ∃ tail, log = pre ++ tail ∧ finished d lease record tail a) (pre ++ [EAdded record lease (Err e)])) as Htail.
  { intros [|] Hb.
    - apply (transition_wp _ d lease record e _ PersistRetryFailed DeliveryAck pre
        (λ acked, match acked with Some e => Some (AckAfterRetryFailed e) | None => None end)); try done; [by eauto|].
      intros l r ? ? ?. by eapply f_retry.
    - apply (transition_wp _ d lease record e _ PersistDeadFailed (DeliveryNack false) pre
        (λ nacked, match nacked with Some e => Some (DeadLetterFailed e) | None => None end)); try done; [by eauto|].
      intros l r ? ? ?. by apply f_dead. }
  specialize (Htail _ eq_refl). destruct e; try exact Htail.
  cbn. intros r. eexists. split; [reflexivity|]. apply f_duplicate.
Qed.

Lemma finished_settlements d lease record tail a :
  finished d lease record tail a →
  (length (settlements tail) <= 1)%nat ∧ (a = Some None → length (settlements tail) = 1%nat).
Proof.
  destruct 1 as [lease record m r|lease record r|lease record e l a Hl Ha|lease record e l r delay Hl Hc Hlast
    |lease record e l r Hd Hl Hc Hlast|lease record e l r Hl Hc Hi]; rewrite ?settlements_app, ?Hl; cbn;
    rewrite ?settlements_app, ?Hl; cbn; split; try done; try lia.
  intros ->. by destruct Ha as [|[? ?]].
Qed.

(** Whatever the repository, the broker and the clock answer, the handler
    of a delivery settles it at most once, and when it ends without an error
    it has settled it exactly once, unless the context ended while it was
    waiting. *)
Lemma delivery_settled_once (fuel : nat) (workerID : Z) (d : QueueDelivery) (leaseTimeout : Z) :
  wp (handleQueueDelivery fuel workerID d leaseTimeout)
    (λ log answer, (length (settlements log) <= 1)%nat
       ∧ (answer = Some None → cancelled log = false → length (settlements log) = 1%nat)) [].
Proof.
  eapply wp_mono; [|apply handleQueueDelivery_wp]. intros log a.
  destruct 1 as [r|m e r He|first delay Hf|first delay r rest a Hf Hr|m lease result record tail a Hj Hfin]; try (cbn; done || lia).
  - rewrite settlements_app, cancelled_app. cbn.
    destruct Hf as (e & [->|[m ->]]); cbn; split; try done; lia.
  - rewrite !settlements_app. destruct Hf as (e & [->|[m ->]]);
      destruct Hr as [([-> | ->] & -> & ->)|(? & ? & [-> | ->] & -> & ->)]; cbn; split; done || lia.
  - rewrite settlements_app. cbn. apply finished_settlements in Hfin as [H1 H2]. split; [done|]. intros Ha _. by apply H2.
Qed.

(** Why a settlement is right. *)
Definition justified (d : QueueDelivery) (log : list Event) (settlement : Event) : Prop :=
  match settlement with
  | EAck _ =>
      EGet (Err ErrMonitorNotFound) ∈ log
      ∨ (∃ e, is_refused e = true ∧ EProcessing (Err e) ∈ log)
      ∨ (∃ record lease r, EAdded record lease r ∈ log ∧ (r = Err ErrDuplicateJob ∨ ∃ m, r = Ok m))
      ∨ (∃ lease delay, EFailed lease delay None ∈ log)
      ∨ inactive_by log
  | ENack false _ => Retryable d = false ∧ ∃ lease, EDead lease None ∈ log
  | ENack true _ | ERequeue _ =>
      (∃ e, EGet (Err e) ∈ log ∨ EProcessing (Err e) ∈ log) ∧ ∀ lease, EProcessing (Ok lease) ∉ log
  | _ => False
  end.

Lemma settled_in_prefix l e x : settlements l = [] → x ∈ [EAdded (e.1.1) (e.1.2) (e.2)] ++ l → is_settlement x = false.
Proof.
  intros Hl [Hx|Hx]%elem_of_app; [apply list_elem_of_singleton in Hx as ->; done|].
  destruct (is_settlement x) eqn:Hs; [|done].
  assert (x ∈ settlements l) as Hin by (apply elem_of_filter_bool; done). rewrite Hl in Hin. set_solver.
Qed.

Lemma inactive_by_sub l l' : (∀ x, x ∈ l → x ∈ l') → inactive_by l → inactive_by l'.
Proof. intros Hs (e & He & Hx). exists e. split; [done|]. destruct Hx as [(?&?&?)|(?&?)]; [left|right]; eauto. Qed.

Lemma finished_justified d lease record tail a x pre :
  finished d lease record tail a → x ∈ tail → is_settlement x = true → justified d (pre ++ tail) x.
Proof.
  assert (∀ l (y : Event), y ∈ l → y ∈ pre ++ l) as Hpre by (intros; apply elem_of_app; by right).
  destruct 1 as [lease record m r|lease record r|lease record e l a Hl Ha|lease record e l r delay Hl Hc Hlast
    |lease record e l r Hd Hl Hc Hlast|lease record e l r Hl Hc Hi]; intros Hx Hset.
  - repeat (apply elem_of_cons in Hx as [->|Hx]; [try done|]); [|by apply not_elem_of_nil in Hx].
    right; right; left. eexists _, _, _. split; [apply Hpre; left|]. eauto.
  - repeat (apply elem_of_cons in Hx as [->|Hx]; [try done|]); [|by apply not_elem_of_nil in Hx].
    right; right; left. eexists _, _, _. split; [apply Hpre; left|]. by left.
  - apply (settled_in_prefix l (record, lease, Err e)) in Hx; [congruence|done].
  - rewrite app_assoc in Hx. apply elem_of_app in Hx as [Hx|Hx].
    + apply (settled_in_prefix l (record, lease, Err e)) in Hx; [congruence|done].
    + apply list_elem_of_singleton in Hx as ->. right; right; right; left. exists lease, delay.
      apply Hpre. apply elem_of_app; right; apply elem_of_app; left. by apply last_Some_elem_of.
  - rewrite app_assoc in Hx. apply elem_of_app in Hx as [Hx|Hx].
    + apply (settled_in_prefix l (record, lease, Err e)) in Hx; [congruence|done].
    + apply list_elem_of_singleton in Hx as ->. split; [done|]. exists lease.
      apply Hpre. apply elem_of_app; right; apply elem_of_app; left. by apply last_Some_elem_of.
  - rewrite app_assoc in Hx. apply elem_of_app in Hx as [Hx|Hx].
    + apply (settled_in_prefix l (record, lease, Err e)) in Hx; [congruence|done].
    + apply list_elem_of_singleton in Hx as ->. right; right; right; right.
      eapply inactive_by_sub; [|exact Hi]. intros y Hy. apply Hpre.
      apply elem_of_app; right; apply elem_of_app; by left.
Qed.

(** C31: the handler settles only for a reason that is already on record, so
    no check is lost: it acknowledges only after the monitor was found deleted,
    the repository refused the attempt, the result was stored (or was already),
    the retry was persisted, or the job was found to have moved on; it
    dead-letters only a delivery without attempts left whose death was
    persisted; it returns the message to the broker only when the repository
    could not be asked and no attempt was started. *)
Theorem settlement_justified (fuel : nat) (workerID : Z) (d : QueueDelivery) (leaseTimeout : Z) :
  wp (handleQueueDelivery fuel workerID d leaseTimeout)
    (λ log _, ∀ x, x ∈ log → is_settlement x = true → justified d log x) [].
Proof.
  eapply wp_mono; [|apply handleQueueDelivery_wp]. intros log a.
  destruct 1 as [r|m e r He|first delay Hf|first delay r rest a Hf Hr|m lease result record tail a Hj Hfin];
    intros x Hx Hset.
  - repeat (apply elem_of_cons in Hx as [->|Hx]; [try done|]); [|by apply not_elem_of_nil in Hx]. left. by left.
  - repeat (apply elem_of_cons in Hx as [->|Hx]; [try done|]); [|by apply not_elem_of_nil in Hx].
    right; left. exists e. split; [done|]. right. by left.
  - destruct Hf as (e & [->|[m ->]]); cbn in Hx;
      repeat (apply elem_of_cons in Hx as [->|Hx]; [done|]); by apply not_elem_of_nil in Hx.
  - assert (justified d (first ++ [EQuiet; ESlept delay true; r] ++ rest) r) as Hj.
    { assert ((∃ e, EGet (Err e) ∈ first ∨ EProcessing (Err e) ∈ first)
        ∧ ∀ lease, EProcessing (Ok lease) ∉ first ++ [EQuiet; ESlept delay true; r] ++ rest) as [(e & He) Hno].
      { destruct Hf as (e & [->|[m ->]]);
          (split; [exists e; set_solver|]; intros lease Hin;
           destruct Hr as [([-> | ->] & -> & _)|(? & ? & [-> | ->] & -> & _)]; cbn in Hin; set_solver). }
      destruct Hr as [([-> | ->] & -> & _)|(? & ? & [-> | ->] & -> & _)];
        (split; [exists e; destruct He; [left|right]; by apply elem_of_app; left|done]). }
    assert (x = r) as ->; [|done].
    destruct Hf as (e & [->|[m ->]]); destruct Hr as [(_ & -> & _)|(? & ? & _ & -> & _)]; cbn in Hx;
      repeat (apply elem_of_cons in Hx as [->|Hx]; [done|]); by apply not_elem_of_nil in Hx.
  - apply elem_of_app in Hx as [Hx|Hx].
    + repeat (apply elem_of_cons in Hx as [->|Hx]; [done|]). by apply not_elem_of_nil in Hx.
    + by eapply finished_justified.
Qed.

(** ** The retry of a state transition *)

(** A repository that fails [n] times before it answers, and a record of the
    delays slept. *)
Definition flaky (X : Type) (c : call X) : nat * list Z → option (nat * list Z * X) :=
  match c in call X return nat * list Z → option (nat * list Z * X) with
  | RepoMarkJobFailed _ _ _ => λ w,
      match w with (O, slept) => Some ((O, slept), None) | (S n, slept) => Some ((n, slept), Some (ErrInfra 1)) end
  | Sleep delay => λ w, Some ((w.1, w.2 ++ [delay]), true)
  | _ => λ _, None
  end.

Definition retry_delay (k : nat) : Z := Z.min (leaseStateRetryInitialDelay * 2 ^ Z.of_nat k) leaseStateRetryMaxDelay.

Lemma retry_delay_S k : Z.min (wrap64 (retry_delay k * 2)) leaseStateRetryMaxDelay = retry_delay (S k).
Proof.
  unfold retry_delay, leaseStateRetryInitialDelay, leaseStateRetryMaxDelay, Millisecond, Second.
  pose proof (Z.pow_pos_nonneg 2 (Z.of_nat k)).
  rewrite wrap64_id by (unfold in_int64, two63, max_int64; lia).
  rewrite Nat2Z.inj_succ, Z.pow_succ_r by lia. lia.
Qed.

Lemma retry_loop_flaky n fuel lease reason d k slept log :
  (n < fuel)%nat → ∃ log',
  interp flaky (retry_loop fuel (perform (RepoMarkJobFailed lease reason d)) (retry_delay k)) (n, slept) log
  = Some ((0%nat, slept ++ (retry_delay <$> seq k n)), log', Some None).
Proof.
  revert fuel k slept log. induction n as [|n IH]; intros [|fuel] k slept log Hlt; try lia; cbn.
  - rewrite app_nil_r. by eexists.
  - rewrite retry_delay_S. match goal with |- context [interp flaky _ _ ?l] =>
      destruct (IH fuel (S k) (slept ++ [retry_delay k]) l ltac:(lia)) as [log' Hlog] end.
    exists log'. rewrite Hlog. by rewrite <- app_assoc.
Qed.

(** A state transition that the repository refuses [n] times for technical
    reasons is retried until it succeeds, after delays that start at 50ms,
    double and never exceed a second; the loop needs one round more than there
    are failures. *)
Lemma retry_until_persisted (n fuel : nat) (lease : ProcessingLease) (reason : string) (d : Z) :
  (n < fuel)%nat → ∃ log,
  interp flaky (retryJobStateTransition fuel (perform (RepoMarkJobFailed lease reason d))) (n, []) []
  = Some ((0%nat, (λ k, Z.min (50 * Millisecond * 2 ^ Z.of_nat k) Second) <$> seq 0 n), log, Some None).
Proof.
  intros Hlt. destruct (retry_loop_flaky n fuel lease reason d 0 [] [] Hlt) as [log Hlog]. exists log.
  unfold retryJobStateTransition. assert (leaseStateRetryInitialDelay = retry_delay 0) as -> by (vm_compute; reflexivity).
  rewrite Hlog. cbn [app]. do 4 f_equal.
Qed.

Lemma retry_until_persisted_witness :
  (7 < 8)%nat ∧ ∃ log,
  interp flaky (retryJobStateTransition 8 (perform (RepoMarkJobFailed
    {| lease_JobID := "j"; lease_MonitorID := "m"; lease_Attempt := 1; lease_LeaseToken := "t" |} "" 0))) (7%nat, []) []
  = Some ((0%nat, (λ k, Z.min (50 * Millisecond * 2 ^ Z.of_nat k) Second) <$> seq 0 7), log, Some None).
Proof. split; [lia|]. apply retry_until_persisted. lia. Defined.
