(* ===== verification/Loops.v ===== *)
(** * The background loops (runtime.go, retention.go, alert.go)

    The scheduler, the retention loop and the alert dispatcher run until their
    context ends, one pass per tick.  They are programs over the calls they make
    ([Shared]), the passes of the scheduler being those of [Runtime]; a batch of
    alerts is dispatched by goroutines that are joined.  The state is that of the
    metrics, which everyone writes.  Their number of rounds is unbounded: the
    fuel of a loop bounds the rounds a theorem looks at, and the theorems speak of
    the runs that return and of those that are cut short. *)

From stdpp Require Import base list gmap strings.
From Stdlib Require Import ZArith Lia Ascii.
From S2P Require Import Prelude GoNum GoStrings NetworkPolicy Egress Domain Backoff Store StoreInv Sample Checker Config ConfigSpec Metrics Alert Sql PgSchema Postgres PgOutbox Queue Runtime Shared.
#[local] Open Scope string_scope.
#[local] Open Scope list_scope.
#[local] Open Scope Z_scope.

(** ** Calls *)

Inductive lcall : Type → Type :=
| Rt {X : Type} (c : Runtime.call X) : lcall X
| QueuePing : lcall (option GoError)
| CtxErr : lcall (option GoError)                      (* ctx.Err() *)
| AwaitTick : lcall bool                               (* the ticker, or false: ctx.Done() *)
| DeleteExpiredData (now : Time) (policy : RetentionPolicy) : lcall (res GoError RetentionResult)
| ClaimAlerts (limit leaseTimeout maxAttempts : Z) : lcall (res GoError (list AlertOutboxEvent))
| SendAlert (event : AlertOutboxEvent) : lcall (option DeliveryErr)
| MarkAlert (c : AlertCall) : lcall (option GoError)
| Pick (runnable : list nat) : lcall nat.              (* the goroutine that moves next *)

#[local] Abbreviation lprog := (Shared.prog Metrics lcall).
#[local] Abbreviation lentry := (Shared.entry Metrics lcall).
#[local] Open Scope shared_scope.

Fixpoint lift {A} (p : Runtime.prog A) : lprog A :=
  match p with
  | Runtime.Ret a => Ret a
  | Runtime.Vis c k => Call (Rt c) (λ x, lift (k x))
  end.

Section loops.
Context `{HT : !HTTPTime} (cfg : Config).

(** Other goroutines count too; a delivery ends as [Send] may end, whatever the
    webhook does. *)
Definition anyone (m m' : Metrics) : Prop := True.
Definition possible (X : Type) (c : lcall X) : X → Prop :=
  match c in lcall X return X → Prop with
  | SendAlert event => λ err, ∃ WC : WebhookClient, err = Send (cfg_AlertWebhookURL cfg) (cfg_UserAgent cfg) event
  | Pick runnable => λ i, i ∈ runnable
  | _ => λ _, True
  end.

(** ** Scheduler *)

Fixpoint RunQueueScheduler (fuel : nat) : lprog unit :=
  match fuel with
  | O => Spent
  | S fuel =>
      let* err := perform QueuePing in
      do* match err with
          | Some _ => Ret tt
          | None => lift (enqueueDueMonitorJobs (cfg_SchedulerBatchSize cfg) (cfg_CheckLeaseTimeout cfg) (cfg_MaxJobAttempts cfg))
          end in
      let* ticked := perform AwaitTick in
      if ticked : bool then RunQueueScheduler fuel else Ret tt
  end.

(** ** Retention *)

Definition retention_policy : RetentionPolicy :=
  {| CheckResults := cfg_CheckResultsRetention cfg; CheckJobs := cfg_CheckJobsRetention cfg;
     AlertOutbox := cfg_AlertOutboxRetention cfg; ResolvedIncident := cfg_ResolvedIncidentRetention cfg;
     BatchSize := cfg_RetentionBatchSize cfg |}.

Fixpoint RunRetention (fuel : nat) : lprog unit :=
  match fuel with
  | O => Spent
  | S fuel =>
      let await := let* ticked := perform AwaitTick in if ticked : bool then RunRetention fuel else Ret tt in
      let* now := perform (Rt Now) in
      let* deleted := perform (DeleteExpiredData (UTC now) retention_policy) in
      match deleted with
      | Err _ => let* ctxErr := perform CtxErr in match ctxErr with Some _ => Ret tt | None => await end
      | Ok _ => await
      end
  end.

(** ** Alert dispatcher *)

Definition alert_config : AlertConfig :=
  {| AlertMaxAttempts := cfg_AlertMaxAttempts cfg; AlertRetryInitialBackoff := cfg_AlertRetryInitialBackoff cfg;
     AlertRetryMaxBackoff := cfg_AlertRetryMaxBackoff cfg |}.

(** Persist the outcome; only what was persisted is counted. *)
Definition record_outcome (c : AlertCall) : lprog unit :=
  let* err := perform (MarkAlert c) in
  match err with
  | None => locked (λ m, (count_outcome c m, tt))
  | Some _ => Ret tt
  end.

(** [dispatchAlert] as a goroutine. *)
Definition dispatch_event (event : AlertOutboxEvent) : lprog unit :=
  let* deliveryErr := perform (SendAlert event) in
  let* done := match deliveryErr with
               | None => Ret false
               | Some _ => let* ctxErr := perform CtxErr in Ret (bool_decide (is_Some ctxErr))
               end in
  match outcome_call alert_config event deliveryErr done with
  | None => Ret tt
  | Some c => record_outcome c
  end.

(** The number of events, and the error. A goroutine takes at most four steps. *)
Definition dispatchAlertBatch : lprog (nat * option GoError) :=
  let* claimed := perform (ClaimAlerts (cfg_AlertDispatchBatchSize cfg) (cfg_AlertLeaseTimeout cfg) (cfg_AlertMaxAttempts cfg)) in
  match claimed with
  | Err err => Ret (0%nat, Some err)
  | Ok events =>
      do* par Pick (4 * length events) (map dispatch_event events) in
      let* ctxErr := perform CtxErr in
      Ret (length events, ctxErr)
  end.

Fixpoint RunAlertDispatcher (fuel : nat) : lprog unit :=
  match fuel with
  | O => Spent
  | S fuel =>
      let* (dispatched, _) := dispatchAlertBatch in
      let* ctxErr := perform CtxErr in
      match ctxErr with
      | Some _ => Ret tt
      | None =>
          if Z.of_nat dispatched =? cfg_AlertDispatchBatchSize cfg then RunAlertDispatcher fuel
          else
            let* ticked := perform AwaitTick in
            if ticked : bool then RunAlertDispatcher fuel else Ret tt
      end
  end.
End loops.

(** ** A batch of alerts *)

Section batch.
Context `{HT : !HTTPTime} (cfg : Config).
#[local] Abbreviation runs := (run anyone (possible cfg)).

Inductive marks (c : AlertCall) : list lentry → Prop :=
| mark_counted m m1 : marks c [Called m (MarkAlert c) None; Changed m1 (count_outcome c m1)]
| mark_refused m err : marks c [Called m (MarkAlert c) (Some err)].

(** What dispatching one event does: one delivery, then one outcome under the
    event's own lease, or none when the dispatcher was told to stop. *)
Inductive outcome_log (event : AlertOutboxEvent) : list lentry → Prop :=
| alert_delivered m l :
    marks (MarkAlertDelivered (ev_ID event) (ev_LeaseToken event)) l → outcome_log event (Called m (SendAlert event) None :: l)
| alert_failed m m1 err c l :
    outcome_spec (alert_config cfg) event (Some err) c → marks c l →
    outcome_log event (Called m (SendAlert event) (Some err) :: Called m1 CtxErr None :: l)
| alert_abandoned m m1 err e :
    outcome_log event [Called m (SendAlert event) (Some err); Called m1 CtxErr (Some e)].

Lemma marks_run c s log s' : runs (record_outcome c) s log s' tt → marks c log.
Proof.
  intros H. unfold record_outcome in H. run_step H. destruct a as [err|]; run_step H; constructor.
Qed.

Lemma dispatch_event_run event s log s' :
  alert_config_ok (alert_config cfg) → runs (dispatch_event cfg event) s log s' tt → outcome_log event log.
Proof.
  intros Hcfg H. unfold dispatch_event in H. run_step H. destruct Hx as [WC ->].
  pose proof (λ done, outcome_call_spec (alert_config cfg) (cfg_AlertWebhookURL cfg) (cfg_UserAgent cfg) event done Hcfg) as Hspec.
  destruct (Send _ _ event) as [err|].
  - run_step H. run_step Hrun. specialize (Hspec a). subst a. destruct a0 as [e|]; cbn [is_Some] in *.
    + rewrite bool_decide_true in H by done. destruct H as (-> & _ & _). apply alert_abandoned.
    + rewrite bool_decide_false in * by (by intros []).
      destruct (outcome_call _ event _ _) as [c|] eqn:Hc; [|by destruct Hspec].
      apply marks_run in H. by eapply alert_failed.
  - run_step H. subst a. apply marks_run in H. by apply alert_delivered.
Qed.

Lemma dispatch_event_ends event : ends_within 4 (dispatch_event cfg event).
Proof.
  assert (∀ c n, (2 <= n)%nat → ends_within n (record_outcome c)) as Hmark.
  { intros c [|[|n]] Hn; [lia..|]. intros [e|]; [by destruct n|]. intros m. by destruct n. }
  intros [err|]; [intros ctxErr|].
  - change (ends_within 2 match outcome_call (alert_config cfg) event (Some err) (bool_decide (is_Some ctxErr)) with
                          | None => Ret tt | Some c => record_outcome c end).
    destruct (outcome_call _ _ _ _); [by apply Hmark|done].
  - apply Hmark. lia.
Qed.

(** C37: However the goroutines of a batch interleave, every alert that was
    claimed is sent once and has at most one outcome recorded, under its own
    lease: delivered when the webhook answered 2xx; otherwise failed, and dead
    exactly on a permanent client error or when its attempts are used up, to be
    retried after the capped exponential backoff or, when longer, the server's
    [Retry-After], never more than a day; a dispatcher that is shutting down
    records no failure.  (The configuration is an accepted one.)  The metrics count exactly the outcomes the repository
    accepted.  The batch ends when all of them have, and reports how many there
    were. *)
Theorem alert_batch_outcomes `{EN : !Environment, UN : !Unicode, UP : !URLParser, UQ : !URLQuery} s log s' n err :
  LoadConfig = Ok cfg →
  runs (dispatchAlertBatch cfg) s log s' (n, err) →
  ∃ m claimed rest,
    log = Called m (ClaimAlerts (cfg_AlertDispatchBatchSize cfg) (cfg_AlertLeaseTimeout cfg) (cfg_AlertMaxAttempts cfg)) claimed :: rest
    ∧ match claimed with
      | Err e => rest = [] ∧ n = 0%nat ∧ err = Some e
      | Ok events =>
          ∃ batch outcomes picks m1, rest = batch ++ [Called m1 CtxErr err] ∧ n = length events
          ∧ Forall2 outcome_log events outcomes
          ∧ batch ≡ₚ concat outcomes ++ picks ∧ Forall (is_pick Pick) picks
      end.
Proof.
  intros Hload H. apply alert_limits in Hload as (Hback & Hmax & _).
  assert (alert_config_ok (alert_config cfg)) as Hcfg by (unfold alert_config_ok, Millisecond in *; cbn; lia).
  unfold dispatchAlertBatch in H. run_step H. destruct a as [events|e].
  - eexists _, _, _. split; [reflexivity|]. cbn beta iota in H. run_step H. destruct a.
    pose proof (run_par Pick anyone (possible cfg) ltac:(done) ltac:(done) _ _ _ _ _ Hrun) as (logs & picks & Hall & Hlog & Hpicks).
    run_step H. run_step H. injection H as -> ->. eexists _, logs, picks, _. split; [reflexivity|]. split; [done|]. split; [|done].
    clear -Hall Hcfg. revert logs Hall. induction events as [|event events IH]; intros logs Hall; cbn in Hall.
    + by inversion Hall.
    + inversion Hall as [|? l ? logs' (s0 & s1 & Hr) Hrest]; subst. constructor; [by eapply dispatch_event_run|by apply IH].
  - run_step H. injection H as -> ->. eexists _, _, _. split; [reflexivity|]. done.
Qed.

(** The fuel of a batch is enough. *)
Lemma dispatchAlertBatch_ends s log : ¬ exhausts anyone (possible cfg) (dispatchAlertBatch cfg) s log.
Proof.
  intros H. unfold dispatchAlertBatch in H. apply exhausts_bind in H as [[? (? & ? & ? & ? & ? & [])]|H].
  destruct H as (l1 & s1 & [events|e] & l2 & _ & H & _); [|done].
  apply exhausts_bind in H as [H|(l3 & s2 & a & l4 & _ & H & _)].
  - revert H. apply (par_ends Pick anyone (possible cfg) ltac:(done) _ _ (replicate (length events) 4%nat)).
    + clear. induction events as [|event events IH]; cbn; constructor; [apply dispatch_event_ends|exact IH].
    + clear. induction events as [|event events IH]; cbn; lia.
  - destruct H as (? & ? & ? & ? & ? & ? & []).
Qed.
End batch.

(** ** The rounds of a loop

    What a loop may do, as an automaton over its log. *)

Section rounds.
Context `{HT : !HTTPTime} (cfg : Config).
#[local] Abbreviation runs := (run anyone (possible cfg)).
#[local] Abbreviation spends := (exhausts anyone (possible cfg)).

(** Scheduler: a tick, then the broker is asked; jobs are claimed once, and only
    when it answered that its queues exist; only the end of the context stops it. *)
Inductive sched_phase := SDue | SVerified | SPassing | SIdle | SStopped.
Definition is_claim {X} (c : Runtime.call X) : bool := match c with RepoClaimDueJobs _ _ _ => true | _ => false end.
Inductive sched_moves : sched_phase → lentry → sched_phase → Prop :=
| sched_ping m err : sched_moves SDue (Called m QueuePing err) (match err with None => SVerified | Some _ => SIdle end)
| sched_claim m claimed :
    sched_moves SVerified
      (Called m (Rt (RepoClaimDueJobs (cfg_SchedulerBatchSize cfg) (cfg_CheckLeaseTimeout cfg) (cfg_MaxJobAttempts cfg))) claimed)
      SPassing
| sched_dispatch m X (c : Runtime.call X) x : is_claim c = false → sched_moves SPassing (Called m (Rt c) x) SPassing
| sched_tick m st ticked :
    st = SIdle ∨ st = SPassing → sched_moves st (Called m AwaitTick ticked) (if ticked : bool then SDue else SStopped).

(** Retention: one pass per tick, with the configured periods and the time of
    the pass; a failed pass is followed by the next. *)
Inductive ret_phase := RDue | RTimed (now : Time) | RFailed | RIdle | RStopped.
Inductive ret_moves : ret_phase → lentry → ret_phase → Prop :=
| ret_now m now : ret_moves RDue (Called m (Rt Now) now) (RTimed now)
| ret_delete m now deleted :
    ret_moves (RTimed now) (Called m (DeleteExpiredData (UTC now) (retention_policy cfg)) deleted)
      (match deleted with Ok _ => RIdle | Err _ => RFailed end)
| ret_ctx m err : ret_moves RFailed (Called m CtxErr err) (match err with None => RIdle | Some _ => RStopped end)
| ret_tick m ticked : ret_moves RIdle (Called m AwaitTick ticked) (if ticked : bool then RDue else RStopped).

(** Dispatcher: it claims again at once only after a full batch. *)
Inductive disp_phase := DReady | DBatch (n : nat) | DEnded (n : nat) | DIdle | DStopped.
Inductive in_batch : lentry → Prop :=
| batch_pick m l i : in_batch (Called m (Pick l) i)
| batch_send m event err : in_batch (Called m (SendAlert event) err)
| batch_ctx m err : in_batch (Called m CtxErr err)
| batch_mark m c err : in_batch (Called m (MarkAlert c) err)
| batch_count m m' : in_batch (Changed m m').
Inductive disp_moves : disp_phase → lentry → disp_phase → Prop :=
| disp_claim m claimed :
    disp_moves DReady
      (Called m (ClaimAlerts (cfg_AlertDispatchBatchSize cfg) (cfg_AlertLeaseTimeout cfg) (cfg_AlertMaxAttempts cfg)) claimed)
      (match claimed with Ok events => DBatch (length events) | Err _ => DEnded 0 end)
| disp_work n e : in_batch e → disp_moves (DBatch n) e (DBatch n)
| disp_joined m n err : disp_moves (DBatch n) (Called m CtxErr err) (DEnded n)
| disp_ctx m n err :
    disp_moves (DEnded n) (Called m CtxErr err)
      (match err with
       | Some _ => DStopped
       | None => if Z.of_nat n =? cfg_AlertDispatchBatchSize cfg then DReady else DIdle
       end)
| disp_tick m ticked : disp_moves DIdle (Called m AwaitTick ticked) (if ticked : bool then DReady else DStopped).

Fixpoint never_claims {A} (p : Runtime.prog A) : Prop :=
  match p with Runtime.Ret _ => True | Runtime.Vis c k => is_claim c = false ∧ ∀ x, never_claims (k x) end.

Lemma publish_jobs_never_claims jobs : never_claims (publish_jobs jobs).
Proof.
  induction jobs as [|job jobs IH]; [done|]. cbn [publish_jobs].
  assert (∀ A B (p : Runtime.prog A) (f : A → Runtime.prog B), never_claims p → (∀ a, never_claims (f a)) →
    never_claims (prog_bind p f)) as Hbind.
  { intros A B p f Hp Hf. induction p as [a|X c k IHp]; cbn in *; [done|]. destruct Hp as [H1 H2]. split; [done|]. auto. }
  apply Hbind; [|by intros _]. split; [done|]. intros now. split; [done|].
  intros [e|]; (split; [done|]; intros r; by split).
Qed.

Lemma lift_passing {A} (p : Runtime.prog A) s log s' a :
  never_claims p → runs (lift p) s log s' a → path sched_moves SPassing log SPassing.
Proof.
  revert s log. induction p as [b|X c k IH]; intros s log Hp; cbn in *.
  - intros (-> & _). constructor.
  - intros (s1 & x & rest & _ & _ & -> & H). destruct Hp as [Hc Hk].
    econstructor; [by apply sched_dispatch|by eapply IH].
Qed.

Lemma lift_ends {A} (p : Runtime.prog A) s log : ¬ spends (lift p) s log.
Proof.
  revert s log. induction p as [b|X c k IH]; intros s log; cbn; [by intros []|].
  intros (s1 & x & rest & _ & _ & -> & H). exact (IH _ _ _ H).
Qed.

Lemma scheduler_pass_path s log s' :
  runs (lift (enqueueDueMonitorJobs (cfg_SchedulerBatchSize cfg) (cfg_CheckLeaseTimeout cfg) (cfg_MaxJobAttempts cfg))) s log s' tt →
  path sched_moves SVerified log SPassing.
Proof.
  intros (s1 & claimed & rest & _ & _ & -> & H). econstructor; [apply sched_claim|].
  destruct claimed as [jobs|e]; [|destruct H as (-> & _); constructor].
  eapply lift_passing; [|exact H]. apply publish_jobs_never_claims.
Qed.
End rounds.

Section loops_end.
Context `{HT : !HTTPTime} (cfg : Config).
#[local] Abbreviation runs := (run anyone (possible cfg)).
#[local] Abbreviation spends := (exhausts anyone (possible cfg)).

(** One round, then the rest of the loop. *)
Lemma scheduler_path fuel : ∀ s log,
  (∀ s', runs (RunQueueScheduler cfg fuel) s log s' tt → path (sched_moves cfg) SDue log SStopped)
  ∧ (spends (RunQueueScheduler cfg fuel) s log → path (sched_moves cfg) SDue log SDue).
Proof.
  induction fuel as [|fuel IH]; intros s log; cbn [RunQueueScheduler]; [split; [done|intros ->; constructor]|].
  assert (∀ l1 ticked m, path (sched_moves cfg) SDue l1 SIdle ∨ path (sched_moves cfg) SDue l1 SPassing →
    path (sched_moves cfg) SDue (l1 ++ [Called m AwaitTick ticked]) (if ticked : bool then SDue else SStopped)) as Htick.
  { intros l1 ticked m [H|H]; (eapply path_app; [exact H|apply path_one, sched_tick; auto]). }
  assert (∀ err s1 l1 s2, runs (match err with
          | Some _ => Ret tt
          | None => lift (enqueueDueMonitorJobs (cfg_SchedulerBatchSize cfg) (cfg_CheckLeaseTimeout cfg) (cfg_MaxJobAttempts cfg))
          end) s1 l1 s2 tt → ∀ m, path (sched_moves cfg) SDue (Called m QueuePing err :: l1) SIdle
            ∨ path (sched_moves cfg) SDue (Called m QueuePing err :: l1) SPassing) as Hpass.
  { intros [e|] s1 l1 s2 H m; [left; destruct H as (-> & _)|right; apply scheduler_pass_path in H].
    - econstructor; [apply sched_ping|constructor].
    - econstructor; [apply sched_ping|exact H]. }
  split.
  - intros s' H. run_step H. run_step H. destruct a0. pose proof (Hpass _ _ _ _ Hrun s0) as Hp.
    run_step H. apply (Htick _ a0 s2) in Hp. destruct a0.
    + apply IH in H. rewrite (app_assoc log), (app_assoc [Called s0 QueuePing a]). eapply path_app; [exact Hp|exact H].
    + run_step H. exact Hp.
  - intros H. apply exhausts_bind in H as [H|(l0 & s0 & err & l1 & Hping & H & ->)];
      [by destruct H as (? & ? & ? & ? & ? & ? & [])|]. run_step Hping.
    apply exhausts_bind in H as [H|(l2 & s2 & [] & l3 & Hrun & H & ->)].
    { destruct err; [done|]. by apply lift_ends in H. }
    pose proof (Hpass _ _ _ _ Hrun s0) as Hp. destruct H as (s3 & ticked & rest & _ & _ & -> & H).
    apply (Htick _ ticked s3) in Hp. destruct ticked; [|done]. apply IH in H.
    change (Called s3 AwaitTick true :: rest) with ([Called s3 AwaitTick true] ++ rest).
    rewrite (app_assoc l2), (app_assoc [Called s0 QueuePing err]). eapply path_app; [exact Hp|exact H].
Qed.

Lemma retention_path fuel : ∀ s log,
  (∀ s', runs (RunRetention cfg fuel) s log s' tt → path (ret_moves cfg) RDue log RStopped)
  ∧ (spends (RunRetention cfg fuel) s log → path (ret_moves cfg) RDue log RDue).
Proof.
  induction fuel as [|fuel IH]; intros s log; cbn [RunRetention]; [split; [done|intros ->; constructor]|].
  split.
  - intros s' (s1 & now & rest & _ & _ & -> & s2 & deleted & rest2 & _ & _ & -> & H).
    econstructor; [apply ret_now|]. econstructor; [apply ret_delete|].
    assert (∀ s rest, runs (let* ticked := perform AwaitTick in if ticked : bool then RunRetention cfg fuel else Ret tt) s rest s' tt →
      path (ret_moves cfg) RIdle rest RStopped) as Hawait.
    { intros s0 rest0 (s3 & ticked & rest3 & _ & _ & -> & Ht). econstructor; [apply ret_tick|].
      destruct ticked; [by eapply IH|]. destruct Ht as (-> & _). constructor. }
    destruct deleted as [r|e]; [by eapply Hawait|]. destruct H as (s3 & err & rest3 & _ & _ & -> & H).
    econstructor; [apply ret_ctx|]. destruct err as [e'|]; [destruct H as (-> & _); constructor|by eapply Hawait].
  - intros (s1 & now & rest & _ & _ & -> & s2 & deleted & rest2 & _ & _ & -> & H).
    econstructor; [apply ret_now|]. econstructor; [apply ret_delete|].
    assert (∀ s rest, spends (let* ticked := perform AwaitTick in if ticked : bool then RunRetention cfg fuel else Ret tt) s rest →
      path (ret_moves cfg) RIdle rest RDue) as Hawait.
    { intros s0 rest0 (s3 & ticked & rest3 & _ & _ & -> & Ht). econstructor; [apply ret_tick|].
      destruct ticked; [by eapply IH|done]. }
    destruct deleted as [r|e]; [by eapply Hawait|]. destruct H as (s3 & err & rest3 & _ & _ & -> & H).
    econstructor; [apply ret_ctx|]. destruct err as [e'|]; [done|by eapply Hawait].
Qed.
Lemma batch_only events : only in_batch (par Pick (4 * length events) (map (dispatch_event cfg) events)).
Proof.
  apply only_par; [constructor|]. apply Forall_map, Forall_forall. intros event _. unfold dispatch_event.
  apply only_bind; [apply only_perform; constructor|]. intros err.
  apply only_bind.
  - destruct err; [|done]. apply only_bind; [apply only_perform; constructor|done].
  - intros done. destruct (outcome_call _ _ _ _) as [c|]; [|done]. unfold record_outcome.
    apply only_bind; [apply only_perform; constructor|]. intros [e|]; [done|]. apply only_locked. constructor.
Qed.

Lemma batch_path s log s' n err :
  runs (dispatchAlertBatch cfg) s log s' (n, err) → path (disp_moves cfg) DReady log (DEnded n).
Proof.
  intros H. unfold dispatchAlertBatch in H. run_step H. econstructor; [apply disp_claim|]. destruct a as [events|e].
  - run_step H. run_step H. run_step H. injection H as -> ->. apply (path_app _ _ _ (DBatch (length events))).
    + pose proof (run_only _ _ _ _ _ _ _ _ (batch_only events) Hrun) as Hall. clear -Hall.
      induction Hall as [|e l He _ IH]; [constructor|]. econstructor; [by apply disp_work|exact IH].
    + apply path_one, disp_joined.
  - run_step H. injection H as -> ->. constructor.
Qed.

Lemma dispatcher_path fuel : ∀ s log,
  (∀ s', runs (RunAlertDispatcher cfg fuel) s log s' tt → path (disp_moves cfg) DReady log DStopped)
  ∧ (spends (RunAlertDispatcher cfg fuel) s log → path (disp_moves cfg) DReady log DReady).
Proof.
  induction fuel as [|fuel IH]; intros s log; cbn [RunAlertDispatcher]; [split; [done|intros ->; constructor]|].
  split.
  - intros s' H. run_step H. destruct a as [n err]. apply batch_path in Hrun. eapply path_app; [exact Hrun|].
    run_step H. econstructor; [apply disp_ctx|]. destruct a as [e|]; [run_step H; constructor|].
    destruct (Z.of_nat n =? cfg_AlertDispatchBatchSize cfg); [by eapply IH|].
    run_step H. econstructor; [apply disp_tick|]. destruct a; [by eapply IH|]. run_step H. constructor.
  - intros H. apply exhausts_bind in H as [H|(l0 & s0 & [n err] & l1 & Hrun & H & ->)]; [by apply dispatchAlertBatch_ends in H|].
    apply batch_path in Hrun. eapply path_app; [exact Hrun|]. destruct H as (s1 & ctxErr & rest & _ & _ & -> & H).
    econstructor; [apply disp_ctx|]. destruct ctxErr as [e|]; [done|]. cbn [bind] in H.
    destruct (Z.of_nat n =? cfg_AlertDispatchBatchSize cfg); [by eapply IH|].
    destruct H as (s2 & ticked & rest2 & _ & _ & -> & H). econstructor; [apply disp_tick|].
    destruct ticked; [by eapply IH|done].
Qed.

(** C22: The background loops survive every failure of the database, the broker
    and the webhook: each returns only when a check of its own context says so,
    whatever happened before.  They do not spin: the scheduler makes one pass per
    tick, and claims jobs only after the broker answered in the same tick that
    its queues exist; retention makes one pass per tick, with the configured
    periods; the dispatcher claims again without waiting only after a full
    batch, so a backlog is drained at full speed.  (However many rounds one looks
    at: a run that spends the fuel stands where a round begins.) *)
Theorem background_loops fuel s log :
  (∀ s', runs (RunQueueScheduler cfg fuel) s log s' tt → path (sched_moves cfg) SDue log SStopped)
  ∧ (spends (RunQueueScheduler cfg fuel) s log → path (sched_moves cfg) SDue log SDue)
  ∧ (∀ s', runs (RunRetention cfg fuel) s log s' tt → path (ret_moves cfg) RDue log RStopped)
  ∧ (spends (RunRetention cfg fuel) s log → path (ret_moves cfg) RDue log RDue)
  ∧ (∀ s', runs (RunAlertDispatcher cfg fuel) s log s' tt → path (disp_moves cfg) DReady log DStopped)
  ∧ (spends (RunAlertDispatcher cfg fuel) s log → path (disp_moves cfg) DReady log DReady).
Proof.
  destruct (scheduler_path fuel s log), (retention_path fuel s log), (dispatcher_path fuel s log). done.
Qed.
End loops_end.

(** ** Concrete runs *)

Definition sample_no_time : HTTPTime := {| ParseTime _ := None |}.
Definition accepting_webhook : WebhookClient :=
  {| marshal_error _ := None; new_request _ := None;
     post _ _ _ := Ok {| wa_StatusCode := 204; wa_RetryAfter := ""; wa_Date := "" |} |}.

(** The broker is down, then the context ends. *)
Lemma background_loops_witness :
  ∃ cfg log, run anyone (possible (HT := sample_no_time) cfg) (RunQueueScheduler cfg 1) sample_metrics log sample_metrics tt
  ∧ log ≠ [] ∧ path (sched_moves cfg) SDue log SStopped.
Proof.
  destruct sample_config_loads as (cfg & _ & _).
  set (log := [Called sample_metrics QueuePing (Some ErrDeadlineExceeded); Called sample_metrics AwaitTick false] : list lentry).
  assert (run anyone (possible (HT := sample_no_time) cfg) (RunQueueScheduler cfg 1) sample_metrics log sample_metrics tt) as Hrun.
  { eexists _, (Some ErrDeadlineExceeded), _. do 3 (split; [done|]). eexists _, false, _. done. }
  exists cfg, log. split; [exact Hrun|]. split; [done|].
  exact (proj1 (background_loops (HT := sample_no_time) cfg 1 sample_metrics log) sample_metrics Hrun).
Defined.

(** One alert, delivered. *)
Lemma alert_batch_outcomes_witness :
  ∃ cfg log, LoadConfig = Ok cfg
  ∧ run anyone (possible (HT := sample_no_time) cfg) (dispatchAlertBatch cfg) sample_metrics log (RecordAlertDelivered sample_metrics) (1%nat, None)
  ∧ ∃ m claimed rest,
      log = Called m (ClaimAlerts (cfg_AlertDispatchBatchSize cfg) (cfg_AlertLeaseTimeout cfg) (cfg_AlertMaxAttempts cfg)) claimed :: rest
      ∧ (∀ e, claimed = Err e → rest = []).
Proof.
  destruct sample_config_loads as (cfg & Hload & _). set (m := sample_metrics).
  set (c := MarkAlertDelivered (ev_ID sample_event) (ev_LeaseToken sample_event)).
  set (log := [Called m (ClaimAlerts (cfg_AlertDispatchBatchSize cfg) (cfg_AlertLeaseTimeout cfg) (cfg_AlertMaxAttempts cfg)) (Ok [sample_event]);
               Called m (Pick [0%nat]) 0%nat; Called m (SendAlert sample_event) None;
               Called m (Pick [0%nat]) 0%nat; Called m (MarkAlert c) None;
               Called m (Pick [0%nat]) 0%nat; Changed m (count_outcome c m);
               Called (count_outcome c m) CtxErr None] : list lentry).
  assert (run anyone (possible (HT := sample_no_time) cfg) (dispatchAlertBatch cfg) m log (RecordAlertDelivered m) (1%nat, None)) as Hrun.
  { eexists _, (Ok [sample_event]), _. split; [exact I|]. split; [exact I|]. split; [reflexivity|].
    eexists _, 0%nat, _. split; [exact I|]. split; [left|]. split; [reflexivity|].
    eexists _, None, _. split; [exact I|]. split; [by exists accepting_webhook|]. split; [reflexivity|].
    eexists _, 0%nat, _. split; [exact I|]. split; [left|]. split; [reflexivity|].
    eexists _, None, _. split; [exact I|]. split; [exact I|]. split; [reflexivity|].
    eexists _, 0%nat, _. split; [exact I|]. split; [left|]. split; [reflexivity|].
    eexists _, _. split; [exact I|]. split; [reflexivity|].
    eexists _, None, _. split; [exact I|]. split; [exact I|]. split; [reflexivity|].
    split; [reflexivity|]. split; reflexivity. }
  exists cfg, log. split; [exact Hload|]. split; [exact Hrun|].
  destruct (alert_batch_outcomes (HT := sample_no_time) cfg m log _ 1%nat None Hload Hrun) as (m' & claimed & rest & Hlog & Hcl).
  exists m', claimed, rest. split; [exact Hlog|]. intros e He. rewrite He in Hcl. exact (proj1 Hcl).
Defined.
