(* ===== verification/Server.v ===== *)
(** * The HTTP server and its readiness (observability.go, runtime.go)

    The dependencies of a role are probed concurrently and their answers
    collected in the order in which they arrive; the server runs in one goroutine
    and is shut down by another.  [net/http] is a set of calls. *)

From stdpp Require Import base list gmap strings.
From Stdlib Require Import ZArith Lia Ascii.
From S2P Require Import Prelude GoNum GoStrings NetworkPolicy Egress Domain StoreInv Sample Checker Config ConfigSpec Metrics Migrations Shared.
#[local] Open Scope string_scope.
#[local] Open Scope list_scope.
#[local] Open Scope Z_scope.

(** ** Readiness *)

(** What a dependency's check asks. *)
Inductive Probe := RepoPing | QueuePing_.
Record ReadinessDependency := { dep_Name : string; dep_Check : option Probe }.

(** [repo] and [queue] say whether there is one. *)
Definition BuildReadinessDependencies (cfg : Config) (repo queue : bool) : list ReadinessDependency :=
  (if String.eqb (cfg_StorageType cfg) "postgres" && repo
   then [{| dep_Name := "postgres"; dep_Check := Some RepoPing |}] else [])
  ++ (if String.eqb (cfg_QueueType cfg) "rabbitmq" && queue
         && (roleEnabled (cfg_AppRole cfg) "scheduler" || roleEnabled (cfg_AppRole cfg) "worker")
      then [{| dep_Name := "rabbitmq"; dep_Check := Some QueuePing_ |}] else []).

(** The dependencies a goroutine is started for. *)
Definition probes (dependencies : list ReadinessDependency) : list (string * Probe) :=
  omap (λ d, if String.eqb (dep_Name d) "" then None else (λ p, (dep_Name d, p)) <$> dep_Check d) dependencies.

(** The results in the order of their arrival, each recorded in the metrics. *)
Fixpoint collect (results : list (string * option GoError)) (failures : gmap string GoError) (m : Metrics)
  : gmap string GoError * Metrics :=
  match results with
  | [] => (failures, m)
  | (name, err) :: results =>
      let m := SetDependencyUp m name (bool_decide (err = None)) in
      match err with
      | None => collect results failures m
      | Some e => collect results (<[name := e]> failures) m
      end
  end.

(** [None] is the nil map.  The context of two seconds is among the reasons for
    which a probe may fail. *)
Definition checkReadinessDependencies (dependencies : list ReadinessDependency) (results : list (string * option GoError)) (m : Metrics)
  : option (gmap string GoError) * Metrics :=
  match dependencies with
  | [] => (None, m)
  | _ =>
      let (failures, m) := collect results ∅ m in
      (if decide (failures = ∅) then None else Some failures, m)
  end.

(** An error stands for its text. *)
Inductive ReadyBody := NotReady (dependencies : gmap string GoError) | Ready (role : option string).

(** The handler of [/readyz]. *)
Definition readyz (cfg : Config) (dependencies : list ReadinessDependency) (results : list (string * option GoError)) (m : Metrics)
  : Z * ReadyBody * Metrics :=
  match checkReadinessDependencies dependencies results m with
  | (Some failures, m) => (503, NotReady failures, m)
  | (None, m) => (200, Ready (if String.eqb (cfg_AppRole cfg) "" then None else Some (cfg_AppRole cfg)), m)
  end.

(** ** Timeouts *)

Definition defaultHTTPWriteTimeout : Z := 10 * Second.
Definition httpResponseWriteMargin : Z := 5 * Second.
Definition databaseRollbackTimeout : Z := 2 * Second.
Definition responseWriteTimeout (cfg : Config) : Z :=
  let requestTimeout := if cfg_DatabaseOperationTimeout cfg <=? 0 then defaultDatabaseOperationTimeout
                        else cfg_DatabaseOperationTimeout cfg in
  Z.max defaultHTTPWriteTimeout (wrap64 (requestTimeout + httpResponseWriteMargin)).

(** ** What readiness means *)

Definition errors_of (results : list (string * option GoError)) : gmap string GoError :=
  list_to_map (omap (λ r, (λ e, (r.1, e)) <$> r.2) results).

Lemma failing_names results name :
  name ∈ (omap (λ r : string * option GoError, (λ e, (r.1, e)) <$> r.2) results).*1 → name ∈ results.*1.
Proof.
  induction results as [|[x [e|]] results IH]; cbn; [done|..]; rewrite ?elem_of_cons; [|by auto].
  intros [->|Hin]; auto.
Qed.

Lemma collect_spec results : ∀ failures m,
  NoDup results.*1 → (∀ name, name ∈ results.*1 → failures !! name = None) →
  (collect results failures m).1 = errors_of results ∪ failures
  ∧ (collect results failures m).2 = m <| dependencyUp := list_to_map ((λ r, (r.1, bool_decide (r.2 = None))) <$> results) ∪ dependencyUp m |>.
Proof.
  induction results as [|[name err] results IH]; intros failures m Hnd Hf; cbn [collect].
  - unfold errors_of. cbn. rewrite !map_empty_union. by destruct m.
  - cbn [fmap list_fmap fst] in Hnd. apply NoDup_cons in Hnd as [Hnew Hnd].
    assert (∀ x, x ∈ results.*1 → failures !! x = None) as Hrest by (intros x Hx; apply Hf; by right).
    assert (∀ (b : bool) (up : gmap string bool),
      list_to_map ((λ r : string * option GoError, (r.1, bool_decide (r.2 = None))) <$> results) ∪ <[name:=b]> up
      = <[name:=b]> (list_to_map ((λ r : string * option GoError, (r.1, bool_decide (r.2 = None))) <$> results) ∪ up)) as Hup.
    { intros b up. symmetry. apply insert_union_r, not_elem_of_list_to_map. by rewrite <- list_fmap_compose. }
    destruct err as [e|].
    + destruct (IH (<[name:=e]> failures) (SetDependencyUp m name (bool_decide (Some e = None))) Hnd) as [H1 H2].
      { intros x Hx. rewrite lookup_insert_ne; [by apply Hrest|]. intros ->. done. }
      rewrite H1, H2. cbn. rewrite Hup, insert_union_l. split; [|done].
      unfold errors_of. cbn. rewrite <- insert_union_r; [by rewrite insert_union_l|].
      apply not_elem_of_list_to_map. intros Hin. apply Hnew. by apply failing_names in Hin.
    + match goal with |- context [collect results failures ?m'] => destruct (IH failures m' Hnd Hrest) as [H1 H2] end.
      rewrite H1, H2. cbn. by rewrite Hup, insert_union_l.
Qed.

(** The results for given answers of the probes, in the order of the dependencies. *)
Definition answers (dependencies : list ReadinessDependency) (ask : Probe → option GoError) : list (string * option GoError) :=
  (λ d, (d.1, ask d.2)) <$> probes dependencies.
Definition ups (results : list (string * option GoError)) : gmap string bool :=
  list_to_map ((λ r, (r.1, bool_decide (r.2 = None))) <$> results).

Lemma failing_names_NoDup results :
  NoDup results.*1 → NoDup (omap (λ r : string * option GoError, (λ e, (r.1, e)) <$> r.2) results).*1.
Proof.
  induction results as [|[x [e|]] results IH]; cbn; [done|..]; intros [Hnew Hnd]%NoDup_cons; [|by apply IH].
  apply NoDup_cons. split; [|by apply IH]. intros Hin. apply Hnew. by apply failing_names in Hin.
Qed.

Lemma errors_of_perm l1 l2 : NoDup l1.*1 → l1 ≡ₚ l2 → errors_of l1 = errors_of l2.
Proof. intros Hnd Hp. apply list_to_map_proper; [by apply failing_names_NoDup|by apply omap_Permutation]. Qed.

Lemma ups_perm l1 l2 : NoDup l1.*1 → l1 ≡ₚ l2 → ups l1 = ups l2.
Proof.
  intros Hnd Hp. apply list_to_map_proper; [by rewrite <- list_fmap_compose|by rewrite Hp].
Qed.

Lemma errors_of_empty results : errors_of results = ∅ ↔ Forall (λ r, r.2 = None) results.
Proof.
  unfold errors_of. induction results as [|[x [e|]] results IH]; cbn; [done|..]; rewrite Forall_cons; cbn.
  - split; [intros H; by apply insert_non_empty in H|by intros []].
  - rewrite IH. tauto.
Qed.

(** The outcome does not depend on the order in which the answers arrive. *)
Lemma checkReadiness_spec dependencies ask results m :
  NoDup (answers dependencies ask).*1 → results ≡ₚ answers dependencies ask →
  let failures := errors_of (answers dependencies ask) in
  checkReadinessDependencies dependencies results m
  = (if decide (failures = ∅) then None else Some failures,
     m <| dependencyUp := ups (answers dependencies ask) ∪ dependencyUp m |>).
Proof.
  intros Hnd Hp. cbn zeta. destruct dependencies as [|d dependencies].
  - cbn. unfold ups. cbn. rewrite map_empty_union. by destruct m.
  - unfold checkReadinessDependencies. assert (NoDup results.*1) as Hnd' by (by rewrite Hp).
    destruct (collect_spec results ∅ m Hnd' ltac:(done)) as [H1 H2].
    destruct (collect results ∅ m) as [failures m']. cbn in H1, H2. subst.
    by rewrite map_union_empty, (errors_of_perm _ _ Hnd' Hp), (ups_perm _ _ Hnd' Hp : list_to_map _ = _).
Qed.

(** The two dependencies a process may have. *)
Lemma two_errors (pg rabbit : bool) (a b : option GoError) :
  let failures := errors_of ((if pg then [("postgres", a)] else []) ++ (if rabbit then [("rabbitmq", b)] else [])) in
  (failures = ∅ ↔ (pg = true → a = None) ∧ (rabbit = true → b = None))
  ∧ failures !! "postgres" = (if pg then a else None) ∧ failures !! "rabbitmq" = (if rabbit then b else None)
  ∧ dom failures ⊆ {["postgres"; "rabbitmq"]}.
Proof.
  cbn zeta. split.
  - rewrite errors_of_empty. destruct pg, rabbit; cbn; rewrite ?Forall_cons, ?Forall_nil; cbn; naive_solver.
  - destruct pg, rabbit, a, b; (split; [reflexivity|]); (split; [reflexivity|]); unfold errors_of; cbn; set_solver.
Qed.

(** C38: A process is ready exactly when every back end its role uses answers:
    PostgreSQL when it is the storage, and RabbitMQ when it is the queue of a
    scheduler or a worker.  Otherwise the answer is 503 with exactly the failed
    ones, each with its own error, and the gauges of the dependencies tell the
    same; in whatever order the concurrent probes finish. *)
Theorem readyz_ready cfg repo queue ask results m :
  let dependencies := BuildReadinessDependencies cfg repo queue in
  results ≡ₚ answers dependencies ask →
  ∃ status body, readyz cfg dependencies results m
    = (status, body, m <| dependencyUp := ups (answers dependencies ask) ∪ dependencyUp m |>)
  ∧ (status = 200 ↔
      (cfg_StorageType cfg = "postgres" ∧ repo = true → ask RepoPing = None)
      ∧ (cfg_QueueType cfg = "rabbitmq" ∧ queue = true ∧ cfg_AppRole cfg ∈ ["all"; "scheduler"; "worker"] → ask QueuePing_ = None))
  ∧ (status ≠ 200 → status = 503 ∧ ∃ failures, body = NotReady failures
      ∧ failures !! "postgres" = (if String.eqb (cfg_StorageType cfg) "postgres" && repo then ask RepoPing else None)
      ∧ failures !! "rabbitmq" = (if String.eqb (cfg_QueueType cfg) "rabbitmq" && queue
                                     && (roleEnabled (cfg_AppRole cfg) "scheduler" || roleEnabled (cfg_AppRole cfg) "worker")
                                  then ask QueuePing_ else None)
      ∧ dom failures ⊆ {["postgres"; "rabbitmq"]}).
Proof.
  intros dependencies Hp. subst dependencies. unfold BuildReadinessDependencies in *.
  assert (cfg_StorageType cfg = "postgres" ∧ repo = true ↔ String.eqb (cfg_StorageType cfg) "postgres" && repo = true) as Hpg
    by (rewrite andb_true_iff, String.eqb_eq; done).
  assert (cfg_QueueType cfg = "rabbitmq" ∧ queue = true ∧ cfg_AppRole cfg ∈ ["all"; "scheduler"; "worker"] ↔
    String.eqb (cfg_QueueType cfg) "rabbitmq" && queue
      && (roleEnabled (cfg_AppRole cfg) "scheduler" || roleEnabled (cfg_AppRole cfg) "worker") = true) as Hrabbit.
  { unfold roleEnabled. rewrite !andb_true_iff, !orb_true_iff, !String.eqb_eq, !elem_of_cons, elem_of_nil. tauto. }
  set (pg := String.eqb (cfg_StorageType cfg) "postgres" && repo) in *.
  set (rabbit := String.eqb (cfg_QueueType cfg) "rabbitmq" && queue && _) in *.
  unfold readyz. rewrite (checkReadiness_spec _ ask _ m); [|destruct pg, rabbit; cbn; repeat constructor; set_solver|exact Hp].
  clear Hp. clearbody pg rabbit.
  destruct (two_errors pg rabbit (ask RepoPing) (ask QueuePing_)) as (Hnone & H1 & H2 & H3).
  assert (answers ((if pg then [{| dep_Name := "postgres"; dep_Check := Some RepoPing |}] else [])
                   ++ (if rabbit then [{| dep_Name := "rabbitmq"; dep_Check := Some QueuePing_ |}] else [])) ask
    = (if pg then [("postgres", ask RepoPing)] else []) ++ (if rabbit then [("rabbitmq", ask QueuePing_)] else [])) as ->
    by (by destruct pg, rabbit).
  set (failures := errors_of _) in *. destruct (decide (failures = ∅)) as [He|He].
  - eexists _, _. split; [reflexivity|]. rewrite Hpg, Hrabbit, <- Hnone. done.
  - eexists _, _. split; [reflexivity|]. rewrite Hpg, Hrabbit, <- Hnone. split; [done|].
    intros _. split; [done|]. by exists failures.
Qed.

Lemma readyz_ready_witness :
  ∃ cfg, LoadConfig = Ok cfg
  ∧ ∃ status body, readyz cfg (BuildReadinessDependencies cfg true true) [("rabbitmq", Some ErrDeadlineExceeded); ("postgres", None)] sample_metrics
      = (status, body, sample_metrics <| dependencyUp := ups [("postgres", None); ("rabbitmq", Some ErrDeadlineExceeded)] ∪ dependencyUp sample_metrics |>).
Proof.
  assert (match LoadConfig with
          | Ok cfg => String.eqb (cfg_StorageType cfg) "postgres" && String.eqb (cfg_QueueType cfg) "rabbitmq" && String.eqb (cfg_AppRole cfg) "all"
          | Err _ => false end = true) as Hok by (vm_compute; reflexivity).
  destruct LoadConfig as [cfg|e] eqn:Hload; [|discriminate]. exists cfg. split; [reflexivity|].
  set (ask p := match p with RepoPing => None | QueuePing_ => Some ErrDeadlineExceeded end).
  assert (answers (BuildReadinessDependencies cfg true true) ask = [("postgres", None); ("rabbitmq", Some ErrDeadlineExceeded)]) as Ha.
  { apply andb_true_iff in Hok as [[H1%String.eqb_eq H2%String.eqb_eq]%andb_true_iff H3%String.eqb_eq].
    unfold BuildReadinessDependencies. rewrite H1, H2, H3. reflexivity. }
  destruct (readyz_ready cfg true true ask [("rabbitmq", Some ErrDeadlineExceeded); ("postgres", None)] sample_metrics) as (status & body & H & _).
  - rewrite Ha. apply perm_swap.
  - exists status, body. rewrite Ha in H. exact H.
Defined.

(** A response that waits for the database, and for the rollback of what it gave
    up, is written in time: with an accepted configuration the server's write
    timeout leaves three seconds more. *)
Lemma response_in_time `{EN : !Environment, UN : !Unicode, UP : !URLParser, UQ : !URLQuery} cfg :
  LoadConfig = Ok cfg →
  cfg_DatabaseOperationTimeout cfg + databaseRollbackTimeout + 3 * Second <= responseWriteTimeout cfg
  ∧ 10 * Second <= responseWriteTimeout cfg <= 5 * Minute + 5 * Second.
Proof.
  intros H%database_limits. unfold responseWriteTimeout, defaultHTTPWriteTimeout, httpResponseWriteMargin, databaseRollbackTimeout.
  unfold Second, Minute in *. destruct (Z.leb_spec (cfg_DatabaseOperationTimeout cfg) 0) as [Hle|Hgt]; [lia|].
  rewrite wrap64_id by (unfold in_int64, two63, max_int64; lia). unfold Second, Minute. lia.
Qed.

(** ** The goroutines of the server *)

Inductive ServeErr := ErrServerClosed | ServeFailed (e : GoError).
(** What the first goroutine makes of the result of [Serve]. *)
Inductive HTTPStop := StoppedWithoutError | ServeHTTP (e : GoError).
Definition serve_result (r : option ServeErr) : option HTTPStop :=
  match r with
  | Some ErrServerClosed => None
  | None => Some StoppedWithoutError
  | Some (ServeFailed e) => Some (ServeHTTP e)
  end.

Inductive serve_event := ServeReturned (r : option ServeErr) | ContextEnded.
Inductive hcall : Type → Type :=
| SelectServe : hcall serve_event              (* serveResult or ctx.Done() *)
| Shutdown : hcall (option GoError)            (* within five seconds *)
| ServerClose : hcall (option GoError)
| AwaitServe : hcall (option ServeErr).        (* <-serveResult *)

#[local] Open Scope shared_scope.

(** The second goroutine: the value it sends on [done]. *)
Definition http_goroutine : prog unit hcall (option HTTPStop) :=
  let* event := perform SelectServe in
  match event with
  | ServeReturned r => Ret (serve_result r)
  | ContextEnded =>
      let* err := perform Shutdown in
      do* match err with Some _ => do* perform ServerClose in Ret tt | None => Ret tt end in
      let* r := perform AwaitServe in
      Ret (serve_result r)
  end.

(** [Serve] returns [ErrServerClosed] only after [Shutdown] or [Close]. *)
Definition http_possible (X : Type) (c : hcall X) : X → Prop :=
  match c in hcall X return X → Prop with
  | SelectServe => λ event, event ≠ ServeReturned (Some ErrServerClosed)
  | _ => λ _, True
  end.

(** The server ends without an error only when it was told to, and is then shut
    down, by force when that takes too long. *)
Lemma http_done (R : unit → unit → Prop) s log s' r :
  run R http_possible http_goroutine s log s' r →
  match log with
  | Called _ SelectServe ContextEnded :: Called _ Shutdown None :: rest => length rest = 1%nat
  | Called _ SelectServe ContextEnded :: Called _ Shutdown (Some _) :: Called _ ServerClose _ :: rest => length rest = 1%nat
  | _ => r ≠ None
  end.
Proof.
  intros (s1 & event & rest & _ & Hp & -> & H). destruct event as [sr|].
  - destruct H as (-> & _ & ->). cbn in Hp. destruct sr as [[|e]|]; done.
  - destruct H as (s2 & err & rest2 & _ & _ & -> & H). destruct err as [e|].
    + destruct H as (s3 & err3 & rest3 & _ & _ & -> & s4 & sr & rest4 & _ & _ & -> & -> & _). done.
    + destruct H as (s4 & sr & rest4 & _ & _ & -> & -> & _). done.
Qed.
