(* ===== verification/Workers.v ===== *)
(** * The pool of workers (runtime.go)

    [RunQueueWorkers] starts its workers on one channel of deliveries and waits
    for the first of four events: its context ends, the consumer stops, a worker
    fails, or all workers are done; then it stops the others and joins them.  The
    goroutines interleave: the pool is a step relation, one constructor per
    branch of a [select], send, receive or return.  A worker handles a delivery
    by running [handleQueueDelivery] with any answers of repository, broker and
    clock.  The unbuffered channel of deliveries is a rendezvous with the
    consumer, which offers what it likes until it closes the channel. *)

From stdpp Require Import base list strings.
From Stdlib Require Import ZArith Lia.
From S2P Require Import Prelude GoNum Domain Queue Runtime.
#[local] Open Scope string_scope.
#[local] Open Scope list_scope.
#[local] Open Scope Z_scope.

(** ** Data *)

Inductive WorkerState :=
| Selecting | Handling (d : QueueDelivery) | Reporting (err : HandleErr) | Finished.
#[export] Instance worker_finished_dec (w : WorkerState) : Decision (w = Finished).
Proof. destruct w; (by left) || (by right). Defined.

Inductive WorkersErr :=
| ConsumeFailed (err : GoError) | ConsumerStopped (err : GoError) | WorkerFailed (err : HandleErr) | AllStopped.
Inductive MainState := Waiting | Joining (r : option WorkersErr) | Returned (r : option WorkersErr).

(** A delivery that was handled: by which worker, what it did and how it ended. *)
Record Handled := mkHandled { h_worker : nat; h_delivery : QueueDelivery; h_log : list Event; h_err : option HandleErr }.

(** [ctx_done] is the caller's context, [stop_called] says that [stopWorkers]
    was called; [consumer_errors] holds what the consumer sent or, once its
    channel is closed, nil.  [received] and [handled] are the history. *)
Record Pool := mkPool {
  ctx_done : bool; stop_called : bool;
  workers : list WorkerState; worker_errors : list HandleErr;
  consumer_errors : option (option GoError); deliveries_closed : bool;
  main : MainState;
  received : list QueueDelivery; handled : list Handled;
}.

(** [workerCtx.Done()]. *)
Definition worker_ctx_done (p : Pool) : bool := ctx_done p || stop_called p.
Definition all_finished (p : Pool) : bool := forallb (λ w, bool_decide (w = Finished)) (workers p).

Section pool.
Context (workerCount : nat) (leaseTimeout : Z).

(** ** Steps *)

Definition set_worker (i : nat) (w : WorkerState) (p : Pool) : Pool :=
  mkPool (ctx_done p) (stop_called p) (<[i := w]> (workers p)) (worker_errors p) (consumer_errors p)
    (deliveries_closed p) (main p) (received p) (handled p).

(** Worker [i] takes delivery [d]; it has handled it; it sends its error. *)
Definition take_delivery (i : nat) (d : QueueDelivery) (p : Pool) : Pool :=
  mkPool (ctx_done p) (stop_called p) (<[i := Handling d]> (workers p)) (worker_errors p) (consumer_errors p)
    (deliveries_closed p) (main p) (d :: received p) (handled p).
Definition end_delivery (h : Handled) (p : Pool) : Pool :=
  mkPool (ctx_done p) (stop_called p)
    (<[h_worker h := match h_err h with None => Selecting | Some err => Reporting err end]> (workers p))
    (worker_errors p) (consumer_errors p) (deliveries_closed p) (main p) (received p) (h :: handled p).
Definition report_error (i : nat) (err : HandleErr) (p : Pool) : Pool :=
  mkPool (ctx_done p) (stop_called p) (<[i := Finished]> (workers p))
    (if (length (worker_errors p) <? workerCount)%nat then worker_errors p ++ [err] else worker_errors p)
    (consumer_errors p) (deliveries_closed p) (main p) (received p) (handled p).

(** The main goroutine stops the workers and goes on to [m]. *)
Definition stop_workers (errors : list HandleErr) (m : MainState) (p : Pool) : Pool :=
  mkPool (ctx_done p) true (workers p) errors (consumer_errors p) (deliveries_closed p) m (received p) (handled p).

(** What one call of the handler may do. *)
Definition handles (h : Handled) : Prop :=
  ∃ fuel, may (handleQueueDelivery fuel (Z.of_nat (h_worker h) + 1) (h_delivery h) leaseTimeout) (h_log h) (Some (h_err h)).

Inductive label := Internal | Receives | External.

Inductive step : label → Pool → Pool → Prop :=
(* the surroundings *)
| ContextEnds p : ctx_done p = false →
    step External p (mkPool true (stop_called p) (workers p) (worker_errors p) (consumer_errors p) (deliveries_closed p)
                       (main p) (received p) (handled p))
| ConsumerEnds p err : consumer_errors p = None →
    step External p (mkPool (ctx_done p) (stop_called p) (workers p) (worker_errors p) (Some err) (deliveries_closed p)
                       (main p) (received p) (handled p))
| DeliveriesClose p : deliveries_closed p = false →
    step External p (mkPool (ctx_done p) (stop_called p) (workers p) (worker_errors p) (consumer_errors p) true
                       (main p) (received p) (handled p))
(* a worker *)
| WorkerCancelled p i : workers p !! i = Some Selecting → worker_ctx_done p = true → step Internal p (set_worker i Finished p)
| WorkerNoMore p i : workers p !! i = Some Selecting → deliveries_closed p = true → step Internal p (set_worker i Finished p)
| WorkerReceives p i d : workers p !! i = Some Selecting → deliveries_closed p = false → step Receives p (take_delivery i d p)
| WorkerHandled p h : workers p !! h_worker h = Some (Handling (h_delivery h)) → handles h → step Internal p (end_delivery h p)
| WorkerReports p i err : workers p !! i = Some (Reporting err) → step Internal p (report_error i err p)
(* the main goroutine *)
| MainCancelled p : main p = Waiting → ctx_done p = true →
    step Internal p (stop_workers (worker_errors p) (Joining None) p)
| MainConsumer p err : main p = Waiting → consumer_errors p = Some err →
    step Internal p (stop_workers (worker_errors p) (Joining (Some (ConsumerStopped (default ErrQueueConsumerClosed err)))) p)
| MainWorker p err rest : main p = Waiting → worker_errors p = err :: rest →
    step Internal p (stop_workers rest (Joining (Some (WorkerFailed err))) p)
| MainAllDone p : main p = Waiting → all_finished p = true →
    step Internal p (stop_workers (worker_errors p) (Returned (if ctx_done p then None else Some AllStopped)) p)
| MainJoined p r : main p = Joining r → all_finished p = true →
    step Internal p (stop_workers (worker_errors p) (Returned r) p).

(** [RunQueueWorkers] from its first line: [queue.Consume] may fail. *)
Definition start (done : bool) (consumed : option GoError) : Pool :=
  match consumed with
  | Some err => mkPool done true [] [] None false (Returned (Some (ConsumeFailed err))) [] []
  | None => mkPool done false (replicate workerCount Selecting) [] None false Waiting [] []
  end.

Inductive steps : list label → Pool → Pool → Prop :=
| steps_nil p : steps [] p p
| steps_cons l ls p q r : step l p q → steps ls q r → steps (l :: ls) p r.
Definition reachable (p : Pool) : Prop := ∃ done consumed ls, steps ls (start done consumed) p.
End pool.

(** ** What a pool keeps *)

Lemma insert_split {A} (l : list A) i x :
  l !! i = Some x → ∃ l1 l2, l = l1 ++ x :: l2 ∧ ∀ y, <[i := y]> l = l1 ++ y :: l2.
Proof.
  intros Hx. exists (take i l), (drop (S i) l). split; [by rewrite (take_drop_middle l i x Hx)|]. intros y.
  apply insert_take_drop. by eapply lookup_lt_Some.
Qed.

Lemma omap_middle {A B} (f : A → option B) l1 x l2 :
  omap f (l1 ++ x :: l2) ≡ₚ option_list (f x) ++ omap f l1 ++ omap f l2.
Proof. rewrite omap_app. cbn. destruct (f x); cbn; [by rewrite Permutation_middle|done]. Qed.

Definition handling (w : WorkerState) : option QueueDelivery := match w with Handling d => Some d | _ => None end.
Definition reporting (w : WorkerState) : option HandleErr := match w with Reporting err => Some err | _ => None end.
Definition active (p : Pool) : nat := length (filter (λ w, w ≠ Finished) (workers p)).
Definition result (p : Pool) : option (option WorkersErr) :=
  match main p with Waiting => None | Joining r | Returned r => Some r end.
Definition taken_error (p : Pool) : list HandleErr :=
  match result p with Some (Some (WorkerFailed err)) => [err] | _ => [] end.

(** Why the pool ends the way it does. *)
Definition explained (p : Pool) (r : option WorkersErr) : Prop :=
  match r with
  | None => ctx_done p = true
  | Some (ConsumeFailed _) => workers p = [] ∧ received p = []
  | Some (ConsumerStopped e) => ∃ err, consumer_errors p = Some err ∧ e = default ErrQueueConsumerClosed err
  | Some (WorkerFailed e) => ∃ h, h ∈ handled p ∧ h_err h = Some e
  | Some AllStopped => all_finished p = true
  end.

Lemma all_finished_spec p : all_finished p = true ↔ Forall (λ w, w = Finished) (workers p).
Proof.
  unfold all_finished. rewrite forallb_forall, Forall_forall. split; intros H w Hw.
  - apply (bool_decide_eq_true_1 _ (H w (proj1 (list_elem_of_In _ _) Hw))).
  - apply bool_decide_eq_true_2, H. by apply list_elem_of_In.
Qed.

Section invariant.
Context (workerCount : nat) (leaseTimeout : Z).

(** No delivery is lost or handled twice, and no error is dropped: the channel of
    worker errors always has room. *)
Record pool_ok (p : Pool) : Prop := {
  ok_room : (length (worker_errors p) + length (taken_error p) + active p <= workerCount)%nat;
  ok_received : received p ≡ₚ (h_delivery <$> handled p) ++ omap handling (workers p);
  ok_errors : omap h_err (handled p) ≡ₚ taken_error p ++ worker_errors p ++ omap reporting (workers p);
  ok_handled : Forall (handles leaseTimeout) (handled p);
  ok_result : ∀ r, result p = Some r → explained p r ∧ stop_called p = true;
  ok_joined : ∀ r, main p = Returned r → all_finished p = true;
}.

Lemma not_all_finished p i w : workers p !! i = Some w → w ≠ Finished → all_finished p = false.
Proof.
  intros Hi Hw. destruct (all_finished p) eqn:H; [|done]. apply all_finished_spec in H.
  destruct Hw. exact (Forall_lookup_1 _ _ _ _ H Hi).
Qed.

(** What a worker's step must respect. *)
Lemma worker_step_ok p q i w w' :
  pool_ok p → workers p !! i = Some w → w ≠ Finished →
  workers q = <[i := w']> (workers p) → ctx_done q = ctx_done p → stop_called q = stop_called p →
  consumer_errors q = consumer_errors p → main q = main p →
  (length (worker_errors q) + (if decide (w' = Finished) then 0 else 1) <= length (worker_errors p) + 1)%nat →
  (∃ new, handled q = new ++ handled p ∧ Forall (handles leaseTimeout) new
     ∧ received q ++ option_list (handling w) ≡ₚ received p ++ (h_delivery <$> new) ++ option_list (handling w')
     ∧ omap h_err new ++ worker_errors p ++ option_list (reporting w) ≡ₚ worker_errors q ++ option_list (reporting w')) →
  pool_ok q.
Proof.
  intros [Hroom Hrec Herr Hh Hres Hj] Hi Hw Hws Hctx Hstop Hcons Hmain Hlen (new & Hnew & Hhn & Hr & He).
  pose proof (not_all_finished _ _ _ Hi Hw) as Hnot.
  destruct (insert_split _ _ _ Hi) as (l1 & l2 & Hl & Hins). rewrite Hins in Hws.
  assert (result q = result p) as Hresult by (unfold result; by rewrite Hmain).
  assert (taken_error q = taken_error p) as Htaken by (unfold taken_error; by rewrite Hresult).
  split.
  - rewrite Htaken. unfold active in *. rewrite Hws. rewrite Hl in Hroom.
    rewrite !filter_app, !length_app, (filter_cons_True _ w) in Hroom by done. rewrite filter_app, length_app, filter_cons.
    destruct (decide (w' = Finished)), (decide (w' ≠ Finished)); cbn in *; lia || done.
  - rewrite Hws, Hnew, fmap_app, omap_middle. rewrite Hl, omap_middle in Hrec.
    apply (Permutation_app_inv_r (option_list (handling w))). rewrite Hr, Hrec. solve_Permutation.
  - rewrite Hws, Hnew, omap_app, omap_middle, Htaken, Herr. rewrite Hl, omap_middle.
    transitivity (taken_error p ++ (omap h_err new ++ worker_errors p ++ option_list (reporting w)) ++ omap reporting l1 ++ omap reporting l2);
      [solve_Permutation|rewrite He; solve_Permutation].
  - rewrite Hnew. by apply Forall_app.
  - intros r. rewrite Hresult. intros Hr'. destruct (Hres _ Hr') as [Hex Hst]. rewrite Hstop. split; [|done].
    destruct r as [[e|e|e|]|]; cbn in *; rewrite ?Hctx, ?Hcons; try done.
    + destruct Hex as [Hnil _]. rewrite Hnil in Hi. done.
    + destruct Hex as (h & Hin & He'). exists h. rewrite Hnew. split; [apply elem_of_app; by right|done].
    + congruence.
  - intros r. rewrite Hmain. intros Hret. apply Hj in Hret. congruence.
Qed.

(** The surroundings and the main goroutine leave the workers alone. *)
Lemma main_step_ok p q :
  pool_ok p → workers q = workers p → received q = received p → handled q = handled p →
  taken_error q ++ worker_errors q = taken_error p ++ worker_errors p →
  (∀ r, result q = Some r → explained q r ∧ stop_called q = true) →
  (∀ r, main q = Returned r → all_finished p = true) →
  pool_ok q.
Proof.
  intros [Hroom Hrec Herr Hh _ _] Hws Hr Hhs He Hres Hj.
  assert (all_finished q = all_finished p) as Haf by (unfold all_finished; by rewrite Hws).
  assert (length (taken_error q) + length (worker_errors q) = length (taken_error p) + length (worker_errors p))%nat as Hl
    by (rewrite <- !length_app; congruence).
  split; rewrite ?Hws, ?Hr, ?Hhs, ?Haf; try done.
  - unfold active in *. rewrite Hws. lia.
  - by rewrite Herr, !app_assoc, He.
Qed.

Lemma step_ok l p q : step workerCount leaseTimeout l p q → pool_ok p → pool_ok q.
Proof.
  intros Hs Hp. destruct Hs as [p Hd|p err Hc|p Hd|p i Hi Hc|p i Hi Hc|p i d Hi Hc|p h Hi Hh|p i err Hi
    |p Hm Hc|p err Hm Hc|p err rest Hm Hw|p Hm Hf|p r Hm Hf].
  1-3: apply (main_step_ok p); try done; cbn; [intros r Hr|intros r Hr; by eapply (ok_joined p)];
    destruct (ok_result p Hp r Hr) as [Hex Hst]; (split; [|exact Hst]);
    destruct r as [[e|e|e|]|]; cbn in *; try done; destruct Hex as (? & ? & ?); congruence.
  - apply (worker_step_ok p _ i Selecting Finished); try done; cbn; try (destruct (decide _); lia). exists []. by rewrite !app_nil_r.
  - apply (worker_step_ok p _ i Selecting Finished); try done; cbn; try (destruct (decide _); lia). exists []. by rewrite !app_nil_r.
  - apply (worker_step_ok p _ i Selecting (Handling d)); try done; cbn; try (destruct (decide _); lia). exists [].
    rewrite !app_nil_r. cbn. split; [done|]. split; [constructor|]. split; [solve_Permutation|done].
  - apply (worker_step_ok p _ (h_worker h) (Handling (h_delivery h)) (match h_err h with None => Selecting | Some err => Reporting err end));
      try done; cbn; try (destruct (decide _); lia). exists [h]. cbn.
    split; [done|]. split; [by constructor|]. destruct (h_err h); cbn; rewrite ?app_nil_r; split; solve_Permutation.
  - assert (length (worker_errors p) < workerCount)%nat as Hlt.
    { pose proof (ok_room p Hp) as Hroom. unfold active in Hroom. destruct (insert_split _ _ _ Hi) as (l1 & l2 & Hl & _).
      rewrite Hl, filter_app, length_app, filter_cons_True in Hroom by done. cbn in Hroom. lia. }
    assert (worker_errors (report_error workerCount i err p) = worker_errors p ++ [err]) as He
      by (cbn [report_error worker_errors]; by rewrite (proj2 (Nat.ltb_lt _ _) Hlt)).
    apply (worker_step_ok p _ i (Reporting err) Finished); try done; rewrite He.
    + rewrite length_app. destruct (decide _); cbn; done || lia.
    + exists []. cbn. by rewrite !app_nil_r.
  - apply (main_step_ok p); try done; cbn; unfold taken_error, result; cbn; rewrite ?Hm; try done. by intros r [= <-].
  - apply (main_step_ok p); try done; cbn; unfold taken_error, result; cbn; rewrite ?Hm; try done.
    intros r [= <-]. split; [by exists err|done].
  - apply (main_step_ok p); try done; cbn; unfold taken_error, result; cbn; rewrite ?Hm; try done.
    intros r [= <-]. split; [|done]. cbn.
    assert (err ∈ omap h_err (handled p)) as Hin.
    { rewrite (ok_errors p Hp), Hw. apply elem_of_app. right. left. }
    apply list_elem_of_omap in Hin as (h & ? & ?). by exists h.
  - apply (main_step_ok p); try done; cbn; unfold taken_error, result; cbn; rewrite ?Hm.
    + by destruct (ctx_done p).
    + intros r [= <-]. split; [|done]. cbn. destruct (ctx_done p) eqn:?; done.
  - assert (taken_error (stop_workers (worker_errors p) (Returned r) p) = taken_error p) as Ht
      by (unfold taken_error, result; cbn; by rewrite Hm).
    apply (main_step_ok p); try done; [by rewrite Ht|]. intros r' [= <-]. split; [|done].
    assert (result p = Some r) as Hr by (unfold result; by rewrite Hm).
    by destruct (ok_result p Hp r Hr) as [Hex _].
Qed.

Lemma start_ok done consumed : pool_ok (start workerCount done consumed).
Proof.
  destruct consumed as [err|]; split; cbn; try done; try lia.
  - intros r [= <-]. done.
  - unfold active. cbn. rewrite <- (length_replicate workerCount Selecting) at 2. apply length_filter.
  - induction workerCount as [|n IH]; cbn; [done|exact IH].
  - induction workerCount as [|n IH]; cbn; [done|exact IH].
Qed.

Lemma steps_ok ls p q : steps workerCount leaseTimeout ls p q → pool_ok p → pool_ok q.
Proof. induction 1; [done|]. intros Hp. by eapply IHsteps, step_ok. Qed.

Lemma reachable_ok p : reachable workerCount leaseTimeout p → pool_ok p.
Proof. intros (done & consumed & ls & H). eapply steps_ok; [exact H|apply start_ok]. Qed.
End invariant.

(** ** The pool ends *)

Fixpoint internal (ls : list label) : nat :=
  match ls with [] => 0 | Internal :: ls => S (internal ls) | _ :: ls => internal ls end.
Fixpoint receives (ls : list label) : nat :=
  match ls with [] => 0 | Receives :: ls => S (receives ls) | _ :: ls => receives ls end.

Definition worker_weight (w : WorkerState) : nat :=
  match w with Handling _ => 2 | Selecting | Reporting _ => 1 | Finished => 0 end.
Definition main_weight (m : MainState) : nat := match m with Waiting => 2 | Joining _ => 1 | Returned _ => 0 end.
Definition weight (p : Pool) : nat := main_weight (main p) + sum_list_with worker_weight (workers p).

Lemma weight_worker p q i w w' :
  workers p !! i = Some w → workers q = <[i := w']> (workers p) → main q = main p →
  (weight q + worker_weight w = weight p + worker_weight w')%nat.
Proof.
  intros Hi Hws Hm. destruct (insert_split _ _ _ Hi) as (l1 & l2 & Hl & Hins).
  unfold weight. rewrite Hws, Hins, Hm, Hl, !sum_list_with_app. cbn. lia.
Qed.

(** Nothing is wrong, and a worker waits for a delivery. *)
Definition idle (p : Pool) : Prop :=
  main p = Waiting ∧ worker_ctx_done p = false ∧ consumer_errors p = None ∧ deliveries_closed p = false
  ∧ worker_errors p = [] ∧ Selecting ∈ workers p.

Section ends.
Context (workerCount : nat) (leaseTimeout : Z).

(** Each step of its own brings the pool closer to its end. *)
Lemma step_weight l p q :
  step workerCount leaseTimeout l p q →
  (weight q + match l with Internal => 1 | _ => 0 end <= weight p + match l with Receives => 1 | _ => 0 end)%nat.
Proof.
  destruct 1 as [p Hd|p err Hc|p Hd|p i Hi Hc|p i Hi Hc|p i d Hi Hc|p h Hi Hh|p i err Hi
    |p Hm Hc|p err Hm Hc|p err rest Hm Hw|p Hm Hf|p r Hm Hf].
  1-3: unfold weight; cbn; lia.
  - pose proof (weight_worker p (set_worker i Finished p) i _ _ Hi eq_refl eq_refl). cbn in *. lia.
  - pose proof (weight_worker p (set_worker i Finished p) i _ _ Hi eq_refl eq_refl). cbn in *. lia.
  - pose proof (weight_worker p (take_delivery i d p) i _ _ Hi eq_refl eq_refl). cbn in *. lia.
  - pose proof (weight_worker p (end_delivery h p) _ _ _ Hi eq_refl eq_refl). destruct (h_err h); cbn in *; lia.
  - pose proof (weight_worker p (report_error workerCount i err p) i _ _ Hi eq_refl eq_refl). cbn in *. lia.
  - unfold weight. cbn. rewrite Hm. cbn. lia.
  - unfold weight. cbn. rewrite Hm. cbn. lia.
  - unfold weight. cbn. rewrite Hm. cbn. lia.
  - unfold weight. cbn. rewrite Hm. cbn. lia.
  - unfold weight. cbn. rewrite Hm. cbn. lia.
Qed.

Lemma steps_weight ls p q :
  steps workerCount leaseTimeout ls p q → (weight q + internal ls <= weight p + receives ls)%nat.
Proof.
  induction 1 as [p|l ls p q r Hs _ IH]; [cbn; lia|]. apply step_weight in Hs. destruct l; cbn [internal receives] in *; lia.
Qed.

Lemma start_weight done consumed : (weight (start workerCount done consumed) <= workerCount + 2)%nat.
Proof.
  destruct consumed; cbn; [lia|]. unfold weight. cbn.
  assert (sum_list_with worker_weight (replicate workerCount Selecting) = workerCount) as ->; [|lia].
  induction workerCount as [|n IH]; cbn; [done|by rewrite IH].
Qed.

(** A handler can return: its first call may already settle the delivery. *)
Lemma handles_something i d : ∃ h, h_worker h = i ∧ h_delivery h = d ∧ handles leaseTimeout h.
Proof.
  exists (mkHandled i d [EGet (Err ErrMonitorNotFound); EQuiet; EAck None] None). split; [done|]. split; [done|].
  exists 0%nat. eexists (Err ErrMonitorNotFound), _. split; [done|]. eexists tt, _. split; [done|].
  by eexists None, [].
Qed.

Lemma worker_can_move p i w :
  workers p !! i = Some w → w ≠ Finished → (w = Selecting → worker_ctx_done p = true ∨ deliveries_closed p = true) →
  ∃ q, step workerCount leaseTimeout Internal p q.
Proof.
  intros Hi Hw Hsel. destruct w as [|d|err|]; [|..|done].
  - destruct (Hsel eq_refl); eexists; [by eapply WorkerCancelled|by eapply WorkerNoMore].
  - destruct (handles_something i d) as (h & <- & <- & Hh). eexists. by apply WorkerHandled.
  - eexists. by eapply WorkerReports.
Qed.

Lemma workers_cases p :
  all_finished p = true ∨ (∃ i w, workers p !! i = Some w ∧ w ≠ Finished ∧ w ≠ Selecting)
  ∨ (∃ i, workers p !! i = Some Selecting).
Proof.
  destruct (all_finished p) eqn:Hf; [by left|right].
  assert (¬ Forall (λ w, w = Finished) (workers p)) as Hn by (rewrite <- all_finished_spec; congruence).
  apply not_Forall_Exists in Hn; [|apply _]. apply Exists_exists in Hn as (w & Hin & Hw).
  apply list_elem_of_lookup in Hin as [i Hi].
  destruct w as [|d|err|]; [by right; exists i|left; by exists i, (Handling d)|left; by exists i, (Reporting err)|by destruct Hw].
Qed.

Lemma pool_moves p :
  pool_ok workerCount leaseTimeout p → (∀ r, main p ≠ Returned r) →
  (∃ q, step workerCount leaseTimeout Internal p q) ∨ idle p.
Proof.
  intros Hp Hr. destruct (workers_cases p) as [Hf|[(i & w & Hi & Hw & Hs)|[i Hi]]].
  - left. destruct (main p) as [|r|r] eqn:Hm; [|..|by destruct (Hr r)]; eexists; [by apply MainAllDone|by apply MainJoined].
  - left. by eapply worker_can_move.
  - destruct (worker_ctx_done p) eqn:Hc; [left; by eapply worker_can_move; eauto|].
    destruct (deliveries_closed p) eqn:Hd; [left; by eapply worker_can_move; eauto|].
    destruct (main p) as [|r|r] eqn:Hm; [|..|by destruct (Hr r)].
    + destruct (consumer_errors p) as [err|] eqn:Hce; [left; eexists; by eapply MainConsumer|].
      destruct (worker_errors p) as [|err rest] eqn:Hwe; [right|left; eexists; by eapply MainWorker].
      repeat (split; [done|]). by eapply list_elem_of_lookup_2.
    + assert (result p = Some r) as Hres by (unfold result; by rewrite Hm).
      destruct (ok_result _ _ p Hp r Hres) as [_ Hst]. unfold worker_ctx_done in Hc. rewrite Hst, orb_true_r in Hc. done.
Qed.

(** C20: When [RunQueueWorkers] returns, no worker is left behind; every
    delivery its workers took was handled by exactly one of them, and settled
    exactly once unless its handler failed or was cancelled; and the result says
    why: nil only when the caller's context ended, a worker's error only when
    that worker's handler returned it.  No error of a worker was dropped. *)
Theorem workers_joined p r :
  reachable workerCount leaseTimeout p → main p = Returned r →
  Forall (λ w, w = Finished) (workers p)
  ∧ received p ≡ₚ h_delivery <$> handled p
  ∧ Forall (λ h, (length (settlements (h_log h)) <= 1)%nat
       ∧ (h_err h = None → cancelled (h_log h) = false → length (settlements (h_log h)) = 1%nat)) (handled p)
  ∧ omap h_err (handled p) ≡ₚ taken_error p ++ worker_errors p
  ∧ explained p r.
Proof.
  intros Hp%reachable_ok Hr. destruct Hp as [_ Hrec Herr Hh Hres Hj]. specialize (Hj r Hr) as Hf. apply all_finished_spec in Hf.
  assert (∀ {B} (f : WorkerState → option B), f Finished = None → omap f (workers p) = []) as Hnone.
  { intros B f Hfin. clear -Hf Hfin. induction Hf as [|w ws -> _ IH]; cbn; [done|]. by rewrite Hfin. }
  split; [done|]. split; [by rewrite Hrec, Hnone, app_nil_r|]. split.
  - eapply Forall_impl; [exact Hh|]. intros h [fuel Hm]. cbn in Hm.
    destruct (wp_may _ _ _ _ _ (delivery_settled_once fuel _ (h_delivery h) leaseTimeout) Hm) as [H1 H2].
    split; [done|]. intros He. apply H2. by rewrite He.
  - split; [by rewrite Herr, Hnone, app_nil_r|]. apply Hres. unfold result. by rewrite Hr.
Qed.

(** C21: The pool neither runs for ever on its own nor gets stuck: besides
    taking deliveries it makes at most two steps more than it has workers, plus
    one per delivery taken; and as long as it has not returned it can make
    another one, unless nothing is wrong and a worker waits for a delivery.  In
    particular, once its context has ended, a worker failed or the consumer
    stopped, it returns after finitely many steps. *)
Theorem workers_end done consumed ls p :
  steps workerCount leaseTimeout ls (start workerCount done consumed) p →
  (internal ls <= workerCount + 2 + receives ls)%nat
  ∧ ((∃ r, main p = Returned r) ∨ (∃ q, step workerCount leaseTimeout Internal p q) ∨ idle p).
Proof.
  intros Hs. split.
  - apply steps_weight in Hs. pose proof (start_weight done consumed). lia.
  - destruct (main p) as [|r|r] eqn:Hm; [| |left; by exists r]; right; (apply pool_moves; [|intros r'; congruence]);
      apply reachable_ok; by exists done, consumed, ls.
Qed.
End ends.

(** ** A run of two workers

    The first handles a delivery whose monitor is gone; then the context ends. *)
Definition sample_delivery : QueueDelivery := {| Job := mkMessage "job_1" "mon_1" 1 5; Retryable := true; HasRequeue := true |}.
Definition sample_handled : Handled :=
  mkHandled 0 sample_delivery [EGet (Err ErrMonitorNotFound); EQuiet; EAck None] None.
Definition sample_labels : list label :=
  [Receives; Internal; External; Internal; Internal; Internal; Internal].
Definition sample_pool : Pool :=
  mkPool true true [Finished; Finished] [] None false (Returned None) [sample_delivery] [sample_handled].

Lemma sample_handles leaseTimeout : handles leaseTimeout sample_handled.
Proof.
  exists 0%nat. eexists (Err ErrMonitorNotFound), _. split; [done|]. eexists tt, _. split; [done|]. by eexists None, [].
Qed.

Lemma sample_run : steps 2 Minute sample_labels (start 2 false None) sample_pool.
Proof.
  eapply steps_cons; [by apply (WorkerReceives _ _ _ 0 sample_delivery)|].
  eapply steps_cons; [apply (WorkerHandled _ _ _ sample_handled); [done|apply sample_handles]|].
  eapply steps_cons; [by apply ContextEnds|].
  eapply steps_cons; [by apply (WorkerCancelled _ _ _ 1)|].
  eapply steps_cons; [by apply MainCancelled|].
  eapply steps_cons; [by apply (WorkerCancelled _ _ _ 0)|].
  eapply steps_cons; [by apply (MainJoined _ _ _ None)|].
  apply steps_nil.
Qed.

Lemma workers_joined_witness :
  ∃ p, reachable 2 Minute p ∧ main p = Returned None ∧ received p ≡ₚ h_delivery <$> handled p ∧ received p = [sample_delivery]
  ∧ explained p None.
Proof.
  assert (reachable 2 Minute sample_pool) as Hreach by (exists false, None, sample_labels; exact sample_run).
  exists sample_pool. split; [exact Hreach|]. split; [reflexivity|].
  destruct (workers_joined 2 Minute sample_pool None Hreach eq_refl) as (_ & H1 & _ & _ & H2).
  split; [exact H1|]. split; [reflexivity|exact H2].
Defined.

Lemma workers_end_witness :
  steps 2 Minute sample_labels (start 2 false None) sample_pool
  ∧ (internal sample_labels <= 2 + 2 + receives sample_labels)%nat.
Proof.
  split; [exact sample_run|]. exact (proj1 (workers_end 2 Minute false None sample_labels sample_pool sample_run)).
Defined.
