(* ===== verification/App.v ===== *)
(** * Start-up and shutdown (app.go, runtime.go)

    [runApplication] as a program over what it opens, starts and waits for: the
    configuration, the seeds and the egress policy are checked before anything
    is opened; deferred calls close what was opened on every path.  The
    goroutines it starts are the components; what they do while it waits is the
    subject of [Supervision]. *)

From stdpp Require Import base list gmap strings.
From Stdlib Require Import ZArith Lia Ascii.
From S2P Require Import Prelude GoNum GoStrings GoDuration NetworkPolicy Egress Domain StoreInv Sample Checker Config ConfigSpec Links Migrations Server Workers Shared.
#[local] Open Scope string_scope.
#[local] Open Scope list_scope.
#[local] Open Scope Z_scope.
#[local] Open Scope shared_scope.

(** ** Data *)

Inductive Component := CHTTP | CScheduler | CWorkers | CDispatcher | CRetention.
#[export] Instance component_eq_dec : EqDecision Component.
Proof. solve_decision. Defined.

(** Errors of a component that end the process. *)
Inductive FatalError := HTTPStopped (e : HTTPStop) | WorkersStopped (e : WorkersErr).

(** [ParseConfig] fails with an error that quotes the URL, or with another. *)
Inductive ParseErr := ParseConfigError | OtherParseError (e : GoError).
Inductive PoolErr := InvalidConnectionString | PoolParse (e : GoError) | PoolFailed (e : GoError).
Inductive InitErr := PoolError (e : PoolErr) | MigrationError (e : GoError) | SchemaError (e : SchemaErr).
Inductive AppErr :=
| InvalidConfiguration (errs : list ConfigErr) | InvalidWebhookURL (e : NetErr)
| LoadSeedsFailed (e : LinksErr) | InvalidSeeds (e : LinksErr)
| InitRepository (e : InitErr) | SeedMonitors (e : GoError)
| NoDataRetention | NoAlertDelivery
| InitQueue (e : GoError) | StartHTTP (e : GoError)
| RuntimeError (e : FatalError).

Inductive StopEvent := ParentDone | Reported (e : FatalError).

Inductive appcall : Type → Type :=
| ParseConfig (databaseURL : string) : appcall (option ParseErr)
| NewPool (timeout : Z) : appcall (option GoError)               (* pgxpool.NewWithConfig *)
| PingPool (timeout : Z) : appcall (option GoError)
| ClosePool : appcall unit
| Migrate (timeout : Z) : appcall (option GoError)
| VerifySchema (timeout : Z) : appcall (option SchemaErr)
| CreateSeeds (links : list string) : appcall (option GoError)   (* SeedRepository *)
| CountMonitors : appcall unit                                   (* updateTotalLinks *)
| ConnectQueue : appcall (option GoError)                        (* NewRabbitMQQueueWithTopologyLossHandler *)
| NewMemoryQueue : appcall unit
| CloseQueue : appcall (option GoError)
| Listen (addr : string) : appcall (option GoError)              (* RunHTTPServer *)
| Start (c : Component) : appcall unit
| AwaitStop : appcall StopEvent                                  (* parentCtx.Done() or fatalErrors *)
| CancelContext : appcall unit
| WaitAll : appcall unit.

#[local] Abbreviation aprog := (prog unit appcall).
#[local] Abbreviation aentry := (entry unit appcall).

(** ** Back ends *)

(** The timeout of an operation on the database. *)
Definition databaseTimeout (timeout fallback : Z) : Z := if timeout <=? 0 then fallback else timeout.

Definition OpenPostgresPoolWithTimeout (databaseURL : string) (timeout : Z) : aprog (option PoolErr) :=
  let timeout := databaseTimeout timeout defaultDatabaseOperationTimeout in
  let* parsed := perform (ParseConfig databaseURL) in
  match parsed with
  | Some ParseConfigError => Ret (Some InvalidConnectionString)
  | Some (OtherParseError err) => Ret (Some (PoolParse err))
  | None =>
      let* made := perform (NewPool timeout) in
      match made with
      | Some err => Ret (Some (PoolFailed err))
      | None =>
          let* answered := perform (PingPool timeout) in
          match answered with
          | Some err => do* perform ClosePool in Ret (Some (PoolFailed err))
          | None => Ret None
          end
      end
  end.

Inductive Repository := PostgresRepository | MemoryRepository.

Definition NewConfiguredRepository (cfg : Config) : aprog (res InitErr Repository) :=
  if String.eqb (cfg_StorageType cfg) "postgres" then
    let* opened := OpenPostgresPoolWithTimeout (cfg_DatabaseURL cfg) (cfg_DatabaseMigrationTimeout cfg) in
    match opened with
    | Some err => Ret (Err (PoolError err))
    | None =>
        let* migrated := if cfg_RunMigrations cfg then perform (Migrate (cfg_DatabaseMigrationTimeout cfg)) else Ret None in
        match migrated with
        | Some err => do* perform ClosePool in Ret (Err (MigrationError err))
        | None =>
            let* verified := perform (VerifySchema (cfg_DatabaseOperationTimeout cfg)) in
            match verified with
            | Some err => do* perform ClosePool in Ret (Err (SchemaError err))
            | None => Ret (Ok PostgresRepository)
            end
        end
    end
  else Ret (Ok MemoryRepository).

Definition closeRepo (repo : Repository) : aprog unit :=
  match repo with PostgresRepository => perform ClosePool | MemoryRepository => Ret tt end.
(** [repo.(RetentionRepository)] and [repo.(AlertOutboxRepository)]. *)
Definition persistent (repo : Repository) : bool := match repo with PostgresRepository => true | MemoryRepository => false end.

Definition NewConfiguredQueueWithTopologyLossHandler (cfg : Config) : aprog (option GoError) :=
  if String.eqb (cfg_QueueType cfg) "rabbitmq" then perform ConnectQueue
  else do* perform NewMemoryQueue in Ret None.

(** ** The application *)

Definition queue_enabled (cfg : Config) : bool :=
  roleEnabled (cfg_AppRole cfg) "scheduler" || roleEnabled (cfg_AppRole cfg) "worker".
Definition alerts_enabled (cfg : Config) : bool :=
  roleEnabled (cfg_AppRole cfg) "alert-dispatcher" && negb (String.eqb (cfg_AlertWebhookURL cfg) "").
Definition http_enabled (cfg : Config) : bool := negb (String.eqb (cfg_HealthAddr cfg) "").

Definition start_if (cond : bool) (c : Component) : aprog unit := if cond then perform (Start c) else Ret tt.

(** From [RunHTTPServer] to the end: start, wait, stop. *)
Definition serve (cfg : Config) : aprog (option AppErr) :=
  let* listening := if http_enabled cfg then perform (Listen (cfg_HealthAddr cfg)) else Ret None in
  match listening with
  | Some err => Ret (Some (StartHTTP err))
  | None =>
      do* start_if (http_enabled cfg) CHTTP in
      do* start_if (queue_enabled cfg && roleEnabled (cfg_AppRole cfg) "scheduler") CScheduler in
      do* start_if (queue_enabled cfg && roleEnabled (cfg_AppRole cfg) "worker") CWorkers in
      do* start_if (alerts_enabled cfg) CDispatcher in
      do* start_if (cfg_RetentionEnabled cfg) CRetention in
      let* stop := perform AwaitStop in
      do* perform CancelContext in
      do* if queue_enabled cfg then do* perform CloseQueue in Ret tt else Ret tt in
      do* perform WaitAll in
      Ret (match stop with ParentDone => None | Reported e => Some (RuntimeError e) end)
  end.

(** With the repository open: [defer closeRepo()] is around it. *)
Definition with_repository (cfg : Config) (seedLinks : list string) (repo : Repository) : aprog (option AppErr) :=
  let* seeded := match seedLinks with [] => Ret None | _ => perform (CreateSeeds seedLinks) end in
  match seeded with
  | Some err => Ret (Some (SeedMonitors err))
  | None =>
      do* perform CountMonitors in
      if cfg_RetentionEnabled cfg && negb (persistent repo) then Ret (Some NoDataRetention)
      else if alerts_enabled cfg && negb (persistent repo) then Ret (Some NoAlertDelivery)
      else if queue_enabled cfg then
        let* connected := NewConfiguredQueueWithTopologyLossHandler cfg in
        match connected with
        | Some err => Ret (Some (InitQueue err))
        | None => deferring (perform CloseQueue) (serve cfg)
        end
      else serve cfg
  end.

Section app.
Context `{EN : !Environment, UN : !Unicode, UP : !URLParser, UQ : !URLQuery, FS : !Files}.

(** The seeds of a scheduler, loaded and validated. *)
Definition seeds (cfg : Config) (policy : NetworkPolicy) : res AppErr (list string) :=
  if roleEnabled (cfg_AppRole cfg) "scheduler" then
    match LoadSeedLinks cfg with
    | Err err => Err (LoadSeedsFailed err)
    | Ok [] => Ok []
    | Ok links => match ValidateLinks links policy with Some err => Err (InvalidSeeds err) | None => Ok links end
    end
  else Ok [].

Definition webhook_refused (cfg : Config) (policy : NetworkPolicy) : option NetErr :=
  if negb (String.eqb (cfg_AlertWebhookURL cfg) "") then ValidateURL policy (cfg_AlertWebhookURL cfg) else None.

Definition runApplication : aprog (option AppErr) :=
  match LoadConfig with
  | Err errs => Ret (Some (InvalidConfiguration errs))
  | Ok cfg =>
      let policy := NewNetworkPolicy cfg in
      match webhook_refused cfg policy with
      | Some err => Ret (Some (InvalidWebhookURL err))
      | None =>
          deferring (perform CancelContext) (
            match seeds cfg policy with
            | Err err => Ret (Some err)
            | Ok seedLinks =>
                let* repo := NewConfiguredRepository cfg in
                match repo with
                | Err err => Ret (Some (InitRepository err))
                | Ok repo => deferring (closeRepo repo) (with_repository cfg seedLinks repo)
                end
            end)
      end
  end.
End app.

(** ** What may be open when

    [pool]: the database pool is open; [broker]: there is a queue, and it is
    open; [up]: the components that were started and not yet joined; [told]: the
    context was cancelled.  [begun] and [heard] record which components were ever
    started and what ended the wait. *)
Record Holding := mkHolding {
  pool : bool; broker : option bool; up : list Component; told : bool;
  begun : list Component; heard : option StopEvent;
}.
Definition nothing : Holding := mkHolding false None [] false [] None.

#[export] Instance eta_Holding : Eta Holding := λ h, mkHolding (pool h) (broker h) (up h) (told h) (begun h) (heard h).

(** What a component works on. *)
Definition provided (cfg : Config) (h : Holding) (c : Component) : Prop :=
  (cfg_StorageType cfg = "postgres" → pool h = true)
  ∧ match c with
    | CScheduler | CWorkers => broker h = Some true
    | CDispatcher | CRetention => pool h = true
    | CHTTP => True
    end.

Inductive app_moves (cfg : Config) (h : Holding) : aentry → Holding → Prop :=
| m_parse s url err : pool h = false → app_moves cfg h (Called s (ParseConfig url) err) h
| m_open s timeout err : pool h = false → up h = [] →
    app_moves cfg h (Called s (NewPool timeout) err) (h <| pool := bool_decide (err = None) |>)
| m_ping s timeout err : pool h = true → up h = [] → app_moves cfg h (Called s (PingPool timeout) err) h
| m_migrate s timeout err : pool h = true → up h = [] → app_moves cfg h (Called s (Migrate timeout) err) h
| m_verify s timeout err : pool h = true → up h = [] → app_moves cfg h (Called s (VerifySchema timeout) err) h
| m_seed s links err : (cfg_StorageType cfg = "postgres" → pool h = true) → broker h = None → up h = [] →
    app_moves cfg h (Called s (CreateSeeds links) err) h
| m_count s x : (cfg_StorageType cfg = "postgres" → pool h = true) → app_moves cfg h (Called s CountMonitors x) h
| m_connect s err : broker h = None → up h = [] →
    app_moves cfg h (Called s ConnectQueue err) (h <| broker := if decide (err = None) then Some true else None |>)
| m_memory s x : broker h = None → up h = [] → app_moves cfg h (Called s NewMemoryQueue x) (h <| broker := Some true |>)
| m_listen s addr err : up h = [] → app_moves cfg h (Called s (Listen addr) err) h
| m_start s c x : told h = false → c ∉ up h → provided cfg h c →
    app_moves cfg h (Called s (Start c) x) ((h <| up := up h ++ [c] |>) <| begun := begun h ++ [c] |>)
| m_await s event : told h = false → heard h = None →
    app_moves cfg h (Called s AwaitStop event) (h <| heard := Some event |>)
| m_cancel s x : app_moves cfg h (Called s CancelContext x) (h <| told := true |>)
| m_close_queue s err : is_Some (broker h) → up h = [] ∨ told h = true →
    app_moves cfg h (Called s CloseQueue err) (h <| broker := Some false |>)
| m_wait s x : told h = true → broker h ≠ Some true → app_moves cfg h (Called s WaitAll x) (h <| up := [] |>)
| m_close_pool s x : pool h = true → broker h ≠ Some true → up h = [] →
    app_moves cfg h (Called s ClosePool x) (h <| pool := false |>).

(** The components of a role, in the order in which they start. *)
Definition components (cfg : Config) : list Component :=
  (if http_enabled cfg then [CHTTP] else [])
  ++ (if roleEnabled (cfg_AppRole cfg) "scheduler" then [CScheduler] else [])
  ++ (if roleEnabled (cfg_AppRole cfg) "worker" then [CWorkers] else [])
  ++ (if alerts_enabled cfg then [CDispatcher] else [])
  ++ (if cfg_RetentionEnabled cfg then [CRetention] else []).
