(* ===== verification/AppSpec.v ===== *)
(** * What start-up and shutdown guarantee (app.go) *)

From stdpp Require Import base list gmap strings.
From Stdlib Require Import ZArith Lia Ascii.
From S2P Require Import Prelude GoNum GoStrings GoDuration NetworkPolicy Egress Domain StoreInv Sample Checker Config ConfigSpec Links Migrations Server Workers Shared App.
#[local] Open Scope string_scope.
#[local] Open Scope list_scope.
#[local] Open Scope Z_scope.
#[local] Open Scope shared_scope.

(** ** Triples

    From a holding that satisfies [P], every run of [p] is allowed and ends in one
    that satisfies [Q]. *)
Section triples.
Context (cfg : Config) (R : unit → unit → Prop) (possible : ∀ X, appcall X → X → Prop).

Definition triple {A} (P : Holding → Prop) (p : prog unit appcall A) (Q : A → Holding → Prop) : Prop :=
  ∀ h s log s' a, P h → run R possible p s log s' a → ∃ h', path (app_moves cfg) h log h' ∧ Q a h'.

Lemma triple_ret {A} P (a : A) (Q : A → Holding → Prop) : (∀ h, P h → Q a h) → triple P (Ret a) Q.
Proof. intros H h s log s' b Hp (-> & _ & ->). exists h. split; [constructor|auto]. Qed.

Lemma triple_bind {A B} P M (p : prog unit appcall A) (f : A → prog unit appcall B) Q :
  triple P p M → (∀ a, triple (M a) (f a) Q) → triple P (bind p f) Q.
Proof.
  intros H1 H2 h s log s' b Hp (log1 & s1 & a & log2 & Hr1 & Hr2 & ->)%run_bind.
  destruct (H1 _ _ _ _ _ Hp Hr1) as (h1 & Hpath1 & HM). destruct (H2 a _ _ _ _ _ HM Hr2) as (h2 & Hpath2 & HQ).
  exists h2. split; [by eapply path_app|done].
Qed.

Lemma triple_deferring {A B} P M (q : prog unit appcall B) (p : prog unit appcall A) Q :
  triple P p M → (∀ a, triple (M a) q (λ _, Q a)) → triple P (deferring q p) Q.
Proof.
  intros H1 H2. eapply triple_bind; [exact H1|]. intros a. eapply triple_bind; [apply H2|].
  intros b. by apply triple_ret.
Qed.

Lemma triple_call {X} P (c : appcall X) (Q : X → Holding → Prop) :
  (∀ h s x, P h → ∃ h', app_moves cfg h (Called s c x) h' ∧ Q x h') → triple P (perform c) Q.
Proof.
  intros H h s log s' x Hp (_ & _ & ->)%run_perform. destruct (H h s' x Hp) as (h' & Hm & HQ).
  exists h'. split; [by apply path_one|done].
Qed.

Lemma triple_weaken {A} (P P' : Holding → Prop) (p : prog unit appcall A) (Q Q' : A → Holding → Prop) :
  (∀ h, P h → P' h) → (∀ a h, Q' a h → Q a h) → triple P' p Q' → triple P p Q.
Proof.
  intros HP HQ Ht h s log s' a Hp Hr. destruct (Ht _ _ _ _ _ (HP _ Hp) Hr) as (h' & ? & ?). eauto.
Qed.
End triples.

Section spec.
Context (cfg : Config) (R : unit → unit → Prop) (possible : ∀ X, appcall X → X → Prop).
#[local] Abbreviation triples := (triple cfg R possible).
#[local] Abbreviation postgres := (String.eqb (cfg_StorageType cfg) "postgres").

(** Before the components: the pool is [p], the queue [b]. *)
Definition idle_with (p : bool) (b : option bool) (h : Holding) : Prop :=
  pool h = p ∧ broker h = b ∧ up h = [] ∧ told h = false ∧ begun h = [] ∧ heard h = None.

Lemma close_pool_triple : triples (idle_with true None) (perform ClosePool) (λ _, idle_with false None).
Proof.
  apply triple_call. intros h s err (H1 & H2 & H3 & H4 & H5 & H6). eexists. split; [apply m_close_pool; congruence|]. done.
Qed.

(** A pool that was opened but does not answer is closed again. *)
Lemma pool_triple url timeout :
  triples (idle_with false None) (OpenPostgresPoolWithTimeout url timeout) (λ err, idle_with (bool_decide (err = None)) None).
Proof.
  unfold OpenPostgresPoolWithTimeout. eapply triple_bind with (M := λ _, idle_with false None).
  { apply triple_call. intros h s err (H1 & H2 & H3 & H4 & H5 & H6). eexists. split; [by apply m_parse|]. done. }
  intros [[|err]|]; [by apply triple_ret..|].
  eapply triple_bind with (M := λ err, idle_with (bool_decide (err = None)) None).
  { apply triple_call. intros h s err (H1 & H2 & H3 & H4 & H5 & H6). eexists. split; [by apply m_open|]. done. }
  intros [err|]; [by apply triple_ret|].
  eapply triple_bind with (M := λ _, idle_with true None).
  { apply triple_call. intros h s err (H1 & H2 & H3 & H4 & H5 & H6). eexists. split; [by apply m_ping|]. done. }
  intros [err|]; [eapply triple_bind; [exact close_pool_triple|intros x; by apply triple_ret]|]. by apply triple_ret.
Qed.

Lemma repository_triple :
  triples (idle_with false None) (NewConfiguredRepository cfg)
    (λ r h, match r with
            | Ok repo => persistent repo = postgres ∧ idle_with postgres None h
            | Err _ => idle_with false None h
            end).
Proof.
  unfold NewConfiguredRepository. destruct postgres; [|by apply triple_ret].
  eapply triple_bind; [apply pool_triple|].
  intros [err|]; [by apply triple_ret|].
  eapply triple_bind with (M := λ _, idle_with true None).
  { destruct (cfg_RunMigrations cfg); [|by apply triple_ret].
    apply triple_call. intros h s err (H1 & H2 & H3 & H4 & H5 & H6). eexists. split; [by apply m_migrate|]. done. }
  intros [err|]; [eapply triple_bind; [exact close_pool_triple|intros x; by apply triple_ret]|].
  eapply triple_bind with (M := λ _, idle_with true None).
  { apply triple_call. intros h s err (H1 & H2 & H3 & H4 & H5 & H6). eexists. split; [by apply m_verify|]. done. }
  intros [err|]; [eapply triple_bind; [exact close_pool_triple|intros x; by apply triple_ret]|]. by apply triple_ret.
Qed.

(** Starting one component after those of [l]. *)
Definition running (p : bool) (b : option bool) (l : list Component) (h : Holding) : Prop :=
  pool h = p ∧ broker h = b ∧ up h = l ∧ told h = false ∧ begun h = l ∧ heard h = None.

Lemma start_triple p b l cond c :
  (cfg_StorageType cfg = "postgres" → p = true) →
  (cond = true → match c with
                 | CScheduler | CWorkers => b = Some true
                 | CDispatcher | CRetention => p = true
                 | CHTTP => True
                 end) →
  c ∉ l →
  triples (running p b l) (start_if cond c) (λ _, running p b (l ++ if cond then [c] else [])).
Proof.
  intros Hp Hc Hnew. destruct cond; cbn; [|rewrite app_nil_r; by apply triple_ret].
  apply triple_call. intros h s x (H1 & H2 & H3 & H4 & H5 & H6). eexists. split.
  - apply m_start; [done|by rewrite H3|]. split; [by rewrite H1|]. specialize (Hc eq_refl). destruct c; by rewrite ?H1, ?H2.
  - unfold running. cbn. rewrite H3, H5. done.
Qed.

Lemma not_started (c : Component) (b : bool) (c' : Component) l :
  c ≠ c' → c ∉ l → c ∉ l ++ (if b then [c'] else []).
Proof. intros Hne Hl. rewrite elem_of_app. intros [H|H]; [done|]. destruct b; [by apply list_elem_of_singleton in H|by apply not_elem_of_nil in H]. Qed.

(** What [serve] leaves: nothing runs, the queue, if any, is closed unless nothing
    was started; and what it returns says why. *)
Definition served (p : bool) (b : option bool) (r : option AppErr) (h : Holding) : Prop :=
  pool h = p ∧ up h = [] ∧
  ((∃ e, r = Some (StartHTTP e) ∧ broker h = b ∧ begun h = [] ∧ heard h = None)
   ∨ broker h = (if queue_enabled cfg then Some false else b) ∧ begun h = components cfg
     ∧ (heard h = Some ParentDone ∧ r = None ∨ ∃ e, heard h = Some (Reported e) ∧ r = Some (RuntimeError e))).

Lemma serve_triple p b :
  (cfg_StorageType cfg = "postgres" → p = true) → (queue_enabled cfg = true → b = Some true) →
  (queue_enabled cfg = false → b = None) →
  (alerts_enabled cfg = true → p = true) → (cfg_RetentionEnabled cfg = true → p = true) →
  triples (idle_with p b) (serve cfg) (served p b).
Proof.
  intros Hp Hq Hnq Ha Hret. unfold serve.
  eapply triple_bind with (M := λ _, running p b []).
  { destruct (http_enabled cfg); [|by apply triple_ret].
    apply triple_call. intros h s x (H1 & H2 & H3 & H4 & H5 & H6). eexists. split; [by apply m_listen|]. done. }
  intros [err|].
  { apply triple_ret. intros h (H1 & H2 & H3 & H4 & H5 & H6). split; [done|]. split; [done|]. left. by exists err. }
  eapply triple_bind; [apply (start_triple p b []); [done|done|by apply not_elem_of_nil]|intros ?].
  eapply triple_bind; [apply start_triple; [done|intros [? _]%andb_true_iff; auto|repeat apply not_started; done || by apply not_elem_of_nil]|intros ?].
  eapply triple_bind; [apply start_triple; [done|intros [? _]%andb_true_iff; auto|repeat apply not_started; done || by apply not_elem_of_nil]|intros ?].
  eapply triple_bind; [apply start_triple; [done|auto|repeat apply not_started; done || by apply not_elem_of_nil]|intros ?].
  eapply triple_bind; [apply start_triple; [done|auto|repeat apply not_started; done || by apply not_elem_of_nil]|intros ?].
  assert ((((([] ++ (if http_enabled cfg then [CHTTP] else []))
    ++ (if queue_enabled cfg && roleEnabled (cfg_AppRole cfg) "scheduler" then [CScheduler] else []))
    ++ (if queue_enabled cfg && roleEnabled (cfg_AppRole cfg) "worker" then [CWorkers] else []))
    ++ (if alerts_enabled cfg then [CDispatcher] else [])) ++ (if cfg_RetentionEnabled cfg then [CRetention] else [])
    = components cfg) as ->.
  { unfold components, queue_enabled. rewrite app_nil_l, <- !app_assoc.
    by destruct (roleEnabled (cfg_AppRole cfg) "scheduler"), (roleEnabled (cfg_AppRole cfg) "worker"). }
  set (stopped := λ (x : bool) (event : StopEvent) h, pool h = p ∧ broker h = b ∧ up h = components cfg
    ∧ told h = x ∧ begun h = components cfg ∧ heard h = Some event).
  eapply triple_bind with (M := stopped false).
  { apply triple_call. intros h s event (H1 & H2 & H3 & H4 & H5 & H6). eexists. split; [by apply m_await|]. done. }
  intros event. eapply triple_bind with (M := λ _, stopped true event).
  { apply triple_call. intros h s x (H1 & H2 & H3 & H4 & H5 & H6). eexists. split; [by apply m_cancel|]. done. }
  intros ?. set (closed := λ h, pool h = p ∧ broker h = (if queue_enabled cfg then Some false else b) ∧ told h = true
    ∧ begun h = components cfg ∧ heard h = Some event).
  eapply triple_bind with (M := λ _, closed).
  { destruct (queue_enabled cfg) eqn:Hqe.
    - eapply triple_bind with (M := λ _, closed); [|intros ?; by apply triple_ret].
      apply triple_call. intros h s x (H1 & H2 & H3 & H4 & H5 & H6). eexists. split.
      + apply m_close_queue; [rewrite H2, Hq; done|by right].
      + unfold closed. rewrite ?Hqe. done.
    - apply triple_ret. intros h (H1 & H2 & H3 & H4 & H5 & H6). unfold closed. rewrite ?Hqe. done. }
  intros ?. eapply triple_bind with (M := λ _ h, closed h ∧ up h = []).
  { apply triple_call. intros h s x (H1 & H2 & H3 & H4 & H5). eexists. split.
    - apply m_wait; [done|]. rewrite H2. destruct (queue_enabled cfg); [done|]. by rewrite Hnq.
    - done. }
  intros ?. apply triple_ret. intros h [(H1 & H2 & H3 & H4 & H5) H6]. split; [done|]. split; [done|]. right.
  split; [done|]. split; [done|]. destruct event as [|e]; [by left|right; by exists e].
Qed.

(** Errors before anything runs. *)
Definition startup_error (err : AppErr) : Prop :=
  match err with
  | LoadSeedsFailed _ | InvalidSeeds _ | InitRepository _ | SeedMonitors _ | InitQueue _ | StartHTTP _ => True
  | _ => False
  end.

(** How the application ends, with the components stopped and the queue closed. *)
Definition ended (p : bool) (r : option AppErr) (h : Holding) : Prop :=
  pool h = p ∧ broker h ≠ Some true ∧ up h = []
  ∧ (begun h = [] ∧ heard h = None ∧ (∃ err, r = Some err ∧ startup_error err)
     ∨ begun h = components cfg
       ∧ (heard h = Some ParentDone ∧ r = None ∨ ∃ e, heard h = Some (Reported e) ∧ r = Some (RuntimeError e))).

Lemma ended_early p err h : idle_with p None h → startup_error err → ended p (Some err) h.
Proof.
  intros (H1 & H2 & H3 & H4 & H5 & H6) He. split; [done|]. split; [congruence|]. split; [done|]. left. eauto.
Qed.

Section loaded.
Context (Halerts : alerts_enabled cfg = true → postgres = true) (Hretention : cfg_RetentionEnabled cfg = true → postgres = true).

Lemma with_repository_triple seedLinks repo :
  persistent repo = postgres →
  triples (idle_with postgres None) (with_repository cfg seedLinks repo) (ended postgres).
Proof.
  intros Hrepo. unfold with_repository.
  assert (cfg_StorageType cfg = "postgres" → postgres = true) as Hpg by (by intros ->).
  eapply triple_bind with (M := λ _, idle_with postgres None).
  { destruct seedLinks as [|link links]; [by apply triple_ret|].
    apply triple_call. intros h s x Hh. exists h. split; [|done]. destruct Hh as (H1 & H2 & H3 & H4 & H5 & H6).
    apply m_seed; [by rewrite H1|done|done]. }
  intros [err|]; [apply triple_ret; intros h Hh; by apply ended_early|].
  eapply triple_bind with (M := λ _, idle_with postgres None).
  { apply triple_call. intros h s x Hh. exists h. split; [|done]. destruct Hh as (H1 & H2 & H3 & H4 & H5 & H6).
    apply m_count. by rewrite H1. }
  intros ?. rewrite Hrepo.
  assert (cfg_RetentionEnabled cfg && negb postgres = false) as ->
    by (destruct (cfg_RetentionEnabled cfg); [by rewrite Hretention|done]).
  assert (alerts_enabled cfg && negb postgres = false) as -> by (destruct (alerts_enabled cfg); [by rewrite Halerts|done]).
  destruct (queue_enabled cfg) eqn:Hq.
  - eapply triple_bind with (M := λ err, idle_with postgres (if decide (err = None) then Some true else None)).
    { unfold NewConfiguredQueueWithTopologyLossHandler. destruct (String.eqb (cfg_QueueType cfg) "rabbitmq").
      - apply triple_call. intros h s err (H1 & H2 & H3 & H4 & H5 & H6). eexists. split; [by apply m_connect|]. done.
      - eapply triple_bind with (M := λ _, idle_with postgres (Some true)); [|intros ?; by apply triple_ret].
        apply triple_call. intros h s x (H1 & H2 & H3 & H4 & H5 & H6). eexists. split; [by apply m_memory|]. done. }
    intros [err|]; [apply triple_ret; intros h Hh; by apply ended_early|].
    apply (triple_deferring _ _ _ _ (served postgres (Some true))).
    + apply serve_triple; auto. by rewrite Hq.
    + intros r. apply triple_call. intros h s x (H1 & H2 & H3). eexists. split.
      * apply m_close_queue; [|by left]. destruct H3 as [(e & _ & -> & _)|(-> & _)]; [done|by rewrite Hq].
      * split; [done|]. split; [done|]. split; [done|].
        destruct H3 as [(e & -> & _ & H4 & H5)|(_ & H4 & H5)]; [left; split; [done|]; split; [done|]; by exists (StartHTTP e)|right; done].
  - eapply triple_weaken; [done| |apply serve_triple; auto; by rewrite Hq].
    intros r h (H1 & H2 & H3). split; [done|].
    destruct H3 as [(e & -> & H3 & H4 & H5)|(H3 & H4 & H5)]; rewrite H3, ?Hq; (split; [done|]); (split; [done|]); [left; split; [done|]; split; [done|]; by exists (StartHTTP e)|by right].
Qed.
End loaded.
End spec.

Section application.
Context `{EN : !Environment, UN : !Unicode, UP : !URLParser, UQ : !URLQuery, FS : !Files}.
Context (R : unit → unit → Prop) (possible : ∀ X, appcall X → X → Prop).

Lemma seeds_startup cfg policy err : seeds cfg policy = Err err → startup_error err.
Proof.
  unfold seeds. destruct (roleEnabled _ _); [|done]. destruct (LoadSeedLinks cfg) as [[|link links]|e]; [done| |by intros [= <-]].
  destruct (ValidateLinks _ _); [by intros [= <-]|done].
Qed.

Lemma opened_triple cfg seedLinks :
  LoadConfig = Ok cfg →
  triple cfg R possible (idle_with false None)
    (let* repo := NewConfiguredRepository cfg in
     match repo with
     | Err err => Ret (Some (InitRepository err))
     | Ok repo => deferring (closeRepo repo) (with_repository cfg seedLinks repo)
     end) (ended cfg false).
Proof.
  intros (_ & _ & Hrules)%LoadConfig_iff.
  eapply triple_bind; [apply repository_triple|]. intros [repo|err].
  - apply (triple_deferring _ _ _ _ (λ r h, persistent repo = String.eqb (cfg_StorageType cfg) "postgres"
      ∧ ended cfg (String.eqb (cfg_StorageType cfg) "postgres") r h)).
    + intros h s log s' r [Hrepo Hh] Hrun.
      destruct (with_repository_triple cfg R possible) with (seedLinks := seedLinks) (repo := repo) (h := h) (s := s) (log := log) (s' := s') (a := r)
        as (h' & Hpath & Hend); [| |done..|by exists h'].
      * unfold alerts_enabled. intros [_ Hw%negb_true_iff%String.eqb_neq]%andb_true_iff. apply String.eqb_eq.
        by apply (ro_webhook _ Hrules).
      * intros Hret. apply String.eqb_eq. by apply (ro_retention _ Hrules).
    + intros r. destruct repo; cbn in *.
      * apply triple_call. intros h s x [Hp (H1 & H2 & H3 & H4)]. rewrite <- Hp in H1. eexists. split; [by apply m_close_pool|]. done.
      * apply triple_ret. intros h [Hp (H1 & H2 & H3 & H4)]. rewrite <- Hp in H1. done.
  - apply triple_ret. intros h Hh. by apply ended_early.
Qed.

(** C18: Whatever fails and in whatever way the process is stopped, start-up and
    shutdown keep their order and leave nothing behind.  Nothing is opened unless
    the configuration is accepted, the webhook's URL allowed and the seeds loaded
    and allowed.  A component starts only once what it works on is open, and the
    seeds created; the components that start are exactly those of the role, or
    none.  When it returns, every component has been joined, the queue was
    closed, and only then the database pool.  It returns nil only after its
    parent's request, and a component's error only if that was reported; the
    errors of an unsuitable repository never occur. *)
Theorem application_lifecycle s log s' r :
  run R possible runApplication s log s' r →
  match LoadConfig with
  | Err errs => log = [] ∧ r = Some (InvalidConfiguration errs)
  | Ok cfg =>
      ∃ h, path (app_moves cfg) nothing log h ∧ pool h = false ∧ broker h ≠ Some true ∧ up h = []
      ∧ (begun h = [] ∧ heard h = None
           ∧ (∃ err, r = Some err ∧ (startup_error err ∨ ∃ e, err = InvalidWebhookURL e ∧ log = []))
         ∨ begun h = components cfg
           ∧ (heard h = Some ParentDone ∧ r = None ∨ ∃ e, heard h = Some (Reported e) ∧ r = Some (RuntimeError e)))
      ∧ ((∀ e, e ∈ log → ∃ m x, e = Called m CancelContext x)
         ∨ webhook_refused cfg (NewNetworkPolicy cfg) = None ∧ ∃ links, seeds cfg (NewNetworkPolicy cfg) = Ok links)
  end.
Proof.
  intros H. unfold runApplication in H. destruct LoadConfig as [cfg|errs] eqn:Hload; [|by run_step H].
  destruct (webhook_refused cfg (NewNetworkPolicy cfg)) as [e|] eqn:Hw.
  { run_step H. subst. exists nothing. split; [constructor|]. do 3 (split; [done|]). split; [|left; by intros x ?%not_elem_of_nil].
    left. do 2 (split; [done|]). exists (InvalidWebhookURL e). split; [done|]. right. by exists e. }
  assert (triple cfg R possible (idle_with false None)
    (deferring (perform CancelContext) (match seeds cfg (NewNetworkPolicy cfg) with
       | Err err => Ret (Some err)
       | Ok seedLinks => let* repo := NewConfiguredRepository cfg in
           match repo with
           | Err err => Ret (Some (InitRepository err))
           | Ok repo => deferring (closeRepo repo) (with_repository cfg seedLinks repo)
           end
       end)) (ended cfg false)) as Ht.
  { eapply triple_deferring.
    - destruct (seeds cfg _) as [seedLinks|err] eqn:Hs; [by apply opened_triple|].
      apply triple_ret. intros h Hh. apply ended_early; [exact Hh|by eapply seeds_startup].
    - intros r'. apply triple_call. intros h m x Hend. eexists. split; [apply m_cancel|]. exact Hend. }
  destruct (Ht nothing s log s' r) as (h & Hpath & H1 & H2 & H3 & H4); [done|exact H|].
  exists h. split; [exact Hpath|]. do 3 (split; [done|]). split.
  - destruct H4 as [(H4 & H5 & err & -> & He)|H4]; [left; eauto 6|by right].
  - destruct (seeds cfg _) as [seedLinks|err]; [right; split; [done|]; by eexists|left].
    run_step H. run_step H. intros x ->%list_elem_of_singleton. eauto.
Qed.
End application.

(** A production process with every role, stopped by its parent. *)
Definition sample_app_answers (past : list (entry unit appcall)) (X : Type) (c : appcall X) : X :=
  match c in appcall X return X with
  | ParseConfig _ | NewPool _ | PingPool _ | Migrate _ | VerifySchema _ | CreateSeeds _ | ConnectQueue | CloseQueue | Listen _ => None
  | ClosePool | CountMonitors | NewMemoryQueue | Start _ | CancelContext | WaitAll => tt
  | AwaitStop => ParentDone
  end.
Definition no_files : Files := {| ReadFile _ := Err (ErrInfra 2); Unmarshal_links _ := Err (ErrInfra 3) |}.
#[local] Existing Instance no_files.

(** A simulation that returns nil is a run that does. *)
Lemma simulated_nil p :
  match simulate sample_app_answers [] p tt with Some (_, _, None) => true | _ => false end = true →
  ∃ log, run (S := unit) (λ _ _, True) (λ _ _ _, True) p tt log tt (@None AppErr).
Proof.
  destruct (simulate _ _ p tt) as [[[log []] [err|]]|] eqn:H; try done. intros _. exists log.
  eapply simulate_run; [done| |exact H]. done.
Qed.

Lemma sample_app_loads : ∃ cfg, LoadConfig = Ok cfg
  ∧ bool_decide (components cfg = [CHTTP; CScheduler; CWorkers; CRetention]) = true.
Proof.
  assert (match LoadConfig with
          | Ok cfg => bool_decide (components cfg = [CHTTP; CScheduler; CWorkers; CRetention])
          | Err _ => false end = true) as H by (vm_compute; reflexivity).
  destruct LoadConfig as [cfg|e]; [|discriminate]. by exists cfg.
Qed.

Lemma application_lifecycle_witness :
  ∃ cfg log h, LoadConfig = Ok cfg ∧ components cfg = [CHTTP; CScheduler; CWorkers; CRetention]
  ∧ run (λ _ _, True) (λ _ _ _, True) runApplication tt log tt None
  ∧ path (app_moves cfg) nothing log h ∧ up h = [] ∧ pool h = false.
Proof.
  destruct sample_app_loads as (cfg & Hload & Hc%bool_decide_eq_true).
  destruct (simulated_nil runApplication) as [log Hrun]; [vm_compute; reflexivity|].
  pose proof (application_lifecycle (λ _ _, True) (λ _ _ _, True) tt log tt None Hrun) as H.
  rewrite Hload in H. destruct H as (h & Hpath & Hpool & _ & Hup & _).
  exists cfg, log, h. exact (conj Hload (conj Hc (conj Hrun (conj Hpath (conj Hup Hpool))))).
Defined.
