(* ===== verification/Supervision.v ===== *)
(** * The running application (app.go, runtime.go)

    Between its start and its return [runApplication] waits while its components
    run.  One goroutine per component runs it to its end and reports a failure
    with [reportFatal]; the main goroutine waits for the parent's context or the
    first failure, cancels, and joins them.  The steps of all of them interleave.
    A component ends the way the programs of [Loops], [Workers] and [Server] can
    end, given whether the context is cancelled. *)

From stdpp Require Import base list strings.
From Stdlib Require Import ZArith Lia.
From S2P Require Import Prelude GoNum Domain StoreInv Sample Alert Config ConfigSpec Metrics Runtime Shared Loops Server Workers App AppSpec.
#[local] Open Scope string_scope.
#[local] Open Scope list_scope.
#[local] Open Scope Z_scope.

(** ** How a component ends *)

(** The context was found cancelled by a loop, or by the server. *)
Definition loop_cancelled (log : list (entry Metrics lcall)) : Prop :=
  ∃ m, Called m AwaitTick false ∈ log ∨ ∃ err, Called m CtxErr (Some err) ∈ log.
Definition server_cancelled (log : list (entry unit hcall)) : Prop :=
  ∃ s, Called s SelectServe ContextEnded ∈ log.

Definition runWorkerComponent (cancelled : bool) (r : option WorkersErr) : option FatalError :=
  match r with
  | None => None
  | Some err => if cancelled then None else Some (WorkersStopped err)
  end.

Section supervision.
Context `{HT : !HTTPTime} (cfg : Config).

Definition loop_ends (loop : nat → prog Metrics lcall unit) (cancelled : bool) : Prop :=
  ∃ fuel s log s', run anyone (possible cfg) (loop fuel) s log s' tt ∧ (loop_cancelled log → cancelled = true).

(** [ends cancelled c err]: component [c] may return [err], the context being
    cancelled or not. *)
Definition ends (cancelled : bool) (c : Component) (err : option FatalError) : Prop :=
  match c with
  | CHTTP => ∃ log r, run (λ _ _, True) http_possible http_goroutine tt log tt r
      ∧ (server_cancelled log → cancelled = true) ∧ err = HTTPStopped <$> r
  | CWorkers => ∃ p r, reachable (Z.to_nat (cfg_WorkerCount cfg)) (cfg_CheckLeaseTimeout cfg) p ∧ main p = Returned r
      ∧ (ctx_done p = true → cancelled = true) ∧ err = runWorkerComponent cancelled r
  | CScheduler => loop_ends (RunQueueScheduler cfg) cancelled ∧ err = None
  | CDispatcher => loop_ends (RunAlertDispatcher cfg) cancelled ∧ err = None
  | CRetention => loop_ends (RunRetention cfg) cancelled ∧ err = None
  end.

(** No component ends by itself without an error. *)
Lemma ends_none c : ¬ ends false c None.
Proof.
  destruct c; cbn.
  - intros (log & r & Hrun & Hc & Hr). destruct r as [e|]; [done|].
    assert (server_cancelled log) as Hs; [|by specialize (Hc Hs)].
    destruct Hrun as (s1 & event & rest & _ & Hp & -> & H). destruct event as [sr|]; [|exists s1; left].
    destruct H as (_ & _ & H). destruct sr as [[|e]|]; try done.
  - intros [(fuel & s & log & s' & Hrun & Hc) _]. apply scheduler_path in Hrun.
    destruct (path_last _ _ _ _ Hrun) as [?|(st & e & Hin & Hm)]; [done|].
    assert (loop_cancelled log) as Hs; [|by specialize (Hc Hs)].
    inversion Hm as [m err Heq|m claimed|m X c x|m st' ticked Hst Hx Hy]; subst; [by destruct err|].
    exists m. left. by destruct ticked.
  - intros (p & r & Hp & Hr & Hc & Herr). destruct r as [e|]; [done|].
    apply reachable_ok in Hp. destruct (ok_result _ _ p Hp None) as [Hex _]; [unfold result; by rewrite Hr|].
    by apply Hc in Hex.
  - intros [(fuel & s & log & s' & Hrun & Hc) _]. apply dispatcher_path in Hrun.
    destruct (path_last _ _ _ _ Hrun) as [?|(st & e & Hin & Hm)]; [done|].
    assert (loop_cancelled log) as Hs; [|by specialize (Hc Hs)].
    inversion Hm as [m claimed Heq|n e' Hb|m n err|m n err Hx Hy|m ticked]; subst.
    + by destruct claimed.
    + exists m. right. destruct err as [e|]; [by exists e|by destruct (_ =? _)].
    + exists m. left. by destruct ticked.
  - intros [(fuel & s & log & s' & Hrun & Hc) _]. apply retention_path in Hrun.
    destruct (path_last _ _ _ _ Hrun) as [?|(st & e & Hin & Hm)]; [done|].
    assert (loop_cancelled log) as Hs; [|by specialize (Hc Hs)].
    inversion Hm as [m now|m now deleted Heq|m err|m ticked]; subst.
    + by destruct deleted.
    + exists m. right. destruct err as [e|]; [by exists e|done].
    + exists m. left. by destruct ticked.
Qed.

Lemma loop_ends_at_once loop :
  (∃ fuel s log s', run anyone (possible cfg) (loop fuel) s log s' tt) → loop_ends loop true.
Proof. intros (fuel & s & log & s' & H). by exists fuel, s, log, s'. Qed.

(** Once told, each of them can end. *)
Lemma ends_told c : ends true c None.
Proof.
  destruct c; cbn.
  - exists [Called tt SelectServe ContextEnded; Called tt Shutdown None; Called tt AwaitServe (Some ErrServerClosed)], None.
    split; [|done]. eexists tt, ContextEnded, _. do 3 (split; [done|]). eexists tt, None, _. do 3 (split; [done|]).
    by exists tt, (Some ErrServerClosed), [].
  - split; [|done]. apply loop_ends_at_once. exists 1%nat, sample_metrics. eexists _, sample_metrics.
    eexists sample_metrics, (Some ErrDeadlineExceeded), _. do 3 (split; [done|]). by exists sample_metrics, false, [].
  - exists (start (Z.to_nat (cfg_WorkerCount cfg)) true (Some ErrDeadlineExceeded)), (Some (ConsumeFailed ErrDeadlineExceeded)).
    split; [exists true, (Some ErrDeadlineExceeded), []; constructor|]. done.
  - split; [|done]. apply loop_ends_at_once. exists 1%nat, sample_metrics. eexists _, sample_metrics.
    eexists sample_metrics, (Err ErrDeadlineExceeded), _. do 3 (split; [done|]).
    by exists sample_metrics, (Some ErrDeadlineExceeded), [].
  - split; [|done]. apply loop_ends_at_once. exists 1%nat, sample_metrics. eexists _, sample_metrics.
    eexists sample_metrics, time_zero, _. do 3 (split; [done|]). eexists sample_metrics, (Err ErrDeadlineExceeded), _. do 3 (split; [done|]).
    by exists sample_metrics, (Some ErrDeadlineExceeded), [].
Qed.

(** ** Steps *)

(** A component's goroutine: its function runs; [reportFatal] was called; it saw
    [ctx.Err() == nil]; it has sent and will cancel; it is done. *)
Inductive GoState := GRunning | GReporting (e : FatalError) | GSending (e : FatalError) | GCancelling | GDone.
(** The main goroutine: the [select], [cancel()], [wg.Wait()], its return. *)
Inductive MainPhase :=
| MWaiting | MCancelling (r : option FatalError) | MWaitGroup (r : option FatalError) | MReturned (r : option FatalError).

(** [fatalErrors] has room for one error; [sent] is the history of the errors
    whose goroutine found the context alive. *)
Record Sup := mkSup {
  parent_done : bool; cancelled_ : bool; fatalErrors : option FatalError;
  goroutines : list (Component * GoState); phase : MainPhase; sent : list (Component * FatalError);
}.
#[export] Instance eta_Sup : Eta Sup :=
  λ st, mkSup (parent_done st) (cancelled_ st) (fatalErrors st) (goroutines st) (phase st) (sent st).

Definition supervise : Sup := mkSup false false None (map (λ c, (c, GRunning)) (components cfg)) MWaiting [].
Definition move (i : nat) (c : Component) (g : GoState) (st : Sup) : Sup := st <| goroutines := <[i := (c, g)]> (goroutines st) |>.
Definition all_done (st : Sup) : bool := forallb (λ g, match g.2 with GDone => true | _ => false end) (goroutines st).

Inductive sup_step : label → Sup → Sup → Prop :=
| ParentEnds st : parent_done st = false → sup_step External st ((st <| parent_done := true |>) <| cancelled_ := true |>)
(* a component's goroutine *)
| ComponentReturns st i c err :
    goroutines st !! i = Some (c, GRunning) → ends (cancelled_ st) c err →
    sup_step Internal st (move i c (match err with None => GDone | Some e => GReporting e end) st)
| ReportsLate st i c e :
    goroutines st !! i = Some (c, GReporting e) → cancelled_ st = true → sup_step Internal st (move i c GDone st)
| ReportsFirst st i c e :
    goroutines st !! i = Some (c, GReporting e) → cancelled_ st = false →
    sup_step Internal st (move i c (GSending e) st <| sent := (c, e) :: sent st |>)
| Sends st i c e :
    goroutines st !! i = Some (c, GSending e) →
    sup_step Internal st (move i c GCancelling st <| fatalErrors := Some (default e (fatalErrors st)) |>)
| Cancels st i c :
    goroutines st !! i = Some (c, GCancelling) → sup_step Internal st (move i c GDone st <| cancelled_ := true |>)
(* the main goroutine *)
| SeesParent st : phase st = MWaiting → parent_done st = true → sup_step Internal st (st <| phase := MCancelling None |>)
| ReceivesFatal st e :
    phase st = MWaiting → fatalErrors st = Some e →
    sup_step Internal st ((st <| fatalErrors := None |>) <| phase := MCancelling (Some e) |>)
| CancelsAll st r :
    phase st = MCancelling r → sup_step Internal st ((st <| cancelled_ := true |>) <| phase := MWaitGroup r |>)
| Joins st r : phase st = MWaitGroup r → all_done st = true → sup_step Internal st (st <| phase := MReturned r |>).

(** [sup_steps n st st']: [n] steps of the program itself lead from [st] to [st']. *)
Inductive sup_steps : nat → Sup → Sup → Prop :=
| sup_nil st : sup_steps 0 st st
| sup_cons l n st st1 st2 : sup_step l st st1 → sup_steps n st1 st2 → sup_steps (match l with Internal => S n | _ => n end) st st2.

(** ** Invariant *)

Definition outcome (st : Sup) : option (option FatalError) :=
  match phase st with MWaiting => None | MCancelling r | MWaitGroup r | MReturned r => Some r end.

(** What the state of a goroutine says about the rest. *)
Definition goroutine_ok (st : Sup) (c : Component) (g : GoState) : Prop :=
  match g with
  | GRunning => True
  | GReporting e => ∃ b, ends b c (Some e) ∧ (b = true → cancelled_ st = true)
  | GSending e => (c, e) ∈ sent st
  | GCancelling => is_Some (fatalErrors st) ∨ phase st ≠ MWaiting
  | GDone => cancelled_ st = true
  end.

Record sup_ok (st : Sup) : Prop := {
  so_components : map fst (goroutines st) = components cfg;
  so_goroutines : ∀ c g, (c, g) ∈ goroutines st → goroutine_ok st c g;
  so_parent : parent_done st = true → cancelled_ st = true;
  so_cancelled : cancelled_ st = true → parent_done st = true ∨ is_Some (fatalErrors st) ∨ phase st ≠ MWaiting;
  so_sent : ∀ c e, (c, e) ∈ sent st → c ∈ components cfg ∧ ends false c (Some e);
  so_fatal : ∀ e, fatalErrors st = Some e → ∃ c, (c, e) ∈ sent st;
  so_outcome : ∀ r, outcome st = Some r → match r with None => parent_done st = true | Some e => ∃ c, (c, e) ∈ sent st end;
  so_waitgroup : ∀ r, phase st = MWaitGroup r ∨ phase st = MReturned r → cancelled_ st = true;
  so_returned : ∀ r, phase st = MReturned r → all_done st = true;
}.

Lemma supervise_ok : sup_ok supervise.
Proof.
  split; cbn; try done.
  - rewrite map_map. by rewrite map_id.
  - intros c g (c' & [= -> ->] & _)%list_elem_of_fmap. done.
  - by intros c e ?%not_elem_of_nil.
  - by intros r [?|?].
Qed.

(** What never goes back. *)
Record later (st st' : Sup) : Prop := {
  lt_cancelled : cancelled_ st = true → cancelled_ st' = true;
  lt_sent : ∀ x, x ∈ sent st → x ∈ sent st';
  lt_told : is_Some (fatalErrors st) ∨ phase st ≠ MWaiting → is_Some (fatalErrors st') ∨ phase st' ≠ MWaiting;
}.

Lemma goroutine_ok_later st st' c g : later st st' → goroutine_ok st c g → goroutine_ok st' c g.
Proof.
  intros [Hc Hs Ht]. destruct g as [|e|e| |]; cbn; try by auto.
  intros (b & Hb & Hi). exists b. auto.
Qed.

Lemma all_done_spec st : all_done st = true ↔ ∀ c g, (c, g) ∈ goroutines st → g = GDone.
Proof.
  unfold all_done. rewrite forallb_forall. split.
  - intros H c g Hin. specialize (H (c, g) (proj1 (list_elem_of_In _ _) Hin)). by destruct g.
  - intros H [c g] Hin%list_elem_of_In. by rewrite (H c g Hin).
Qed.

(** A step of one component's goroutine. *)
Lemma goroutine_step_ok st st' i c g g' :
  sup_ok st → goroutines st !! i = Some (c, g) → g ≠ GDone →
  goroutines st' = <[i := (c, g')]> (goroutines st) → later st st' → goroutine_ok st' c g' →
  map fst (goroutines st') = components cfg
  ∧ (∀ c g, (c, g) ∈ goroutines st' → goroutine_ok st' c g)
  ∧ ∀ r, phase st ≠ MReturned r.
Proof.
  intros Hst Hi Hg Hgs Hl Hok. split; [|split].
  - rewrite Hgs, <- (so_components st Hst). change (map fst) with (fmap (M := list) (@fst Component GoState)).
    rewrite list_fmap_insert. cbn. apply list_insert_id. by rewrite list_lookup_fmap, Hi.
  - intros c0 g0 Hin. rewrite Hgs in Hin. apply list_elem_of_lookup in Hin as [j [(_ & [= <- <-] & _)|[_ Hj%list_elem_of_lookup_2]]%list_lookup_insert_Some]; [done|].
    eapply goroutine_ok_later; [exact Hl|by apply (so_goroutines st Hst)].
  - intros r Hr. apply Hg. apply (so_returned st Hst), all_done_spec with (c := c) (g := g) in Hr; [done|].
    by eapply list_elem_of_lookup_2.
Qed.

(** A step of the main goroutine or of the parent. *)
Lemma others_step_ok st st' :
  sup_ok st → goroutines st' = goroutines st → later st st' →
  map fst (goroutines st') = components cfg ∧ ∀ c g, (c, g) ∈ goroutines st' → goroutine_ok st' c g.
Proof.
  intros Hst -> Hl. split; [apply (so_components st Hst)|]. intros c g Hin.
  eapply goroutine_ok_later; [exact Hl|by apply (so_goroutines st Hst)].
Qed.

#[local] Ltac goroutine_step Hst Hi g :=
  match goal with |- sup_ok ?st' =>
    let H1 := fresh "H1" in let H2 := fresh "H2" in let H3 := fresh "H3" in
    destruct (goroutine_step_ok _ st' _ _ _ g Hst Hi) as (H1 & H2 & H3);
    [done|reflexivity|split; cbn; auto|cbn|destruct Hst; split; cbn; eauto; try by (intros r Hr; destruct (H3 r))]
  end.
#[local] Ltac other_step Hst :=
  match goal with |- sup_ok ?st' =>
    let H1 := fresh "H1" in let H2 := fresh "H2" in
    destruct (others_step_ok _ st' Hst) as [H1 H2]; [reflexivity|split; cbn; auto|destruct Hst; split; cbn; eauto]
  end.

(** An error is sent only by a component that ended while the context was alive. *)
Lemma reports_first st i c e :
  sup_ok st → goroutines st !! i = Some (c, GReporting e) → cancelled_ st = false →
  c ∈ components cfg ∧ ends false c (Some e).
Proof.
  intros Hst Hi%list_elem_of_lookup_2 Hc. split.
  - rewrite <- (so_components st Hst). change c with (c, GReporting e).1. by apply (list_elem_of_fmap_2 fst).
  - destruct (so_goroutines st Hst _ _ Hi) as ([|] & He & Hb); [|done]. by rewrite Hb in Hc.
Qed.

Lemma sup_step_ok l st st' : sup_step l st st' → sup_ok st → sup_ok st'.
Proof.
  intros Hs Hst. destruct Hs as [st Hp|st i c err Hi He|st i c e Hi Hc|st i c e Hi Hc|st i c e Hi|st i c Hi
    |st Hm Hp|st e Hm Hf|st r Hm|st r Hm Hd].
  - other_step Hst. intros r Hr. specialize (so_outcome0 r Hr). destruct r; done.
  - goroutine_step Hst Hi (match err with None => GDone | Some e => GReporting e end).
    destruct err as [e|]; cbn; [by exists (cancelled_ st)|].
    destruct (cancelled_ st) eqn:Hc; [done|]. by apply ends_none in He.
  - goroutine_step Hst Hi GDone. done.
  - pose proof (reports_first _ _ _ _ Hst Hi Hc) as Hfirst.
    goroutine_step Hst Hi (GSending e).
    + by right.
    + left.
    + intros c0 e0 [[= -> ->]|Hin]%elem_of_cons; auto.
    + intros e0 He0. destruct (so_fatal0 e0 He0) as [c0 Hin]. exists c0. by right.
    + intros r Hr. specialize (so_outcome0 r Hr). destruct r as [e0|]; [|done].
      destruct so_outcome0 as [c0 Hin]. exists c0. by right.
  - pose proof (so_goroutines _ Hst _ _ (list_elem_of_lookup_2 _ _ _ Hi)) as Hsent. cbn in Hsent.
    goroutine_step Hst Hi GCancelling; [by left|].
    intros e0 [= <-]. destruct (fatalErrors st) as [e1|]; [auto|by exists c].
  - pose proof (so_goroutines _ Hst _ _ (list_elem_of_lookup_2 _ _ _ Hi)) as Htold. cbn in Htold.
    goroutine_step Hst Hi GDone. done.
  - other_step Hst; [by intros r [= <-]|done].
  - other_step Hst; [done|intros r [= <-]; auto|by intros r [?|?]|done].
  - other_step Hst; [intros r0 [= <-]; apply so_outcome0; unfold outcome; by rewrite Hm|done].
  - other_step Hst. intros r0 [= <-]. apply so_outcome0. unfold outcome. by rewrite Hm.
Qed.

Lemma sup_steps_ok n st st' : sup_steps n st st' → sup_ok st → sup_ok st'.
Proof. induction 1 as [|l n st st1 st2 Hs _ IH]; [done|]. intros Hst. by eapply IH, sup_step_ok. Qed.

(** ** The end *)

Definition go_weight (g : GoState) : nat :=
  match g with GRunning => 4 | GReporting _ => 3 | GSending _ => 2 | GCancelling => 1 | GDone => 0 end.
Definition phase_weight (m : MainPhase) : nat :=
  match m with MWaiting => 3 | MCancelling _ => 2 | MWaitGroup _ => 1 | MReturned _ => 0 end.
Definition remaining (st : Sup) : nat := phase_weight (phase st) + sum_list_with (λ x, go_weight x.2) (goroutines st).

Lemma move_weight st i c g g' :
  goroutines st !! i = Some (c, g) →
  (remaining (move i c g' st) + go_weight g = remaining st + go_weight g')%nat.
Proof.
  intros Hi. destruct (insert_split _ _ _ Hi) as (l1 & l2 & Hl & Hins).
  unfold remaining, move. cbn. rewrite Hins, Hl, !sum_list_with_app. cbn. lia.
Qed.

Lemma sup_step_weight l st st' :
  sup_step l st st' → (remaining st' + match l with Internal => 1 | _ => 0 end <= remaining st)%nat.
Proof.
  destruct 1 as [st Hp|st i c err Hi He|st i c e Hi Hc|st i c e Hi Hc|st i c e Hi|st i c Hi
    |st Hm Hp|st e Hm Hf|st r Hm|st r Hm Hd].
  - unfold remaining. cbn. lia.
  - pose proof (move_weight st i c _ (match err with None => GDone | Some e => GReporting e end) Hi). destruct err; cbn in *; lia.
  - pose proof (move_weight st i c _ GDone Hi). cbn in *. lia.
  - pose proof (move_weight st i c _ (GSending e) Hi). unfold remaining in *. cbn in *. lia.
  - pose proof (move_weight st i c _ GCancelling Hi). unfold remaining in *. cbn in *. lia.
  - pose proof (move_weight st i c _ GDone Hi). unfold remaining in *. cbn in *. lia.
  - unfold remaining. cbn. rewrite Hm. cbn. lia.
  - unfold remaining. cbn. rewrite Hm. cbn. lia.
  - unfold remaining. cbn. rewrite Hm. cbn. lia.
  - unfold remaining. cbn. rewrite Hm. cbn. lia.
Qed.

Lemma sup_steps_weight n st st' : sup_steps n st st' → (remaining st' + n <= remaining st)%nat.
Proof. induction 1 as [|l n st st1 st2 Hs _ IH]; [lia|]. apply sup_step_weight in Hs. destruct l; lia. Qed.

Lemma supervise_weight : remaining supervise = (4 * length (components cfg) + 3)%nat.
Proof. unfold remaining, supervise. cbn. induction (components cfg) as [|c cs IH]; cbn in *; lia. Qed.

(** Nothing happens while every component runs and the parent waits. *)
Definition quiet (st : Sup) : Prop :=
  phase st = MWaiting ∧ parent_done st = false ∧ cancelled_ st = false
  ∧ ∀ c g, (c, g) ∈ goroutines st → g = GRunning.

Lemma goroutine_moves st i c g :
  goroutines st !! i = Some (c, g) → g ≠ GDone → (g = GRunning → cancelled_ st = true) → ∃ st', sup_step Internal st st'.
Proof.
  intros Hi Hg Hrun. destruct g as [|e|e| |]; [| | | |done].
  - eexists. eapply (ComponentReturns st i c None); [exact Hi|]. rewrite Hrun by done. apply ends_told.
  - destruct (cancelled_ st) eqn:Hc; eexists; [by eapply ReportsLate|by eapply ReportsFirst].
  - eexists. by eapply Sends.
  - eexists. by eapply Cancels.
Qed.

Lemma phase_moves st :
  sup_ok st → cancelled_ st = true → all_done st = true → (∀ r, phase st ≠ MReturned r) → ∃ st', sup_step Internal st st'.
Proof.
  intros Hst Hc Hd Hr. destruct (phase st) as [|r|r|r] eqn:Hm; [| | |by destruct (Hr r)].
  - destruct (so_cancelled st Hst Hc) as [Hp|[[e Hf]|?]]; [| |congruence]; eexists; [by apply SeesParent|by eapply ReceivesFatal].
  - eexists. by eapply CancelsAll.
  - eexists. by eapply Joins.
Qed.

Definition stuck (st : Sup) (x : Component * GoState) : bool :=
  match x.2 with GDone => true | GRunning => negb (cancelled_ st) | _ => false end.

Lemma supervision_moves st :
  sup_ok st → (∀ r, phase st ≠ MReturned r) → (∃ st', sup_step Internal st st') ∨ quiet st.
Proof.
  intros Hst Hr. destruct (decide (Forall (λ x, stuck st x = true) (goroutines st))) as [Hall|Hn].
  - rewrite Forall_forall in Hall. destruct (cancelled_ st) eqn:Hc.
    + left. apply phase_moves; [done..| |done]. apply all_done_spec. intros c g Hin. specialize (Hall _ Hin).
      unfold stuck in Hall. rewrite Hc in Hall. by destruct g.
    + assert (∀ c g, (c, g) ∈ goroutines st → g = GRunning) as Hg.
      { intros c g Hin. specialize (Hall _ Hin). destruct g; try done.
        pose proof (so_goroutines st Hst _ _ Hin) as H. cbn in H. congruence. }
      assert (parent_done st = false) as Hp.
      { destruct (parent_done st) eqn:Hp; [|done]. apply (so_parent st Hst) in Hp. congruence. }
      destruct (phase st) as [|r|r|r] eqn:Hm; [|left; eexists; by eapply CancelsAll|exfalso|by destruct (Hr r)].
      * destruct (fatalErrors st) as [e|] eqn:Hf; [left; eexists; by eapply ReceivesFatal|by right].
      * pose proof (so_waitgroup st Hst r (or_introl Hm)). congruence.
  - left. apply not_Forall_Exists in Hn; [|intros x; apply _]. apply Exists_exists in Hn as ([c g] & [i Hi]%list_elem_of_lookup & Hs).
    eapply goroutine_moves; [exact Hi|intros ->; by apply Hs|].
    intros ->. unfold stuck in Hs. cbn in Hs. destruct (cancelled_ st); [done|by destruct Hs].
Qed.

(** C19: While the application runs no component is missing: unless the context
    is cancelled none has ended, or its failure is about to be reported.  The
    application returns nil only after its parent's request, and an error only if
    one of its components ended with it although nobody had asked it to; by then
    all components have ended.  Nobody blocks anybody: a run of [n] components
    takes at most [4 n + 3] steps, and until it returns another is possible,
    unless every component runs and nothing was asked. *)
Theorem application_supervised n st :
  sup_steps n supervise st →
  (cancelled_ st = false → ∀ c, c ∈ components cfg → ∃ g, (c, g) ∈ goroutines st ∧ g ≠ GDone)
  ∧ (∀ r, phase st = MReturned r →
       (∀ c, c ∈ components cfg → ∃ g, (c, g) ∈ goroutines st) ∧ (∀ c g, (c, g) ∈ goroutines st → g = GDone)
       ∧ match r with
         | None => parent_done st = true
         | Some e => ∃ c, c ∈ components cfg ∧ ends false c (Some e)
         end)
  ∧ (n <= 4 * length (components cfg) + 3)%nat
  ∧ ((∃ r, phase st = MReturned r) ∨ (∃ st', sup_step Internal st st') ∨ quiet st).
Proof.
  intros Hsteps. pose proof (sup_steps_ok _ _ _ Hsteps supervise_ok) as Hst.
  assert (∀ c, c ∈ components cfg → ∃ g, (c, g) ∈ goroutines st) as Hall.
  { intros c Hc. rewrite <- (so_components st Hst) in Hc. by apply list_elem_of_fmap in Hc as ([c' g] & -> & ?); exists g. }
  split; [|split; [|split]].
  - intros Hc c Hin. destruct (Hall c Hin) as [g Hg]. exists g. split; [done|]. intros ->.
    pose proof (so_goroutines st Hst _ _ Hg) as H. cbn in H. congruence.
  - intros r Hr. split; [done|]. split; [apply all_done_spec; by eapply (so_returned st Hst)|].
    assert (outcome st = Some r) as Ho%(so_outcome st Hst) by (unfold outcome; by rewrite Hr).
    destruct r as [e|]; [|done]. destruct Ho as [c Hin]. exists c. by apply (so_sent st Hst).
  - apply sup_steps_weight in Hsteps. rewrite supervise_weight in Hsteps. lia.
  - destruct (phase st) as [|r|r|r] eqn:Hm; [..|left; by exists r]; right; apply supervision_moves; by rewrite ?Hm.
Qed.
End supervision.

(** ** A run

    The server of the sample process fails; the other components are told. *)
Definition sample_failure : FatalError := HTTPStopped (ServeHTTP ErrDeadlineExceeded).
Definition sample_end : Sup :=
  mkSup false true None [(CHTTP, GDone); (CScheduler, GDone); (CWorkers, GDone); (CRetention, GDone)]
    (MReturned (Some sample_failure)) [(CHTTP, sample_failure)].

Definition shows_end (e : entry unit hcall) : bool :=
  match e with
  | Called _ c x =>
      match c in hcall X return X → bool with
      | SelectServe => λ event, match event with ContextEnded => true | _ => false end
      | _ => λ _, false
      end x
  | Changed _ _ => false
  end.

Lemma sample_server_fails `{HT : !HTTPTime} cfg : ends cfg false CHTTP (Some sample_failure).
Proof.
  exists [Called tt SelectServe (ServeReturned (Some (ServeFailed ErrDeadlineExceeded)))], (Some (ServeHTTP ErrDeadlineExceeded)).
  split; [exists tt, (ServeReturned (Some (ServeFailed ErrDeadlineExceeded))), []; done|]. split; [|done]. intros (s & H%list_elem_of_singleton).
  by apply (f_equal shows_end) in H.
Qed.

Lemma sample_supervision `{HT : !HTTPTime} cfg :
  components cfg = [CHTTP; CScheduler; CWorkers; CRetention] → sup_steps cfg 10 (supervise cfg) sample_end.
Proof.
  intros Hc. unfold supervise. rewrite Hc.
  eapply (sup_cons _ Internal); [apply (ComponentReturns _ _ 0 CHTTP (Some sample_failure)); [done|apply sample_server_fails]|].
  eapply (sup_cons _ Internal); [by apply (ReportsFirst _ _ 0 CHTTP sample_failure)|].
  eapply (sup_cons _ Internal); [by apply (Sends _ _ 0 CHTTP sample_failure)|].
  eapply (sup_cons _ Internal); [by apply (ReceivesFatal _ _ sample_failure)|].
  eapply (sup_cons _ Internal); [by apply (Cancels _ _ 0 CHTTP)|].
  eapply (sup_cons _ Internal); [by apply (ComponentReturns _ _ 1 CScheduler None); [|apply ends_told]|].
  eapply (sup_cons _ Internal); [by apply (ComponentReturns _ _ 2 CWorkers None); [|apply ends_told]|].
  eapply (sup_cons _ Internal); [by apply (ComponentReturns _ _ 3 CRetention None); [|apply ends_told]|].
  eapply (sup_cons _ Internal); [by apply (CancelsAll _ _ (Some sample_failure))|].
  eapply (sup_cons _ Internal); [by apply (Joins _ _ (Some sample_failure))|].
  apply sup_nil.
Qed.

Lemma application_supervised_witness :
  ∃ cfg, LoadConfig = Ok cfg ∧ sup_steps (HT := sample_no_time) cfg 10 (supervise cfg) sample_end
  ∧ phase sample_end = MReturned (Some sample_failure)
  ∧ ∃ c, c ∈ components cfg ∧ ends (HT := sample_no_time) cfg false c (Some sample_failure).
Proof.
  destruct sample_app_loads as (cfg & Hload & Hc%bool_decide_eq_true). exists cfg. split; [exact Hload|].
  pose proof (sample_supervision (HT := sample_no_time) cfg Hc) as Hrun. split; [exact Hrun|]. split; [reflexivity|].
  exact (proj2 (proj2 (proj1 (proj2 (application_supervised (HT := sample_no_time) cfg 10 sample_end Hrun)) _ eq_refl))).
Defined.
