(* ===== verification/Pipeline.v ===== *)
(** * The pipeline on the in-memory store and queue (repository.go)

    The programs of [Runtime] run on one [World]: the store behind
    [InMemoryMonitorRepository], the [InMemoryQueue], and sources of time and
    randomness.  The repository's methods add the clock readings the store's
    methods take. *)

From stdpp Require Import base list gmap strings.
From Stdlib Require Import ZArith Lia Ascii.
From S2P Require Import Prelude GoNum GoStrings NetworkPolicy Egress Domain Backoff History Store StoreInv Sample StoreJobs StoreClaim Checker Queue Runtime.
#[local] Open Scope string_scope.
#[local] Open Scope list_scope.
#[local] Open Scope Z_scope.

Record World := mkWorld {
  w_store : MonitorStore; w_queue : InMemoryQueue; w_backoff : infrastructureRequeueBackoff;
  w_tick : nat;             (* calls made so far *)
}.
#[export] Instance eta_World : Eta World := λ w,
  mkWorld (w_store w) (w_queue w) (w_backoff w) (w_tick w).

(** What each call draws from outside: two readings of the clock, random
    bytes, and the outcome of a check. *)
Class Environment := {
  clock : nat → Time; clock2 : nat → Time; entropy : nat → nat → Entropy; site : nat → Monitor → CheckResult;
}.

Section pipeline.
Context `{!Unicode, !URLParser, !MapRange, !Environment}.

(** ** The in-memory repository *)

Definition repo_ClaimDueJobs (w : World) (limit leaseTimeout maxAttempts : Z)
  : option (World * res GoError (list CheckJobRecord)) :=
  match ClaimDueJobsWithMaxAttempts (w_store w) limit (UTC (clock (w_tick w))) leaseTimeout maxAttempts
          (clock2 (w_tick w)) (entropy (w_tick w)) with
  | None => None
  | Some (s, jobs) => Some (w <| w_store := s |>, Ok jobs)
  end.

Definition repo_MarkJobPublished (w : World) (claim : PublicationClaim) : World * option GoError :=
  let '(s, err) := MarkJobPublished (w_store w) claim (UTC (clock (w_tick w))) in (w <| w_store := s |>, err).

Definition repo_ReleaseJobPublish (w : World) (claim : PublicationClaim) (lastError : string)
  : World * option GoError :=
  let '(s, err) := ReleaseJobPublish (w_store w) claim lastError (UTC (clock (w_tick w))) in
  (w <| w_store := s |>, err).

Definition repo_RecoverQueuedJobsAfterTopologyLoss (w : World) : World * res GoError Z :=
  let '(s, n) := RecoverQueuedJobsAfterTopologyLoss (w_store w) (UTC (clock (w_tick w))) in
  (w <| w_store := s |>, Ok n).

Definition repo_CreateManualJob (w : World) (id : string) : World * res GoError (CheckJobRecord * bool) :=
  let '(s, r) := CreateManualJob (w_store w) id (UTC (clock (w_tick w))) (entropy (w_tick w) 0) in
  (w <| w_store := s |>, r).

Definition repo_MarkJobProcessing (w : World) (id jobID : string) (attempt leaseTimeout : Z)
  : World * res GoError ProcessingLease :=
  let '(s, r) := MarkJobProcessing (w_store w) id jobID attempt (UTC (clock (w_tick w))) leaseTimeout
                   (entropy (w_tick w) 0) in
  (w <| w_store := s |>, r).

Definition repo_MarkJobFailed (w : World) (lease : ProcessingLease) (lastError : string) (retryDelay : Z)
  : World * option GoError :=
  let now := UTC (clock (w_tick w)) in
  let '(s, err) := MarkJobFailed (w_store w) lease lastError now (AddDur now (Z.max retryDelay 0))
                     (clock2 (w_tick w)) in
  (w <| w_store := s |>, err).

Definition repo_MarkJobDead (w : World) (lease : ProcessingLease) (lastError : string) : World * option GoError :=
  match Get (w_store w) (lease_MonitorID lease) with
  | Err err => (w, Some err)
  | Ok monitor =>
      let now := UTC (clock (w_tick w)) in
      let '(s, err) := MarkJobDead (w_store w) lease lastError now
                         (AddDur now (seconds (mon_IntervalSeconds monitor))) (clock2 (w_tick w)) in
      (w <| w_store := s |>, err)
  end.

(** The caller looks at the monitor only when there is no error. *)
Definition repo_AddCheck (w : World) (record : CheckRecord) (lease : ProcessingLease)
  : option (World * res GoError Monitor) :=
  match AddCheck (w_store w) record lease (clock (w_tick w)) (entropy (w_tick w) 0) with
  | None => None
  | Some (s, monitor, err) =>
      Some (w <| w_store := s |>,
            match err, monitor with
            | Some e, _ => Err e
            | None, Some m => Ok m
            | None, None => Err ErrMonitorNotFound
            end)
  end.

(** ** The handler of calls

    [job] is the message of the delivery being handled; the context never
    ends. *)
Definition mem_call (job : CheckJobMessage) {X} (c : call X) : World → option (World * X) :=
  match c in call X return World → option (World * X) with
  | RepoGet id => λ w, Some (w, Get (w_store w) id)
  | RepoClaimDueJobs limit lt maxAttempts => λ w, repo_ClaimDueJobs w limit lt maxAttempts
  | RepoMarkJobPublished claim => λ w, Some (repo_MarkJobPublished w claim)
  | RepoReleaseJobPublish claim e => λ w, Some (repo_ReleaseJobPublish w claim e)
  | RepoMarkJobProcessing id jobID attempt lt => λ w, Some (repo_MarkJobProcessing w id jobID attempt lt)
  | RepoMarkJobFailed lease e d => λ w, Some (repo_MarkJobFailed w lease e d)
  | RepoMarkJobDead lease e => λ w, Some (repo_MarkJobDead w lease e)
  | RepoAddCheck record lease => λ w, repo_AddCheck w record lease
  | QueuePublish message => λ w,
      let '(q, err) := Publish (w_queue w) message None (clock (w_tick w)) in Some (w <| w_queue := q |>, err)
  | DeliveryAck => λ w, let '(q, err) := Ack (w_queue w) job in Some (w <| w_queue := q |>, err)
  | DeliveryNack requeue => λ w,
      let '(q, err) := Nack (w_queue w) job requeue None in Some (w <| w_queue := q |>, err)
  | DeliveryRequeue => λ w, let '(q, err) := Requeue (w_queue w) job None in Some (w <| w_queue := q |>, err)
  | CheckSite monitor => λ w, Some (w, site (w_tick w) monitor)
  | Draw => λ w, Some (w, entropy (w_tick w) 0)
  | Now => λ w, Some (w, clock (w_tick w))
  | Sleep _ => λ w, Some (w, true)
  | NextBackoff jobID workerID => λ w,
      let '(d, b) := NextDelay (w_backoff w) jobID workerID in Some (w <| w_backoff := b |>, d)
  | ResetBackoff => λ w, Some (w <| w_backoff := Reset (w_backoff w) |>, tt)
  | Record_ _ => λ w, Some (w, tt)
  end.

Definition mem_handler (job : CheckJobMessage) (X : Type) (c : call X) (w : World) : option (World * X) :=
  match mem_call job c w with
  | Some (w, x) => Some (w <| w_tick := S (w_tick w) |>, x)
  | None => None
  end.

Definition no_message : CheckJobMessage := mkMessage "" "" 0 0.

(** A scheduler pass, and one worker taking one delivery. *)
Definition scheduler_pass (w : World) (limit leaseTimeout maxAttempts : Z) : option World :=
  match interp (mem_handler no_message) (enqueueDueMonitorJobs limit leaseTimeout maxAttempts) w [] with
  | Some (w, _, _) => Some w
  | None => None
  end.

(** The service finds the in-memory repository to be a [QueuedJobRecoveryRepository]. *)
Definition service_RecoverQueuedJobsAfterTopologyLoss (w : World) : World * res GoError Z :=
  repo_RecoverQueuedJobsAfterTopologyLoss w.

(** What a RabbitMQ queue runs before it restores a topology that was lost. *)
Definition queueTopologyLossHandler (w : World) : World * option GoError :=
  let '(w, recovered) := service_RecoverQueuedJobsAfterTopologyLoss w in
  (w <| w_tick := S (w_tick w) |>, match recovered with Ok _ => None | Err err => Some err end).

Definition delivery_of (q : InMemoryQueue) (job : CheckJobMessage) : QueueDelivery :=
  {| Job := job; Runtime.Retryable := Queue.Retryable q job; HasRequeue := true |}.

Definition worker_step (w : World) (leaseTimeout : Z) : option (World * option (option HandleErr)) :=
  match receive (w_queue w) with
  | None => Some (w, Some None)
  | Some (job, q) =>
      let d := delivery_of q job in
      match interp (mem_handler job) (handleQueueDelivery 1 1 d leaseTimeout) (w <| w_queue := q |>) [] with
      | Some (w, _, answer) => Some (w, answer)
      | None => None
      end
  end.

(** Two processes interleave: the worker takes a delivery and makes its first
    [calls] calls, the scheduler then runs a whole pass, and the worker
    finishes. *)
Fixpoint run_calls {A} (job : CheckJobMessage) (calls : nat) (p : prog A) (w : World) (log : list Event)
  : option (World * list Event * prog A) :=
  match calls, p with
  | S calls', Vis c k =>
      match mem_handler job _ c w with
      | Some (w, x) => run_calls job calls' (k x) w (log ++ [event_of c x])
      | None => None
      end
  | _, _ => Some (w, log, p)
  end.

Definition overtaken_worker (calls : nat) (w : World) (limit leaseTimeout maxAttempts : Z)
  : option (World * option (option HandleErr)) :=
  match receive (w_queue w) with
  | None => Some (w, Some None)
  | Some (job, q) =>
      match run_calls job calls (handleQueueDelivery 1 1 (delivery_of q job) leaseTimeout) (w <| w_queue := q |>) [] with
      | Some (w, log, rest) =>
          match scheduler_pass w limit leaseTimeout maxAttempts with
          | Some w =>
              match interp (mem_handler job) rest w log with
              | Some (w, _, answer) => Some (w, answer)
              | None => None
              end
          | None => None
          end
      | None => None
      end
  end.
End pipeline.
