(* ===== verification/PipelineSpec.v ===== *)
(** * What a scheduler pass and a worker achieve together

    The programs of [Runtime] run on the concrete store and queue
    ([Pipeline]): every job a pass claims ends up either queued with its
    message known to the queue, or released for the next pass; a worker that
    takes a message in time stores the result and settles it. *)

From stdpp Require Import base list gmap strings.
From Stdlib Require Import ZArith Lia Ascii.
From S2P Require Import Prelude GoNum GoStrings NetworkPolicy Egress Domain Backoff History Store StoreInv Sample StoreJobs StoreSpec StoreClaim Checker Queue Runtime Pipeline.
#[local] Open Scope string_scope.
#[local] Open Scope list_scope.
#[local] Open Scope Z_scope.

Lemma interp_bind {A B W} (h : ∀ X, call X → W → option (W * X)) (p : prog A) (f : A → prog B) w log :
  interp h (prog_bind p f) w log
  = match interp h p w log with Some (w', log', a) => interp h (f a) w' log' | None => None end.
Proof. revert w log. induction p as [a|X c k IH]; intros w log; cbn; [done|]. by destruct (h X c w) as [[w' x]|]. Qed.

(** ** Publishing *)

(** What a claim leaves in the store for the pass to publish. *)
Record ready (s : MonitorStore) (expiry : Time) (j : CheckJobRecord) : Prop := {
  rd_stored : checkJobs s !! job_ID j = Some j;
  rd_monitor : is_Some (byID s !! job_MonitorID j);
  rd_id : job_ID j ≠ "";
  rd_status : job_Status j = checkJobStatusScheduled;
  rd_token : job_PublicationToken j ≠ "";
  rd_attempt : 0 <= job_Attempt j < max_int64;
  rd_lease : job_LeaseExpiresAt j = expiry;
  rd_expiry : expiry ≠ 0;
}.

Definition published_job (j : CheckJobRecord) (now : Time) : CheckJobRecord :=
  j <| job_Status := checkJobStatusQueued |> <| job_PublishedAt := now |>
    <| job_LeaseExpiresAt := time_zero |> <| job_UpdatedAt := now |>.
Definition released_job (j : CheckJobRecord) (now : Time) : CheckJobRecord :=
  j <| job_LeaseExpiresAt := time_zero |> <| job_PublicationToken := "" |>
    <| job_LastError := "broker publish failed" |> <| job_UpdatedAt := now |>.

Lemma ready_claim s expiry j now :
  ready s expiry j → now < expiry →
  publicationJobLocked s (job_PublicationClaim j) = Ok j
  ∧ publication_lapsed j (job_PublicationClaim j) now = false.
Proof.
  intros [Hj [m Hm] _ _ Ht _ Hl Hz] Hlt. unfold publicationJobLocked. cbn. rewrite Hm, Hj, !String.eqb_refl.
  apply String.eqb_neq in Ht. rewrite Ht. cbn. split; [done|].
  unfold publication_lapsed, IsZero, After. cbn. rewrite Z.eqb_refl, Hl.
  apply Z.eqb_neq in Hz. apply Z.ltb_lt in Hlt. by rewrite Hz, Hlt.
Qed.

Lemma ready_published s expiry j now :
  ready s expiry j → now < expiry →
  MarkJobPublished s (job_PublicationClaim j) now
  = (s <| checkJobs := <[job_ID j := published_job j now]> (checkJobs s) |>, None).
Proof.
  intros Hr Hlt. destruct (ready_claim s expiry j now Hr Hlt) as [Hc Hl].
  unfold MarkJobPublished, UTC. rewrite Hc, bool_decide_true by apply Hr. cbn [negb]. by rewrite Hl.
Qed.

Lemma ready_released s expiry j now :
  ready s expiry j → now < expiry →
  ReleaseJobPublish s (job_PublicationClaim j) "broker publish failed" now
  = (s <| checkJobs := <[job_ID j := released_job j now]> (checkJobs s) |>, None).
Proof.
  intros Hr Hlt. destruct (ready_claim s expiry j now Hr Hlt) as [Hc Hl].
  unfold ReleaseJobPublish, UTC. rewrite Hc, bool_decide_true by apply Hr. cbn [negb]. by rewrite Hl.
Qed.

Definition message_of (j : CheckJobRecord) (now : Time) : CheckJobMessage :=
  mkMessage (job_ID j) (job_MonitorID j) (job_Attempt j + 1) now.

(** Whom a message addresses, and whom the message of a claimed job should. *)
Definition addressed (m : CheckJobMessage) : string * string * Z := (msg_JobID m, msg_MonitorID m, msg_Attempt m).
Definition addressee (j : CheckJobRecord) : string * string * Z := (job_ID j, job_MonitorID j, job_Attempt j + 1).

Section pipeline.
Context `{!Unicode, !URLParser, !MapRange, !Environment}.

(** The clock stays before [expiry] for the next [n] calls. *)
Definition in_time (w : World) (n : nat) (expiry : Time) : Prop :=
  ∀ k, (w_tick w <= k < w_tick w + n)%nat → clock k < expiry.

Lemma mem_now job w :
  mem_handler job _ Now w = Some (mkWorld (w_store w) (w_queue w) (w_backoff w) (S (w_tick w)), clock (w_tick w)).
Proof. by destruct w. Qed.

Lemma mem_publish job m w :
  mem_handler job _ (QueuePublish m) w
  = let '(q, err) := Publish (w_queue w) m None (clock (w_tick w)) in
    Some (mkWorld (w_store w) q (w_backoff w) (S (w_tick w)), err).
Proof. unfold mem_handler. cbn -[Publish]. by destruct (Publish _ _ _ _). Qed.

Lemma mem_published job claim w :
  mem_handler job _ (RepoMarkJobPublished claim) w
  = let '(s, err) := MarkJobPublished (w_store w) claim (clock (w_tick w)) in
    Some (mkWorld s (w_queue w) (w_backoff w) (S (w_tick w)), err).
Proof. unfold mem_handler. cbn -[MarkJobPublished]. unfold repo_MarkJobPublished, UTC. by destruct (MarkJobPublished _ _ _). Qed.

Lemma mem_released job claim e w :
  mem_handler job _ (RepoReleaseJobPublish claim e) w
  = let '(s, err) := ReleaseJobPublish (w_store w) claim e (clock (w_tick w)) in
    Some (mkWorld s (w_queue w) (w_backoff w) (S (w_tick w)), err).
Proof. unfold mem_handler. cbn -[ReleaseJobPublish]. unfold repo_ReleaseJobPublish, UTC. by destruct (ReleaseJobPublish _ _ _ _). Qed.

Lemma mem_added job record lease w :
  mem_handler job _ (RepoAddCheck record lease) w
  = match AddCheck (w_store w) record lease (clock (w_tick w)) (entropy (w_tick w) 0) with
    | None => None
    | Some (s, monitor, err) =>
        Some (mkWorld s (w_queue w) (w_backoff w) (S (w_tick w)),
              match err, monitor with
              | Some e, _ => Err e
              | None, Some m => Ok m
              | None, None => Err ErrMonitorNotFound
              end)
    end.
Proof.
  unfold mem_handler. cbn -[AddCheck]. unfold repo_AddCheck.
  by destruct (AddCheck _ _ _ _ _) as [[[s [m|]] [e|]]|].
Qed.

(** [Publish] answers without an error: it adds the message, or finds its job
    known already. *)
Definition accepted (q : InMemoryQueue) (id : string) : bool :=
  negb (closed q) && (bool_decide (id ∈ seen q) || (length (jobs q) <? bufferSize q)%nat).

(** One claimed job: its message is sent, was there already, or it is
    released. *)
Lemma publish_job_run w log expiry j :
  ready (w_store w) expiry j → in_time w 4 expiry → ∃ log' now sent,
  interp (mem_handler no_message) (publish_job j) w log
  = Some (mkWorld
      ((w_store w) <| checkJobs := <[job_ID j := if accepted (w_queue w) (job_ID j) then published_job j now
                                                else released_job j now]> (checkJobs (w_store w)) |>)
      (if accepted (w_queue w) (job_ID j) && negb (bool_decide (job_ID j ∈ seen (w_queue w)))
       then (w_queue w) <| jobs := jobs (w_queue w) ++ [message_of j sent] |>
                        <| seen := {[job_ID j]} ∪ seen (w_queue w) |> else w_queue w)
      (w_backoff w) (4 + w_tick w)%nat, log', tt).
Proof.
  intros Hr Ht. assert (clock (S (S (w_tick w))) < expiry) as Hlt by (apply Ht; lia).
  pose proof (rd_attempt _ _ _ Hr) as Hatt. pose proof (rd_id _ _ _ Hr) as Hid. destruct w as [s q b t].
  unfold publish_job. cbn -[wrap64 mem_handler]. rewrite mem_now.
  cbn -[wrap64 mem_handler accepted].
  rewrite wrap64_id by (unfold in_int64, two63, max_int64 in *; lia).
  rewrite mem_publish, Publish_spec by done. cbn [msg_Attempt msg_JobID w_queue w_tick].
  rewrite (proj2 (Z.eqb_neq _ 0)) by lia. unfold accepted. cbn in Hlt, Hr.
  destruct (closed q) eqn:Hc; cbn [negb andb];
    [|destruct (decide _) as [Hs|Hs]; [rewrite bool_decide_true by done|rewrite bool_decide_false by done; destruct (_ <? _)%nat]];
    cbn -[mem_handler]; rewrite ?mem_published, ?mem_released; cbn -[mem_handler MarkJobPublished ReleaseJobPublish];
    rewrite ?(ready_published _ expiry), ?(ready_released _ expiry) by done; by eexists _, (clock (S (S t))), (clock t).
Qed.
(** What became of a claimed job: published, with its message in the queue
    unless the queue knew the job already, or released without a trace. *)
Definition dispatched (w w' : World) (j : CheckJobRecord) : Prop :=
  ∃ now,
    (checkJobs (w_store w') !! job_ID j = Some (published_job j now)
     ∧ job_ID j ∈ seen (w_queue w')
     ∧ (job_ID j ∉ seen (w_queue w) → addressee j ∈ addressed <$> jobs (w_queue w')))
    ∨ (checkJobs (w_store w') !! job_ID j = Some (released_job j now)
       ∧ (job_ID j ∈ seen (w_queue w') ↔ job_ID j ∈ seen (w_queue w))).

Lemma ready_insert s expiry j j' k :
  ready s expiry j → job_ID j ≠ job_ID k →
  ready (s <| checkJobs := <[job_ID k := j']> (checkJobs s) |>) expiry j.
Proof. intros [] Hne. split; try done. cbn. by rewrite lookup_insert_ne. Qed.

Lemma in_time_weaken w w' m n expiry :
  in_time w n expiry → (w_tick w <= w_tick w')%nat → (w_tick w' + m <= w_tick w + n)%nat → in_time w' m expiry.
Proof. intros Ht H1' H2' k Hk. apply Ht. lia. Qed.

Record passed (js : list CheckJobRecord) (w w' : World) : Prop := {
  pd_monitors : byID (w_store w') = byID (w_store w);
  pd_others id : id ∉ job_ID <$> js → checkJobs (w_store w') !! id = checkJobs (w_store w) !! id;
  pd_seen id : id ∈ seen (w_queue w) → id ∈ seen (w_queue w');
  pd_unseen id : id ∉ job_ID <$> js → id ∈ seen (w_queue w') → id ∈ seen (w_queue w);
  pd_closed : closed (w_queue w') = closed (w_queue w);
  pd_size : bufferSize (w_queue w') = bufferSize (w_queue w);
  pd_jobs : jobs (w_queue w) `prefix_of` jobs (w_queue w');
  pd_each j : j ∈ js → dispatched w w' j;
  pd_all : closed (w_queue w) = false → (∀ j, j ∈ js → job_ID j ∉ seen (w_queue w)) →
    (length (jobs (w_queue w)) + length js <= bufferSize (w_queue w))%nat →
    (addressed <$> jobs (w_queue w')) = (addressed <$> jobs (w_queue w)) ++ (addressee <$> js)
    ∧ ∀ j, j ∈ js → ∃ now, checkJobs (w_store w') !! job_ID j = Some (published_job j now);
}.

Lemma passed_one s q b n j now sent :
  passed [j] (mkWorld s q b n)
    (mkWorld (s <| checkJobs := <[job_ID j := if accepted q (job_ID j) then published_job j now else released_job j now]>
                (checkJobs s) |>)
       (if accepted q (job_ID j) && negb (bool_decide (job_ID j ∈ seen q))
        then q <| jobs := jobs q ++ [message_of j sent] |> <| seen := {[job_ID j]} ∪ seen q |> else q) b (4 + n)%nat).
Proof.
  assert (∀ id j', id ∉ [job_ID j] → <[job_ID j := j']> (checkJobs s) !! id = checkJobs s !! id) as Hne.
  { intros id j' Hid. rewrite lookup_insert_ne; [done|]. intros <-. apply Hid. by left. }
  unfold accepted. destruct (closed q) eqn:Hc; cbn [negb andb];
    [|destruct (decide (job_ID j ∈ seen q)) as [Hs|Hs];
      [rewrite bool_decide_true by done|rewrite bool_decide_false by done; destruct (length (jobs q) <? _)%nat eqn:Hlt]];
    cbn [negb andb orb]; split; cbn -[union Nat.ltb length]; try done; try (intros; by apply Hne); try (by intros; set_solver).
  - intros j0 ->%list_elem_of_singleton. exists now. right. cbn -[union]. by rewrite lookup_insert_eq.
  - congruence.
  - intros j0 ->%list_elem_of_singleton. exists now. left. cbn -[union]. by rewrite lookup_insert_eq.
  - by eexists.
  - intros j0 ->%list_elem_of_singleton. exists now. left. cbn -[union]. rewrite lookup_insert_eq.
    split; [done|]. split; [set_solver|]. intros _. rewrite fmap_app. apply elem_of_app. right. by left.
  - intros _ _ _. rewrite fmap_app. split; [done|]. intros j0 ->%list_elem_of_singleton. exists now. by rewrite lookup_insert_eq.
  - intros j0 ->%list_elem_of_singleton. exists now. right. cbn -[union]. by rewrite lookup_insert_eq.
  - intros _ _ Hle. apply Nat.ltb_ge in Hlt. cbn in *. lia.
Qed.

Lemma passed_cons j js w w1 w' :
  job_ID j ∉ job_ID <$> js → passed [j] w w1 → passed js w1 w' → passed (j :: js) w w'.
Proof.
  intros Hj P1 P2. assert (∀ k, k ∈ js → job_ID k ∉ job_ID <$> [j]) as Hother.
  { intros k Hk Heq%list_elem_of_singleton. apply Hj. rewrite <- Heq. by apply list_elem_of_fmap_2. }
  assert (∀ k, k ∈ js → job_ID k ∈ seen (w_queue w1) ↔ job_ID k ∈ seen (w_queue w)) as Hseen.
  { intros k Hk. split; [apply (pd_unseen _ _ _ P1), Hother, Hk|apply (pd_seen _ _ _ P1)]. }
  split.
  - by rewrite (pd_monitors _ _ _ P2), (pd_monitors _ _ _ P1).
  - intros id Hid. cbn in Hid. rewrite (pd_others _ _ _ P2), (pd_others _ _ _ P1) by set_solver. done.
  - intros id Hid. by apply (pd_seen _ _ _ P2), (pd_seen _ _ _ P1).
  - intros id Hid Hin. cbn in Hid. apply (pd_unseen _ _ _ P1), (pd_unseen _ _ _ P2); set_solver.
  - by rewrite (pd_closed _ _ _ P2), (pd_closed _ _ _ P1).
  - by rewrite (pd_size _ _ _ P2), (pd_size _ _ _ P1).
  - etrans; [apply P1|apply P2].
  - intros k [->|Hk]%elem_of_cons.
    + destruct (pd_each _ _ _ P1 j ltac:(by left)) as [now Hd]. exists now.
      rewrite (pd_others _ _ _ P2) by done. destruct Hd as [(H1' & H2' & H3')|[H1' H2']]; [left|right]; (split; [done|]).
      * split; [by apply (pd_seen _ _ _ P2)|]. intros Hn%H3'. destruct (pd_jobs _ _ _ P2) as [l ->].
        rewrite fmap_app. apply elem_of_app. by left.
      * rewrite <- H2'. split; [by apply (pd_unseen _ _ _ P2)|apply (pd_seen _ _ _ P2)].
    + destruct (pd_each _ _ _ P2 k Hk) as [now Hd]. exists now. by rewrite <- (Hseen k Hk).
  - intros Hc Hn Hlen. cbn [length] in Hlen.
    destruct (pd_all _ _ _ P1 Hc) as [Hq1 Hs1]; [set_solver|cbn; lia|].
    assert (length (jobs (w_queue w1)) = S (length (jobs (w_queue w)))) as Hlen1.
    { apply (f_equal length) in Hq1. rewrite length_app, !length_fmap in Hq1. cbn in Hq1. lia. }
    destruct (pd_all _ _ _ P2) as [Hq2 Hs2].
    { by rewrite (pd_closed _ _ _ P1). }
    { intros k Hk. rewrite (Hseen k Hk). apply Hn. by right. }
    { rewrite (pd_size _ _ _ P1). lia. }
    rewrite Hq2, Hq1, <- app_assoc. split; [done|]. intros k [->|Hk]%elem_of_cons; [|by apply Hs2].
    rewrite (pd_others _ _ _ P2) by done. apply Hs1. by left.
Qed.

Lemma publish_jobs_run js w log expiry :
  NoDup (job_ID <$> js) → (∀ j, j ∈ js → ready (w_store w) expiry j) → in_time w (4 * length js) expiry →
  ∃ w' log', interp (mem_handler no_message) (publish_jobs js) w log = Some (w', log', tt) ∧ passed js w w'.
Proof.
  revert w log. induction js as [|j js IH]; intros w log Hnd Hr Ht.
  { exists w, log. split; [done|]. split; try done; [set_solver|]. intros. cbn. rewrite app_nil_r. set_solver. }
  cbn in Hnd. apply NoDup_cons in Hnd as [Hj Hnd]. cbn [length] in Ht.
  destruct (publish_job_run w log expiry j) as (log1 & now & sent & Hrun); [by apply Hr; left|by eapply in_time_weaken; [exact Ht|lia..]|].
  cbn [publish_jobs]. rewrite interp_bind, Hrun. clear Hrun.
  match goal with |- context [interp _ _ ?x _] => set (w1 := x) end.
  destruct (IH w1 log1) as (w' & log' & Hrun & Hp); [done| |by eapply in_time_weaken; [exact Ht|cbn; lia..]|].
  { intros k Hk. cbn. apply ready_insert; [apply Hr; by right|]. intros Heq. apply Hj. rewrite <- Heq. by apply list_elem_of_fmap_2. }
  exists w', log'. split; [done|]. apply (passed_cons _ _ _ w1); [done| |done]. destruct w. apply passed_one.
Qed.
(** The claim a pass of world [w] makes. *)
Definition pass_claim (w : World) (limit lt maxAttempts : Z) : option (MonitorStore * list CheckJobRecord) :=
  ClaimDueJobsWithMaxAttempts (w_store w) limit (clock (w_tick w)) lt maxAttempts (clock2 (w_tick w)) (entropy (w_tick w)).

Lemma pass_claim_returns (w : World) (limit lt maxAttempts : Z) :
  claims_fit limit = true → ∃ s claimed, pass_claim w limit lt maxAttempts = Some (s, claimed).
Proof. apply ClaimDueJobs_returns. Qed.

(** Every stored job has an identifier. *)
Lemma stored_job_named s id j : store_wf s → checkJobs s !! id = Some j → job_ID j ≠ "".
Proof.
  intros Hs Hj. destruct (job_lookup _ _ _ Hs Hj) as ((_ & Hshape & _) & _). unfold job_id_shape in Hshape.
  destruct (job_Kind j); [destruct Hshape as (t & c & ->); done|]. destruct Hshape as (e & _ & ->). apply newID_nonempty.
Qed.

(** Whatever its limits, a claim hands out jobs it stored. *)
Lemma claimed_stored s limit now lt maxAttempts clk rnd s' claimed :
  store_wf s → ClaimDueJobsWithMaxAttempts s limit now lt maxAttempts clk rnd = Some (s', claimed) →
  ∀ j, j ∈ claimed → checkJobs s' !! job_ID j = Some j.
Proof.
  intros Hs Hclaim. destruct (Z.leb_spec limit 0) as [Hlim|Hlim].
  { unfold ClaimDueJobsWithMaxAttempts in Hclaim. rewrite (proj2 (Z.leb_le limit 0)) in Hclaim by lia.
    injection Hclaim as <- <-. intros j Hj. by apply elem_of_nil in Hj. }
  set (lt' := if lt <=? 0 then Minute else lt). set (max' := if maxAttempts <=? 0 then defaultMaxJobAttempts else maxAttempts).
  assert (0 < lt' ∧ 0 < max') as [Hlt Hmax].
  { unfold lt', max'. by split; case_match eqn:Hz; rewrite ?Z.leb_gt in Hz. }
  assert (ClaimDueJobsWithMaxAttempts s limit now lt' max' clk rnd = Some (s', claimed)) as Hclaim'.
  { rewrite <- Hclaim. unfold ClaimDueJobsWithMaxAttempts. fold lt' max'.
    by rewrite (proj2 (Z.leb_gt lt' 0)), (proj2 (Z.leb_gt max' 0)) by lia. }
  destruct (ClaimDueJobs_claims s s' limit now lt' max' clk rnd claimed) as (_ & _ & Hall); [done..|].
  intros j [i Hi]%list_elem_of_lookup_1. by apply (Hall i j Hi).
Qed.

Lemma claimed_ready s limit now lt maxAttempts clk rnd s' claimed :
  store_wf s → 0 < limit → 0 < lt → 0 < maxAttempts <= max_int64 → 0 < now →
  ClaimDueJobsWithMaxAttempts s limit now lt maxAttempts clk rnd = Some (s', claimed) →
  NoDup (job_ID <$> claimed) ∧ ∀ j, j ∈ claimed → ready s' (now + lt) j.
Proof.
  intros Hs Hlim Hlt Hmax Hnow Hclaim.
  pose proof (ClaimDueJobs_wf s limit now lt maxAttempts clk rnd _ _ Hs Hclaim) as Hs'.
  destruct (ClaimDueJobs_claims s s' limit now lt maxAttempts clk rnd claimed) as (_ & Hnd & Hall); [done|lia..|done|].
  assert (∀ j, j ∈ claimed → ready s' (now + lt) j) as Hr.
  { intros j [i Hi]%list_elem_of_lookup_1. destruct (Hall i j Hi) as (Hj & Hst & _ & Htok & Hl & _ & Hat & _).
    destruct (job_lookup _ _ _ Hs' Hj) as ((_ & Hshape & _) & Hm & _). split; try done; [|by rewrite Htok; apply newID_nonempty|lia..].
    unfold job_id_shape in Hshape. destruct (job_Kind j); [destruct Hshape as (t & c & ->); done|].
    destruct Hshape as (e & _ & ->). apply newID_nonempty. }
  split; [|done]. apply (NoDup_fmap_2_strong _ _); [|by apply (NoDup_fmap_1 job_MonitorID)].
  intros j1 j2 H1'%Hr H2'%Hr Heq. apply rd_stored in H1', H2'. congruence.
Qed.

(** What a pass does with the jobs it claims. *)
Lemma scheduler_pass_run (p : NetworkPolicy) (w : World) (limit lt maxAttempts : Z) (s : MonitorStore) claimed :
  reachable p (w_store w) → 0 < limit → 0 < lt → 0 < maxAttempts <= max_int64 → 0 < clock (w_tick w) →
  pass_claim w limit lt maxAttempts = Some (s, claimed) →
  in_time w (1 + 4 * length claimed) (clock (w_tick w) + lt) →
  ∃ w', scheduler_pass w limit lt maxAttempts = Some w' ∧ byID (w_store w') = byID s
  ∧ (∀ j, j ∈ claimed → dispatched w w' j)
  ∧ (∀ id, id ∉ job_ID <$> claimed → checkJobs (w_store w') !! id = checkJobs s !! id)
  ∧ jobs (w_queue w) `prefix_of` jobs (w_queue w')
  ∧ (closed (w_queue w) = false → (∀ j, j ∈ claimed → job_ID j ∉ seen (w_queue w)) →
     (length (jobs (w_queue w)) + length claimed <= bufferSize (w_queue w))%nat →
     (addressed <$> jobs (w_queue w')) = (addressed <$> jobs (w_queue w)) ++ (addressee <$> claimed)
     ∧ ∀ j, j ∈ claimed → ∃ now, checkJobs (w_store w') !! job_ID j = Some (published_job j now)).
Proof.
  intros Hs%reachable_wf Hlim Hlt Hmax Hnow Hclaim Ht. unfold pass_claim in Hclaim.
  destruct (claimed_ready _ _ _ _ _ _ _ _ _ Hs Hlim Hlt Hmax Hnow Hclaim) as [Hnd Hr].
  unfold scheduler_pass, enqueueDueMonitorJobs. cbn [interp prog_bind perform]. unfold mem_handler at 1.
  cbn [mem_call]. unfold repo_ClaimDueJobs, UTC. rewrite Hclaim.
  match goal with |- context [interp _ _ ?x ?l] => destruct (publish_jobs_run claimed x l (clock (w_tick w) + lt)) as (w' & log' & Hrun & Hp) end;
    [done|by destruct w|eapply in_time_weaken; [exact Ht|destruct w; cbn; lia..]|].
  rewrite Hrun. exists w'. split; [done|]. destruct w as [s0 q b n], Hp. cbn in *. done.
Qed.

(** C4: a pass of the scheduler over the in-memory store and queue, whatever
    the state of either, accounts for every job it claims, provided the claims'
    leases outlive the pass: the job is queued with its message at the end of
    the queue (unless the queue knew the job already), or it is released for
    the next pass and the queue has no trace of it; nothing else of the store's
    jobs changes.  With an open queue, room, and no claimed job known to it, all
    of them are queued, in order, with the next attempt number. *)
Theorem scheduler_pass_dispatches (p : NetworkPolicy) (w : World) (limit lt maxAttempts : Z) (s : MonitorStore) claimed :
  reachable p (w_store w) → 0 < limit → 0 < lt → 0 < maxAttempts <= max_int64 → 0 < clock (w_tick w) →
  pass_claim w limit lt maxAttempts = Some (s, claimed) →
  in_time w (1 + 4 * length claimed) (clock (w_tick w) + lt) →
  ∃ w', scheduler_pass w limit lt maxAttempts = Some w' ∧ byID (w_store w') = byID s
  ∧ (∀ j, j ∈ claimed → dispatched w w' j)
  ∧ (∀ id, id ∉ job_ID <$> claimed → checkJobs (w_store w') !! id = checkJobs s !! id)
  ∧ jobs (w_queue w) `prefix_of` jobs (w_queue w')
  ∧ (closed (w_queue w) = false → (∀ j, j ∈ claimed → job_ID j ∉ seen (w_queue w)) →
     (length (jobs (w_queue w)) + length claimed <= bufferSize (w_queue w))%nat →
     (addressed <$> jobs (w_queue w')) = (addressed <$> jobs (w_queue w)) ++ (addressee <$> claimed)
     ∧ ∀ j, j ∈ claimed → ∃ now, checkJobs (w_store w') !! job_ID j = Some (published_job j now)).
Proof. apply scheduler_pass_run. Qed.

(** ** The broker lost its queue *)

Lemma topology_lost_claimable (w : World) maxAttempts id j :
  checkJobs (w_store w) !! id = Some j →
  job_Status j = checkJobStatusScheduled ∨ job_Status j = checkJobStatusQueued → job_Attempt j < maxAttempts →
  clock (w_tick w) <= clock (S (w_tick w)) →
  ∃ j', checkJobs (w_store (queueTopologyLossHandler w).1) !! id = Some j' ∧ job_MonitorID j' = job_MonitorID j
    ∧ job_Attempt j' = job_Attempt j
    ∧ claimable maxAttempts (clock (S (w_tick w))) j' = true.
Proof.
  intros Hj Hst Hat Hclk. destruct w as [s q b n]. cbn in *. exists (topology_recovered (UTC (clock n)) j). split; [|do 2 (split; [done|])].
  - rewrite lookup_fmap, Hj. cbn. f_equal. unfold lost_with_topology.
    by destruct Hst as [-> | ->].
  - unfold claimable, topology_recovered, After, IsZero, UTC. cbn.
    rewrite (proj2 (Z.leb_gt maxAttempts _)), (proj2 (Z.ltb_ge (clock (S n)) (clock n))) by lia. done.
Qed.

(** C6: when the broker loses its queues no job is lost with the messages.  The
    loss handler succeeds, and the next pass of the scheduler, if it claims fewer
    jobs than its limit and meets a queue that was declared anew and has room for
    them, publishes again every job that was scheduled or waiting for a worker,
    with its next attempt number, and records it as queued. *)
Theorem topology_loss_republished (p : NetworkPolicy) (w : World) (q : InMemoryQueue) (limit lt maxAttempts : Z) (s : MonitorStore) claimed :
  reachable p (w_store w) → 0 < limit → 0 < lt → 0 < maxAttempts <= max_int64 →
  0 < clock (w_tick w) <= clock (S (w_tick w)) →
  closed q = false → seen q = ∅ → jobs q = [] →
  let w1 := (queueTopologyLossHandler w).1 <| w_queue := q |> in
  pass_claim w1 limit lt maxAttempts = Some (s, claimed) → Z.of_nat (length claimed) < limit → (length claimed <= bufferSize q)%nat →
  in_time w1 (1 + 4 * length claimed) (clock (w_tick w1) + lt) →
  (queueTopologyLossHandler w).2 = None
  ∧ ∃ w2, scheduler_pass w1 limit lt maxAttempts = Some w2
  ∧ ∀ id j, checkJobs (w_store w) !! id = Some j →
      job_Status j = checkJobStatusScheduled ∨ job_Status j = checkJobStatusQueued → job_Attempt j < maxAttempts →
      (id, job_MonitorID j, job_Attempt j + 1) ∈ addressed <$> jobs (w_queue w2)
      ∧ job_Status <$> (checkJobs (w_store w2) !! id) = Some checkJobStatusQueued.
Proof.
  intros Hs Hlim Hlt Hmax [Hnow Hclk] Hopen Hseen Hempty w1 Hclaim Hshort Hroom Ht.
  split; [by destruct w|].
  assert (reachable p (w_store w1)) as Hs1.
  { subst w1. destruct w as [st q0 b n]. by apply (reachable_step p st (OpRecoverQueuedJobs (UTC (clock n)))). }
  assert (w_tick w1 = S (w_tick w)) as Htick by (subst w1; by destruct w).
  destruct (scheduler_pass_run p w1 limit lt maxAttempts s claimed) as (w2 & Hrun & _ & _ & _ & _ & Hall);
    [done..|rewrite Htick; lia|done|done|].
  destruct Hall as [Hjobs Hpub]; [done|intros j _; cbn; rewrite Hseen; apply not_elem_of_empty|cbn; by rewrite Hempty|].
  exists w2. split; [exact Hrun|]. intros id j Hj Hst Hat.
  destruct (topology_lost_claimable w maxAttempts id j Hj Hst Hat Hclk) as (j1 & Hj1 & Hm1 & Ha1 & Hc1). rewrite <- Htick in Hc1.
  destruct (ClaimDueJobs_complete p _ _ _ _ _ _ _ _ _ Hs1 Hlim (proj1 Hmax) Hclaim Hshort) as [Hcomplete _].
  destruct (Hcomplete id j1) as (j' & Hin & <- & Hm & Ha); [by subst w1; destruct w|lia|by left|].
  destruct (Hpub j' Hin) as [now Hnew]. rewrite Hnew, Hjobs. split; [|done]. cbn. rewrite Hempty.
  apply list_elem_of_fmap. exists j'. split; [|done]. unfold addressee. by rewrite Hm, Hm1, Ha, Ha1.
Qed.

(** ** A delivery handled in time *)

Definition started_job (j : CheckJobRecord) (attempt : Z) (now : Time) (lt : Z) (rnd : Entropy) : CheckJobRecord :=
  j <| job_Status := checkJobStatusProcessing |> <| job_Attempt := attempt |>
    <| job_ProcessingStartedAt := now |> <| job_LeaseExpiresAt := AddDur now lt |>
    <| job_LeaseToken := newID "lease" rnd |> <| job_UpdatedAt := now |>.

Lemma MarkJobProcessing_starts s id jobID j attempt now lt rnd :
  is_Some (byID s !! id) → activeJobByMonitor s !! id = Some jobID → checkJobs s !! jobID = Some j →
  job_MonitorID j = id → job_Status j = checkJobStatusScheduled ∨ job_Status j = checkJobStatusQueued →
  0 <= job_Attempt j < attempt → 0 < lt →
  MarkJobProcessing s id jobID attempt now lt rnd
  = (s <| checkJobs := <[jobID := started_job j attempt now lt rnd]> (checkJobs s) |>,
     Ok {| lease_JobID := jobID; lease_MonitorID := id; lease_Attempt := attempt; lease_LeaseToken := newID "lease" rnd |}).
Proof.
  intros [m Hm] Ha Hj Hmon Hst Hat Hlt. unfold MarkJobProcessing, activeJobLocked.
  rewrite Hm, Ha, String.eqb_refl, Hj, Hmon, String.eqb_refl. cbn [negb].
  rewrite (proj2 (processing_refused_None j attempt)) by (split; [done|lia]). cbn zeta.
  rewrite (proj2 (Z.leb_gt lt 0)) by lia. unfold UTC. replace (Z.max (job_Attempt j) (Z.max attempt 1)) with attempt by lia.
  done.
Qed.

Lemma started_job_owned j attempt now lt rnd clk :
  clk < now + lt →
  jobOwnsLease (started_job j attempt now lt rnd) {| lease_JobID := job_ID j; lease_MonitorID := job_MonitorID j;
    lease_Attempt := attempt; lease_LeaseToken := newID "lease" rnd |} clk = true.
Proof. intros Hlt. apply jobOwnsLease_spec. cbn. unfold AddDur. split_and!; try done. apply newID_nonempty. Qed.

Lemma AddCheck_accepts s record lease clk rnd m j :
  store_wf s → byID s !! rec_MonitorID record = Some m → rec_JobID record ≠ "" →
  checkJobs s !! rec_JobID record = Some j → job_MonitorID j = rec_MonitorID record →
  jobOwnsLease j lease clk = true → rec_JobID record ∉ processedJobs s → ∃ s',
  AddCheck s record lease clk rnd = Some (s', Some (checked_monitor m record (job_Kind j) clk), None)
  ∧ byID s' = <[rec_MonitorID record := checked_monitor m record (job_Kind j) clk]> (byID s)
  ∧ checks s' = <[rec_MonitorID record := retained_checks (default [] (checks s !! rec_MonitorID record) ++ [record])]> (checks s)
  ∧ activeJobByMonitor s' = delete (rec_MonitorID record) (activeJobByMonitor s)
  ∧ rec_JobID record ∈ processedJobs s'.
Proof.
  intros Hs Hm Hne Hj Hmon Ho Hproc. unfold AddCheck. rewrite Hm. apply String.eqb_neq in Hne. rewrite Hne, Hj, Hmon, String.eqb_refl.
  cbn [negb]. pose proof (proj1 (proj1 (jobOwnsLease_spec _ _ _) Ho)) as Hst. rewrite bool_decide_false by congruence.
  unfold UTC. rewrite Ho. cbn [negb]. rewrite decide_False by done.
  destruct (rememberProcessed_spec s _ Hs Hproc) as (seen & order & head & -> & _ & Hin & _).
  match goal with |- context [Some (updateIncident ?x record clk rnd, _, _)] =>
    destruct (accept_check_fields (s <| processedJobs := seen |> <| processedJobOrder := order |> <| processedJobHead := head |>)
      record m j clk rnd) as (F1 & F2 & F3 & F4 & _) end.
  eexists. split; [reflexivity|]. unfold accept_check in F1, F2, F3, F4. cbn zeta in *.
  split_and!; [exact F1|exact F2|exact F3|]. by rewrite F4.
Qed.

Definition result_record (job : CheckJobMessage) (result : CheckResult) (rnd : Entropy) : CheckRecord :=
  {| rec_ID := newID "check" rnd; rec_JobID := msg_JobID job; rec_MonitorID := cr_MonitorID result;
     rec_StatusCode := cr_StatusCode result; rec_LatencyMS := rec_LatencyMS (CheckRecordFromResult result rnd);
     rec_Error := cr_Error result; rec_Success := cr_Healthy result; rec_CheckedAt := UTC (cr_CheckedAt result) |}.
(** The job a message speaks of can still be started by it. *)
Record startable (s : MonitorStore) (message : CheckJobMessage) (m : Monitor) (j : CheckJobRecord) : Prop := {
  st_monitor : byID s !! msg_MonitorID message = Some m;
  st_active : activeJobByMonitor s !! msg_MonitorID message = Some (msg_JobID message);
  st_job : checkJobs s !! msg_JobID message = Some j;
  st_status : job_Status j = checkJobStatusScheduled ∨ job_Status j = checkJobStatusQueued;
  st_attempt : job_Attempt j < msg_Attempt message;
  st_new : msg_JobID message ∉ processedJobs s;
  st_id : msg_JobID message ≠ "";
}.

Lemma last_retained l r : last (retained_checks (l ++ [r])) = Some r.
Proof.
  unfold retained_checks, maxChecksPerMonitor. destruct (_ <? _) eqn:Hlt; [|by rewrite last_snoc].
  apply Z.ltb_lt in Hlt. rewrite length_app in *. cbn [length] in *. rewrite drop_app_le by lia. by rewrite last_snoc.
Qed.

(** C5: a worker that takes a message whose job can be started, and whose
    check ends before the lease it was given, stores the result and settles the
    message: the queue loses the message and forgets its job, the result is
    the newest of its monitor, the monitor shows it, its job is no longer
    active and counts as processed, and the failure counter of the worker's
    backoff is reset. *)
Theorem worker_completes (p : NetworkPolicy) (w : World) (lt : Z) message rest m j :
  reachable p (w_store w) → 0 < lt → jobs (w_queue w) = message :: rest → startable (w_store w) message m j →
  let result := site (3 + w_tick w) m in
  let record := result_record message result (entropy (4 + w_tick w) 0) in
  let stored := clock (5 + w_tick w) in
  cr_MonitorID result = mon_ID m → stored < clock (1 + w_tick w) + lt →
  ∃ w', worker_step w lt = Some (w', Some None)
  ∧ w_queue w' = (w_queue w) <| jobs := rest |> <| seen := seen (w_queue w) ∖ {[msg_JobID message]} |>
  ∧ byID (w_store w') = <[mon_ID m := checked_monitor m record (job_Kind j) stored]> (byID (w_store w))
  ∧ (∃ l, checks (w_store w') !! mon_ID m = Some l ∧ last l = Some record)
  ∧ activeJobByMonitor (w_store w') !! mon_ID m = None
  ∧ msg_JobID message ∈ processedJobs (w_store w')
  ∧ w_backoff w' = Reset (w_backoff w).
Proof.
  intros Hs%reachable_wf Hlt Hq [Hm Ha Hj Hst Hat Hnew Hid] result record stored Hres Hin.
  destruct (job_lookup _ _ _ Hs Hj) as ((Hjid & _ & Hjat & _) & _ & _).
  destruct (active_job _ _ _ Hs Ha) as (j0 & Hj0 & Hmon & _). assert (j0 = j) as -> by congruence.
  destruct (sw_monitor _ Hs _ _ Hm) as (Hmid & _ & _).
  destruct w as [s q b n]. cbn [w_store w_queue w_backoff w_tick] in *.
  set (lease := {| lease_JobID := msg_JobID message; lease_MonitorID := msg_MonitorID message;
                   lease_Attempt := msg_Attempt message; lease_LeaseToken := newID "lease" (entropy (S n) 0) |}).
  set (started := started_job j (msg_Attempt message) (clock (S n)) lt (entropy (S n) 0)).
  set (s1 := s <| checkJobs := <[msg_JobID message := started]> (checkJobs s) |>).
  assert (MarkJobProcessing s (msg_MonitorID message) (msg_JobID message) (msg_Attempt message) (clock (S n)) lt
    (entropy (S n) 0) = (s1, Ok lease)) as Hstart by (eapply MarkJobProcessing_starts; eauto).
  pose proof (MarkJobProcessing_wf s (msg_MonitorID message) (msg_JobID message) (msg_Attempt message) (clock (S n)) lt
    (entropy (S n) 0) Hs) as Hs1. rewrite Hstart in Hs1. cbn [fst] in Hs1.
  destruct (AddCheck_accepts s1 record lease stored (entropy (5 + n) 0) m started) as (s' & Hadd & Hb' & Hc' & Ha' & Hp');
    [done|by cbn; rewrite Hres, Hmid|done|by cbn; rewrite lookup_insert_eq|by cbn; rewrite Hres, Hmon, Hmid| |done|].
  { unfold lease. rewrite <- Hjid, <- Hmon. apply started_job_owned. done. }
  unfold worker_step, receive. cbn [w_queue]. rewrite Hq. cbn zeta.
  unfold handleQueueDelivery. cbn -[MarkJobProcessing AddCheck mem_handler].
  unfold mem_handler at 1. cbn -[MarkJobProcessing AddCheck mem_handler]. unfold Get. rewrite Hm.
  cbn -[MarkJobProcessing AddCheck mem_handler].
  unfold mem_handler at 1. cbn -[MarkJobProcessing AddCheck mem_handler]. unfold repo_MarkJobProcessing, UTC.
  cbn -[MarkJobProcessing AddCheck mem_handler]. rewrite Hstart.
  cbn -[AddCheck]. rewrite mem_added.
  change (AddCheck _ _ _ _ _) with (AddCheck s1 record lease stored (entropy (5 + n) 0)).
  rewrite Hadd. cbn.
  eexists. split; [reflexivity|]. cbn. rewrite Hb', Hc', Ha'. cbn. rewrite Hres, Hmid.
  split_and!; try done; [|by rewrite lookup_delete_eq].
  eexists. rewrite lookup_insert_eq. split; [done|]. apply last_retained.
Qed.
End pipeline.

(** ** A concrete run *)

#[export] Instance sample_environment : Environment := {|
  clock n := sample_now + Z.of_nat n * Second; clock2 n := sample_now + Z.of_nat n * Second;
  entropy n k := sample_rnd (Z.of_nat (2 * n + k));
  site n m := mkCheckResult (mon_ID m) (mon_URL m) 0 true 200 (12 * Millisecond) 5 "" (sample_now + Z.of_nat n * Second);
|}.

Definition sample_world : World := mkWorld (sample 1) (NewInMemoryQueue 4 3) {| failures := 0 |} 0.
Definition sample_passed : World := default sample_world (scheduler_pass sample_world 5 Minute 3).

Lemma scheduler_pass_witness :
  ∃ s claimed, pass_claim sample_world 5 Minute 3 = Some (s, claimed) ∧ length claimed = 1%nat ∧
  ∃ w', scheduler_pass sample_world 5 Minute 3 = Some w'
  ∧ (addressed <$> jobs (w_queue w')) = [(sample_job, sample_monitor, 1)].
Proof.
  destruct (pass_claim_returns sample_world 5 Minute 3 eq_refl) as (s & claimed & Hc). exists s, claimed. split; [exact Hc|].
  assert (addressee <$> claimed = [(sample_job, sample_monitor, 1)]) as Ha.
  { assert ((λ r : MonitorStore * list CheckJobRecord, addressee <$> r.2) <$> pass_claim sample_world 5 Minute 3 = Some [(sample_job, sample_monitor, 1)]) as Ha
      by (vm_compute; reflexivity). rewrite Hc in Ha. exact (Some_inj _ _ Ha). }
  assert (length claimed = 1%nat) as Hlen by by rewrite <- (length_fmap addressee), Ha.
  split; [exact Hlen|].
  assert (0 < clock (w_tick sample_world)) as Hnow by (vm_compute; reflexivity).
  assert (in_time sample_world (1 + 4 * length claimed) (clock (w_tick sample_world) + Minute)) as Ht.
  { rewrite Hlen. intros k Hk. cbn -[Z.mul Z.add] in *. unfold Minute, Second. lia. }
  destruct (scheduler_pass_dispatches default_policy sample_world 5 Minute 3 s claimed (sample_reachable 1 : reachable default_policy (w_store sample_world)) ltac:(lia)
    ltac:(vm_compute; reflexivity) ltac:(vm_compute; split; [reflexivity|discriminate]) Hnow Hc Ht) as (w' & Hrun & _ & _ & _ & _ & Hall).
  exists w'. split; [exact Hrun|].
  assert (∀ j, j ∈ claimed → job_ID j ∉ seen (w_queue sample_world)) as Hnew by (intros j _; apply not_elem_of_empty).
  rewrite (proj1 (Hall eq_refl Hnew ltac:(rewrite Hlen; cbn; lia))), Ha. reflexivity.
Defined.

(** The queue of the sample world is lost with the message it held. *)
Lemma topology_loss_republished_witness :
  let w := mkWorld (sample 3) (NewInMemoryQueue 4 3) {| failures := 0 |} 3 in
  (queueTopologyLossHandler w).2 = None
  ∧ ∃ w2, scheduler_pass ((queueTopologyLossHandler w).1 <| w_queue := NewInMemoryQueue 4 3 |>) 5 Minute 3 = Some w2
  ∧ (sample_job, sample_monitor, 1) ∈ addressed <$> jobs (w_queue w2).
Proof.
  intros w. destruct (checkJobs (sample 3) !! sample_job) as [j|] eqn:Hj; [|vm_compute in Hj; discriminate].
  assert (job_Status j = checkJobStatusQueued ∧ job_Attempt j = 0 ∧ job_MonitorID j = sample_monitor) as (Hst & Hat & Hm).
  { clear - Hj. vm_compute in Hj. injection Hj as <-. repeat split. }
  set (w1 := (queueTopologyLossHandler w).1 <| w_queue := NewInMemoryQueue 4 3 |>).
  destruct (pass_claim_returns w1 5 Minute 3 eq_refl) as (s & claimed & Hc).
  assert (length claimed = 1%nat) as Hlen.
  { assert ((λ r : MonitorStore * list CheckJobRecord, length r.2) <$> pass_claim w1 5 Minute 3 = Some 1%nat) as Hl by (vm_compute; reflexivity).
    rewrite Hc in Hl. exact (Some_inj _ _ Hl). }
  destruct (topology_loss_republished default_policy w (NewInMemoryQueue 4 3) 5 Minute 3 s claimed) as (Hh & w2 & Hrun & Hall);
    [exact (sample_reachable 3 : reachable default_policy (w_store w))|lia|vm_compute; reflexivity|vm_compute; split; [reflexivity|discriminate]
    |vm_compute; split; [reflexivity|discriminate]|reflexivity..|exact Hc|rewrite Hlen; lia|rewrite Hlen; cbn; lia| |].
  { rewrite Hlen. intros k Hk. cbn -[Z.mul Z.add] in *. unfold Minute, Second. lia. }
  split; [exact Hh|]. exists w2. split; [exact Hrun|].
  destruct (Hall sample_job j Hj (or_intror Hst) ltac:(lia)) as [Hin _]. rewrite Hm, Hat in Hin. exact Hin.
Defined.

(** The message of the pass, and the world in which a worker takes it. *)
Definition sample_delivered : World :=
  mkWorld (sample 3) ((NewInMemoryQueue 4 3) <| jobs := [mkMessage sample_job sample_monitor 1 sample_now] |>
                                            <| seen := {[sample_job]} |>) {| failures := 2 |} 3.

Lemma worker_completes_witness :
  ∃ w', worker_step sample_delivered Minute = Some (w', Some None) ∧ jobs (w_queue w') = []
  ∧ sample_job ∈ processedJobs (w_store w') ∧ w_backoff w' = {| failures := 0 |}.
Proof.
  destruct (byID (sample 3) !! sample_monitor) as [m|] eqn:Hm; [|vm_compute in Hm; discriminate].
  destruct (checkJobs (sample 3) !! sample_job) as [j|] eqn:Hj; [|vm_compute in Hj; discriminate].
  assert (job_Status j = checkJobStatusQueued ∧ job_Attempt j = 0) as [Hst Hat].
  { clear - Hj. vm_compute in Hj. injection Hj as <-. split; reflexivity. }
  assert (startable (w_store sample_delivered) (mkMessage sample_job sample_monitor 1 sample_now) m j) as Hs.
  { split; [exact Hm|vm_compute; reflexivity|exact Hj|right; exact Hst|rewrite Hat; reflexivity| |discriminate].
    apply (bool_decide_unpack _). vm_compute. exact I. }
  assert (cr_MonitorID (site (3 + w_tick sample_delivered) m) = mon_ID m) as Hres by reflexivity.
  assert (clock (5 + w_tick sample_delivered) < clock (1 + w_tick sample_delivered) + Minute) as Ht by (vm_compute; reflexivity).
  assert (reachable default_policy (w_store sample_delivered)) as Hr by exact (sample_reachable 3).
  destruct (worker_completes default_policy sample_delivered Minute (mkMessage sample_job sample_monitor 1 sample_now) [] m j
    Hr ltac:(vm_compute; reflexivity) eq_refl Hs Hres Ht) as (w' & Hrun & Hq & _ & _ & _ & Hp & Hb).
  exists w'. split; [exact Hrun|]. rewrite Hq, Hb. split; [reflexivity|]. split; [exact Hp|reflexivity].
Defined.
