(* ===== verification/Lost.v ===== *)
(** * An attempt the in-memory queue loses

    The application goes on after a pass has published an attempt that the
    queue dropped: passes of the scheduler, workers and requests interleave call
    by call ([goes_on]), and none of them ever moves the queued job again. *)

From stdpp Require Import base list gmap strings relations.
From Stdlib Require Import ZArith Lia Ascii.
From S2P Require Import Prelude GoNum GoStrings NetworkPolicy Egress Domain Backoff History Store StoreInv Sample StoreJobs StoreSpec StoreClaim Checker Queue Runtime Pipeline PipelineSpec.
#[local] Open Scope string_scope.
#[local] Open Scope list_scope.
#[local] Open Scope Z_scope.

(** ** The application goes on

    [running] are the programs under way, each with the message it handles. *)
Record Sys := mkSys { world : World; running : list (CheckJobMessage * prog unit) }.

(** The writes of the API's requests. *)
Definition requested (op : StoreOp) : bool :=
  match op with OpCreate _ _ _ | OpUpdate _ _ _ | OpDelete _ | OpCreateManualJob _ _ _ => true | _ => false end.

Definition alters (monitorID : string) (op : StoreOp) : Prop :=
  match op with OpUpdate id _ _ | OpDelete id => id = monitorID | _ => False end.

Definition draws_new `{!Environment} (w : World) {X} (c : call X) : Prop :=
  match c with RepoAddCheck _ _ => incidents (w_store w) !! newID "inc" (entropy (w_tick w) 0) = None | _ => True end.

(** One step of the application, in which nobody updates or deletes the monitor. *)
Inductive goes_on `{!Unicode, !URLParser, !MapRange} (monitorID : string) : relation Sys :=
| g_request w ps op s :
    requested op = true → ¬ alters monitorID op → draws_fresh (w_store w) op → apply_op (w_store w) op = Some s →
    goes_on monitorID (mkSys w ps) (mkSys (w <| w_store := s |>) ps)
| g_pass w ps limit lt maxAttempts :
    goes_on monitorID (mkSys w ps) (mkSys w ((no_message, enqueueDueMonitorJobs limit lt maxAttempts) :: ps))
| g_take w ps fuel workerID lt job q :
    receive (w_queue w) = Some (job, q) →
    goes_on monitorID (mkSys w ps) (mkSys (w <| w_queue := q |>)
      ((job, prog_bind (handleQueueDelivery fuel workerID (delivery_of q job) lt) (λ _, Ret tt)) :: ps))
| g_call (env : Environment) w w' ps1 ps2 job X (c : call X) k x :
    draws_new w c → mem_handler job X c w = Some (w', x) →
    goes_on monitorID (mkSys w (ps1 ++ (job, Vis c k) :: ps2)) (mkSys w' (ps1 ++ (job, k x) :: ps2))
| g_stop w ps1 ps2 p : (* a program ends, or its process stops *)
    goes_on monitorID (mkSys w (ps1 ++ p :: ps2)) (mkSys w (ps1 ++ ps2))
| g_time w ps n : goes_on monitorID (mkSys w ps) (mkSys (w <| w_tick := n |>) ps).

Section lost.
Context `{!Unicode, !URLParser, !MapRange}.
Context (J : string) (j : CheckJobRecord).

(** The job waits in the store for a worker. *)
Record waits (s : MonitorStore) : Prop := {
  wt_wf : store_wf s;
  wt_job : checkJobs s !! J = Some j;
  wt_status : job_Status j = checkJobStatusQueued;
}.

Lemma wt_live s : waits s → job_terminal j = false.
Proof. intros [_ _ Hst]. unfold job_terminal. by rewrite Hst. Qed.
Lemma wt_active s : waits s → activeJobByMonitor s !! job_MonitorID j = Some J.
Proof. intros Hw. destruct (job_lookup _ _ _ (wt_wf _ Hw) (wt_job _ Hw)) as (_ & _ & Ha). by apply Ha, (wt_live s). Qed.

(** The operations that may move it. *)
Definition moves (op : StoreOp) : Prop :=
  match op with
  | OpUpdate _ _ _ | OpDelete _ => alters (job_MonitorID j) op
  | OpRecoverQueuedJobs _ => True
  | OpMarkJobProcessing _ jobID _ _ _ _ => jobID = J
  | _ => False
  end.

Lemma finishActive_waits s id st e now :
  store_wf s → checkJobs s !! J = Some j → job_Status j = checkJobStatusQueued → id ≠ job_MonitorID j →
  checkJobs (finishActiveJobLocked s id st e now) !! J = Some j.
Proof.
  intros Hs Hj Hst Hid. unfold finishActiveJobLocked. destruct (activeJobByMonitor s !! id) as [i|] eqn:Ha; [|done].
  destruct (active_job _ _ _ Hs Ha) as (k & Hk & Hm & _). rewrite Hk.
  assert (i ≠ J) by congruence. destruct (terminal_status st); cbn zeta; [|cbn; by rewrite lookup_insert_ne].
  apply rememberTerminal_live; [cbn; by rewrite lookup_insert_ne|unfold job_terminal; by rewrite Hst].
Qed.

Lemma Update_waits s id patch clk : waits s → id ≠ job_MonitorID j → checkJobs (Update s id patch clk).1 !! J = Some j.
Proof.
  intros [Hs Hj Hst] Hid. unfold Update. destruct (byID s !! id) as [m|]; [|done].
  destruct (validateMonitorInput _ _); [done|]. set (upd := apply_patch m patch).
  destruct (match byURL s !! _ with Some _ => _ | None => _ end); [done|].
  set (u := if String.eqb (mon_URL upd) (mon_URL m) then byURL s
            else <[mon_URL upd := id]> (delete (mon_URL m) (byURL s))).
  replace (if String.eqb (mon_URL upd) (mon_URL m) then s
           else s <| byURL := <[mon_URL upd := id]> (delete (mon_URL m) (byURL s)) |>)
    with (s <| byURL := u |>) by (unfold u; destruct (String.eqb _ _); [by destruct s|done]).
  cbn zeta. change (mon_Enabled (upd <| mon_UpdatedAt := UTC clk |>)) with (mon_Enabled upd).
  destruct (mon_Enabled upd) eqn:Hen; destruct (checkSemanticsChanged upd m);
    cbn -[resolveOpenIncidentLocked finishActiveJobLocked upd]; rewrite ?Hen; try done.
  - rewrite resolveOpenIncidentLocked_byURL, finishActiveJobLocked_byURL. cbn [checkJobs set_field].
    apply finishActive_waits; [by apply resolveOpenIncidentLocked_wf|by rewrite resolveOpenIncidentLocked_jobs|done..].
  - rewrite finishActiveJobLocked_byURL, resolveOpenIncidentLocked_byURL. cbn [checkJobs set_field].
    rewrite resolveOpenIncidentLocked_jobs. by apply finishActive_waits.
  - rewrite finishActiveJobLocked_byURL. cbn [checkJobs set_field]. by apply finishActive_waits.
Qed.

Lemma Delete_waits s id : waits s → id ≠ job_MonitorID j → checkJobs (Delete s id).1 !! J = Some j.
Proof.
  intros [Hs Hj Hst] Hid. unfold Delete. destruct (byID s !! id) as [m|]; [|done].
  destruct (activeJobByMonitor s !! id) as [i|] eqn:Ha; cbn -[filter]; rewrite ?Ha; cbn -[filter];
    (apply map_lookup_filter_Some; split; [|cbn; congruence]); [|done].
  apply lookup_delete_Some. split; [|done]. intros <-. destruct (active_job _ _ _ Hs Ha) as (k & Hk & Hm & _). congruence.
Qed.

Lemma put_waits (m : gmap string CheckJobRecord) i k : m !! J = Some j → i ≠ J → <[i := k]> m !! J = Some j.
Proof. intros Hj Hi. by rewrite lookup_insert_ne. Qed.

Lemma queued_unowned lease now : job_Status j = checkJobStatusQueued → jobOwnsLease j lease now = false.
Proof. intros Hst. unfold jobOwnsLease. by rewrite Hst. Qed.

Lemma AddCheck_waits s record lease clk rnd s' m err :
  waits s → AddCheck s record lease clk rnd = Some (s', m, err) → checkJobs s' !! J = Some j.
Proof.
  intros Hw. destruct (AddCheck_cases s record lease clk rnd (wt_wf _ Hw)) as [(m1 & e1 & ->)|Hacc]; [intros [= <- _ _]; apply Hw|].
  destruct Hacc as (m0 & k & seen & order & head & Hb & Hk & Hm & Ho & _ & _ & Hwf & ->). intros [= <- _ _].
  rewrite accept_check_jobs. apply rememberTerminal_live; [cbn; apply put_waits; [apply Hw|]|by apply (wt_live s)].
  intros Heq. rewrite Heq, (wt_job _ Hw) in Hk. injection Hk as <-. by rewrite queued_unowned in Ho by apply Hw.
Qed.

(** Every other operation leaves the job as it is. *)
Lemma op_waits s op s' : waits s → draws_fresh s op → ¬ moves op → apply_op s op = Some s' → waits s'.
Proof.
  intros Hw Hf Hm Hop. pose proof (apply_op_wf s op s' (wt_wf _ Hw) Hf Hop) as Hs'.
  split; [done| |apply Hw]. pose proof Hw as [Hs Hj Hst]. pose proof (wt_live s Hw) as Hn.
  destruct op; cbn [apply_op draws_fresh moves alters] in *; try (injection Hop as <-).
  - unfold Create. destruct (validateMonitorInput _ _); [done|]. cbn zeta. by destruct (byURL s !! _).
  - by apply Update_waits.
  - by apply Delete_waits.
  - apply fmap_Some in Hop as ([s1 claimed] & Hc & ->). by apply (claim_skips_queued _ _ _ _ _ _ _ _ _ _ _ Hs Hj Hst Hc).
  - unfold CreateManualJob. destruct (byID s !! id); [|done]. destruct (activeJobByMonitor s !! id) as [i|] eqn:Ha.
    + destruct (active_job _ _ _ Hs Ha) as (k & -> & _). done.
    + cbn. apply put_waits; [done|]. intros Heq. rewrite <- Heq in Hj. destruct Hf. congruence.
  - unfold MarkJobPublished. destruct (publicationJobLocked s claim) as [k|] eqn:Hp; [|done].
    apply publicationJobLocked_Ok in Hp as (Hk & _). case_bool_decide; cbn [negb]; [|done]. cbn zeta.
    destruct (publication_lapsed _ _ _); [done|]. apply put_waits; [done|]. intros Heq. rewrite Heq in Hk. congruence.
  - unfold ReleaseJobPublish. destruct (publicationJobLocked s claim) as [k|] eqn:Hp; [|done].
    apply publicationJobLocked_Ok in Hp as (Hk & _). case_bool_decide; cbn [negb]; [|done]. cbn zeta.
    destruct (publication_lapsed _ _ _); [done|]. apply put_waits; [done|]. intros Heq. rewrite Heq in Hk. congruence.
  - done.
  - unfold MarkJobProcessing. destruct (activeJobLocked _ _ _) as [k|]; [|done]. cbn zeta.
    destruct (processing_refused _ _); [done|]. by apply put_waits.
  - unfold MarkJobFailed. destruct (activeJobLocked _ _ _) as [k|] eqn:Ha; [|done].
    apply activeJobLocked_Ok in Ha as (_ & _ & Hk & _). destruct (jobOwnsLease k lease now) eqn:Ho; cbn [negb orb]; [|done].
    destruct (After _ clk); cbn [negb]; [|done]. apply put_waits; [done|]. intros Heq. rewrite Heq, Hj in Hk. injection Hk as <-.
    by rewrite queued_unowned in Ho.
  - unfold MarkJobDead. destruct (byID s !! _); [|done]. destruct (activeJobLocked _ _ _) as [k|] eqn:Ha; [|done].
    apply activeJobLocked_Ok in Ha as (_ & _ & Hk & _). destruct (jobOwnsLease k lease now) eqn:Ho; cbn [negb orb]; [|done].
    destruct (After _ clk); cbn [negb]; [|done]. cbn zeta.
    change (job_Kind (_ <| job_UpdatedAt := UTC now |>)) with (job_Kind k).
    assert (lease_JobID lease ≠ J) by (intros Heq; rewrite Heq, Hj in Hk; injection Hk as <-; by rewrite queued_unowned in Ho).
    destruct (job_Kind k); cbn [fst set_field checkJobs]; (apply rememberTerminal_live; [|done]); by apply put_waits.
  - destruct (AddCheck s record lease clk rnd) as [[[s1 m] err]|] eqn:Ha; [|done].
    cbn in Hop. injection Hop as <-. by eapply AddCheck_waits.
Qed.

(** ** The queue does not know it, and no program will touch it *)

Record lost (w : World) : Prop := {
  lo_store : waits (w_store w);
  lo_unseen : J ∉ seen (w_queue w);
  lo_jobs : J ∉ msg_JobID <$> jobs (w_queue w);
}.

Definition spares {X} (c : call X) : Prop :=
  match c with
  | RepoMarkJobProcessing _ jobID _ _ => jobID ≠ J
  | QueuePublish message => msg_JobID message ≠ J ∧ msg_JobID message ≠ ""
  | _ => True
  end.

(** What a claim answers a program that spares the job. *)
Definition spared {X} (c : call X) : X → Prop :=
  match c in call X return X → Prop with
  | RepoClaimDueJobs _ _ _ => λ r,
      match r with Ok jobs => Forall (λ k, job_ID k ≠ J ∧ job_ID k ≠ "") jobs | Err _ => True end
  | _ => λ _, True
  end.

Fixpoint sparing {A} (p : prog A) : Prop :=
  match p with Ret _ => True | Vis c k => spares c ∧ ∀ x, spared c x → sparing (k x) end.

Lemma sparing_bind {A B} (p : prog A) (f : A → prog B) : sparing p → (∀ a, sparing (f a)) → sparing (prog_bind p f).
Proof. intros Hp Hf. induction p as [a|X c k IH]; cbn in *; [done|]. destruct Hp as [Hc Hk]. auto. Qed.

Lemma perform_sparing {X} (c : call X) : spares c → sparing (perform c).
Proof. by split. Qed.

Ltac spare_step :=
  lazymatch goal with
  | |- sparing (prog_bind _ _) => apply sparing_bind; [|intros ?]
  | |- sparing (match ?x with _ => _ end) => destruct x
  | |- sparing (Ret _) => exact I
  | |- sparing (perform _) => apply perform_sparing; cbn; (exact I || assumption)
  end.

Lemma retry_loop_sparing fuel (c : call (option GoError)) delay :
  spares c → sparing (retry_loop fuel (perform c) delay).
Proof. revert delay. induction fuel as [|fuel IH]; intros delay Hc; cbn [retry_loop]; repeat spare_step; auto. Qed.

Lemma requeue_sparing d cause w : sparing (requeueInfrastructureFailure d cause w).
Proof. unfold requeueInfrastructureFailure. repeat spare_step. Qed.

Lemma handle_sparing fuel w d lt : msg_JobID (Job d) ≠ J → sparing (handleQueueDelivery fuel w d lt).
Proof.
  intros Hd. unfold handleQueueDelivery, StoreCheckResult, retryJobStateTransition, settle_inactive. cbn zeta.
  repeat first [spare_step | apply requeue_sparing | by apply retry_loop_sparing].
Qed.

Lemma publish_jobs_sparing js : Forall (λ k, job_ID k ≠ J ∧ job_ID k ≠ "") js → sparing (publish_jobs js).
Proof.
  induction 1 as [|k js [Hk Hne] _ IH]; [exact I|]. cbn [publish_jobs]. apply sparing_bind; [|done].
  unfold publish_job. cbn zeta. spare_step; [by spare_step|]. apply sparing_bind; [by split|]. intros. repeat spare_step.
Qed.

Lemma pass_sparing limit lt maxAttempts : sparing (enqueueDueMonitorJobs limit lt maxAttempts).
Proof. split; [done|]. intros [js|e] Hs; [by apply publish_jobs_sparing|done]. Qed.

Lemma claim_spared s limit now lt maxAttempts clk rnd s' claimed :
  waits s → ClaimDueJobsWithMaxAttempts s limit now lt maxAttempts clk rnd = Some (s', claimed) →
  Forall (λ k, job_ID k ≠ J ∧ job_ID k ≠ "") claimed.
Proof.
  intros Hw Hc. pose proof Hw as [Hs Hj Hst].
  destruct (claim_skips_queued _ _ _ _ _ _ _ _ _ _ _ Hs Hj Hst Hc) as [Hj' Hnot].
  apply Forall_forall. intros k Hk. pose proof (claimed_stored _ _ _ _ _ _ _ _ _ Hs Hc k Hk) as Hk'.
  split; [|eapply stored_job_named; [|exact Hk']; by eapply ClaimDueJobs_wf].
  intros Heq. rewrite Heq, Hj' in Hk'. injection Hk' as ->. by apply Hnot, list_elem_of_fmap_2.
Qed.

(** Publishing and settling other messages. *)
Lemma enqueue_lost q job c q' err :
  enqueue q job c = (q', err) → msg_JobID job ≠ J → J ∉ seen q → J ∉ msg_JobID <$> jobs q →
  J ∉ seen q' ∧ J ∉ msg_JobID <$> jobs q'.
Proof.
  unfold enqueue. destruct (closed q); [by intros [= <- <-]|]. destruct c; [by intros [= <- <-]|].
  destruct (_ <? _)%nat; intros [= <- <-]; [|done]. intros Hm Hs Hq. split; [done|]. cbn [jobs set_field].
  rewrite fmap_app. cbn [fmap list_fmap]. rewrite elem_of_app, list_elem_of_singleton. intros [?|?]; [done|congruence].
Qed.

Lemma Publish_lost q job c clk :
  msg_JobID job ≠ J → msg_JobID job ≠ "" → J ∉ seen q → J ∉ msg_JobID <$> jobs q →
  J ∉ seen (Publish q job c clk).1 ∧ J ∉ msg_JobID <$> jobs (Publish q job c clk).1.
Proof.
  intros Hm Hne Hs Hq. unfold Publish. cbn zeta.
  assert (msg_JobID (normalized job clk) = msg_JobID job) as Hid.
  { unfold normalized. apply String.eqb_neq in Hne. rewrite Hne. by destruct (_ =? _). }
  unfold reserve. destruct (closed q); [done|]. case_decide; [done|].
  destruct (enqueue _ _ _) as [q1 err] eqn:He. apply enqueue_lost in He as [Hs1 Hq1]; [|congruence|cbn; set_solver|done].
  destruct err; cbn; [|done]. set_solver.
Qed.

Lemma settle_lost q job f :
  msg_JobID job ≠ J → J ∉ seen q → J ∉ msg_JobID <$> jobs q →
  f = Ack q job ∨ f = Requeue q job None ∨ (∃ requeue, f = Nack q job requeue None) →
  J ∉ seen f.1 ∧ J ∉ msg_JobID <$> jobs f.1.
Proof.
  intros Hm Hs Hq [-> |[-> |[requeue ->]]].
  - cbn. set_solver.
  - unfold Requeue. destruct (enqueue _ _ _) as [q1 [e|]] eqn:He; apply enqueue_lost in He as [Hs1 Hq1]; try done.
    cbn. set_solver.
  - unfold Nack, dead_letter. destruct (_ && _).
    + destruct (enqueue _ _ _) as [q1 [e|]] eqn:He; apply enqueue_lost in He as [Hs1 Hq1]; try done. cbn. set_solver.
    + cbn [fst forget seen jobs set_field]. case_match; cbn; set_solver.
Qed.

Lemma lost_store w op s :
  lost w → draws_fresh (w_store w) op → ¬ moves op → apply_op (w_store w) op = Some s → lost (w <| w_store := s |>).
Proof. intros [Hw Hs Hq] Hf Hm Hop. split; [by eapply op_waits|done..]. Qed.

Lemma lost_queue w q : lost w → J ∉ seen q ∧ J ∉ msg_JobID <$> jobs q → lost (w <| w_queue := q |>).
Proof. intros [Hw _ _] [Hs Hq]. by split. Qed.

Lemma lost_tick w n : lost w → lost (w <| w_tick := n |>).
Proof. intros [Hw Hs Hq]. by split. Qed.

(** A repository call answers from the operation it makes. *)
Lemma call_lost `{!Environment} job {X} (c : call X) w w' x :
  lost w → msg_JobID job ≠ J → spares c → draws_new w c → mem_handler job X c w = Some (w', x) → lost w' ∧ spared c x.
Proof.
  intros Hw Hjob Hc Hn. unfold mem_handler. destruct (mem_call job c w) as [[w1 x1]|] eqn:Hcall; [|done].
  intros [= <- <-]. enough (lost w1 ∧ spared c x1) as [? ?] by (split; [by apply lost_tick|done]).
  pose proof Hw as [Hst Hs Hq].
  destruct c; cbn [mem_call spares draws_new spared] in *; try (injection Hcall as <- <-; done).
  - unfold repo_ClaimDueJobs in Hcall. destruct (ClaimDueJobsWithMaxAttempts _ _ _ _ _ _ _) as [[s claimed]|] eqn:Hd; [|done].
    injection Hcall as <- <-. split; [|by eapply claim_spared].
    apply (lost_store w (OpClaimDueJobs limit (UTC (clock (w_tick w))) leaseTimeout maxAttempts (clock2 (w_tick w))
      (entropy (w_tick w)))); [exact Hw|done|cbn; tauto|cbn [apply_op]; by rewrite Hd].
  - unfold repo_MarkJobPublished in Hcall. destruct (MarkJobPublished _ _ _) as [s err] eqn:Hd. injection Hcall as <- <-.
    split; [|done]. apply (lost_store w (OpMarkJobPublished claim (UTC (clock (w_tick w))))); [exact Hw|done|cbn; tauto|cbn [apply_op]; by rewrite Hd].
  - unfold repo_ReleaseJobPublish in Hcall. destruct (ReleaseJobPublish _ _ _ _) as [s err] eqn:Hd. injection Hcall as <- <-.
    split; [|done]. apply (lost_store w (OpReleaseJobPublish claim lastError (UTC (clock (w_tick w))))); [exact Hw|done|cbn; tauto|cbn [apply_op]; by rewrite Hd].
  - unfold repo_MarkJobProcessing in Hcall. destruct (MarkJobProcessing _ _ _ _ _ _ _) as [s r] eqn:Hd. injection Hcall as <- <-.
    split; [|done]. apply (lost_store w (OpMarkJobProcessing id jobID attempt (UTC (clock (w_tick w))) leaseTimeout (entropy (w_tick w) 0))); [exact Hw|done|cbn; tauto|cbn [apply_op]; by rewrite Hd].
  - unfold repo_MarkJobFailed in Hcall. cbn zeta in Hcall. destruct (MarkJobFailed _ _ _ _ _ _) as [s err] eqn:Hd. injection Hcall as <- <-.
    split; [|done]. apply (lost_store w (OpMarkJobFailed lease lastError (UTC (clock (w_tick w)))
      (AddDur (UTC (clock (w_tick w))) (Z.max retryDelay 0)) (clock2 (w_tick w)))); [exact Hw|done|cbn; tauto|cbn [apply_op]; by rewrite Hd].
  - unfold repo_MarkJobDead in Hcall. destruct (Get _ _) as [m|e]; [|by injection Hcall as <- <-]. cbn zeta in Hcall.
    destruct (MarkJobDead _ _ _ _ _ _) as [s err] eqn:Hd. injection Hcall as <- <-.
    split; [|done]. apply (lost_store w (OpMarkJobDead lease lastError (UTC (clock (w_tick w)))
      (AddDur (UTC (clock (w_tick w))) (seconds (mon_IntervalSeconds m))) (clock2 (w_tick w)))); [exact Hw|done|cbn; tauto|cbn [apply_op]; by rewrite Hd].
  - unfold repo_AddCheck in Hcall. destruct (AddCheck _ _ _ _ _) as [[[s m] err]|] eqn:Hd; [|done]. injection Hcall as <- <-.
    split; [|done]. apply (lost_store w (OpAddCheck record lease (clock (w_tick w)) (entropy (w_tick w) 0))); [exact Hw|done|cbn; tauto|cbn [apply_op]; by rewrite Hd].
  - destruct Hc as [Hm Hne]. destruct (Publish _ _ _ _) as [q err] eqn:Hp. injection Hcall as <- <-. split; [|done].
    apply lost_queue; [done|]. pose proof (Publish_lost (w_queue w) message None (clock (w_tick w)) Hm Hne Hs Hq) as Hl. by rewrite Hp in Hl.
  - injection Hcall as <- <-. split; [|done]. apply lost_queue; [done|]. by apply (settle_lost (w_queue w) job (Ack (w_queue w) job)); auto.
  - destruct (Nack _ _ _ _) as [q err] eqn:Hp. injection Hcall as <- <-. split; [|done]. apply lost_queue; [done|].
    pose proof (settle_lost (w_queue w) job _ Hjob Hs Hq (or_intror (or_intror (ex_intro _ requeue eq_refl)))) as Hl. by rewrite Hp in Hl.
  - destruct (Requeue _ _ _) as [q err] eqn:Hp. injection Hcall as <- <-. split; [|done]. apply lost_queue; [done|].
    pose proof (settle_lost (w_queue w) job _ Hjob Hs Hq (or_intror (or_introl eq_refl))) as Hl. by rewrite Hp in Hl.
  - destruct (NextDelay _ _ _) as [d b]. by injection Hcall as <- <-.
Qed.

(** ** Nothing the application goes on to do moves the job *)

Definition all_lost (y : Sys) : Prop :=
  lost (world y) ∧ Forall (λ jp, msg_JobID jp.1 ≠ J ∧ sparing jp.2) (running y).

Lemma goes_on_lost y y' : J ≠ "" → all_lost y → goes_on (job_MonitorID j) y y' → all_lost y'.
Proof.
  intros HJ [Hw Hps] Hstep. destruct Hstep as [w ps op s Hr Ha Hf Hop|w ps limit lt maxAttempts|w ps fuel wid lt job q Hrec
    |env w w' ps1 ps2 job X c k x Hn Hcall|w ps1 ps2 p|w ps n]; cbn [world running] in *.
  - split; [|done]. apply (lost_store w op); try done. by destruct op.
  - split; [done|]. constructor; [|done]. split; [done|apply pass_sparing].
  - unfold receive in Hrec. destruct (jobs (w_queue w)) as [|job' rest] eqn:Hjobs; [done|]. injection Hrec as <- <-.
    pose proof (lo_jobs _ Hw) as Hq. rewrite Hjobs in Hq. cbn in Hq. apply not_elem_of_cons in Hq as [Hne Hq].
    split; [apply lost_queue; [done|]; split; [apply Hw|done]|]. constructor; [|done]. split; [done|].
    apply sparing_bind; [by apply handle_sparing|done].
  - apply Forall_app in Hps as [Hps1 [[Hjob [Hc Hk]] Hps2]%Forall_cons]. cbn [fst snd] in *.
    destruct (call_lost job c w w' x Hw Hjob Hc Hn Hcall) as [Hw' Hx]. split; [done|].
    apply Forall_app. split; [done|]. constructor; [|done]. split; [done|]. by apply Hk.
  - split; [done|]. apply Forall_app in Hps as [? [_ ?]%Forall_cons]. by apply Forall_app.
  - split; [by apply lost_tick|done].
Qed.
Lemma go_on_lost y y' : J ≠ "" → all_lost y → rtc (goes_on (job_MonitorID j)) y y' → all_lost y'.
Proof. intros HJ Hy Hr. induction Hr as [|y1 y2 y3 Hstep _ IH]; [done|]. by apply IH, (goes_on_lost y1). Qed.

(** No result of the job's monitor is accepted. *)
Lemma waits_unrecorded s record lease clk rnd s' m :
  waits s → AddCheck s record lease clk rnd = Some (s', m, None) → rec_MonitorID record = job_MonitorID j → False.
Proof.
  intros Hw. destruct (AddCheck_cases s record lease clk rnd (wt_wf _ Hw)) as [(m1 & e1 & ->)|Hacc]; [done|].
  destruct Hacc as (m0 & k & seen & order & head & Hb & Hk & Hm & Ho & _ & _ & Hwf & _). intros _ Heq.
  destruct (job_lookup _ _ _ (wt_wf _ Hw) Hk) as (_ & _ & Ha). apply jobOwnsLease_spec in Ho as Hp. destruct Hp as (Hst & _).
  unfold job_terminal in Ha. rewrite Hst, Hm, Heq, (wt_active s Hw) in Ha. specialize (Ha eq_refl). injection Ha as Ha.
  rewrite <- Ha, (wt_job _ Hw) in Hk. injection Hk as <-. by rewrite queued_unowned in Ho by apply Hw.
Qed.
End lost.

(** ** A republished attempt is lost

    The same environment, but two minutes pass between the start of the check
    (the worker's third call) and everything later. *)
Definition slow_environment : Environment := {|
  clock n := sample_now + Z.of_nat n * Second + (if (n <? 8)%nat then 0 else 120 * Second);
  clock2 n := sample_now + Z.of_nat n * Second + (if (n <? 8)%nat then 0 else 120 * Second);
  entropy n k := sample_rnd (Z.of_nat (2 * n + k));
  site := @site sample_environment;
|}.

(** A pass publishes attempt 1; the worker starts it and stalls; its lease runs
    out and the next pass publishes attempt 2; the worker comes back. *)
Definition overtaken : option (World * option (option HandleErr)) :=
  match @scheduler_pass _ slow_environment sample_world 5 Minute 3 with
  | Some w => @overtaken_worker _ slow_environment 3 w 5 Minute 3
  | None => None
  end.


(** The same store from operations in sequence. *)
Definition overtaken_ops : list StoreOp :=
  let clk := @clock slow_environment in let rnd := @entropy slow_environment in
  let claim n attempt := {| claim_JobID := sample_job; claim_MonitorID := sample_monitor; claim_Attempt := attempt;
                            claim_Token := newID "publish" (rnd n 0%nat) |} in
  [ OpCreate sample_input sample_now (sample_rnd 1);
    OpClaimDueJobs 5 (clk 0%nat) Minute 3 (clk 0%nat) (rnd 0%nat);
    OpMarkJobPublished (claim 0%nat 0) (clk 3%nat);
    OpMarkJobProcessing sample_monitor sample_job 1 (clk 6%nat) Minute (rnd 6%nat 0%nat);
    OpClaimDueJobs 5 (clk 8%nat) Minute 3 (clk 8%nat) (rnd 8%nat);
    OpMarkJobPublished (claim 8%nat 1) (clk 11%nat) ].

Lemma overtaken_reachable s : run (NewMonitorStore default_policy) overtaken_ops = Some s → reachable default_policy s.
Proof. intros Hr. eapply run_reachable; [constructor| |exact Hr]. vm_compute. tauto. Qed.

Definition job_shown (j : CheckJobRecord) : string * CheckJobStatus * Z := (job_MonitorID j, job_Status j, job_Attempt j).

Lemma overtaken_run : ∃ w j,
  overtaken = Some (w, Some None) ∧ jobs (w_queue w) = [] ∧ seen (w_queue w) = ∅
  ∧ checkJobs (w_store w) !! sample_job = Some j ∧ job_shown j = (sample_monitor, checkJobStatusQueued, 1)
  ∧ reachable default_policy (w_store w).
Proof.
  assert ((λ wa, (jobs (w_queue wa.1), seen (w_queue wa.1), job_shown <$> checkJobs (w_store wa.1) !! sample_job, Some (w_store wa.1), wa.2)) <$> overtaken
    = Some ([], ∅, Some (sample_monitor, checkJobStatusQueued, 1), run (NewMonitorStore default_policy) overtaken_ops, Some None)) as Hrun
    by (vm_compute; reflexivity).
  apply fmap_Some in Hrun as ([w a] & -> & Heq). cbn [fst snd] in Heq.
  apply pair_eq in Heq as [Heq Ha]. apply pair_eq in Heq as [Heq Hstore]. apply pair_eq in Heq as [Heq Hshown].
  apply pair_eq in Heq as [Hq Hseen]. symmetry in Hshown. apply fmap_Some in Hshown as (j & Hj & Hshown).
  exists w, j. rewrite <- Ha, <- Hq, <- Hseen, <- Hshown. do 4 (split; [done|]). split; [done|].
  by apply overtaken_reachable.
Qed.

(** C34: the in-memory queue can lose an attempt.  When a worker stalls past its
    lease, the scheduler claims the job again and publishes its next attempt,
    which the queue drops because it still knows the job from the first
    delivery; the scheduler records it as queued all the same, and the returning
    worker's acknowledgement then forgets the job.  The queue is empty and the
    job is queued, and so it stays as long as nobody updates or deletes its
    monitor: however the application goes on, with passes of the scheduler, workers
    and requests interleaved call by call, the job's record does not change, no
    message of it is in the queue, no claim hands out a job of its monitor, and no
    result of its monitor is accepted. *)
Theorem republished_attempt_lost :
  ∃ w j, overtaken = Some (w, Some None) ∧ jobs (w_queue w) = [] ∧ seen (w_queue w) = ∅
  ∧ checkJobs (w_store w) !! sample_job = Some j ∧ job_shown j = (sample_monitor, checkJobStatusQueued, 1)
  ∧ ∀ y, rtc (goes_on sample_monitor) (mkSys w []) y →
      let s := w_store (world y) in
      checkJobs s !! sample_job = Some j ∧ sample_job ∉ msg_JobID <$> jobs (w_queue (world y))
      ∧ (∀ limit now lt maxAttempts clk rnd s' claimed,
           ClaimDueJobsWithMaxAttempts s limit now lt maxAttempts clk rnd = Some (s', claimed) →
           sample_monitor ∉ job_MonitorID <$> claimed)
      ∧ (∀ record lease clk rnd s' m, AddCheck s record lease clk rnd = Some (s', m, None) →
           rec_MonitorID record ≠ sample_monitor).
Proof.
  destruct overtaken_run as (w & j & Hrun & Hq & Hseen & Hj & Hshown & Hr).
  exists w, j. do 5 (split; [done|]). intros y Hy s. injection Hshown as Hm Hst Hat.
  assert (all_lost sample_job j y) as [Hy' _].
  { rewrite <- Hm in Hy. eapply go_on_lost; [done| |exact Hy].
    split; [|constructor]. split; cbn; [|rewrite Hseen; apply not_elem_of_empty|rewrite Hq; apply not_elem_of_nil].
    split; [|done..]. by eapply reachable_wf. }
  destruct Hy' as [Hw _ Hjobs]. split; [apply Hw|]. split; [done|]. split.
  - intros limit now lt maxAttempts clk rnd s' claimed Hc. rewrite <- Hm.
    by apply (claim_skips_queued _ _ _ _ _ _ _ _ _ _ _ (wt_wf _ _ _ Hw) (wt_job _ _ _ Hw) Hst Hc).
  - intros record lease clk rnd s' m Ha Heq. rewrite <- Hm in Heq. by eapply waits_unrecorded.
Qed.
