(* ===== verification/Api.v ===== *)
(** * The monitor service and its HTTP API (service.go, api.go)

    The handlers of [APIHandler], over a service whose repository is the
    in-memory store.  Routing is the standard library's: a request arrives as
    the handler it was routed to, with its body; the query and header values are
    raw strings.  The JSON decoder is a parameter ([JSONDecoder]).  The
    request timeout has no effect on the in-memory repository. *)

From stdpp Require Import base list gmap strings.
From Stdlib Require Import ZArith Lia Ascii.
From S2P Require Import Prelude GoNum GoStrings NetworkPolicy Egress Domain History Store StoreInv Sample StoreSpec StoreRead Checker Metrics.
#[local] Open Scope string_scope.
#[local] Open Scope list_scope.
#[local] Open Scope Z_scope.

(** ** The service *)

Record MonitorService := mkService { repo : MonitorStore; metrics : Metrics }.
#[export] Instance eta_MonitorService : Eta MonitorService := λ s, mkService (repo s) (metrics s).

Record ManualCheckJobReceipt := mkReceipt {
  rcpt_JobID : string; rcpt_MonitorID : string; rcpt_Kind : CheckJobKind; rcpt_Status : CheckJobStatus;
  rcpt_CreatedAt : Time; rcpt_Deduplicated : bool;
}.

(** The patch changes what a check means, or disables the monitor: its gauges
    are stale. *)
Definition gauges_stale (patch : MonitorPatch) : bool :=
  bool_decide (is_Some (patch_URL patch)) || bool_decide (is_Some (patch_TimeoutSeconds patch))
  || bool_decide (is_Some (patch_ExpectedStatus patch))
  || match patch_Enabled patch with Some enabled => negb enabled | None => false end.

Section service.
Context `{!Unicode, !URLParser, !MapRange}.

Definition service_Create (s : MonitorService) (input : MonitorInput) (clk : Time) (rnd : Entropy)
  : MonitorService * res GoError Monitor :=
  match Create (repo s) input clk rnd with
  | (store, Err err) => (s <| repo := store |>, Err err)
  | (store, Ok monitor) => (mkService store (AdjustTotalLinks (metrics s) 1), Ok monitor)
  end.

Definition service_Update (s : MonitorService) (id : string) (patch : MonitorPatch) (clk : Time)
  : MonitorService * res GoError Monitor :=
  match Update (repo s) id patch clk with
  | (store, Err err) => (s <| repo := store |>, Err err)
  | (store, Ok monitor) =>
      (mkService store (if gauges_stale patch then RemoveMonitor (metrics s) id else metrics s), Ok monitor)
  end.

Definition service_Delete (s : MonitorService) (id : string) : MonitorService * option GoError :=
  match Delete (repo s) id with
  | (store, Some err) => (s <| repo := store |>, Some err)
  | (store, None) => (mkService store (RemoveMonitor (AdjustTotalLinks (metrics s) (-1)) id), None)
  end.

Definition QueueManualCheck (s : MonitorService) (id : string) (now : Time) (rnd : Entropy)
  : MonitorService * res GoError ManualCheckJobReceipt :=
  match CreateManualJob (repo s) id (UTC now) rnd with
  | (store, Err err) => (s <| repo := store |>, Err err)
  | (store, Ok (job, created)) =>
      (s <| repo := store |>,
       Ok (mkReceipt (job_ID job) (job_MonitorID job) (job_Kind job) (job_Status job) (job_CreatedAt job) (negb created)))
  end.
End service.

(** ** Authentication *)

(** [strings.EqualFold(scheme, "Bearer")]: no other character folds to one of
    these letters. *)
Definition equal_fold_bearer (scheme : string) : bool := String.eqb (lower_bytes scheme) "bearer".

Definition bearerToken (raw : string) : string :=
  let raw := TrimSpace raw in
  if String.eqb raw "" then ""
  else match cut_byte " " raw with
  | Some (scheme, token) => if equal_fold_bearer scheme then TrimSpace token else ""
  | None => ""
  end.

(** [ConstantTimeCompare] of equal lengths is equality. *)
Definition validAPIKey (apiKey xAPIKey authorization : string) : bool :=
  existsb (λ candidate, negb (String.eqb candidate "") && (String.length candidate =? String.length apiKey)%nat
                        && String.eqb candidate apiKey)
    [TrimSpace xAPIKey; bearerToken authorization].

(** ** Pagination *)

Definition defaultPageLimit : Z := 50.
Definition maxPageLimit : Z := 100.

Definition parseNonNegativeInt (raw : string) (defaultValue : Z) : option Z :=
  if String.eqb (TrimSpace raw) "" then Some defaultValue
  else match Atoi raw with
  | Some value => if value <? 0 then None else Some value
  | None => None
  end.

Definition pagination (offset limit : string) : option (Z * Z) :=
  match parseNonNegativeInt offset 0 with
  | None => None
  | Some offset =>
      match parseNonNegativeInt limit defaultPageLimit with
      | None => None
      | Some limit => if (limit =? 0) || (maxPageLimit <? limit) then None else Some (offset, limit)
      end
  end.

(** ** Responses *)

Definition mapAPIError (err : GoError) : Z * string * string :=
  match err with
  | ErrMonitorNotFound => (404, "monitor_not_found", "monitor not found")
  | ErrMonitorExists => (409, "monitor_exists", "monitor already exists")
  | ErrInvalidMonitor _ => (400, "invalid_monitor", "monitor request is invalid")
  | ErrStaleJob => (409, "stale_check_job", "check job is no longer active")
  | ErrJobAlreadyProcessing => (409, "check_job_processing", "check job is already processing")
  | ErrQueueFull | ErrQueueConsumerClosed => (503, "queue_unavailable", "check queue is unavailable")
  | ErrCanceled | ErrDeadlineExceeded => (503, "service_unavailable", "service is temporarily unavailable")
  | _ => (500, "internal_error", "internal server error")
  end.

Inductive Payload :=
| PNone
| PError (code message : string)
| PMonitor (m : Monitor)
| PMonitors (items : list Monitor) (total offset limit : Z)
| PChecks (items : list CheckRecord) (total offset limit : Z)
| PIncidents (items : list Incident) (total offset limit : Z)
| PReceipt (r : ManualCheckJobReceipt)
| PStats (st : MonitorStats).
Record ApiResponse := respond { status_code : Z; payload : Payload }.

Definition writeStoreError (err : GoError) : ApiResponse :=
  let '(statusCode, code, message) := mapAPIError err in respond statusCode (PError code message).

Definition invalid_json : ApiResponse := respond 400 (PError "invalid_json" "request body must be valid JSON").
Definition invalid_pagination : ApiResponse :=
  respond 400 (PError "invalid_pagination" "pagination parameters are invalid").
Definition unauthorized : ApiResponse := respond 401 (PError "unauthorized" "valid API key is required").

(** ** Handlers *)

Inductive Request :=
| CreateMonitor (body : option string)
| ListMonitors (offset limit : string)
| GetMonitor (id : string)
| UpdateMonitor (id : string) (body : option string)
| DeleteMonitor (id : string)
| ListMonitorChecks (id offset limit : string)
| RunManualCheck (id : string)
| GetStats (id : string)
| ListMonitorIncidents (status offset limit : string).

(** [encoding/json]: a decoder that refuses unknown fields reads one value and
    leaves the rest of the text; [None] is its error. *)
Class JSONDecoder := {
  Decode_MonitorInput : string → option (MonitorInput * string);
  Decode_MonitorPatch : string → option (MonitorPatch * string);
}.

Definition maxBodyBytes : Z := 2 ^ 20.
Definition json_space (c : ascii) : bool := bool_decide (c ∈ [" "%char; "009"%char; "010"%char; "013"%char]).

(** The reader fails after [maxBodyBytes]; the second [Decode] answers [io.EOF]
    when only white space is left and the reader did not fail. *)
Definition decodeJSON {T} (decode : string → option (T * string)) (body : option string) : option T :=
  match body with
  | None => None
  | Some text =>
      match decode (String.substring 0 (Z.to_nat maxBodyBytes) text) with
      | None => None
      | Some (target, rest) =>
          if forallb json_space (String.list_ascii_of_string rest) && (Z.of_nat (String.length text) <=? maxBodyBytes)
          then Some target else None
      end
  end.

Section handlers.
Context `{!Unicode, !URLParser, !MapRange, !JSONDecoder}.

Definition createMonitor (s : MonitorService) (body : option string) (clk : Time) (rnd : Entropy)
  : MonitorService * ApiResponse :=
  match decodeJSON Decode_MonitorInput body with
  | None => (s, invalid_json)
  | Some input =>
      match service_Create s input clk rnd with
      | (s, Err err) => (s, writeStoreError err)
      | (s, Ok monitor) => (s, respond 201 (PMonitor monitor))
      end
  end.

Definition updateMonitor (s : MonitorService) (id : string) (body : option string) (clk : Time)
  : MonitorService * ApiResponse :=
  match decodeJSON Decode_MonitorPatch body with
  | None => (s, invalid_json)
  | Some patch =>
      match service_Update s id patch clk with
      | (s, Err err) => (s, writeStoreError err)
      | (s, Ok monitor) => (s, respond 200 (PMonitor monitor))
      end
  end.

Definition deleteMonitor (s : MonitorService) (id : string) : MonitorService * ApiResponse :=
  match service_Delete s id with
  | (s, Some err) => (s, writeStoreError err)
  | (s, None) => (s, respond 204 PNone)
  end.

Definition runManualCheck (s : MonitorService) (id : string) (now : Time) (rnd : Entropy)
  : MonitorService * ApiResponse :=
  match QueueManualCheck s id now rnd with
  | (s, Err err) => (s, writeStoreError err)
  | (s, Ok receipt) => (s, respond 202 (PReceipt receipt))
  end.

Definition getMonitor (s : MonitorService) (id : string) : ApiResponse :=
  match Get (repo s) id with Ok m => respond 200 (PMonitor m) | Err err => writeStoreError err end.

Definition getStats (s : MonitorService) (id : string) : ApiResponse :=
  match Stats (repo s) id with Ok st => respond 200 (PStats st) | Err err => writeStoreError err end.

(** [None]: slicing the page panics. *)
Definition listMonitors (s : MonitorService) (offset limit : string) : option ApiResponse :=
  match pagination offset limit with
  | None => Some invalid_pagination
  | Some (offset, limit) =>
      (λ r, respond 200 (PMonitors r.1 r.2 offset limit)) <$> List_ (repo s) offset limit
  end.

Definition listChecks (s : MonitorService) (id offset limit : string) : option ApiResponse :=
  match pagination offset limit with
  | None => Some invalid_pagination
  | Some (offset, limit) =>
      (λ r, match r with
            | Ok (items, total) => respond 200 (PChecks items total offset limit)
            | Err err => writeStoreError err
            end) <$> ListChecks (repo s) id offset limit
  end.

Definition listIncidents (s : MonitorService) (status offset limit : string) : option ApiResponse :=
  match pagination offset limit with
  | None => Some invalid_pagination
  | Some (offset, limit) =>
      (λ r, respond 200 (PIncidents r.1 r.2 offset limit)) <$> ListIncidents (repo s) (TrimSpace status) offset limit
  end.

Definition handle (s : MonitorService) (r : Request) (clk : Time) (rnd : Entropy)
  : option (MonitorService * ApiResponse) :=
  match r with
  | CreateMonitor body => Some (createMonitor s body clk rnd)
  | UpdateMonitor id body => Some (updateMonitor s id body clk)
  | DeleteMonitor id => Some (deleteMonitor s id)
  | RunManualCheck id => Some (runManualCheck s id clk rnd)
  | GetMonitor id => Some (s, getMonitor s id)
  | GetStats id => Some (s, getStats s id)
  | ListMonitors offset limit => (λ resp, (s, resp)) <$> listMonitors s offset limit
  | ListMonitorChecks id offset limit => (λ resp, (s, resp)) <$> listChecks s id offset limit
  | ListMonitorIncidents status offset limit => (λ resp, (s, resp)) <$> listIncidents s status offset limit
  end.

(** [requireAPIKey] around a handler; the headers are those of the request. *)
Definition requireAPIKey (apiKey xAPIKey authorization : string) (s : MonitorService) (r : Request) (clk : Time)
    (rnd : Entropy) : option (MonitorService * ApiResponse) :=
  if String.eqb apiKey "" then handle s r clk rnd
  else if validAPIKey apiKey xAPIKey authorization then handle s r clk rnd
  else Some (s, unauthorized).
End handlers.

(** ** What the service's calls answer *)

Lemma validate_invalid `{!Unicode, !URLParser} input policy err :
  validateMonitorInput input policy = Some err → ∃ why, err = ErrInvalidMonitor why.
Proof.
  unfold validateMonitorInput. intros Hv.
  repeat (case_match; simplify_eq); by eexists.
Qed.

Section answers.
Context `{!Unicode, !URLParser, !MapRange}.

Lemma Create_answers s input clk rnd :
  match Create s input clk rnd with
  | (s', Err e) => s' = s ∧ (e = ErrMonitorExists ∨ ∃ why, e = ErrInvalidMonitor why)
  | (s', Ok m) => byID s' = <[newMonitorID rnd := m]> (byID s)
  end.
Proof.
  unfold Create. destruct (validateMonitorInput input (policy s)) eqn:Hv; [split; [done|right; by eapply validate_invalid]|].
  cbn zeta. destruct (byURL s !! _); [by auto|]. done.
Qed.

Lemma Update_answers s id patch clk :
  match Update s id patch clk with
  | (s', Err e) => s' = s ∧ (e = ErrMonitorNotFound ∨ e = ErrMonitorExists ∨ ∃ why, e = ErrInvalidMonitor why)
  | (s', Ok m) => ∃ m0, byID s !! id = Some m0 ∧ byID s' = <[id := m]> (byID s)
  end.
Proof.
  unfold Update. destruct (byID s !! id) as [m0|]; [|by auto].
  destruct (validateMonitorInput _ _) eqn:Hv; [split; [done|right; right; by eapply validate_invalid]|].
  cbn zeta. destruct (match byURL s !! _ with Some _ => _ | None => _ end); [by auto|].
  set (s1 := if String.eqb _ _ then s else _). assert (byID s1 = byID s) as Hs1 by (unfold s1; by destruct (String.eqb _ _)).
  clearbody s1. match goal with |- context [if mon_Enabled ?u then _ else _] => set (upd := u) end.
  destruct (mon_Enabled upd) eqn:Hen, (checkSemanticsChanged _ m0); cbn -[finishActiveJobLocked resolveOpenIncidentLocked upd];
    rewrite ?Hen; eexists; (split; [done|]);
    repeat match goal with
    | |- context [finishActiveJobLocked ?a ?b ?c ?d ?e] => destruct (finishActiveJobLocked_fields a b c d e) as (_ & -> & _)
    | |- context [resolveOpenIncidentLocked ?a ?b ?c] => destruct (resolveOpenIncidentLocked_fields a b c) as (_ & -> & _)
    end; by rewrite Hs1.
Qed.

Lemma Delete_answers s id :
  match Delete s id with
  | (s', Some e) => s' = s ∧ e = ErrMonitorNotFound
  | (s', None) => is_Some (byID s !! id) ∧ byID s' = delete id (byID s)
  end.
Proof.
  unfold Delete. destruct (byID s !! id); [|done]. cbn zeta. split; [by eexists|].
  cbn. by destruct (activeJobByMonitor s !! id).
Qed.

Lemma CreateManualJob_answers s id now rnd :
  match CreateManualJob s id now rnd with
  | (s', Err e) => s' = s ∧ e = ErrMonitorNotFound
  | (s', Ok _) => byID s' = byID s
  end.
Proof.
  unfold CreateManualJob. destruct (byID s !! id); [|done]. cbn zeta.
  destruct (activeJobByMonitor s !! id) as [jobID|]; [|done]. by destruct (checkJobs s !! jobID).
Qed.
End answers.

Lemma RemoveMonitor_totalLinks m id : totalLinks (RemoveMonitor m id) = totalLinks m.
Proof. unfold RemoveMonitor. repeat case_match; by destruct m. Qed.

Lemma AdjustTotalLinks_exact m d : 0 <= totalLinks m + d <= max_int64 → totalLinks (AdjustTotalLinks m d) = totalLinks m + d.
Proof.
  intros Hr. change (totalLinks (AdjustTotalLinks m d)) with (Z.max (wrap64 (totalLinks m + d)) 0).
  rewrite wrap64_id by (unfold in_int64, two63, max_int64 in *; lia). lia.
Qed.

(** ** Pages *)

Lemma pagination_ok o l offset limit : pagination o l = Some (offset, limit) → 0 <= offset ∧ 1 <= limit <= 100.
Proof.
  assert (∀ raw d v, 0 <= d → parseNonNegativeInt raw d = Some v → 0 <= v) as Hp.
  { intros raw d v Hd. unfold parseNonNegativeInt. destruct (String.eqb _ _); [by intros [= <-]|].
    destruct (Atoi raw) as [z|]; [|done]. destruct (Z.ltb_spec z 0); [done|]. by intros [= <-]. }
  unfold pagination, maxPageLimit. destruct (parseNonNegativeInt o 0) as [o'|] eqn:Ho; [|done].
  destruct (parseNonNegativeInt l defaultPageLimit) as [l'|] eqn:Hl; [|done].
  apply Hp in Ho; [|lia]. apply Hp in Hl; [|unfold defaultPageLimit; lia].
  destruct (Z.eqb_spec l' 0), (Z.ltb_spec 100 l'); try done. intros [= <- <-]. lia.
Qed.

Lemma page_total {A} (l : list A) offset limit :
  0 <= offset → 1 <= limit <= 100 → Z.of_nat (length l) <= 2 ^ 62 + 10000 → ∃ p, page l offset limit = Some p.
Proof.
  intros Ho Hl Hlen. unfold page. destruct (Z.ltb_spec (Z.of_nat (length l)) offset); [by eexists|].
  rewrite wrap64_id by (unfold in_int64, two63, max_int64 in *; lia).
  rewrite (proj2 (Z.leb_le 0 offset)), (proj2 (Z.leb_le offset _)) by lia. by eexists.
Qed.

(** ** Properties *)

(** C36: with an API key configured, a request reaches its handler exactly when
    it carries that key, trimmed, in [X-API-Key] or as a bearer token; any
    other request is answered 401 whatever it asks, and changes nothing. *)
Theorem api_guarded `{!Unicode, !URLParser, !MapRange, !JSONDecoder} (apiKey xAPIKey authorization : string) (s : MonitorService)
    (r : Request) (clk : Time) (rnd : Entropy) :
  apiKey ≠ "" →
  requireAPIKey apiKey xAPIKey authorization s r clk rnd
  = if decide (TrimSpace xAPIKey = apiKey ∨ bearerToken authorization = apiKey) then handle s r clk rnd
    else Some (s, unauthorized).
Proof.
  intros Hkey. unfold requireAPIKey. rewrite (proj2 (String.eqb_neq _ _) Hkey).
  assert (∀ c, negb (String.eqb c "") && (String.length c =? String.length apiKey)%nat && String.eqb c apiKey
               = bool_decide (c = apiKey)) as Hc.
  { intros c. destruct (decide (c = apiKey)) as [->|Hne].
    - by rewrite (proj2 (String.eqb_neq _ _) Hkey), Nat.eqb_refl, String.eqb_refl, bool_decide_true.
    - by rewrite (proj2 (String.eqb_neq _ _) Hne), andb_false_r, bool_decide_false. }
  unfold validAPIKey. cbn [existsb]. rewrite !Hc, orb_false_r.
  destruct (decide (TrimSpace xAPIKey = apiKey)) as [Hx|Hx]; [rewrite bool_decide_true by done|rewrite bool_decide_false by done];
    destruct (decide (bearerToken authorization = apiKey)) as [Hb|Hb];
    [rewrite bool_decide_true by done|rewrite bool_decide_false by done|rewrite bool_decide_true by done|rewrite bool_decide_false by done];
    cbn [orb]; [by rewrite decide_True by auto..|]. rewrite decide_False; [done|]. by intros [|].
Qed.

Definition sample_service : MonitorService := mkService (sample 5) sample_metrics.
(** A decoder that knows the empty object. *)
#[local] Instance empty_object_decoder : JSONDecoder := {|
  Decode_MonitorInput _ := None;
  Decode_MonitorPatch text :=
    if String.prefix "{}" text
    then Some ({| patch_URL := None; patch_IntervalSeconds := None; patch_TimeoutSeconds := None;
                  patch_ExpectedStatus := None; patch_Enabled := None |}, String.substring 2 (String.length text - 2) text)
    else None;
|}.

Lemma api_guarded_witness :
  "secret" ≠ "" ∧
  requireAPIKey "secret" "wrong" "Bearer guess" sample_service (DeleteMonitor sample_monitor) 0 (sample_rnd 9)
  = Some (sample_service, unauthorized)
  ∧ requireAPIKey "secret" "" "bearer  secret " sample_service (DeleteMonitor sample_monitor) 0 (sample_rnd 9)
  = handle sample_service (DeleteMonitor sample_monitor) 0 (sample_rnd 9).
Proof.
  split; [discriminate|]. split.
  - rewrite (api_guarded "secret" "wrong" "Bearer guess" sample_service (DeleteMonitor sample_monitor) 0 (sample_rnd 9) ltac:(discriminate)).
    rewrite decide_False by (vm_compute; intros [Hx|Hx]; discriminate). reflexivity.
  - rewrite (api_guarded "secret" "" "bearer  secret " sample_service (DeleteMonitor sample_monitor) 0 (sample_rnd 9) ltac:(discriminate)).
    rewrite decide_True by (right; vm_compute; reflexivity). reflexivity.
Defined.

(** What a request draws is not in use. *)
Definition request_fresh (s : MonitorStore) (r : Request) (rnd : Entropy) : Prop :=
  match r with
  | CreateMonitor _ => byID s !! newMonitorID rnd = None
  | RunManualCheck _ => entropy_ok rnd ∧ checkJobs s !! newID "job" rnd = None
  | _ => True
  end.

(** The service is in order: the gauge of configured URLs counts the monitors. *)
Record service_ok (p : NetworkPolicy) (s : MonitorService) `{!Unicode, !URLParser, !MapRange} : Prop := {
  so_store : reachable p (repo s);
  so_metrics : metrics_wf (metrics s);
  so_links : totalLinks (metrics s) = Count (repo s);
}.

(** The responses openapi.yaml lists for the operation of a request. *)
Definition responses (r : Request) : list Z :=
  match r with
  | ListMonitors _ _ => [401; 200]
  | CreateMonitor _ => [401; 201; 400; 409]
  | GetMonitor _ => [401; 200; 404]
  | UpdateMonitor _ _ => [401; 200; 400; 404; 409]
  | DeleteMonitor _ => [401; 204; 404]
  | ListMonitorChecks _ _ _ => [401; 200; 404]
  | RunManualCheck _ => [401; 202; 404]
  | GetStats _ => [401; 200; 404]
  | ListMonitorIncidents _ _ _ => [401; 200]
  end.
Definition documented (r : Request) (resp : ApiResponse) : Prop := status_code resp ∈ responses r.

(** A list whose page is refused: for these openapi.yaml has no response. *)
Definition bad_page (r : Request) : Prop :=
  match r with
  | ListMonitors offset limit | ListMonitorChecks _ offset limit | ListMonitorIncidents _ offset limit =>
      pagination offset limit = None
  | _ => False
  end.
#[export] Instance bad_page_dec r : Decision (bad_page r).
Proof. destruct r; cbn; apply _. Defined.

(** The answer is one the document has, but for a page that is refused. *)
Definition answered (r : Request) (resp : ApiResponse) : Prop :=
  if decide (bad_page r) then resp = invalid_pagination ∧ ¬ documented r resp else documented r resp.

Definition answers_ok (p : NetworkPolicy) (r : Request) (s s' : MonitorService) (resp : ApiResponse) `{!Unicode, !URLParser, !MapRange} : Prop :=
  service_ok p s' ∧ documented r resp ∧ (400 <= status_code resp → s' = s).

Lemma store_error_answer p r s err `{!Unicode, !URLParser, !MapRange} :
  service_ok p s → (mapAPIError err).1.1 ∈ responses r → answers_ok p r s s (writeStoreError err).
Proof.
  intros Hs Herr. split; [done|]. split; [|done]. unfold documented, writeStoreError.
  destruct (mapAPIError err) as [[status code] message]. done.
Qed.

Lemma answered_page r : bad_page r → ¬ documented r invalid_pagination → answered r invalid_pagination.
Proof. intros Hr Hn. unfold answered. by rewrite decide_True by done. Qed.
Lemma answered_documented r resp : ¬ bad_page r → documented r resp → answered r resp.
Proof. intros Hr Hd. unfold answered. by rewrite decide_False by done. Qed.
Lemma pagination_good o l page : pagination o l = Some page → pagination o l ≠ None.
Proof. congruence. Qed.

Ltac is_documented := unfold documented; cbn; set_solver.

Section api.
Context `{!Unicode, !URLParser, !MapRange, !JSONDecoder} (p : NetworkPolicy).

(** No body, or one beyond the limit. *)
Definition oversized (body : option string) : Prop :=
  match body with None => True | Some text => maxBodyBytes < Z.of_nat (String.length text) end.

Lemma decodeJSON_oversized {T} (decode : string → option (T * string)) body : oversized body → decodeJSON decode body = None.
Proof.
  destruct body as [text|]; cbn; [|done]. intros Hlen. destruct (decode _) as [[target rest]|]; [|done].
  by rewrite (proj2 (Z.leb_gt _ _)), andb_false_r by done.
Qed.

Lemma createMonitor_ok s body clk rnd :
  service_ok p s → Count (repo s) <= 2 ^ 62 → byID (repo s) !! newMonitorID rnd = None →
  answers_ok p (CreateMonitor body) s (createMonitor s body clk rnd).1 (createMonitor s body clk rnd).2.
Proof.
  intros Hs Hcount Hfresh. destruct s as [store ms]. unfold createMonitor.
  destruct (decodeJSON Decode_MonitorInput body) as [input|]; [|split; [done|]; split; [is_documented|done]].
  unfold service_Create. cbn [repo metrics] in *. pose proof (Create_answers store input clk rnd) as Ha.
  pose proof (reachable_step p store (OpCreate input clk rnd) (Create store input clk rnd).1 (so_store _ _ Hs) Hfresh eq_refl) as Hr.
  destruct (Create store input clk rnd) as [s' [m|e]]; cbn [fst] in Hr.
  - split; [|split; [is_documented|cbn; lia]]. destruct Hs as [Hreach Hwf Hlinks]. cbn [repo metrics] in *.
    split; [done| |].
    + destruct (apply_metric_wf ms (MAdjustTotalLinks 1) Hwf) as (ms' & [= <-] & ?). done.
    + cbn [repo metrics fst]. unfold Count in *. rewrite AdjustTotalLinks_exact by (unfold max_int64; lia).
      rewrite Ha, map_size_insert_None by done. lia.
  - destruct Ha as [-> He]. apply store_error_answer; [done|]. destruct_or! He; [subst e; cbn; set_solver..|]. destruct He as [why ->]. cbn. set_solver.
Qed.

Lemma updateMonitor_ok s id body clk :
  service_ok p s → answers_ok p (UpdateMonitor id body) s (updateMonitor s id body clk).1 (updateMonitor s id body clk).2.
Proof.
  intros Hs. destruct s as [store ms]. unfold updateMonitor.
  destruct (decodeJSON Decode_MonitorPatch body) as [patch|]; [|split; [done|]; split; [is_documented|done]].
  unfold service_Update. cbn [repo metrics]. pose proof (Update_answers store id patch clk) as Ha.
  pose proof (reachable_step p store (OpUpdate id patch clk) (Update store id patch clk).1 (so_store _ _ Hs) I eq_refl) as Hr.
  destruct (Update store id patch clk) as [s' [m|e]]; cbn [fst] in Hr.
  - split; [|split; [is_documented|cbn; lia]]. destruct Hs as [Hreach Hwf Hlinks]. cbn [repo metrics] in *.
    destruct Ha as (m0 & Hm0 & Hb).
    assert (metrics_wf (RemoveMonitor ms id) ∧ totalLinks (RemoveMonitor ms id) = totalLinks ms) as [Hwf' Hl']
      by (split; [by apply RemoveMonitor_spec|apply RemoveMonitor_totalLinks]).
    split; [done| |]; cbn [repo metrics fst]; destruct (gauges_stale patch); try done;
      rewrite ?Hl', Hlinks; unfold Count; by rewrite Hb, map_size_insert_Some by (by exists m0).
  - destruct Ha as [-> He]. apply store_error_answer; [done|]. destruct_or! He; [subst e; cbn; set_solver..|]. destruct He as [why ->]. cbn. set_solver.
Qed.

Lemma deleteMonitor_ok s id :
  service_ok p s → Count (repo s) <= 2 ^ 62 → answers_ok p (DeleteMonitor id) s (deleteMonitor s id).1 (deleteMonitor s id).2.
Proof.
  intros Hs Hcount. destruct s as [store ms]. unfold deleteMonitor, service_Delete. cbn [repo metrics] in *.
  pose proof (Delete_answers store id) as Ha.
  pose proof (reachable_step p store (OpDelete id) (Delete store id).1 (so_store _ _ Hs) I eq_refl) as Hr.
  destruct (Delete store id) as [s' [e|]]; cbn [fst] in Hr.
  - destruct Ha as [-> ->]. apply store_error_answer; [done|cbn; set_solver].
  - split; [|split; [is_documented|cbn; lia]]. destruct Hs as [Hreach Hwf Hlinks]. cbn [repo metrics] in *.
    destruct Ha as [Hin Hb]. split; [done| |]; cbn [repo metrics fst].
    + destruct (apply_metric_wf ms (MAdjustTotalLinks (-1)) Hwf) as (ms' & [= <-] & ?). by apply RemoveMonitor_spec.
    + unfold Count in *. rewrite RemoveMonitor_totalLinks. destruct Hin as [m Hm].
      pose proof (map_size_delete_Some _ _ (ex_intro _ m Hm : is_Some (byID store !! id))) as Hsz.
      assert (0 < size (byID store))%nat as Hpos.
      { destruct (decide (size (byID store) = 0%nat)) as [H0'|]; [|lia]. apply map_size_empty_inv in H0'. by rewrite H0' in Hm. }
      rewrite AdjustTotalLinks_exact by (unfold max_int64; lia). rewrite Hb, Hsz. lia.
Qed.

Lemma runManualCheck_ok s id clk rnd :
  service_ok p s → entropy_ok rnd → checkJobs (repo s) !! newID "job" rnd = None →
  answers_ok p (RunManualCheck id) s (runManualCheck s id clk rnd).1 (runManualCheck s id clk rnd).2.
Proof.
  intros Hs He Hfresh. destruct s as [store ms]. unfold runManualCheck, QueueManualCheck. cbn [repo metrics] in *. unfold UTC.
  pose proof (CreateManualJob_answers store id clk rnd) as Ha.
  pose proof (reachable_step p store (OpCreateManualJob id clk rnd) (CreateManualJob store id clk rnd).1 (so_store _ _ Hs)
    (conj He Hfresh) eq_refl) as Hr.
  destruct (CreateManualJob store id clk rnd) as [s' [[job created]|e]]; cbn [fst] in Hr.
  - split; [|split; [is_documented|cbn; lia]]. destruct Hs as [Hreach Hwf Hlinks]. cbn [repo metrics] in *.
    split; [done|done|]. cbn. unfold Count. by rewrite Ha.
  - destruct Ha as [-> ->]. apply store_error_answer; [done|cbn; set_solver].
Qed.

Lemma delete_forgets s id :
  metrics_wf (metrics s) → status_code (deleteMonitor s id).2 = 204 →
  byID (repo (deleteMonitor s id).1) !! id = None ∧ id ∉ trackedMonitors (metrics (deleteMonitor s id).1).
Proof.
  intros Hm. unfold deleteMonitor, service_Delete. pose proof (Delete_answers (repo s) id) as Ha.
  destruct (Delete (repo s) id) as [s' [e|]]; [destruct Ha as [_ ->]; done|]. intros _. destruct Ha as [_ Hb]. cbn [fst repo metrics].
  split; [rewrite Hb; apply lookup_delete_eq|].
  destruct (apply_metric_wf (metrics s) (MAdjustTotalLinks (-1)) Hm) as (ms' & [= <-] & Hwf). by apply RemoveMonitor_spec.
Qed.

Lemma incidents_small s : reachable p s → Z.of_nat (size (incidents s)) <= 10000 + Count s.
Proof.
  intros Hs%reachable_wf. pose proof (table_bounded _ _ _ _ _ _ _ _ _ (sw_incidents s Hs)) as Hb. rewrite size_dom in Hb.
  unfold maxRetainedResolvedIncidents, Count in *. lia.
Qed.

Lemma listMonitors_answers s o l :
  service_ok p s → Count (repo s) <= 2 ^ 62 → ∃ resp, listMonitors s o l = Some resp ∧ answered (ListMonitors o l) resp.
Proof.
  intros Hs Hcount. unfold listMonitors. destruct (pagination o l) as [[offset limit]|] eqn:Hp;
    [|eexists; split; [done|]; apply answered_page; [exact Hp|is_documented]].
  apply pagination_good in Hp as Hg.
  apply pagination_ok in Hp as [Ho Hl]. unfold List_.
  destruct (page_total (SortFunc compare_created_asc (map_range (byID (repo s))).*2) offset limit Ho Hl) as [pg ->].
  { rewrite length_SortFunc, length_fmap, length_map_range. unfold Count in Hcount. lia. }
  eexists. split; [done|]. apply answered_documented; [done|is_documented].
Qed.

Lemma listChecks_answers s id o l :
  service_ok p s → ∃ resp, listChecks s id o l = Some resp ∧ answered (ListMonitorChecks id o l) resp.
Proof.
  intros Hs. unfold listChecks. destruct (pagination o l) as [[offset limit]|] eqn:Hp;
    [|eexists; split; [done|]; apply answered_page; [exact Hp|is_documented]].
  apply pagination_good in Hp as Hg.
  apply pagination_ok in Hp as [Ho Hl]. unfold ListChecks.
  destruct (byID (repo s) !! id) as [m|]; [|eexists; split; [done|]; apply answered_documented; [done|is_documented]].
  destruct (page_total (SortFunc compare_checked_desc (default [] (checks (repo s) !! id))) offset limit Ho Hl) as [pg ->].
  { rewrite length_SortFunc. pose proof (reachable_wf _ _ (so_store _ _ Hs)) as Hwf.
    destruct (checks (repo s) !! id) as [rs|] eqn:Hr; [|cbn; lia].
    apply (sw_checks _ Hwf) in Hr as (_ & Hlen & _). unfold maxChecksPerMonitor in Hlen. change (default [] (Some rs)) with rs. lia. }
  eexists. split; [done|]. apply answered_documented; [done|is_documented].
Qed.

Lemma listIncidents_answers s status o l :
  service_ok p s → Count (repo s) <= 2 ^ 62 → ∃ resp, listIncidents s status o l = Some resp ∧ answered (ListMonitorIncidents status o l) resp.
Proof.
  intros Hs Hcount. unfold listIncidents. destruct (pagination o l) as [[offset limit]|] eqn:Hp;
    [|eexists; split; [done|]; apply answered_page; [exact Hp|is_documented]].
  apply pagination_good in Hp as Hg.
  apply pagination_ok in Hp as [Ho Hl]. unfold ListIncidents.
  destruct (page_total (SortFunc compare_incidents_desc (List.filter (incident_selected (TrimSpace status))
    (map_range (incidents (repo s))).*2)) offset limit Ho Hl) as [pg ->].
  { rewrite length_SortFunc. pose proof (List.filter_length_le (incident_selected (TrimSpace status)) (map_range (incidents (repo s))).*2) as Hf.
    rewrite length_fmap, length_map_range in Hf. pose proof (incidents_small _ (so_store _ _ Hs)). lia. }
  eexists. split; [done|]. apply answered_documented; [done|is_documented].
Qed.
End api.

(** C35: every request the API routes is answered, without a panic, with a status
    that openapi.yaml lists for its operation, but for one case the document
    leaves out: a list with a bad offset or limit is answered 400 (never is the
    answer 500 on the in-memory repository); a rejected request changes nothing and a reading one never does; the store's
    and the metrics' invariants are kept and the gauge of configured URLs
    keeps counting the stored monitors; a deleted monitor is gone from the store
    and from the metrics; a body that is missing or longer than a megabyte is
    refused whatever it says. *)
Theorem api_responses `{!Unicode, !URLParser, !MapRange, !JSONDecoder} (p : NetworkPolicy) (s : MonitorService) (r : Request) (clk : Time) (rnd : Entropy) :
  service_ok p s → Count (repo s) <= 2 ^ 62 → request_fresh (repo s) r rnd →
  ∃ s' resp, handle s r clk rnd = Some (s', resp)
  ∧ service_ok p s' ∧ answered r resp ∧ (400 <= status_code resp → s' = s)
  ∧ match r with
    | CreateMonitor body | UpdateMonitor _ body => oversized body → status_code resp = 400 ∧ s' = s
    | RunManualCheck _ => True
    | DeleteMonitor id => status_code resp = 204 → byID (repo s') !! id = None ∧ id ∉ trackedMonitors (metrics s')
    | _ => s' = s
    end.
Proof.
  intros Hs Hcount Hfresh. destruct r as [body|o l|id|id body|id|id o l|id|id|st o l]; cbn [handle request_fresh] in *.
  - eexists _, _. split; [apply f_equal, surjective_pairing|]. destruct (createMonitor_ok p s body clk rnd Hs Hcount Hfresh) as (? & ? & ?).
    split; [done|]. split; [apply answered_documented; [intros []|done]|]. split; [done|]. intros Hb. unfold createMonitor. by rewrite decodeJSON_oversized.
  - destruct (listMonitors_answers p s o l Hs Hcount) as (resp & -> & ?). by exists s, resp.
  - eexists _, _. split; [done|]. split; [done|]. split; [|done]. apply answered_documented; [intros []|]. unfold getMonitor, Get.
    destruct (byID (repo s) !! id); is_documented.
  - eexists _, _. split; [apply f_equal, surjective_pairing|]. destruct (updateMonitor_ok p s id body clk Hs) as (? & ? & ?).
    split; [done|]. split; [apply answered_documented; [intros []|done]|]. split; [done|]. intros Hb. unfold updateMonitor. by rewrite decodeJSON_oversized.
  - eexists _, _. split; [apply f_equal, surjective_pairing|]. destruct (deleteMonitor_ok p s id Hs Hcount) as (? & ? & ?).
    split; [done|]. split; [apply answered_documented; [intros []|done]|]. split; [done|]. apply delete_forgets, (so_metrics _ _ Hs).
  - destruct (listChecks_answers p s id o l Hs) as (resp & -> & ?). by exists s, resp.
  - eexists _, _. split; [apply f_equal, surjective_pairing|]. destruct Hfresh as [He Hf].
    destruct (runManualCheck_ok p s id clk rnd Hs He Hf) as (? & ? & ?).
    split; [done|]. split; [apply answered_documented; [intros []|done]|done].
  - eexists _, _. split; [done|]. split; [done|]. split; [|done]. apply answered_documented; [intros []|]. unfold getStats, Stats.
    destruct (byID (repo s) !! id); [|is_documented]. cbn zeta. destruct (_ =? 0); [is_documented|].
    destruct (stats_loop _ _) as [[? ?] ?]. is_documented.
  - destruct (listIncidents_answers p s st o l Hs Hcount) as (resp & -> & ?). by exists s, resp.
Qed.

Lemma sample_service_ok : service_ok default_policy sample_service.
Proof.
  split.
  - exact (sample_reachable 5).
  - exact (newMetrics_wf "dev" "none" "unknown" 1 true 0 sample_metrics eq_refl).
  - vm_compute. reflexivity.
Qed.

Lemma api_responses_witness :
  Count (repo sample_service) <= 2 ^ 62 ∧
  ∃ s' resp, handle sample_service (DeleteMonitor sample_monitor) 0 (sample_rnd 9) = Some (s', resp)
  ∧ totalLinks (metrics s') = Count (repo s') ∧ (status_code resp = 204 → byID (repo s') !! sample_monitor = None).
Proof.
  assert (Count (repo sample_service) <= 2 ^ 62) as Hc by (vm_compute; discriminate). split; [exact Hc|].
  destruct (api_responses default_policy sample_service (DeleteMonitor sample_monitor) 0 (sample_rnd 9) sample_service_ok Hc I)
    as (s' & resp & Hrun & Hok & _ & _ & Hgone).
  exists s', resp. split; [exact Hrun|]. split; [exact (so_links _ _ Hok)|]. intros Hst. exact (proj1 (Hgone Hst)).
Defined.
